(* ===== verification/_CoqProject ===== *)
-Q . S2P
Prelude.v
Arena.v
Machine.v
Conc.v
Fifo.v
Timing.v
ThreadParker.v
Resources.v
Parking.v
RawMutex.v
SmallMutex.v
RawMutexInv.v
RawMutexConc.v
Solo.v
MutexSolo.v
Refine.v
ParkLot.v
ParkQueue.v
ParkTable.v
ParkGrow.v
ParkSim.v
WordLock.v
WordLockInv.v
WordLockConc.v
CoQueue.v
CoQueueSpec.v
CoQueueMain.v
Linear.v
CoQueueGhost.v
CoQueueSteps.v
CoQueueLin.v
CoQueueConc.v
CoQueueLen.v
Stream.v
BlockingCol.v
BlockingConc.v
BlockingIter.v
OwnRef.v
OwnBox.v
ShiftGuard.v
RawQueue.v
RawQueueSpec.v
ShiftQueue.v
ParkConc.v
MutexLot.v
