(* ===== verification/Prelude.v ===== *)
(** * co_queue: a verification of its queues and its mutex

    The files under [src/src/] hold three queues and a mutex.  The crate root [lib.rs]
    declares only the modules [mutex] and [queue]; the others are commented out there, and
    are verified as they are in their files.

    - [CoQueue] ([lockless_queue.rs]) is a lock-free queue: a linked list of chunks
      of 31 slots, after crossbeam's [SegQueue].  [stream.rs] turns it into an
      iterator and a stream that listen to a channel of commands;
      [blocking_col.rs] wraps it in a [RwLock].
    - [ShiftQueue] ([queue/mod.rs]) is a Michael-Scott style linked queue on tagged
      pointers ([queue/own_ref.rs]); retired nodes go to a bounded stack
      ([queue/shift_guard.rs]).
    - [SmallMutex] ([mutex/mod.rs]) puts data behind a one-byte lock
      ([mutex/raw_mutex.rs]) whose waiting threads sleep in a parking lot
      ([mutex/deadlock.rs], a copy of parts of parking_lot_core).
    - [backoff.rs], [cahch_pad.rs] and [waker.rs] are helpers of the first.

    ** Files

    Foundations:
    - [Prelude]: machine integers, lenses, list lemmas, tactics, hint databases.
    - [Machine]: programs ([prog]) as trees of atomic steps on a shared state; [run]
      executes one alone, [sched] a pool of them under a schedule; [twp]/[returns]
      is the logic of total correctness of a thread that runs alone, [faults] that
      of executions that end in a panic, an abort or undefined behaviour.
    - [Conc]: the logic of a thread in a pool ([csafe]): an invariant over the state
      and the phases of all threads; [pool_adequate] turns it into a statement about
      every schedule.
    - [Fifo]: what a queue promises, as the classes [QueueOps] and [QueueLaws], and
      the client [run_ops] verified against them.
    - [Arena]: a concrete allocator, an instance of the allocator classes.

    - [Solo]: possible results ([evals]) and safety without termination ([psafe]) of
      a thread alone, for operations that may wait for ever, and partial
      correctness ([wlp]).
    - [Refine]: refinement of a pool of threads by another one, which runs along as
      ghost state.
    - [Linear]: histories of calls and returns, and when they are linearizable
      against the queue of [Fifo].

    The mutex, bottom up:
    - [Timing]: [Backoff], [SpinWait], [FairTimeout].
    - [ThreadParker]: the futex word a thread sleeps on, for any system that has one,
      and the class [Kernel] of what the system call promises; used by both locks.
    - [Resources]: [acquire_resource] and [release_resource].
    - [WordLock], [WordLockInv], [WordLockConc]: the word-sized lock of a bucket
      (module [word_lock] of [deadlock.rs]) with any number of threads.
    - [Parking]: the interface of the parking lot ([ParkingLot]) and its abstract
      specification: a bucket with its queue as a list.
    - [ParkLot]: the parking lot of [deadlock.rs]: thread data, the hash table, [park]
      and [unpark_one]; [ParkQueue], [ParkTable] and [ParkGrow] verify its lists, its
      table and the growth of the table, [ParkSim] that each operation of a thread
      alone implements that of [Parking], and [ParkConc] that any number of threads do.
    - [RawMutex], [SmallMutex]: the code of [raw_mutex.rs] and [mod.rs].
    - [RawMutexInv], [RawMutexConc]: any number of threads on one mutex, with the
      abstract bucket; [MutexLot]: with the parking lot itself, down to the futex.
    - [MutexSolo]: one thread on a mutex.

    The queues:
    - [CoQueue], [CoQueueSpec], [CoQueueMain]: the chunked queue; its operations, the
      representation invariant with one lemma per operation, the theorems for one
      thread.
    - [CoQueueGhost], [CoQueueSteps], [CoQueueLin], [CoQueueConc]: the chunked queue
      with any number of threads: the invariant, its preservation by each kind of
      atomic access, the two operations, the theorems; [CoQueueLen]: [len] and
      [is_empty] in the states that threads reach.
    - [Stream], [BlockingCol]: the users of the chunked queue, and the waker (module
      [Waker]); [BlockingConc]: the second with any number of threads; [BlockingIter]:
      the same while one of them iterates.
    - [OwnRef], [OwnBox]: tagged pointers, and the boxes they own.
    - [ShiftGuard], [RawQueue]: the linked queue; [RawQueueSpec] its representation
      invariant, [ShiftQueue] the theorems.

    ** How the code is represented

    Every access to an atomic, a [Cell] or an [UnsafeCell] that other threads can
    see is one step of a [prog]; Rust code between two accesses is a pure
    function.  [loop], [while] and recursion become [loop] and [forever], which
    may run without end; [returns p s Q] says that [p] does return, and
    [returns_run] that [run] then computes the result with some fuel.  So no fuel
    is chosen anywhere, and no theorem says only what holds if a call returns.

    A weak compare-exchange may fail spuriously.  In a pool the schedule decides
    each failure; for a thread alone, [twp n] allows any finite number of
    failures, which the run spends from a budget: a loop around a weak exchange
    that fails for ever does not return, in Rust as here.  [Instant::now] gives
    arbitrary readings.

    Panics (failed assertions, [unwrap], arithmetic overflow of a debug build),
    aborts and undefined behaviour (access to memory that is not allocated,
    double free, reading uninitialised memory) are outcomes of their own.
    Memory that the code allocates is a map from addresses to objects; the
    allocator is a parameter with laws ([BoxAlloc], [ChunkAlloc], [TableAlloc]): an
    address it gives is fresh, aligned and not null, and [room] objects fit; [Arena]
    has instances.  Where a thread has its data is a parameter too ([Stacks],
    [ThreadLocals]).  Whether [MaybeUninit::uninit().assume_init()] is undefined behaviour at
    once, as documented, is the parameter [UninitRule] of [RawQueue].  The [futex] system call is a parameter with its documented
    results ([Kernel] in [ThreadParker]), with an instance that counts.
    [num_cpus] is the parameter [threads].  [usize] is 64 bits wide.

    ** What is shown

    - [CoQueueConc] (C1, C2): under every schedule of any number of threads that push
      and pop, [CoQueue] does not go wrong and is linearizable; no value is lost or
      duplicated, and [len] is exact once all threads have returned.
    - [ParkConc] (C3): any number of threads that park, with and without timeouts, and
      unpark on lists, hash table and futex do only what the same threads do on the
      abstract bucket.
    - [MutexLot] (C4, C5): the mutex on that parking lot, under every schedule of any
      number of threads: mutual exclusion, no lost update, no lost wakeup.
    - [RawMutexConc] (C6 to C8, C24): the same on the abstract bucket, and the state byte
      is as its documentation says, for threads that lock, use the data and unlock.
    - [WordLockConc] (C9, C10): mutual exclusion and freedom from deadlock for the lock
      of a bucket down to its futex.
    - [CoQueueLen] (C11, C17): what [len] and [is_empty] return while operations are in
      progress, and that [len] panics when head and tail wait at the end of one chunk.
    - [CoQueueMain] (C12, C16): any sequence of operations of one thread agrees with a
      list; dropping the queue drops each element once; but [pop] never frees a chunk.
    - [ShiftQueue], [ShiftGuard] (C13 to C15, C26, C27, C33 to C35): if [Node::default] is
      not undefined behaviour in itself, the linked queue agrees with a list until as
      many elements as the guard has room for are popped; then, and in the listed
      interleavings, it loses elements or has undefined behaviour.  Its drop frees only
      its last node.
    - [BlockingIter], [BlockingConc] (C18, C19): the queue behind a lock is linearizable
      too, also while a thread iterates over it and others send it messages; the threads do
      not block each other for ever, and pushing and popping alone never wait.
    - [ParkSim], [ParkGrow] (C20 to C23): [park] and [unpark_one] of one thread refine
      those of the abstract bucket and return; a thread marked as deadlocked reports itself
      and sleeps; growing the table keeps every queue.
    - [OwnBox], [OwnRef] (C25, C36, C40): boxes behave like values and are freed once;
      tags; writing through a tagged pointer is undefined behaviour.
    - [MutexSolo] (C28 to C30): the operations of the mutex when one thread runs,
      with the two defects of [try_lock] and of mapped guards.  The drop of a value at the
      end of its scope, and [mem::forget], are explicit there ([Drop] in [SmallMutex]).
    - [Stream] (C31, C32): iteration, and its end by a message that is in the channel or
      that the body of the loop sends.
    - [Timing], [Resources] (C37 to C39): the leaf components.

    ** Bounds of the model

    Interleavings are sequentially consistent: the effects of [Ordering::Relaxed],
    [Acquire] and [Release] are not modelled.

    The number of threads, operations and values is arbitrary, within what fits the
    machine: C1, C2, C11 and C17 to C19 ask for room for the chunks of all values and two more for
    each thread, and for fewer than 2^60 values, so that indices do not wrap
    ([fits], [iter_fits]); C9 and C10 for as many stacks as there are threads ([max_threads]).

    The threads of C3 to C5 have their thread data, so that the table does not grow
    meanwhile, and use keys of one bucket; that creating thread data and growing the
    table keep every queue is shown for one thread at a time (C23).  In [ParkLot] the
    lock of a bucket blocks until it is free, which is what [WordLockConc] shows of
    [WordLock].  [len] and [is_empty] of [CoQueue] run undisturbed from any state that
    other threads reach; [drop] and the iterator of [CoQueue], which borrow it
    mutably, are verified with no other operation in progress, and with no other thread that
    sends messages meanwhile.  One thread iterates over a
    [BlockingQueue]; the messages it receives are not [Error], which makes it panic
    ([iter_next_error_panics]).

    An [Instant] is an integer, so that adding to it does not overflow.  The buffer of a
    [PtrGuard] can be allocated whatever its capacity; its [Mootex] is the state byte, on which
    [lock] waits, without the parking of [RawMutex].  The resources of a thread are in a map
    by thread, not in the thread data.

    Not modelled: formatting that only reads initialised memory, the crate root
    (re-exports), and the tests.  Thread ids and backtraces in deadlock reports come from
    other crates and are parameters ([ThreadLocals]). *)

From Stdlib Require Export ZArith Lia.
From stdpp Require Export base tactics numbers option functions sets gmap list.

#[global] Open Scope Z_scope.

(** ** Machine integers

    A Rust unsigned integer of width [w] is a [Z] in [0, 2^w). *)

Definition wrap (w z : Z) : Z := z mod 2 ^ w.

(** [usize] is 64 bits wide. *)
Definition usize : Z := 64.

(** [!x] on an unsigned integer of width [w]. *)
Definition unot (w x : Z) : Z := 2 ^ w - 1 - x.

(** The range of an unsigned integer of width [w]. *)
Definition in_width (w x : Z) : Prop := 0 <= x < 2 ^ w.

Lemma wrap_range w z : 0 <= w -> in_width w (wrap w z).
Proof. intros. apply Z.mod_pos_bound. lia. Qed.

Lemma wrap_small w z : in_width w z -> wrap w z = z.
Proof. intros. by apply Z.mod_small. Qed.

(** A value of width [w] has no bit at or above [w]. *)
Lemma in_width_testbit w x i : in_width w x -> 0 <= w <= i -> Z.testbit x i = false.
Proof.
  intros Hx Hi. rewrite <- (Z.mod_small x (2 ^ w)) by apply Hx.
  apply Z.mod_pow2_bits_high. lia.
Qed.

Lemma unot_lnot w m : 0 <= w -> in_width w m -> unot w m = Z.land (Z.lnot m) (Z.ones w).
Proof.
  intros Hw Hm. unfold unot. rewrite Z.land_ones by lia. unfold Z.lnot.
  replace (Z.pred (- m)) with ((2 ^ w - 1 - m) + (-1) * 2 ^ w) by lia.
  rewrite Z_mod_plus_full. symmetry. apply Z.mod_small. unfold in_width in *. lia.
Qed.

(** Masking with the complement clears exactly the mask's bits. *)
Lemma land_unot_ldiff w x m :
  0 <= w -> in_width w x -> in_width w m -> Z.land x (unot w m) = Z.ldiff x m.
Proof.
  intros Hw Hx Hm. rewrite unot_lnot by done. apply Z.bits_inj'. intros i Hi.
  rewrite !Z.land_spec, Z.lnot_spec, Z.ldiff_spec, Z.testbit_ones_nonneg by lia.
  destruct (Z.ltb_spec i w); [by rewrite andb_true_r|].
  by rewrite (in_width_testbit w x i) by (done || lia).
Qed.

(** [Option::is_some]. *)
Definition is_some {A} (o : option A) : bool := match o with Some _ => true | None => false end.

(** ** Lenses: a component of a larger state *)

Record lens (S X : Type) : Type := Lens { lget : S -> X; lput : X -> S -> S }.
Arguments Lens {S X} lget lput.
Arguments lget {S X} l s.
Arguments lput {S X} l x s.

Class LensLaws {S X} (l : lens S X) : Prop := {
  lget_lput x s : lget l (lput l x s) = x;
  lput_lget s : lput l (lget l s) s = s;
  lput_lput x y s : lput l x (lput l y s) = lput l x s;
}.

Definition lens_id {S} : lens S S := Lens (fun s => s) (fun x _ => x).

#[export] Instance lens_id_laws {S} : LensLaws (@lens_id S).
Proof. by split. Qed.

(** The components of a pair. *)
Definition lens_fst {X Y : Type} : lens (X * Y) X := Lens fst (fun x s => (x, snd s)).
Definition lens_snd {X Y : Type} : lens (X * Y) Y := Lens snd (fun y s => (fst s, y)).

#[export] Instance lens_fst_laws {X Y} : LensLaws (@lens_fst X Y).
Proof. split; [done|by intros []|done]. Qed.
#[export] Instance lens_snd_laws {X Y} : LensLaws (@lens_snd X Y).
Proof. split; [done|by intros []|done]. Qed.

(** A component of a component. *)
Definition lens_comp {S X Y} (l : lens S X) (m : lens X Y) : lens S Y :=
  Lens (fun s => lget m (lget l s)) (fun y s => lput l (lput m y (lget l s)) s).

#[export] Instance lens_comp_laws {S X Y} (l : lens S X) (m : lens X Y) `{!LensLaws l} `{!LensLaws m} :
  LensLaws (lens_comp l m).
Proof.
  split; intros; simpl; by rewrite ?(lget_lput (l := l)), ?(lget_lput (l := m)), ?(lput_lput (l := l)),
    ?(lput_lput (l := m)), ?(lput_lget (l := m)), ?(lput_lget (l := l)).
Qed.

(** ** Lists *)

Lemma lookup_snoc_last {A} (l : list A) x : (l ++ [x]) !! length l = Some x.
Proof. rewrite lookup_app_r by lia. by rewrite Nat.sub_diag. Qed.

Lemma lookup_snoc_lt {A} (l : list A) x i :
  (i < length l)%nat -> (l ++ [x]) !! i = l !! i.
Proof. apply lookup_app_l. Qed.

Lemma filter_none {A} (P : A -> Prop) `{!forall x, Decision (P x)} (l : list A) :
  (forall x, x ∈ l -> ~ P x) -> filter P l = [].
Proof.
  induction l as [|x l IH]; intros Hl; [done|].
  rewrite filter_cons_False by (apply Hl; set_solver). apply IH. set_solver.
Qed.

Lemma filter_every {A} (P : A -> Prop) `{!forall x, Decision (P x)} (l : list A) :
  (forall x, x ∈ l -> P x) -> filter P l = l.
Proof.
  induction l as [|x l IH]; intros Hl; [done|].
  rewrite filter_cons_True by (apply Hl; set_solver). f_equal. apply IH. set_solver.
Qed.

(** ** Hints *)

(** Ranges of machine words. *)
Create HintDb words.
#[export] Hint Resolve wrap_range : words.
#[export] Hint Extern 5 (_ <= _) => lia : words.
#[export] Hint Extern 5 (_ < _) => lia : words.
