(* ===== verification/Arena.v ===== *)
(** * A concrete allocator

    The queues are verified for any allocator that satisfies the laws they state;
    this one satisfies them and runs.  It has sixteen-byte steps in a small address
    space and gives out the first free address, so addresses that were freed are
    used again. *)

From S2P Require Import Prelude.

Definition arena : list Z := (fun i => 16 * Z.of_nat i) <$> seq 1 64.

Definition arena_malloc (X : gset Z) : option Z :=
  snd <$> list_find (fun a => a ∉ X) arena.

Lemma arena_nodup : NoDup arena.
Proof. apply NoDup_fmap_2; [intros ???; lia|apply NoDup_seq]. Qed.

Lemma arena_malloc_spec X a :
  arena_malloc X = Some a -> (a ∉ X) /\ 0 < a < 2 ^ usize /\ a mod 8 = 0.
Proof.
  unfold arena_malloc. intros H. apply fmap_Some in H as ([i b] & H & ->). simpl.
  apply list_find_Some in H as (Hi & Hb & _). split; [done|].
  apply list_elem_of_lookup_2 in Hi. apply list_elem_of_fmap in Hi as (n & -> & Hn).
  apply elem_of_seq in Hn. unfold usize. split; [lia|].
  replace (16 * Z.of_nat (n)) with (2 * Z.of_nat (n) * 8) by lia.
  by apply Z.mod_mul.
Qed.

Lemma arena_malloc_room X : (size X < 64)%nat -> exists a, arena_malloc X = Some a.
Proof.
  intros Hs. unfold arena_malloc.
  destruct (list_find (fun a => a ∉ X) arena) as [[i a]|] eqn:E; [by exists a|].
  exfalso. apply list_find_None in E.
  assert (Hsub : list_to_set arena ⊆ X).
  { intros a Ha. apply elem_of_list_to_set in Ha. rewrite Forall_forall in E.
    destruct (decide (a ∈ X)) as [|Hn]; [done|]. exfalso. by apply (E a Ha). }
  apply subseteq_size in Hsub. rewrite size_list_to_set in Hsub by apply arena_nodup.
  change (length arena) with 64%nat in Hsub. lia.
Qed.
