(* ===== verification/Machine.v ===== *)
(** * Programs made of atomic steps, their sequential and interleaved executions

    The Rust code under verification is made of atomic accesses to shared
    memory (loads, stores, compare-and-swaps), of calls that block, of panics
    and of undefined behaviour.  A program of type [prog St A] performs such
    accesses on a shared state of type [St] and returns a value of type [A].
    The same program text is run alone ([run]) and as a thread of a pool under
    an arbitrary scheduler ([sched]); [twp] is the total-correctness logic for
    the first, and [Conc] builds on the second. *)

From S2P Require Import Prelude.

(** How an execution can go wrong: a Rust panic, undefined behaviour (a use
    after free, an out-of-bounds or uninitialised access), or the abort of the
    process when memory is exhausted. *)
Inductive fault : Type := Panic | UB | Abort.

#[export] Instance fault_eq_dec : EqDecision fault.
Proof. solve_decision. Defined.

(** The outcome of one atomic access: it happens, it has to wait, or it goes
    wrong. *)
Inductive res (A : Type) : Type :=
| Ok (a : A)
| Block
| Fail (f : fault).
Arguments Ok {A} a.
Arguments Block {A}.
Arguments Fail {A} f.

(** What a step learns from its environment: whether a weak compare-exchange
    fails spuriously, and what the monotonic clock reads. *)
Record env : Type := Env { spurious : bool; clock : Z }.

(** The environment of a run without spurious failures, at time 0. *)
Definition calm : env := Env false 0.

(** Programs.  [Act] is one atomic access, [Ask] consults the environment, and
    [Loop body i] runs [body] on [i], then on the [i'] of every [inl i'] it
    returns, until it returns [inr r]. *)
Inductive prog (St A : Type) : Type :=
| Ret (a : A)
| Act {X : Type} (f : St -> res (X * St)) (k : X -> prog St A)
| Ask (k : env -> prog St A)
| Loop {I R : Type} (body : I -> prog St (I + R)) (i : I) (k : R -> prog St A).
Arguments Ret {St A} a.
Arguments Act {St A X} f k.
Arguments Ask {St A} k.
Arguments Loop {St A I R} body i k.

Fixpoint bind {St A B} (p : prog St A) (g : A -> prog St B) : prog St B :=
  match p with
  | Ret a => g a
  | Act f k => Act f (fun x => bind (k x) g)
  | Ask k => Ask (fun e => bind (k e) g)
  | Loop body i k => Loop body i (fun r => bind (k r) g)
  end.

(** [Result::is_ok]. *)
Definition is_ok {A B} (r : A + B) : bool := match r with inl _ => true | inr _ => false end.

Declare Scope prog_scope.
Delimit Scope prog_scope with prog.
Bind Scope prog_scope with prog.
#[global] Open Scope prog_scope.

Notation "'let!' x ':=' p 'in' q" := (bind p (fun x => q))
  (at level 10, x pattern, p at level 200, q at level 200,
   format "'[v' 'let!'  x  ':='  p  'in' '/' q ']'") : prog_scope.
Notation "p ';;' q" := (bind p (fun _ => q))
  (at level 100, q at level 200, right associativity) : prog_scope.

(** ** Elementary programs *)

Section Elementary.
Context {St : Type}.

Definition act {X} (f : St -> res (X * St)) : prog St X := Act f Ret.
(** An atomic read of a component of the state. *)
Definition load {X} (f : St -> X) : prog St X := act (fun s => Ok (f s, s)).
(** An atomic write. *)
Definition store (f : St -> St) : prog St () := act (fun s => Ok ((), f s)).
Definition fail {X} (e : fault) : prog St X := act (fun _ => Fail e).
(** [assert!(b)]. *)
Definition assert_ (b : bool) : prog St () := if b then Ret () else fail Panic.
Definition loop {I R} (body : I -> prog St (I + R)) (i : I) : prog St R :=
  Loop body i Ret.
(** [loop { body }] of a body without loop variables. *)
Definition forever {R} (body : prog St (option R)) : prog St R :=
  loop (fun _ : () => let! r := body in
                      Ret (match r with Some r => inr r | None => inl () end)) ().
(** [while c { body }]. *)
Definition while_ (c : prog St bool) (body : prog St ()) : prog St () :=
  forever (let! b := c in if b then body ;; Ret None else Ret (Some ())).

(** [compare_exchange(cur, new)] on the atomic word read by [get] and written
    by [set]: [inl old] is [Ok(old)], [inr old] is [Err(old)]. *)
Definition compare_exchange (get : St -> Z) (set : Z -> St -> St) (cur new : Z)
  : prog St (Z + Z) :=
  act (fun s => if get s =? cur then Ok (inl cur, set new s) else Ok (inr (get s), s)).

(** [compare_exchange_weak]: allowed to fail although the word is [cur]. *)
Definition compare_exchange_weak (get : St -> Z) (set : Z -> St -> St) (cur new : Z)
  : prog St (Z + Z) :=
  Ask (fun e => if spurious e then load (fun s => inr (get s))
                else compare_exchange get set cur new).

(** Arithmetic on unsigned integers of width [w] and on [usize]: overflow panics. *)
Definition add_w (w x y : Z) : prog St Z := if x + y <? 2 ^ w then Ret (x + y) else fail Panic.
Definition uadd (x y : Z) : prog St Z := add_w usize x y.
Definition usub (x y : Z) : prog St Z := if y <=? x then Ret (x - y) else fail Panic.
Definition umul (x y : Z) : prog St Z := if x * y <? 2 ^ usize then Ret (x * y) else fail Panic.

(** [Instant::now()]. *)
Definition instant_now : prog St Z := Ask (fun e => Ret (clock e)).
End Elementary.

Fixpoint iter_list {St X} (f : X -> prog St ()) (l : list X) : prog St () :=
  match l with
  | [] => Ret ()
  | x :: l => f x ;; iter_list f l
  end.

(** ** Execution of one program *)

Definition unfold_loop {St A I R} (body : I -> prog St (I + R)) (i : I)
    (k : R -> prog St A) : prog St A :=
  bind (body i) (fun r => match r with inl i' => Loop body i' k | inr r => k r end).

(** One step of a program; a returned value has no step ([None]). *)
Definition step {St A} (e : env) (p : prog St A) (s : St) : option (res (prog St A * St)) :=
  match p with
  | Ret _ => None
  | Act f k => Some match f s with
                    | Ok (x, s') => Ok (k x, s')
                    | Block => Block
                    | Fail f => Fail f
                    end
  | Ask k => Some (Ok (k e, s))
  | Loop body i k => Some (Ok (unfold_loop body i k, s))
  end.

Inductive outcome (St A : Type) : Type :=
| Done (a : A) (s : St)
| Fault (f : fault) (s : St)
| Stuck (s : St)
| NoFuel.
Arguments Done {St A} a s.
Arguments Fault {St A} f s.
Arguments Stuck {St A} s.
Arguments NoFuel {St A}.

(** [run n es p s]: at most [n] steps of [p] alone, the [i]-th of them in the
    environment [es i]. *)
Fixpoint run {St A} (n : nat) (es : nat -> env) (p : prog St A) (s : St) : outcome St A :=
  match p with
  | Ret a => Done a s
  | _ => match n with
         | O => NoFuel
         | S n => match step (es 0%nat) p s with
                  | Some (Ok (p', s')) => run n (fun i => es (S i)) p' s'
                  | Some (Fail f) => Fault f s
                  | _ => Stuck s
                  end
         end
  end.

(** ** Execution of a pool of threads

    A schedule is a list of (thread, environment) pairs; the scheduled thread
    takes one step.  A schedule that picks a finished or blocked thread is not
    an execution. *)

Inductive pres (St A : Type) : Type :=
| POk (ts : list (prog St A)) (s : St)
| PFail (t : nat) (f : fault) (s : St)
| PBad.
Arguments POk {St A} ts s.
Arguments PFail {St A} t f s.
Arguments PBad {St A}.

Definition pool_step {St A} (ev : nat * env) (ts : list (prog St A)) (s : St) : pres St A :=
  match ts !! fst ev with
  | None => PBad
  | Some p => match step (snd ev) p s with
              | Some (Ok (p', s')) => POk (<[fst ev := p']> ts) s'
              | Some (Fail f) => PFail (fst ev) f s
              | _ => PBad
              end
  end.

Fixpoint sched {St A} (evs : list (nat * env)) (ts : list (prog St A)) (s : St) : pres St A :=
  match evs with
  | [] => POk ts s
  | ev :: evs => match pool_step ev ts s with
                 | POk ts' s' => sched evs ts' s'
                 | r => r
                 end
  end.

(** [n] consecutive steps of thread [t] without spurious failures. *)
Definition steps (t n : nat) : list (nat * env) := repeat (t, calm) n.

(** ** Total correctness of a program running alone

    [twp n p s Q]: from [s], whatever the clock reads and with at most [n]
    spurious failures, [p] returns, without a fault and without blocking, and
    the failures left, the result and the final state satisfy [Q]. *)

Definition spend (n : nat) (e : env) : nat := if spurious e then pred n else n.

Inductive twp {St A} : nat -> prog St A -> St -> (nat -> A -> St -> Prop) -> Prop :=
| twp_ret n a s (Q : nat -> A -> St -> Prop) : Q n a s -> twp n (Ret a) s Q
| twp_act n X (f : St -> res (X * St)) k s x s' Q :
    f s = Ok (x, s') -> twp n (k x) s' Q -> twp n (Act f k) s Q
| twp_ask n k s Q :
    (forall e, (spurious e = true -> (0 < n)%nat) -> twp (spend n e) (k e) s Q) ->
    twp n (Ask k) s Q
| twp_loop n I R (body : I -> prog St (I + R)) i k s Q :
    twp n (unfold_loop body i k) s Q -> twp n (Loop body i k) s Q.

Lemma spend_le n e : (spend n e <= n)%nat.
Proof. unfold spend. destruct (spurious e); lia. Qed.

Lemma twp_mono {St A} n (p : prog St A) s (Q Q' : nat -> A -> St -> Prop) :
  twp n p s Q -> (forall m a s', (m <= n)%nat -> Q m a s' -> Q' m a s') -> twp n p s Q'.
Proof.
  intros H. induction H; intros HQ.
  - apply twp_ret. auto.
  - eapply twp_act; eauto.
  - apply twp_ask. intros e He. apply H0; [done|]. pose proof (spend_le n e).
    intros. apply HQ; [lia|done].
  - apply twp_loop. eauto.
Qed.

(** ** Programs up to pointwise equality of their continuations *)

Inductive peq {St A} : prog St A -> prog St A -> Prop :=
| peq_ret a : peq (Ret a) (Ret a)
| peq_act X (f : St -> res (X * St)) k k' :
    (forall x, peq (k x) (k' x)) -> peq (Act f k) (Act f k')
| peq_ask k k' : (forall e, peq (k e) (k' e)) -> peq (Ask k) (Ask k')
| peq_loop I R (body : I -> prog St (I + R)) i k k' :
    (forall r, peq (k r) (k' r)) -> peq (Loop body i k) (Loop body i k').

Lemma peq_inv {St A} (p q : prog St A) :
  peq p q ->
  match p with
  | Ret a => q = Ret a
  | Act f k => exists k', q = Act f k' /\ forall x, peq (k x) (k' x)
  | Ask k => exists k', q = Ask k' /\ forall e, peq (k e) (k' e)
  | Loop body i k => exists k', q = Loop body i k' /\ forall r, peq (k r) (k' r)
  end.
Proof. destruct 1; eauto. Qed.

#[export] Instance peq_equivalence {St A} : Equivalence (@peq St A).
Proof.
  split.
  - intros p. induction p; constructor; auto.
  - intros p q H. induction H; constructor; auto.
  - intros p q r H. revert r.
    induction H; intros r Hr; apply peq_inv in Hr; try destruct Hr as (? & -> & ?);
      subst; constructor; auto.
Qed.

Lemma bind_peq {St A B} (p q : prog St A) (g h : A -> prog St B) :
  peq p q -> (forall a, peq (g a) (h a)) -> peq (bind p g) (bind q h).
Proof. intros H Hg. induction H; simpl; [apply Hg|..]; constructor; auto. Qed.

Lemma bind_assoc {St A B C} (p : prog St A) (g : A -> prog St B) (h : B -> prog St C) :
  peq (bind (bind p g) h) (bind p (fun a => bind (g a) h)).
Proof. induction p; simpl; [reflexivity|..]; constructor; auto. Qed.

Lemma bind_ret_r {St A} (p : prog St A) : peq (bind p Ret) p.
Proof. induction p; simpl; constructor; auto. Qed.

#[export] Instance bind_proper {St A B} :
  Proper (peq ==> pointwise_relation A peq ==> peq) (@bind St A B).
Proof. intros p q H g h Hg. by apply bind_peq. Qed.

Lemma unfold_loop_bind {St A B I R} (body : I -> prog St (I + R)) i
    (k : R -> prog St A) (g : A -> prog St B) :
  peq (bind (unfold_loop body i k) g) (unfold_loop body i (fun r => bind (k r) g)).
Proof.
  unfold unfold_loop. rewrite bind_assoc. apply bind_peq; [reflexivity|].
  intros [?|?]; reflexivity.
Qed.

Lemma twp_peq {St A} n (p q : prog St A) s Q : peq p q -> twp n p s Q -> twp n q s Q.
Proof.
  intros Hq H. revert q Hq.
  induction H; intros q Hq; apply peq_inv in Hq; try destruct Hq as (k' & -> & Hk); subst.
  - by apply twp_ret.
  - eapply twp_act; eauto.
  - apply twp_ask. intros e He. eauto.
  - apply twp_loop. apply IHtwp. apply bind_peq; [reflexivity|].
    intros [?|?]; [by constructor|auto].
Qed.

#[export] Instance twp_proper {St A} n :
  Proper (peq ==> eq ==> eq ==> iff) (@twp St A n).
Proof.
  intros p q Hpq s ? <- Q ? <-. split; apply twp_peq; [done|by symmetry].
Qed.

(** The rule for sequencing. *)
Lemma twp_bind {St A B} n (p : prog St A) (g : A -> prog St B) s Q :
  twp n p s (fun m a s' => twp m (g a) s' Q) -> twp n (bind p g) s Q.
Proof.
  intros H. remember (fun m a s' => twp m (g a) s' Q) as P eqn:HP.
  induction H; simpl; subst.
  - done.
  - eapply twp_act; eauto.
  - apply twp_ask. eauto.
  - apply twp_loop. eapply twp_peq; [apply unfold_loop_bind|]. auto.
Qed.

(** The rule for loops: [Inv m i s] is an invariant with [m] failures left, and
    a pass through the body ends the loop, or uses up a failure, or makes
    [meas] smaller. *)
Lemma twp_loop_inv {St A I R} (Inv : nat -> I -> St -> Prop) (meas : I -> St -> nat)
    (body : I -> prog St (I + R)) (k : R -> prog St A) n i s Q :
  Inv n i s ->
  (forall m i s, Inv m i s ->
     twp m (body i) s (fun m' r s' => match r with
       | inl i' => Inv m' i' s' /\ ((m' < m)%nat \/ m' = m /\ (meas i' s' < meas i s)%nat)
       | inr r => twp m' (k r) s' Q
       end)) ->
  twp n (Loop body i k) s Q.
Proof.
  intros Hi Hbody. revert i s Hi.
  induction (lt_wf n) as [n _ IHn]. intros i s.
  remember (meas i s) as z eqn:Hz. revert i s Hz.
  induction (lt_wf z) as [z _ IHz]. intros i s -> Hi.
  apply twp_loop. apply twp_bind. eapply twp_mono; [by apply Hbody|].
  intros m [i'|r] s' _; simpl; [|done].
  intros [Hi' [Hlt|[-> Hlt]]]; eauto.
Qed.

(** *** Rules for the elementary programs *)

Section Rules.
Context {St : Type}.
Implicit Types (s : St) (n : nat).

Lemma twp_act' {X} n (f : St -> res (X * St)) s x s' Q :
  f s = Ok (x, s') -> Q n x s' -> twp n (act f) s Q.
Proof. intros. eapply twp_act; [done|]. by apply twp_ret. Qed.

Lemma twp_load {X} n (f : St -> X) s Q : Q n (f s) s -> twp n (load f) s Q.
Proof. intros. by eapply twp_act'. Qed.

Lemma twp_store n (f : St -> St) s (Q : nat -> () -> St -> Prop) :
  Q n () (f s) -> twp n (store f) s Q.
Proof. intros. by eapply twp_act'. Qed.

Lemma twp_assert n b s (Q : nat -> () -> St -> Prop) :
  b = true -> Q n () s -> twp n (assert_ b) s Q.
Proof. intros -> ?. by apply twp_ret. Qed.

Lemma twp_add_w w n x y s (Q : nat -> Z -> St -> Prop) :
  x + y < 2 ^ w -> Q n (x + y) s -> twp n (add_w w x y) s Q.
Proof. intros Hb HQ. unfold add_w. rewrite (proj2 (Z.ltb_lt _ _) Hb). by apply twp_ret. Qed.

Lemma twp_uadd n x y s (Q : nat -> Z -> St -> Prop) :
  x + y < 2 ^ usize -> Q n (x + y) s -> twp n (uadd x y) s Q.
Proof. apply twp_add_w. Qed.

Lemma twp_usub n x y s (Q : nat -> Z -> St -> Prop) :
  y <= x -> Q n (x - y) s -> twp n (usub x y) s Q.
Proof. intros Hb HQ. unfold usub. rewrite (proj2 (Z.leb_le _ _) Hb). by apply twp_ret. Qed.

Lemma twp_umul n x y s (Q : nat -> Z -> St -> Prop) :
  x * y < 2 ^ usize -> Q n (x * y) s -> twp n (umul x y) s Q.
Proof. intros Hb HQ. unfold umul. rewrite (proj2 (Z.ltb_lt _ _) Hb). by apply twp_ret. Qed.

Lemma twp_cas n get set (cur new : Z) s (Q : nat -> Z + Z -> St -> Prop) :
  (get s = cur -> Q n (inl cur) (set new s)) ->
  (get s <> cur -> Q n (inr (get s)) s) ->
  twp n (compare_exchange get set cur new) s Q.
Proof.
  intros H1 H2. unfold compare_exchange. destruct (Z.eqb_spec (get s) cur) as [Heq|Hne].
  - eapply twp_act'; [|by apply H1]. simpl. by rewrite (proj2 (Z.eqb_eq _ _) Heq).
  - eapply twp_act'; [|by apply H2]. simpl. by rewrite (proj2 (Z.eqb_neq _ _) Hne).
Qed.

(** A weak compare-exchange uses up a failure or behaves like a strong one. *)
Lemma twp_cas_weak n get set (cur new : Z) s (Q : nat -> Z + Z -> St -> Prop) :
  (forall m, S m = n -> Q m (inr (get s)) s) ->
  (get s = cur -> Q n (inl cur) (set new s)) ->
  (get s <> cur -> Q n (inr (get s)) s) ->
  twp n (compare_exchange_weak get set cur new) s Q.
Proof.
  intros H0 H1 H2. apply twp_ask. intros e He. unfold spend.
  destruct (spurious e); [|by apply twp_cas].
  specialize (He eq_refl). apply twp_load. apply H0. lia.
Qed.

(** One pass through [loop { .. }]. *)
Lemma twp_forever {R} n (p : prog St (option R)) s Q :
  twp n p s (fun n' r s' => match r with
               | Some r => Q n' r s'
               | None => twp n' (forever p) s' Q
               end) ->
  twp n (forever p) s Q.
Proof.
  intros H. unfold forever, loop. apply twp_loop. unfold unfold_loop.
  apply twp_bind, twp_bind. eapply twp_mono; [exact H|].
  intros n' [r|] s' _ HQ; apply twp_ret; [by apply twp_ret|exact HQ].
Qed.

Lemma twp_now n s (Q : nat -> Z -> St -> Prop) :
  (forall m t, (m <= n)%nat -> Q m t s) -> twp n instant_now s Q.
Proof. intros H. apply twp_ask. intros e He. apply twp_ret. apply H, spend_le. Qed.
End Rules.

(** ** Soundness of [twp] with respect to [run] *)

(** At most [n] of the environments of a run have a spurious failure. *)
Fixpoint failures (l : nat) (es : nat -> env) : nat :=
  match l with
  | O => O
  | S l => (if spurious (es 0%nat) then 1 else 0) + failures l (fun i => es (S i))
  end.

Definition failures_at_most (n : nat) (es : nat -> env) : Prop :=
  forall l, (failures l es <= n)%nat.

Lemma failures_at_most_tail n es :
  failures_at_most n es -> failures_at_most n (fun i => es (S i)).
Proof. intros H l. specialize (H (S l)). simpl in H. lia. Qed.

Lemma failures_at_most_head n es :
  failures_at_most n es ->
  (spurious (es 0%nat) = true -> (0 < n)%nat) /\
  failures_at_most (spend n (es 0%nat)) (fun i => es (S i)).
Proof.
  intros H. split.
  - intros Hs. specialize (H 1%nat). simpl in H. rewrite Hs in H. lia.
  - intros l. specialize (H (S l)). simpl in H. unfold spend.
    destruct (spurious (es 0%nat)); lia.
Qed.

Theorem twp_sound {St A} n (p : prog St A) s Q es :
  twp n p s Q -> failures_at_most n es ->
  exists fuel m a s', run fuel es p s = Done a s' /\ Q m a s'.
Proof.
  intros H. revert es. induction H; intros es Hes.
  - by exists 0%nat, n, a, s.
  - destruct (IHtwp _ (failures_at_most_tail _ _ Hes)) as (fuel & m & a & s1 & Hr & HQ).
    exists (S fuel), m, a, s1. simpl. by rewrite H.
  - destruct (failures_at_most_head _ _ Hes) as [He Hes'].
    destruct (H0 _ He _ Hes') as (fuel & m & a & s1 & Hr & HQ).
    by exists (S fuel), m, a, s1.
  - destruct (IHtwp _ (failures_at_most_tail _ _ Hes)) as (fuel & m & a & s1 & Hr & HQ).
    by exists (S fuel), m, a, s1.
Qed.

(** [returns p s Q] is [twp] for any number of failures and a postcondition
    that does not count them. *)
Definition returns {St A} (p : prog St A) (s : St) (Q : A -> St -> Prop) : Prop :=
  forall n, twp n p s (fun _ => Q).

(** The meaning of [returns]: for every environment with finitely many spurious
    failures there is enough fuel for [run] to finish, in a good state. *)
Theorem returns_run {St A} (p : prog St A) s Q es n :
  returns p s Q -> failures_at_most n es ->
  exists fuel a s', run fuel es p s = Done a s' /\ Q a s'.
Proof.
  intros H Hes. destruct (twp_sound _ _ _ _ _ (H n) Hes) as (fuel & m & a & s' & Hr & HQ).
  eauto.
Qed.

Lemma returns_bind {St A B} (p : prog St A) (g : A -> prog St B) s P Q :
  returns p s P -> (forall a s', P a s' -> returns (g a) s' Q) ->
  returns (bind p g) s Q.
Proof.
  intros Hp Hg n. apply twp_bind. eapply twp_mono; [apply Hp|].
  intros m a s' _ HP. by apply Hg.
Qed.

Lemma twp_returns {St A} n (p : prog St A) s P (Q : nat -> A -> St -> Prop) :
  returns p s P -> (forall m a s', P a s' -> Q m a s') -> twp n p s Q.
Proof. intros H HQ. eapply twp_mono; [apply H|]. auto. Qed.

(** ** Programs that always go wrong

    [wrong n p s E]: from [s], whatever the clock reads and with at most [n]
    spurious failures, [p] reaches a fault, and fault and state satisfy [E]. *)

Inductive wrong {St A} : nat -> prog St A -> St -> (fault -> St -> Prop) -> Prop :=
| wrong_fail n X (f : St -> res (X * St)) k s e (E : fault -> St -> Prop) :
    f s = Fail e -> E e s -> wrong n (Act f k) s E
| wrong_act n X (f : St -> res (X * St)) k s x s' E :
    f s = Ok (x, s') -> wrong n (k x) s' E -> wrong n (Act f k) s E
| wrong_ask n k s E :
    (forall e, (spurious e = true -> (0 < n)%nat) -> wrong (spend n e) (k e) s E) ->
    wrong n (Ask k) s E
| wrong_loop n I R (body : I -> prog St (I + R)) i k s E :
    wrong n (unfold_loop body i k) s E -> wrong n (Loop body i k) s E.

Lemma wrong_peq {St A} n (p q : prog St A) s E : peq p q -> wrong n p s E -> wrong n q s E.
Proof.
  intros Hq H. revert q Hq.
  induction H; intros q Hq; apply peq_inv in Hq; destruct Hq as (k' & -> & Hk).
  - by eapply wrong_fail.
  - eapply wrong_act; eauto.
  - apply wrong_ask. intros e He. eauto.
  - apply wrong_loop. apply IHwrong. apply bind_peq; [reflexivity|].
    intros [?|?]; [by constructor|auto].
Qed.

Lemma wrong_bind_l {St A B} n (p : prog St A) (g : A -> prog St B) s E :
  wrong n p s E -> wrong n (bind p g) s E.
Proof.
  induction 1; simpl.
  - by eapply wrong_fail.
  - by eapply wrong_act.
  - by apply wrong_ask.
  - apply wrong_loop. eapply wrong_peq; [apply unfold_loop_bind|]. auto.
Qed.

Lemma wrong_bind_r {St A B} n (p : prog St A) (g : A -> prog St B) s E :
  twp n p s (fun m a s' => wrong m (g a) s' E) -> wrong n (bind p g) s E.
Proof.
  intros H. remember (fun m a s' => wrong m (g a) s' E) as P eqn:HP.
  induction H; simpl; subst.
  - done.
  - eapply wrong_act; eauto.
  - apply wrong_ask. eauto.
  - apply wrong_loop. eapply wrong_peq; [apply unfold_loop_bind|]. auto.
Qed.

Theorem wrong_sound {St A} n (p : prog St A) s E es :
  wrong n p s E -> failures_at_most n es ->
  exists fuel f s', run fuel es p s = Fault f s' /\ E f s'.
Proof.
  intros H. revert es. induction H; intros es Hes.
  - exists 1%nat, e, s. simpl. by rewrite H.
  - destruct (IHwrong _ (failures_at_most_tail _ _ Hes)) as (fuel & e & s1 & Hr & HE).
    exists (S fuel), e, s1. simpl. by rewrite H.
  - destruct (failures_at_most_head _ _ Hes) as [He Hes'].
    destruct (H0 _ He _ Hes') as (fuel & f & s1 & Hr & HE).
    by exists (S fuel), f, s1.
  - destruct (IHwrong _ (failures_at_most_tail _ _ Hes)) as (fuel & e & s1 & Hr & HE).
    by exists (S fuel), e, s1.
Qed.

(** [faults p s f]: run alone from [s], [p] always ends in the fault [f]. *)
Definition faults {St A} (p : prog St A) (s : St) (f : fault) : Prop :=
  forall n, wrong n p s (fun f' _ => f' = f).

Theorem faults_run {St A} (p : prog St A) s f es n :
  faults p s f -> failures_at_most n es ->
  exists fuel s', run fuel es p s = Fault f s'.
Proof.
  intros H Hes. destruct (wrong_sound _ _ _ _ _ (H n) Hes) as (fuel & ? & s' & Hr & ->).
  eauto.
Qed.

Lemma faults_bind_l {St A B} (p : prog St A) (g : A -> prog St B) s f :
  faults p s f -> faults (bind p g) s f.
Proof. intros H n. by apply wrong_bind_l. Qed.

Lemma faults_bind_r {St A B} (p : prog St A) (g : A -> prog St B) s P f :
  returns p s P -> (forall a s', P a s' -> faults (g a) s' f) -> faults (bind p g) s f.
Proof.
  intros Hp Hg n. apply wrong_bind_r. eapply twp_mono; [apply Hp|].
  intros m a s' _ HP. by apply Hg.
Qed.

(** ** Programs on a component of a larger state *)

Fixpoint lift {S St A} (L : lens S St) (p : prog St A) : prog S A :=
  match p with
  | Ret a => Ret a
  | Act f k => Act (fun s => match f (lget L s) with
                             | Ok (x, s') => Ok (x, lput L s' s)
                             | Block => Block
                             | Fail e => Fail e
                             end) (fun x => lift L (k x))
  | Ask k => Ask (fun e => lift L (k e))
  | Loop body i k => Loop (fun i => lift L (body i)) i (fun r => lift L (k r))
  end.

Lemma lift_bind {S St A B} (L : lens S St) (p : prog St A) (g : A -> prog St B) :
  peq (lift L (bind p g)) (bind (lift L p) (fun a => lift L (g a))).
Proof. induction p; simpl; [reflexivity|..]; constructor; auto. Qed.

Lemma twp_lift {S St A} (L : lens S St) `{!LensLaws L} n (p : prog St A) s P
    (Q : nat -> A -> S -> Prop) :
  twp n p (lget L s) P -> (forall m a x, P m a x -> Q m a (lput L x s)) -> twp n (lift L p) s Q.
Proof.
  intros H. remember (lget L s) as x0 eqn:Hx. revert s Hx.
  induction H as [n a x P HPa|n X f k x y x' P Hf Ht IH|n k x P Hk IH|
    n I R body i k x P Ht IH]; intros s Hx HQ; simpl; subst.
  - apply twp_ret. rewrite <- (lput_lget s). auto.
  - eapply twp_act; [by rewrite Hf|]. apply IH; [by rewrite lget_lput|].
    intros. rewrite lput_lput. auto.
  - apply twp_ask. intros e He. by apply IH.
  - apply twp_loop. eapply twp_peq; [|by apply IH].
    unfold unfold_loop. rewrite lift_bind. apply bind_peq; [reflexivity|].
    intros [?|?]; reflexivity.
Qed.

Lemma returns_lift {S St A} (L : lens S St) `{!LensLaws L} (p : prog St A) s P
    (Q : A -> S -> Prop) :
  returns p (lget L s) P -> (forall a x, P a x -> Q a (lput L x s)) -> returns (lift L p) s Q.
Proof. intros H HQ n. eapply (twp_lift L); [apply H|auto]. Qed.

(** ** Proof automation

    Programs are taken apart by the rules above, not by computation. *)

#[global] Arguments bind : simpl never.
#[global] Arguments act : simpl never.
#[global] Arguments load : simpl never.
#[global] Arguments store : simpl never.
#[global] Arguments fail : simpl never.
#[global] Arguments assert_ : simpl never.
#[global] Arguments loop : simpl never.
#[global] Arguments forever : simpl never.
#[global] Arguments while_ : simpl never.
#[global] Arguments compare_exchange : simpl never.
#[global] Arguments compare_exchange_weak : simpl never.
#[global] Arguments lift : simpl never.

(** One step of the symbolic execution of a program that does not depend on
    the environment. *)
Ltac wp_step :=
  lazymatch goal with
  | |- twp _ (bind _ _) _ _ => apply twp_bind
  | |- twp _ (Ret _) _ _ => apply twp_ret
  | |- twp _ (load _) _ _ => apply twp_load
  | |- twp _ (store _) _ _ => apply twp_store
  | |- twp _ (assert_ _) _ _ => apply twp_assert; [done|]
  end; simpl.
Ltac wp := repeat wp_step.

(** The same for a program that is to go wrong: up to the faulty access. *)
Ltac wrong_step := apply wrong_bind_r; wp.
