(* ===== verification/Conc.v ===== *)
(** * A logic for pools of threads

    Every thread carries a ghost phase of type [G] that says where it is in the
    protocol; [Inv s g] is an invariant of the shared state [s] and of the
    phases [g] of all threads.  [mv c c'] are the changes of phase that other
    threads may make to a thread (waking it up, handing it a lock); [wait s g t]
    says when thread [t] may be blocked.  [csafe n t c p Q]: for [n] steps,
    whatever the other threads do within the invariant, thread [t] in phase [c]
    running [p] keeps the invariant, does not fault, blocks only as [wait]
    allows, and satisfies [Q] when it returns. *)

From S2P Require Import Prelude Machine.

Section Conc.
Context {St G : Type}.
Context (Inv : St -> (nat -> G) -> Prop).
Context (mv : G -> G -> Prop) `{!PreOrder mv}.
Context (wait : St -> (nat -> G) -> nat -> Prop).

Fixpoint csafe {A} (n t : nat) (c : G) (p : prog St A) (Q : G -> A -> Prop) : Prop :=
  match n with
  | O => True
  | S n =>
      match p with
      | Ret a => forall c', mv c c' -> Q c' a
      | Act f k =>
          forall s g, Inv s g -> mv c (g t) ->
          match f s with
          | Ok (x, s') => exists g', Inv s' g' /\
              (forall t', t' <> t -> mv (g t') (g' t')) /\ csafe n t (g' t) (k x) Q
          | Block => wait s g t
          | Fail _ => False
          end
      | Ask k => forall e, csafe n t c (k e) Q
      | Loop body i k => csafe n t c (unfold_loop body i k) Q
      end
  end.

Lemma csafe_mv {A} n t c c' (p : prog St A) Q :
  mv c c' -> csafe n t c p Q -> csafe n t c' p Q.
Proof.
  intros Hm. revert p c c' Hm. induction n as [|n IH]; [done|].
  intros [a|X f k|k|I R body i k] c c' Hm H; simpl in *.
  - intros c'' Hm'. apply H. by etransitivity.
  - intros s g Hi Hg. apply H; [done|]. by etransitivity.
  - intros e. eauto.
  - eauto.
Qed.

Lemma csafe_S {A} n t c (p : prog St A) Q : csafe (S n) t c p Q -> csafe n t c p Q.
Proof.
  revert c p. induction n as [|n IH]; [done|].
  intros c p H. destruct p as [a|X f k|k|I R body i k].
  - exact H.
  - intros s g Hi Hg. specialize (H s g Hi Hg). simpl in H |- *.
    destruct (f s) as [[x s']| |]; [|done|done].
    destruct H as (g' & Hi' & Hmv & Hk). eauto 6.
  - intros e. apply IH. apply H.
  - simpl. apply IH. apply H.
Qed.

Lemma csafe_le {A} m n t c (p : prog St A) Q :
  (m <= n)%nat -> csafe n t c p Q -> csafe m t c p Q.
Proof. induction 1; [done|]. intros H'. auto using csafe_S. Qed.

Lemma csafe_peq {A} n t c (p q : prog St A) Q : peq p q -> csafe n t c p Q -> csafe n t c q Q.
Proof.
  revert c p q. induction n as [|n IH]; [done|].
  intros c p q Hq. apply peq_inv in Hq.
  destruct p as [a|X f k|k|I R body i k]; try destruct Hq as (k' & -> & Hk); subst; simpl.
  - done.
  - intros H s g Hi Hg. specialize (H s g Hi Hg).
    destruct (f s) as [[x s']| |]; [|done|done].
    destruct H as (g' & Hi' & Hmv & H). eauto 6.
  - eauto.
  - intros H. eapply IH; [|exact H]. apply bind_peq; [reflexivity|].
    intros [?|?]; [by constructor|auto].
Qed.

Lemma csafe_mono {A} n t c (p : prog St A) (Q Q' : G -> A -> Prop) :
  (forall c a, Q c a -> Q' c a) -> csafe n t c p Q -> csafe n t c p Q'.
Proof.
  intros HQ. revert c p. induction n as [|n IH]; [done|].
  intros c [a|X f k|k|I R body i k]; simpl; eauto.
  intros H s g Hi Hg. specialize (H s g Hi Hg).
  destruct (f s) as [[x s']| |]; [|done|done].
  destruct H as (g' & Hi' & Hmv & H). eauto 6.
Qed.

Lemma csafe_bind {A B} n t c (p : prog St A) (k : A -> prog St B) P Q :
  csafe n t c p P ->
  (forall m c' a, (m <= n)%nat -> P c' a -> csafe m t c' (k a) Q) ->
  csafe n t c (bind p k) Q.
Proof.
  intros Hp Hk. revert c p Hp Hk. induction n as [|n IH]; [done|].
  intros c p Hp Hk. destruct p as [a|X f q|q|I R body i q].
  - change (csafe (S n) t c (k a) Q). apply Hk; [lia|]. by apply Hp.
  - intros s g Hi Hg. specialize (Hp s g Hi Hg). simpl in Hp |- *.
    destruct (f s) as [[x s']| |]; [|done|done].
    destruct Hp as (g' & Hi' & Hmv & H). exists g'. split_and!; [done|done|].
    apply IH; [done|]. intros. apply Hk; [lia|done].
  - intros e. apply IH; [apply Hp|]. intros. apply Hk; [lia|done].
  - change (csafe n t c (unfold_loop body i (fun r => bind (q r) k)) Q).
    eapply csafe_peq; [apply unfold_loop_bind|].
    apply IH; [apply Hp|]. intros. apply Hk; [lia|done].
Qed.

(** Loops: an invariant of loop variables and phase suffices. *)
Lemma csafe_loop {A I R} n t (J : G -> I -> Prop) (body : I -> prog St (I + R))
    (k : R -> prog St A) Q c i :
  J c i ->
  (forall m c i, (m <= n)%nat -> J c i ->
     csafe m t c (body i) (fun c' r => match r with
       | inl i' => J c' i'
       | inr r => forall m', (m' <= n)%nat -> csafe m' t c' (k r) Q
       end)) ->
  csafe n t c (Loop body i k) Q.
Proof.
  intros HJ Hb. assert (Hgen : forall m c i, (m <= n)%nat -> J c i -> csafe m t c (Loop body i k) Q).
  { clear c i HJ. induction m as [m IH] using lt_wf_ind. intros c i Hm HJ.
    destruct m as [|m]; [done|]. simpl. unfold unfold_loop.
    eapply csafe_bind; [apply Hb; [lia|done]|].
    intros m' c' [i'|r] Hm'; simpl; [|intros H; apply H; lia].
    intros HJ'. apply IH; [lia|lia|done]. }
  auto.
Qed.

Lemma csafe_ret {A} n t c (a : A) (Q : G -> A -> Prop) :
  (forall c', mv c c' -> Q c' a) -> csafe n t c (Ret a) Q.
Proof. by destruct n. Qed.

Lemma csafe_act {X} n t c (f : St -> res (X * St)) (Q : G -> X -> Prop) :
  (forall s g, Inv s g -> mv c (g t) ->
     match f s with
     | Ok (x, s') => exists g', Inv s' g' /\
         (forall t', t' <> t -> mv (g t') (g' t')) /\ (forall c', mv (g' t) c' -> Q c' x)
     | Block => wait s g t
     | Fail _ => False
     end) ->
  csafe n t c (act f) Q.
Proof.
  intros H. destruct n as [|n]; [done|]. intros s g Hi Hg. specialize (H s g Hi Hg).
  destruct (f s) as [[x s']| |]; [|done|done].
  destruct H as (g' & Hi' & Hmv & H). exists g'. split_and!; [done..|by apply csafe_ret].
Qed.

Lemma csafe_load {X} n t c (f : St -> X) (Q : G -> X -> Prop) :
  (forall s g c', Inv s g -> mv c (g t) -> mv (g t) c' -> Q c' (f s)) ->
  csafe n t c (load f) Q.
Proof.
  intros H. apply csafe_act. intros s g Hi Hg. exists g. split_and!; [done|done|].
  intros c' Hc'. by eapply H.
Qed.

Lemma csafe_ask {A} n t c (k : env -> prog St A) Q :
  (forall e m, (m <= n)%nat -> csafe m t c (k e) Q) -> csafe n t c (Ask k) Q.
Proof. intros H. destruct n as [|n]; [done|]. intros e. apply H. lia. Qed.

(** What a step of [t] from [s] to [s'] has to establish, with new phases. *)
Definition csafe_to {X} (t : nat) (g : nat -> G) (s' : St) (Q : G -> X -> Prop) (x : X) : Prop :=
  exists g', Inv s' g' /\ (forall t', t' <> t -> mv (g t') (g' t')) /\
             (forall c', mv (g' t) c' -> Q c' x).

Lemma csafe_act_to {X} n t c (f : St -> res (X * St)) (Q : G -> X -> Prop) :
  (forall s g, Inv s g -> mv c (g t) ->
     match f s with
     | Ok (x, s') => csafe_to t g s' Q x
     | Block => wait s g t
     | Fail _ => False
     end) ->
  csafe n t c (act f) Q.
Proof. exact (csafe_act n t c f Q). Qed.

Lemma csafe_store n t c (f : St -> St) (Q : G -> () -> Prop) :
  (forall s g, Inv s g -> mv c (g t) -> csafe_to t g (f s) Q ()) ->
  csafe n t c (store f) Q.
Proof. intros H. by apply csafe_act. Qed.

Lemma csafe_load_ghost {X} n t c (f : St -> X) (Q : G -> X -> Prop) :
  (forall s g, Inv s g -> mv c (g t) -> csafe_to t g s Q (f s)) ->
  csafe n t c (load f) Q.
Proof. intros H. by apply csafe_act. Qed.

Lemma csafe_cas n t c get set cur new (Q : G -> Z + Z -> Prop) :
  (forall s g, Inv s g -> mv c (g t) -> get s = cur -> csafe_to t g (set new s) Q (inl cur)) ->
  (forall s g c', Inv s g -> mv c (g t) -> mv (g t) c' -> get s <> cur -> Q c' (inr (get s))) ->
  csafe n t c (compare_exchange get set cur new) Q.
Proof.
  intros Hok Hno. apply csafe_act. intros s g Hi Hg. destruct (Z.eqb_spec (get s) cur).
  - by apply Hok.
  - exists g. split_and!; [done|reflexivity|]. intros c' Hc'. by apply (Hno s g).
Qed.

Lemma csafe_cas_weak n t c get set cur new (Q : G -> Z + Z -> Prop) :
  (forall s g, Inv s g -> mv c (g t) -> get s = cur -> csafe_to t g (set new s) Q (inl cur)) ->
  (forall s g c', Inv s g -> mv c (g t) -> mv (g t) c' -> Q c' (inr (get s))) ->
  csafe n t c (compare_exchange_weak get set cur new) Q.
Proof.
  intros Hok Hno. apply csafe_ask. intros e m _. destruct (spurious e).
  - by apply csafe_load.
  - apply csafe_cas; [done|]. intros. by apply (Hno s g).
Qed.

(** The same with a change of phase when it fails. *)
Lemma csafe_cas_weak_ghost n t c get set cur new (Q : G -> Z + Z -> Prop) :
  (forall s g, Inv s g -> mv c (g t) -> get s = cur -> csafe_to t g (set new s) Q (inl cur)) ->
  (forall s g, Inv s g -> mv c (g t) -> csafe_to t g s Q (inr (get s))) ->
  csafe n t c (compare_exchange_weak get set cur new) Q.
Proof.
  intros Hok Hno. apply csafe_ask. intros e m _. destruct (spurious e).
  - by apply csafe_load_ghost.
  - apply csafe_act. intros s g Hi Hg. destruct (Z.eqb_spec (get s) cur); [by apply Hok|by apply Hno].
Qed.

Lemma csafe_now n t c (Q : G -> Z -> Prop) :
  (forall x c', mv c c' -> Q c' x) -> csafe n t c instant_now Q.
Proof. intros H. apply csafe_ask. intros e m _. apply csafe_ret. auto. Qed.

(** ** From threads to pools *)

(** Every thread is safe for ever, from its phase in [g]. *)
Definition pool_safe {A} (ts : list (prog St A)) (g : nat -> G) (Q : nat -> G -> A -> Prop) : Prop :=
  forall t p, ts !! t = Some p -> forall n, csafe n t (g t) p (Q t).

(** [settle] is the form in which the invariant is carried through a schedule:
    it bounds the number [n] of steps still to come.  [g0] are the phases at
    the start; threads outside the pool only change phase by [mv]. *)
Definition settle {A} (g0 : nat -> G) (n : nat) (ts : list (prog St A)) (s : St)
    (Q : nat -> G -> A -> Prop) : Prop :=
  exists g, Inv s g /\ (forall t p, ts !! t = Some p -> csafe n t (g t) p (Q t)) /\
            (forall t, ts !! t = None -> mv (g0 t) (g t)).

Lemma pool_step_settle {A} g0 n ev (ts : list (prog St A)) s Q :
  settle g0 (S n) ts s Q ->
  match pool_step ev ts s with
  | POk ts' s' => settle g0 n ts' s' Q
  | PFail _ _ _ => False
  | PBad => True
  end.
Proof.
  intros (g & Hi & Hs & Ho). unfold pool_step. destruct ev as [t e]. simpl.
  destruct (ts !! t) as [p|] eqn:Hp; [|done].
  pose proof (Hs t p Hp) as Hsp.
  assert (Hrest : forall p' g', (forall t', t' <> t -> mv (g t') (g' t')) ->
    csafe n t (g' t) p' (Q t) ->
    forall t' q, <[t := p']> ts !! t' = Some q -> csafe n t' (g' t') q (Q t')).
  { intros p' g' Hmv Hp' t' q Hq. destruct (decide (t = t')) as [<-|Hne].
    - apply lookup_lt_Some in Hp. rewrite list_lookup_insert_eq in Hq by done. by simplify_eq.
    - rewrite list_lookup_insert_ne in Hq by done.
      eapply csafe_mv; [by apply Hmv|]. apply csafe_S. auto. }
  assert (Hout : forall p' g', (forall t', t' <> t -> mv (g t') (g' t')) ->
    forall t', <[t := p']> ts !! t' = None -> mv (g0 t') (g' t')).
  { intros p' g' Hmv t' Hn. assert (t' <> t).
    { intros ->. apply lookup_lt_Some in Hp. by rewrite list_lookup_insert_eq in Hn. }
    rewrite list_lookup_insert_ne in Hn by done. etransitivity; eauto. }
  destruct p as [a|X f k|k|I R body i k]; simpl.
  - done.
  - specialize (Hsp s g Hi (reflexivity _)).
    destruct (f s) as [[x s']| |]; [|done|done].
    destruct Hsp as (g' & Hi' & Hmv & Hk). exists g'. eauto.
  - exists g. split_and!; [done|apply Hrest; [reflexivity|apply Hsp]|].
    apply Hout. reflexivity.
  - exists g. split_and!; [done|apply Hrest; [reflexivity|apply Hsp]|].
    apply Hout. reflexivity.
Qed.

Lemma sched_settle {A} g0 evs : forall n (ts : list (prog St A)) s Q,
  settle g0 (length evs + n) ts s Q ->
  match sched evs ts s with
  | POk ts' s' => settle g0 n ts' s' Q
  | PFail _ _ _ => False
  | PBad => True
  end.
Proof.
  induction evs as [|ev evs IH]; intros n ts s Q H; simpl in *; [done|].
  apply (pool_step_settle _ _ ev) in H. destruct (pool_step ev ts s); [by apply IH|done|done].
Qed.

(** Adequacy: a pool whose threads are safe never faults, and every state it
    reaches satisfies the invariant; its finished threads satisfy their
    postconditions, and its blocked threads are allowed to wait. *)
Theorem pool_adequate {A} evs (ts : list (prog St A)) s g Q :
  Inv s g -> pool_safe ts g Q ->
  match sched evs ts s with
  | POk ts' s' => exists g', Inv s' g' /\
      (forall t a, ts' !! t = Some (Ret a) -> Q t (g' t) a) /\
      (forall t, ts' !! t = None -> mv (g t) (g' t)) /\
      (forall t p e, ts' !! t = Some p -> step e p s' = Some Block -> wait s' g' t)
  | PFail _ _ _ => False
  | PBad => True
  end.
Proof.
  intros Hi Hs. pose proof (sched_settle g evs 1 ts s Q) as H.
  assert (H0 : settle g (length evs + 1) ts s Q).
  { exists g. split_and!; [done|intros t p Hp; by apply Hs|reflexivity]. }
  specialize (H H0). destruct (sched evs ts s) as [ts' s'|t f s'|]; [|done|done].
  destruct H as (g' & Hi' & Hs' & Ho). exists g'. split_and!; [done| |done|].
  - intros t a Ha. specialize (Hs' t _ Ha). by apply Hs'.
  - intros t p e Hp Hb. specialize (Hs' t _ Hp).
    destruct p as [a|X f k|k|I R body i k]; try done. simpl in Hb, Hs'.
    specialize (Hs' s' g' Hi' (reflexivity _)). by destruct (f s') as [[]| |].
Qed.
End Conc.
