(* ===== verification/Fifo.v ===== *)
(** * First in, first out

    What a queue promises to its users.  [QueueOps] are the operations of a queue
    in a state of type [St]; [QueueLaws] relates the state to the list of its
    elements.  A client is verified against the laws; [run_ops_ok] is the client
    that performs any sequence of operations and sees what a list would show. *)

From S2P Require Import Prelude Machine.

(** ** Operations and their observations *)

Inductive op (T : Type) : Type :=
| Push (v : T)
| TryPop
| IsEmpty.
Arguments Push {T} v.
Arguments TryPop {T}.
Arguments IsEmpty {T}.

Inductive obs (T : Type) : Type :=
| Pushed
| Popped (r : option T)
| Emptiness (b : bool).
Arguments Pushed {T}.
Arguments Popped {T} r.
Arguments Emptiness {T} b.

(** The abstract queue. *)
Definition spec_op {T} (o : op T) (xs : list T) : obs T * list T :=
  match o with
  | Push v => (Pushed, xs ++ [v])
  | TryPop => match xs with [] => (Popped None, []) | x :: xs => (Popped (Some x), xs) end
  | IsEmpty => (Emptiness (bool_decide (xs = [])), xs)
  end.

Fixpoint spec_ops {T} (os : list (op T)) (xs : list T) : list (obs T) * list T :=
  match os with
  | [] => ([], xs)
  | o :: os => let '(r, xs) := spec_op o xs in
               let '(rs, xs) := spec_ops os xs in (r :: rs, xs)
  end.

(** How many elements a sequence of operations pops, and how many it pushes. *)
Definition is_hit {T} (r : obs T) : bool :=
  match r with Popped (Some _) => true | _ => false end.
Definition is_push {T} (o : op T) : bool :=
  match o with Push _ => true | _ => false end.
Definition hit1 {T} (r : obs T) : nat := if is_hit r then 1 else 0.
Definition push1 {T} (o : op T) : nat := if is_push o then 1 else 0.
Definition hits {T} (rs : list (obs T)) : nat := length (filter (fun r => is_hit r) rs).
Definition pushes {T} (os : list (op T)) : nat := length (filter (fun o => is_push o) os).

Lemma hits_cons {T} r (rs : list (obs T)) : hits (r :: rs) = (hit1 r + hits rs)%nat.
Proof. unfold hits, hit1. rewrite filter_cons. by destruct (is_hit r). Qed.

Lemma pushes_cons {T} o (os : list (op T)) : pushes (o :: os) = (push1 o + pushes os)%nat.
Proof. unfold pushes, push1. rewrite filter_cons. by destruct (is_push o). Qed.

(** Every element pushed is popped or still there. *)
Lemma spec_count {T} (os : list (op T)) : forall xs,
  (hits (spec_ops os xs).1 + length (spec_ops os xs).2 = length xs + pushes os)%nat.
Proof.
  induction os as [|o os IH]; intros xs; simpl; [unfold hits, pushes; simpl; lia|].
  destruct (spec_op o xs) as [r xs'] eqn:E. specialize (IH xs').
  destruct (spec_ops os xs') as [rs xs'']. simpl in *. rewrite hits_cons, pushes_cons.
  destruct o as [v| |]; [| destruct xs |]; simplify_eq/=; unfold hit1, push1; simpl in *;
    rewrite ?length_app in *; simpl in *; lia.
Qed.

(** ** The interface *)

Class QueueOps (St T : Type) : Type := {
  q_push : T -> prog St ();
  q_pop : prog St (option T);
  q_is_empty : prog St bool;
}.

(** [q_is xs k p s]: the queue in [s] holds [xs], after [k] pushes and [p] pops
    of an element.  An implementation may bound the number of either. *)
Class QueueLaws (St T : Type) `{QueueOps St T} : Type := {
  q_is : list T -> nat -> nat -> St -> Prop;
  q_can_push : nat -> Prop;
  q_can_pop : nat -> Prop;
  q_push_ok v xs k p s : q_is xs k p s -> q_can_push k ->
    returns (q_push v) s (fun _ s' => q_is (xs ++ [v]) (S k) p s');
  q_pop_some x xs k p s : q_is (x :: xs) k p s -> q_can_pop p ->
    returns q_pop s (fun r s' => r = Some x /\ q_is xs k (S p) s');
  q_pop_none k p s : q_is [] k p s ->
    returns q_pop s (fun r s' => r = None /\ q_is [] k p s');
  q_is_empty_ok xs k p s : q_is xs k p s ->
    returns q_is_empty s (fun b s' => b = bool_decide (xs = []) /\ q_is xs k p s');
}.

Section Client.
Context {St T : Type} `{QueueOps St T}.

Definition run_op (o : op T) : prog St (obs T) :=
  match o with
  | Push v => q_push v ;; Ret Pushed
  | TryPop => let! r := q_pop in Ret (Popped r)
  | IsEmpty => let! b := q_is_empty in Ret (Emptiness b)
  end.

Fixpoint run_ops (os : list (op T)) : prog St (list (obs T)) :=
  match os with
  | [] => Ret []
  | o :: os => let! r := run_op o in let! rs := run_ops os in Ret (r :: rs)
  end.

Context {L : QueueLaws St T}.

Lemma run_op_ok o xs k p s :
  q_is xs k p s -> (forall j, (k <= j < k + push1 o)%nat -> q_can_push j) ->
  (forall j, (p <= j < p + hit1 (spec_op o xs).1)%nat -> q_can_pop j) ->
  returns (run_op o) s (fun r s' => r = (spec_op o xs).1 /\
    q_is (spec_op o xs).2 (k + push1 o) (p + hit1 r) s').
Proof.
  intros Hq Hpush Hpop n. unfold push1, hit1 in *. destruct o as [v| |]; simpl in *; wp_step.
  - eapply twp_returns; [apply (q_push_ok v _ _ _ _ Hq), Hpush; lia|]. simpl.
    intros m _ s' Hq'. wp. by rewrite Nat.add_0_r, Nat.add_1_r.
  - rewrite Nat.add_0_r. destruct xs as [|x xs]; simpl in *.
    + eapply twp_returns; [apply (q_pop_none _ _ _ Hq)|]. intros m r s' [-> Hq']. wp.
      by rewrite Nat.add_0_r.
    + eapply twp_returns; [apply (q_pop_some _ _ _ _ _ Hq), Hpop; lia|].
      intros m r s' [-> Hq']. wp. by rewrite Nat.add_1_r.
  - eapply twp_returns; [apply (q_is_empty_ok _ _ _ _ Hq)|]. intros m r s' [-> Hq']. wp.
    by rewrite !Nat.add_0_r.
Qed.

(** Any sequence of operations within the bounds gives the results of the same
    operations on a list. *)
Lemma run_ops_ok os : forall xs k p s,
  q_is xs k p s -> (forall j, (k <= j < k + pushes os)%nat -> q_can_push j) ->
  (forall j, (p <= j < p + hits (spec_ops os xs).1)%nat -> q_can_pop j) ->
  returns (run_ops os) s (fun rs s' => rs = (spec_ops os xs).1 /\
    q_is (spec_ops os xs).2 (k + pushes os) (p + hits rs) s').
Proof.
  induction os as [|o os IH]; intros xs k p s Hq Hpush Hpop n; simpl in *.
  - wp. by rewrite !Nat.add_0_r.
  - rewrite pushes_cons in Hpush. destruct (spec_op o xs) as [r xs'] eqn:E1.
    destruct (spec_ops os xs') as [rs xs''] eqn:E2. simpl in *. rewrite hits_cons in Hpop.
    wp_step. eapply twp_returns.
    { apply (run_op_ok o _ _ _ _ Hq); rewrite ?E1; simpl; intros j Hj;
        [apply Hpush|apply Hpop]; lia. }
    rewrite E1. simpl. intros m _ s' [-> Hq']. wp_step. eapply twp_returns.
    { apply (IH _ _ _ _ Hq'); rewrite ?E2; simpl; intros j Hj; [apply Hpush|apply Hpop]; lia. }
    rewrite E2. simpl. intros m' _ s'' [-> Hq'']. wp. split; [done|].
    by rewrite hits_cons, pushes_cons, !Nat.add_assoc.
Qed.
End Client.
