(* ===== verification/Timing.v ===== *)
(** * Spinning, backing off and fairness

    [Backoff] ([backoff.rs]), [SpinWait] and [FairTimeout]
    ([mutex/deadlock.rs]): the counters that decide how long a thread spins, when
    it yields or parks, and when an unlock is made fair.  A call is modelled by
    the new counter together with what the thread does meanwhile. *)

From S2P Require Import Prelude Machine.

(** What a waiting thread does. *)
Inductive pause : Type :=
| NoPause
| SpinHint (n : Z)    (** [n] calls of [spin_loop_hint] *)
| YieldNow.           (** [thread::yield_now] *)

(** ** [Backoff] *)

Module Backoff.
Definition SPIN_LIMIT : Z := 6.
Definition YIELD_LIMIT : Z := 10.

(** The [Cell<u32>] field [step]. *)
Record Backoff : Type := MkBackoff { bstep : Z }.

Definition new : Backoff := MkBackoff 0.
Definition default : Backoff := new.
Definition reset (b : Backoff) : Backoff := MkBackoff 0.

Definition spin (b : Backoff) : Backoff * pause :=
  (if bstep b <=? SPIN_LIMIT then MkBackoff (bstep b + 1) else b,
   SpinHint (Z.shiftl 1 (Z.min (bstep b) SPIN_LIMIT))).

Definition nap (b : Backoff) : Backoff * pause :=
  (if bstep b <=? YIELD_LIMIT then MkBackoff (bstep b + 1) else b,
   if bstep b <=? SPIN_LIMIT then SpinHint (Z.shiftl 1 (bstep b)) else YieldNow).

Definition is_completed (b : Backoff) : bool := YIELD_LIMIT <? bstep b.

(** The three calls that change the counter. *)
Inductive call : Type := Reset | Spin | Nap.

Definition apply (c : call) (b : Backoff) : Backoff * pause :=
  match c with
  | Reset => (reset b, NoPause)
  | Spin => spin b
  | Nap => nap b
  end.

Fixpoint applies (cs : list call) (b : Backoff) : Backoff * list pause :=
  match cs with
  | [] => (b, [])
  | c :: cs => let '(b, p) := apply c b in
               let '(b, ps) := applies cs b in (b, p :: ps)
  end.

Definition pause_bounded (p : pause) : Prop :=
  match p with SpinHint n => 1 <= n <= 64 | _ => True end.

Definition ok (b : Backoff) : Prop := 0 <= bstep b <= YIELD_LIMIT + 1.

Lemma shift_bound x : 0 <= x <= SPIN_LIMIT -> 1 <= Z.shiftl 1 x <= 64.
Proof.
  unfold SPIN_LIMIT. intros H. rewrite Z.shiftl_1_l. split.
  - pose proof (Z.pow_pos_nonneg 2 x). lia.
  - change 64 with (2 ^ 6). apply Z.pow_le_mono_r; lia.
Qed.

Lemma apply_ok c b : ok b -> ok (apply c b).1 /\ pause_bounded (apply c b).2.
Proof.
  unfold ok, YIELD_LIMIT. intros H. destruct c; simpl; [lia|..].
  - split; [unfold SPIN_LIMIT; destruct (Z.leb_spec (bstep b) 6); simpl; lia|].
    apply shift_bound. unfold SPIN_LIMIT. lia.
  - unfold YIELD_LIMIT. split; [destruct (Z.leb_spec (bstep b) 10); simpl; lia|].
    destruct (Z.leb_spec (bstep b) SPIN_LIMIT); simpl; [|done]. apply shift_bound. lia.
Qed.

(** C38. Whatever the order of the calls, the counter stays within [u32], no pause
    spins more than 64 times, and a [Backoff] that only ever spins is never
    completed. *)
Theorem backoff_bounded cs :
  ok (applies cs new).1 /\ Forall pause_bounded (applies cs new).2 /\
  (Forall (fun c => c <> Nap) cs -> is_completed (applies cs new).1 = false).
Proof.
  assert (H : forall b, ok b -> ok (applies cs b).1 /\ Forall pause_bounded (applies cs b).2 /\
    (bstep b <= SPIN_LIMIT + 1 -> Forall (fun c => c <> Nap) cs ->
     is_completed (applies cs b).1 = false)).
  { induction cs as [|c cs IH]; intros b Hb; simpl.
    - split_and!; [done|by constructor|]. intros Hs _.
      apply Z.ltb_ge. unfold SPIN_LIMIT in Hs. unfold YIELD_LIMIT. lia.
    - pose proof (apply_ok c b Hb) as [H1 H2]. destruct (apply c b) as [b1 p] eqn:E.
      specialize (IH b1 H1). destruct (applies cs b1) as [b2 ps].
      destruct IH as (I1 & I2 & I3). split_and!; [done|by constructor|].
      intros Hs Hc. apply Forall_cons in Hc as [Hc Hcs]. apply I3; [|done].
      destruct c; injection E as <- _; [done|..|done]. simpl.
      destruct (Z.leb_spec (bstep b) SPIN_LIMIT); simpl; lia. }
  destruct (H new) as (H1 & H2 & H3); [done|]. split_and!; [done|done|]. by apply H3.
Qed.

(** [n] naps from the start: the first seven spin 1, 2, 4, ..., 64 times, the
    others yield, and the [Backoff] is completed after eleven of them. *)
Theorem naps_schedule n :
  bstep (applies (repeat Nap n) new).1 = Z.min (Z.of_nat n) 11 /\
  (applies (repeat Nap n) new).2 =
    imap (fun i _ => if Nat.leb i 6 then SpinHint (2 ^ Z.of_nat i) else YieldNow) (repeat Nap n) /\
  is_completed (applies (repeat Nap n) new).1 = (11 <=? Z.of_nat n).
Proof.
  assert (H : forall n k, (k <= 11)%nat ->
    bstep (applies (repeat Nap n) (MkBackoff (Z.of_nat k))).1 = Z.min (Z.of_nat (k + n)) 11 /\
    (applies (repeat Nap n) (MkBackoff (Z.of_nat k))).2 =
      imap (fun i _ => if Nat.leb (k + i) 6 then SpinHint (2 ^ Z.of_nat (k + i)) else YieldNow)
           (repeat Nap n)).
  { clear n. induction n as [|n IH]; intros k Hk; simpl; [split; [lia|done]|].
    unfold nap. simpl.
    assert (Hstep : (if Z.of_nat k <=? YIELD_LIMIT then MkBackoff (Z.of_nat k + 1)
                     else MkBackoff (Z.of_nat k)) = MkBackoff (Z.of_nat (k `min` 10 + 1))).
    { unfold YIELD_LIMIT. destruct (Z.leb_spec (Z.of_nat k) 10); f_equal; lia. }
    rewrite Hstep. destruct (IH (k `min` 10 + 1)%nat) as [I1 I2]; [lia|].
    destruct (applies _ _) as [b ps]. simpl in *. split; [lia|]. f_equal.
    - rewrite Nat.add_0_r. unfold SPIN_LIMIT. rewrite Z.shiftl_1_l.
      destruct (Z.leb_spec (Z.of_nat k) 6), (Nat.leb_spec k 6); lia || done.
    - rewrite I2. apply imap_ext. intros i x _. unfold compose.
      destruct (Nat.leb_spec (k `min` 10 + 1 + i) 6), (Nat.leb_spec (k + S i) 6);
        [|lia|lia|done].
      do 3 f_equal. lia. }
  destruct (H n 0%nat) as [H1 H2]; [lia|].
  change (MkBackoff (Z.of_nat 0)) with new in H1, H2. change (0 + n)%nat with n in H1.
  split_and!; [exact H1|exact H2|].
  unfold is_completed. rewrite H1. unfold YIELD_LIMIT.
  destruct (Z.ltb_spec 10 (Z.min (Z.of_nat n) 11)), (Z.leb_spec 11 (Z.of_nat n)); lia || done.
Qed.
End Backoff.

(** ** [SpinWait] *)

Module SpinWait.
Record SpinWait : Type := MkSpinWait { counter : Z }.

Definition new : SpinWait := MkSpinWait 0.
Definition reset (w : SpinWait) : SpinWait := MkSpinWait 0.

(** The result, the new counter and the pause of [spin]. *)
Definition spin (w : SpinWait) : bool * SpinWait * pause :=
  if 10 <=? counter w then (false, w, NoPause)
  else
    let c := counter w + 1 in
    (true, MkSpinWait c, if c <=? 3 then SpinHint (Z.shiftl 1 c) else YieldNow).

Fixpoint spins (n : nat) (w : SpinWait) : list bool * SpinWait :=
  match n with
  | O => ([], w)
  | S n => let '(b, w, _) := spin w in
           let '(bs, w) := spins n w in (b :: bs, w)
  end.

(** A new [SpinWait] answers [true] ten times and [false] from then on: [false]
    is the answer once the threshold has been reached. *)
Theorem spin_ten_times n :
  (spins n new).1 = imap (fun i _ => Nat.ltb i 10) (replicate n ()) /\
  counter (spins n new).2 = Z.min (Z.of_nat n) 10.
Proof.
  assert (H : forall n k, (k <= 10)%nat ->
    (spins n (MkSpinWait (Z.of_nat k))).1 = imap (fun i _ => Nat.ltb (k + i) 10) (replicate n ()) /\
    counter (spins n (MkSpinWait (Z.of_nat k))).2 = Z.min (Z.of_nat (k + n)) 10).
  { clear n. induction n as [|n IH]; intros k Hk; simpl; [split; [done|lia]|].
    unfold spin. simpl. destruct (Z.leb_spec 10 (Z.of_nat k)) as [Hge|Hlt].
    - destruct (IH k Hk) as [I1 I2]. destruct (spins n _) as [bs w]. simpl in *.
      split; [|lia]. f_equal; [symmetry; apply Nat.ltb_ge; lia|].
      rewrite I1. apply imap_ext. intros i x _. unfold compose.
      by rewrite !(proj2 (Nat.ltb_ge _ _)) by lia.
    - replace (Z.of_nat k + 1) with (Z.of_nat (k + 1)) by lia.
      destruct (IH (k + 1)%nat) as [I1 I2]; [lia|].
      destruct (spins n _) as [bs w]. simpl in *. split; [|lia].
      f_equal; [symmetry; apply Nat.ltb_lt; lia|].
      rewrite I1. apply imap_ext. intros i x _. unfold compose. f_equal. lia. }
  destruct (H n 0%nat) as [H1 H2]; [lia|]. done.
Qed.
End SpinWait.

(** ** [FairTimeout] *)

Module FairTimeout.
(** [timeout] is an [Instant] in nanoseconds, an integer without bound, [seed] the [u32] state of the
    generator. *)
Record FairTimeout : Type := MkFairTimeout { timeout : Z; seed : Z }.

Definition new (timeout seed : Z) : FairTimeout := MkFairTimeout timeout seed.

(** [x << n] and [x >> n] on [u32]. *)
Definition shl32 (x n : Z) : Z := wrap 32 (Z.shiftl x n).
Definition shr32 (x n : Z) : Z := Z.shiftr x n.

(** Marsaglia's xorshift generator: the new seed is also the result. *)
Definition gen_u32 (s : Z) : Z :=
  let s := Z.lxor s (shl32 s 13) in
  let s := Z.lxor s (shr32 s 17) in
  let s := Z.lxor s (shl32 s 5) in
  s.

Definition should_timeout (now : Z) (f : FairTimeout) : bool * FairTimeout :=
  if timeout f <? now then
    let s := gen_u32 (seed f) in
    let nanos := s mod 1000000 in
    (true, MkFairTimeout (now + nanos) s)
  else (false, f).

Definition seed_ok (s : Z) : Prop := in_width 32 s /\ s <> 0.

Lemma lxor_width w a b : 0 <= w -> in_width w a -> in_width w b -> in_width w (Z.lxor a b).
Proof.
  intros Hw Ha Hb. assert (H0 : 0 <= Z.lxor a b) by (apply Z.lxor_nonneg; unfold in_width in *; lia).
  unfold in_width. split; [done|]. destruct (Z.eq_dec (Z.lxor a b) 0) as [->|Hne]; [lia|].
  apply Z.log2_lt_pow2; [lia|].
  destruct (Z.lt_ge_cases (Z.log2 (Z.lxor a b)) w) as [|Hge]; [done|exfalso].
  assert (Hb' : Z.testbit (Z.lxor a b) (Z.log2 (Z.lxor a b)) = true) by (apply Z.bit_log2; lia).
  rewrite Z.lxor_spec, !(in_width_testbit w) in Hb' by (done || lia). done.
Qed.

Lemma no_bits_zero s : (forall i, Z.testbit s i = false) -> s = 0.
Proof. intros H. apply Z.bits_inj. intros i. by rewrite H, Z.bits_0. Qed.

(** A word that equals its left shift has no lowest set bit. *)
Lemma shl_fixpoint_zero s n : 0 < n -> s = shl32 s n -> s = 0.
Proof.
  intros Hn Heq. apply no_bits_zero. intros i.
  destruct (Z.lt_ge_cases i 0) as [|Hi]; [by apply Z.testbit_neg_r|].
  apply (Z_lt_induction (fun i => Z.testbit s i = false)); [|done]. clear i Hi. intros i IH.
  destruct (Z.lt_ge_cases i 0) as [|Hi]; [by apply Z.testbit_neg_r|].
  rewrite Heq. unfold shl32, wrap. destruct (Z.lt_ge_cases i 32).
  - rewrite Z.mod_pow2_bits_low, Z.shiftl_spec by lia.
    destruct (Z.lt_ge_cases (i - n) 0); [by apply Z.testbit_neg_r|]. apply IH; lia.
  - apply Z.mod_pow2_bits_high. lia.
Qed.

Lemma shr_fixpoint_zero s n : 0 < n -> 0 <= s -> s = shr32 s n -> s = 0.
Proof.
  intros Hn Hs Heq. unfold shr32 in Heq. rewrite Z.shiftr_div_pow2 in Heq by lia.
  destruct (Z.eq_dec s 0) as [|Hne]; [done|exfalso].
  assert (2 ^ 1 <= 2 ^ n) by (apply Z.pow_le_mono_r; lia).
  pose proof (Z.div_lt s (2 ^ n)). lia.
Qed.

Lemma shr_width s n : 0 <= n -> in_width 32 s -> in_width 32 (shr32 s n).
Proof.
  intros Hn [H0 H1]. unfold shr32, in_width. rewrite Z.shiftr_div_pow2 by lia.
  pose proof (Z.pow_pos_nonneg 2 n). split; [apply Z.div_pos; lia|].
  apply Z.div_lt_upper_bound; nia.
Qed.

#[export] Hint Resolve lxor_width shr_width : words.

Lemma lxor_seed_ok s t : seed_ok s -> in_width 32 t -> s <> t -> seed_ok (Z.lxor s t).
Proof.
  intros [Hs H0] Ht Hne. split; [auto with words|].
  intros Heq. by apply Z.lxor_eq in Heq.
Qed.

(** The generator never reaches the absorbing state 0. *)
Lemma gen_u32_nonzero s : seed_ok s -> seed_ok (gen_u32 s).
Proof.
  intros H. unfold gen_u32.
  assert (Hl : forall s n, 0 < n -> seed_ok s -> seed_ok (Z.lxor s (shl32 s n))).
  { intros x n Hn Hx. apply lxor_seed_ok; [done|apply wrap_range; lia|].
    intros Heq. apply Hx. by apply (shl_fixpoint_zero x n). }
  apply Hl; [lia|]. pose proof (Hl s 13 ltac:(lia) H) as H1.
  apply lxor_seed_ok; [done|apply shr_width; [lia|apply H1]|].
  intros Heq. destruct H1 as [[? ?] Hnz]. apply Hnz.
  by apply (shr_fixpoint_zero _ 17).
Qed.

Lemma should_timeout_seed now f :
  seed_ok (seed f) -> seed_ok (seed (should_timeout now f).2).
Proof.
  intros Hs. unfold should_timeout. destruct (timeout f <? now); [by apply gen_u32_nonzero|done].
Qed.

(** C37. A fair unlock is due exactly when the deadline has passed; the next
    deadline is then set less than a millisecond ahead, and the seed stays
    usable. *)
Theorem should_timeout_spec now f :
  seed_ok (seed f) ->
  (should_timeout now f).1 = (timeout f <? now) /\
  seed_ok (seed (should_timeout now f).2) /\
  (timeout f < now -> now <= timeout (should_timeout now f).2 < now + 1000000) /\
  (now <= timeout f -> (should_timeout now f).2 = f).
Proof.
  intros Hs. unfold should_timeout. destruct (Z.ltb_spec (timeout f) now); simpl.
  - split_and!; [done|by apply gen_u32_nonzero| |lia].
    intros _. pose proof (Z.mod_pos_bound (gen_u32 (seed f)) 1000000). lia.
  - split_and!; [done|done|lia|done].
Qed.

Lemma should_timeout_spec_witness :
  seed_ok 1 /\ (should_timeout 5 (new 0 1)).1 = true /\
  timeout (should_timeout 5 (new 0 1)).2 < 5 + 1000000.
Proof.
  assert (Hs : seed_ok 1) by (split; [unfold in_width; lia|lia]).
  split; [exact Hs|]. split; [reflexivity|].
  apply (should_timeout_spec 5 (new 0 1) Hs). reflexivity.
Defined.
End FairTimeout.
