(* ===== verification/ThreadParker.v ===== *)
(** * Sleeping on a futex: [ThreadParker] in [mutex/deadlock.rs]

    A thread sleeps on a word of its own.  The [futex] system call is a parameter:
    [Kernel] is what Linux documents of it.  The operations of the parker are written
    for any state that has the kernel's queues and in which the word at an address can
    be read and written; [ParkLot] and [WordLock] use them. *)

From S2P Require Import Prelude Machine Conc.

Definition EINTR : Z := 4.
Definition EAGAIN : Z := 11.
Definition EFAULT : Z := 14.
Definition ETIMEDOUT : Z := 110.

(** [SYS_futex]: the threads asleep in the kernel, by the address of the futex word
    they wait on.  A wait whose word has the value expected puts the thread to sleep,
    atomically with the comparison; it ends when another thread wakes it, or without
    that, with result 0, an interruption or, if a time was given, because it has passed.
    [FUTEX_WAKE] of one thread returns the number of threads woken, or [EFAULT] for an
    address that is not mapped, on which no thread sleeps.  Results are pairs with
    [errno]. *)
Class Kernel : Type := {
  waiters : Type;
  no_waiters : waiters;
  sleepers : Z -> waiters -> nat;
  go_to_sleep : Z -> waiters -> waiters;
  wait_ends : Z -> option Z -> waiters -> (Z * Z) * waiters;
  wake_one : Z -> waiters -> (Z * Z) * waiters;
  sleepers_none a : sleepers a no_waiters = 0%nat;
  sleepers_sleep a b w :
    sleepers b (go_to_sleep a w) = ((if decide (a = b) then 1 else 0) + sleepers b w)%nat;
  sleepers_ends a b ts w :
    sleepers b (wait_ends a ts w).2 = (sleepers b w - if decide (a = b) then 1 else 0)%nat;
  sleepers_wake a b w :
    sleepers b (wake_one a w).2 = (sleepers b w - if decide (a = b) then 1 else 0)%nat;
  wait_ends_result a ts w : (wait_ends a ts w).1.1 = 0 \/ (wait_ends a ts w).1 = (-1, EINTR) \/
    is_some ts = true /\ (wait_ends a ts w).1 = (-1, ETIMEDOUT);
  wake_one_result a w : 0 <= (wake_one a w).1.1 <= 1 \/ (wake_one a w).1 = (-1, EFAULT);
}.

Module Parker.
Section Parker.
Context `{KK : Kernel} {St : Type} (K : lens St waiters).
Context (word_at : Z -> St -> option Z).
Context (read_futex : Z -> prog St Z) (write_futex : Z -> Z -> prog St ()).

(** [syscall(SYS_futex, a, FUTEX_WAIT, val, ts)].  Only the thread whose word it is waits
    on [a]: it sleeps as long as somebody does. *)
Definition sys_futex_wait (a val : Z) (ts : option Z) : prog St (Z * Z) :=
  let! asleep := act (fun s => match word_at a s with
    | Some v => if v =? val then Ok (inl true, lput K (go_to_sleep a (lget K s)) s)
                else Ok (inl false, s)
    | None => Ok (inr (), s)
    end) in
  match asleep with
  | inl true =>
      Ask (fun e =>
        if spurious e then
          act (fun s => let '(re, w) := wait_ends a ts (lget K s) in Ok (re, lput K w s))
        else act (fun s => if sleepers a (lget K s) is S _ then Block else Ok ((0, 0), s)))
  | inl false => Ret (-1, EAGAIN)
  | inr _ => Ret (-1, EFAULT)
  end.

(** [syscall(SYS_futex, a, FUTEX_WAKE, 1)]. *)
Definition sys_futex_wake (a : Z) : prog St (Z * Z) :=
  act (fun s => let '(re, w) := wake_one a (lget K s) in Ok (re, lput K w s)).

(** [ThreadParker::new]. *)
Definition new : Z := 0.

Definition prepare_park (a : Z) : prog St () := write_futex a 1.

Definition timed_out (a : Z) : prog St bool :=
  let! f := read_futex a in Ret (negb (f =? 0)).

Definition futex_wait (a : Z) (ts : option Z) : prog St () :=
  let! re := sys_futex_wait a 1 ts in
  let '(r, errno) := re in
  assert_ ((r =? 0) || (r =? -1)) ;;
  if r =? -1 then
    assert_ ((errno =? EINTR) || (errno =? EAGAIN) || (is_some ts && (errno =? ETIMEDOUT)))
  else Ret ().

Definition park (a : Z) : prog St () :=
  while_ (let! f := read_futex a in Ret (negb (f =? 0))) (futex_wait a None).

(** [x as libc::time_t as u64]. *)
Definition as_time_t (x : Z) : Z := if x <? 2 ^ 63 then x else x - 2 ^ 64.

Definition park_until (a timeout : Z) : prog St bool :=
  forever (
    let! f := read_futex a in
    if f =? 0 then Ret (Some true)
    else
      let! now := instant_now in
      if timeout <=? now then Ret (Some false)
      else
        let diff := timeout - now in
        let secs := diff / 1000000000 in
        if negb (wrap 64 (as_time_t secs) =? secs) then
          park a ;; Ret (Some true)
        else futex_wait a (Some diff) ;; Ret None).

Definition unpark_lock (a : Z) : prog St Z := write_futex a 0 ;; Ret a.

(** [UnparkHandle::unpark]. *)
Definition unpark (handle : Z) : prog St () :=
  let! re := sys_futex_wake handle in
  let '(r, errno) := re in
  assert_ ((r =? 0) || (r =? 1) || (r =? -1)) ;;
  if r =? -1 then assert_ (errno =? EFAULT) else Ret ().
End Parker.
End Parker.

(** ** Sleeping among other threads

    Thread [t] waits until its word is cleared.  It is awake in the phases of [A], asleep
    in the kernel in those of [B], and done in those of [D]. *)
Section Safe.
Context `{KK : Kernel} {St G : Type} (K : lens St waiters) `{!LensLaws K}.
Context (word_at : Z -> St -> option Z) (read_futex : Z -> prog St Z).
Context (Inv : St -> (nat -> G) -> Prop) (mv : G -> G -> Prop) `{!PreOrder mv}
  (wait : St -> (nat -> G) -> nat -> Prop).
Context (t : nat) (a : Z) (A B D : G -> Prop).

Abbreviation cs := (csafe Inv mv wait).
Abbreviation to := (csafe_to Inv mv).

Context (A_mv : forall c c', A c -> mv c c' -> A c') (D_mv : forall c c', D c -> mv c c' -> D c').
Context (B_mv : forall c c', B c -> mv c c' -> B c').
Context (reads : forall n c, A c -> cs n t c (read_futex a) (fun c f => f <> 0 /\ A c \/ f = 0 /\ D c)).
Context (sleeps : forall s g, Inv s g -> A (g t) -> exists v, word_at a s = Some v /\
  (v = 1 -> to t g (lput K (go_to_sleep a (lget K s)) s) (fun c _ => B c) ())).
Context (wakes : forall s g w, Inv s g -> B (g t) ->
  (forall b, sleepers b w = (sleepers b (lget K s) - if decide (a = b) then 1 else 0)%nat) ->
  to t g (lput K w s) (fun c _ => A c) ()).
Context (may_wait : forall s g, Inv s g -> B (g t) -> sleepers a (lget K s) <> 0%nat -> wait s g t).

(** The results of a wait that the assertions expect. *)
Definition wait_result (ts : option Z) (re : Z * Z) : Prop :=
  re.1 = 0 \/ re.1 = -1 /\ (re.2 = EINTR \/ re.2 = EAGAIN \/ is_some ts = true /\ re.2 = ETIMEDOUT).

Lemma to_unit {X} g s' (P : G -> Prop) (x : X) (Q : G -> X -> Prop) :
  to t g s' (fun c _ => P c) () -> (forall c, P c -> Q c x) -> to t g s' Q x.
Proof. intros (g' & Hi & Hm & HP) HQ. exists g'. eauto. Qed.

Lemma sys_wait_ok n c ts : A c -> cs n t c (Parker.sys_futex_wait K word_at a 1 ts)
  (fun c re => A c /\ wait_result ts re).
Proof.
  intros Hc. eapply (csafe_bind Inv mv).
  { apply csafe_act_to with (Q := fun c r => match r with inl true => B c | inl false => A c | inr _ => False end).
    intros s g Hi Hg. destruct (sleeps s g Hi) as (v & -> & Hs); [by eapply A_mv|].
    destruct (Z.eqb_spec v 1) as [->|]; [by eapply to_unit; [by apply Hs|]|].
    exists g. split_and!; [done|done|]. eauto. }
  intros m1 c1 [[]|[]] _ Hc1; [|apply csafe_ret; intros c' Hc'; split; [eauto|by right; simpl; auto]|done].
  apply csafe_ask. intros e m2 _. destruct (spurious e); apply csafe_act_to; intros s g Hi Hg;
    assert (Hgt : B (g t)) by by eapply B_mv.
  - pose proof (wait_ends_result a ts (lget K s)) as Hr.
    pose proof (wakes s g _ Hi Hgt (fun b => sleepers_ends a b ts (lget K s))) as Hw.
    destruct (wait_ends a ts (lget K s)) as [re w]. simpl in *. eapply to_unit; [exact Hw|].
    intros c2 Hc2. split; [done|]. destruct Hr as [Hr|[-> |[? ->]]]; [by left|by right; simpl; auto..].
  - destruct (sleepers a (lget K s)) as [|k] eqn:Hk; [|apply may_wait; [done..|lia]].
    rewrite <- (lput_lget s). eapply to_unit; [apply wakes; [done..|]|by intros c2 Hc2; split; [|left]].
    intros b. case_decide as E; [subst b|]; lia.
Qed.

Lemma futex_wait_safe n c ts : A c ->
  cs n t c (Parker.futex_wait K word_at a ts) (fun c _ => A c).
Proof.
  intros Hc. eapply (csafe_bind Inv mv); [by apply sys_wait_ok|]. intros m1 c1 [r e] _ [Hc1 Hr].
  unfold wait_result in Hr. simpl in Hr.
  destruct Hr as [-> |[-> [-> |[-> |[Hts ->]]]]]; [apply csafe_ret; eauto..|].
  simpl. rewrite Hts. apply csafe_ret. eauto.
Qed.

Lemma park_safe n c : A c -> cs n t c (Parker.park K word_at read_futex a) (fun c _ => D c).
Proof.
  intros Hc. eapply (csafe_loop Inv mv _ _ _ (fun c _ => A c)); [done|]. clear c Hc. intros m1 c [] _ Hc.
  eapply (csafe_bind Inv mv) with (P := fun c (r : option ()) => if r is Some _ then D c else A c).
  { eapply (csafe_bind Inv mv) with (P := fun c (b : bool) => if b then A c else D c).
    - eapply (csafe_bind Inv mv); [by apply reads|]. intros m2 c2 f _ [[Hf Hc2]|[-> Hc2]];
        [rewrite (proj2 (Z.eqb_neq _ _) Hf)|]; apply csafe_ret; simpl; eauto.
    - intros m2 c2 [] _ Hc2; [|apply csafe_ret; eauto].
      eapply (csafe_bind Inv mv); [by apply futex_wait_safe|]. intros m3 c3 [] _ Hc3. apply csafe_ret. eauto. }
  intros m2 c2 [[]|] _ Hc2; apply csafe_ret; intros c3 Hc3; [|eauto].
  intros m3 _. apply csafe_ret. eauto.
Qed.
End Safe.

(** Waking: the results that the assertions expect. *)
Lemma unpark_safe `{KK : Kernel} {St G : Type} (K : lens St waiters) (Inv : St -> (nat -> G) -> Prop)
    (mv : G -> G -> Prop) `{!PreOrder mv} (wait : St -> (nat -> G) -> nat -> Prop) n t c a (Q : G -> Prop) :
  (forall c c', Q c -> mv c c' -> Q c') ->
  (forall s g w, Inv s g -> mv c (g t) ->
    (forall b, sleepers b w = (sleepers b (lget K s) - if decide (a = b) then 1 else 0)%nat) ->
    csafe_to Inv mv t g (lput K w s) (fun c _ => Q c) ()) ->
  csafe Inv mv wait n t c (Parker.unpark K a) (fun c _ => Q c).
Proof.
  intros HQ H. eapply (csafe_bind Inv mv).
  { apply csafe_act_to with (Q := fun c re => Q c /\ (0 <= re.1 <= 1 \/ re = (-1, EFAULT))).
    intros s g Hi Hg. pose proof (wake_one_result a (lget K s)) as Hr.
    pose proof (H s g _ Hi Hg (fun b => sleepers_wake a b (lget K s))) as Hs.
    destruct (wake_one a (lget K s)) as [re w]. by eapply to_unit. }
  intros m c1 [r e] _ [Hc1 Hr]. simpl in Hr.
  assert (r = 0 \/ r = 1 \/ r = -1 /\ e = EFAULT) as [-> |[-> |[-> ->]]]
    by (destruct Hr as [Hr|[= -> ->]]; [lia|auto]); apply csafe_ret; eauto.
Qed.

(** ** A kernel that counts

    A wait that ends without a wakeup is interrupted, or its time has passed. *)
Definition count_at (a : Z) (w : gmap Z nat) : nat := default 0%nat (w !! a).
Definition count_sleep (a : Z) (w : gmap Z nat) : gmap Z nat := <[a := S (count_at a w)]> w.
Definition count_wake (a : Z) (w : gmap Z nat) : gmap Z nat :=
  match count_at a w with S (S n) => <[a := S n]> w | _ => delete a w end.

Lemma count_wake_at a b w :
  count_at b (count_wake a w) = (count_at b w - if decide (a = b) then 1 else 0)%nat.
Proof.
  unfold count_wake. case_decide as E.
  - subst b. destruct (count_at a w) as [|[|n]]; unfold count_at;
      rewrite ?lookup_delete_eq, ?lookup_insert_eq; simpl; lia.
  - rewrite Nat.sub_0_r. unfold count_at.
    destruct (default 0%nat (w !! a)) as [|[|n]]; rewrite ?lookup_delete_ne, ?lookup_insert_ne; done.
Qed.

Lemma count_sleep_at a b w :
  count_at b (count_sleep a w) = ((if decide (a = b) then 1 else 0) + count_at b w)%nat.
Proof.
  unfold count_sleep, count_at. case_decide as E.
  - subst b. by rewrite lookup_insert_eq.
  - by rewrite lookup_insert_ne.
Qed.

Lemma count_none a : count_at a ∅ = 0%nat.
Proof. done. Qed.

Definition count_end (a : Z) (ts : option Z) (w : gmap Z nat) : (Z * Z) * gmap Z nat :=
  ((-1, if is_some ts then ETIMEDOUT else EINTR), count_wake a w).

Lemma count_ended a ts w : (count_end a ts w).1.1 = 0 \/ (count_end a ts w).1 = (-1, EINTR) \/
  is_some ts = true /\ (count_end a ts w).1 = (-1, ETIMEDOUT).
Proof. right. destruct ts; [by right|by left]. Qed.

Lemma count_woken a w :
  0 <= (Z.of_nat (Nat.min 1 (count_at a w)), 0).1 <= 1 \/
  (Z.of_nat (Nat.min 1 (count_at a w)), 0) = (-1, EFAULT).
Proof. left. simpl. destruct (count_at a w); simpl; lia. Qed.

#[export] Instance counting_kernel : Kernel :=
  {| waiters := gmap Z nat; no_waiters := ∅; sleepers := count_at;
     go_to_sleep := count_sleep; wait_ends := count_end;
     wake_one a w := ((Z.of_nat (Nat.min 1 (count_at a w)), 0), count_wake a w);
     sleepers_none := count_none; sleepers_sleep := count_sleep_at;
     sleepers_ends a b ts := count_wake_at a b; sleepers_wake := count_wake_at;
     wait_ends_result := count_ended; wake_one_result := count_woken |}.
