(* ===== verification/Resources.v ===== *)
(** * The resources of a thread: [deadlock_impl] in [mutex/deadlock.rs]

    Every thread records the keys of the locks it holds in a [Vec<usize>]. *)

From S2P Require Import Prelude.

Definition acquire_resource (key : Z) (resources : list Z) : list Z := resources ++ [key].

(** [iter().rposition(|x| *x == key)]: the index of the last occurrence. *)
Fixpoint rposition (key : Z) (l : list Z) : option nat :=
  match l with
  | [] => None
  | x :: l => match rposition key l with
              | Some i => Some (S i)
              | None => if x =? key then Some 0%nat else None
              end
  end.

(** [Vec::swap_remove(i)]: the last element takes the place of the [i]-th. *)
Definition swap_remove (i : nat) (l : list Z) : list Z :=
  match last l with
  | None => l
  | Some z => take (length l - 1) (<[i := z]> l)
  end.

Definition release_resource (key : Z) (resources : list Z) : list Z :=
  match rposition key resources with
  | Some p => swap_remove p resources
  | None => resources
  end.

Lemma rposition_Some key l i :
  rposition key l = Some i ->
  l !! i = Some key /\ forall j, (i < j)%nat -> l !! j <> Some key.
Proof.
  revert i. induction l as [|x l IH]; intros i; simpl; [done|].
  destruct (rposition key l) as [p|] eqn:E.
  - injection 1 as <-. destruct (IH p eq_refl) as [H1 H2]. split; [done|].
    intros [|j] Hj; [lia|]. apply H2. lia.
  - destruct (Z.eqb_spec x key) as [->|]; [|done]. injection 1 as <-. split; [done|].
    intros [|j] Hj; [lia|]. simpl. clear IH Hj. revert j.
    induction l as [|y l IH]; intros j; [done|]. simpl in E.
    destruct (rposition key l); [done|]. destruct (Z.eqb_spec y key) as [|Hne]; [done|].
    destruct j as [|j]; simpl; [congruence|by apply IH].
Qed.

Lemma rposition_None key l : rposition key l = None -> key ∉ l.
Proof.
  induction l as [|x l IH]; simpl; [set_solver|].
  destruct (rposition key l); [done|]. destruct (Z.eqb_spec x key); [done|].
  set_solver.
Qed.

Lemma swap_remove_perm i l x : l !! i = Some x -> l ≡ₚ x :: swap_remove i l.
Proof.
  intros Hi. unfold swap_remove.
  destruct l as [|y l _] using rev_ind; [done|].
  rewrite last_snoc, length_app. simpl. replace (length l + 1 - 1)%nat with (length l) by lia.
  destruct (decide (i = length l)) as [->|Hne].
  - rewrite lookup_snoc_last in Hi. injection Hi as ->.
    rewrite insert_app_r_alt, Nat.sub_diag by lia. simpl. rewrite take_app_length.
    by rewrite Permutation_app_comm.
  - pose proof (lookup_lt_Some _ _ _ Hi) as Hlt. rewrite length_app in Hlt. simpl in Hlt.
    rewrite insert_app_l by lia.
    rewrite take_app_le, take_ge by (rewrite length_insert; lia).
    rewrite lookup_app_l in Hi by lia.
    rewrite <- (take_drop_middle l i x Hi) at 1.
    rewrite insert_take_drop by lia.
    rewrite <- !app_assoc. simpl.
    by rewrite <- (Permutation_middle (take i l) (drop (S i) l ++ [y]) x),
      <- Permutation_cons_append.
Qed.

(** The most recent acquisition is the last occurrence. *)
Lemma release_acquire key l : release_resource key (acquire_resource key l) = l.
Proof.
  unfold release_resource, acquire_resource.
  assert (Hp : rposition key (l ++ [key]) = Some (length l)).
  { induction l as [|x l IH]; simpl; [by rewrite Z.eqb_refl|by rewrite IH]. }
  rewrite Hp. unfold swap_remove. rewrite last_snoc, length_app. simpl.
  rewrite insert_app_r_alt, Nat.sub_diag by lia. simpl.
  replace (length l + 1 - 1)%nat with (length l) by lia. by rewrite take_app_length.
Qed.

(** C39. Releasing a key the thread holds removes exactly one occurrence of it and
    keeps the rest (possibly in another order); releasing another key changes
    nothing; releasing right after acquiring restores the vector. *)
Theorem release_resource_spec key l :
  (key ∈ l -> l ≡ₚ key :: release_resource key l) /\
  (key ∉ l -> release_resource key l = l) /\
  release_resource key (acquire_resource key l) = l.
Proof.
  unfold release_resource. split_and!.
  - intros Hin. destruct (rposition key l) as [p|] eqn:E.
    + apply rposition_Some in E as [Hp _]. by apply swap_remove_perm.
    + by apply rposition_None in E.
  - intros Hn. destruct (rposition key l) as [p|] eqn:E; [|done].
    apply rposition_Some in E as [Hp _]. by apply list_elem_of_lookup_2 in Hp.
  - apply release_acquire.
Qed.
