(* ===== verification/Parking.v ===== *)
(** * The parking lot as its users see it

    [mutex/deadlock.rs] lets a thread sleep on a key until another thread wakes
    it.  [ParkingLot] is the interface a lock is written against; [bucket] is the
    abstract state of the bucket of a key, with its queue as a list, and [B_park]
    and [B_unpark_one] are the two operations at that level: everything between
    locking and unlocking the bucket is done by atomic updates of the list. *)

From S2P Require Import Prelude Machine Timing.

(** [UnparkToken] and [ParkToken] are [usize] values. *)
Definition DEFAULT_UNPARK_TOKEN : Z := 0.
Definition DEFAULT_PARK_TOKEN : Z := 0.

(** Result of a park operation. *)
Inductive ParkResult : Type :=
| Unparked (token : Z)
| Invalid
| TimedOut.

(** Result of an unpark operation. *)
Record UnparkResult : Type := MkUnparkResult {
  unparked_threads : nat;
  requeued_threads : nat;
  have_more_threads : bool;
  be_fair : bool;
}.

Definition UnparkResult_default : UnparkResult := MkUnparkResult 0 0 false false.

(** The interface: the calling thread, the key, and the callbacks of the source. *)
Class ParkingLot (St : Type) : Type := {
  park (me : nat) (key : Z) (validate : prog St bool) (before_sleep : prog St ())
       (timed_out : Z -> bool -> prog St ()) (park_token : Z) (timeout : option Z)
       : prog St ParkResult;
  unpark_one (me : nat) (key : Z) (callback : UnparkResult -> prog St Z)
       : prog St UnparkResult;
}.

(** ** The abstract bucket *)

(** The queue holds (thread, key) pairs, oldest first; [woken] has the token of
    every thread that was unparked. *)
Record bucket : Type := MkBucket {
  locked_by : option nat;
  queue : list (nat * Z);
  woken : gmap nat Z;
  fair_timeout : FairTimeout.FairTimeout;
}.

Definition set_locked_by x b := MkBucket x (queue b) (woken b) (fair_timeout b).
Definition set_queue x b := MkBucket (locked_by b) x (woken b) (fair_timeout b).
Definition set_woken x b := MkBucket (locked_by b) (queue b) x (fair_timeout b).
Definition set_fair x b := MkBucket (locked_by b) (queue b) (woken b) x.

(** The first thread waiting for [key], and the queue without it. *)
Fixpoint take_first (key : Z) (q : list (nat * Z)) : option (nat * list (nat * Z)) :=
  match q with
  | [] => None
  | (t, k) :: q =>
      if k =? key then Some (t, q)
      else match take_first key q with
           | Some (t', q') => Some (t', (t, k) :: q')
           | None => None
           end
  end.

Definition waits_for (key : Z) (q : list (nat * Z)) : bool :=
  existsb (fun '(_, k) => k =? key) q.

Definition remove_thread (me : nat) (q : list (nat * Z)) : list (nat * Z) :=
  filter (fun e => e.1 <> me) q.

Section Operations.
Context {St : Type} (L : lens St bucket).

Definition modify (f : bucket -> bucket) : prog St () :=
  store (fun s => lput L (f (lget L s)) s).

Definition lock_bucket (me : nat) : prog St () :=
  act (fun s => match locked_by (lget L s) with
                | None => Ok ((), lput L (set_locked_by (Some me) (lget L s)) s)
                | Some _ => Block
                end).
Definition unlock_bucket : prog St () := modify (set_locked_by None).

Definition enqueue (me : nat) (key : Z) : prog St () :=
  modify (fun b => set_woken (delete me (woken b)) (set_queue (queue b ++ [(me, key)]) b)).

(** Sleep until woken. *)
Definition sleep (me : nat) : prog St Z :=
  act (fun s => match woken (lget L s) !! me with
                | Some tok => Ok (tok, s)
                | None => Block
                end).

(** Sleep until woken or until [deadline]. *)
Definition sleep_until (me : nat) (deadline : Z) : prog St bool :=
  forever (let! w := load (fun s => woken (lget L s) !! me) in
           match w with
           | Some _ => Ret (Some true)
           | None => let! now := instant_now in
                     Ret (if deadline <=? now then Some false else None)
           end).

Definition B_park (me : nat) (key : Z) (validate : prog St bool) (before_sleep : prog St ())
    (timed_out : Z -> bool -> prog St ()) (park_token : Z) (timeout : option Z)
    : prog St ParkResult :=
  lock_bucket me ;;
  let! v := validate in
  if (v : bool) then
    enqueue me key ;;
    unlock_bucket ;;
    before_sleep ;;
    match timeout with
    | None => let! tok := sleep me in Ret (Unparked tok)
    | Some deadline =>
        let! unparked := sleep_until me deadline in
        if (unparked : bool) then let! tok := sleep me in Ret (Unparked tok)
        else
          lock_bucket me ;;
          let! w := load (fun s => woken (lget L s) !! me) in
          match w with
          | Some tok => unlock_bucket ;; Ret (Unparked tok)
          | None =>
              modify (fun b => set_queue (remove_thread me (queue b)) b) ;;
              let! q := load (fun s => queue (lget L s)) in
              timed_out key (negb (waits_for key q)) ;;
              unlock_bucket ;;
              Ret TimedOut
          end
    end
  else unlock_bucket ;; Ret Invalid.

Definition B_unpark_one (me : nat) (key : Z) (callback : UnparkResult -> prog St Z)
    : prog St UnparkResult :=
  lock_bucket me ;;
  let! q := load (fun s => queue (lget L s)) in
  match take_first key q with
  | Some (t, rest) =>
      modify (set_queue rest) ;;
      let! now := instant_now in
      let! fair := act (fun s =>
        let '(r, f) := FairTimeout.should_timeout now (fair_timeout (lget L s)) in
        Ok (r, lput L (set_fair f (lget L s)) s)) in
      let result := MkUnparkResult 1 0 (waits_for key rest) fair in
      let! token := callback result in
      modify (fun b => set_woken (<[t := token]> (woken b)) b) ;;
      unlock_bucket ;;
      Ret result
  | None =>
      callback UnparkResult_default ;;
      unlock_bucket ;;
      Ret UnparkResult_default
  end.

#[export] Instance bucket_lot : ParkingLot St :=
  {| park := B_park; unpark_one := B_unpark_one |}.
End Operations.
