(* ===== verification/RawMutex.v ===== *)
(** * The raw mutex: [mutex/raw_mutex.rs] and [mutex/mod.rs]

    The mutex is one byte.  Its lowest bit is set while a thread holds the mutex,
    the next one while threads are parked, or about to park, on its address.  The
    functions are programs over any state that has the byte ([W]), the resources
    of every thread ([R]) and a parking lot. *)

From S2P Require Import Prelude Machine Timing Resources Parking.

Definition TOKEN_NORMAL : Z := 0.
Definition TOKEN_HANDOFF : Z := 1.
Definition LOCKED_BIT : Z := 1.
Definition PARKED_BIT : Z := 2.

(** [RawMutex::INIT]. *)
Definition INIT : Z := 0.

Section RawMutex.
Context {St : Type} `{ParkingLot St}.
Context (W : lens St Z) (R : lens St (gmap nat (list Z))) (addr : Z).

Definition load_state : prog St Z := load (lget W).
Definition store_state (v : Z) : prog St () := store (lput W v).
Definition cas_state (cur new : Z) : prog St (Z + Z) :=
  compare_exchange (lget W) (lput W) cur new.
Definition cas_weak_state (cur new : Z) : prog St (Z + Z) :=
  compare_exchange_weak (lget W) (lput W) cur new.

(** [deadlock::acquire_resource] and [release_resource] of the running thread. *)
Definition with_resources (me : nat) (f : list Z -> list Z) : prog St () :=
  store (fun s => lput R (<[me := f (default [] (lget R s !! me))]> (lget R s)) s).

Definition mark_parked_when_lock : prog St bool :=
  let! state := load_state in
  loop (fun state =>
    if Z.land state LOCKED_BIT =? 0 then Ret (inr false)
    else
      let! r := cas_weak_state state (Z.lor state PARKED_BIT) in
      match r with
      | inl _ => Ret (inr true)
      | inr x => Ret (inl x)
      end) state.

(** The [validate] closure of [lock_slow]. *)
Definition validate : prog St bool :=
  let! s := load_state in Ret (s =? Z.lor LOCKED_BIT PARKED_BIT).

(** The [time_out] closure of [lock_slow]: [fetch_and(!PARKED_BIT)]. *)
Definition time_out (key : Z) (was_last_thread : bool) : prog St () :=
  if was_last_thread then store (fun s => lput W (Z.land (lget W s) (unot 8 PARKED_BIT)) s)
  else Ret ().

Definition lock_slow (me : nat) : prog St bool :=
  let! state := load_state in
  loop (fun '(wait, state) =>
    if Z.land state LOCKED_BIT =? 0 then
      let! r := cas_weak_state state (Z.lor state LOCKED_BIT) in
      match r with
      | inl _ => Ret (inr true)
      | inr x => Ret (inl (wait, x))
      end
    else
      (** if no queue try spinning before checking again *)
      let '(spun, wait) :=
        if Z.land state PARKED_BIT =? 0 then (SpinWait.spin wait).1 else (false, wait) in
      if (spun : bool) then
        let! state := load_state in
        Ret (inl (wait, state))
      else
        (** set the parked bit *)
        let! r := (if Z.land state PARKED_BIT =? 0
                   then cas_weak_state state (Z.lor state PARKED_BIT)
                   else Ret (inl state)) in
        match r with
        | inr x => Ret (inl (wait, x))
        | inl _ =>
            let! p := park me addr validate (Ret ()) time_out DEFAULT_PARK_TOKEN None in
            let again :=
              let wait := (SpinWait.spin wait).1.2 in
              let! state := load_state in
              Ret (inl (wait, state)) in
            match p with
            | Unparked token => if token =? TOKEN_HANDOFF then Ret (inr true) else again
            | Invalid => again
            | TimedOut => Ret (inr false)
            end
        end) (SpinWait.new, state).

(** The closure [unlock_slow] passes to [unpark_one]. *)
Definition unlock_callback (res : UnparkResult) : prog St Z :=
  if negb (Nat.eqb (unparked_threads res) 0) && be_fair res then
    (if negb (have_more_threads res) then store_state LOCKED_BIT else Ret ()) ;;
    Ret TOKEN_HANDOFF
  else
    (if have_more_threads res then store_state PARKED_BIT else store_state 0) ;;
    Ret TOKEN_NORMAL.

Definition unlock_slow (me : nat) : prog St () :=
  unpark_one me addr unlock_callback ;; Ret ().

(** *** [impl Mutexable for RawMutex] *)

Definition raw_lock (me : nat) : prog St () :=
  let! r := cas_weak_state 0 LOCKED_BIT in
  (if is_ok r then Ret () else lock_slow me ;; Ret ()) ;;
  with_resources me (acquire_resource addr).

(** The new state of the compare-exchange is [state | PARKED_BIT]. *)
Definition raw_try_lock (me : nat) : prog St bool :=
  let! state := load_state in
  loop (fun state =>
    if negb (Z.land state LOCKED_BIT =? 0) then Ret (inr false)
    else
      let! r := cas_weak_state state (Z.lor state PARKED_BIT) in
      match r with
      | inl _ => with_resources me (acquire_resource addr) ;; Ret (inr true)
      | inr x => Ret (inl x)
      end) state.

Definition raw_unlock (me : nat) : prog St () :=
  with_resources me (release_resource addr) ;;
  let! r := cas_state LOCKED_BIT 0 in
  if is_ok r then Ret () else unlock_slow me.
End RawMutex.
