(* ===== verification/SmallMutex.v ===== *)
(** * The mutex with its data: [mutex/mod.rs]

    [SmallMutex<M, T>] is a raw mutex and the data it protects.  Locking returns a
    [MutexGuard], through which the data is read and written and whose [drop]
    unlocks; [map] turns it into a [MapMutexGuard] on a component of the data. *)

From S2P Require Import Prelude Machine Timing Resources Parking RawMutex.

(** The trait [Mutexable]: a raw mutex of type [M] in a state of type [St], used
    by the thread given as the first argument. *)
Class Mutexable (St M : Type) : Type := {
  M_INIT : M;
  m_lock : nat -> prog St ();
  m_try_lock : nat -> prog St bool;
  m_unlock : nat -> prog St ();
}.

(** [unsafe impl Mutexable for RawMutex]. *)
#[export] Instance RawMutex_mutexable {St} `{ParkingLot St} (W : lens St Z)
    (R : lens St (gmap nat (list Z))) (addr : Z) : Mutexable St Z := {|
  M_INIT := INIT;
  m_lock := raw_lock W R addr;
  m_try_lock := raw_try_lock W R addr;
  m_unlock := raw_unlock W R addr;
|}.

Record SmallMutex (M T : Type) : Type := MkSmallMutex { raw : M; data : T }.
Arguments MkSmallMutex {M T} raw data.
Arguments raw {M T} _.
Arguments data {M T} _.

Definition SmallMutex_new {St M T} `{!Mutexable St M} (val : T) : SmallMutex M T :=
  MkSmallMutex (M_INIT (St := St)) val.

(** [Default], with the default of the data. *)
Definition SmallMutex_default {St M T} `{!Mutexable St M} (default : T) : SmallMutex M T := SmallMutex_new default.

Definition SmallMutex_into_inner {M T} (m : SmallMutex M T) : T := data m.

(** A guard holds a reference to its mutex, a mapped guard one to the raw mutex
    and a pointer to a component of the data. *)
Inductive MutexGuard : Type := MkMutexGuard.
Record MapMutexGuard (T U : Type) : Type := MkMapMutexGuard { target : lens T U }.
Arguments MkMapMutexGuard {T U} target.
Arguments target {T U} _.

(** ** Drops

    A value that is owned is dropped at the end of its scope, unless it was moved away: a
    variable is [None] then.  Dropping it runs [Drop::drop] of its type, if the type
    implements [Drop]; the references and raw pointers in a guard have no drop of
    their own.  [mem::forget] moves the value away and does nothing to it. *)
Class Drop (St A : Type) : Type := drop_impl : option (nat -> A -> prog St ()).

Definition drop_glue {St A} `{!Drop St A} (me : nat) (x : A) : prog St () :=
  match drop_impl with Some drop => drop me x | None => Ret () end.
Definition end_of_scope {St A} `{!Drop St A} (me : nat) (v : option A) : prog St () :=
  match v with Some x => drop_glue me x | None => Ret () end.
Definition mem_forget {A} (v : option A) : option A := None.

Section Guards.
Context {St M T : Type} `{!Mutexable St M} (D : lens St T).

(** [SmallMutex::lock], [try_lock] and [force_unlock]. *)
Definition small_lock (me : nat) : prog St MutexGuard := m_lock me ;; Ret MkMutexGuard.
Definition small_try_lock (me : nat) : prog St bool := m_try_lock me.
Definition force_unlock (me : nat) : prog St () := m_unlock me.

(** [Drop], [Deref] and [DerefMut] of [MutexGuard]. *)
Definition guard_drop (me : nat) (g : MutexGuard) : prog St () := m_unlock me.
Definition guard_deref (g : MutexGuard) : prog St T := load (lget D).
Definition guard_write (g : MutexGuard) (v : T) : prog St () := store (lput D v).

(** [impl Drop for MutexGuard]; there is none for [MapMutexGuard]. *)
#[export] Instance MutexGuard_drop : Drop St MutexGuard := Some guard_drop.
#[export] Instance MapMutexGuard_drop {U} : Drop St (MapMutexGuard T U) := None.

(** [MutexGuard::map] and [MapMutexGuard::map], on a component of the data: they own the
    guard [s] they are given, and forget it. *)
Definition guard_map {U} (me : nat) (s : MutexGuard) (f : lens T U) : prog St (MapMutexGuard T U) :=
  let s := Some s in
  let data := f in
  let s := mem_forget s in
  end_of_scope me s ;;
  Ret (MkMapMutexGuard data).

Definition map_guard_map {U V} (me : nat) (s : MapMutexGuard T U) (f : lens U V) : prog St (MapMutexGuard T V) :=
  let data := lens_comp (target s) f in
  let s := Some s in
  let s := mem_forget s in
  end_of_scope me s ;;
  Ret (MkMapMutexGuard data).
End Guards.
