(* ===== verification/RawMutexInv.v ===== *)
(** * The raw mutex with many threads: the invariant

    Any number of threads lock and unlock one mutex, in any interleaving of their
    atomic steps, with spurious failures of weak compare-exchanges and arbitrary
    clock readings.  The invariant relates the byte of the mutex and the queue of
    its bucket to the phases of the threads; it is the table in the comment on
    [RawMutex::state] made precise.  One lemma per atomic step of the protocol
    shows that the step preserves it; [RawMutexConc] composes them. *)

From S2P Require Import Prelude Machine Conc Timing Resources Parking RawMutex SmallMutex.

(** ** The system: one mutex with its data, its bucket, the threads' resources

    The data is a counter.  [inside] lists the threads between their calls of
    [lock] and of the [drop] of the guard, and [log] those that left their
    critical section, latest first; the code does not read them. *)
Record sys : Type := MkSys {
  word : Z;
  buck : bucket;
  held : gmap nat (list Z);
  count : nat;
  inside : list nat;
  log : list nat;
}.

Definition sys_word : lens sys Z :=
  Lens word (fun x s => MkSys x (buck s) (held s) (count s) (inside s) (log s)).
Definition sys_buck : lens sys bucket :=
  Lens buck (fun x s => MkSys (word s) x (held s) (count s) (inside s) (log s)).
Definition sys_held : lens sys (gmap nat (list Z)) :=
  Lens held (fun x s => MkSys (word s) (buck s) x (count s) (inside s) (log s)).
Definition sys_count : lens sys nat :=
  Lens count (fun x s => MkSys (word s) (buck s) (held s) x (inside s) (log s)).

#[export] Instance sys_word_laws : LensLaws sys_word.
Proof. split; [done|by intros []|done]. Qed.
#[export] Instance sys_buck_laws : LensLaws sys_buck.
Proof. split; [done|by intros []|done]. Qed.
#[export] Instance sys_lot : ParkingLot sys := bucket_lot sys_buck.

(** A new mutex, in an empty bucket with the timeout [f]. *)
Definition sys_start (f : FairTimeout.FairTimeout) : sys :=
  MkSys INIT (MkBucket None [] ∅ f) ∅ 0 [] [].

(** The same at time 0, with seed 1. *)
Definition sys_init : sys := sys_start (FairTimeout.new 0 1).

Definition enter (me : nat) (s : sys) : sys :=
  MkSys (word s) (buck s) (held s) (count s) (me :: inside s) (log s).
Definition leave (me : nat) (s : sys) : sys :=
  MkSys (word s) (buck s) (held s) (count s) (filter (fun t => t <> me) (inside s)) (me :: log s).

(** Threads that use a mutex on a counter, in any state with a parking lot. *)
Section Client.
Context {St : Type} `{ParkingLot St} (W : lens St Z) (R : lens St (gmap nat (list Z)))
  (D : lens St nat) (enter leave : nat -> St -> St) (addr : Z).
#[local] Instance client_mutex : Mutexable St Z := RawMutex_mutexable W R addr.

(** [{ let mut g = m.lock(); *g += 1; }], [n] times. *)
Fixpoint counter_client (me n : nat) : prog St () :=
  match n with
  | O => Ret ()
  | S n =>
      let! g := small_lock me in
      store (enter me) ;;
      let! v := guard_deref D g in
      guard_write D g (S v) ;;
      store (leave me) ;;
      guard_drop me g ;;
      counter_client me n
  end.
End Client.

Definition client (addr : Z) : nat -> nat -> prog sys () :=
  counter_client sys_word sys_held sys_count enter leave addr.

(** ** Phases *)

Inductive phase : Type :=
| Out                                   (** neither holds nor wants the mutex *)
| Slow                                  (** in [lock_slow], running *)
| Held                                  (** holds the mutex *)
| InCS                                  (** holds it, in the critical section *)
| InRead (v : nat)                      (** in it, has read the counter *)
| InWritten                             (** in it, has written the counter *)
| PBuck                                 (** parking: holds the bucket lock *)
| PVal                                  (** parking: validated *)
| PEnq                                  (** parking: in the queue, bucket lock held *)
| Parked                                (** asleep *)
| WokenN                                (** woken, has to compete for the mutex *)
| WokenH                                (** woken, was handed the mutex *)
| UBuck                                 (** unlocking: holds the bucket lock *)
| ULook (w : list nat)                  (** unlocking: has read the queue [w] *)
| UDeq (t : nat) (rest : list nat)      (** unlocking: has taken [t] off the queue *)
| UNorm (t : nat)                       (** unlocked, [t] still to be woken *)
| UDone.                                (** unlocked, bucket lock still held *)

#[export] Instance phase_eq_dec : EqDecision phase.
Proof. solve_decision. Defined.

(** The thread that owns the mutex. *)
Definition owner (c : phase) : bool :=
  match c with Held | InCS | InRead _ | InWritten | UBuck | ULook _ | UDeq _ _ | WokenH => true | _ => false end.
(** The thread in its critical section. *)
Definition incs (c : phase) : bool :=
  match c with InCS | InRead _ | InWritten => true | _ => false end.
(** Increments made in a critical section that has not ended. *)
Definition unlogged (c : phase) : nat := match c with InWritten => 1 | _ => 0 end.
(** The thread that holds the bucket lock. *)
Definition inb (c : phase) : bool :=
  match c with
  | PBuck | PVal | PEnq | UBuck | ULook _ | UDeq _ _ | UNorm _ | UDone => true
  | _ => false
  end.
(** A thread that will look at the mutex again. *)
Definition resp (c : phase) : bool :=
  match c with Slow | PBuck | WokenN | UNorm _ => true | _ => false end.
(** The thread a running [unpark_one] is about to wake. *)
Definition pending (c : phase) : option nat :=
  match c with UDeq t _ | UNorm t => Some t | _ => None end.

(** What other threads do to a thread: wake it. *)
Definition mv (c c' : phase) : Prop := c = c' \/ c = Parked /\ (c' = WokenN \/ c' = WokenH).

#[export] Instance mv_preorder : PreOrder mv.
Proof. split; [by left|]. unfold mv. intros ???. naive_solver. Qed.

(** The byte with its two bits. *)
Definition bits (l p : bool) : Z := (if l then 1 else 0) + (if p then 2 else 0).

Section Proof.
Context (addr : Z).

(** What the invariant says about thread [t] in phase [c]: [own] is the owner
    of the mutex, [p] the parked bit, [ws] the queue and [pend] the thread that
    a running [unpark_one] has taken off the queue and not yet woken. *)
Record thread_ok (s : sys) (own : option nat) (p : bool) (ws : list nat) (pend : option nat)
    (t : nat) (c : phase) : Prop := {
  k_owner : owner c = true <-> own = Some t;
  k_buck : inb c = true <-> locked_by (buck s) = Some t;
  k_wait : t ∈ ws -> c = Parked \/ c = PEnq;
  k_enq : c = PEnq -> t ∈ ws;
  k_parked : c = Parked -> t ∈ ws \/ pend = Some t;
  k_pending : inb c = true -> pending c = pend;
  k_pend : pend = Some t -> c = Parked /\ t ∉ ws;
  k_val : c = PVal -> own <> None /\ p = true;
  k_look w : c = ULook w -> ws = w;
  k_deq u w : c = UDeq u w -> ws = w;
  k_asleep : c = Parked \/ c = PEnq -> woken (buck s) !! t = None;
  k_wn : c = WokenN -> woken (buck s) !! t = Some TOKEN_NORMAL;
  k_wh : c = WokenH -> woken (buck s) !! t = Some TOKEN_HANDOFF;
  k_in : t ∈ inside s <-> incs c = true;
  k_read v : c = InRead v -> count s = v;
  k_free : own = None -> count s = length (log s);
  k_count : owner c = true ->
    count s = (unlogged c + length (log s))%nat;
}.

Record invariant (s : sys) (g : nat -> phase) (own : option nat) (p : bool) (ws : list nat)
    (pend : option nat) : Prop := {
  i_word : word s = bits (is_some own) p;
  i_queue : queue (buck s) = (fun t => (t, addr)) <$> ws;
  i_nodup : NoDup ws;
  i_bit : ws <> [] -> p = true;
  i_idle : own = None -> p = true -> ws <> [];
  i_resp : ws <> [] -> own = None -> exists t, resp (g t) = true;
  i_inside : NoDup (inside s);
  i_nopend : locked_by (buck s) = None -> pend = None;
  i_thread t : thread_ok s own p ws pend t (g t);
}.

Definition Inv (s : sys) (g : nat -> phase) : Prop :=
  exists own p ws pend, invariant s g own p ws pend.

(** A thread may wait for the bucket lock, which it does not hold itself, or
    be asleep. *)
Definition wait (s : sys) (g : nat -> phase) (t : nat) : Prop :=
  (inb (g t) = false /\ locked_by (buck s) <> None) \/ g t = Parked.

(** *** Steps of the protocol *)

(** What a step of another thread leaves unchanged for thread [u]. *)
Record frame (s s' : sys) (own own' : option nat) (p p' : bool) (ws ws' : list nat)
    (pend pend' : option nat) (u : nat) : Prop := {
  f_own : own' = Some u <-> own = Some u;
  f_buck : locked_by (buck s') = Some u <-> locked_by (buck s) = Some u;
  f_ws : u ∈ ws' <-> u ∈ ws;
  f_pend : pend' = Some u <-> pend = Some u;
  f_woken : woken (buck s') !! u = woken (buck s) !! u;
  f_in : u ∈ inside s' <-> u ∈ inside s;
  f_inb : locked_by (buck s) = Some u -> ws' = ws /\ pend' = pend;
  f_free : own' = None -> count s' = length (log s');
  f_count : own = Some u -> count s' = count s /\ log s' = log s;
  f_val : locked_by (buck s) = Some u -> own <> None -> p = true -> own' <> None /\ p' = true;
}.

Lemma thread_ok_frame s s' own own' p p' ws ws' pend pend' u c :
  thread_ok s own p ws pend u c -> frame s s' own own' p p' ws ws' pend pend' u ->
  thread_ok s' own' p' ws' pend' u c.
Proof.
  intros [] []. split.
  - by rewrite f_own0.
  - by rewrite f_buck0.
  - by rewrite f_ws0.
  - by rewrite f_ws0.
  - by rewrite f_ws0, f_pend0.
  - intros Hc. destruct f_inb0 as [_ ->]; [by apply k_buck0|auto].
  - by rewrite f_ws0, f_pend0.
  - intros Hc. destruct (k_val0 Hc). apply f_val0; [|done..]. apply k_buck0. by subst c.
  - intros w Hc. destruct f_inb0 as [-> _]; [apply k_buck0; by subst c|auto].
  - intros u' w Hc. destruct f_inb0 as [-> _]; [apply k_buck0; by subst c|eauto].
  - by rewrite f_woken0.
  - by rewrite f_woken0.
  - by rewrite f_woken0.
  - by rewrite f_in0.
  - intros v Hc. destruct f_count0 as [-> _]; [apply k_owner0; by subst c|auto].
  - done.
  - intros Hc. destruct f_count0 as [-> ->]; [by apply k_owner0|auto].
Qed.

Lemma resp_upd (g : nat -> phase) t c :
  (exists u, resp (g u) = true) -> (resp (g t) = true -> resp c = true) ->
  exists u, resp (<[t := c]> g u) = true.
Proof.
  intros [u Hu] Hc. destruct (decide (t = u)) as [<-|Hne].
  - exists t. rewrite fn_lookup_insert. auto.
  - exists u. by rewrite fn_lookup_insert_ne.
Qed.

Lemma resp_here (g : nat -> phase) t c : resp c = true -> exists u, resp (<[t := c]> g u) = true.
Proof. exists t. by rewrite fn_lookup_insert. Qed.

Lemma inv_step s s' g own own' p p' ws ws' pend pend' t c :
  invariant s g own p ws pend ->
  word s' = bits (is_some own') p' ->
  queue (buck s') = (fun t => (t, addr)) <$> ws' ->
  NoDup ws' -> (ws' <> [] -> p' = true) -> (own' = None -> p' = true -> ws' <> []) ->
  (ws' <> [] -> own' = None -> exists u, resp (<[t := c]> g u) = true) ->
  NoDup (inside s') -> (locked_by (buck s') = None -> pend' = None) ->
  thread_ok s' own' p' ws' pend' t c ->
  (forall u, u <> t -> frame s s' own own' p p' ws ws' pend pend' u) ->
  invariant s' (<[t := c]> g) own' p' ws' pend'.
Proof.
  intros H Hw Hq Hnd Hb Hid Hr Hni Hnp Ht Hf. split; try done.
  intros u. destruct (decide (t = u)) as [<-|Hne].
  - by rewrite fn_lookup_insert.
  - rewrite fn_lookup_insert_ne by done. eapply thread_ok_frame; [apply H|auto].
Qed.

(** The same for a step that also concerns a second thread [u]. *)
Lemma inv_step2 s s' g own own' p p' ws ws' pend pend' t c u d :
  invariant s g own p ws pend -> t <> u ->
  word s' = bits (is_some own') p' ->
  queue (buck s') = (fun t => (t, addr)) <$> ws' ->
  NoDup ws' -> (ws' <> [] -> p' = true) -> (own' = None -> p' = true -> ws' <> []) ->
  (ws' <> [] -> own' = None -> exists v, resp (<[u := d]> (<[t := c]> g) v) = true) ->
  NoDup (inside s') -> (locked_by (buck s') = None -> pend' = None) ->
  thread_ok s' own' p' ws' pend' t c -> thread_ok s' own' p' ws' pend' u d ->
  (forall v, v <> t -> v <> u -> frame s s' own own' p p' ws ws' pend pend' v) ->
  invariant s' (<[u := d]> (<[t := c]> g)) own' p' ws' pend'.
Proof.
  intros H Hne Hw Hq Hnd Hb Hid Hr Hni Hnp Ht Hu Hf. split; try done.
  intros v. destruct (decide (u = v)) as [<-|]; [by rewrite fn_lookup_insert|].
  rewrite fn_lookup_insert_ne by done.
  destruct (decide (t = v)) as [<-|]; [by rewrite fn_lookup_insert|].
  rewrite fn_lookup_insert_ne by done. eapply thread_ok_frame; [apply H|auto].
Qed.

(** [step_solve H Ht] proves that a step of [t], whose phase is given by [Ht],
    preserves the invariant [H]. *)
Ltac fin_rewrite :=
  rewrite ?fmap_app, ?elem_of_app, ?list_elem_of_singleton, ?lookup_delete_eq,
    ?lookup_insert_eq, ?lookup_delete_ne, ?lookup_insert_ne in * by congruence.
Ltac fin :=
  try done; try congruence; try (intuition congruence);
  try (fin_rewrite; intuition congruence).
Ltac step_side H :=
  match goal with
  | |- thread_ok _ _ _ _ _ _ _ => split; simpl in *; intros; simplify_eq/=; fin
  | |- forall u, u <> _ -> frame _ _ _ _ _ _ _ _ _ _ u =>
      intros ? ?; split; simpl in *; intros; simplify_eq/=; fin
  | |- forall u, u <> _ -> u <> _ -> frame _ _ _ _ _ _ _ _ _ _ u =>
      intros ? ? ?; split; simpl in *; intros; simplify_eq/=; fin
  | |- _ => destruct H as [? ? ? ? ? ? ? ? _]; simpl in *; fin
  end.
Ltac step_solve H Ht :=
  let Hself := fresh "Hself" in
  pose proof (i_thread _ _ _ _ _ _ H) as Hself;
  match type of Ht with ?g ?t = _ => specialize (Hself t); rewrite Ht in Hself end;
  destruct Hself;
  eapply inv_step; [exact H|..];
  try (intros _ _; by apply resp_here);
  try (intros ? ?; apply resp_upd; [by apply (i_resp _ _ _ _ _ _ H)|by rewrite Ht]);
  step_side H.

(** Taking the mutex when its locked bit is clear. *)
Lemma inv_acquire s g t p ws pend :
  invariant s g None p ws pend -> g t = Out \/ g t = Slow ->
  invariant (lput sys_word (bits true p) s) (<[t := Held]> g) (Some t) p ws pend.
Proof.
  intros H [Ht|Ht].
  - step_solve H Ht.
  - step_solve H Ht.
Qed.

(** Entering [lock_slow]. *)
Lemma inv_slow s g own p ws pend t :
  invariant s g own p ws pend -> g t = Out ->
  invariant s (<[t := Slow]> g) own p ws pend.
Proof. intros H Ht. step_solve H Ht. Qed.

(** Setting the parked bit of a locked mutex. *)
Lemma inv_mark s g o p ws pend t :
  invariant s g (Some o) p ws pend -> g t = Slow ->
  invariant (lput sys_word (bits true true) s) (<[t := Slow]> g) (Some o) true ws pend.
Proof. intros H Ht. step_solve H Ht. Qed.

(** The fast path of [unlock]. *)
Lemma inv_release s g ws pend t :
  invariant s g (Some t) false ws pend -> g t = Held ->
  invariant (lput sys_word (bits false false) s) (<[t := Out]> g) None false ws pend.
Proof. intros H Ht. step_solve H Ht. Qed.

(** Locking the bucket, to park or to unpark. *)
Lemma inv_lock_bucket s g own p ws pend t c c' :
  invariant s g own p ws pend -> locked_by (buck s) = None ->
  g t = c -> c = Slow /\ c' = PBuck \/ c = Held /\ c' = UBuck ->
  invariant (lput sys_buck (set_locked_by (Some t) (buck s)) s) (<[t := c']> g) own p ws pend.
Proof.
  intros H Hfree Ht Hc. pose proof (i_nopend _ _ _ _ _ _ H Hfree) as ->.
  destruct Hc as [[-> ->]|[-> ->]]; step_solve H Ht.
Qed.

(** [validate] saw both bits. *)
Lemma inv_validate s g o ws pend t :
  invariant s g (Some o) true ws pend -> g t = PBuck ->
  invariant s (<[t := PVal]> g) (Some o) true ws pend.
Proof. intros H Ht. step_solve H Ht. Qed.

Lemma inv_enqueue s g own p ws pend t :
  invariant s g own p ws pend -> g t = PVal ->
  invariant (lput sys_buck (set_woken (delete t (woken (buck s)))
               (set_queue (queue (buck s) ++ [(t, addr)]) (buck s))) s)
            (<[t := PEnq]> g) own p (ws ++ [t]) pend.
Proof.
  intros H Ht. step_solve H Ht.
  - by rewrite fmap_app, i_queue0.
  - apply NoDup_app. split_and!; [done| |apply NoDup_singleton]. set_solver.
Qed.

(** Unlocking the bucket. *)
Lemma inv_unlock_bucket s g own p ws pend t c c' :
  invariant s g own p ws pend -> g t = c ->
  c = PBuck /\ c' = Slow \/ c = PEnq /\ c' = Parked \/ c = UDone /\ c' = Out ->
  invariant (lput sys_buck (set_locked_by None (buck s)) s) (<[t := c']> g) own p ws pend.
Proof.
  intros H Ht [[-> ->]|[[-> ->]|[-> ->]]]; step_solve H Ht.
Qed.

(** [unpark_one] reads the queue. *)
Lemma inv_look s g own p ws pend t :
  invariant s g own p ws pend -> g t = UBuck ->
  invariant s (<[t := ULook ws]> g) own p ws pend.
Proof. intros H Ht. step_solve H Ht. Qed.

(** The thread at the head of the queue of an unlocking thread is asleep. *)
Lemma look_parked s g own p ws pend t u :
  invariant s g own p ws pend -> inb (g t) = true -> g t <> PEnq -> u ∈ ws ->
  u <> t /\ g u = Parked.
Proof.
  intros H Hb Ht Hu. destruct (i_thread _ _ _ _ _ _ H u).
  pose proof (proj1 (k_buck _ _ _ _ _ _ _ (i_thread _ _ _ _ _ _ H t)) Hb) as Hl.
  destruct (k_wait0 Hu) as [Hg|Hg].
  - split; [|done]. intros ->. by rewrite Hg in Hb.
  - rewrite Hg in k_buck0. pose proof (proj1 k_buck0 eq_refl). congruence.
Qed.

Lemma inv_dequeue s g own p ws pend t u rest :
  invariant s g own p ws pend -> g t = ULook (u :: rest) ->
  invariant (lput sys_buck (set_queue ((fun t => (t, addr)) <$> rest) (buck s)) s)
            (<[u := Parked]> (<[t := UDeq u rest]> g)) own p rest (Some u).
Proof.
  intros H Ht. pose proof (i_thread _ _ _ _ _ _ H t) as Hs. rewrite Ht in Hs.
  pose proof (k_look _ _ _ _ _ _ _ Hs _ eq_refl) as ->.
  destruct (look_parked _ _ _ _ _ _ t u H) as [Hne Hu]; [by rewrite Ht..|set_solver|].
  pose proof (i_thread _ _ _ _ _ _ H u) as Hs'. rewrite Hu in Hs'.
  pose proof (NoDup_cons_1_1 _ _ (i_nodup _ _ _ _ _ _ H)).
  pose proof (NoDup_cons_1_2 _ _ (i_nodup _ _ _ _ _ _ H)).
  destruct Hs, Hs'.
  eapply inv_step2; [exact H|done|..]; step_side H.
  - destruct k_wait0; [set_solver|done..].
  - set_solver.
Qed.

(** The callback of [unlock_slow]: hand the mutex over, with no other waiter. *)
Lemma inv_handoff s g own p pend t u :
  invariant s g own p [] pend -> g t = UDeq u [] ->
  invariant (lput sys_word (bits true false) s) (<[t := UDeq u []]> g) own false [] pend.
Proof. intros H Ht. step_solve H Ht. destruct k_owner0 as [Ho _]. by rewrite Ho. Qed.

(** The callback of [unlock_slow]: release the mutex. *)
Lemma inv_norm s g own p ws pend t u :
  invariant s g own p ws pend -> g t = UDeq u ws ->
  invariant (lput sys_word (bits false (bool_decide (ws <> []))) s) (<[t := UNorm u]> g)
    None (bool_decide (ws <> [])) ws pend.
Proof. intros H Ht. step_solve H Ht; by rewrite bool_decide_eq_true. Qed.

(** The callback of [unlock_slow] when no thread was found. *)
Lemma inv_none s g own p ws pend t :
  invariant s g own p ws pend -> g t = ULook [] ->
  invariant (lput sys_word (bits false false) s) (<[t := UDone]> g) None false ws pend.
Proof. intros H Ht. step_solve H Ht; by rewrite (k_look0 [] eq_refl). Qed.

(** A woken thread starts to run. *)
Lemma inv_awake s g own p ws pend t c c' :
  invariant s g own p ws pend -> g t = c ->
  c = WokenN /\ c' = Slow \/ c = WokenH /\ c' = Held ->
  invariant s (<[t := c']> g) own p ws pend.
Proof. intros H Ht [[-> ->]|[-> ->]]; step_solve H Ht. Qed.

(** Waking the thread taken off the queue, without or with the mutex. *)
Lemma inv_wake s g own p ws pend t u c tok d :
  invariant s g own p ws pend -> g t = c ->
  c = UNorm u /\ tok = TOKEN_NORMAL /\ d = WokenN \/
  c = UDeq u ws /\ tok = TOKEN_HANDOFF /\ d = WokenH ->
  exists own', g u = Parked /\ u <> t /\
  invariant (lput sys_buck (set_woken (<[u := tok]> (woken (buck s))) (buck s)) s)
            (<[u := d]> (<[t := UDone]> g)) own' p ws None.
Proof.
  intros H Ht Hc. pose proof (i_thread _ _ _ _ _ _ H t) as Hs. rewrite Ht in Hs.
  assert (pend = Some u) as -> by (symmetry; destruct Hc as [(-> & _)|(-> & _)]; by apply Hs).
  pose proof (i_thread _ _ _ _ _ _ H u) as Hs'.
  destruct (k_pend _ _ _ _ _ _ _ Hs' eq_refl) as [Hu Hws]. rewrite Hu in Hs'.
  assert (Hne : u <> t) by (intros ->; rewrite Hu in Ht; naive_solver).
  exists (if decide (d = WokenH) then Some u else own). split_and!; [done..|].
  destruct Hc as [(-> & -> & ->)|(-> & -> & ->)]; simpl; destruct Hs, Hs';
    (eapply inv_step2; [exact H|done|..]; step_side H).
  - intros _ _. by apply resp_here.
  - by rewrite (proj1 k_owner0 eq_refl) in i_word0.
Qed.

(** Steps that touch neither the mutex, nor the queue, nor the data. *)
Lemma inv_other s s' g own p ws pend :
  invariant s g own p ws pend -> word s' = word s -> inside s' = inside s ->
  locked_by (buck s') = locked_by (buck s) -> queue (buck s') = queue (buck s) ->
  woken (buck s') = woken (buck s) -> count s' = count s -> log s' = log s ->
  invariant s' g own p ws pend.
Proof.
  intros [] Hw Hi Hl Hq Hk Hc Hlog. split; rewrite ?Hw, ?Hi, ?Hl, ?Hq, ?Hk; try done.
  intros t. eapply thread_ok_frame; [apply i_thread0|].
  split; rewrite ?Hi, ?Hl, ?Hk, ?Hc, ?Hlog; try tauto.
  apply (k_free _ _ _ _ _ _ _ (i_thread0 t)).
Qed.

(** The critical section. *)
Lemma inv_enter s g own p ws pend t :
  invariant s g own p ws pend -> g t = Held ->
  invariant (enter t s) (<[t := InCS]> g) own p ws pend.
Proof.
  intros H Ht. step_solve H Ht.
  - constructor; [|done]. by rewrite k_in0.
  - split; [done|set_solver].
  - set_solver.
Qed.

Lemma inv_read s g own p ws pend t :
  invariant s g own p ws pend -> g t = InCS ->
  invariant s (<[t := InRead (count s)]> g) own p ws pend.
Proof. intros H Ht. step_solve H Ht. Qed.

Lemma inv_write s g own p ws pend t v :
  invariant s g own p ws pend -> g t = InRead v ->
  invariant (lput sys_count (S v) s) (<[t := InWritten]> g) own p ws pend.
Proof. intros H Ht. step_solve H Ht. by rewrite <- (k_read0 v), <- k_count0. Qed.

Lemma inv_leave s g own p ws pend t :
  invariant s g own p ws pend -> g t = InWritten ->
  invariant (leave t s) (<[t := Held]> g) own p ws pend.
Proof.
  intros H Ht. step_solve H Ht.
  - by apply NoDup_filter.
  - rewrite list_elem_of_filter. naive_solver.
  - rewrite list_elem_of_filter. naive_solver.
Qed.
End Proof.
