(* ===== verification/RawMutexConc.v ===== *)
(** * Mutual exclusion and freedom from deadlock of the raw mutex

    [lock] and [unlock] follow the protocol of [RawMutexInv] whatever the other
    threads do; by adequacy the invariant holds in every state that any schedule
    of any number of clients reaches. *)

From S2P Require Import Prelude Machine Conc Timing Resources Parking RawMutex SmallMutex RawMutexInv.

Section Operations.
Context (addr : Z).

(** ** The operations keep the invariant *)

Abbreviation cs := (csafe (Inv addr) mv wait).
Abbreviation to := (csafe_to (Inv addr) mv).

Ltac cs_bind := eapply (csafe_bind (Inv addr) mv).

Lemma mv_inv c c' : mv c c' -> c <> Parked -> c' = c.
Proof. intros [->|[-> _]]; done. Qed.

Lemma bits_word s g own p ws pend : invariant addr s g own p ws pend ->
  word s = bits (is_some own) p.
Proof. by intros []. Qed.

(** A step of [t] to the phase [c]. *)
Lemma to_phase {X} t g c s' own p ws pend (Q : phase -> X -> Prop) x :
  invariant addr s' (<[t := c]> g) own p ws pend -> (forall c', mv c c' -> Q c' x) -> to t g s' Q x.
Proof.
  intros H HQ. exists (<[t := c]> g). split_and!.
  - by do 4 eexists.
  - intros t' Hne. by rewrite fn_lookup_insert_ne.
  - rewrite fn_lookup_insert. done.
Qed.

(** A step that leaves all phases unchanged. *)
Lemma to_same {X} t g s' own p ws pend (Q : phase -> X -> Prop) x :
  invariant addr s' g own p ws pend -> (forall c', mv (g t) c' -> Q c' x) -> to t g s' Q x.
Proof. intros H HQ. exists g. split_and!; [by do 4 eexists|reflexivity|done]. Qed.

Ltac phase_eq :=
  repeat match goal with
  | H : mv ?c _ |- _ => apply mv_inv in H; [|done]
  end; subst.

Lemma resources_ok n t c f : c <> Parked ->
  cs n t c (with_resources sys_held t f) (fun c' _ => c' = c).
Proof.
  intros Hc. apply csafe_store. intros s g (own & p & ws & pend & H) Hg.
  apply mv_inv in Hg; [|done]. eapply to_same; [by eapply inv_other|].
  rewrite Hg. intros c' Hc'. by apply mv_inv in Hc'.
Qed.

Lemma lock_bucket_ok n t c c' : c = Slow /\ c' = PBuck \/ c = Held /\ c' = UBuck ->
  cs n t c (lock_bucket sys_buck t) (fun c1 _ => c1 = c').
Proof.
  intros Hc. apply csafe_act. intros s g (own & p & ws & pend & H) Hg.
  apply mv_inv in Hg; [|naive_solver]. simpl. destruct (locked_by (buck s)) eqn:Hl.
  - left. rewrite Hg, Hl. destruct Hc as [[-> _]|[-> _]]; done.
  - eapply to_phase; [by eapply inv_lock_bucket|]. intros c1 Hc1.
    apply mv_inv in Hc1; naive_solver.
Qed.

Lemma unlock_bucket_ok n t c c' :
  c = PBuck /\ c' = Slow \/ c = PEnq /\ c' = Parked \/ c = UDone /\ c' = Out ->
  cs n t c (unlock_bucket sys_buck) (fun c1 _ => mv c' c1).
Proof.
  intros Hc. apply csafe_store. intros s g (own & p & ws & pend & H) Hg.
  apply mv_inv in Hg; [|naive_solver].
  eapply to_phase; [by eapply inv_unlock_bucket|done].
Qed.

Lemma validate_ok n t :
  cs n t PBuck (validate sys_word) (fun c v => c = if v : bool then PVal else PBuck).
Proof.
  cs_bind; [apply csafe_load_ghost with
    (Q := fun c v => c = if v =? 3 then PVal else PBuck)|].
  - intros s g (own & p & ws & pend & H) Hg. phase_eq. simpl.
    pose proof (bits_word _ _ _ _ _ _ H) as Hw. rewrite Hw.
    destruct own as [o|], p; simpl.
    1: eapply to_phase; [by eapply inv_validate|]; intros; by phase_eq.
    all: (eapply to_same; [done|]; rewrite Hg; intros; by phase_eq).
  - intros m c v _ ->. apply csafe_ret. intros c' Hc'.
    change (Z.lor LOCKED_BIT PARKED_BIT) with 3. destruct (v =? 3); by phase_eq.
Qed.

Lemma enqueue_ok n t : cs n t PVal (enqueue sys_buck t addr) (fun c _ => c = PEnq).
Proof.
  apply csafe_store. intros s g (own & p & ws & pend & H) Hg. phase_eq.
  eapply to_phase; [by eapply inv_enqueue|]. intros; by phase_eq.
Qed.

(** A thread asleep gets the mutex, or competes for it. *)
Lemma sleep_ok n t c : mv Parked c ->
  cs n t c (sleep sys_buck t)
    (fun c' tok => c' = if tok =? TOKEN_HANDOFF then Held else Slow).
Proof.
  intros Hc. apply csafe_act. intros s g (own & p & ws & pend & H) Hg.
  assert (Hm : mv Parked (g t)) by by etransitivity.
  destruct (i_thread _ _ _ _ _ _ _ H t).
  destruct Hm as [Hm|[_ [Hm|Hm]]]; symmetry in Hm || idtac; simpl.
  - rewrite k_asleep by auto. by right.
  - rewrite k_wn by done. eapply to_phase; [eapply inv_awake; eauto|]. intros; by phase_eq.
  - rewrite k_wh by done. eapply to_phase; [eapply inv_awake; eauto|]. intros; by phase_eq.
Qed.

Lemma park_ok n t :
  cs n t Slow (park t addr (validate sys_word) (Ret ()) (time_out sys_word) DEFAULT_PARK_TOKEN None)
    (fun c r => match r with
                | Unparked tok => c = if tok =? TOKEN_HANDOFF then Held else Slow
                | Invalid => c = Slow
                | TimedOut => False
                end).
Proof.
  cs_bind; [apply lock_bucket_ok; by left|]. intros m1 ? [] _ ->.
  cs_bind; [apply validate_ok|]. intros m2 ? [] _ ->.
  - cs_bind; [apply enqueue_ok|]. intros m3 ? [] _ ->.
    cs_bind; [eapply unlock_bucket_ok; by right; left|]. intros m4 c [] _ Hc.
    cs_bind; [apply csafe_ret with (Q := fun c' _ => mv Parked c');
      intros; by etransitivity|]. intros m5 c' [] _ Hc'.
    cs_bind; [by apply sleep_ok|]. intros m6 ? tok _ ->.
    apply csafe_ret. destruct (tok =? TOKEN_HANDOFF); intros; by phase_eq.
  - cs_bind; [eapply unlock_bucket_ok; by left|]. intros m3 c [] _ Hc. phase_eq.
    apply csafe_ret. intros; by phase_eq.
Qed.

(** Reading the byte, in a phase that others do not change. *)
Lemma load_state_ok n t c : c <> Parked ->
  cs n t c (load_state sys_word) (fun c' _ => c' = c).
Proof.
  intros Hc. apply csafe_load; [apply _|]. intros s g c' _ Hg Hc'.
  apply mv_inv in Hg; [|done]. rewrite Hg in Hc'. by apply mv_inv in Hc'.
Qed.

(** Compare-exchanges that take the mutex and that set the parked bit. *)
Lemma cas_acquire_ok n t c state : c = Out \/ c = Slow -> Z.land state LOCKED_BIT = 0 ->
  cs n t c (cas_weak_state sys_word state (Z.lor state LOCKED_BIT))
    (fun c' r => c' = if is_ok r then Held else c).
Proof.
  intros Hc Hst. apply csafe_cas_weak; [apply _|..].
  - intros s g (own & p & ws & pend & H) Hg Hw. apply mv_inv in Hg; [|naive_solver].
    simpl in Hw. rewrite (bits_word _ _ _ _ _ _ H) in Hw. subst state.
    destruct own as [o|]; [by destruct p|].
    replace (Z.lor (bits (is_some (@None nat)) p) LOCKED_BIT) with (bits true p) by by destruct p.
    eapply to_phase; [eapply inv_acquire; [done|]; naive_solver|]. intros; by phase_eq.
  - intros s g c' _ Hg Hc'. destruct Hc as [->| ->]; phase_eq; rewrite Hg in Hc'; by phase_eq.
Qed.

Lemma cas_mark_ok n t state : Z.land state LOCKED_BIT <> 0 ->
  cs n t Slow (cas_weak_state sys_word state (Z.lor state PARKED_BIT)) (fun c' _ => c' = Slow).
Proof.
  intros Hst. apply csafe_cas_weak; [apply _|..].
  - intros s g (own & p & ws & pend & H) Hg Hw. simpl in Hw.
    rewrite (bits_word _ _ _ _ _ _ H) in Hw. phase_eq.
    destruct own as [o|]; [|by destruct p].
    replace (Z.lor _ PARKED_BIT) with (bits true true) by by destruct p.
    eapply to_phase; [by eapply inv_mark|]. intros; by phase_eq.
  - intros s g c' _ Hg Hc'. phase_eq. rewrite Hg in Hc'. by phase_eq.
Qed.

Lemma lock_slow_ok n t :
  cs n t Out (lock_slow sys_word addr t) (fun c r => c = Held /\ r = true).
Proof.
  cs_bind.
  { apply csafe_load_ghost with (Q := fun c _ => c = Slow).
    intros s g (own & p & ws & pend & H) Hg. phase_eq.
    eapply to_phase; [by eapply inv_slow|]. intros; by phase_eq. }
  intros m1 ? state _ ->. eapply (csafe_loop _ mv _ _ _ (fun c _ => c = Slow)); [done|].
  intros m2 ? [w st] _ ->. destruct (Z.eqb_spec (Z.land st LOCKED_BIT) 0) as [E|E].
  - cs_bind; [apply cas_acquire_ok; auto|]. intros m3 ? [x|x] _ ->; simpl.
    + apply csafe_ret. intros; phase_eq. apply csafe_ret. intros; by phase_eq.
    + apply csafe_ret. intros; by phase_eq.
  - assert (Hagain : forall m (w : SpinWait.SpinWait), cs m t Slow
      (let! state := load_state sys_word in Ret (@inl _ bool (w, state)))
      (fun c r => match r with inl _ => c = Slow | inr r => forall m', (m' <= m1)%nat ->
         cs m' t c (Ret r) (fun c r => c = Held /\ r = true) end)).
    { intros m w'. cs_bind; [by apply load_state_ok|]. intros ? ? x _ ->.
      apply csafe_ret. intros; by phase_eq. }
    destruct (if Z.land st PARKED_BIT =? 0 then _ else _) as [spun w'].
    destruct spun; [apply Hagain|]. cs_bind.
    { instantiate (1 := fun c _ => c = Slow). destruct (Z.land st PARKED_BIT =? 0).
      - by apply cas_mark_ok.
      - apply csafe_ret. intros; by phase_eq. }
    intros m3 ? [x|x] _ ->; [|apply csafe_ret; intros; by phase_eq].
    cs_bind; [apply park_ok|]. intros m4 c [tok| |] _; [intros ->|intros ->; apply Hagain|done].
    destruct (tok =? TOKEN_HANDOFF); [|apply Hagain].
    apply csafe_ret. intros; phase_eq. apply csafe_ret. intros; by phase_eq.
Qed.

Lemma raw_lock_ok n t : cs n t Out (raw_lock sys_word sys_held addr t) (fun c _ => c = Held).
Proof.
  cs_bind; [apply (cas_acquire_ok _ _ _ 0); auto|]. intros m1 c r _ ->.
  cs_bind; [instantiate (1 := fun c _ => c = Held)|].
  - destruct r; simpl; [apply csafe_ret; intros; by phase_eq|].
    cs_bind; [apply lock_slow_ok|]. intros m2 ? b _ [-> _]. apply csafe_ret. intros; by phase_eq.
  - intros m2 ? [] _ ->. by apply resources_ok.
Qed.

Lemma take_first_same (ws : list nat) :
  take_first addr ((fun t => (t, addr)) <$> ws) =
  match ws with [] => None | u :: rest => Some (u, (fun t => (t, addr)) <$> rest) end.
Proof. destruct ws; [done|]. simpl. by rewrite Z.eqb_refl. Qed.

Lemma waits_for_same (ws : list nat) :
  waits_for addr ((fun t => (t, addr)) <$> ws) = bool_decide (ws <> []).
Proof. destruct ws; [done|]. simpl. by rewrite Z.eqb_refl. Qed.

(** The phase tells the queue to a thread that unlocks. *)
Lemma deq_queue s g own p ws pend t u rest :
  invariant addr s g own p ws pend -> g t = UDeq u rest -> ws = rest.
Proof. intros H Ht. by apply (i_thread _ _ _ _ _ _ _ H t) with u. Qed.

Lemma callback_ok n t u rest fair :
  cs n t (UDeq u rest)
    (unlock_callback sys_word (MkUnparkResult 1 0 (bool_decide (rest <> [])) fair))
    (fun c tok => c = UDeq u rest /\ tok = TOKEN_HANDOFF \/ c = UNorm u /\ tok = TOKEN_NORMAL).
Proof.
  unfold unlock_callback. simpl. destruct fair.
  - cs_bind; [instantiate (1 := fun c _ => c = UDeq u rest)|
              intros m ? _ _ ->; apply csafe_ret; intros; phase_eq; by left].
    destruct rest as [|v rest]; simpl; [|apply csafe_ret; intros; by phase_eq].
    apply csafe_store. intros s g (own & p & ws & pend & H) Hg. phase_eq.
    pose proof (deq_queue _ _ _ _ _ _ _ _ _ H Hg) as ->.
    eapply to_phase; [by eapply inv_handoff|]. intros; by phase_eq.
  - cs_bind; [instantiate (1 := fun c _ => c = UNorm u)|
              intros m ? _ _ ->; apply csafe_ret; intros; phase_eq; by right].
    assert (Hst : forall z, z = bits false (bool_decide (rest <> [])) ->
      cs n t (UDeq u rest) (store_state sys_word z) (fun c _ => c = UNorm u)).
    { intros z ->. apply csafe_store. intros s g (own & p & ws & pend & H) Hg. phase_eq.
      pose proof (deq_queue _ _ _ _ _ _ _ _ _ H Hg) as ->.
      eapply to_phase; [by eapply inv_norm|]. intros; by phase_eq. }
    case_bool_decide; by apply Hst.
Qed.

Lemma wake_ok n t u c tok rest :
  c = UDeq u rest /\ tok = TOKEN_HANDOFF \/ c = UNorm u /\ tok = TOKEN_NORMAL ->
  cs n t c (modify sys_buck (fun b => set_woken (<[u := tok]> (woken b)) b))
    (fun c' _ => c' = UDone).
Proof.
  intros Hc. apply csafe_store. intros s g (own & p & ws & pend & H) Hg.
  apply mv_inv in Hg; [|naive_solver].
  destruct (inv_wake addr s g own p ws pend t u c tok
    (if tok =? TOKEN_HANDOFF then WokenH else WokenN) H Hg) as (own' & Hu & Hne & H').
  { destruct Hc as [[-> ->]|[-> ->]]; [right|by left].
    pose proof (deq_queue _ _ _ _ _ _ _ _ _ H Hg) as ->. done. }
  eexists. split_and!; [by do 4 eexists|..].
  - intros v Hv. destruct (decide (u = v)) as [<-|].
    + rewrite fn_lookup_insert, Hu. right. destruct (tok =? TOKEN_HANDOFF); auto.
    + by rewrite !fn_lookup_insert_ne.
  - rewrite fn_lookup_insert_ne, fn_lookup_insert by done. intros; by phase_eq.
Qed.

Lemma unpark_one_ok n t :
  cs n t UBuck
    (let! q := load (fun s => queue (lget sys_buck s)) in
     match take_first addr q with
     | Some (u, rest) =>
         modify sys_buck (set_queue rest) ;;
         let! now := instant_now in
         let! fair := act (fun s =>
           let '(r, f) := FairTimeout.should_timeout now (fair_timeout (lget sys_buck s)) in
           Ok (r, lput sys_buck (set_fair f (lget sys_buck s)) s)) in
         let result := MkUnparkResult 1 0 (waits_for addr rest) fair in
         let! token := unlock_callback sys_word result in
         modify sys_buck (fun b => set_woken (<[u := token]> (woken b)) b) ;;
         unlock_bucket sys_buck ;;
         Ret result
     | None =>
         unlock_callback sys_word UnparkResult_default ;;
         unlock_bucket sys_buck ;;
         Ret UnparkResult_default
     end) (fun c _ => c = Out).
Proof.
  cs_bind.
  { apply csafe_load_ghost with
      (Q := fun c q => exists ws, c = ULook ws /\ q = (fun t => (t, addr)) <$> ws).
    intros s g (own & p & ws & pend & H) Hg. phase_eq.
    eapply to_phase; [by eapply inv_look|]. intros; phase_eq. exists ws. split; [done|]. apply H. }
  intros m1 ? q _ (ws & -> & ->). rewrite take_first_same. destruct ws as [|u rest].
  - cs_bind.
    { apply (csafe_bind _ mv) with (P := fun c _ => c = UDone).
      - apply csafe_store. intros s g (own & p & ws & pend & H) Hg. phase_eq.
        eapply to_phase; [by eapply inv_none|]. intros; by phase_eq.
      - intros m2 ? _ _ ->. apply csafe_ret with (Q := fun c _ => c = UDone). intros; by phase_eq. }
    intros m2 ? _ _ ->. cs_bind; [eapply unlock_bucket_ok; by right; right|].
    intros m3 ? [] _ Hc. phase_eq. apply csafe_ret. intros; by phase_eq.
  - cs_bind.
    { apply csafe_store with (Q := fun c _ => c = UDeq u rest).
      intros s g (own & p & ws & pend & H) Hg. phase_eq.
      assert (Hp : u <> t /\ g u = Parked).
      { eapply look_parked; [done|by rewrite Hg..|].
        rewrite (k_look _ _ _ _ _ _ _ (i_thread _ _ _ _ _ _ _ H t) _ Hg). set_solver. }
      eexists. split_and!; [do 4 eexists; by eapply inv_dequeue|..].
      - intros v Hv. destruct (decide (u = v)) as [<-|].
        + rewrite fn_lookup_insert. by destruct Hp as [_ ->].
        + by rewrite !fn_lookup_insert_ne.
      - rewrite fn_lookup_insert_ne, fn_lookup_insert by apply Hp. intros; by phase_eq. }
    intros m2 ? _ _ ->. cs_bind.
    { apply csafe_now with (Q := fun c _ => c = UDeq u rest). intros; by phase_eq. }
    intros m3 ? now _ ->. cs_bind.
    { apply csafe_act with (Q := fun c _ => c = UDeq u rest).
      intros s g (own & p & ws & pend & H) Hg. phase_eq.
      destruct (FairTimeout.should_timeout _ _). eapply to_same; [by eapply inv_other|].
      rewrite Hg. intros; by phase_eq. }
    intros m4 ? fair _ ->. rewrite waits_for_same. cs_bind; [apply callback_ok|].
    intros m5 ? tok _ Htok. cs_bind; [eapply wake_ok; exact Htok|]. intros m6 ? _ _ ->.
    cs_bind; [eapply unlock_bucket_ok; by right; right|].
    intros m7 ? [] _ Hc. phase_eq. apply csafe_ret. intros; by phase_eq.
Qed.

Lemma raw_unlock_ok n t : cs n t Held (raw_unlock sys_word sys_held addr t) (fun c _ => c = Out).
Proof.
  cs_bind; [by apply resources_ok|]. intros m1 ? _ _ ->. cs_bind.
  { apply csafe_cas with (Q := fun c r => c = if is_ok r then Out else Held); [apply _|..].
    - intros s g (own & p & ws & pend & H) Hg Hw. phase_eq.
      pose proof (proj1 (k_owner _ _ _ _ _ _ _ (i_thread _ _ _ _ _ _ _ H t))) as Ho.
      rewrite Hg in Ho. assert (own = Some t) as -> by by apply Ho.
      simpl in Hw. rewrite (bits_word _ _ _ _ _ _ H) in Hw. destruct p; [done|].
      eapply to_phase; [by eapply inv_release|]. intros; by phase_eq.
    - intros s g c' _ Hg Hc' _. phase_eq. rewrite Hg in Hc'. by phase_eq. }
  intros m2 ? r _ ->. destruct (is_ok r); [apply csafe_ret; intros; by phase_eq|].
  apply (csafe_bind _ mv) with (P := fun c _ => c = Out);
    [cs_bind|intros m3 ? _ _ ->; apply csafe_ret; intros; by phase_eq].
  - apply lock_bucket_ok. by right.
  - intros m3 ? _ _ ->. apply unpark_one_ok.
Qed.

Lemma client_ok n t k : cs n t Out (client addr t k) (fun c _ => c = Out).
Proof.
  unfold client. revert n. induction k as [|k IH]; intros n; simpl; [apply csafe_ret; intros; by phase_eq|].
  cs_bind.
  { cs_bind; [apply raw_lock_ok|]. intros m1 ? _ _ ->.
    apply csafe_ret with (Q := fun c _ => c = Held). intros; by phase_eq. }
  intros m1 ? [] _ ->. cs_bind.
  { apply csafe_store with (Q := fun c _ => c = InCS).
    intros s g (own & p & ws & pend & H) Hg. phase_eq.
    eapply to_phase; [by eapply inv_enter|]. intros; by phase_eq. }
  intros m2 ? _ _ ->. cs_bind.
  { apply csafe_load_ghost with (Q := fun c v => c = InRead v).
    intros s g (own & p & ws & pend & H) Hg. phase_eq.
    eapply to_phase; [by eapply inv_read|]. intros; by phase_eq. }
  intros m3 ? v _ ->. cs_bind.
  { apply csafe_store with (Q := fun c _ => c = InWritten).
    intros s g (own & p & ws & pend & H) Hg. phase_eq.
    eapply to_phase; [by eapply inv_write|]. intros; by phase_eq. }
  intros m4 ? _ _ ->. cs_bind.
  { apply csafe_store with (Q := fun c _ => c = Held).
    intros s g (own & p & ws & pend & H) Hg. phase_eq.
    eapply to_phase; [by eapply inv_leave|]. intros; by phase_eq. }
  intros m5 ? _ _ ->. cs_bind; [apply raw_unlock_ok|]. intros m6 ? _ _ ->. apply IH.
Qed.

(** ** All threads together *)

(** Thread [t] of the pool enters its critical section [ns !! t] times. *)
Definition clients (ns : list nat) : list (prog sys ()) := imap (client addr) ns.

Lemma inv_init f : Inv addr (sys_start f) (fun _ => Out).
Proof.
  exists None, false, [], None. split; simpl; try done; [constructor..|].
  intros t. split; simpl; try done; intros; set_solver.
Qed.

Lemma clients_safe ns :
  pool_safe (Inv addr) mv wait (clients ns) (fun _ => Out) (fun _ c _ => c = Out).
Proof.
  intros t p Hp n. unfold clients in Hp. rewrite list_lookup_imap in Hp.
  destruct (ns !! t) as [k|]; simplify_eq/=. apply client_ok.
Qed.

(** Every state the clients reach satisfies the invariant; threads that have
    finished, and threads outside the pool, are out of the protocol. *)
Lemma clients_reach f ns evs :
  match sched evs (clients ns) (sys_start f) with
  | POk ts s => exists g, Inv addr s g /\
      (forall t, ts !! t = None \/ ts !! t = Some (Ret ()) -> g t = Out) /\
      (forall t p e, ts !! t = Some p -> step e p s = Some Block -> wait s g t)
  | PFail _ _ _ => False
  | PBad => True
  end.
Proof.
  pose proof (pool_adequate _ _ _ evs _ _ _ _ (inv_init f) (clients_safe ns)) as H.
  destruct (sched _ _ _) as [ts s| |]; [|done|done].
  destruct H as (g & Hi & Hret & Hout & Hw). exists g. split_and!; [done| |done].
  intros t [Ht|Ht]; [|by eapply Hret]. by apply mv_inv; [apply Hout|].
Qed.

Lemma at_most_one s g : Inv addr s g -> (length (inside s) <= 1)%nat.
Proof.
  intros (own & p & ws & pend & []). destruct (inside s) as [|t [|u r]] eqn:E; simpl; [lia..|].
  assert (Ht : forall v, v ∈ inside s -> own = Some v).
  { intros v Hv. destruct (i_thread v). apply k_owner. apply k_in in Hv. by destruct (g v). }
  rewrite E in Ht. pose proof (Ht t). pose proof (Ht u). apply NoDup_cons in i_inside as [Hn _].
  exfalso. apply Hn. assert (t = u) as ->; set_solver.
Qed.

(** Outside the critical sections, the counter has every increment. *)
Lemma all_counted s g : Inv addr s g -> inside s = [] -> count s = length (log s).
Proof.
  intros (own & p & ws & pend & []) Hin. destruct own as [t|]; 
    [|by apply (k_free _ _ _ _ _ _ _ (i_thread 0%nat))].
  destruct (i_thread t). rewrite k_count by by apply k_owner.
  assert (incs (g t) <> true) as Hc by (rewrite <- k_in, Hin; set_solver).
  by destruct (g t).
Qed.

(** When every thread is finished or blocked, none is blocked. *)
Lemma no_deadlock s g (fin : nat -> Prop) :
  Inv addr s g -> (forall t, fin t -> g t = Out) -> (forall t, ~ fin t -> wait s g t) ->
  (forall t, Decision (fin t)) -> forall t, g t = Out.
Proof.
  intros (own & p & ws & pend & []) Hout Hwait Hdec.
  assert (Hcase : forall t, g t = Out \/ g t = Parked \/ inb (g t) = false /\ locked_by (buck s) <> None).
  { intros t. destruct (decide (fin t)); [left; auto|right]. destruct (Hwait t); auto. }
  assert (Hfree : locked_by (buck s) = None).
  { destruct (locked_by (buck s)) as [u|] eqn:E; [|done]. exfalso.
    pose proof (proj2 (k_buck _ _ _ _ _ _ _ (i_thread u)) E) as Hb.
    destruct (Hcase u) as [Hc|[Hc|[Hc _]]]; rewrite Hc in Hb; done. }
  assert (Hcase' : forall t, g t = Out \/ g t = Parked) by (intros t; destruct (Hcase t); tauto).
  intros t. destruct (Hcase' t) as [|Ht]; [done|exfalso].
  destruct (k_parked _ _ _ _ _ _ _ (i_thread t) Ht) as [Hws|Hp];
    [|by rewrite i_nopend in Hp].
  destruct own as [u|].
  - pose proof (proj2 (k_owner _ _ _ _ _ _ _ (i_thread u)) eq_refl) as Ho.
    destruct (Hcase' u) as [Hc|Hc]; by rewrite Hc in Ho.
  - destruct i_resp as [u Hu]; [intros ->; set_solver|done|].
    destruct (Hcase' u) as [Hc|Hc]; by rewrite Hc in Hu.
Qed.

(** When no thread is in the protocol, the mutex is in its initial state. *)
Lemma quiescent s g : Inv addr s g -> (forall t, g t = Out) ->
  word s = INIT /\ queue (buck s) = [] /\ locked_by (buck s) = None /\ inside s = [].
Proof.
  intros (own & p & ws & pend & []) Hg.
  assert (Hall : forall t, own <> Some t /\ locked_by (buck s) <> Some t /\ (t ∉ ws) /\ (t ∉ inside s)).
  { intros t. destruct (i_thread t). rewrite (Hg t) in *. naive_solver. }
  assert (own = None) as -> by (destruct own as [u|]; [by destruct (Hall u)|done]).
  assert (ws = []) as -> by (destruct ws as [|u ws]; [done|destruct (Hall u); set_solver]).
  destruct p; [by destruct i_idle|]. split_and!; [done..| |].
  - destruct (locked_by (buck s)) as [u|]; [by destruct (Hall u) as (_ & [] & _)|done].
  - destruct (inside s) as [|u r]; [done|destruct (Hall u); set_solver].
Qed.
(** The table in the comment on [RawMutex::state]: the byte uses two bits, a thread
    in its critical section has the locked bit set and is not in the queue, whoever
    waits is announced by the parked bit, and an unlocked byte with the parked bit
    has a thread waiting. *)
Record state_table (s : sys) : Prop := {
  st_byte : 0 <= word s < 4;
  st_locked t : t ∈ inside s -> Z.land (word s) LOCKED_BIT <> 0 /\ t ∉ (queue (buck s)).*1;
  st_parked : queue (buck s) <> [] -> Z.land (word s) PARKED_BIT <> 0;
  st_waiting : word s = PARKED_BIT -> queue (buck s) <> [];
  st_queue : NoDup (queue (buck s)).*1 /\ Forall (fun e => e.2 = addr) (queue (buck s));
}.

Lemma inv_state_table s g : Inv addr s g -> state_table s.
Proof.
  intros (own & p & ws & pend & []).
  assert (E : ((fun t => (t, addr)) <$> ws).*1 = ws) by (rewrite <- list_fmap_compose; apply list_fmap_id).
  split; rewrite ?i_word, ?i_queue, ?E.
  - unfold bits. destruct own, p; simpl; lia.
  - intros t Ht. destruct (i_thread t). apply k_in in Ht.
    assert (own = Some t) as -> by (apply k_owner; by destruct (g t)).
    split; [by destruct p|]. intros Hw. destruct (k_wait Hw) as [Hc|Hc]; by rewrite Hc in Ht.
  - intros Hq. rewrite i_bit by (by intros ->). by destruct own.
  - unfold bits. destruct own, p; simpl; try done. intros _ Hq. by apply fmap_nil_inv, i_idle in Hq.
  - split; [done|]. apply Forall_fmap, Forall_true. done.
Qed.
End Operations.

(** C6. Mutual exclusion: however the atomic steps of the clients interleave, no
    fault occurs and at most one thread is in its critical section. *)
Theorem mutual_exclusion (addr : Z) (ns : list nat) (evs : list (nat * env)) :
  match sched evs (clients addr ns) sys_init with
  | POk _ s => (length (inside s) <= 1)%nat
  | PFail _ _ _ => False
  | PBad => True
  end.
Proof.
  pose proof (clients_reach addr (FairTimeout.new 0 1) ns evs) as H. destruct (sched _ _ _); [|done|done].
  destruct H as (g & Hi & _). by eapply at_most_one.
Qed.

(** C8. No lost update: in every reachable state with no thread in its critical
    section, the counter equals the number of critical sections executed, although
    each of them reads and writes it in two separate steps. *)
Theorem no_lost_update (addr : Z) (ns : list nat) (evs : list (nat * env)) :
  match sched evs (clients addr ns) sys_init with
  | POk _ s => inside s = [] -> count s = length (log s)
  | PFail _ _ _ => False
  | PBad => True
  end.
Proof.
  pose proof (clients_reach addr (FairTimeout.new 0 1) ns evs) as H. destruct (sched _ _ _); [|done|done].
  destruct H as (g & Hi & _). by eapply all_counted.
Qed.

(** C24. The state byte is well formed: the table that documents it holds in every state
    that threads reach which lock, use the data and unlock, however they interleave.  It
    does not hold once a thread calls [try_lock], which leaves the parked bit with nobody
    in the queue. *)
Theorem state_byte_documented (addr : Z) (ns : list nat) (evs : list (nat * env)) :
  match sched evs (clients addr ns) sys_init with
  | POk _ s => state_table addr s
  | PFail _ _ _ => False
  | PBad => True
  end.
Proof.
  pose proof (clients_reach addr (FairTimeout.new 0 1) ns evs) as H. destruct (sched _ _ _); [|done|done].
  destruct H as (g & Hi & _). by eapply inv_state_table.
Qed.

(** When every client has returned or waits, all have returned. *)
Lemma clients_finish addr f ns evs ts s :
  sched evs (clients addr ns) (sys_start f) = POk ts s ->
  (forall t p, ts !! t = Some p -> p = Ret () \/ step calm p s = Some Block) ->
  (forall t p, ts !! t = Some p -> p = Ret ()) /\
  word s = INIT /\ queue (buck s) = [] /\ locked_by (buck s) = None.
Proof.
  intros Hs Hb. pose proof (clients_reach addr f ns evs) as H. rewrite Hs in H.
  destruct H as (g & Hi & Hout & Hw).
  set (fin t := match ts !! t with Some (Ret _) | None => True | _ => False end).
  assert (Hg : forall t, g t = Out).
  { apply (no_deadlock addr s g fin); [done|..]; unfold fin.
    - intros t Ht. apply Hout. destruct (ts !! t) as [[[]| | |]|]; auto; done.
    - intros t Ht. destruct (ts !! t) as [p|] eqn:E; [|done].
      eapply Hw; [done|]. destruct (Hb t p E) as [->|]; [done|eauto].
    - intros t. destruct (ts !! t) as [[]|]; apply _. }
  split; [|by destruct (quiescent addr s g Hi Hg) as (? & ? & ? & ?)].
  intros t p Hp. destruct (Hb t p Hp) as [|Hbl]; [done|].
  destruct (Hw _ _ _ Hp Hbl) as [[_ Hl]|Hpk].
  - by destruct (quiescent addr s g Hi Hg) as (_ & _ & ? & _).
  - by rewrite Hg in Hpk.
Qed.

(** C7. No lost wakeup: a reachable state in which every thread has returned or is
    blocked is one in which every thread has returned; then the mutex and its
    bucket are as they were at the start. *)
Theorem deadlock_freedom (addr : Z) (ns : list nat) (evs : list (nat * env)) ts s :
  sched evs (clients addr ns) sys_init = POk ts s ->
  (forall t p, ts !! t = Some p -> p = Ret () \/ step calm p s = Some Block) ->
  (forall t p, ts !! t = Some p -> p = Ret ()) /\
  word s = INIT /\ queue (buck s) = [] /\ locked_by (buck s) = None.
Proof. apply clients_finish. Qed.

(** Two threads: the second finds the mutex locked, parks, is woken by the first
    and finishes. *)
Lemma deadlock_freedom_witness :
  exists s, sched (steps 0 3 ++ steps 1 30 ++ steps 0 14 ++ steps 1 12) (clients 16 [1; 1]%nat)
    sys_init = POk [Ret (); Ret ()] s /\ count s = 2%nat /\ word s = INIT.
Proof.
  eexists. split; [vm_compute; reflexivity|]. split; [reflexivity|].
  eapply (deadlock_freedom 16 [1; 1]%nat
    (steps 0 3 ++ steps 1 30 ++ steps 0 14 ++ steps 1 12) [Ret (); Ret ()]).
  - vm_compute. reflexivity.
  - intros [|[|t]] p Hp; [injection Hp as <-; by left|injection Hp as <-; by left|done].
Defined.
