(* ===== verification/Solo.v ===== *)
(** * Possible results, and safety without termination

    Two more judgements about a program that runs alone.  [evals p s a s']: [p] can
    return [a] in [s'].  [psafe n p s Q]: for [n] steps [p] does not go wrong, and if
    it returns, [Q] holds; it may wait for ever.  A concrete operation that waits
    refines an abstract one when, by [psafe], each of its results is one that the
    abstract one can have, by [evals]. *)

From S2P Require Import Prelude Machine.

Inductive evals {St A} : prog St A -> St -> A -> St -> Prop :=
| evals_ret a s : evals (Ret a) s a s
| evals_act X (f : St -> res (X * St)) k s x s' a s2 :
    f s = Ok (x, s') -> evals (k x) s' a s2 -> evals (Act f k) s a s2
| evals_ask k s e a s2 : evals (k e) s a s2 -> evals (Ask k) s a s2
| evals_loop I R (body : I -> prog St (I + R)) i k s a s2 :
    evals (unfold_loop body i k) s a s2 -> evals (Loop body i k) s a s2.

(** [evals] is possibility for [run]. *)
Theorem evals_run {St A} (p : prog St A) s a s' :
  evals p s a s' -> exists fuel es, run fuel es p s = Done a s'.
Proof.
  induction 1 as [a s|X f k s x s' a s2 Hf _ (fuel & es & IH)|k s e a s2 _ (fuel & es & IH)|
    I R body i k s a s2 _ (fuel & es & IH)].
  - by exists 0%nat, (fun _ => calm).
  - exists (S fuel), (fun i => match i with O => calm | S i => es i end). simpl. by rewrite Hf.
  - exists (S fuel), (fun i => match i with O => e | S i => es i end). done.
  - exists (S fuel), (fun i => match i with O => calm | S i => es i end). done.
Qed.

(** Steps of a run. *)
Lemma run_act {St A Y} n es (f : St -> res (Y * St)) (k : Y -> prog St A) s y s' o :
  f s = Ok (y, s') -> run n (fun i => es (S i)) (k y) s' = o -> run (S n) es (Act f k) s = o.
Proof. intros Hf Hr. simpl. by rewrite Hf. Qed.

Lemma run_loop {St A I R} n es (body : I -> prog St (I + R)) i (k : R -> prog St A) s o :
  run n (fun i => es (S i)) (unfold_loop body i k) s = o -> run (S n) es (Loop body i k) s = o.
Proof. done. Qed.

Lemma run_ask {St A} n es (k : env -> prog St A) s o :
  run n (fun i => es (S i)) (k (es 0%nat)) s = o -> run (S n) es (Ask k) s = o.
Proof. done. Qed.

Lemma run_block {St A Y} n es (f : St -> res (Y * St)) (k : Y -> prog St A) s :
  f s = Block -> run (S n) es (Act f k) s = Stuck s.
Proof. intros Hf. simpl. by rewrite Hf. Qed.

Lemma evals_peq {St A} (p q : prog St A) s a s' : peq p q -> evals p s a s' -> evals q s a s'.
Proof.
  intros Hq H. revert q Hq. induction H; intros q Hq; apply peq_inv in Hq;
    try destruct Hq as (k' & -> & Hk); subst.
  - constructor.
  - econstructor; eauto.
  - econstructor; eauto.
  - apply evals_loop. apply IHevals. apply bind_peq; [reflexivity|].
    intros [?|?]; [by constructor|auto].
Qed.

Lemma evals_bind {St A B} (p : prog St A) (g : A -> prog St B) s a s1 b s2 :
  evals p s a s1 -> evals (g a) s1 b s2 -> evals (bind p g) s b s2.
Proof.
  intros H Hg. induction H; simpl.
  - done.
  - econstructor; eauto.
  - econstructor; eauto.
  - apply evals_loop. eapply evals_peq; [apply unfold_loop_bind|]. auto.
Qed.

Lemma evals_act' {St X} (f : St -> res (X * St)) s x s' :
  f s = Ok (x, s') -> evals (act f) s x s'.
Proof. intros. econstructor; [done|constructor]. Qed.

Lemma evals_load {St X} (f : St -> X) s : evals (load f) s (f s) s.
Proof. by apply evals_act'. Qed.

Lemma evals_store {St} (f : St -> St) s : evals (store f) s () (f s).
Proof. by apply evals_act'. Qed.

Lemma evals_now {St} (t : Z) (s : St) : evals instant_now s t s.
Proof. apply evals_ask with (Env false t). constructor. Qed.

(** A loop that ends in its first pass. *)
Lemma evals_forever {St R} (p : prog St (option R)) s r s' :
  evals p s (Some r) s' -> evals (forever p) s r s'.
Proof.
  intros H. apply evals_loop. unfold unfold_loop. apply evals_bind with (inr r) s'; [|constructor].
  eapply evals_bind; [exact H|]. constructor.
Qed.

Lemma evals_lift {S St A} (L : lens S St) `{!LensLaws L} (p : prog St A) s a x :
  evals p (lget L s) a x -> evals (lift L p) s a (lput L x s).
Proof.
  intros H. remember (lget L s) as y eqn:Hy. revert s Hy.
  induction H as [a y|X f k y z y' a y2 Hf _ IH|k y e a y2 _ IH|I R body i k y a y2 _ IH];
    intros s ->; simpl.
  - rewrite lput_lget. constructor.
  - econstructor; [by rewrite Hf|]. specialize (IH (lput L y' s)).
    rewrite lget_lput, lput_lput in IH. by apply IH.
  - econstructor. by apply IH.
  - apply evals_loop. eapply evals_peq; [|by apply IH].
    unfold unfold_loop. rewrite lift_bind. apply bind_peq; [reflexivity|].
    intros [?|?]; reflexivity.
Qed.

(** What a program returns is one of its possible results. *)
Lemma twp_evals {St A} n (p : prog St A) s Q :
  twp n p s Q -> twp n p s (fun m a s' => Q m a s' /\ evals p s a s').
Proof.
  induction 1.
  - apply twp_ret. split; [done|constructor].
  - eapply twp_act; [done|]. eapply twp_mono; [done|]. intros m a s2 _ [HQ He].
    split; [done|]. by econstructor.
  - apply twp_ask. intros e He. eapply twp_mono; [by apply H0|]. intros m a s2 _ [HQ Hv].
    split; [done|]. by econstructor.
  - apply twp_loop. eapply twp_mono; [done|]. intros m a s2 _ [HQ Hv].
    split; [done|]. by apply evals_loop.
Qed.

(** ** Safety *)

Fixpoint psafe {St A} (n : nat) (p : prog St A) (s : St) (Q : A -> St -> Prop) : Prop :=
  match n with
  | O => True
  | S n =>
      match p with
      | Ret a => Q a s
      | Act f k => match f s with
                   | Ok (x, s') => psafe n (k x) s' Q
                   | Block => True
                   | Fail _ => False
                   end
      | Ask k => forall e, psafe n (k e) s Q
      | Loop body i k => psafe n (unfold_loop body i k) s Q
      end
  end.

(** The meaning of [psafe]: no run goes wrong, and what it returns satisfies [Q]. *)
Theorem psafe_run {St A} (p : prog St A) s Q :
  (forall n, psafe n p s Q) ->
  forall fuel es, match run fuel es p s with
                  | Done a s' => Q a s'
                  | Fault _ _ => False
                  | _ => True
                  end.
Proof.
  intros H fuel. revert p s H. induction fuel as [|fuel IH]; intros p s H es.
  - destruct p; simpl; try done. apply (H 1%nat).
  - destruct p as [a|X f k|k|I R body i k]; simpl.
    + apply (H 1%nat).
    + pose proof (H 1%nat) as H1. simpl in H1. destruct (f s) as [[x s']| |] eqn:E; [|done|done].
      apply IH. intros n. specialize (H (S n)). simpl in H. by rewrite E in H.
    + apply IH. intros n. apply (H (S n)).
    + apply IH. intros n. apply (H (S n)).
Qed.

Lemma psafe_mono {St A} n (p : prog St A) s (Q Q' : A -> St -> Prop) :
  psafe n p s Q -> (forall a s', Q a s' -> Q' a s') -> psafe n p s Q'.
Proof.
  intros H HQ. revert p s H. induction n as [|n IH]; [done|].
  intros [a|X f k|k|I R body i k] s; simpl; auto.
  destruct (f s) as [[x s']| |]; auto.
Qed.

Lemma psafe_peq {St A} n (p q : prog St A) s Q : peq p q -> psafe n p s Q -> psafe n q s Q.
Proof.
  revert p q s. induction n as [|n IH]; [done|].
  intros p q s Hq. apply peq_inv in Hq.
  destruct p as [a|X f k|k|I R body i k]; try destruct Hq as (k' & -> & Hk); subst; simpl.
  - done.
  - destruct (f s) as [[x s']| |]; eauto.
  - eauto.
  - intros H. eapply IH; [|exact H]. apply bind_peq; [reflexivity|].
    intros [?|?]; [by constructor|auto].
Qed.

Lemma psafe_bind {St A B} n (p : prog St A) (g : A -> prog St B) s P Q :
  psafe n p s P -> (forall m a s', (m <= n)%nat -> P a s' -> psafe m (g a) s' Q) ->
  psafe n (bind p g) s Q.
Proof.
  revert p s. induction n as [|n IH]; [done|]. intros p s Hp Hg.
  assert (Hg' : forall m a s', (m <= n)%nat -> P a s' -> psafe m (g a) s' Q)
    by (intros; apply Hg; [lia|done]).
  destruct p as [a|X f k|k|I R body i k].
  - change (psafe (S n) (g a) s Q). by apply Hg.
  - simpl in Hp |- *. destruct (f s) as [[x s']| |]; auto.
  - intros e. apply IH; [apply Hp|done].
  - change (psafe n (unfold_loop body i (fun r => bind (k r) g)) s Q).
    eapply psafe_peq; [apply unfold_loop_bind|]. by apply IH.
Qed.

Lemma psafe_forever {St R} n (J : St -> Prop) (p : prog St (option R)) s (Q : R -> St -> Prop) :
  J s ->
  (forall m s, (m <= n)%nat -> J s ->
     psafe m p s (fun r s' => match r with Some r => Q r s' | None => J s' end)) ->
  psafe n (forever p) s Q.
Proof.
  intros HJ Hp. unfold forever, loop.
  match goal with |- psafe _ (Loop ?b _ _) _ _ =>
    assert (Hgen : forall m s u, (m <= n)%nat -> J s -> psafe m (Loop b u Ret) s Q) end;
    [|by apply Hgen].
  clear s HJ. induction m as [m IH] using lt_wf_ind. intros s [] Hm HJ.
  destruct m as [|m]; [done|]. simpl. unfold unfold_loop.
  eapply psafe_peq; [symmetry; apply bind_assoc|].
  eapply psafe_bind; [apply Hp; [lia|done]|]. intros m' [r|] s' Hm' H.
  - by destruct m'.
  - destruct m' as [|m']; [done|]. apply (IH (S m')); [lia|lia|done].
Qed.

Lemma psafe_ret {St A} n (a : A) (s : St) (Q : A -> St -> Prop) : Q a s -> psafe n (Ret a) s Q.
Proof. by destruct n. Qed.

(** Total correctness implies safety: [n] steps have at most [n] failures. *)
Lemma twp_psafe {St A} n k (p : prog St A) s Q :
  twp n p s Q -> (k <= n)%nat -> psafe k p s (fun a s' => exists m, Q m a s').
Proof.
  intros H. revert k. induction H; intros j Hj; (destruct j as [|j]; [done|]); simpl.
  - eauto.
  - rewrite H. apply IHtwp. lia.
  - intros e. apply H0; [lia|]. unfold spend. destruct (spurious e); lia.
  - apply IHtwp. lia.
Qed.

Lemma returns_psafe {St A} n (p : prog St A) s Q : returns p s Q -> psafe n p s Q.
Proof.
  intros H. eapply psafe_mono; [by apply (twp_psafe n n _ _ _ (H n))|]. by intros a s' [_ ?].
Qed.

(** A prefix that returns. *)
Lemma psafe_twp_bind {St A B} j (p : prog St A) (g : A -> prog St B) s Q :
  twp j p s (fun m a s' => forall i, (i <= m)%nat -> psafe i (g a) s' Q) ->
  psafe j (bind p g) s Q.
Proof.
  intros H. assert (Hgen : forall i, (i <= j)%nat -> psafe i (bind p g) s Q); [|by apply Hgen].
  remember (fun m a s' => forall i, (i <= m)%nat -> psafe i (g a) s' Q) as P eqn:HP.
  induction H; subst; intros j Hj.
  - by apply H.
  - destruct j as [|j]; [done|]. simpl. rewrite H. apply IHtwp; [done|lia].
  - destruct j as [|j]; [done|]. intros e. apply H0; [lia|done|].
    unfold spend. destruct (spurious e); lia.
  - destruct j as [|j]; [done|].
    change (psafe j (unfold_loop body i (fun r => bind (k r) g)) s Q).
    eapply psafe_peq; [apply unfold_loop_bind|]. apply IHtwp; [done|lia].
Qed.

Lemma psafe_lift {S St A} (L : lens S St) `{!LensLaws L} n (p : prog St A) s P
    (Q : A -> S -> Prop) :
  psafe n p (lget L s) P -> (forall a x, P a x -> Q a (lput L x s)) -> psafe n (lift L p) s Q.
Proof.
  revert p s. induction n as [|n IH]; [done|]. intros [a|X f k|k|I R body i k] s; simpl.
  - intros H HQ. rewrite <- (lput_lget s). auto.
  - destruct (f (lget L s)) as [[x y]| |]; [|done|done]. intros H HQ.
    apply IH; [by rewrite lget_lput|]. intros. rewrite lput_lput. auto.
  - auto.
  - intros H HQ. eapply psafe_peq; [|apply (IH _ _ H HQ)].
    unfold unfold_loop. rewrite lift_bind. apply bind_peq; [reflexivity|].
    intros [?|?]; reflexivity.
Qed.

(** ** Partial correctness

    [wlp n p s Q]: if [p] returns within [n] steps from [s], alone, [Q] holds then; it may
    also go wrong or wait. *)
Fixpoint wlp {St A} (n : nat) (p : prog St A) (s : St) (Q : A -> St -> Prop) : Prop :=
  match n with
  | O => True
  | S n =>
      match p with
      | Ret a => Q a s
      | Act f k => match f s with Ok (x, s') => wlp n (k x) s' Q | _ => True end
      | Ask k => forall e, wlp n (k e) s Q
      | Loop body i k => wlp n (unfold_loop body i k) s Q
      end
  end.

Lemma wlp_peq {St A} n (p q : prog St A) s Q : peq p q -> wlp n p s Q -> wlp n q s Q.
Proof.
  revert p q s. induction n as [|n IH]; [done|].
  intros p q s Hq. apply peq_inv in Hq.
  destruct p as [a|X f k|k|I R body i k]; try destruct Hq as (k' & -> & Hk); subst; simpl.
  - done.
  - destruct (f s) as [[x s']| |]; eauto.
  - eauto.
  - intros H. eapply IH; [|exact H]. apply bind_peq; [reflexivity|].
    intros [?|?]; [by constructor|auto].
Qed.

Lemma wlp_bind {St A B} n (p : prog St A) (g : A -> prog St B) s P Q :
  wlp n p s P -> (forall m a s', (m <= n)%nat -> P a s' -> wlp m (g a) s' Q) ->
  wlp n (bind p g) s Q.
Proof.
  revert p s. induction n as [|n IH]; [done|]. intros p s Hp Hg.
  assert (Hg' : forall m a s', (m <= n)%nat -> P a s' -> wlp m (g a) s' Q)
    by (intros; apply Hg; [lia|done]).
  destruct p as [a|X f k|k|I R body i k].
  - change (wlp (S n) (g a) s Q). by apply Hg.
  - simpl in Hp |- *. destruct (f s) as [[x s']| |]; auto.
  - intros e. apply IH; [apply Hp|done].
  - change (wlp n (unfold_loop body i (fun r => bind (k r) g)) s Q).
    eapply wlp_peq; [apply unfold_loop_bind|]. by apply IH.
Qed.

Lemma wlp_ret {St A} n (a : A) (s : St) (Q : A -> St -> Prop) : Q a s -> wlp n (Ret a) s Q.
Proof. by destruct n. Qed.

Lemma wlp_act {St X} n (f : St -> res (X * St)) s (Q : X -> St -> Prop) :
  (forall x s', f s = Ok (x, s') -> Q x s') -> wlp n (act f) s Q.
Proof.
  intros H. destruct n as [|n]; [done|]. simpl. destruct (f s) as [[x s']| |]; [|done|done].
  apply wlp_ret. auto.
Qed.

(** Nothing to show. *)
Lemma wlp_true {St A} n (p : prog St A) s : wlp n p s (fun _ _ => True).
Proof.
  revert p s. induction n as [|n IH]; [done|]. intros [a|X f k|k|I R body i k] s; simpl; auto.
  destruct (f s) as [[x s']| |]; auto.
Qed.

Lemma wlp_loop {St I R} n (J : I -> St -> Prop) (body : I -> prog St (I + R)) i s (Q : R -> St -> Prop) :
  J i s ->
  (forall m i s, (m <= n)%nat -> J i s ->
     wlp m (body i) s (fun r s' => match r with inl i' => J i' s' | inr r => Q r s' end)) ->
  wlp n (loop body i) s Q.
Proof.
  intros HJ Hb. assert (Hgen : forall m i s, (m <= n)%nat -> J i s -> wlp m (loop body i) s Q); [|by apply Hgen].
  clear i s HJ. induction m as [m IH] using lt_wf_ind. intros i s Hm HJ.
  destruct m as [|m]; [done|]. simpl. unfold unfold_loop.
  eapply wlp_bind; [apply Hb; [lia|done]|]. intros m' [i'|r] s' Hm' H; [|by apply wlp_ret].
  apply IH; [lia|lia|done].
Qed.

(** The meaning of [wlp]: what a run returns satisfies [Q]. *)
Lemma wlp_run {St A} (p : prog St A) s Q : (forall n, wlp n p s Q) ->
  forall fuel es a s', run fuel es p s = Done a s' -> Q a s'.
Proof.
  intros H fuel. revert p s H. induction fuel as [|fuel IH]; intros p s H es a s' E.
  - destruct p; simplify_eq/=. apply (H 1%nat).
  - destruct p as [b|X f k|k|I R body i k]; simpl in E.
    + simplify_eq. apply (H 1%nat).
    + destruct (f s) as [[x s1]| |] eqn:Ef; [|done|done]. eapply IH; [|exact E].
      intros n. specialize (H (S n)). simpl in H. by rewrite Ef in H.
    + eapply IH; [|exact E]. intros n. apply (H (S n)).
    + eapply IH; [|exact E]. intros n. apply (H (S n)).
Qed.
