(* ===== verification/MutexSolo.v ===== *)
(** * One thread at a time: [lock], [try_lock], [unlock] and the guards

    The total behaviour of the operations of the mutex when no other thread
    runs, whatever weak compare-exchanges fail. *)

From S2P Require Import Prelude Machine Solo Timing Resources Parking RawMutex SmallMutex RawMutexInv.

Section Solo.
Context (addr : Z).
#[local] Instance solo_mutex : Mutexable sys Z := RawMutex_mutexable sys_word sys_held addr.

(** [s] with the byte [w] and the resources [l] of thread [me]. *)
Definition with_word (w : Z) (s : sys) : sys := lput sys_word w s.
Definition with_held (me : nat) (l : list Z) (s : sys) : sys :=
  lput sys_held (<[me := l]> (held s)) s.
Definition holds_keys (me : nat) (s : sys) : list Z := default [] (held s !! me).

(** [lock_slow] on a mutex that is not locked only sets the locked bit. *)
Lemma lock_slow_free me s : Z.land (word s) LOCKED_BIT = 0 ->
  returns (lock_slow sys_word addr me) s
    (fun r s' => r = true /\ s' = with_word (Z.lor (word s) LOCKED_BIT) s).
Proof.
  intros Hw n. unfold lock_slow, loop. apply twp_bind, twp_load.
  apply twp_loop_inv with
    (Inv := fun _ i s' => s' = s /\ i.2 = word s) (meas := fun _ _ => 0%nat); [done|].
  intros m [w st] s' [-> Hst]. simpl in Hst. subst st. rewrite Hw. simpl.
  apply twp_bind, twp_cas_weak; simpl; [intros m' <-|intros _|done]; apply twp_ret; simpl.
  - split; [done|left; lia].
  - by apply twp_ret.
Qed.

Lemma raw_lock_free me s : word s = INIT ->
  returns (raw_lock sys_word sys_held addr me) s
    (fun _ s' => s' = with_held me (holds_keys me s ++ [addr]) (with_word LOCKED_BIT s)).
Proof.
  intros Hw n. unfold raw_lock. apply twp_bind.
  assert (Hslow : forall m, twp m (lock_slow sys_word addr me ;; Ret ()) s (fun m' _ s' =>
    twp m' (with_resources sys_held me (acquire_resource addr)) s' (fun _ _ s' =>
      s' = with_held me (holds_keys me s ++ [addr]) (with_word LOCKED_BIT s)))).
  { intros m. apply twp_bind. eapply twp_returns; [apply lock_slow_free; by rewrite Hw|].
    intros m' _ ? [_ ->]. apply twp_ret, twp_store. by rewrite Hw. }
  apply twp_cas_weak; simpl; [intros m <-|intros _|rewrite Hw; done];
    apply twp_bind; simpl; [apply Hslow|].
  by apply twp_ret, twp_store.
Qed.

(** The fast path of [unlock]. *)
Lemma raw_unlock_free me s : word s = LOCKED_BIT ->
  returns (raw_unlock sys_word sys_held addr me) s
    (fun _ s' => s' = with_held me (release_resource addr (holds_keys me s)) (with_word INIT s)).
Proof.
  intros Hw n. unfold raw_unlock. apply twp_bind, twp_store, twp_bind, twp_cas; simpl;
    [|by rewrite Hw]. intros _. by apply twp_ret.
Qed.

Lemma raw_try_lock_free me s : Z.land (word s) LOCKED_BIT = 0 ->
  returns (raw_try_lock sys_word sys_held addr me) s
    (fun r s' => r = true /\ word s' = Z.lor (word s) PARKED_BIT).
Proof.
  intros Hw n. unfold raw_try_lock, loop. apply twp_bind, twp_load.
  apply twp_loop_inv with
    (Inv := fun _ i s' => s' = s /\ i = word s) (meas := fun _ _ => 0%nat); [done|].
  intros m st s' [-> ->]. rewrite Hw. simpl.
  apply twp_bind, twp_cas_weak; simpl; [intros m' <-|intros _|done].
  - apply twp_ret. split; [done|left; lia].
  - apply twp_bind, twp_store, twp_ret, twp_ret. done.
Qed.

Lemma raw_try_lock_held me s : Z.land (word s) LOCKED_BIT <> 0 ->
  returns (raw_try_lock sys_word sys_held addr me) s (fun r s' => r = false /\ s' = s).
Proof.
  intros Hw n. unfold raw_try_lock, loop. apply twp_bind, twp_load.
  apply twp_loop_inv with
    (Inv := fun _ i s' => s' = s /\ i = word s) (meas := fun _ _ => 0%nat); [done|].
  intros m st s' [-> ->]. apply Z.eqb_neq in Hw. rewrite Hw. simpl.
  by apply twp_ret, twp_ret.
Qed.

(** *** A mutex that nobody unlocks *)

Definition is_locked (s : sys) : Prop := word s = LOCKED_BIT \/ word s = Z.lor LOCKED_BIT PARKED_BIT.

Lemma wlp_load_state n s (Q : Z -> sys -> Prop) : Q (word s) s -> wlp n (load_state sys_word) s Q.
Proof. intros HQ. apply wlp_act. by intros x s' [= <- <-]. Qed.

(** A thread that parks with no other thread to wake it does not return. *)
Lemma wlp_park n me v s (Q : ParkResult -> sys -> Prop) : is_locked s ->
  (forall s', is_locked s' -> Q Invalid s') ->
  wlp n (park me addr (validate sys_word) (Ret ()) v DEFAULT_PARK_TOKEN None) s Q.
Proof.
  intros Hs HQ. eapply wlp_bind with (P := fun _ s' => is_locked s').
  { apply wlp_act. intros x s'. simpl. destruct (locked_by (buck s)); [done|]. by intros [= <- <-]. }
  intros m1 _ s1 _ H1. eapply wlp_bind with (P := fun _ s' => is_locked s').
  { eapply wlp_bind; [by apply (wlp_load_state _ _ (fun _ s' => is_locked s'))|].
    intros m x s' _ Hs'. by apply wlp_ret. }
  intros m2 b s2 _ H2. destruct b.
  - eapply wlp_bind with (P := fun _ s' => woken (buck s') !! me = None).
    { apply wlp_act. intros x s' [= <- <-]. simpl. apply lookup_delete_eq. }
    intros m3 _ s3 _ H3. eapply wlp_bind with (P := fun _ s' => woken (buck s') !! me = None).
    { apply wlp_act. by intros x s' [= <- <-]. }
    intros m4 _ s4 _ H4. apply (wlp_bind _ (act _) _ _ (fun _ _ => False)); [|done].
    apply wlp_act. intros x s'. simpl. by rewrite H4.
  - eapply wlp_bind with (P := fun _ s' => is_locked s').
    { apply wlp_act. by intros x s' [= <- <-]. }
    intros m3 _ s3 _ H3. apply wlp_ret. auto.
Qed.

Lemma is_locked_bit s : is_locked s -> (Z.land (word s) LOCKED_BIT =? 0) = false.
Proof. by intros [-> | ->]. Qed.

Lemma wlp_cas_weak n cur new s (Q : Z + Z -> sys -> Prop) :
  (word s = cur -> Q (inl cur) (with_word new s)) -> Q (inr (word s)) s ->
  wlp n (cas_weak_state sys_word cur new) s Q.
Proof.
  intros Hok Hno. destruct n as [|n]; [done|]. intros e. destruct (spurious e); apply wlp_act; intros x s'.
  - by intros [= <- <-].
  - simpl. destruct (Z.eqb_spec (word s) cur) as [E|]; intros [= <- <-]; auto.
Qed.

Lemma lock_slow_held n me s : is_locked s -> wlp n (lock_slow sys_word addr me) s (fun _ _ => False).
Proof.
  intros Hs. eapply wlp_bind; [by apply (wlp_load_state _ _ (fun x s' => x = word s' /\ is_locked s'))|].
  intros m x s1 _ [-> H1].
  apply (wlp_loop _ (fun i s => is_locked s /\ exists s', is_locked s' /\ i.2 = word s')); [by eauto|].
  clear s Hs s1 H1. intros n' [w st] s _ [Hs (s0 & Hs0 & Hst)]. simpl in Hst. subst st.
  rewrite (is_locked_bit _ Hs0).
  assert (Hagain : forall (w' : SpinWait.SpinWait) m s, is_locked s ->
    wlp m (let! state := load_state sys_word in Ret (@inl (SpinWait.SpinWait * Z) bool (w', state))) s (fun r s' =>
      match r with inl i => is_locked s' /\ exists s1, is_locked s1 /\ i.2 = word s1 | inr _ => False end)).
  { intros w' k s1 H1. eapply wlp_bind; [by apply (wlp_load_state _ _ (fun x s' => x = word s' /\ is_locked s'))|].
    intros k' x s' _ [-> Hs']. apply wlp_ret. eauto. }
  destruct (if Z.land (word s0) PARKED_BIT =? 0 then _ else _) as [[] w']; [by apply Hagain|].
  eapply wlp_bind with (P := fun r s' => is_locked s' /\
    match r with inl _ => True | inr x => exists s1, is_locked s1 /\ x = word s1 end).
  { destruct (_ =? 0); [|by apply wlp_ret]. apply wlp_cas_weak; [|by eauto].
    intros E. split; [|done]. right. simpl. destruct Hs0 as [-> | ->]; done. }
  intros m1 [x|x] s1 _ [H1 Hx]; [|apply wlp_ret; by eauto].
  eapply wlp_bind; [by apply (wlp_park _ _ _ _ (fun r s' => r = Invalid /\ is_locked s'))|].
  intros m2 r s2 _ [-> H2]. by apply Hagain.
Qed.

Lemma raw_lock_held n me s : is_locked s ->
  wlp n (raw_lock sys_word sys_held addr me) s (fun _ _ => False).
Proof.
  intros Hs. eapply wlp_bind with (P := fun r s' => is_ok r = false /\ is_locked s').
  { apply wlp_cas_weak; [|done]. intros E. by destruct Hs as [Hs|Hs]; rewrite Hs in E. }
  intros m [|x] s1 _ [Hr H1]; [done|]. simpl.
  apply (wlp_bind _ (lock_slow sys_word addr me ;; Ret ()) _ _ (fun _ _ => False)); [|done].
  eapply wlp_bind; [by apply lock_slow_held|]. done.
Qed.
End Solo.

(** C28. On a free mutex, locking, writing through the guard and dropping it returns,
    with the value written, the mutex free and the thread's resources as before. *)
Theorem lock_write_unlock (addr : Z) (me v : nat) (s : sys) :
  word s = INIT ->
  returns
    (let! g := small_lock (M := Z) (Mutexable0 := solo_mutex addr) me in
     guard_write sys_count g v ;;
     guard_drop (M := Z) (Mutexable0 := solo_mutex addr) me g) s
    (fun _ s' => s' = lput sys_count v (with_held me (holds_keys me s) s)).
Proof.
  intros Hw n. unfold small_lock, guard_drop, guard_write. simpl.
  do 2 apply twp_bind. eapply twp_returns; [by apply raw_lock_free|]. intros m _ ? ->.
  apply twp_ret, twp_bind, twp_store.
  eapply twp_returns; [by apply raw_unlock_free|]. intros m' _ ? ->.
  unfold holds_keys at 1. simpl. rewrite lookup_insert_eq. simpl.
  change (holds_keys me s ++ [addr]) with (acquire_resource addr (holds_keys me s)).
  rewrite release_acquire.
  unfold with_held, with_word. simpl. rewrite insert_insert_eq. by rewrite Hw.
Qed.

Lemma lock_write_unlock_witness : word sys_init = INIT /\
  returns
    (let! g := small_lock (M := Z) (Mutexable0 := solo_mutex 16) 0 in
     guard_write sys_count g 5%nat ;;
     guard_drop (M := Z) (Mutexable0 := solo_mutex 16) 0 g) sys_init
    (fun _ s' => count s' = 5%nat /\ word s' = INIT).
Proof.
  split; [reflexivity|]. intros n.
  eapply twp_returns; [exact (lock_write_unlock 16 0 5 sys_init eq_refl)|].
  by intros m _ s' ->.
Defined.

(** C29. [try_lock] does not exclude anybody: it sets the parked bit where it should
    set the locked bit, so that two calls in a row, of different threads, both
    succeed and the mutex is still not locked. *)
Theorem try_lock_twice (addr : Z) (t u : nat) (s : sys) :
  Z.land (word s) LOCKED_BIT = 0 ->
  returns
    (let! a := small_try_lock (M := Z) (Mutexable0 := solo_mutex addr) t in
     let! b := small_try_lock (M := Z) (Mutexable0 := solo_mutex addr) u in
     Ret (a, b)) s
    (fun r s' => r = (true, true) /\ Z.land (word s') LOCKED_BIT = 0).
Proof.
  intros Hw n. unfold small_try_lock. simpl.
  assert (Hp : forall z, Z.land z LOCKED_BIT = 0 -> Z.land (Z.lor z PARKED_BIT) LOCKED_BIT = 0).
  { intros z Hz. by rewrite Z.land_lor_distr_l, Hz. }
  apply twp_bind. eapply twp_returns; [by apply raw_try_lock_free|]. intros m a s1 [-> H1].
  apply twp_bind. eapply twp_returns; [apply raw_try_lock_free; rewrite H1; auto|].
  intros m' b s2 [-> H2]. apply twp_ret. split; [done|]. rewrite H2, H1. auto.
Qed.

Lemma try_lock_twice_witness : Z.land (word sys_init) LOCKED_BIT = 0 /\
  returns
    (let! a := small_try_lock (M := Z) (Mutexable0 := solo_mutex 16) 0 in
     let! b := small_try_lock (M := Z) (Mutexable0 := solo_mutex 16) 1 in
     Ret (a, b)) sys_init
    (fun r s' => r = (true, true) /\ Z.land (word s') LOCKED_BIT = 0).
Proof. split; [reflexivity|]. exact (try_lock_twice 16 0 1 sys_init eq_refl). Defined.

(** A locked mutex is not taken: [try_lock] returns [false] and changes nothing. *)
Lemma try_lock_locked (addr : Z) (t : nat) (s : sys) :
  Z.land (word s) LOCKED_BIT <> 0 ->
  returns (small_try_lock (M := Z) (Mutexable0 := solo_mutex addr) t) s
    (fun r s' => r = false /\ s' = s).
Proof. apply raw_try_lock_held. Qed.

(** C30. A mapped guard does not unlock.  [map] forgets the guard of [lock], so that its
    [drop] does not run, and dropping the guard that [map] made, here from a component [f]
    and then from a component [h] of that, does nothing: the mutex stays locked, its thread
    keeps it among its resources, and no later call of [lock] that runs alone, of any
    thread, returns. *)
Theorem mapped_guard_never_unlocks {U V} (addr : Z) (t : nat) (f : lens nat U) (h : lens U V) (s : sys) :
  word s = INIT ->
  returns
    (let! g := small_lock (M := Z) (Mutexable0 := solo_mutex addr) t in
     let! m := guard_map (Mutexable0 := solo_mutex addr) t g f in
     let! m := map_guard_map t m h in
     end_of_scope t (Some m)) s
    (fun _ s' =>
       s' = with_held t (holds_keys t s ++ [addr]) (with_word LOCKED_BIT s) /\
       forall u fuel es g s'',
         run fuel es (small_lock (M := Z) (Mutexable0 := solo_mutex addr) u) s' <> Done g s'').
Proof.
  intros Hw n. unfold small_lock. simpl. do 2 apply twp_bind.
  eapply twp_returns; [by apply raw_lock_free|]. intros m _ ? ->. unfold guard_map, map_guard_map. simpl.
  do 2 apply twp_ret. split; [done|]. intros u fuel es g s'' E.
  eapply (wlp_run _ _ (fun _ _ => False)) in E; [done|]. intros k.
  eapply wlp_bind; [apply raw_lock_held; by left|]. done.
Qed.

Lemma mapped_guard_never_unlocks_witness : word sys_init = INIT /\
  returns
    (let! g := small_lock (M := Z) (Mutexable0 := solo_mutex 16) 0 in
     let! m := guard_map (Mutexable0 := solo_mutex 16) 0 g (lens_id (S := nat)) in
     let! m := map_guard_map 0 m lens_id in
     end_of_scope 0 (Some m)) sys_init
    (fun _ s' => word s' = LOCKED_BIT /\
       forall fuel es g s'', run fuel es (small_lock (M := Z) (Mutexable0 := solo_mutex 16) 1) s' <> Done g s'').
Proof.
  split; [reflexivity|]. intros n. eapply twp_returns.
  - exact (mapped_guard_never_unlocks 16 0 lens_id lens_id sys_init eq_refl).
  - intros m _ s' [-> Hn]. split; [reflexivity|]. exact (Hn 1%nat).
Defined.
