(* ===== verification/Refine.v ===== *)
(** * Refinement of pools of threads

    A pool of threads implements another one when every state it reaches matches a
    state that the other one reaches.  The pool that serves as the specification is
    run along as ghost state: the phase of a thread contains what is left of its
    specification, and a step of the code may be accompanied by any number of steps of
    the specification, including none.

    [csafe] lets a thread change its phase when it accesses the shared state.  [rs] is
    [csafe] up to changes of phase that need no access ([shift]); the steps of the
    specification are such changes. *)

From S2P Require Import Prelude Machine Solo Conc.

(** ** Changes of phase without a step *)

Section Shift.
Context {St G : Type}.
Context (Inv : St -> (nat -> G) -> Prop) (wait0 : St -> G -> Prop).

Definition shift (t : nat) (c c' : G) : Prop := forall s g, Inv s g -> g t = c ->
  exists g', Inv s g' /\ g' t = c' /\ forall t', t' <> t -> g' t' = g t'.

#[export] Instance shift_preorder t : PreOrder (shift t).
Proof.
  split.
  - intros c s g Hi Hg. exists g. auto.
  - intros c1 c2 c3 H1 H2 s g Hi Hg. destruct (H1 s g Hi Hg) as (g1 & Hi1 & Hg1 & Ho1).
    destruct (H2 s g1 Hi1 Hg1) as (g2 & Hi2 & Hg2 & Ho2). exists g2. split_and!; [done..|].
    intros t' Hne. by rewrite Ho2, Ho1.
Qed.

(** A thread may wait as [wait0] says, after a change of its phase. *)
Definition shift_wait (s : St) (g : nat -> G) (t : nat) : Prop :=
  exists c', shift t (g t) c' /\ wait0 s c'.

Definition rs {A} (n t : nat) (c : G) (p : prog St A) (Q : G -> A -> Prop) : Prop :=
  csafe Inv eq shift_wait n t c p (fun c a => exists c', shift t c c' /\ Q c' a).

Lemma rs_shift {A} n t c c' (p : prog St A) Q : shift t c c' -> rs n t c' p Q -> rs n t c p Q.
Proof.
  intros Hs. revert p. induction n as [|n IH]; [done|].
  intros [a|X f k|k|I R body i k] H; unfold rs in *; simpl in *; eauto.
  - intros ? <-. destruct (H c' eq_refl) as (c2 & H2 & HQ). exists c2.
    split; [by etransitivity|done].
  - intros s g Hi ->. destruct (Hs s g Hi eq_refl) as (g1 & Hi1 & Hg1 & Ho).
    specialize (H s g1 Hi1 (eq_sym Hg1)). destruct (f s) as [[x s']| |]; [|..|done].
    + destruct H as (g2 & Hi2 & Ho2 & Hk). exists g2. split_and!; [done| |done].
      intros t' Hne. by rewrite <- Ho2, Ho.
    + destruct H as (c2 & H2 & Hw). exists c2. rewrite Hg1 in H2. split; [by etransitivity|done].
Qed.

Lemma rs_ret {A} n t c (a : A) (Q : G -> A -> Prop) : Q c a -> rs n t c (Ret a) Q.
Proof. intros HQ. apply csafe_ret. intros ? <-. exists c. split; [reflexivity|done]. Qed.

Lemma rs_csafe {A} n t c (p : prog St A) Q : csafe Inv eq shift_wait n t c p Q -> rs n t c p Q.
Proof. apply csafe_mono. intros c' a HQ. exists c'. split; [reflexivity|done]. Qed.

Lemma rs_mono {A} n t c (p : prog St A) (Q Q' : G -> A -> Prop) :
  (forall c a, Q c a -> Q' c a) -> rs n t c p Q -> rs n t c p Q'.
Proof. intros HQ. apply csafe_mono. intros c' a (c2 & Hs & Hq). eauto. Qed.

Lemma rs_peq {A} n t c (p q : prog St A) Q : peq p q -> rs n t c p Q -> rs n t c q Q.
Proof. apply csafe_peq. Qed.

Lemma rs_bind {A B} n t c (p : prog St A) (k : A -> prog St B) P Q :
  rs n t c p P -> (forall m c' a, (m <= n)%nat -> P c' a -> rs m t c' (k a) Q) ->
  rs n t c (bind p k) Q.
Proof.
  intros Hp Hk. eapply (csafe_bind Inv eq); [exact Hp|]. intros m c' a Hm (c2 & Hs & HP).
  eapply rs_shift; [exact Hs|]. by apply Hk.
Qed.

Lemma rs_ask {A} n t c (k : env -> prog St A) Q :
  (forall e m, (m <= n)%nat -> rs m t c (k e) Q) -> rs n t c (Ask k) Q.
Proof. intros H. apply csafe_ask. exact H. Qed.

(** What a step of [t] to the state [s'] has to establish. *)
Definition moves (t : nat) (g : nat -> G) (s' : St) (P : G -> Prop) : Prop :=
  exists g', Inv s' g' /\ (forall t', t' <> t -> g' t' = g t') /\ P (g' t).

Lemma rs_act {X} n t c (f : St -> res (X * St)) (Q : G -> X -> Prop) :
  (forall s g, Inv s g -> g t = c ->
     match f s with
     | Ok (x, s') => moves t g s' (fun c' => Q c' x)
     | Block => shift_wait s g t
     | Fail _ => False
     end) ->
  rs n t c (act f) Q.
Proof.
  intros H. apply csafe_act. intros s g Hi Hg. specialize (H s g Hi (eq_sym Hg)).
  destruct (f s) as [[x s']| |]; [|done|done]. destruct H as (g' & Hi' & Ho & HQ).
  exists g'. split_and!; [done| |].
  - intros t' Hne. by rewrite Ho.
  - intros ? <-. exists (g' t). split; [reflexivity|done].
Qed.

Lemma rs_loop {A I R} n t (J : G -> I -> Prop) (body : I -> prog St (I + R))
    (k : R -> prog St A) Q c i :
  J c i ->
  (forall m c i, (m <= n)%nat -> J c i ->
     rs m t c (body i) (fun c' r => match r with
       | inl i' => J c' i'
       | inr r => forall m', (m' <= n)%nat -> rs m' t c' (k r) Q
       end)) ->
  rs n t c (Loop body i k) Q.
Proof.
  intros HJ Hb.
  apply (csafe_loop Inv eq shift_wait n t (fun c i => exists c', shift t c c' /\ J c' i)).
  { exists c. split; [reflexivity|done]. }
  intros m c1 i1 Hm (c2 & Hs & HJ2). eapply (csafe_mono Inv eq); [|eapply rs_shift; [exact Hs|by apply Hb]].
  intros c3 [i'|r] (c4 & Hs4 & H4); [by eauto|]. intros m' Hm'. eapply rs_shift; [exact Hs4|]. by apply H4.
Qed.

Lemma rs_forever {R} n t (J : G -> Prop) (body : prog St (option R)) Q c :
  J c ->
  (forall m c, (m <= n)%nat -> J c -> rs m t c body (fun c' r =>
     match r with Some r => Q c' r | None => J c' end)) ->
  rs n t c (forever body) Q.
Proof.
  intros HJ Hb. apply (rs_loop _ _ (fun c _ => J c)); [done|]. intros m c1 [] Hm HJ1.
  eapply rs_bind; [by apply Hb|]. intros m2 c2 [r|] Hm2 H2; apply rs_ret; [|done].
  intros m' Hm'. by apply rs_ret.
Qed.

(** A finite number of threads change their phases. *)
Lemma shift_all n s (g : nat -> G) (P : nat -> Prop) (D : nat -> G -> Prop)
    `{!forall t, Decision (P t)} :
  Inv s g -> (forall t, P t -> exists c', shift t (g t) c' /\ D t c') ->
  exists g', Inv s g' /\ (forall t, (t < n)%nat -> P t -> D t (g' t)) /\
    (forall t, (n <= t)%nat -> g' t = g t).
Proof.
  intros Hi HP. induction n as [|n (g1 & Hi1 & HD & Ho)]; [exists g; split_and!; [done|lia|done]|].
  destruct (decide (P n)) as [Hn|Hn].
  - destruct (HP n Hn) as (c' & Hs & Hc). destruct (Hs s g1 Hi1) as (g2 & Hi2 & Hg2 & Ho2); [by apply Ho|].
    exists g2. split_and!; [done|..].
    + intros t Ht Hp. destruct (decide (t = n)) as [->|]; [by rewrite Hg2|].
      rewrite Ho2 by done. apply HD; [lia|done].
    + intros t Ht. rewrite Ho2 by lia. apply Ho. lia.
  - exists g1. split_and!; [done|..].
    + intros t Ht Hp. destruct (decide (t = n)) as [->|]; [done|]. apply HD; [lia|done].
    + intros t Ht. apply Ho. lia.
Qed.
End Shift.

(** ** Steps of the specification *)

Lemma step_peq {St A} e (p q : prog St A) s : peq p q ->
  match step e p s, step e q s with
  | None, None => True
  | Some (Ok (p', s')), Some (Ok (q', s'')) => peq p' q' /\ s' = s''
  | Some Block, Some Block => True
  | Some (Fail f), Some (Fail f') => f = f'
  | _, _ => False
  end.
Proof.
  intros H. apply peq_inv in H. destruct p as [a|X f k|k|I R body i k];
    try destruct H as (k' & -> & Hk); subst; simpl.
  - done.
  - by destruct (f s) as [[x s']| |].
  - auto.
  - split; [|done]. apply bind_peq; [reflexivity|]. intros [?|?]; [by constructor|auto].
Qed.

Lemma sched_length {St A} evs : forall (ts : list (prog St A)) s ts' s',
  sched evs ts s = POk ts' s' -> length ts' = length ts.
Proof.
  induction evs as [|[t e] evs IH]; intros ts s ts' s' H; simpl in H; [by simplify_eq|].
  unfold pool_step in H. simpl in H. destruct (ts !! t) as [p|]; [|done].
  destruct (step e p s) as [[[p1 s1]| |]|]; try done. rewrite (IH _ _ _ _ H). apply length_insert.
Qed.

(** [exec p s p' s']: some steps of [p] alone, up to [peq]. *)
Inductive exec {St A} : prog St A -> St -> prog St A -> St -> Prop :=
| exec_refl p p' s : peq p p' -> exec p s p' s
| exec_step e p s p1 s1 p2 s2 :
    step e p s = Some (Ok (p1, s1)) -> exec p1 s1 p2 s2 -> exec p s p2 s2.

Lemma exec_peq {St A} (p q r : prog St A) s s' : peq p q -> exec p s r s' -> exec q s r s'.
Proof.
  intros Hq H. revert q Hq. induction H as [p p' s Hp|e p s p1 s1 p2 s2 Hs _ IH]; intros q Hq.
  - apply exec_refl. by rewrite <- Hq.
  - pose proof (step_peq e p q s Hq) as Hst. rewrite Hs in Hst.
    destruct (step e q s) as [[[q' s'']| |]|] eqn:E; try done.
    destruct Hst as [Hpq <-]. eapply exec_step; [exact E|by apply IH].
Qed.

Lemma exec_trans {St A} (p q r : prog St A) s s1 s2 :
  exec p s q s1 -> exec q s1 r s2 -> exec p s r s2.
Proof.
  induction 1 as [p p' s Hp|e p s p1 s1 p2 s3 Hs _ IH]; intros H2.
  - eapply exec_peq; [by symmetry|done].
  - eapply exec_step; eauto.
Qed.

Lemma exec_evals {St A B} (p : prog St A) (k : A -> prog St B) s a s' :
  evals p s a s' -> exec (bind p k) s (k a) s'.
Proof.
  induction 1 as [a s|X f q s x s' a s2 Hf _ IH|q s e a s2 _ IH|I R body i q s a s2 _ IH].
  - apply exec_refl. reflexivity.
  - apply exec_step with calm (bind (q x) k) s'; [|done]. simpl. by rewrite Hf.
  - apply exec_step with e (bind (q e) k) s; done.
  - eapply (exec_step calm); [reflexivity|]. eapply exec_peq; [apply unfold_loop_bind|done].
Qed.

Section Reach.
Context {St B : Type} (ts0 : list (prog St B)) (s0 : St).

(** The threads of the specification can be at [f] in the state [s]. *)
Definition reach (f : nat -> prog St B) (s : St) : Prop :=
  exists evs ts, sched evs ts0 s0 = POk ts s /\ length ts = length ts0 /\
    forall t p, ts !! t = Some p -> peq p (f t).

Lemma sched_app evs1 evs2 : forall (ts : list (prog St B)) s,
  sched (evs1 ++ evs2) ts s = match sched evs1 ts s with POk ts' s' => sched evs2 ts' s' | r => r end.
Proof.
  induction evs1 as [|ev evs1 IH]; intros ts s; [done|]. simpl.
  destruct (pool_step ev ts s); [apply IH|done|done].
Qed.

Lemma reach_start f : (forall t p, ts0 !! t = Some p -> f t = p) -> reach f s0.
Proof. intros H. exists [], ts0. split_and!; [done..|]. intros t p Hp. by rewrite (H t p Hp). Qed.

Lemma reach_step f s t e p' s' : reach f s -> (t < length ts0)%nat ->
  step e (f t) s = Some (Ok (p', s')) -> reach (<[t := p']> f) s'.
Proof.
  intros (evs & ts & Hs & Hl & Hf) Ht Hst. destruct (lookup_lt_is_Some_2 ts t) as [p Hp]; [lia|].
  pose proof (step_peq e _ _ s (Hf t p Hp)) as Hq. rewrite Hst in Hq.
  destruct (step e p s) as [[[p1 s1]| |]|] eqn:E; try done. destruct Hq as [Hq ->].
  exists (evs ++ [(t, e)]), (<[t := p1]> ts). rewrite sched_app, Hs. simpl.
  unfold pool_step. simpl. rewrite Hp, E, length_insert. split_and!; [done..|].
  intros u q Hu. destruct (decide (u = t)) as [->|Hne].
  - rewrite list_lookup_insert_eq in Hu by lia. simplify_eq. by rewrite fn_lookup_insert.
  - rewrite list_lookup_insert_ne in Hu by done. rewrite fn_lookup_insert_ne by done. by apply Hf.
Qed.

Lemma reach_proper f f' s : (forall t, peq (f t) (f' t)) -> reach f s -> reach f' s.
Proof.
  intros Hff (evs & ts & Hs & Hl & Hf). exists evs, ts. split_and!; [done..|].
  intros t p Hp. by rewrite <- Hff, <- Hf.
Qed.

Lemma reach_exec f f' s t p' s' : reach f s -> (t < length ts0)%nat -> exec (f t) s p' s' ->
  f' t = p' -> (forall t', t' <> t -> f' t' = f t') -> reach f' s'.
Proof.
  intros Hr Ht Hx Hp Ho. assert (reach (<[t := p']> f) s') as Hr'.
  { clear Hp Ho. remember (f t) as p eqn:Hp. revert f Hr Hp.
    induction Hx as [p p' s Hq|e p s p1 s1 p2 s2 Hs _ IH]; intros f Hr ->.
    - eapply reach_proper; [|exact Hr]. intros u. destruct (decide (u = t)) as [->|Hne].
      + by rewrite fn_lookup_insert.
      + by rewrite fn_lookup_insert_ne.
    - eapply reach_proper; [|apply (IH (<[t := p1]> f)); [by eapply reach_step|by rewrite fn_lookup_insert]].
      intros u. destruct (decide (u = t)) as [->|Hne].
      + by rewrite !fn_lookup_insert.
      + by rewrite !fn_lookup_insert_ne. }
  eapply reach_proper; [|exact Hr']. intros u. destruct (decide (u = t)) as [->|Hne].
  - by rewrite fn_lookup_insert, Hp.
  - by rewrite fn_lookup_insert_ne, Ho.
Qed.

(** A fault that a thread of the specification is about to have is one of a schedule. *)
Lemma reach_fail f s t e x : reach f s -> (t < length ts0)%nat ->
  step e (f t) s = Some (Fail x) -> exists evs, sched evs ts0 s0 = PFail t x s.
Proof.
  intros (evs & ts & Hs & Hl & Hf) Ht Hst. destruct (lookup_lt_is_Some_2 ts t) as [p Hp]; [lia|].
  pose proof (step_peq e _ _ s (Hf t p Hp)) as Hq. rewrite Hst in Hq.
  destruct (step e p s) as [[[]| |y]|] eqn:E; try done. simpl in Hq. rewrite Hq in E.
  exists (evs ++ [(t, e)]). rewrite sched_app, Hs. simpl. unfold pool_step. simpl. by rewrite Hp, E.
Qed.
End Reach.

(** ** Programs of which every access keeps a relation

    [R s s'] holds between the states before and after each access of [p]. *)
Fixpoint keeps {St A} (R : St -> St -> Prop) (p : prog St A) : Prop :=
  match p with
  | Ret _ => True
  | Act f k => (forall s x s', f s = Ok (x, s') -> R s s') /\ forall x, keeps R (k x)
  | Ask k => forall e, keeps R (k e)
  | Loop body i k => (forall i, keeps R (body i)) /\ forall r, keeps R (k r)
  end.

Lemma keeps_bind {St A B} (R : St -> St -> Prop) (p : prog St A) (g : A -> prog St B) :
  keeps R p -> (forall a, keeps R (g a)) -> keeps R (bind p g).
Proof.
  intros Hp Hg. revert Hp.
  induction p as [A a|A X f k IH|A k IH|A I T body _ i k IH]; intros Hp.
  - apply Hg.
  - destruct Hp as [Hf Hk]. split; [done|]. intros x. by apply IH.
  - intros e. apply IH; [done|apply Hp].
  - destruct Hp as [Hb Hk]. split; [done|]. intros r. by apply IH.
Qed.

Lemma keeps_act {St X} (R : St -> St -> Prop) (f : St -> res (X * St)) :
  (forall s x s', f s = Ok (x, s') -> R s s') -> keeps R (act f).
Proof. done. Qed.

Lemma keeps_loop {St I T} (R : St -> St -> Prop) (body : I -> prog St (I + T)) i :
  (forall i, keeps R (body i)) -> keeps R (loop body i).
Proof. done. Qed.

Lemma keeps_true {St A} (p : prog St A) : keeps (fun _ _ => True) p.
Proof. induction p; simpl; auto. Qed.

Lemma keeps_unfold {St A I T} (R : St -> St -> Prop) (body : I -> prog St (I + T)) i (k : T -> prog St A) :
  keeps R (Loop body i k) -> keeps R (unfold_loop body i k).
Proof. intros [Hb Hk]. apply keeps_bind; [apply Hb|]. by intros [j|r]; [split|]. Qed.

(** ** Programs without a faulty access *)

Fixpoint harmless {St A} (p : prog St A) : Prop :=
  match p with
  | Ret _ => True
  | Act f k => (forall s e, f s <> Fail e) /\ forall x, harmless (k x)
  | Ask k => forall e, harmless (k e)
  | Loop body i k => (forall i, harmless (body i)) /\ forall r, harmless (k r)
  end.

Lemma harmless_bind {St A B} (p : prog St A) (g : A -> prog St B) :
  harmless p -> (forall a, harmless (g a)) -> harmless (bind p g).
Proof.
  intros Hp Hg. revert Hp.
  induction p as [A a|A X f k IH|A k IH|A I T body _ i k IH]; intros Hp.
  - apply Hg.
  - destruct Hp as [Hf Hk]. split; [done|]. intros x. by apply IH.
  - intros e. apply IH; [done|apply Hp].
  - destruct Hp as [Hb Hk]. split; [done|]. intros r. by apply IH.
Qed.

Lemma harmless_step {St A} e (p : prog St A) s : harmless p ->
  match step e p s with Some (Ok (p', _)) => harmless p' | Some (Fail _) => False | _ => True end.
Proof.
  destruct p as [a|X f k|k|I R body i k]; simpl; intros H.
  - done.
  - destruct H as [Hf Hk]. specialize (Hf s). destruct (f s) as [[x s']| |e']; [apply Hk|done|by eapply Hf].
  - apply H.
  - destruct H as [Hb Hk]. apply harmless_bind; [apply Hb|]. by intros [j|r]; [split|].
Qed.

Lemma harmless_sched {St A} evs : forall (ts : list (prog St A)) s, Forall harmless ts ->
  match sched evs ts s with PFail _ _ _ => False | _ => True end.
Proof.
  induction evs as [|[t e] evs IH]; intros ts s Hts; simpl; [done|]. unfold pool_step. simpl.
  destruct (ts !! t) as [p|] eqn:Hp; [|done].
  pose proof (harmless_step e p s (Forall_lookup_1 _ _ _ _ Hts Hp)) as Hst.
  destruct (step e p s) as [[[p' s']| |]|]; [|done..]. by apply IH, Forall_insert.
Qed.

(** ** Programs on a component of the state *)

Section Lift.
Context {S St G : Type} (Inv : S -> (nat -> G) -> Prop) (wait0 : S -> G -> Prop) (L : lens S St).

Lemma rs_lift_bind {X Y} n t c (q : prog St X) (k : X -> prog St Y) P Q :
  rs Inv wait0 n t c (lift L q) P ->
  (forall m c' a, (m <= n)%nat -> P c' a -> rs Inv wait0 m t c' (lift L (k a)) Q) ->
  rs Inv wait0 n t c (lift L (bind q k)) Q.
Proof.
  intros Hq Hk. eapply rs_peq; [symmetry; apply lift_bind|]. by eapply rs_bind.
Qed.

Lemma rs_lift_forever {R} n t (J : G -> Prop) (body : prog St (option R)) Q c :
  J c ->
  (forall m c, (m <= n)%nat -> J c -> rs Inv wait0 m t c (lift L body) (fun c' r =>
     match r with Some r => Q c' r | None => J c' end)) ->
  rs Inv wait0 n t c (lift L (forever body)) Q.
Proof.
  intros HJ Hb. apply (rs_loop Inv wait0 n t (fun c _ => J c)); [done|]. intros m c1 [] Hm HJ1.
  eapply rs_lift_bind; [by apply Hb|]. intros m2 c2 [r|] Hm2 H2; apply rs_ret; [|done].
  intros m' Hm'. by apply rs_ret.
Qed.
End Lift.
