(* ===== verification/ParkLot.v ===== *)
(** * The parking lot: [mutex/deadlock.rs]

    Every thread that may sleep has a [ThreadData]; the threads that sleep are in
    linked lists that start in the buckets of a hash table, indexed by a hash of
    the key they sleep on.  The table is replaced by a larger one when threads are
    added.  A thread sleeps on the futex word in its [ThreadData], in the kernel.

    [Lot] is the global state: the two statics, the tables and the thread data in
    memory, and the thread-local pointers.  An access to a table or a [ThreadData]
    that is not in memory is undefined behaviour.  The word-sized lock of a bucket
    appears here through its promise: [lock] waits until it is free, and [unlock]
    must only be called while it is held. *)

From S2P Require Import Prelude Arena Machine Timing ThreadParker Parking.

Module Lot.

Definition LOAD_FACTOR : Z := 3.

(** ** Data *)

Record Bucket : Type := MkBucket {
  mutex : bool;
  queue_head : Z;
  queue_tail : Z;
  fair_timeout : FairTimeout.FairTimeout;
}.

Definition Bucket_new (timeout seed : Z) : Bucket :=
  MkBucket false 0 0 (FairTimeout.new timeout seed).

Record HashTable : Type := MkHashTable {
  entries : list Bucket;
  hash_bits : Z;
  prev_table : Z;
}.

(** What a thread that is asked for a backtrace sends, and what a thread keeps for it:
    [backtrace_sender] is the channel, if there is a request, and the resources of the thread
    are in [Resources].  A [Backtrace] is a value that nothing looks into. *)
Record DeadlockedThread : Type := MkDeadlockedThread {
  report_thread_id : Z;
  report_backtrace : Z;
}.

Record DeadlockData : Type := MkDeadlockData {
  is_deadlocked : bool;
  backtrace_sender : option nat;
  thread_id : Z;
}.

Definition DeadlockData_new (id : Z) : DeadlockData := MkDeadlockData false None id.

Record ThreadData : Type := MkThreadData {
  futex : Z;
  key : Z;
  next_in_queue : Z;
  unpark_token : Z;
  park_token : Z;
  parked_with_timeout : bool;
  deadlock_data : DeadlockData;
}.

Definition deadlocked (d : ThreadData) : bool := is_deadlocked (deadlock_data d).

Definition ThreadData_fresh (id : Z) : ThreadData :=
  MkThreadData 0 0 0 DEFAULT_UNPARK_TOKEN DEFAULT_PARK_TOKEN false (DeadlockData_new id).

(** [tls] is the thread-local [THREAD_DATA] of every thread that has used it;
    [reports] are the channels that are open, with the reports in them. *)
Record Lot : Type := MkLot {
  NUM_THREADS : Z;
  HASHTABLE : Z;
  tables : gmap Z HashTable;
  tds : gmap Z ThreadData;
  tls : gmap nat Z;
  reports : gmap nat (list DeadlockedThread);
}.

Definition Lot_init : Lot := MkLot 0 0 ∅ ∅ ∅ ∅.

Definition set_mutex x b := MkBucket x (queue_head b) (queue_tail b) (fair_timeout b).
Definition set_queue_head x b := MkBucket (mutex b) x (queue_tail b) (fair_timeout b).
Definition set_queue_tail x b := MkBucket (mutex b) (queue_head b) x (fair_timeout b).
Definition set_fair_timeout x b := MkBucket (mutex b) (queue_head b) (queue_tail b) x.
Definition set_entries x t := MkHashTable x (hash_bits t) (prev_table t).
Definition set_futex x d := MkThreadData x (key d) (next_in_queue d) (unpark_token d)
  (park_token d) (parked_with_timeout d) (deadlock_data d).
Definition set_key x d := MkThreadData (futex d) x (next_in_queue d) (unpark_token d)
  (park_token d) (parked_with_timeout d) (deadlock_data d).
Definition set_next x d := MkThreadData (futex d) (key d) x (unpark_token d)
  (park_token d) (parked_with_timeout d) (deadlock_data d).
Definition set_unpark_token x d := MkThreadData (futex d) (key d) (next_in_queue d) x
  (park_token d) (parked_with_timeout d) (deadlock_data d).
Definition set_park_token x d := MkThreadData (futex d) (key d) (next_in_queue d)
  (unpark_token d) x (parked_with_timeout d) (deadlock_data d).
Definition set_parked_with_timeout x d := MkThreadData (futex d) (key d) (next_in_queue d)
  (unpark_token d) (park_token d) x (deadlock_data d).
Definition set_sender x d := MkThreadData (futex d) (key d) (next_in_queue d)
  (unpark_token d) (park_token d) (parked_with_timeout d)
  (MkDeadlockData (deadlocked d) x (thread_id (deadlock_data d))).

Definition set_NUM_THREADS x l :=
  MkLot x (HASHTABLE l) (tables l) (tds l) (tls l) (reports l).
Definition set_HASHTABLE x l :=
  MkLot (NUM_THREADS l) x (tables l) (tds l) (tls l) (reports l).
Definition set_tables x l :=
  MkLot (NUM_THREADS l) (HASHTABLE l) x (tds l) (tls l) (reports l).
Definition set_tds x l :=
  MkLot (NUM_THREADS l) (HASHTABLE l) (tables l) x (tls l) (reports l).
Definition set_tls x l :=
  MkLot (NUM_THREADS l) (HASHTABLE l) (tables l) (tds l) x (reports l).
Definition set_reports x l :=
  MkLot (NUM_THREADS l) (HASHTABLE l) (tables l) (tds l) (tls l) x.

(** ** What the code relies on *)

(** The allocator, for tables. *)
Class TableAlloc : Type := {
  table_malloc : gset Z -> option Z;
  table_room : nat;
  table_malloc_spec X a : table_malloc X = Some a -> (a ∉ X) /\ a <> 0;
  table_malloc_room X : (size X < table_room)%nat -> exists a, table_malloc X = Some a;
}.

(** The address of the thread-local [THREAD_DATA] of a thread, and what the crates
    [thread_id] and [backtrace] tell it: its system thread id, and the backtrace of the
    thread with the data at an address, in a state. *)
Class ThreadLocals : Type := {
  td_addr : nat -> Z;
  thread_id_get : nat -> Z;
  Backtrace_new : Z -> Lot -> Z;
  td_addr_inj t t' : td_addr t = td_addr t' -> t = t';
  td_addr_null t : td_addr t <> 0;
}.

(** ** Memory access *)

Section Memory.
Definition td_read {X} (a : Z) (f : ThreadData -> X) : prog Lot X :=
  act (fun l => match tds l !! a with Some d => Ok (f d, l) | None => Fail UB end).
Definition td_write (a : Z) (f : ThreadData -> ThreadData) : prog Lot () :=
  act (fun l => match tds l !! a with
                | Some d => Ok ((), set_tds (<[a := f d]> (tds l)) l)
                | None => Fail UB
                end).

Definition table_read {X} (p : Z) (f : HashTable -> X) : prog Lot X :=
  act (fun l => match tables l !! p with Some t => Ok (f t, l) | None => Fail UB end).

(** [&'static Bucket]: a table and an index that was checked. *)
Definition bucket_ref : Type := Z * nat.

(** [&table.entries[hash]]. *)
Definition bucket_at (p h : Z) : prog Lot bucket_ref :=
  let! n := table_read p (fun t => length (entries t)) in
  if h <? Z.of_nat n then Ret (p, Z.to_nat h) else fail Panic.

Definition bucket_of (b : bucket_ref) (l : Lot) : option Bucket :=
  match tables l !! b.1 with Some t => entries t !! b.2 | None => None end.
Definition put_bucket (b : bucket_ref) (x : Bucket) (l : Lot) : Lot :=
  set_tables (alter (fun t => set_entries (<[b.2 := x]> (entries t)) t) b.1 (tables l)) l.

Definition bucket_act {X} (b : bucket_ref) (f : Bucket -> res (X * Bucket)) : prog Lot X :=
  act (fun l => match bucket_of b l with
                | Some x => match f x with
                            | Ok (r, x') => Ok (r, put_bucket b x' l)
                            | Block => Block
                            | Fail e => Fail e
                            end
                | None => Fail UB
                end).
Definition bucket_read {X} (b : bucket_ref) (f : Bucket -> X) : prog Lot X :=
  bucket_act b (fun x => Ok (f x, x)).
Definition bucket_write (b : bucket_ref) (f : Bucket -> Bucket) : prog Lot () :=
  bucket_act b (fun x => Ok ((), f x)).

(** [bucket.mutex.lock()] and [unlock()]. *)
Definition bucket_lock (b : bucket_ref) : prog Lot () :=
  bucket_act b (fun x => if mutex x then Block else Ok ((), set_mutex true x)).
Definition bucket_unlock (b : bucket_ref) : prog Lot () :=
  bucket_act b (fun x => if mutex x then Ok ((), set_mutex false x) else Fail UB).
End Memory.

(** ** The futex of a thread *)

Section Futex.
Definition futex_at (a : Z) (l : Lot) : option Z := option_map futex (tds l !! a).
Definition read_futex (a : Z) : prog Lot Z := td_read a futex.
Definition write_futex (a x : Z) : prog Lot () := td_write a (set_futex x).

Definition prepare_park (a : Z) : prog Lot () := Parker.prepare_park write_futex a.
Definition timed_out (a : Z) : prog Lot bool := Parker.timed_out read_futex a.
Definition unpark_lock (a : Z) : prog Lot Z := Parker.unpark_lock write_futex a.
End Futex.

(** ** The hash table *)

Section Table.
Context `{!TableAlloc}.

(** [Box::new], [Box::from_raw] and drop of a table. *)
Definition box_new (t : HashTable) : prog Lot Z :=
  act (fun l => match table_malloc (dom (tables l)) with
                | Some p => Ok (p, set_tables (<[p := t]> (tables l)) l)
                | None => Fail Abort
                end).
Definition box_drop (p : Z) : prog Lot () :=
  act (fun l => match tables l !! p with
                | Some _ => Ok ((), set_tables (delete p (tables l)) l)
                | None => Fail UB
                end).

Definition leading_zeros (w x : Z) : Z := if x =? 0 then w else w - 1 - Z.log2 x.

(** [usize::next_power_of_two], which panics on overflow. *)
Definition next_power_of_two (x : Z) : prog Lot Z :=
  let r := 2 ^ Z.log2_up x in
  if r <? 2 ^ usize then Ret r else fail Panic.

(** The buckets number [i] to [i + n - 1]; their seeds are [i as u32 + 1]. *)
Fixpoint new_entries (now i : Z) (n : nat) : prog Lot (list Bucket) :=
  match n with
  | O => Ret []
  | S n =>
      let! seed := add_w 32 (wrap 32 i) 1 in
      let! es := new_entries now (i + 1) n in
      Ret (Bucket_new now seed :: es)
  end.

Definition HashTable_new (num_threads prev : Z) : prog Lot Z :=
  let! n := umul num_threads LOAD_FACTOR in
  let! new_size := next_power_of_two n in
  let hash_bits := leading_zeros usize 0 - leading_zeros usize new_size - 1 in
  let! now := instant_now in
  let! es := new_entries now 0 (Z.to_nat new_size) in
  box_new (MkHashTable es hash_bits prev).

(** [wrapping_mul], and a shift that panics when it is by 64 or more. *)
Definition hash_of (k bits : Z) : Z :=
  Z.shiftr (wrap usize (k * 0x9E3779B97F4A7C15)) (64 - bits).
Definition hash (k bits : Z) : prog Lot Z :=
  if (0 <? bits) && (bits <=? 64) then Ret (hash_of k bits) else fail Panic.

Definition create_hashtable : prog Lot Z :=
  let! new_table := HashTable_new LOAD_FACTOR 0 in
  let! r := compare_exchange HASHTABLE set_HASHTABLE 0 new_table in
  match r with
  | inl _ => Ret new_table
  | inr old_table => box_drop new_table ;; Ret old_table
  end.

Definition get_hashtable : prog Lot Z :=
  let! table := load HASHTABLE in
  if table =? 0 then create_hashtable else Ret table.

Definition lock_all (p : Z) (n : nat) : prog Lot () :=
  iter_list (fun i => bucket_lock (p, i)) (seq 0 n).
Definition unlock_all (p : Z) (n : nat) : prog Lot () :=
  iter_list (fun i => bucket_unlock (p, i)) (seq 0 n).

(** One pass of the loop: move [current] to the end of its list in [table]. *)
Definition rehash_thread (current table : Z) : prog Lot Z :=
  let! next := td_read current next_in_queue in
  let! k := td_read current key in
  let! bits := table_read table hash_bits in
  let! h := hash k bits in
  let! b := bucket_at table h in
  let! tail := bucket_read b queue_tail in
  (if tail =? 0 then bucket_write b (set_queue_head current)
   else td_write tail (set_next current)) ;;
  bucket_write b (set_queue_tail current) ;;
  td_write current (set_next 0) ;;
  Ret next.

Definition rehash_bucket_into (b : bucket_ref) (table : Z) : prog Lot () :=
  let! current := bucket_read b queue_head in
  loop (fun current =>
    if current =? 0 then Ret (inr ())
    else let! next := rehash_thread current table in Ret (inl next)) current.

(** The loop that locks all buckets of the latest table; [None] if the table is
    large enough. *)
Definition lock_table (num_threads : Z) : prog Lot (option (Z * nat)) :=
  forever (
    let! table := get_hashtable in
    let! len := table_read table (fun t => length (entries t)) in
    let! want := umul LOAD_FACTOR num_threads in
    if want <=? Z.of_nat len then Ret (Some None)
    else
      lock_all table len ;;
      let! cur := load HASHTABLE in
      if cur =? table then Ret (Some (Some (table, len)))
      else unlock_all table len ;; Ret None).

Definition grow_hashtable (num_threads : Z) : prog Lot () :=
  let! r := lock_table num_threads in
  match r with
  | None => Ret ()
  | Some (old_table, len) =>
      let! new_table := HashTable_new num_threads old_table in
      iter_list (fun i => rehash_bucket_into (old_table, i) new_table) (seq 0 len) ;;
      store (set_HASHTABLE new_table) ;;
      unlock_all old_table len
  end.

Definition lock_bucket (k : Z) : prog Lot bucket_ref :=
  forever (
    let! hashtable := get_hashtable in
    let! bits := table_read hashtable hash_bits in
    let! h := hash k bits in
    let! b := bucket_at hashtable h in
    bucket_lock b ;;
    let! cur := load HASHTABLE in
    if cur =? hashtable then Ret (Some b)
    else bucket_unlock b ;; Ret None).

(** [a] is the [ThreadData] whose key it is. *)
Definition lock_bucket_checked (a : Z) : prog Lot (Z * bucket_ref) :=
  forever (
    let! hashtable := get_hashtable in
    let! current_key := td_read a key in
    let! bits := table_read hashtable hash_bits in
    let! h := hash current_key bits in
    let! b := bucket_at hashtable h in
    bucket_lock b ;;
    let! cur := load HASHTABLE in
    let! ok := (if cur =? hashtable then
                  let! k := td_read a key in Ret (k =? current_key)
                else Ret false) in
    if (ok : bool) then Ret (Some (current_key, b))
    else bucket_unlock b ;; Ret None).

(** ** Thread data *)

Context `{!ThreadLocals}.

(** [ThreadData::new], for the thread [me]. *)
Definition ThreadData_new (me : nat) : prog Lot Z :=
  let! n := act (fun l => Ok (NUM_THREADS l,
                              set_NUM_THREADS (wrap usize (NUM_THREADS l + 1)) l)) in
  let! num_threads := uadd n 1 in
  grow_hashtable num_threads ;;
  act (fun l => Ok (td_addr me,
    set_tls (<[me := td_addr me]> (tls l)) (set_tds (<[td_addr me := ThreadData_fresh (thread_id_get me)]> (tds l)) l))).

Definition with_thread_data (me : nat) : prog Lot Z :=
  let! r := load (fun l => tls l !! me) in
  match r with
  | Some a => Ret a
  | None => ThreadData_new me
  end.

(** [Drop for ThreadData], when the thread ends. *)
Definition ThreadData_drop (me : nat) : prog Lot () :=
  let! r := load (fun l => tls l !! me) in
  match r with
  | None => Ret ()
  | Some a =>
      store (fun l => set_NUM_THREADS (wrap usize (NUM_THREADS l - 1)) l) ;;
      store (fun l => set_tls (delete me (tls l)) (set_tds (delete a (tds l)) l))
  end.
End Table.

(** ** Parking and unparking *)

(** [&Cell<*const ThreadData>]: the head of a bucket or the link of a thread. *)
Inductive link : Type :=
| LHead (b : bucket_ref)
| LNext (a : Z).

Definition link_set (k : link) (x : Z) : prog Lot () :=
  match k with
  | LHead b => bucket_write b (set_queue_head x)
  | LNext a => td_write a (set_next x)
  end.

(** Is there an entry for [k] from [scan] on? *)
Definition scan_for (k scan : Z) : prog Lot bool :=
  loop (fun scan =>
    if scan =? 0 then Ret (inr false)
    else
      let! k' := td_read scan key in
      if k' =? k then Ret (inr true)
      else let! next := td_read scan next_in_queue in Ret (inl next)) scan.

(** Take [current] off the list; is there another entry for [k] after it? *)
Definition unlink (k : Z) (b : bucket_ref) (lk : link) (current previous : Z) : prog Lot bool :=
  let! next := td_read current next_in_queue in
  link_set lk next ;;
  let! tail := bucket_read b queue_tail in
  if tail =? current then bucket_write b (set_queue_tail previous) ;; Ret false
  else scan_for k next.

(** Append the thread data [a] to the queue of the bucket. *)
Definition append (a k : Z) (b : bucket_ref) (token : Z) (timeout : option Z)
    : prog Lot () :=
  td_write a (set_parked_with_timeout (is_some timeout)) ;;
  td_write a (set_next 0) ;;
  td_write a (set_key k) ;;
  td_write a (set_park_token token) ;;
  prepare_park a ;;
  let! head := bucket_read b queue_head in
  (if negb (head =? 0) then
     let! tail := bucket_read b queue_tail in td_write tail (set_next a)
   else bucket_write b (set_queue_head a)) ;;
  bucket_write b (set_queue_tail a).

(** The loop of [park] that removes the thread data [a] after a timeout: was it
    the last entry for [k]?  [None] if it is not in the queue. *)
Definition self_pass (a k : Z) (b : bucket_ref) (v : link * Z * Z * bool)
    : prog Lot (link * Z * Z * bool + option bool) :=
  let '(lk, current, previous, was_last_thread) := v in
  if current =? 0 then Ret (inr None)
  else if current =? a then
    let! more := unlink k b lk current previous in
    Ret (inr (Some (if (more : bool) then false else was_last_thread)))
  else
    let! k' := td_read current key in
    let was_last_thread := if k' =? k then false else was_last_thread in
    let! next := td_read current next_in_queue in
    Ret (inl (LNext current, next, current, was_last_thread)).
Definition remove_self (a k : Z) (b : bucket_ref) : prog Lot (option bool) :=
  let! current := bucket_read b queue_head in
  loop (self_pass a k b) (LHead b, current, 0, true).

(** The loop of [unpark_one] that takes the first thread with key [k] off the
    queue; with it, whether more threads have that key. *)
Definition take_pass (k : Z) (b : bucket_ref) (v : link * Z * Z)
    : prog Lot (link * Z * Z + option (Z * bool)) :=
  let '(lk, current, previous) := v in
  if current =? 0 then Ret (inr None)
  else
    let! k' := td_read current key in
    if k' =? k then
      let! more := unlink k b lk current previous in
      Ret (inr (Some (current, more)))
    else
      let! next := td_read current next_in_queue in
      Ret (inl (LNext current, next, current)).
Definition take_thread (k : Z) (b : bucket_ref) : prog Lot (option (Z * bool)) :=
  let! current := bucket_read b queue_head in
  loop (take_pass k b) (LHead b, current, 0).

(** [should_timeout] of the [fair_timeout] of the bucket. *)
Definition fair (b : bucket_ref) : prog Lot bool :=
  let! now := instant_now in
  bucket_act b (fun x =>
    let '(r, f) := FairTimeout.should_timeout now (fair_timeout x) in
    Ok (r, set_fair_timeout f x)).

Section Operations.
Context `{!TableAlloc} `{!ThreadLocals} `{KK : Kernel}.
Context {St : Type} (L : lens St Lot) (K : lens St waiters).

(** The futex of a thread, for the parker. *)
Definition word_at (a : Z) (s : St) : option Z := futex_at a (lget L s).
Definition read_word (a : Z) : prog St Z := lift L (read_futex a).

Definition parker_park (a : Z) : prog St () := Parker.park K word_at read_word a.
Definition park_until (a timeout : Z) : prog St bool := Parker.park_until K word_at read_word a timeout.
Definition unpark (handle : Z) : prog St () := Parker.unpark K handle.

(** [sender.send(..).unwrap()] of the report of the thread with the data at [a]: fails if
    the channel has no receiver. *)
Definition send_report (c : nat) (a id : Z) : prog Lot () :=
  act (fun l => match reports l !! c with
                | Some r => Ok ((), set_reports
                    (<[c := r ++ [MkDeadlockedThread id (Backtrace_new a l)]]> (reports l)) l)
                | None => Fail Panic
                end).

Definition on_unpark (a : Z) : prog St () :=
  let! d := lift L (td_read a deadlocked) in
  if (d : bool) then
    let! o := lift L (td_read a (fun d => backtrace_sender (deadlock_data d))) in
    lift L (td_write a (set_sender None)) ;;
    match o with
    | None => fail Panic
    | Some c =>
        let! id := lift L (td_read a (fun d => thread_id (deadlock_data d))) in
        lift L (send_report c a id)
    end ;;
    lift L (prepare_park a) ;;
    parker_park a ;;
    fail Panic
  else Ret ().

Definition park (me : nat) (k : Z) (validate : prog St bool) (before_sleep : prog St ())
    (timed_out_cb : Z -> bool -> prog St ()) (token : Z) (timeout : option Z)
    : prog St ParkResult :=
  let! a := lift L (with_thread_data me) in
  let! b := lift L (lock_bucket k) in
  let! v := validate in
  if negb v then lift L (bucket_unlock b) ;; Ret Invalid
  else
    lift L (append a k b token timeout) ;;
    lift L (bucket_unlock b) ;;
    before_sleep ;;
    let! unparked := match timeout with
      | Some timeout => park_until a timeout
      | None => parker_park a ;; on_unpark a ;; Ret true
      end in
    if (unparked : bool) then let! t := lift L (td_read a unpark_token) in Ret (Unparked t)
    else
      let! re := lift L (lock_bucket_checked a) in
      let '(k, b) := re in
      let! late := lift L (timed_out a) in
      if negb late then
        lift L (bucket_unlock b) ;;
        let! t := lift L (td_read a unpark_token) in Ret (Unparked t)
      else
        let! r := lift L (remove_self a k b) in
        match r with
        | Some was_last_thread => timed_out_cb k was_last_thread
        | None => fail Panic
        end ;;
        lift L (bucket_unlock b) ;;
        Ret TimedOut.

Definition unpark_one (k : Z) (callback : UnparkResult -> prog St Z) : prog St UnparkResult :=
  let! b := lift L (lock_bucket k) in
  let! r := lift L (take_thread k b) in
  match r with
  | Some (current, more) =>
      let! f := lift L (fair b) in
      let result := MkUnparkResult 1 0 more f in
      let! token := callback result in
      lift L (td_write current (set_unpark_token token)) ;;
      let! handle := lift L (unpark_lock current) in
      lift L (bucket_unlock b) ;;
      unpark handle ;;
      Ret result
  | None =>
      callback UnparkResult_default ;;
      lift L (bucket_unlock b) ;;
      Ret UnparkResult_default
  end.

#[export] Instance Lot_lot : ParkingLot St :=
  {| Parking.park := park; Parking.unpark_one := fun _ => unpark_one |}.
End Operations.

(** ** Concrete instances of what the code relies on

    The allocator of [Arena] and thread-locals in a row. *)

#[export, refine] Instance arena_tables : TableAlloc :=
  {| table_malloc := arena_malloc; table_room := 64 |}.
Proof.
  - intros Y a H. apply arena_malloc_spec in H as (? & ? & _). split; [done|lia].
  - apply arena_malloc_room.
Defined.

#[export, refine] Instance row_locals : ThreadLocals := {|
  td_addr t := 64 * (Z.of_nat t + 1);
  thread_id_get t := Z.of_nat t;
  Backtrace_new a l := 0;
|}.
Proof. all: intros; lia. Defined.

End Lot.
