(* ===== verification/ParkQueue.v ===== *)
(** * The queues of the parking lot

    The linked list of a bucket as a list of (thread, key) pairs, and what the
    loops of [park] and [unpark_one] do to it. *)

From S2P Require Import Prelude Machine Timing Parking ParkLot.
Import Lot.

(** ** Memory access *)

Section Access.
Implicit Types (l : Lot) (n : nat).

Lemma twp_td_read {X} n a (f : ThreadData -> X) l d Q :
  tds l !! a = Some d -> Q n (f d) l -> twp n (td_read a f) l Q.
Proof. intros Hd HQ. eapply twp_act'; [|exact HQ]. simpl. by rewrite Hd. Qed.

Lemma twp_td_write n a f l d (Q : nat -> () -> Lot -> Prop) :
  tds l !! a = Some d -> Q n () (set_tds (<[a := f d]> (tds l)) l) -> twp n (td_write a f) l Q.
Proof. intros Hd HQ. eapply twp_act'; [|exact HQ]. simpl. by rewrite Hd. Qed.

Lemma twp_table_read {X} n p (f : HashTable -> X) l t Q :
  tables l !! p = Some t -> Q n (f t) l -> twp n (table_read p f) l Q.
Proof. intros Ht HQ. eapply twp_act'; [|exact HQ]. simpl. by rewrite Ht. Qed.

Lemma twp_bucket_act {X} n b (f : Bucket -> res (X * Bucket)) l x r x' (Q : nat -> X -> Lot -> Prop) :
  bucket_of b l = Some x -> f x = Ok (r, x') -> Q n r (put_bucket b x' l) ->
  twp n (bucket_act b f) l Q.
Proof. intros Hx Hf HQ. eapply twp_act'; [|exact HQ]. simpl. by rewrite Hx, Hf. Qed.

Lemma put_bucket_id b x l : bucket_of b l = Some x -> put_bucket b x l = l.
Proof.
  unfold bucket_of, put_bucket. destruct b as [p i], l as [nt ht ts td tl rp]; simpl.
  destruct (ts !! p) as [t|] eqn:Ht; [|done]. intros Hi. unfold set_tables. simpl. f_equal.
  apply map_eq. intros q. destruct (decide (q = p)) as [->|Hne].
  - rewrite !lookup_alter_eq, Ht. simpl. f_equal. by destruct t; unfold set_entries; simpl in *; rewrite list_insert_id.
  - by rewrite !lookup_alter_ne.
Qed.

Lemma twp_bucket_read {X} n b (f : Bucket -> X) l x Q :
  bucket_of b l = Some x -> Q n (f x) l -> twp n (bucket_read b f) l Q.
Proof.
  intros Hx HQ. eapply twp_bucket_act; [done..|]. by rewrite put_bucket_id.
Qed.

Lemma twp_bucket_write n b f l x (Q : nat -> () -> Lot -> Prop) :
  bucket_of b l = Some x -> Q n () (put_bucket b (f x) l) -> twp n (bucket_write b f) l Q.
Proof. intros Hx HQ. by eapply twp_bucket_act. Qed.

Lemma bucket_of_put b x y l : bucket_of b l = Some y -> bucket_of b (put_bucket b x l) = Some x.
Proof.
  unfold bucket_of, put_bucket. destruct b as [p i]; simpl.
  destruct (tables l !! p) as [t|] eqn:Ht; [|done]. intros Hi.
  rewrite lookup_alter_eq, Ht. simpl. apply list_lookup_insert_eq. by eapply lookup_lt_Some.
Qed.

Lemma put_bucket_put b x y l : put_bucket b x (put_bucket b y l) = put_bucket b x l.
Proof.
  destruct b as [p i], l as [nt ht ts td tl rp]. unfold put_bucket, set_tables; simpl. f_equal.
  apply map_eq. intros q. destruct (decide (q = p)) as [->|Hne].
  - rewrite !lookup_alter_eq. destruct (ts !! p) as [t|]; [|done]. simpl.
    unfold set_entries. simpl. by rewrite list_insert_insert_eq.
  - by rewrite !lookup_alter_ne.
Qed.
End Access.

(** ** Lists *)

Section Lists.
Context `{!ThreadLocals}.
Implicit Types (l : Lot) (m : gmap Z ThreadData) (q : list (nat * Z)).

(** The list from [h] to [e] is [q]; its threads are asleep, or about to be. *)
Fixpoint seg m (h : Z) q (e : Z) : Prop :=
  match q with
  | [] => h = e
  | (t, k) :: q => h = td_addr t /\ exists d, m !! td_addr t = Some d /\
      key d = k /\ futex d = 1 /\ seg m (next_in_queue d) q e
  end.

Definition last_addr q : Z :=
  match last q with Some (t, _) => td_addr t | None => 0 end.

(** The queue of a bucket. *)
Definition queue_ok m (x : Bucket) q : Prop :=
  seg m (queue_head x) q 0 /\ queue_tail x = last_addr q.

(** The link that points to what follows [q]. *)
Definition link_after (b : bucket_ref) q : link :=
  match last q with Some (t, _) => LNext (td_addr t) | None => LHead b end.

(** [m'] is [m] with other links in the threads of [q]. *)
Definition relinked m m' q : Prop :=
  forall a, m' !! a = m !! a \/
    exists t k d nx, (t, k) ∈ q /\ a = td_addr t /\ m !! a = Some d /\ m' !! a = Some (set_next nx d).

Lemma td_addr_eqb t t' : (td_addr t =? td_addr t') = bool_decide (t = t').
Proof.
  destruct (Z.eqb_spec (td_addr t) (td_addr t')) as [E|E]; case_bool_decide; try done.
  - by apply td_addr_inj in E.
  - by subst.
Qed.

Lemma seg_frame m m' h q e :
  (forall t k, (t, k) ∈ q -> m' !! td_addr t = m !! td_addr t) -> seg m h q e -> seg m' h q e.
Proof.
  revert h. induction q as [|[t k] q IH]; [done|]. intros h Hm [-> (d & Hd & Hk & Hf & Hc)].
  split; [done|]. exists d. rewrite (Hm t k) by set_solver. split_and!; [done..|].
  apply IH; [|done]. intros t' k' Hin. apply (Hm t' k'). set_solver.
Qed.

Lemma seg_app m h q q' e : seg m h (q ++ q') e <-> exists x, seg m h q x /\ seg m x q' e.
Proof.
  revert h. induction q as [|[t k] q IH]; intros h; simpl.
  - split; [eauto|]. by intros (x & -> & ?).
  - split.
    + intros [-> (d & Hd & Hk & Hf & Hc)]. apply IH in Hc as (x & Hx & He). eauto 10.
    + intros (x & [-> (d & Hd & Hk & Hf & Hc)] & He). split; [done|]. exists d.
      split_and!; [done..|]. apply IH. eauto.
Qed.

Lemma seg_in m h q e t k : seg m h q e -> (t, k) ∈ q ->
  exists d, m !! td_addr t = Some d /\ key d = k /\ futex d = 1.
Proof.
  revert h. induction q as [|[t' k'] q IH]; intros h; [set_solver|].
  intros [-> (d & Hd & Hk & Hf & Hc)] Hin. apply elem_of_cons in Hin as [Heq|Hin]; [|eauto].
  simplify_eq. eauto.
Qed.

(** Changing the end of a segment. *)
Lemma seg_relink m h q t k x y d :
  NoDup (q ++ [(t, k)]).*1 -> seg m h (q ++ [(t, k)]) x -> m !! td_addr t = Some d ->
  seg (<[td_addr t := set_next y d]> m) h (q ++ [(t, k)]) y.
Proof.
  intros Hnd Hs Hd. apply seg_app in Hs as (z & Hq & -> & d' & Hd' & Hk & Hf & Hx). simplify_eq.
  apply seg_app. exists (td_addr t). split.
  - eapply seg_frame; [|done]. intros t' k' Hin. apply lookup_insert_ne.
    intros E. apply td_addr_inj in E as <-. rewrite fmap_app in Hnd.
    apply NoDup_app in Hnd as (_ & Hn & _). apply (Hn t); [|set_solver].
    apply list_elem_of_fmap. by exists (t, k').
  - split; [done|]. eexists. by rewrite lookup_insert_eq.
Qed.

Lemma last_addr_snoc q t k : last_addr (q ++ [(t, k)]) = td_addr t.
Proof. unfold last_addr. by rewrite last_snoc. Qed.

Lemma last_addr_cons e q : q <> [] -> last_addr (e :: q) = last_addr q.
Proof. by destruct q. Qed.

Lemma last_addr_in q : q <> [] -> exists t k, (t, k) ∈ q /\ last_addr q = td_addr t.
Proof.
  intros Hq. destruct (last q) as [[t k]|] eqn:E; [|by apply last_None in E].
  exists t, k. unfold last_addr. rewrite E. split; [|done].
  apply last_Some in E as [q' ->]. set_solver.
Qed.

(** *** The loops *)

Lemma scan_for_ok n k h q l (Q : nat -> bool -> Lot -> Prop) :
  seg (tds l) h q 0 -> Q n (waits_for k q) l -> twp n (scan_for k h) l Q.
Proof.
  intros Hs HQ. unfold scan_for, loop. revert h Hs HQ.
  induction q as [|[t k'] q IH]; intros h Hs HQ; simpl in Hs; apply twp_loop; unfold unfold_loop.
  - subst. simpl. by wp.
  - destruct Hs as [-> (d & Hd & Hk & Hf & Hs)].
    rewrite (proj2 (Z.eqb_neq _ _) (td_addr_null t)).
    apply twp_bind, twp_bind. eapply twp_td_read; [done|]. rewrite Hk.
    simpl in HQ. destruct (k' =? k); [by wp|]. wp_step.
    eapply twp_td_read; [done|]. wp. by apply IH.
Qed.

(** What taking threads off a queue, or appending one, does to the lot. *)
Definition requeued (b : bucket_ref) (l l' : Lot) (q q' : list (nat * Z)) : Prop :=
  exists x x' m', bucket_of b l = Some x /\ l' = set_tds m' (put_bucket b x' l) /\
    mutex x' = mutex x /\ fair_timeout x' = fair_timeout x /\
    queue_ok m' x' q' /\ relinked (tds l) m' q.

Lemma link_set_ok n b pre h y l x (Q : nat -> () -> Lot -> Prop) :
  bucket_of b l = Some x -> seg (tds l) (queue_head x) pre h -> NoDup pre.*1 ->
  (forall x' m', mutex x' = mutex x -> fair_timeout x' = fair_timeout x ->
     queue_tail x' = queue_tail x -> seg m' (queue_head x') pre y ->
     relinked (tds l) m' pre -> Q n () (set_tds m' (put_bucket b x' l))) ->
  twp n (link_set (link_after b pre) y) l Q.
Proof.
  intros Hx Hs Hnd HQ. unfold link_after. destruct (last pre) as [[t k]|] eqn:E.
  - apply last_Some in E as [pre' ->].
    destruct (seg_in _ _ _ _ t k Hs) as (d & Hd & _); [set_solver|].
    eapply twp_td_write; [done|]. rewrite <- (put_bucket_id b x l) at 2 by done.
    apply HQ; [done..|by eapply seg_relink|].
    intros a. destruct (decide (a = td_addr t)) as [->|Hne].
    + right. exists t, k, d, y. rewrite lookup_insert_eq. set_solver.
    + left. by apply lookup_insert_ne.
  - apply last_None in E as ->. simpl in Hs. eapply twp_bucket_write; [done|].
    assert (Hl : forall l', set_tds (tds l') l' = l') by by intros [].
    rewrite <- (Hl (put_bucket _ _ _)). apply HQ; [done..|by left].
Qed.

Lemma relinked_in m m' q q' : q ⊆ q' -> relinked m m' q -> relinked m m' q'.
Proof.
  intros Hq Hr a. destruct (Hr a) as [|(t & k & d & nx & Hin & ?)]; [by left|].
  right. exists t, k, d, nx. by split; [apply Hq|].
Qed.

(** A thread outside [q] is as before. *)
Lemma relinked_out m m' q t : relinked m m' q -> t ∉ q.*1 -> m' !! td_addr t = m !! td_addr t.
Proof.
  intros Hr Ht. destruct (Hr (td_addr t)) as [|(t' & k & d & nx & Hin & E & _)]; [done|].
  apply td_addr_inj in E as <-. exfalso. apply Ht, list_elem_of_fmap. by exists (t, k).
Qed.

Lemma relinked_deadlocked m m' q a d : relinked m m' q -> m !! a = Some d -> deadlocked d = false ->
  exists d', m' !! a = Some d' /\ deadlocked d' = false.
Proof.
  intros Hr Hd Hdl. destruct (Hr a) as [->|(? & ? & d' & nx & _ & _ & Hd' & Hn)]; [eauto|].
  simplify_eq. eauto.
Qed.

Lemma unlink_ok n k b pre t k0 post l x (Q : nat -> bool -> Lot -> Prop) :
  let q := pre ++ (t, k0) :: post in
  bucket_of b l = Some x -> queue_ok (tds l) x q -> NoDup q.*1 ->
  (forall l', requeued b l l' q (pre ++ post) -> Q n (waits_for k post) l') ->
  twp n (unlink k b (link_after b pre) (td_addr t) (last_addr pre)) l Q.
Proof.
  intros q Hx [Hs Ht] Hnd HQ. unfold q in *.
  apply seg_app in Hs as (z & Hpre & -> & d & Hd & _ & _ & Hpost).
  rewrite fmap_app in Hnd. apply NoDup_app in Hnd as (Hn1 & Hn2 & Hn3).
  apply NoDup_cons in Hn3 as [Hn3 _].
  assert (Hn4 : forall k1, (t, k1) ∉ post).
  { intros k1 Hin. apply Hn3, list_elem_of_fmap. by exists (t, k1). }
  unfold unlink. wp_step.
  eapply twp_td_read; [done|]. wp_step.
  eapply link_set_ok; [done..|]. intros x' m' Hmx Hfx Htx Hs' Hrel. wp_step.
  assert (Hx' : bucket_of b (set_tds m' (put_bucket b x' l)) = Some x')
    by by eapply bucket_of_put.
  assert (Hpost' : seg m' (next_in_queue d) post 0).
  { eapply seg_frame; [|done]. intros t' k' Hin. eapply relinked_out; [done|].
    intros Hp. eapply Hn2; [done|]. apply elem_of_cons. right.
    apply list_elem_of_fmap. by exists (t', k'). }
  assert (Hrel' : relinked (tds l) m' (pre ++ (t, k0) :: post))
    by (eapply relinked_in; [|done]; set_solver).
  eapply twp_bucket_read; [done|]. rewrite Htx, Ht.
  destruct post as [|e post].
  - simpl in Hpost'. rewrite last_addr_snoc, Z.eqb_refl. wp_step.
    eapply twp_bucket_write; [done|]. wp. apply HQ.
    exists x, (set_queue_tail (last_addr pre) x'), m'.
    split_and!; try done.
    + by rewrite <- (put_bucket_put b (set_queue_tail (last_addr pre) x') x' l).
    + rewrite app_nil_r. split; [|done]. by rewrite Hpost' in Hs'.
  - destruct (last_addr_in (e :: post)) as (t1 & k1 & Hin & Hl); [done|].
    replace (last_addr (pre ++ (t, k0) :: e :: post)) with (last_addr (e :: post))
      by (unfold last_addr; by rewrite !last_app_cons).
    rewrite Hl, td_addr_eqb, bool_decide_eq_false_2.
    + eapply scan_for_ok; [done|]. apply HQ. exists x, x', m'. split_and!; try done.
      split; [apply seg_app; eauto|]. rewrite Htx, Ht. unfold last_addr. by rewrite !last_app_cons.
    + intros ->. by apply (Hn4 k1).
Qed.

Lemma take_first_app k q q' : waits_for k q = false ->
  take_first k (q ++ q') = (fun '(t, r) => (t, q ++ r)) <$> take_first k q'.
Proof.
  induction q as [|[t k'] q IH]; simpl; [by destruct (take_first k q') as [[]|]|].
  rewrite orb_false_iff. intros [-> Hw]. rewrite IH by done.
  by destruct (take_first k q') as [[]|].
Qed.

Lemma waits_for_app k q q' : waits_for k (q ++ q') = waits_for k q || waits_for k q'.
Proof. apply existsb_app. Qed.

Lemma link_after_snoc b q t k : link_after b (q ++ [(t, k)]) = LNext (td_addr t).
Proof. unfold link_after. by rewrite last_snoc. Qed.

(** [unpark_one] takes the first thread that waits for the key. *)
Lemma take_loop_ok n k b q : forall pre l x h (Q : nat -> option (Z * bool) -> Lot -> Prop),
  bucket_of b l = Some x -> queue_ok (tds l) x (pre ++ q) -> NoDup (pre ++ q).*1 ->
  seg (tds l) h q 0 -> waits_for k pre = false ->
  match take_first k (pre ++ q) with
  | Some (t, rest) => forall l', requeued b l l' (pre ++ q) rest ->
      Q n (Some (td_addr t, waits_for k rest)) l'
  | None => Q n None l
  end ->
  twp n (loop (take_pass k b) (link_after b pre, h, last_addr pre)) l Q.
Proof.
  unfold loop.
  induction q as [|[t k'] q IH]; intros pre l x h Q Hx Hq Hnd Hs Hw HQ; apply twp_loop;
    unfold unfold_loop; simpl take_pass; rewrite take_first_app in HQ by done.
  - simpl in Hs. subst h. by wp.
  - destruct Hs as [-> (d & Hd & Hk & Hf & Hs)].
    rewrite (proj2 (Z.eqb_neq _ _) (td_addr_null t)).
    apply twp_bind, twp_bind. eapply twp_td_read; [done|]. rewrite Hk.
    simpl in HQ. destruct (k' =? k) eqn:E.
    + wp_step. eapply unlink_ok; [done..|]. intros l' Hl'. wp. simpl in HQ.
      specialize (HQ l' Hl'). by rewrite waits_for_app, Hw in HQ.
    + wp_step. eapply twp_td_read; [done|]. wp.
      rewrite <- (link_after_snoc b pre t k'), <- (last_addr_snoc pre t k') at 1.
      eapply IH; [done|by rewrite <- app_assoc..|done| |].
      * rewrite waits_for_app, Hw. simpl. by rewrite E.
      * rewrite <- app_assoc, take_first_app by done. simpl. rewrite E. done.
Qed.

Lemma take_thread_ok n k b q l x (Q : nat -> option (Z * bool) -> Lot -> Prop) :
  bucket_of b l = Some x -> queue_ok (tds l) x q -> NoDup q.*1 ->
  match take_first k q with
  | Some (t, rest) => forall l', requeued b l l' q rest ->
      Q n (Some (td_addr t, waits_for k rest)) l'
  | None => Q n None l
  end ->
  twp n (take_thread k b) l Q.
Proof.
  intros Hx Hq Hnd HQ. unfold take_thread. wp_step. eapply twp_bucket_read; [done|].
  apply (take_loop_ok _ _ _ q []) with (x := x); try done. apply Hq.
Qed.

Lemma remove_thread_out t q : t ∉ q.*1 -> remove_thread t q = q.
Proof.
  unfold remove_thread. induction q as [|e q IH]; [done|]. rewrite fmap_cons, not_elem_of_cons.
  intros [Hne Hq]. rewrite filter_cons_True by done. by rewrite IH.
Qed.

(** [park] takes its own thread off after a timeout. *)
Lemma self_loop_ok n t k b q : forall pre l x h k0 (Q : nat -> option bool -> Lot -> Prop),
  bucket_of b l = Some x -> queue_ok (tds l) x (pre ++ q) -> NoDup (pre ++ q).*1 ->
  seg (tds l) h q 0 -> (t, k0) ∈ q ->
  (forall l', requeued b l l' (pre ++ q) (remove_thread t (pre ++ q)) ->
     Q n (Some (negb (waits_for k (remove_thread t (pre ++ q))))) l') ->
  twp n (loop (self_pass (td_addr t) k b)
           (link_after b pre, h, last_addr pre, negb (waits_for k pre))) l Q.
Proof.
  unfold loop.
  induction q as [|[t' k'] q IH]; intros pre l x h k0 Q Hx Hq Hnd Hs Hin HQ; [set_solver|].
  apply twp_loop; unfold unfold_loop; simpl self_pass.
  destruct Hs as [-> (d & Hd & Hk & Hf & Hs)].
  rewrite (proj2 (Z.eqb_neq _ _) (td_addr_null t')), td_addr_eqb.
  case_bool_decide as E.
  - subst t'. do 2 wp_step. eapply unlink_ok; [done..|]. intros l' Hl'. wp.
    assert (Hr : remove_thread t (pre ++ (t, k') :: q) = pre ++ q).
    { rewrite fmap_app in Hnd. apply NoDup_app in Hnd as (_ & Hp & Hnd).
      apply NoDup_cons in Hnd as [Hnq _]. unfold remove_thread.
      rewrite filter_app, filter_cons_False by (simpl; tauto).
      f_equal; apply remove_thread_out; [|done]. intros Ht. apply (Hp t Ht). set_solver. }
    specialize (HQ l'). rewrite Hr in HQ. specialize (HQ Hl').
    rewrite waits_for_app, negb_orb in HQ.
    destruct (waits_for k q), (waits_for k pre); done.
  - apply twp_bind, twp_bind. eapply twp_td_read; [done|]. rewrite Hk. wp_step.
    eapply twp_td_read; [done|]. wp.
    rewrite <- (link_after_snoc b pre t' k'), <- (last_addr_snoc pre t' k') at 1.
    replace (if k' =? k then false else negb (waits_for k pre))
      with (negb (waits_for k (pre ++ [(t', k')]))).
    + eapply IH; [done|by rewrite <- app_assoc..|done| |by rewrite <- app_assoc].
      apply elem_of_cons in Hin as [Heq|]; [|done]. by simplify_eq.
    + rewrite waits_for_app. simpl. rewrite orb_false_r, negb_orb.
      by destruct (k' =? k), (waits_for k pre).
Qed.

Lemma remove_self_ok n t k k0 b q l x (Q : nat -> option bool -> Lot -> Prop) :
  bucket_of b l = Some x -> queue_ok (tds l) x q -> NoDup q.*1 -> (t, k0) ∈ q ->
  (forall l', requeued b l l' q (remove_thread t q) ->
     Q n (Some (negb (waits_for k (remove_thread t q)))) l') ->
  twp n (remove_self (td_addr t) k b) l Q.
Proof.
  intros Hx Hq Hnd Hin HQ. unfold remove_self. wp_step. eapply twp_bucket_read; [done|].
  eapply (self_loop_ok _ _ _ _ q []); try done. apply Hq.
Qed.

(** The thread data of a thread that goes to sleep. *)
Definition asleep (k token : Z) (timeout : option Z) (d : ThreadData) : ThreadData :=
  MkThreadData 1 k 0 (unpark_token d) token (is_some timeout) (deadlock_data d).

Lemma seg_head m h q : seg m h q 0 -> (h =? 0) = bool_decide (q = []).
Proof.
  destruct q as [|[t k] q]; simpl; [by intros ->|]. intros [-> _].
  apply Z.eqb_neq, td_addr_null.
Qed.

Lemma append_ok n t k b token timeout q l x d (Q : nat -> () -> Lot -> Prop) :
  let l1 := set_tds (<[td_addr t := asleep k token timeout d]> (tds l)) l in
  bucket_of b l = Some x -> queue_ok (tds l) x q -> NoDup q.*1 -> t ∉ q.*1 ->
  tds l !! td_addr t = Some d ->
  (forall l', requeued b l1 l' q (q ++ [(t, k)]) -> Q n () l') ->
  twp n (append (td_addr t) k b token timeout) l Q.
Proof.
  intros l1 Hx [Hs Ht] Hnd Hout Hd HQ. unfold append, prepare_park.
  do 5 (wp_step; eapply twp_td_write; [simpl; by rewrite ?lookup_insert_eq|]; simpl).
  rewrite !insert_insert_eq.
  match goal with |- twp _ _ ?s _ => change s with l1 end.
  assert (Hx1 : bucket_of b l1 = Some x) by done.
  assert (Hs1 : seg (tds l1) (queue_head x) q 0).
  { eapply seg_frame; [|done]. intros t' k' Hin. apply lookup_insert_ne.
    intros E. apply td_addr_inj in E as <-. apply Hout, list_elem_of_fmap. by exists (t, k'). }
  wp_step. eapply twp_bucket_read; [done|]. wp_step.
  assert (Hlink : forall Q', twp n (link_set (link_after b q) (td_addr t)) l1 Q' ->
    twp n (if negb (queue_head x =? 0) then let! tail := bucket_read b queue_tail in
             td_write tail (set_next (td_addr t))
           else bucket_write b (set_queue_head (td_addr t))) l1 Q').
  { intros Q'. rewrite (seg_head _ _ _ Hs1). destruct q as [|e q] using rev_ind; [done|].
    rewrite bool_decide_eq_false_2 by by destruct q. destruct e as [t' k']. simpl.
    rewrite link_after_snoc. intros Hw. wp_step. eapply twp_bucket_read; [done|].
    by rewrite Ht, last_addr_snoc. }
  apply Hlink. eapply link_set_ok; [done..|]. intros x' m' Hm Hf Htl Hq Hr.
  eapply twp_bucket_write; [by eapply bucket_of_put|]. apply HQ.
  exists x, (set_queue_tail (td_addr t) x'), m'. split_and!; try done.
  - by rewrite <- (put_bucket_put b (set_queue_tail (td_addr t) x') x' l1).
  - split; [|by rewrite last_addr_snoc]. apply seg_app. exists (td_addr t). split; [done|].
    split; [done|]. rewrite (relinked_out _ _ _ _ Hr Hout). simpl. rewrite lookup_insert_eq.
    by eexists.
Qed.
End Lists.
