(* ===== verification/ParkTable.v ===== *)
(** * The hash table of the parking lot

    Tables have a power of two of buckets, at least three per thread, with usable
    seeds; a hash is always an index.  [lot_is] is the invariant of the parking lot:
    the buckets of the current table hold the waiting threads, each in the bucket
    of its key. *)

From S2P Require Import Prelude Machine Solo Timing Parking ParkLot ParkQueue.
Import Lot.

(** ** New tables *)

Definition table_ok (t : HashTable) : Prop :=
  1 <= hash_bits t <= 31 /\ Z.of_nat (length (entries t)) = 2 ^ hash_bits t /\
  Forall (fun x => FairTimeout.seed_ok (FairTimeout.seed (fair_timeout x))) (entries t).

Definition empty_bucket (x : Bucket) : Prop :=
  mutex x = false /\ queue_head x = 0 /\ queue_tail x = 0.

Lemma hash_of_range k bits : 1 <= bits <= 64 -> 0 <= hash_of k bits < 2 ^ bits.
Proof.
  intros Hb. unfold hash_of. rewrite Z.shiftr_div_pow2 by lia.
  destruct (wrap_range usize (k * 0x9E3779B97F4A7C15)) as [H0 H1]; [done|].
  assert (Hp : 0 < 2 ^ (64 - bits)) by (apply Z.pow_pos_nonneg; lia).
  split; [apply Z.div_pos; lia|]. apply Z.div_lt_upper_bound; [done|].
  rewrite <- Z.pow_add_r by lia. replace (64 - bits + bits) with usize by (unfold usize; lia). done.
Qed.

Lemma new_entries_ok n now : forall c i l (Q : nat -> list Bucket -> Lot -> Prop),
  0 <= i -> i + Z.of_nat c <= 2 ^ 31 ->
  (forall es, length es = c -> Forall (fun x => empty_bucket x /\
     FairTimeout.seed_ok (FairTimeout.seed (fair_timeout x))) es -> Q n es l) ->
  twp n (new_entries now i c) l Q.
Proof.
  induction c as [|c IH]; intros i l Q H0 Hle HQ; simpl.
  - wp. by apply HQ.
  - wp_step. rewrite wrap_small by (unfold in_width; lia). apply twp_add_w; [lia|]. wp_step.
    apply IH; [lia|lia|]. intros es Hl He. wp. apply HQ; [simpl; lia|].
    constructor; [|done]. split; [done|]. split; [unfold in_width|]; simpl; lia.
Qed.

Section Table.
Context `{!TableAlloc}.

Lemma HashTable_new_ok n num prev l (Q : nat -> Z -> Lot -> Prop) :
  1 <= num <= 2 ^ 29 -> (size (tables l) < table_room)%nat ->
  (forall m p t, (m <= n)%nat -> p ∉ dom (tables l) -> p <> 0 -> table_ok t ->
     3 * num <= Z.of_nat (length (entries t)) -> Forall empty_bucket (entries t) ->
     prev_table t = prev -> Q m p (set_tables (<[p := t]> (tables l)) l)) ->
  twp n (HashTable_new num prev) l Q.
Proof.
  intros Hnum Hroom HQ. unfold HashTable_new, LOAD_FACTOR. wp_step.
  apply twp_umul; [unfold usize; lia|]. wp_step. unfold next_power_of_two.
  set (bits := Z.log2_up (num * 3)).
  assert (Hbits : 2 <= bits <= 31).
  { unfold bits. change 2 with (Z.log2_up 3) at 1. change 31 with (Z.log2_up (2 ^ 31)).
    split; apply Z.log2_up_le_mono; lia. }
  assert (Hsz : 3 * num <= 2 ^ bits) by (unfold bits; pose proof (Z.log2_up_spec (num * 3)); lia).
  assert (H31 : 2 ^ bits <= 2 ^ 31) by (apply Z.pow_le_mono_r; lia).
  rewrite (proj2 (Z.ltb_lt _ _)) by (unfold usize; lia). wp_step. wp_step.
  apply twp_now. intros m now Hm. wp_step.
  apply new_entries_ok; [lia|rewrite Z2Nat.id; lia|]. intros es Hl He.
  destruct (table_malloc_room (dom (tables l))) as [p Hp]; [by rewrite size_dom|].
  destruct (table_malloc_spec _ _ Hp) as [Hf Hn].
  eapply twp_act'; [by rewrite Hp|]. apply HQ; try done.
  - unfold table_ok, leading_zeros; simpl.
    rewrite (proj2 (Z.eqb_neq _ _)), Z.log2_pow2 by lia.
    replace (usize - (usize - 1 - bits) - 1) with bits by lia.
    split_and!; [lia|lia|lia|]. eapply Forall_impl; [exact He|]. by intros x [_ ?].
  - simpl. lia.
  - eapply Forall_impl; [exact He|]. by intros x [? _].
Qed.
End Table.

(** ** The invariant *)

Section Invariant.
Context `{!TableAlloc} `{!ThreadLocals}.
Implicit Types (l : Lot) (p : Z) (T : HashTable) (qs : list (list (nat * Z))).

(** The current table is [T], at [p]; [lk i] says whether bucket [i] is locked, and
    its queue is number [i] of [qs]. *)
Record lot_is l p T (lk : nat -> bool) qs : Prop := {
  li_ptr : HASHTABLE l = p;
  li_null : p <> 0;
  li_tab : tables l !! p = Some T;
  li_ok : table_ok T;
  li_locks : forall i x, entries T !! i = Some x -> mutex x = lk i;
  li_queues : Forall2 (queue_ok (tds l)) (entries T) qs;
  li_nodup : forall i q, qs !! i = Some q -> NoDup q.*1;
  li_place : forall i q t k, qs !! i = Some q -> (t, k) ∈ q ->
    hash_of k (hash_bits T) = Z.of_nat i;
  li_tls : forall t a, tls l !! t = Some a ->
    a = td_addr t /\ exists d, tds l !! a = Some d /\ deadlocked d = false;
}.

Definition unlocked : nat -> bool := fun _ => false.
Definition locked_at (i : nat) : nat -> bool := fun j => Nat.eqb i j.

(** The bucket of a key. *)
Definition bucket_index T (k : Z) : nat := Z.to_nat (hash_of k (hash_bits T)).

Lemma lot_bucket l p T lk qs i q : lot_is l p T lk qs -> qs !! i = Some q ->
  exists x, entries T !! i = Some x /\ bucket_of (p, i) l = Some x /\
    mutex x = lk i /\ queue_ok (tds l) x q.
Proof.
  intros [] Hq. destruct (Forall2_lookup_r _ _ _ _ _ li_queues0 Hq) as (x & Hx & Hxq).
  exists x. unfold bucket_of. simpl. rewrite li_tab0. eauto.
Qed.

Lemma bucket_index_lt T k : table_ok T -> (bucket_index T k < length (entries T))%nat.
Proof.
  intros (Hb & Hl & _). unfold bucket_index.
  destruct (hash_of_range k (hash_bits T)) as [? ?]; lia.
Qed.

(** The reads that lead to the bucket of a key. *)
Lemma twp_find_bucket {X} n p k l T (g : bucket_ref -> prog Lot X) Q :
  tables l !! p = Some T -> table_ok T -> twp n (g (p, bucket_index T k)) l Q ->
  twp n (let! bits := table_read p hash_bits in
         let! h := hash k bits in
         let! b := bucket_at p h in g b) l Q.
Proof.
  intros HT Hok HQ. pose proof (bucket_index_lt T k Hok) as Hi. destruct Hok as (Hb & Hlen & _).
  wp_step. eapply twp_table_read; [done|]. wp_step. unfold hash.
  rewrite (proj2 (Z.ltb_lt _ _)), (proj2 (Z.leb_le _ _)) by lia. simpl. wp_step. wp_step.
  unfold bucket_at. wp_step. eapply twp_table_read; [done|].
  destruct (hash_of_range k (hash_bits T)) as [? ?]; [lia|].
  rewrite (proj2 (Z.ltb_lt _ _)) by lia. by wp_step.
Qed.

(** A waiting thread is in one bucket only. *)
Lemma lot_disjoint l p T lk qs i j q q' t k k' : lot_is l p T lk qs ->
  qs !! i = Some q -> (t, k) ∈ q -> qs !! j = Some q' -> (t, k') ∈ q' -> i = j.
Proof.
  intros Hl Hi Hti Hj Htj.
  destruct (lot_bucket _ _ _ _ _ _ _ Hl Hi) as (x & _ & _ & _ & [Hs _]).
  destruct (lot_bucket _ _ _ _ _ _ _ Hl Hj) as (y & _ & _ & _ & [Hs' _]).
  destruct (seg_in _ _ _ _ _ _ Hs Hti) as (d & Hd & Hk & _).
  destruct (seg_in _ _ _ _ _ _ Hs' Htj) as (d' & Hd' & Hk' & _). simplify_eq.
  pose proof (li_place _ _ _ _ _ Hl _ _ _ _ Hi Hti).
  pose proof (li_place _ _ _ _ _ Hl _ _ _ _ Hj Htj). lia.
Qed.

(** Replacing the content of one bucket. *)
Lemma lot_update l p T lk qs i x m' x' lk' q' :
  lot_is l p T lk qs -> entries T !! i = Some x ->
  (forall j q t k, j <> i -> qs !! j = Some q -> (t, k) ∈ q -> m' !! td_addr t = tds l !! td_addr t) ->
  queue_ok m' x' q' -> NoDup q'.*1 ->
  (forall t k, (t, k) ∈ q' -> hash_of k (hash_bits T) = Z.of_nat i) ->
  (forall t d, tds l !! td_addr t = Some d -> deadlocked d = false ->
     exists d', m' !! td_addr t = Some d' /\ deadlocked d' = false) ->
  FairTimeout.seed_ok (FairTimeout.seed (fair_timeout x')) ->
  mutex x' = lk' i -> (forall j, j <> i -> lk' j = lk j) ->
  lot_is (set_tds m' (put_bucket (p, i) x' l)) p (set_entries (<[i := x']> (entries T)) T) lk'
    (<[i := q']> qs).
Proof.
  intros Hl Hx Hm Hq Hnd Hpl Hdl Hseed Hlk Hlk'. pose proof (lookup_lt_Some _ _ _ Hx) as Hi.
  assert (Hlen : length qs = length (entries T))
    by (symmetry; eapply Forall2_length, (li_queues _ _ _ _ _ Hl)).
  destruct Hl as [Hp Hnull Htab (Hb & Hn & Hse) Hlks Hqs Hnds Hpls Htls]. split; simpl.
  - done.
  - done.
  - by rewrite lookup_alter_eq, Htab.
  - split_and!; simpl; [lia|lia|by rewrite length_insert|by apply Forall_insert].
  - intros j y Hy. apply list_lookup_insert_Some in Hy as [(<- & <- & _)|[Hne Hy]]; [done|].
    rewrite Hlk' by done. by eapply Hlks.
  - apply Forall2_same_length_lookup. split; [by rewrite !length_insert|].
    intros j y q Hy Hq'. apply list_lookup_insert_Some in Hy as [(<- & <- & _)|[Hne Hy]].
    + rewrite list_lookup_insert_eq in Hq' by lia. by simplify_eq.
    + rewrite list_lookup_insert_ne in Hq' by done.
      destruct (Forall2_lookup_lr _ _ _ _ _ _ Hqs Hy Hq') as [Hs Ht]. split; [|done].
      eapply seg_frame; [|done]. intros t k Hin. by eapply Hm.
  - intros j q Hq'. apply list_lookup_insert_Some in Hq' as [(<- & <- & _)|[Hne Hq']]; [done|].
    by eapply Hnds.
  - intros j q t k Hq' Hin. apply list_lookup_insert_Some in Hq' as [(<- & <- & _)|[Hne Hq']].
    + by eapply Hpl.
    + by eapply Hpls.
  - intros t a Ha. destruct (Htls t a Ha) as [-> (d & Hd & Hdd)]. eauto.
Qed.
Lemma twp_get_hashtable n l p' (Q : nat -> Z -> Lot -> Prop) :
  HASHTABLE l = p' -> p' <> 0 -> Q n p' l -> twp n get_hashtable l Q.
Proof.
  intros Hp Hn HQ. unfold get_hashtable. do 2 wp_step. rewrite Hp.
  rewrite (proj2 (Z.eqb_neq _ _) Hn). by apply twp_ret.
Qed.

End Invariant.

(** ** An example

    Five threads; the first three wait in the same bucket, for two keys. *)

Definition demo_waiter (k next : Z) : ThreadData := MkThreadData 1 k next 0 0 false (DeadlockData_new 0).

Definition demo_table : HashTable :=
  MkHashTable ((fun i => if Nat.eqb i 7
                         then MkBucket false (td_addr 0) (td_addr 2) (FairTimeout.new 0 8)
                         else Bucket_new 0 (Z.of_nat i + 1)) <$> seq 0 16) 4 0.

Definition demo_lot : Lot :=
  MkLot 5 16 {[16 := demo_table]}
    (list_to_map [(td_addr 0, demo_waiter 72 (td_addr 1)); (td_addr 1, demo_waiter 80 (td_addr 2));
                  (td_addr 2, demo_waiter 72 0); (td_addr 3, ThreadData_fresh 3);
                  (td_addr 4, ThreadData_fresh 4)])
    (list_to_map ((fun t => (t, td_addr t)) <$> seq 0 5)) ∅.

Definition demo_queues : list (list (nat * Z)) :=
  <[7%nat := [(0%nat, 72); (1%nat, 80); (2%nat, 72)]]> (replicate 16 []).

Lemma demo_lot_is : lot_is demo_lot 16 demo_table unlocked demo_queues.
Proof.
  split; try done.
  - split_and!; [simpl; lia|simpl; lia|done|]. simpl.
    repeat (constructor; [split; [unfold in_width; simpl; lia|simpl; lia]|]). constructor.
  - assert (HF : Forall (fun x => mutex x = false) (entries demo_table)) by by repeat constructor.
    rewrite Forall_lookup in HF. exact HF.
  - repeat (constructor; [split; [|done]|]); try done.
    do 3 (split; [done|]; eexists; split; [reflexivity|]; do 2 (split; [done|])). done.
  - intros i q Hq. do 16 (destruct i as [|i]; [simpl in Hq; simplify_eq; by apply (bool_decide_unpack _)|]).
    done.
  - intros i q t k Hq Hin.
    do 16 (destruct i as [|i]; [simpl in Hq; simplify_eq; first [by apply not_elem_of_nil in Hin|
      repeat (apply elem_of_cons in Hin as [Hin|Hin]; [by simplify_eq|]); by apply not_elem_of_nil in Hin]|]).
    done.
  - intros t a Ha. apply elem_of_list_to_map_2, list_elem_of_fmap in Ha as (t' & [= -> ->] & Ht).
    apply elem_of_seq in Ht. split; [done|].
    do 5 (destruct t' as [|t']; [eexists; by split|]). lia.
Qed.

(** ** Properties *)

(** A new table has a power of two of buckets, at least three for each thread,
    all unlocked and empty and with seeds that are not 0; the hash of every key is
    an index into it. *)
Theorem new_table_indexes_keys `{TableAlloc} l num prev :
  1 <= num <= 2 ^ 29 -> (size (tables l) < table_room)%nat ->
  returns (HashTable_new num prev) l (fun p l' => exists T,
    l' = set_tables (<[p := T]> (tables l)) l /\ (p ∉ dom (tables l)) /\ p <> 0 /\
    table_ok T /\ Forall empty_bucket (entries T) /\
    3 * num <= Z.of_nat (length (entries T)) /\
    forall k, 0 <= hash_of k (hash_bits T) < Z.of_nat (length (entries T))).
Proof.
  intros Hnum Hroom n. apply HashTable_new_ok; [done..|].
  intros m p T _ Hp Hnull Hok Hlen Hempty _. exists T. split_and!; try done.
  intros k. destruct Hok as (Hb & -> & _). apply hash_of_range. lia.
Qed.

Lemma new_table_indexes_keys_witness :
  1 <= 7 <= 2 ^ 29 /\ returns (HashTable_new 7 16) demo_lot (fun p l' => p <> 16 /\ p <> 0).
Proof.
  split; [lia|]. intros n. eapply twp_returns.
  - apply (new_table_indexes_keys demo_lot 7 16); vm_compute; [split; discriminate|lia].
  - simpl. intros m p l' (T & _ & Hp & Hnull & _). split; [|exact Hnull].
    intros ->. apply Hp. set_solver.
Defined.
