(* ===== verification/ParkGrow.v ===== *)
(** * Creating and growing the hash table

    [grow_hashtable] moves the waiting threads to a new table.  For every key the
    threads that wait for it are the same before and after, in the same order. *)

From S2P Require Import Prelude Machine Solo Timing Parking ParkLot ParkQueue ParkTable.
Import Lot.

(** ** Locking and unlocking all buckets *)

Definition same_but_mutex (x x' : Bucket) : Prop :=
  queue_head x' = queue_head x /\ queue_tail x' = queue_tail x /\ fair_timeout x' = fair_timeout x.

#[export] Instance same_but_mutex_preorder : PreOrder same_but_mutex.
Proof. unfold same_but_mutex. split; [done|]. intros ???. naive_solver congruence. Qed.

Section LockAll.
Context (p : Z) (v : bool) (op : bucket_ref -> prog Lot ()).
Context (Hop : forall n b l x (Q : nat -> () -> Lot -> Prop),
  bucket_of b l = Some x -> mutex x = negb v -> Q n () (put_bucket b (set_mutex v x) l) ->
  twp n (op b) l Q).

Lemma iter_buckets_ok n : forall c a T l (Q : nat -> () -> Lot -> Prop),
  tables l !! p = Some T -> (a + c <= length (entries T))%nat ->
  (forall j x, (a <= j < a + c)%nat -> entries T !! j = Some x -> mutex x = negb v) ->
  (forall T', hash_bits T' = hash_bits T -> Forall2 same_but_mutex (entries T) (entries T') ->
     (forall j x', entries T' !! j = Some x' -> (a <= j < a + c)%nat -> mutex x' = v) ->
     (forall j, ~ (a <= j < a + c)%nat -> entries T' !! j = entries T !! j) ->
     Q n () (set_tables (<[p := T']> (tables l)) l)) ->
  twp n (iter_list (fun i => op (p, i)) (seq a c)) l Q.
Proof.
  induction c as [|c IH]; intros a T l Q HT Hle Hm HQ; simpl.
  - wp. destruct l. simpl in *. specialize (HQ T). unfold set_tables in HQ. simpl in HQ.
    rewrite insert_id in HQ by done. apply HQ; [done|by apply Forall2_same_length_lookup; naive_solver|lia|done].
  - destruct (lookup_lt_is_Some_2 (entries T) a) as [x Hx]; [lia|].
    wp_step. apply Hop with x; [by unfold bucket_of; simpl; rewrite HT|apply (Hm a); [lia|done]|].
    apply IH with (set_entries (<[a := set_mutex v x]> (entries T)) T).
    + simpl. by rewrite lookup_alter_eq, HT.
    + simpl. rewrite length_insert. lia.
    + intros j y Hj Hy. simpl in Hy. rewrite list_lookup_insert_ne in Hy by lia. apply (Hm j); [lia|done].
    + intros T' Hb HF Hv Hout. simpl in *.
      replace (set_tables _ (put_bucket _ _ _)) with (set_tables (<[p:=T']> (tables l)) l).
      * apply HQ; [done| | |].
        -- apply Forall2_same_length_lookup. pose proof (Forall2_length _ _ _ HF) as Hl.
           rewrite length_insert in Hl. split; [done|]. intros j y y' Hy Hy'.
           destruct (decide (j = a)) as [->|Hne].
           ++ simplify_eq. eapply (Forall2_lookup_lr _ _ _ a (set_mutex v x)) in HF;
                [|by apply list_lookup_insert_eq; eapply lookup_lt_Some|done]. done.
           ++ eapply (Forall2_lookup_lr _ _ _ j y) in HF; [done| |done].
              by rewrite list_lookup_insert_ne.
        -- intros j x' Hx' Hj. destruct (decide (j = a)) as [->|Hne]; [|apply (Hv j); [done|lia]].
           rewrite Hout, list_lookup_insert_eq in Hx' by lia. by simplify_eq.
        -- intros j Hj. rewrite Hout by lia. rewrite list_lookup_insert_ne by lia. done.
      * destruct l. unfold put_bucket, set_tables. simpl. f_equal.
        apply map_eq. intros q. destruct (decide (q = p)) as [->|Hne].
        -- by rewrite !lookup_insert_eq.
        -- by rewrite !lookup_insert_ne, lookup_alter_ne.
Qed.
End LockAll.

Lemma lock_all_ok n p T l (Q : nat -> () -> Lot -> Prop) :
  tables l !! p = Some T -> (forall j x, entries T !! j = Some x -> mutex x = false) ->
  (forall T', hash_bits T' = hash_bits T -> Forall2 same_but_mutex (entries T) (entries T') ->
     (forall j x, entries T' !! j = Some x -> mutex x = true) ->
     Q n () (set_tables (<[p := T']> (tables l)) l)) ->
  twp n (lock_all p (length (entries T))) l Q.
Proof.
  intros HT Hm HQ. apply (iter_buckets_ok p true) with T; [|done|done|intros; by eapply Hm|].
  - intros n' b l' x Q' Hx Hmx HQ'. eapply twp_bucket_act; [done|by rewrite Hmx|done].
  - intros T' Hb HF Hv Hout. apply HQ; [done..|]. intros j x Hx. apply (Hv j); [done|].
    apply lookup_lt_Some in Hx. rewrite (Forall2_length _ _ _ HF). lia.
Qed.

Lemma unlock_all_ok n p T l (Q : nat -> () -> Lot -> Prop) :
  tables l !! p = Some T -> (forall j x, entries T !! j = Some x -> mutex x = true) ->
  (forall T', Q n () (set_tables (<[p := T']> (tables l)) l)) ->
  twp n (unlock_all p (length (entries T))) l Q.
Proof.
  intros HT Hm HQ. apply (iter_buckets_ok p false) with T; [|done|done|intros; by eapply Hm|done].
  intros n' b l' x Q' Hx Hmx HQ'. eapply twp_bucket_act; [done|by rewrite Hmx|done].
Qed.

(** ** Moving threads *)

(** [qs] with the entry [e] at the end of the queue of its key. *)
Definition place (bits : Z) (qs : list (list (nat * Z))) (e : nat * Z) : list (list (nat * Z)) :=
  alter (fun q => q ++ [e]) (Z.to_nat (hash_of e.2 bits)) qs.

Definition place_all (bits : Z) : list (list (nat * Z)) -> list (nat * Z) -> list (list (nat * Z)) :=
  foldl (place bits).

Lemma place_insert bits qs t k q :
  qs !! Z.to_nat (hash_of k bits) = Some q ->
  place bits qs (t, k) = <[Z.to_nat (hash_of k bits) := q ++ [(t, k)]]> qs.
Proof.
  intros Hq. unfold place. simpl. apply list_eq. intros j.
  destruct (decide (j = Z.to_nat (hash_of k bits))) as [->|Hne].
  - rewrite list_lookup_alter_eq, Hq, list_lookup_insert_eq by (by eapply lookup_lt_Some). done.
  - by rewrite list_lookup_alter_ne, list_lookup_insert_ne.
Qed.

Lemma in_concat_fst (qs : list (list (nat * Z))) j q t k :
  qs !! j = Some q -> (t, k) ∈ q -> t ∈ (concat qs).*1.
Proof.
  intros Hq Hin. apply list_elem_of_fmap. exists (t, k). split; [done|].
  apply list_elem_of_In, in_concat. exists q. rewrite <- !list_elem_of_In.
  eauto using list_elem_of_lookup_2.
Qed.

Section Rehash.
Context `{!TableAlloc} `{!ThreadLocals}.
Context (pn : Z).

(** The lot as it will be when the new table at [pn] is published. *)
Definition next_is (l : Lot) (T : HashTable) (qs : list (list (nat * Z))) : Prop :=
  lot_is (set_HASHTABLE pn l) pn T unlocked qs.

(** What moving the threads of [r] changes: their links, those of the threads in
    the new table, and the new table. *)
Definition moved (l l' : Lot) (ts : list nat) : Prop :=
  HASHTABLE l' = HASHTABLE l /\ tls l' = tls l /\ NUM_THREADS l' = NUM_THREADS l /\
  (forall p, p <> pn -> tables l' !! p = tables l !! p) /\ dom (tables l') = dom (tables l) /\
  (forall t, t ∉ ts -> tds l' !! td_addr t = tds l !! td_addr t).

(** The new state when thread [t] is appended to the queue [q] of its bucket, whose
    last link now points to it ([x1], [m1]). *)
Section Append.
Context (l : Lot) (T : HashTable) (qs : list (list (nat * Z))) (q : list (nat * Z)) (t : nat)
  (d : ThreadData) (x x1 : Bucket) (m1 : gmap Z ThreadData).
Abbreviation h := (bucket_index T (key d)).
Context (Hl : next_is l T qs) (Hd : tds l !! td_addr t = Some d) (Hf : futex d = 1)
  (Hnew : forall q, q ∈ qs -> t ∉ q.*1) (Hq : qs !! h = Some q) (Hx : entries T !! h = Some x)
  (Hmx : mutex x = unlocked h) (Hm1 : mutex x1 = mutex x) (Hf1 : fair_timeout x1 = fair_timeout x)
  (Hs1 : seg m1 (queue_head x1) q (td_addr t)) (Hr1 : relinked (tds l) m1 q).
#[local] Set Default Proof Using "Type*".

Definition appended_tds : gmap Z ThreadData := <[td_addr t := set_next 0 d]> m1.
Definition appended_bucket : Bucket := set_queue_tail (td_addr t) x1.

Lemma append_fresh : t ∉ q.*1.
Proof. eapply Hnew, list_elem_of_lookup_2; done. Qed.

Lemma appended_out t' : t' <> t -> t' ∉ q.*1 -> appended_tds !! td_addr t' = tds l !! td_addr t'.
Proof.
  intros Hne Hout. unfold appended_tds. rewrite lookup_insert_ne by (intros E; by apply td_addr_inj in E).
  by rewrite (relinked_out _ _ _ _ Hr1 Hout).
Qed.

Lemma appended_queue : seg appended_tds (queue_head appended_bucket) (q ++ [(t, key d)]) 0 /\
  queue_tail appended_bucket = last_addr (q ++ [(t, key d)]).
Proof.
  split; [|by rewrite last_addr_snoc]. apply seg_app. exists (td_addr t). split.
  - eapply seg_frame; [|exact Hs1]. intros t' k' Hin. apply lookup_insert_ne.
    intros E. apply td_addr_inj in E as <-. apply append_fresh, list_elem_of_fmap. by exists (t, k').
  - split; [done|]. unfold appended_tds. rewrite lookup_insert_eq. by eexists.
Qed.

Lemma appended_is :
  next_is (set_tds appended_tds (put_bucket (pn, h) appended_bucket l))
    (set_entries (<[h := appended_bucket]> (entries T)) T) (place (hash_bits T) qs (t, key d)).
Proof.
  pose proof (li_ok _ _ _ _ _ Hl) as Hok. rewrite (place_insert _ _ _ _ q) by done.
  apply (lot_update (set_HASHTABLE pn l) pn T unlocked qs h x appended_tds appended_bucket unlocked);
    try done.
  - intros j q' t' k' Hj Hq' Hin. apply appended_out.
    + intros ->. apply (Hnew q'); [by eapply list_elem_of_lookup_2|].
      apply list_elem_of_fmap. by exists (t, k').
    + intros Hin'. apply list_elem_of_fmap in Hin' as ([t1 k1] & E & Hin1). simpl in E. subst t1.
      apply Hj. by eapply lot_disjoint.
  - apply appended_queue.
  - rewrite fmap_app. apply NoDup_app. split_and!; [by eapply (li_nodup _ _ _ _ _ Hl)| |apply NoDup_singleton].
    intros t' Ht' E. simpl in E. apply list_elem_of_singleton in E as ->. by apply append_fresh.
  - intros t' k' Hin. apply elem_of_app in Hin as [Hin|Hin].
    + by eapply (li_place _ _ _ _ _ Hl).
    + apply list_elem_of_singleton in Hin. simplify_eq. unfold bucket_index.
      destruct Hok as (Hb & _). destruct (hash_of_range (key d) (hash_bits T)); lia.
  - intros t' d' Hd' Hdl. unfold appended_tds. destruct (decide (t' = t)) as [->|Hne].
    + simpl in Hd'. simplify_eq. exists (set_next 0 d). by rewrite lookup_insert_eq.
    + rewrite lookup_insert_ne by (intros E; by apply td_addr_inj in E). by eapply relinked_deadlocked.
  - simpl. rewrite Hf1. destruct Hok as (_ & _ & Hse). rewrite Forall_lookup in Hse. by eapply Hse.
  - simpl. by rewrite Hm1.
Qed.

Lemma appended_moved :
  moved l (set_tds appended_tds (put_bucket (pn, h) appended_bucket l)) (t :: (concat qs).*1).
Proof.
  split_and!; [done..| | |]; simpl.
  - intros p' Hp'. by rewrite lookup_alter_ne.
  - by rewrite dom_alter_L.
  - intros t' Ht'. apply not_elem_of_cons in Ht' as [Hne Ht']. apply appended_out; [done|].
    intros Hin. apply list_elem_of_fmap in Hin as ([t1 k1] & E & Hin1). simpl in E. subst t1.
    apply Ht'. by eapply in_concat_fst.
Qed.
End Append.

Lemma rehash_thread_ok n l T qs t k d (Q : nat -> Z -> Lot -> Prop) :
  next_is l T qs -> tds l !! td_addr t = Some d -> key d = k -> futex d = 1 ->
  (forall q, q ∈ qs -> t ∉ q.*1) ->
  (forall l' T', next_is l' T' (place (hash_bits T) qs (t, k)) -> hash_bits T' = hash_bits T ->
     moved l l' (t :: (concat qs).*1) -> Q n (next_in_queue d) l') ->
  twp n (rehash_thread (td_addr t) pn) l Q.
Proof.
  intros Hl Hd <- Hf Hnew HQ. unfold rehash_thread. set (h := bucket_index T (key d)).
  pose proof (li_ok _ _ _ _ _ Hl) as Hok. pose proof (li_tab _ _ _ _ _ Hl) as Htab.
  pose proof (Forall2_length _ _ _ (li_queues _ _ _ _ _ Hl)) as Hlq.
  pose proof (bucket_index_lt T (key d) Hok) as Hh. fold h in Hh.
  destruct (lookup_lt_is_Some_2 qs h) as [q Hq]; [lia|].
  destruct (lot_bucket _ _ _ _ _ _ _ Hl Hq) as (x & Hx & Hbx & Hmx & [Hs Ht]).
  change (bucket_of (pn, h) l = Some x) in Hbx. change (tds (set_HASHTABLE pn l)) with (tds l) in *.
  pose proof (li_nodup _ _ _ _ _ Hl _ _ Hq) as Hnd.
  assert (Hnt : t ∉ q.*1) by (eapply Hnew, list_elem_of_lookup_2; done).
  wp_step. eapply twp_td_read; [done|]. wp_step. eapply twp_td_read; [done|].
  eapply (twp_find_bucket _ pn (key d) l T (fun b => let! tail := bucket_read b queue_tail in _));
    [done..|]. fold h. wp_step. eapply twp_bucket_read; [done|]. wp_step.
  assert (Hlink : forall Q', twp n (link_set (link_after (pn, h) q) (td_addr t)) l Q' ->
    twp n (if queue_tail x =? 0 then bucket_write (pn, h) (set_queue_head (td_addr t))
           else td_write (queue_tail x) (set_next (td_addr t))) l Q').
  { intros Q'. rewrite Ht. unfold last_addr, link_after. destruct (last q) as [[t' k']|]; [|done].
    by rewrite (proj2 (Z.eqb_neq _ _) (td_addr_null t')). }
  apply Hlink. eapply link_set_ok; [done..|]. intros x1 m1 Hm1 Hf1 Ht1 Hs1 Hr1. wp_step.
  eapply twp_bucket_write; [by eapply bucket_of_put|].
  assert (Hd1 : m1 !! td_addr t = Some d) by (by rewrite (relinked_out _ _ _ _ Hr1 Hnt)).
  wp_step. eapply twp_td_write; [exact Hd1|]. wp.
  match goal with |- Q _ _ ?s => replace s with
    (set_tds (appended_tds t d m1) (put_bucket (pn, h) (appended_bucket t x1) l))
    by by rewrite <- (put_bucket_put (pn, h) (appended_bucket t x1) x1 l) end.
  eapply HQ; [by eapply appended_is|done|by eapply appended_moved].
Qed.

Lemma in_concat_place bits qs t k t' :
  t' ∈ (concat (place bits qs (t, k))).*1 -> t' = t \/ t' ∈ (concat qs).*1.
Proof.
  intros Hin. apply list_elem_of_fmap in Hin as ([t1 k1] & -> & Hin). simpl.
  apply list_elem_of_In, in_concat in Hin as (q & Hq & Hin).
  apply list_elem_of_In in Hq, Hin. apply list_elem_of_lookup_1 in Hq as [j Hq].
  unfold place in Hq. simpl in Hq. destruct (decide (j = Z.to_nat (hash_of k bits))) as [->|Hne].
  - rewrite list_lookup_alter_eq in Hq. apply fmap_Some in Hq as (q0 & Hq0 & ->).
    apply elem_of_app in Hin as [Hin|Hin]; [right; by eapply in_concat_fst|].
    apply list_elem_of_singleton in Hin. simplify_eq. by left.
  - rewrite list_lookup_alter_ne in Hq by done. right. by eapply in_concat_fst.
Qed.

Lemma moved_trans l l1 l2 ts1 ts2 ts : moved l l1 ts1 -> moved l1 l2 ts2 ->
  ts1 ⊆ ts -> ts2 ⊆ ts -> moved l l2 ts.
Proof.
  intros (A1 & A2 & A3 & A4 & A5 & A6) (B1 & B2 & B3 & B4 & B5 & B6) S1 S2.
  split_and!; try congruence.
  - intros p Hp. by rewrite B4, A4.
  - intros t Ht. rewrite B6, A6; set_solver.
Qed.

(** One bucket: its threads are moved in order. *)
Lemma rehash_loop_ok n r : forall l T qs h (Q : nat -> () -> Lot -> Prop),
  next_is l T qs -> seg (tds l) h r 0 -> NoDup r.*1 ->
  (forall t, t ∈ r.*1 -> t ∉ (concat qs).*1) ->
  (forall l' T', next_is l' T' (place_all (hash_bits T) qs r) -> hash_bits T' = hash_bits T ->
     moved l l' (r.*1 ++ (concat qs).*1) -> Q n () l') ->
  twp n (loop (fun current => if current =? 0 then Ret (inr ())
                else let! next := rehash_thread current pn in Ret (inl next)) h) l Q.
Proof.
  unfold loop.
  induction r as [|[t k] r IH]; intros l T qs h Q Hl Hs Hnd Hnew HQ; apply twp_loop;
    unfold unfold_loop.
  - simpl in Hs. subst h. simpl. wp. by apply (HQ l T).
  - destruct Hs as [-> (d & Hd & Hk & Hf & Hs)]. rewrite fmap_cons in *.
    apply NoDup_cons in Hnd as [Hnt Hnd].
    rewrite (proj2 (Z.eqb_neq _ _) (td_addr_null t)). do 2 wp_step.
    eapply rehash_thread_ok; [done..| |].
    { intros q Hq Hin. apply list_elem_of_fmap in Hin as ([t1 k1] & E & Hin). simpl in E. subst t1.
      apply list_elem_of_lookup_1 in Hq as [j Hq]. apply (Hnew t); [set_solver|].
      by eapply in_concat_fst. }
    intros l1 T1 Hl1 Hb1 Hmv1. wp. apply IH with T1 (place (hash_bits T) qs (t, k)).
    + done.
    + eapply seg_frame; [|done]. intros t' k' Hin. apply Hmv1.
      assert (t' ∈ r.*1) by (apply list_elem_of_fmap; by exists (t', k')).
      apply not_elem_of_cons. split; [by intros ->|]. apply Hnew. set_solver.
    + done.
    + intros t' Ht' Hin. apply in_concat_place in Hin as [->|Hin]; [done|].
      by apply (Hnew t'); [set_solver|].
    + intros l2 T2 Hl2 Hb2 Hmv2. rewrite Hb1 in *. apply (HQ l2 T2); [done..|].
      eapply moved_trans; [exact Hmv1|exact Hmv2|set_solver|].
      intros t' Ht'. apply elem_of_app in Ht' as [?|Hin]; [set_solver|].
      apply in_concat_place in Hin as [->|?]; set_solver.
Qed.

(** All buckets of the old table [T0] from number [a] on. *)
Lemma rehash_all_ok n p T0 rs : p <> pn -> forall a l T qs (Q : nat -> () -> Lot -> Prop),
  tables l !! p = Some T0 ->
  (forall j q, rs !! j = Some q -> exists x, entries T0 !! (a + j)%nat = Some x /\
     seg (tds l) (queue_head x) q 0) ->
  next_is l T qs -> NoDup (concat rs).*1 ->
  (forall t, t ∈ (concat rs).*1 -> t ∉ (concat qs).*1) ->
  (forall l' T', next_is l' T' (place_all (hash_bits T) qs (concat rs)) ->
     hash_bits T' = hash_bits T -> moved l l' ((concat rs).*1 ++ (concat qs).*1) -> Q n () l') ->
  twp n (iter_list (fun i => rehash_bucket_into (p, i) pn) (seq a (length rs))) l Q.
Proof.
  intros Hp. induction rs as [|r rs IH]; intros a l T qs Q HT Hrs Hl Hnd Hnew HQ; simpl.
  - wp. apply (HQ l T); [done..|]. by split_and!.
  - wp_step. destruct (Hrs 0%nat r) as (x & Hx & Hs); [done|]. rewrite Nat.add_0_r in Hx.
    simpl in Hnd, Hnew, HQ. rewrite fmap_app in *. apply NoDup_app in Hnd as (Hn1 & Hn2 & Hn3).
    unfold rehash_bucket_into. wp_step.
    eapply (twp_bucket_read _ _ _ _ x); [unfold bucket_of; simpl; by rewrite HT|].
    eapply rehash_loop_ok; [done..|set_solver|]. intros l1 T1 Hl1 Hb1 Hmv1.
    assert (Hin : forall t, t ∈ (concat (place_all (hash_bits T) qs r)).*1 ->
      t ∈ r.*1 \/ t ∈ (concat qs).*1).
    { clear. unfold place_all. revert qs. induction r as [|[t1 k1] r IH]; simpl; [auto|].
      intros qs t Ht. destruct (IH _ _ Ht) as [?|Hin]; [set_solver|].
      apply in_concat_place in Hin as [->|?]; set_solver. }
    apply IH with T1 (place_all (hash_bits T) qs r).
    + destruct Hmv1 as (_ & _ & _ & Htab & _). by rewrite Htab.
    + intros j q Hq. destruct (Hrs (S j) q Hq) as (y & Hy & Hsy).
      exists y. rewrite Nat.add_succ_r in Hy. split; [done|]. eapply seg_frame; [|done].
      intros t k Htk. apply Hmv1. pose proof (in_concat_fst rs j q t k Hq Htk). set_solver.
    + done.
    + done.
    + intros t Ht Hin'. apply Hin in Hin' as [?|?]; set_solver.
    + intros l2 T2 Hl2 Hb2 Hmv2. rewrite Hb1 in *. apply (HQ l2 T2).
      * unfold place_all in *. by rewrite foldl_app.
      * done.
      * eapply moved_trans; [exact Hmv1|exact Hmv2|set_solver|].
        intros t Ht. apply elem_of_app in Ht as [?|Ht]; [set_solver|].
        apply Hin in Ht as [?|?]; set_solver.
Qed.
End Rehash.

(** ** The threads that wait for a key *)

Definition waiting (k : Z) (qs : list (list (nat * Z))) : list (nat * Z) :=
  filter (fun e => e.2 = k) (concat qs).

Lemma waiting_one k qs h :
  (forall j q t, qs !! j = Some q -> (t, k) ∈ q -> j = h) ->
  waiting k qs = filter (fun e => e.2 = k) (default [] (qs !! h)).
Proof.
  unfold waiting. revert h. induction qs as [|q qs IH]; intros h Hh; simpl.
  - by destruct h.
  - rewrite filter_app. destruct h as [|h]; simpl.
    + rewrite (IH (length qs)).
      * rewrite lookup_ge_None_2 by lia. by rewrite app_nil_r.
      * intros j q' t Hq' Hin. by specialize (Hh (S j) q' t Hq' Hin).
    + rewrite (IH h).
      * replace (filter (fun e => e.2 = k) q) with (@nil (nat * Z)); [done|]. symmetry.
        apply filter_none. intros [t k'] Hin E. simpl in E. subst k'.
        by specialize (Hh 0%nat q t eq_refl Hin).
      * intros j q' t Hq' Hin. specialize (Hh (S j) q' t Hq' Hin). lia.
Qed.

Lemma place_all_lookup bits k r : forall qs, (Z.to_nat (hash_of k bits) < length qs)%nat ->
  filter (fun e => e.2 = k) (default [] (place_all bits qs r !! Z.to_nat (hash_of k bits))) =
  filter (fun e => e.2 = k) (default [] (qs !! Z.to_nat (hash_of k bits))) ++
  filter (fun e => e.2 = k) r.
Proof.
  unfold place_all. induction r as [|[t k'] r IH]; intros qs Hh; simpl.
  - by rewrite app_nil_r.
  - rewrite IH by (unfold place; by rewrite length_alter). unfold place at 1. simpl.
    destruct (lookup_lt_is_Some_2 _ _ Hh) as [q Hq].
    destruct (decide (Z.to_nat (hash_of k' bits) = Z.to_nat (hash_of k bits))) as [->|Hne].
    + rewrite list_lookup_alter_eq, Hq. simpl. by rewrite filter_app, <- app_assoc, <- filter_app.
    + rewrite list_lookup_alter_ne by done. rewrite (filter_cons_False _ _ r); [done|].
      simpl. intros ->. done.
Qed.

Section Grow.
Context `{!TableAlloc} `{!ThreadLocals}.

(** The threads that wait for [k] are in its bucket. *)
Lemma lot_waiting l p T lk qs k : lot_is l p T lk qs ->
  waiting k qs = filter (fun e => e.2 = k) (default [] (qs !! bucket_index T k)).
Proof.
  intros Hl. apply waiting_one. intros j q t Hq Hin.
  pose proof (li_place _ _ _ _ _ Hl _ _ _ _ Hq Hin) as E. unfold bucket_index. rewrite E.
  by rewrite Nat2Z.id.
Qed.

(** A thread waits at most once. *)
Lemma lot_nodup l p T lk qs : lot_is l p T lk qs -> NoDup (concat qs).*1.
Proof.
  intros Hl.
  assert (Hd : forall i j q q' t, qs !! i = Some q -> qs !! j = Some q' ->
    t ∈ q.*1 -> t ∈ q'.*1 -> i = j).
  { intros i j q q' t Hi Hj Ht Ht'. apply list_elem_of_fmap in Ht as ([t1 k1] & -> & Ht).
    apply list_elem_of_fmap in Ht' as ([t2 k2] & E & Ht'). simpl in E. subst t2.
    by eapply lot_disjoint. }
  pose proof (li_nodup _ _ _ _ _ Hl) as Hn. clear Hl. revert Hd Hn.
  induction qs as [|q qs IH]; intros Hd Hn; simpl; [constructor|].
  rewrite fmap_app. apply NoDup_app. split_and!.
  - by apply (Hn 0%nat).
  - intros t Ht Hin. apply list_elem_of_fmap in Hin as ([t1 k1] & -> & Hin).
    apply list_elem_of_In, in_concat in Hin as (q' & Hq' & Hin).
    apply list_elem_of_In in Hq', Hin. apply list_elem_of_lookup_1 in Hq' as [j Hj].
    assert (0%nat = S j); [|done]. apply (Hd 0%nat (S j) q q' t1); [done..|].
    apply list_elem_of_fmap. by exists (t1, k1).
  - apply IH.
    + intros i j q1 q2 t Hi Hj H1 H2. assert (S i = S j) by by eapply Hd. lia.
    + intros i q1 Hi. by apply (Hn (S i)).
Qed.

Lemma lot_frame l l' p T lk qs :
  lot_is l p T lk qs -> HASHTABLE l' = p -> tables l' !! p = Some T -> tls l' = tls l ->
  (forall t d, tds l !! td_addr t = Some d -> tds l' !! td_addr t = Some d) ->
  lot_is l' p T lk qs.
Proof.
  intros [_ Hnull _ Hok Hlks Hqs Hnd Hpl Htl] Hp HT Htls Htds. split; try done.
  - eapply Forall2_impl; [exact Hqs|]. intros x q [Hs Ht]. split; [|done].
    eapply seg_frame; [|exact Hs]. intros t k Hin.
    destruct (seg_in _ _ _ _ _ _ Hs Hin) as (d & Hd & _). rewrite Hd. by apply Htds.
  - intros t a Ha. rewrite Htls in Ha. destruct (Htl t a Ha) as [-> (d & Hd & Hdl)].
    split; [done|]. eauto.
Qed.

Lemma concat_replicate_nil n : concat (replicate n (@nil (nat * Z))) = [].
Proof. by induction n. Qed.

(** A new table is empty. *)
Lemma next_is_new l pn N :
  pn <> 0 -> table_ok N -> Forall empty_bucket (entries N) ->
  (forall t a, tls l !! t = Some a ->
     a = td_addr t /\ exists d, tds l !! a = Some d /\ deadlocked d = false) ->
  next_is pn (set_tables (<[pn := N]> (tables l)) l) N (replicate (length (entries N)) []).
Proof.
  intros Hn Hok He Htls. rewrite Forall_lookup in He.
  assert (Hnil : forall i q, replicate (length (entries N)) (@nil (nat * Z)) !! i = Some q -> q = [])
    by (intros i q Hq; by apply lookup_replicate in Hq as [-> _]).
  split; simpl; try done.
  - apply lookup_insert_eq.
  - intros i x Hx. by apply (He i).
  - apply Forall2_same_length_lookup. split; [by rewrite length_replicate|].
    intros i x q Hx Hq. apply Hnil in Hq as ->. destruct (He i x Hx) as (_ & Hh & Ht). by split.
  - intros i q Hq. apply Hnil in Hq as ->. constructor.
  - intros i q t k Hq Hin. apply Hnil in Hq as ->. set_solver.
Qed.

(** The loop that locks the table. *)
Lemma lock_table_ok n num l p T qs (Q : nat -> option (Z * nat) -> Lot -> Prop) :
  lot_is l p T unlocked qs -> 1 <= num <= 2 ^ 29 ->
  (3 * num <= Z.of_nat (length (entries T)) -> Q n None l) ->
  (forall T', hash_bits T' = hash_bits T -> Forall2 same_but_mutex (entries T) (entries T') ->
     (forall j x, entries T' !! j = Some x -> mutex x = true) ->
     Q n (Some (p, length (entries T))) (set_tables (<[p := T']> (tables l)) l)) ->
  twp n (lock_table num) l Q.
Proof.
  intros Hl Hnum Hno Hyes. apply twp_forever. wp_step.
  eapply twp_get_hashtable; [apply Hl..|]. wp_step.
  eapply twp_table_read; [apply Hl|]. wp_step. apply twp_umul; [unfold LOAD_FACTOR, usize; lia|].
  unfold LOAD_FACTOR. destruct (Z.leb_spec (3 * num) (Z.of_nat (length (entries T)))).
  - wp. by apply Hno.
  - wp_step. apply lock_all_ok; [apply Hl|intros j x; apply (li_locks _ _ _ _ _ Hl)|].
    intros T' Hb HF Hm. wp. rewrite (li_ptr _ _ _ _ _ Hl), Z.eqb_refl. wp. by apply Hyes.
Qed.

Definition grown (num : Z) (qs : list (list (nat * Z))) (l l' : Lot) : Prop :=
  exists p' T' qs', lot_is l' p' T' unlocked qs' /\
    3 * num <= Z.of_nat (length (entries T')) /\ (forall k, waiting k qs' = waiting k qs) /\
    tls l' = tls l /\ NUM_THREADS l' = NUM_THREADS l /\
    (forall t, t ∉ (concat qs).*1 -> tds l' !! td_addr t = tds l !! td_addr t) /\
    (size (tables l') <= S (size (tables l)))%nat.

Lemma grow_hashtable_ok n num l p T qs (Q : nat -> () -> Lot -> Prop) :
  lot_is l p T unlocked qs -> 1 <= num <= 2 ^ 29 -> (size (tables l) < table_room)%nat ->
  (forall m l', (m <= n)%nat -> grown num qs l l' -> Q m () l') ->
  twp n (grow_hashtable num) l Q.
Proof.
  intros Hl Hnum Hroom HQ. unfold grow_hashtable. wp_step.
  eapply lock_table_ok; [done..| |].
  { intros Hbig. wp. apply HQ; [done|]. exists p, T, qs. split_and!; [done..|lia]. }
  intros T0 Hb0 HF0 Hm0. pose proof (Forall2_length _ _ _ HF0) as Hlen0.
  wp_step. set (l0 := set_tables (<[p := T0]> (tables l)) l).
  assert (Hsz0 : size (tables l0) = size (tables l))
    by (simpl; rewrite map_size_insert, (li_tab _ _ _ _ _ Hl); done).
  apply HashTable_new_ok; [done|lia|]. intros m pn N Hm Hfresh Hnull HokN Hbig Hempty _.
  assert (Hpn : p <> pn).
  { intros ->. apply Hfresh. simpl. rewrite dom_insert_L. set_solver. }
  set (l1 := set_tables (<[pn := N]> (tables l0)) l0).
  assert (Hnext : next_is pn l1 N (replicate (length (entries N)) []))
    by (apply next_is_new; [done..|apply Hl]).
  assert (HT1 : tables l1 !! p = Some T0)
    by (simpl; rewrite lookup_insert_ne by done; apply lookup_insert_eq).
  pose proof (lot_nodup _ _ _ _ _ Hl) as Hnd.
  pose proof (Forall2_length _ _ _ (li_queues _ _ _ _ _ Hl)) as Hlq.
  wp_step. rewrite Hlq. eapply (rehash_all_ok pn _ p T0); [done|done| |done|done| |].
  { intros j q Hq. destruct (lot_bucket _ _ _ _ _ _ _ Hl Hq) as (x & Hx & _ & _ & [Hs _]).
    destruct (Forall2_lookup_l _ _ _ _ _ HF0 Hx) as (x' & Hx' & Hh & _).
    exists x'. split; [done|]. by rewrite Hh. }
  { intros t _. rewrite concat_replicate_nil. set_solver. }
  intros l2 T2 Hl2 Hb2 (M1 & M2 & M3 & M4 & M5 & M6). wp_step. wp_step.
  rewrite <- Hlq, Hlen0. apply unlock_all_ok; [simpl; by rewrite M4|done|].
  intros T3. apply HQ; [done|]. rewrite concat_replicate_nil, app_nil_r in M6.
  eexists pn, T2, _. split_and!; [|..|done|].
  - eapply lot_frame; [exact Hl2|done| |done|done]. simpl.
    rewrite lookup_insert_ne by done. apply Hl2.
  - destruct (li_ok _ _ _ _ _ Hl2) as (_ & E2 & _), HokN as (_ & EN & _).
    rewrite E2, Hb2, <- EN. done.
  - intros k. rewrite (lot_waiting _ _ _ _ _ k Hl2). unfold bucket_index. rewrite Hb2.
    rewrite place_all_lookup.
    + rewrite lookup_replicate_2; [done|]. by apply bucket_index_lt.
    + rewrite length_replicate. by apply bucket_index_lt.
  - done.
  - done.
  - simpl. rewrite map_size_insert, M4, HT1 by done. simpl.
    rewrite <- size_dom, M5, size_dom. simpl. rewrite map_size_insert.
    destruct (_ !! pn); simpl; simpl in Hsz0; lia.
Qed.

(** ** Creating the table, and the data of a new thread *)

Lemma get_hashtable_ok n l (Q : nat -> Z -> Lot -> Prop) :
  HASHTABLE l = 0 -> (size (tables l) < table_room)%nat ->
  (forall t a, tls l !! t = Some a ->
     a = td_addr t /\ exists d, tds l !! a = Some d /\ deadlocked d = false) ->
  (forall m p T, (m <= n)%nat -> 9 <= Z.of_nat (length (entries T)) ->
     lot_is (set_HASHTABLE p (set_tables (<[p := T]> (tables l)) l))
       p T unlocked (replicate (length (entries T)) []) ->
     Q m p (set_HASHTABLE p (set_tables (<[p := T]> (tables l)) l))) ->
  twp n get_hashtable l Q.
Proof.
  intros Hz Hroom Htls HQ. unfold get_hashtable. do 2 wp_step. rewrite Hz. simpl.
  unfold create_hashtable. wp_step. apply HashTable_new_ok; [unfold LOAD_FACTOR; lia|done|].
  intros m p T Hm Hfresh Hnull Hok Hlen Hempty _. wp_step. apply twp_cas; simpl; [|congruence].
  intros _. wp. apply HQ; [done|done|]. by apply next_is_new.
Qed.

(** The state of a lot in which [n] threads have their data. *)
Definition lot_ready (l : Lot) (n : Z) (qs : list (list (nat * Z))) : Prop :=
  exists p T, lot_is l p T unlocked qs /\ NUM_THREADS l = n /\
    3 * n <= Z.of_nat (length (entries T)).

(** The data of a new thread, in a lot that has room for it. *)
Lemma new_data_ok l p T qs me :
  lot_is l p T unlocked qs -> me ∉ (concat qs).*1 ->
  lot_is (set_tls (<[me := td_addr me]> (tls l))
    (set_tds (<[td_addr me := ThreadData_fresh (thread_id_get me)]> (tds l)) l)) p T unlocked qs.
Proof.
  intros [Hp Hnull Htab Hok Hlks Hqs Hnd Hpl Htl] Hme.
  assert (Hne : forall t, t <> me ->
    <[td_addr me := ThreadData_fresh (thread_id_get me)]> (tds l) !! td_addr t = tds l !! td_addr t).
  { intros t Hne. apply lookup_insert_ne. intros E. by apply td_addr_inj in E. }
  split; simpl; try done.
  - apply Forall2_same_length_lookup. pose proof (Forall2_length _ _ _ Hqs). split; [done|].
    intros i x q Hx Hq. destruct (Forall2_lookup_lr _ _ _ _ _ _ Hqs Hx Hq) as [Hs Ht].
    split; [|done]. eapply seg_frame; [|exact Hs]. intros t k Hin. apply Hne. intros ->.
    apply Hme. by eapply in_concat_fst.
  - intros t a Ha. destruct (decide (t = me)) as [->|Hn].
    + rewrite lookup_insert_eq in Ha. simplify_eq. rewrite lookup_insert_eq. eauto.
    + rewrite lookup_insert_ne in Ha by done. destruct (Htl t a Ha) as [-> (d & Hd & Hdl)].
      rewrite Hne by done. eauto.
Qed.

Lemma waiting_in qs t : t ∈ (concat qs).*1 <-> exists k, (t, k) ∈ waiting k qs.
Proof.
  unfold waiting. split.
  - intros Hin. apply list_elem_of_fmap in Hin as ([t1 k1] & -> & Hin). exists k1.
    by apply list_elem_of_filter.
  - intros [k1 Hin]. apply list_elem_of_filter in Hin as [_ Hin].
    apply list_elem_of_fmap. by exists (t, k1).
Qed.

Lemma ThreadData_new_ok l n qs me :
  lot_ready l n qs -> 0 <= n < 2 ^ 29 -> (size (tables l) < table_room)%nat ->
  me ∉ (concat qs).*1 ->
  returns (ThreadData_new me) l (fun a l' => a = td_addr me /\ tls l' !! me = Some a /\
    exists qs', lot_ready l' (n + 1) qs' /\ forall k, waiting k qs' = waiting k qs).
Proof.
  intros (p & T & Hl & Hn & Hlen) Hrange Hroom Hme j. unfold ThreadData_new. wp_step.
  eapply twp_act'; [done|]. wp_step. apply twp_uadd; [unfold usize; lia|]. wp_step.
  rewrite Hn. set (l1 := set_NUM_THREADS _ l).
  assert (Hl1 : lot_is l1 p T unlocked qs) by by destruct Hl.
  eapply grow_hashtable_ok; [done|lia|done|].
  intros m l2 Hm (p' & T' & qs' & Hl2 & Hlen2 & Hw & Htls & Hnum & Htds & _).
  eapply twp_act'; [done|]. split; [done|]. split; [apply lookup_insert_eq|].
  exists qs'. split; [|done]. exists p', T'. split; [|split; [|done]].
  - apply new_data_ok; [done|]. rewrite waiting_in in Hme |- *.
    intros [k Hk]. apply Hme. exists k. by rewrite <- Hw.
  - simpl. rewrite Hnum. unfold l1. simpl. apply wrap_small. unfold in_width, usize. lia.
Qed.

(** The first thread creates the table. *)
Lemma first_thread_ok me : (0 < table_room)%nat ->
  returns (ThreadData_new me) Lot_init (fun a l' => a = td_addr me /\ tls l' !! me = Some a /\
    exists qs', lot_ready l' 1 qs' /\ forall k, waiting k qs' = []).
Proof.
  intros Hroom j. unfold ThreadData_new. wp_step. eapply twp_act'; [done|]. wp_step.
  apply twp_uadd; [unfold usize; simpl; lia|]. wp_step. unfold grow_hashtable, lock_table. wp_step.
  apply twp_forever. wp_step. apply get_hashtable_ok; [done|done|done|].
  intros m p T Hm Hlen Hl. wp_step. eapply twp_table_read; [apply lookup_insert_eq|]. wp_step.
  apply twp_umul; [unfold LOAD_FACTOR, usize; simpl; lia|]. simpl.
  rewrite (proj2 (Z.leb_le _ _)) by (unfold LOAD_FACTOR; lia). wp.
  eapply twp_act'; [done|]. split; [done|]. split; [apply lookup_insert_eq|].
  exists (replicate (length (entries T)) []). split.
  - exists p, T. split; [|split; [done|lia]]. apply new_data_ok; [done|].
    rewrite concat_replicate_nil. set_solver.
  - intros k. unfold waiting. by rewrite concat_replicate_nil.
Qed.
End Grow.

(** A lot in which [n] threads have their data: the initial one, or one with a
    table. *)
Definition lot_state `{TableAlloc} `{ThreadLocals} (l : Lot) (n : Z) (qs : list (list (nat * Z)))
    : Prop :=
  l = Lot_init /\ n = 0 /\ qs = [] \/ lot_ready l n qs.

(** C23. When a thread uses the parking lot for the first time, its data is created
    and the hash table is created or grown, so that there are three buckets for
    each thread; every thread that waits still does, and for every key the threads
    wait in the same order. *)
Theorem thread_data_ready `{TableAlloc} `{ThreadLocals} l n qs me :
  lot_state l n qs -> 0 <= n < 2 ^ 29 -> (size (tables l) < table_room)%nat ->
  tls l !! me = None -> me ∉ (concat qs).*1 ->
  returns (with_thread_data me) l (fun a l' => a = td_addr me /\ tls l' !! me = Some a /\
    exists qs', lot_ready l' (n + 1) qs' /\ forall k, waiting k qs' = waiting k qs).
Proof.
  intros Hl Hn Hroom Hnone Hme j. unfold with_thread_data. do 2 wp_step. rewrite Hnone.
  destruct Hl as [(-> & -> & ->)|Hl].
  - eapply twp_returns; [apply first_thread_ok; simpl in Hroom; by rewrite map_size_empty in Hroom|].
    done.
  - by apply ThreadData_new_ok with (l := l).
Qed.

(** The sixth thread makes the table of the example grow to 32 buckets. *)
Lemma thread_data_ready_witness :
  waiting 72 demo_queues = [(0%nat, 72); (2%nat, 72)] /\
  returns (with_thread_data 5) demo_lot (fun a l' => tls l' !! 5%nat = Some a /\
    exists qs', lot_ready l' 6 qs' /\ waiting 72 qs' = [(0%nat, 72); (2%nat, 72)]).
Proof.
  split; [reflexivity|]. intros j. eapply twp_returns.
  - apply (thread_data_ready demo_lot 5 demo_queues 5).
    + right. exists 16, demo_table. split; [exact demo_lot_is|]. split; [reflexivity|vm_compute; discriminate].
    + lia.
    + vm_compute. lia.
    + reflexivity.
    + change ((concat demo_queues).*1) with [0; 1; 2]%nat. set_solver.
  - simpl. intros m a l' (-> & Htls & qs' & Hl & Hw). split; [exact Htls|].
    exists qs'. split; [exact Hl|]. rewrite Hw. reflexivity.
Defined.
