(* ===== verification/ParkSim.v ===== *)
(** * The parking lot implements its specification

    [sim] relates the parking lot to the abstract bucket of [Parking]: the bucket
    with index [i] of the table holds the abstract queue, whose lock is that of the
    abstract bucket, and the threads that were woken have their tokens.  The other
    queues are those of [qs0].  Each operation of the code, run on a lot, has only
    results that the abstract operation can have on the related bucket. *)

From S2P Require Import Prelude Machine Solo Timing ThreadParker Parking ParkLot ParkQueue ParkTable.
Import Lot.

Section Sim.
Context `{!TableAlloc} `{!ThreadLocals}.
Context (p bits : Z) (i : nat) (qs0 : list (list (nat * Z))).
Implicit Types (l : Lot) (b : Parking.bucket) (x : Bucket).

Abbreviation B := (p, i).

Definition lock_of (o : option nat) : nat -> bool :=
  match o with Some _ => locked_at i | None => unlocked end.

Definition woken_ok (m : gmap Z ThreadData) (w : gmap nat Z) : Prop :=
  forall t tok, w !! t = Some tok -> exists d, m !! td_addr t = Some d /\
    futex d = 0 /\ unpark_token d = tok.

Record sim l b : Prop := {
  sim_lot : exists T, lot_is l p T (lock_of (locked_by b)) (<[i := queue b]> qs0) /\ hash_bits T = bits;
  sim_bucket : exists x, bucket_of B l = Some x /\ fair_timeout x = Parking.fair_timeout b;
  sim_woken : woken_ok (tds l) (woken b);
}.

Lemma sim_here l b : sim l b -> (i < length qs0)%nat -> exists x,
  bucket_of B l = Some x /\ fair_timeout x = Parking.fair_timeout b /\
  mutex x = is_some (locked_by b) /\ queue_ok (tds l) x (queue b) /\ NoDup (queue b).*1 /\
  (forall t k, (t, k) ∈ queue b -> hash_of k bits = Z.of_nat i) /\
  FairTimeout.seed_ok (FairTimeout.seed (fair_timeout x)).
Proof.
  intros [(T & HT & Hbits) (x & Hx & Hf) _] Hi.
  assert (Hq : <[i := queue b]> qs0 !! i = Some (queue b)) by by apply list_lookup_insert_eq.
  destruct (lot_bucket _ _ _ _ _ _ _ HT Hq) as (x' & Hx' & Hb & Hm & Hok). simplify_eq.
  exists x. split_and!; [done..| |done|by eapply li_nodup| |].
  - rewrite Hm. destruct (locked_by b); simpl; [|done]. apply Nat.eqb_refl.
  - intros t k Hin. by eapply li_place.
  - pose proof (li_ok _ _ _ _ _ HT) as (_ & _ & Hs). rewrite Forall_lookup in Hs. by eapply Hs.
Qed.

(** A step in the bucket. *)
Lemma sim_step l b x m' x' b' :
  sim l b -> (i < length qs0)%nat -> bucket_of B l = Some x ->
  (forall t k j q, j <> i -> qs0 !! j = Some q -> (t, k) ∈ q -> m' !! td_addr t = tds l !! td_addr t) ->
  queue_ok m' x' (queue b') -> NoDup (queue b').*1 ->
  (forall t k, (t, k) ∈ queue b' -> hash_of k bits = Z.of_nat i) ->
  (forall t d, tds l !! td_addr t = Some d -> deadlocked d = false ->
     exists d', m' !! td_addr t = Some d' /\ deadlocked d' = false) ->
  FairTimeout.seed_ok (FairTimeout.seed (fair_timeout x')) ->
  mutex x' = is_some (locked_by b') -> fair_timeout x' = Parking.fair_timeout b' ->
  woken_ok m' (woken b') ->
  sim (set_tds m' (put_bucket B x' l)) b'.
Proof.
  intros Hsim Hi Hx Hm Hq Hnd Hpl Hdl Hse Hmx Hfx Hw.
  destruct Hsim as [(T & HT & Hbits) _ _]. split.
  - exists (set_entries (<[i := x']> (entries T)) T). split; [|done].
    rewrite <- (list_insert_insert_eq qs0 i _ (queue b)).
    eapply lot_update; [done| | |done|done|by rewrite Hbits|done|done| |].
    + unfold bucket_of in Hx. simpl in Hx. by rewrite (li_tab _ _ _ _ _ HT) in Hx.
    + intros j q t k Hj Hqj Hin. rewrite list_lookup_insert_ne in Hqj by done. by eapply Hm.
    + rewrite Hmx. destruct (locked_by b'); simpl; [|done]. symmetry. apply Nat.eqb_refl.
    + intros j Hj. destruct (locked_by b'), (locked_by b); simpl; unfold locked_at, unlocked;
        try done; by apply Nat.eqb_neq || by symmetry; apply Nat.eqb_neq.
  - exists x'. split; [|done]. by apply (bucket_of_put B x' x).
  - done.
Qed.

Lemma set_tds_id l : set_tds (tds l) l = l.
Proof. by destruct l. Qed.

(** A step that changes the lock or the timeout of the bucket. *)
Lemma sim_bucket_step l b x x' b' :
  sim l b -> (i < length qs0)%nat -> bucket_of B l = Some x ->
  queue_head x' = queue_head x -> queue_tail x' = queue_tail x ->
  queue b' = queue b -> woken b' = woken b ->
  FairTimeout.seed_ok (FairTimeout.seed (fair_timeout x')) ->
  mutex x' = is_some (locked_by b') -> fair_timeout x' = Parking.fair_timeout b' ->
  sim (put_bucket B x' l) b'.
Proof.
  intros Hsim Hi Hx Hh Ht Hq Hw Hse Hm Hf.
  destruct (sim_here _ _ Hsim Hi) as (y & Hy & _ & _ & Hok & Hnd & Hpl & _). simplify_eq.
  rewrite <- (set_tds_id (put_bucket _ _ _)). eapply sim_step; try done.
  - rewrite Hq. unfold queue_ok. by rewrite Hh, Ht.
  - by rewrite Hq.
  - by rewrite Hq.
  - simpl. eauto.
  - rewrite Hw. apply Hsim.
Qed.

(** ** The operations of the code *)

Context (Hi : (i < length qs0)%nat).

(** The reads that lead to the bucket of a key. *)
Lemma find_bucket_ok n k l b {X} (g : bucket_ref -> prog Lot X) Q :
  sim l b -> hash_of k bits = Z.of_nat i -> twp n (g B) l Q ->
  twp n (let! bits := table_read p hash_bits in
         let! h := hash k bits in
         let! r := bucket_at p h in g r) l Q.
Proof.
  intros Hsim Hk HQ. destruct (sim_lot _ _ Hsim) as (T & HT & <-).
  eapply twp_find_bucket; [apply HT..|]. unfold bucket_index. by rewrite Hk, Nat2Z.id.
Qed.

Lemma bucket_lock_ok n me l b (Q : nat -> () -> Lot -> Prop) :
  sim l b -> locked_by b = None ->
  (forall x', sim (put_bucket B x' l) (set_locked_by (Some me) b) -> Q n () (put_bucket B x' l)) ->
  twp n (bucket_lock B) l Q.
Proof.
  intros Hsim Hn HQ.
  destruct (sim_here _ _ Hsim Hi) as (x & Hx & Hf & Hm & _ & _ & _ & Hse). rewrite Hn in Hm.
  eapply twp_bucket_act; [done|by rewrite Hm|]. apply HQ.
  by eapply sim_bucket_step.
Qed.

Lemma bucket_unlock_ok n me l b (Q : nat -> () -> Lot -> Prop) :
  sim l b -> locked_by b = Some me ->
  (forall x', sim (put_bucket B x' l) (set_locked_by None b) -> Q n () (put_bucket B x' l)) ->
  twp n (bucket_unlock B) l Q.
Proof.
  intros Hsim Hn HQ.
  destruct (sim_here _ _ Hsim Hi) as (x & Hx & Hf & Hm & _ & _ & _ & Hse). rewrite Hn in Hm.
  eapply twp_bucket_act; [done|by rewrite Hm|]. apply HQ.
  by eapply sim_bucket_step.
Qed.

Lemma sim_table l b : sim l b -> HASHTABLE l = p /\ p <> 0.
Proof. intros [(T & HT & _) _ _]. split; apply HT. Qed.

Lemma sim_lock_bucket n me k l b (Q : nat -> bucket_ref -> Lot -> Prop) :
  sim l b -> locked_by b = None -> hash_of k bits = Z.of_nat i ->
  (forall x', sim (put_bucket B x' l) (set_locked_by (Some me) b) -> Q n B (put_bucket B x' l)) ->
  twp n (lock_bucket k) l Q.
Proof.
  intros Hsim Hn Hk HQ. destruct (sim_table _ _ Hsim) as [Hp Hnull].
  apply twp_forever. wp_step. eapply twp_get_hashtable; [done..|].
  eapply (find_bucket_ok _ _ _ _ (fun r => bucket_lock r ;; _)); [done..|]. wp_step.
  eapply bucket_lock_ok; [done..|]. intros x' Hs. wp. rewrite Hp, Z.eqb_refl. wp. by apply HQ.
Qed.

Lemma sim_lock_bucket_checked n me a d l b (Q : nat -> Z * bucket_ref -> Lot -> Prop) :
  sim l b -> locked_by b = None -> tds l !! a = Some d -> hash_of (key d) bits = Z.of_nat i ->
  (forall x', sim (put_bucket B x' l) (set_locked_by (Some me) b) ->
     Q n (key d, B) (put_bucket B x' l)) ->
  twp n (lock_bucket_checked a) l Q.
Proof.
  intros Hsim Hn Hd Hk HQ. destruct (sim_table _ _ Hsim) as [Hp Hnull].
  apply twp_forever. wp_step. eapply twp_get_hashtable; [done..|]. wp_step.
  eapply twp_td_read; [done|].
  eapply (find_bucket_ok _ _ _ _ (fun r => bucket_lock r ;; _)); [done..|]. wp_step.
  eapply bucket_lock_ok; [done..|]. intros x' Hs. wp. rewrite Hp, Z.eqb_refl. wp_step.
  eapply twp_td_read; [done|]. wp. rewrite Z.eqb_refl. wp. by apply HQ.
Qed.

(** Threads in the queue are not woken, nor in another queue. *)
Lemma sim_not_woken l b t k : sim l b -> (t, k) ∈ queue b -> woken b !! t = None.
Proof.
  intros Hsim Hin. destruct (sim_here _ _ Hsim Hi) as (x & _ & _ & _ & [Hs _] & _).
  destruct (seg_in _ _ _ _ _ _ Hs Hin) as (d & Hd & _ & Hf).
  destruct (woken b !! t) as [tok|] eqn:E; [|done].
  destruct (sim_woken _ _ Hsim _ _ E) as (d' & Hd' & Hf' & _). simplify_eq. lia.
Qed.

Lemma sim_elsewhere l b t k j q k' :
  sim l b -> (t, k) ∈ queue b -> j <> i -> qs0 !! j = Some q -> (t, k') ∉ q.
Proof.
  intros [(T & HT & _) _ _] Hin Hj Hq Hin'. apply Hj.
  eapply lot_disjoint; [done| |exact Hin'| |exact Hin].
  - by rewrite list_lookup_insert_ne.
  - by apply list_lookup_insert_eq.
Qed.

Lemma relinked_woken m m' q w : relinked m m' q -> woken_ok m w -> woken_ok m' w.
Proof.
  intros Hr Hw t tok Ht. destruct (Hw t tok Ht) as (d & Hd & Hf & Hu).
  destruct (Hr (td_addr t)) as [->|(? & ? & d' & nx & _ & _ & Hd' & Hn)]; [eauto|].
  simplify_eq. eauto.
Qed.

(** Taking threads off the queue. *)
Lemma sim_shorter l b l' q' :
  sim l b -> requeued B l l' (queue b) q' -> NoDup q'.*1 -> q' ⊆ queue b ->
  sim l' (set_queue q' b).
Proof.
  intros Hsim (x & x' & m' & Hx & -> & Hm & Hf & Hq & Hr) Hnd Hsub.
  destruct (sim_here _ _ Hsim Hi) as (y & Hy & Hfy & Hmy & Hok & _ & Hpl & Hse). simplify_eq.
  eapply sim_step; try done.
  - intros t k j q Hj Hqj Hin. eapply relinked_out; [done|]. intros Ht.
    apply list_elem_of_fmap in Ht as ([t' k'] & E & Hin'). simpl in E. subst t'.
    by eapply (sim_elsewhere l b t k').
  - intros t k Hin. apply (Hpl t k). by apply Hsub.
  - intros t d Hd Hdl. by eapply relinked_deadlocked.
  - by rewrite Hf.
  - by rewrite Hm, Hmy.
  - by rewrite Hf.
  - eapply relinked_woken; [done|apply Hsim].
Qed.

Lemma take_first_spec k q t rest : take_first k q = Some (t, rest) ->
  exists q1 q2, q = q1 ++ (t, k) :: q2 /\ rest = q1 ++ q2.
Proof.
  revert rest. induction q as [|[t' k'] q IH]; intros rest; simpl; [done|].
  destruct (Z.eqb_spec k' k) as [->|Hne]; [intros; simplify_eq; by exists [], rest|].
  destruct (take_first k q) as [[t1 r1]|]; [|done]. intros; simplify_eq.
  destruct (IH r1 eq_refl) as (q1 & q2 & -> & ->). by exists ((t', k') :: q1), q2.
Qed.

(** The first thread that waits for [k] leaves the queue. *)
Lemma sim_take l b l' k t rest :
  sim l b -> take_first k (queue b) = Some (t, rest) -> requeued B l l' (queue b) rest ->
  sim l' (set_queue rest b) /\ (t ∉ rest.*1) /\
  (forall j q k', j <> i -> qs0 !! j = Some q -> (t, k') ∉ q) /\
  exists d, tds l' !! td_addr t = Some d /\ futex d = 1.
Proof.
  intros Hsim Ht Hr. destruct (sim_here _ _ Hsim Hi) as (x & _ & _ & _ & [Hs _] & Hnd & _).
  destruct (take_first_spec _ _ _ _ Ht) as (q1 & q2 & Hq & Hrest).
  assert (Hin : (t, k) ∈ queue b) by (rewrite Hq; set_solver).
  assert (Hnd' : NoDup (t :: rest.*1)).
  { eapply NoDup_Permutation_proper; [|exact Hnd]. rewrite Hq, Hrest, !fmap_app. simpl.
    by rewrite Permutation_middle. }
  apply NoDup_cons in Hnd' as [Hnt Hnr]. split_and!; [|done| |].
  - apply (sim_shorter l); [done..|]. rewrite Hq, Hrest. set_solver.
  - intros j q k' Hj Hqj. by apply (sim_elsewhere l b t k j).
  - destruct Hr as (y & y' & m' & _ & -> & _ & _ & _ & Hr). simpl.
    destruct (seg_in _ _ _ _ _ _ Hs Hin) as (d & Hd & _ & Hf).
    destruct (Hr (td_addr t)) as [->|(? & ? & ? & ? & _ & _ & Hd' & ->)]; [eauto|].
    simplify_eq. eauto.
Qed.

(** Waking a thread that has left the queue. *)
Lemma sim_wake l b t d tok :
  sim l b -> t ∉ (queue b).*1 ->
  (forall j q k', j <> i -> qs0 !! j = Some q -> (t, k') ∉ q) ->
  tds l !! td_addr t = Some d ->
  sim (set_tds (<[td_addr t := set_futex 0 (set_unpark_token tok d)]> (tds l)) l)
    (set_woken (<[t := tok]> (woken b)) b).
Proof.
  intros Hsim Ht Hother Hd.
  destruct (sim_here _ _ Hsim Hi) as (x & Hx & Hf & Hm & [Hs Htl] & Hnd & Hpl & Hse).
  assert (Hne : forall t' (m : gmap Z ThreadData) d', t' <> t ->
    <[td_addr t := d']> m !! td_addr t' = m !! td_addr t').
  { intros t' m d' Hne. apply lookup_insert_ne. intros E. by apply td_addr_inj in E. }
  rewrite <- (put_bucket_id B x l) at 2 by done. eapply sim_step; try done; simpl.
  - intros t' k j q Hj Hq Hin. apply Hne. intros ->. by eapply Hother.
  - split; [|done]. eapply seg_frame; [|done]. intros t' k Hin. apply Hne. intros ->.
    apply Ht, list_elem_of_fmap. by exists (t, k).
  - intros t' d' Hd' Hdl. destruct (decide (t' = t)) as [->|Hn].
    + simplify_eq. rewrite lookup_insert_eq. eauto.
    + rewrite Hne by done. eauto.
  - intros t' tok' Hw. destruct (decide (t' = t)) as [->|Hn].
    + rewrite lookup_insert_eq in Hw. simplify_eq. rewrite lookup_insert_eq. eauto.
    + rewrite lookup_insert_ne in Hw by done. rewrite Hne by done. by apply (sim_woken _ _ Hsim).
Qed.

Lemma fair_ok n l b (Q : nat -> bool -> Lot -> Prop) :
  sim l b ->
  (forall m now x', (m <= n)%nat ->
     sim (put_bucket B x' l)
       (set_fair (FairTimeout.should_timeout now (Parking.fair_timeout b)).2 b) ->
     Q m (FairTimeout.should_timeout now (Parking.fair_timeout b)).1 (put_bucket B x' l)) ->
  twp n (fair B) l Q.
Proof.
  intros Hsim HQ. unfold fair. wp_step. apply twp_now. intros m now Hm.
  destruct (sim_here _ _ Hsim Hi) as (x & Hx & Hf & Hmx & _ & _ & _ & Hse).
  specialize (HQ m now (set_fair_timeout
    (FairTimeout.should_timeout now (Parking.fair_timeout b)).2 x) Hm).
  rewrite <- Hf in HQ. destruct (FairTimeout.should_timeout now (fair_timeout x)) as [r f] eqn:E.
  eapply twp_bucket_act; [done|by rewrite E|]. apply HQ.
  eapply sim_bucket_step; try done. simpl.
  pose proof (FairTimeout.should_timeout_seed now _ Hse) as Hok. by rewrite E in Hok.
Qed.

(** *** [unpark_one] *)

Context `{KK : Kernel} {X : Type}.

(** The state of the code is the lot, the kernel and the rest, on which the callbacks
    work; that of the abstract operations the bucket and the rest. *)
Abbreviation sys := (Lot * (waiters * X))%type.
Abbreviation lot := (lens_fst (X := Lot) (Y := waiters * X)).
Definition ker : lens sys waiters := lens_comp lens_snd lens_fst.
Definition rest_of : lens sys X := lens_comp lens_snd lens_snd.
Abbreviation spec := (lens_fst (X := Parking.bucket) (Y := X)).

Definition on_rest {A} (c : prog X A) : prog (Parking.bucket * X) A := lift lens_snd c.
Definition in_rest {A} (c : prog X A) : prog sys A := lift rest_of c.

Lemma unpark_ok n handle l w z (Q : nat -> () -> sys -> Prop) :
  (forall m w', Q m () (l, (w', z))) -> twp n (unpark ker handle) (l, (w, z)) Q.
Proof.
  intros HQ. unfold unpark, Parker.unpark, Parker.sys_futex_wake. simpl.
  pose proof (wake_one_result handle w) as Hr. destruct (wake_one handle w) as [[r e] w'] eqn:E.
  wp_step. eapply twp_act'; [simpl; by rewrite E|]. simpl in *. wp_step.
  assert (Hr' : (r = 0 \/ r = 1) \/ r = -1 /\ e = EFAULT).
  { destruct Hr as [Hr|Hr]; [left; lia|right; by simplify_eq]. }
  apply twp_assert.
  { destruct Hr' as [[-> | ->]|[-> _]]; done. }
  destruct (Z.eqb_spec r (-1)); [|by wp]. apply twp_assert; [|by apply HQ].
  destruct Hr' as [Hr'|[_ ->]]; [lia|done].
Qed.

Lemma twp_rest {A} n (c : prog X A) l w z (Q : nat -> A -> sys -> Prop) :
  returns c z (fun _ _ => True) ->
  (forall m a z', evals c z a z' -> Q m a (l, (w, z'))) -> twp n (in_rest c) (l, (w, z)) Q.
Proof.
  intros Hc HQ. eapply (twp_lift rest_of); [by apply twp_evals, Hc|].
  intros m a z' [_ He]. by apply HQ.
Qed.

Lemma evals_rest {A} (c : prog X A) (b : Parking.bucket) z a z' :
  evals c z a z' -> evals (on_rest c) (b, z) a (b, z').
Proof. intros H'. by apply (evals_lift lens_snd c (b, z)). Qed.

(** Running the code on the lot. *)
Lemma twp_lot {A} n (c : prog Lot A) l (v : waiters * X) (Q : nat -> A -> sys -> Prop) :
  twp n c l (fun m a l' => Q m a (l', v)) -> twp n (lift lot c) (l, v) Q.
Proof. intros Hc. by eapply (twp_lift lot). Qed.

(** One step of an abstract operation. *)
Ltac ev :=
  eapply evals_bind;
    [first [apply evals_load | apply evals_store | apply evals_now | by apply evals_rest |
            by apply evals_act']|];
  simpl.

(** The abstract operation, when it finds a thread and when it does not. *)
Lemma evals_unpark_some me k (cb : UnparkResult -> prog X Z) b z t rest now r tok z' :
  locked_by b = None -> take_first k (queue b) = Some (t, rest) ->
  r = MkUnparkResult 1 0 (waits_for k rest)
        (FairTimeout.should_timeout now (Parking.fair_timeout b)).1 ->
  evals (cb r) z tok z' ->
  evals (B_unpark_one spec me k (fun r => on_rest (cb r))) (b, z) r
    (Parking.MkBucket None rest (<[t := tok]> (woken b))
       (FairTimeout.should_timeout now (Parking.fair_timeout b)).2, z').
Proof.
  intros Hlk Ht Hr He. subst r. unfold B_unpark_one, Parking.lock_bucket, modify, unlock_bucket.
  eapply evals_bind; [apply evals_act'; simpl; by rewrite Hlk|].
  ev. rewrite Ht. ev. eapply evals_bind; [apply (evals_now now)|].
  eapply evals_bind; [apply evals_act'; simpl; by rewrite (surjective_pairing (FairTimeout.should_timeout now _))|].
  simpl. ev. ev. ev. constructor.
Qed.

Lemma evals_unpark_none me k (cb : UnparkResult -> prog X Z) b z tok z' :
  locked_by b = None -> take_first k (queue b) = None ->
  evals (cb UnparkResult_default) z tok z' ->
  evals (B_unpark_one spec me k (fun r => on_rest (cb r))) (b, z) UnparkResult_default
    (set_locked_by None b, z').
Proof.
  intros Hlk Ht He. unfold B_unpark_one, Parking.lock_bucket, modify, unlock_bucket.
  eapply evals_bind; [apply evals_act'; simpl; by rewrite Hlk|].
  ev. rewrite Ht. ev. ev. constructor.
Qed.

(** Unparking a thread: the result, the state after the callback and the lot are
    those of the abstract operation. *)
Lemma unpark_one_sim n me k (cb : UnparkResult -> prog X Z) l b w z :
  sim l b -> locked_by b = None -> hash_of k bits = Z.of_nat i ->
  (forall r z, returns (cb r) z (fun _ _ => True)) ->
  twp n (Lot.unpark_one lot ker k (fun r => in_rest (cb r))) (l, (w, z)) (fun _ r '(l', (_, z')) =>
    exists b', evals (B_unpark_one spec me k (fun r => on_rest (cb r))) (b, z) r (b', z') /\
      sim l' b' /\ locked_by b' = None).
Proof.
  intros Hsim Hlk Hk Hcb. unfold Lot.unpark_one. wp_step. apply twp_lot.
  eapply (sim_lock_bucket _ me); [done..|]. intros x1 Sim1.
  destruct (sim_here _ _ Sim1 Hi) as (y & Hy & _ & _ & Hok & Hnd & _).
  wp_step. apply twp_lot. eapply take_thread_ok; [exact Hy|exact Hok|exact Hnd|]. simpl.
  destruct (take_first k (queue b)) as [[t rest]|] eqn:Ht.
  - intros l2 Hrq. destruct (sim_take _ _ _ _ _ _ Sim1 Ht Hrq) as (Sim2 & Hnt & Hoth & d & Hd & _).
    wp_step. apply twp_lot. eapply fair_ok; [exact Sim2|]. intros m now x3 Hm Sim3.
    wp_step. apply twp_rest; [apply Hcb|]. intros m2 tok z2 He.
    wp_step. apply twp_lot. eapply twp_td_write; [exact Hd|].
    wp_step. apply twp_lot. unfold unpark_lock, Parker.unpark_lock. wp_step.
    eapply twp_td_write; [simpl; by rewrite lookup_insert_eq|]. wp. rewrite insert_insert_eq.
    pose proof (sim_wake _ _ t d tok Sim3 Hnt Hoth Hd) as Sim4.
    apply twp_lot. eapply bucket_unlock_ok; [exact Sim4|done|]. intros x5 Sim5.
    wp_step. apply unpark_ok. intros m3 w'. wp.
    eexists. split; [|split; [exact Sim5|done]]. by apply (evals_unpark_some me k cb b z t rest now _ tok z2).
  - wp_step. apply twp_rest; [apply Hcb|]. intros m2 tok z2 He.
    wp_step. apply twp_lot. eapply bucket_unlock_ok; [exact Sim1|done|]. intros x2 Sim2. wp.
    eexists. split; [|split; [exact Sim2|done]]. by apply (evals_unpark_none me k cb b z tok z2).
Qed.

(** *** [park] *)

(** A thread that is in no queue. *)
Definition awake t b : Prop :=
  (t ∉ (queue b).*1) /\ forall j q k, j <> i -> qs0 !! j = Some q -> (t, k) ∉ q.

Lemma sim_append l b l' t k token timeout d :
  sim l b -> awake t b -> hash_of k bits = Z.of_nat i -> tds l !! td_addr t = Some d ->
  requeued B (set_tds (<[td_addr t := asleep k token timeout d]> (tds l)) l) l'
    (queue b) (queue b ++ [(t, k)]) ->
  sim l' (set_woken (delete t (woken b)) (set_queue (queue b ++ [(t, k)]) b)) /\
  exists d', tds l' !! td_addr t = Some d' /\ futex d' = 1 /\ key d' = k /\ deadlocked d' = deadlocked d.
Proof.
  intros Hsim [Hnt Hoth] Hk Hd (x & x' & m' & Hx & -> & Hm & Hf & Hq & Hr).
  destruct (sim_here _ _ Hsim Hi) as (y & Hy & Hfy & Hmy & Hok & Hnd & Hpl & Hse).
  simpl in Hr. change (bucket_of B l = Some x) in Hx. simplify_eq.
  assert (Hne : forall t' d', t' <> t ->
    <[td_addr t := d']> (tds l) !! td_addr t' = tds l !! td_addr t').
  { intros t' d' Hn. apply lookup_insert_ne. intros E. by apply td_addr_inj in E. }
  assert (Ht : m' !! td_addr t = Some (asleep k token timeout d))
    by (rewrite (relinked_out _ _ _ _ Hr Hnt); apply lookup_insert_eq).
  split; [|by eauto 6].
  apply (sim_step l b x); try done; simpl.
  - intros t' k' j q Hj Hqj Hin. rewrite (relinked_out _ _ _ _ Hr).
    + apply Hne. intros ->. by apply (Hoth j q k').
    + intros Ht'. apply list_elem_of_fmap in Ht' as ([t1 k1] & E & Hin'). simpl in E. subst t1.
      by apply (sim_elsewhere l b t' k1 j q k').
  - rewrite fmap_app. apply NoDup_app. split_and!; [done| |apply NoDup_singleton].
    intros t' Ht' E. simpl in E. apply list_elem_of_singleton in E as ->. done.
  - intros t' k' Hin. apply elem_of_app in Hin as [Hin|Hin]; [by apply (Hpl t' k')|].
    apply list_elem_of_singleton in Hin. by simplify_eq.
  - intros t' d' Hd' Hdl. destruct (decide (t' = t)) as [->|Hn].
    + simplify_eq. eauto.
    + eapply relinked_deadlocked; [done|by rewrite Hne|done].
  - by rewrite Hf.
  - by rewrite Hm, Hmy.
  - by rewrite Hf.
  - intros t' tok Hw. apply lookup_delete_Some in Hw as [Hn Hw].
    destruct (sim_woken _ _ Hsim _ _ Hw) as (d' & Hd' & Hf' & Hu').
    destruct (Hr (td_addr t')) as [E|(? & ? & d1 & nx & _ & _ & E1 & E2)].
    + exists d'. by rewrite E, Hne.
    + rewrite Hne in E1 by done. simplify_eq. eauto.
Qed.

(** A thread that nobody wakes sleeps until its deadline. *)
Lemma sys_futex_wait_ok n a val ts d l w z :
  tds l !! a = Some d ->
  psafe n (Parker.sys_futex_wait ker (word_at lot) a val ts) (l, (w, z)) (fun r s' =>
    (exists w', s' = (l, (w', z))) /\
    (r.1 = 0 \/ r.1 = -1 /\ (r.2 = EINTR \/ r.2 = EAGAIN \/ is_some ts = true /\ r.2 = ETIMEDOUT))).
Proof.
  intros Hd. destruct n as [|n]; [done|]. simpl. unfold word_at, futex_at. simpl. rewrite Hd. simpl.
  destruct (futex d =? val); [|by apply psafe_ret; eauto 10]. destruct n as [|n]; [done|]. simpl.
  intros e. destruct n as [|n]; [by destruct (spurious e)|]. destruct (spurious e); simpl.
  - pose proof (wait_ends_result a ts (go_to_sleep a w)) as Hr.
    destruct (wait_ends a ts _) as [[r er] w']. simpl in Hr. apply psafe_ret. split; [eauto|]. simpl.
    destruct Hr as [Hr|[Hr|[? Hr]]]; simplify_eq; auto 10.
  - destruct (sleepers a (go_to_sleep a w)); [|done]. apply psafe_ret. split; [eauto|]. by left.
Qed.

Lemma futex_wait_ok n a ts d l w z :
  tds l !! a = Some d ->
  psafe n (Parker.futex_wait ker (word_at lot) a ts) (l, (w, z)) (fun _ s' => exists w', s' = (l, (w', z))).
Proof.
  intros Hd. eapply psafe_bind; [by eapply sys_futex_wait_ok|].
  intros m [r e] l' _ [(w' & ->) Hr]. simpl in Hr. apply psafe_twp_bind, twp_assert.
  { destruct Hr as [->|[-> _]]; done. }
  intros j _. destruct (Z.eqb_spec r (-1)) as [->|]; [|by apply psafe_ret; eauto].
  apply returns_psafe. intros j'. apply twp_assert; [|by eauto].
  destruct Hr as [|[_ [->|[->|[-> ->]]]]]; done.
Qed.

Lemma parker_park_alone n a d l w z (Q : () -> sys -> Prop) :
  tds l !! a = Some d -> futex d = 1 -> psafe n (parker_park lot ker a) (l, (w, z)) Q.
Proof.
  intros Hd Hf. apply psafe_forever with (J := fun s => exists w', s = (l, (w', z))); [by eauto|].
  intros m ? _ (w' & ->).
  apply psafe_twp_bind. wp_step. apply twp_lot. eapply twp_td_read; [done|]. rewrite Hf. wp. intros j _.
  eapply psafe_bind; [by eapply futex_wait_ok|]. intros j' [] ? _ (w1 & ->). apply psafe_ret. eauto.
Qed.

Lemma park_until_alone n a d timeout l w z :
  tds l !! a = Some d -> futex d = 1 ->
  psafe n (park_until lot ker a timeout) (l, (w, z)) (fun r s' => r = false /\ exists w', s' = (l, (w', z))).
Proof.
  intros Hd Hf. apply psafe_forever with (J := fun s => exists w', s = (l, (w', z))); [by eauto|].
  intros m ? _ (w' & ->).
  apply psafe_twp_bind, twp_lot. eapply twp_td_read; [done|]. rewrite Hf. simpl. intros j _.
  apply psafe_twp_bind, twp_now. intros m' now _ j' _.
  destruct (timeout <=? now); [apply psafe_ret; by eauto|].
  destruct (negb _).
  - eapply psafe_bind; [by eapply (parker_park_alone _ _ _ _ _ _ (fun _ _ => False))|].
    by intros.
  - eapply psafe_bind; [by eapply futex_wait_ok|]. intros ? [] ? _ (w1 & ->). apply psafe_ret. eauto.
Qed.

(** A thread that is deadlocked, as [on_unpark] leaves it: its report is sent. *)
Definition reported (a : Z) (d : ThreadData) (c : nat) (r : list DeadlockedThread) l l' : Prop :=
  exists bt, reports l' = <[c := r ++ [MkDeadlockedThread (thread_id (deadlock_data d)) bt]]> (reports l) /\
    tds l' = <[a := set_futex 1 (set_sender None d)]> (tds l).

Lemma on_unpark_alone n a d c r l w z :
  tds l !! a = Some d -> deadlocked d = true -> backtrace_sender (deadlock_data d) = Some c ->
  reports l !! c = Some r -> psafe n (on_unpark lot ker a) (l, (w, z)) (fun _ _ => False).
Proof.
  intros Hd Hdl Hc Hr. apply psafe_twp_bind, twp_lot. eapply twp_td_read; [done|]. rewrite Hdl. intros j _.
  apply psafe_twp_bind, twp_lot. eapply twp_td_read; [done|]. rewrite Hc. intros j1 _.
  apply psafe_twp_bind, twp_lot. eapply twp_td_write; [done|]. intros j2 _.
  apply psafe_twp_bind. wp_step. apply twp_lot. eapply twp_td_read; [apply lookup_insert_eq|].
  apply twp_lot. eapply twp_act'; [simpl; by rewrite Hr|]. intros j3 _.
  apply psafe_twp_bind, twp_lot. eapply twp_td_write; [apply lookup_insert_eq|]. intros j4 _.
  eapply psafe_bind; [by eapply (parker_park_alone _ _ _ _ _ _ (fun _ _ => False)); [apply lookup_insert_eq|]|].
  done.
Qed.

Lemma on_unpark_sleeps a d c r l w z :
  tds l !! a = Some d -> deadlocked d = true -> backtrace_sender (deadlock_data d) = Some c ->
  reports l !! c = Some r -> exists l' w',
    run 20 (fun _ => calm) (on_unpark lot ker a) (l, (w, z)) = Stuck (l', (w', z)) /\ reported a d c r l l'.
Proof.
  intros Hd Hdl Hc Hr. eexists _, _. split.
  { eapply run_act; [cbn; rewrite Hd; reflexivity|]. cbn beta. rewrite Hdl.
    eapply run_act; [cbn; rewrite Hd; reflexivity|]. cbn beta. rewrite Hc.
    eapply run_act; [cbn; rewrite Hd; reflexivity|].
    eapply run_act; [cbn; rewrite lookup_insert_eq; reflexivity|].
    eapply run_act; [cbn; rewrite Hr; reflexivity|].
    eapply run_act; [cbn; rewrite lookup_insert_eq; reflexivity|].
    eapply run_loop.
    eapply run_act; [cbn; rewrite lookup_insert_eq; reflexivity|].
    eapply run_act; [cbn; unfold word_at, futex_at; cbn; rewrite lookup_insert_eq; reflexivity|].
    eapply run_ask. eapply run_block. cbn. rewrite sleepers_sleep, decide_True by done. reflexivity. }
  eexists. split; [reflexivity|]. apply insert_insert_eq.
Qed.

(** The abstract operation, when the callback refuses and after a timeout. *)
Section Abstract.
Context (me : nat) (k : Z) (validate : prog X bool) (before_sleep : prog X ())
  (timed_out_cb : Z -> bool -> prog X ()) (token : Z) (b : Parking.bucket) (z : X).

Definition abstract_park (timeout : option Z) : prog (Parking.bucket * X) ParkResult :=
  B_park spec me k (on_rest validate) (on_rest before_sleep)
    (fun k w => on_rest (timed_out_cb k w)) token timeout.

Lemma evals_park_invalid timeout z' :
  locked_by b = None -> evals validate z false z' ->
  evals (abstract_park timeout) (b, z) Invalid (set_locked_by None b, z').
Proof.
  intros Hlk He. unfold abstract_park, B_park, Parking.lock_bucket, modify, unlock_bucket.
  eapply evals_bind; [apply evals_act'; simpl; by rewrite Hlk|].
  ev. ev. constructor.
Qed.

Lemma evals_park_timeout deadline z1 z2 z3 :
  locked_by b = None -> me ∉ (queue b).*1 -> evals validate z true z1 ->
  evals before_sleep z1 () z2 -> evals (timed_out_cb k (negb (waits_for k (queue b)))) z2 () z3 ->
  evals (abstract_park (Some deadline)) (b, z) TimedOut
    (set_locked_by None (set_woken (delete me (woken b)) b), z3).
Proof.
  intros Hlk Hme Hv Hb Ht. unfold abstract_park, B_park, Parking.lock_bucket, modify, unlock_bucket, enqueue.
  eapply evals_bind; [apply evals_act'; simpl; by rewrite Hlk|].
  ev. ev. ev. ev. eapply evals_bind with (a := false).
  { apply evals_forever. ev. rewrite lookup_delete_eq.
    eapply evals_bind; [apply (evals_now deadline)|]. rewrite Z.leb_refl. constructor. }
  eapply evals_bind; [by apply evals_act'|].
  assert (Hr : remove_thread me (queue b ++ [(me, k)]) = queue b).
  { unfold remove_thread. rewrite filter_app, filter_cons_False, filter_nil, app_nil_r
      by (simpl; tauto). by apply remove_thread_out. }
  simpl. ev. rewrite lookup_delete_eq. ev. rewrite Hr. ev. ev. ev. constructor.
Qed.

Context (Hval : forall z, returns validate z (fun _ _ => True))
  (Hbs : forall z, returns before_sleep z (fun _ _ => True))
  (Hto : forall k w z, returns (timed_out_cb k w) z (fun _ _ => True)).

(** The sleep of [park], when no other thread runs. *)
Lemma park_sleep_alone n a d l w z1 timeout :
  tds l !! a = Some d -> futex d = 1 ->
  psafe n (match timeout with
           | Some timeout => park_until lot ker a timeout
           | None => parker_park lot ker a ;; on_unpark lot ker a ;; Ret true
           end) (l, (w, z1)) (fun r s' => r = false /\ (exists w', s' = (l, (w', z1))) /\ is_some timeout = true).
Proof.
  intros Hd Hf. destruct timeout.
  - eapply psafe_mono; [by eapply park_until_alone|]. simpl. tauto.
  - eapply psafe_bind; [by eapply (parker_park_alone _ _ _ _ _ _ (fun _ _ => False))|]. by intros.
Qed.

(** What [park] does after a timeout. *)
Lemma park_timed_out n l b1 d w z1 (Q : nat -> ParkResult -> sys -> Prop) :
  sim l b1 -> locked_by b1 = None -> queue b1 = queue b ++ [(me, k)] ->
  me ∉ (queue b).*1 -> hash_of k bits = Z.of_nat i ->
  tds l !! td_addr me = Some d -> futex d = 1 -> key d = k ->
  (forall m z2 l', evals (timed_out_cb k (negb (waits_for k (queue b)))) z1 () z2 ->
     sim l' (set_queue (queue b) b1) -> Q m TimedOut (l', (w, z2))) ->
  twp n (let! re := lift lot (lock_bucket_checked (td_addr me)) in
         let '(k, r) := re in
         let! late := lift lot (timed_out (td_addr me)) in
         if negb late then
           lift lot (bucket_unlock r) ;;
           let! t := lift lot (td_read (td_addr me) unpark_token) in Ret (Unparked t)
         else
           let! o := lift lot (remove_self (td_addr me) k r) in
           match o with
           | Some w => in_rest (timed_out_cb k w)
           | None => fail Panic
           end ;;
           lift lot (bucket_unlock r) ;;
           Ret TimedOut) (l, (w, z1)) Q.
Proof.
  intros Hsim Hlk Hq Hme Hk Hd Hf Hkd HQ. wp_step. apply twp_lot.
  eapply (sim_lock_bucket_checked _ me); [done..|by rewrite Hkd|]. intros x1 Sim1. rewrite Hkd.
  wp_step. apply twp_lot. unfold timed_out, Parker.timed_out. wp_step. eapply twp_td_read; [exact Hd|].
  rewrite Hf. wp. apply twp_lot.
  destruct (sim_here _ _ Sim1 Hi) as (y & Hy & _ & _ & Hok & Hnd & _).
  eapply (remove_self_ok _ me k k); [exact Hy|exact Hok|exact Hnd|simpl; rewrite Hq; set_solver|].
  simpl. rewrite Hq.
  assert (Hr : remove_thread me (queue b ++ [(me, k)]) = queue b).
  { unfold remove_thread. rewrite filter_app, filter_cons_False, filter_nil, app_nil_r
      by (simpl; tauto). by apply remove_thread_out. }
  rewrite Hr. intros l2 Hrq. wp_step. apply twp_rest; [apply Hto|]. intros m2 [] z2 He.
  assert (Sim2 : sim l2 (set_queue (queue b) (set_locked_by (Some me) b1))).
  { apply (sim_shorter _ _ _ _ Sim1); simpl; rewrite ?Hq; [done| |set_solver].
    simpl in Hnd. rewrite Hq, fmap_app in Hnd. by apply NoDup_app in Hnd as [? _]. }
  wp_step. apply twp_lot. eapply bucket_unlock_ok; [exact Sim2|done|]. intros x3 Sim3. wp.
  apply HQ; [done|]. destruct b1. simpl in *. subst. done.
Qed.

Definition concrete_park (timeout : option Z) : prog sys ParkResult :=
  Lot.park lot ker me k (in_rest validate) (in_rest before_sleep)
    (fun k w => in_rest (timed_out_cb k w)) token timeout.

(** Parking, when no other thread runs: each result is one of the abstract
    operation. *)
Lemma park_sim n l w timeout :
  sim l b -> locked_by b = None -> hash_of k bits = Z.of_nat i -> awake me b ->
  tls l !! me = Some (td_addr me) ->
  psafe n (concrete_park timeout) (l, (w, z)) (fun r '(l', (_, z')) =>
    exists b', evals (abstract_park timeout) (b, z) r (b', z') /\ sim l' b' /\ locked_by b' = None).
Proof.
  intros Hsim Hlk Hk Haw Htls. unfold concrete_park, Lot.park.
  destruct (sim_lot _ _ Hsim) as (T & HT & _).
  destruct (li_tls _ _ _ _ _ HT _ _ Htls) as (_ & d & Hd & Hdl).
  apply psafe_twp_bind, twp_lot. unfold with_thread_data. do 2 wp_step. rewrite Htls. wp.
  intros n1 _. apply psafe_twp_bind, twp_lot.
  eapply (sim_lock_bucket _ me); [done..|]. intros x1 Sim1 n2 _.
  apply psafe_twp_bind, twp_rest; [apply Hval|]. intros n3 v z1 Hv n4 _. destruct v; simpl.
  - destruct (sim_here _ _ Sim1 Hi) as (y & Hy & _ & _ & Hok & Hnd & _).
    apply psafe_twp_bind, twp_lot. eapply append_ok; [exact Hy|exact Hok|exact Hnd|apply Haw|exact Hd|].
    intros l2 Hrq n5 _.
    destruct (sim_append _ _ _ _ _ _ _ _ Sim1 Haw Hk Hd Hrq) as (Sim2 & d2 & Hd2 & Hf2 & Hk2 & _).
    apply psafe_twp_bind, twp_lot. eapply bucket_unlock_ok; [exact Sim2|done|].
    intros x3 Sim3 n6 _. apply psafe_twp_bind, twp_rest; [apply Hbs|]. intros n7 [] z2 Hb n8 _.
    eapply psafe_bind; [eapply park_sleep_alone; [exact Hd2|done]|].
    intros n9 ? ? _ (-> & (w' & ->) & Hto').
    destruct timeout as [deadline|]; [|done]. apply returns_psafe. intros n10.
    eapply (park_timed_out _ _ _ d2); [exact Sim3|done|done|apply Haw|done|exact Hd2|done|done|].
    intros n11 z5 l5 Hev Sim5. eexists. split; [|split; [exact Sim5|done]].
    assert (E : set_queue (queue b) (set_locked_by None (set_woken (delete me
      (woken (set_locked_by (Some me) b))) (set_queue (queue b ++ [(me, k)])
      (set_locked_by (Some me) b)))) = set_locked_by None (set_woken (delete me (woken b)) b))
      by done.
    simpl in E |- *. rewrite E. eapply evals_park_timeout; [done|apply Haw|done..].
  - apply psafe_twp_bind, twp_lot. eapply bucket_unlock_ok; [exact Sim1|done|].
    intros x3 Sim3 n6 _. apply psafe_ret. eexists.
    split; [|split; [exact Sim3|done]]. by apply (evals_park_invalid timeout z1).
Qed.
End Abstract.
End Sim.

(** ** Properties *)

(** C20. [unpark_one] returns, and does what the abstract operation on a list does: it
    takes the first thread with the key off the queue of its bucket, gives it the
    token of the callback and wakes it; it reports whether more threads wait for
    the key.  All buckets are unlocked again, and other queues are as before. *)
Theorem unpark_one_refines `{TableAlloc} `{ThreadLocals} `{Kernel} {X : Type}
    p bits i qs0 me k (cb : UnparkResult -> prog X Z) l b w z :
  (i < length qs0)%nat -> sim p bits i qs0 l b -> locked_by b = None ->
  hash_of k bits = Z.of_nat i -> (forall r z, returns (cb r) z (fun _ _ => True)) ->
  returns (Lot.unpark_one lens_fst ker k (fun r => in_rest (cb r))) (l, (w, z)) (fun r '(l', (_, z')) =>
    exists b', evals (B_unpark_one lens_fst me k (fun r => on_rest (cb r))) (b, z) r (b', z') /\
      sim p bits i qs0 l' b' /\ locked_by b' = None).
Proof. intros Hi Hsim Hlk Hk Hcb n. by apply unpark_one_sim. Qed.

(** C22. A thread that wakes up and finds itself marked as deadlocked sends one report with its
    system thread id to the channel it was given, gives the channel up and goes to sleep; it
    never returns from [on_unpark] and does not go wrong unless another thread unparks it. *)
Theorem deadlocked_thread_reports `{ThreadLocals} `{Kernel} {X : Type} a d c r (l : Lot) w (z : X) :
  tds l !! a = Some d -> deadlocked d = true -> backtrace_sender (deadlock_data d) = Some c ->
  reports l !! c = Some r ->
  (forall fuel es, match run fuel es (on_unpark lens_fst ker a) (l, (w, z)) with
     | Done _ _ | Fault _ _ => False
     | _ => True
     end) /\
  exists fuel l' w', run fuel (fun _ => calm) (on_unpark lens_fst ker a) (l, (w, z)) = Stuck (l', (w', z)) /\
    reported a d c r l l'.
Proof.
  intros Hd Hdl Hc Hr. split.
  - intros fuel es. pose proof (psafe_run _ _ _ (fun n => on_unpark_alone n a d c r l w z Hd Hdl Hc Hr) fuel es) as Hs.
    by destruct (run fuel es _ _).
  - exists 20%nat. by apply on_unpark_sleeps.
Qed.

(** C21. [park], run by a thread that has its data and is in no queue, while no other
    thread runs: no run of it goes wrong, and every result, with the lot and the
    state that the callbacks work on, is one that the abstract operation has. *)
Theorem park_refines `{TableAlloc} `{ThreadLocals} `{Kernel} {X : Type}
    p bits i qs0 me k (validate : prog X bool) (before_sleep : prog X ())
    (timed_out_cb : Z -> bool -> prog X ()) token timeout l b w z fuel es :
  (i < length qs0)%nat -> sim p bits i qs0 l b -> locked_by b = None ->
  hash_of k bits = Z.of_nat i -> awake i qs0 me b -> tls l !! me = Some (td_addr me) ->
  (forall z, returns validate z (fun _ _ => True)) ->
  (forall z, returns before_sleep z (fun _ _ => True)) ->
  (forall k w z, returns (timed_out_cb k w) z (fun _ _ => True)) ->
  match run fuel es (concrete_park me k validate before_sleep timed_out_cb token timeout) (l, (w, z)) with
  | Done r (l', (_, z')) => exists b',
      evals (abstract_park me k validate before_sleep timed_out_cb token timeout) (b, z) r (b', z') /\
      sim p bits i qs0 l' b' /\ locked_by b' = None
  | Fault _ _ => False
  | _ => True
  end.
Proof.
  intros Hi Hsim Hlk Hk Haw Htls Hv Hb Ht.
  pose proof (psafe_run _ _ _ (fun n => park_sim p bits i qs0 Hi me k validate before_sleep
    timed_out_cb token b z Hv Hb Ht n l w timeout Hsim Hlk Hk Haw Htls) fuel es) as Hr.
  destruct (run _ _ _ _) as [r [l' [w' z']]|f s|s|]; [exact Hr|exact Hr|done|done].
Qed.

(** The example: the bucket of the keys 72 and 80. *)
Definition demo_bucket : Parking.bucket :=
  Parking.MkBucket None [(0%nat, 72); (1%nat, 80); (2%nat, 72)] ∅ (FairTimeout.new 0 8).

Lemma demo_sim : sim 16 4 7 demo_queues demo_lot demo_bucket.
Proof.
  split.
  - exists demo_table. split; [exact demo_lot_is|done].
  - eexists. by split.
  - intros t tok Ht. simpl in Ht. by rewrite lookup_empty in Ht.
Qed.

Lemma demo_awake : awake 7 demo_queues 3 demo_bucket.
Proof.
  split.
  - change ((queue demo_bucket).*1) with [0; 1; 2]%nat. set_solver.
  - intros j q k Hj Hq Hin. unfold demo_queues in Hq. rewrite list_lookup_insert_ne in Hq by done.
    apply lookup_replicate in Hq as [-> _]. by apply not_elem_of_nil in Hin.
Qed.

(** Thread 0 is unparked: the callback sees that thread 2 still waits for 72. *)
Lemma unpark_one_refines_witness :
  hash_of 72 4 = 7 /\
  returns (Lot.unpark_one lens_fst ker 72 (fun r => in_rest (X := bool)
      (store (fun _ => have_more_threads r) ;; Ret 1))) (demo_lot, (no_waiters, false))
    (fun r '(l', (_, z')) => exists b',
       evals (B_unpark_one lens_fst 3 72 (fun r => on_rest (X := bool)
         (store (fun _ => have_more_threads r) ;; Ret 1))) (demo_bucket, false) r (b', z') /\
       sim 16 4 7 demo_queues l' b').
Proof.
  split; [reflexivity|]. intros n. eapply twp_returns.
  - apply (unpark_one_refines 16 4 7 demo_queues 3 72
      (fun r => store (fun _ : bool => have_more_threads r) ;; Ret 1) demo_lot demo_bucket no_waiters false).
    + vm_compute. lia.
    + exact demo_sim.
    + reflexivity.
    + reflexivity.
    + intros r z n'. by wp.
  - simpl. intros m r [l' [w' z']] (b' & He & Hs & _). exists b'. split; [exact He|exact Hs].
Defined.

(** Thread 3 parks on 72 until time 0, and times out. *)
Lemma park_refines_witness :
  exists s', run 200 (fun _ => calm)
    (concrete_park (X := bool) 3 72 (Ret true) (Ret ()) (fun _ w => store (fun _ => w)) 0 (Some 0))
    (demo_lot, (no_waiters, true)) = Done TimedOut s' /\
  exists b', evals (abstract_park (X := bool) 3 72 (Ret true) (Ret ())
    (fun _ w => store (fun _ => w)) 0 (Some 0)) (demo_bucket, true) TimedOut (b', s'.2.2) /\
    sim 16 4 7 demo_queues s'.1 b'.
Proof.
  destruct (run 200 (fun _ => calm) (concrete_park (X := bool) 3 72 (Ret true) (Ret ())
    (fun _ w => store (fun _ => w)) 0 (Some 0)) (demo_lot, (no_waiters, true))) as [r [l' [w' z']]|f s|s|] eqn:E.
  1: { assert (r = TimedOut) as ->.
       { vm_compute in E. injection E as <- _ _ _. reflexivity. }
       exists (l', (w', z')). split; [reflexivity|].
       pose proof (park_refines (X := bool) 16 4 7 demo_queues 3 72 (Ret true) (Ret ())
         (fun _ w => store (fun _ => w)) 0 (Some 0) demo_lot demo_bucket no_waiters true 200 (fun _ => calm)) as Hp.
       rewrite E in Hp. destruct Hp as (b' & He & Hs & _).
       - vm_compute. lia.
       - exact demo_sim.
       - reflexivity.
       - reflexivity.
       - exact demo_awake.
       - reflexivity.
       - intros z n. by wp.
       - intros z n. by wp.
       - intros k w z n. by wp.
       - exists b'. split; [exact He|exact Hs]. }
  all: vm_compute in E; discriminate E.
Defined.

(** Thread 0 is asked for a backtrace on channel 5. *)
Definition asked : ThreadData := MkThreadData 0 72 0 0 0 false (MkDeadlockData true (Some 5%nat) 9).
Definition asked_lot : Lot := MkLot 1 0 ∅ {[td_addr 0 := asked]} {[0%nat := td_addr 0]} {[5%nat := []]}.

Lemma deadlocked_thread_reports_witness :
  tds asked_lot !! td_addr 0 = Some asked /\
  exists fuel l' w', run fuel (fun _ => calm) (on_unpark lens_fst ker (td_addr 0)) (asked_lot, (no_waiters, ())) =
      Stuck (l', (w', ())) /\ exists bt, reports l' !! 5%nat = Some [MkDeadlockedThread 9 bt].
Proof.
  split; [reflexivity|].
  destruct (deadlocked_thread_reports (td_addr 0) asked 5 [] asked_lot no_waiters ()) as [_ (fuel & l' & w' & E & Hb)].
  1-4: reflexivity.
  exists fuel, l', w'. split; [exact E|]. destruct Hb as (bt & -> & _). exists bt. apply lookup_insert_eq.
Defined.
