(* ===== verification/WordLock.v ===== *)
(** * The lock of a bucket: [word_lock] in [mutex/deadlock.rs]

    A [WordLock] is one word: a bit for the lock, a bit for the lock on its queue,
    and the address of the thread that was queued last.  A thread that waits has a
    [ThreadData] on its stack, linked into the queue; it sleeps on the futex word in
    it.  The state of the system has the word, the [ThreadData] in memory, and the
    kernel's queues of sleeping threads.  Accessing a [ThreadData] that
    is not in memory is undefined behaviour.  The futex system call is a parameter. *)

From S2P Require Import Prelude Machine Timing ThreadParker.

Module Word.

Definition LOCKED_BIT : Z := 1.
Definition QUEUE_LOCKED_BIT : Z := 2.
Definition QUEUE_MASK : Z := unot usize 3.

(** ** [LockState] *)

Definition is_locked (s : Z) : bool := negb (Z.land s LOCKED_BIT =? 0).
Definition is_queue_locked (s : Z) : bool := negb (Z.land s QUEUE_LOCKED_BIT =? 0).
Definition queue_head (s : Z) : Z := Z.land s QUEUE_MASK.
Definition with_queue_head (s thread_data : Z) : Z :=
  Z.lor (Z.land s (unot usize QUEUE_MASK)) thread_data.

(** ** Data *)

Record ThreadData : Type := MkThreadData {
  futex : Z;
  queue_tail : Z;
  prev : Z;
  next : Z;
}.

Definition ThreadData_fresh : ThreadData := MkThreadData 0 0 0 0.

(** [mem::align_of::<ThreadData>()]: it holds pointers. *)
Definition ALIGN : Z := 8.

Definition set_futex x d := MkThreadData x (queue_tail d) (prev d) (next d).
Definition set_queue_tail x d := MkThreadData (futex d) x (prev d) (next d).
Definition set_prev x d := MkThreadData (futex d) (queue_tail d) x (next d).
Definition set_next x d := MkThreadData (futex d) (queue_tail d) (prev d) x.

Section System.
Context `{KK : Kernel}.

(** [inside] lists the threads between [lock] and [unlock]; the code does not read
    it. *)
Record sys : Type := MkSys {
  state : Z;
  nodes : gmap Z ThreadData;
  kernel : waiters;
  inside : list nat;
}.

(** [WordLock::new]. *)
Definition WordLock_new : Z := 0.
Definition sys_init : sys := MkSys WordLock_new ∅ no_waiters [].

Definition set_state x s := MkSys x (nodes s) (kernel s) (inside s).
Definition set_nodes x s := MkSys (state s) x (kernel s) (inside s).
Definition set_kernel x s := MkSys (state s) (nodes s) x (inside s).
End System.

(** The stack of a thread: where its [ThreadData] is.  [max_threads] fit into the
    address space. *)
Class Stacks : Type := {
  slot : nat -> Z;
  max_threads : nat;
  slot_inj t t' : slot t = slot t' -> t = t';
  slot_range t : (t < max_threads)%nat -> 0 < slot t < 2 ^ usize;
  slot_aligned t : slot t mod ALIGN = 0;
}.

(** ** Memory and the parker *)

Section Memory.
Context `{KK : Kernel}.

Definition load_state : prog sys Z := load state.
Definition cas_weak_state (cur new : Z) : prog sys (Z + Z) :=
  compare_exchange_weak state set_state cur new.
(** [fetch_sub] and [fetch_and] return the previous value. *)
Definition fetch_state (f : Z -> Z) : prog sys Z :=
  act (fun s => Ok (state s, set_state (f (state s)) s)).

Definition td_read {X} (a : Z) (f : ThreadData -> X) : prog sys X :=
  act (fun s => match nodes s !! a with Some d => Ok (f d, s) | None => Fail UB end).
Definition td_write (a : Z) (f : ThreadData -> ThreadData) : prog sys () :=
  act (fun s => match nodes s !! a with
                | Some d => Ok ((), set_nodes (<[a := f d]> (nodes s)) s)
                | None => Fail UB
                end).

(** The parker on the word of the thread data. *)
Definition kernel_lens : lens sys waiters := Lens kernel set_kernel.
#[export] Instance kernel_laws : LensLaws kernel_lens.
Proof. split; [done|by intros []|done]. Qed.
Definition futex_at (a : Z) (s : sys) : option Z := futex <$> nodes s !! a.
Definition read_futex (a : Z) : prog sys Z := td_read a futex.
Definition write_futex (a x : Z) : prog sys () := td_write a (set_futex x).

(** [UnparkHandle::unpark] and [ThreadParker::park]. *)
Definition futex_wake (a : Z) : prog sys () := Parker.unpark kernel_lens a.
Definition park (a : Z) : prog sys () := Parker.park kernel_lens futex_at read_futex a.
End Memory.

(** ** The lock *)

Section WordLock.
Context `{KK : Kernel} `{SS : Stacks}.

(** [ThreadData::new] on the stack of [me], and its end. *)
Definition ThreadData_new (me : nat) : prog sys Z :=
  assert_ (unot usize QUEUE_MASK <? ALIGN) ;;
  store (fun s => set_nodes (<[slot me := ThreadData_fresh]> (nodes s)) s) ;;
  Ret (slot me).
Definition ThreadData_end (a : Z) : prog sys () :=
  store (fun s => set_nodes (delete a (nodes s)) s).

(** The closure of [lock_slow], given to [with_thread_data]: the state to go on
    with, and whether the thread has slept. *)
Definition enqueue_and_park (thread_data state : Z) : prog sys (Z * bool) :=
  Parker.prepare_park write_futex thread_data ;;
  let queue_head := queue_head state in
  (if queue_head =? 0 then
     td_write thread_data (set_queue_tail thread_data) ;;
     td_write thread_data (set_prev 0)
   else
     td_write thread_data (set_queue_tail 0) ;;
     td_write thread_data (set_prev 0) ;;
     td_write thread_data (set_next queue_head)) ;;
  let! r := cas_weak_state state (with_queue_head state thread_data) in
  match r with
  | inr x => Ret (x, false)
  | inl _ =>
      park thread_data ;;
      let! s := load_state in
      Ret (s, true)
  end.

(** [with_thread_data]: [IS_CHEAP_TO_CONSTRUCT] holds, so it is on the stack. *)
Definition with_thread_data {X} (me : nat) (f : Z -> prog sys X) : prog sys X :=
  let! a := ThreadData_new me in
  let! r := f a in
  ThreadData_end a ;;
  Ret r.

Definition lock_slow (me : nat) : prog sys () :=
  let! state := load_state in
  loop (fun '(spinwait, state) =>
    (** grab the lock if it isn't locked, even if there is a queue on it *)
    if negb (is_locked state) then
      let! r := cas_weak_state state (Z.lor state LOCKED_BIT) in
      match r with
      | inl _ => Ret (inr ())
      | inr x => Ret (inl (spinwait, x))
      end
    else
      (** if there is no queue, try spinning a few times *)
      let '(spun, spinwait) :=
        if queue_head state =? 0 then (SpinWait.spin spinwait).1 else (false, spinwait) in
      if (spun : bool) then
        let! state := load_state in
        Ret (inl (spinwait, state))
      else
        let! r := with_thread_data me (fun a => enqueue_and_park a state) in
        let '(state, slept) := r in
        Ret (inl (if (slept : bool) then SpinWait.reset spinwait else spinwait, state)))
    (SpinWait.new, state).

Definition lock (me : nat) : prog sys () :=
  let! r := cas_weak_state 0 LOCKED_BIT in
  if is_ok r then Ret () else lock_slow me.

(** The first loop of [unlock_slow]: take the queue lock, unless there is nothing to
    do. *)
Definition grab_queue : prog sys (option Z) :=
  let! state := load_state in
  loop (fun state =>
    if is_queue_locked state || (queue_head state =? 0) then Ret (inr None)
    else
      let! r := cas_weak_state state (Z.lor state QUEUE_LOCKED_BIT) in
      match r with
      | inl _ => Ret (inr (Some state))
      | inr x => Ret (inl x)
      end) state.

(** Fill in the [prev] pointers from [current] on, up to the first node that has a
    [queue_tail]. *)
Definition fill_prev (current : Z) : prog sys Z :=
  loop (fun current =>
    let! queue_tail := td_read current queue_tail in
    if negb (queue_tail =? 0) then Ret (inr queue_tail)
    else
      let! next := td_read current next in
      td_write next (set_prev current) ;;
      Ret (inl next)) current.

(** Remove the only thread of the queue: [None] if it is done, and otherwise the
    state with more threads. *)
Definition empty_queue (state : Z) : prog sys (option Z) :=
  loop (fun state =>
    let! r := cas_weak_state state (Z.land state LOCKED_BIT) in
    match r with
    | inl _ => Ret (inr None)
    | inr x => if queue_head x =? 0 then Ret (inl x) else Ret (inr (Some x))
    end) state.

(** One pass of ['outer]: go on with another state, or leave with the thread to
    wake up, if any. *)
Definition outer_pass (state : Z) : prog sys (Z + option Z) :=
  let queue_head := queue_head state in
  let! queue_tail := fill_prev queue_head in
  td_write queue_head (set_queue_tail queue_tail) ;;
  if is_locked state then
    let! r := cas_weak_state state (Z.land state (unot usize QUEUE_LOCKED_BIT)) in
    match r with
    | inl _ => Ret (inr None)
    | inr x => Ret (inl x)
    end
  else
    let! new_tail := td_read queue_tail prev in
    if new_tail =? 0 then
      let! r := empty_queue state in
      match r with
      | None => Ret (inr (Some queue_tail))
      | Some x => Ret (inl x)
      end
    else
      td_write queue_head (set_queue_tail new_tail) ;;
      fetch_state (fun s => Z.land s (unot usize QUEUE_LOCKED_BIT)) ;;
      Ret (inr (Some queue_tail)).

(** [parker.unpark_lock().unpark()]. *)
Definition wake (a : Z) : prog sys () :=
  let! handle := Parker.unpark_lock write_futex a in
  futex_wake handle.

Definition unlock_slow : prog sys () :=
  let! r := grab_queue in
  match r with
  | None => Ret ()
  | Some state =>
      let! t := loop outer_pass state in
      match t with
      | None => Ret ()
      | Some queue_tail => wake queue_tail
      end
  end.

Definition unlock : prog sys () :=
  let! state := fetch_state (fun s => wrap usize (s - LOCKED_BIT)) in
  if is_queue_locked state || (queue_head state =? 0) then Ret ()
  else unlock_slow.

(** ** Clients *)

Definition enter (me : nat) (s : sys) : sys :=
  MkSys (state s) (nodes s) (kernel s) (me :: inside s).
Definition leave (me : nat) (s : sys) : sys :=
  MkSys (state s) (nodes s) (kernel s) (filter (fun t => t <> me) (inside s)).

(** [lock]; critical section; [unlock], [n] times. *)
Fixpoint client (me n : nat) : prog sys () :=
  match n with
  | O => Ret ()
  | S n =>
      lock me ;;
      store (enter me) ;;
      store (leave me) ;;
      unlock ;;
      client me n
  end.
End WordLock.

#[export, refine] Instance row_stacks : Stacks :=
  {| slot t := 64 * (Z.of_nat t + 1); max_threads := 1000 |}.
Proof.
  - intros; lia.
  - intros t Ht. unfold usize. lia.
  - intros t. unfold ALIGN. replace (64 * (Z.of_nat t + 1)) with ((8 * (Z.of_nat t + 1)) * 8) by lia.
    by apply Z.mod_mul.
Defined.

End Word.
