(* ===== verification/WordLockInv.v ===== *)
(** * The lock of a bucket with many threads: the invariant

    Any number of threads lock and unlock one [WordLock].  The invariant relates its
    word to the thread that holds the lock, the thread that holds the queue lock
    and the queue; it describes the links of the queue while nobody works on them,
    and what the holder of the queue lock knows of them.  One lemma per atomic step
    shows that the step preserves it. *)

From S2P Require Import Prelude Machine Timing ThreadParker WordLock.
Import Word.

(** ** The word *)

Definition pack (l q : bool) (h : Z) : Z := Z.lor (Z.b2z l + 2 * Z.b2z q) h.

(** An address that can be in the word. *)
Definition addr_ok (h : Z) : Prop := in_width usize h /\ Z.land h 3 = 0.

Lemma land_low h c : Z.land h 3 = 0 -> 0 <= c < 4 -> Z.land h c = 0.
Proof.
  intros Hh Hc. assert (Hc' : c = Z.land 3 c) by (assert (c = 0 \/ c = 1 \/ c = 2 \/ c = 3) as
    [-> | [-> | [-> | ->]]] by lia; done).
  rewrite Hc', Z.land_assoc, Hh. apply Z.land_0_l.
Qed.

Lemma ldiff_low h c : Z.land h 3 = 0 -> 0 <= c < 4 -> Z.ldiff h c = h.
Proof.
  intros Hh Hc. pose proof (land_low h c Hh Hc) as H0. apply Z.bits_inj'. intros i Hi.
  rewrite Z.ldiff_spec. assert (Hb : Z.testbit (Z.land h c) i = false) by (rewrite H0; apply Z.bits_0).
  rewrite Z.land_spec in Hb. destruct (Z.testbit h i), (Z.testbit c i); done.
Qed.

Lemma lor_width w a b : 0 <= w -> in_width w a -> in_width w b -> in_width w (Z.lor a b).
Proof.
  intros Hw Ha Hb. assert (H0 : 0 <= Z.lor a b) by (apply Z.lor_nonneg; unfold in_width in *; lia).
  unfold in_width. split; [done|]. destruct (Z.eq_dec (Z.lor a b) 0) as [->|Hne]; [lia|].
  apply Z.log2_lt_pow2; [lia|]. rewrite Z.log2_lor by (unfold in_width in *; lia).
  destruct (Z.eq_dec a 0) as [->|], (Z.eq_dec b 0) as [->|]; simpl in *; try (by destruct Hne);
    unfold in_width in *; apply Z.max_lub_lt; try (apply Z.log2_lt_pow2; lia); simpl; try lia.
  all: destruct (Z.eq_dec w 0) as [->|]; simpl in *; lia.
Qed.

Section Word.
Context (l q : bool) (h : Z) (Hh : addr_ok h).

Lemma low_bits : 0 <= Z.b2z l + 2 * Z.b2z q < 4.
Proof. destruct l, q; simpl; lia. Qed.

Lemma pack_width : in_width usize (pack l q h).
Proof.
  apply lor_width; [done| |apply Hh]. pose proof low_bits. unfold in_width, usize. lia.
Qed.

Lemma pack_land c : 0 <= c < 4 -> Z.land (pack l q h) c = Z.land (Z.b2z l + 2 * Z.b2z q) c.
Proof.
  intros Hc. unfold pack. rewrite Z.land_lor_distr_l, (land_low h c) by (done || apply Hh).
  apply Z.lor_0_r.
Qed.

Lemma pack_ldiff c : 0 <= c < 4 ->
  Z.land (pack l q h) (unot usize c) = Z.lor (Z.ldiff (Z.b2z l + 2 * Z.b2z q) c) h.
Proof.
  intros Hc. rewrite land_unot_ldiff; [|done|apply pack_width|unfold in_width, usize; lia].
  unfold pack. rewrite (Z.ldiff_land (Z.lor _ _)), Z.land_lor_distr_l, <- !Z.ldiff_land.
  by rewrite (ldiff_low h c) by (done || apply Hh).
Qed.

Lemma pack_locked : is_locked (pack l q h) = l.
Proof. unfold is_locked, LOCKED_BIT. rewrite pack_land by lia. by destruct l, q. Qed.

Lemma pack_queue_locked : is_queue_locked (pack l q h) = q.
Proof. unfold is_queue_locked, QUEUE_LOCKED_BIT. rewrite pack_land by lia. by destruct l, q. Qed.

Lemma pack_head : queue_head (pack l q h) = h.
Proof. unfold queue_head, QUEUE_MASK. rewrite pack_ldiff by lia. by destruct l, q. Qed.

Lemma pack_lock : Z.lor (pack l q h) LOCKED_BIT = pack true q h.
Proof. unfold pack, LOCKED_BIT. rewrite Z.lor_comm, Z.lor_assoc. by destruct l, q. Qed.

Lemma pack_queue_lock : Z.lor (pack l q h) QUEUE_LOCKED_BIT = pack l true h.
Proof. unfold pack, QUEUE_LOCKED_BIT. rewrite Z.lor_comm, Z.lor_assoc. by destruct l, q. Qed.

Lemma pack_queue_unlock : Z.land (pack l q h) (unot usize QUEUE_LOCKED_BIT) = pack l false h.
Proof. unfold QUEUE_LOCKED_BIT. rewrite pack_ldiff by lia. by destruct l, q. Qed.

Lemma pack_only_lock : Z.land (pack l q h) LOCKED_BIT = pack l false 0.
Proof. unfold LOCKED_BIT. rewrite pack_land by lia. by destruct l, q. Qed.

Lemma pack_with_head a : with_queue_head (pack l q h) a = pack l q a.
Proof.
  unfold with_queue_head, QUEUE_MASK, unot. replace (2 ^ usize - 1 - (2 ^ usize - 1 - 3)) with 3 by lia.
  rewrite pack_land by lia. unfold pack. f_equal. by destruct l, q.
Qed.
End Word.

(** Releasing the lock. *)
Lemma pack_release q h : addr_ok h -> wrap usize (pack true q h - LOCKED_BIT) = pack false q h.
Proof.
  intros Hh. assert (E : forall a, 0 <= a < 4 -> Z.lor a h = a + h).
  { intros a Ha. symmetry. apply Z.add_nocarry_lor. rewrite Z.land_comm.
    apply land_low; [apply Hh|done]. }
  pose proof (pack_width false q h Hh) as Hw. unfold pack, LOCKED_BIT in *.
  rewrite !E in * by (destruct q; simpl; lia).
  simpl. rewrite wrap_small; [lia|]. unfold in_width in *. simpl in *. lia.
Qed.

Lemma pack_inj l q h l' q' h' : addr_ok h -> addr_ok h' -> pack l q h = pack l' q' h' ->
  l = l' /\ q = q' /\ h = h'.
Proof.
  intros Hh Hh' E. split_and!.
  - by rewrite <- (pack_locked l q h), <- (pack_locked l' q' h'), E.
  - by rewrite <- (pack_queue_locked l q h), <- (pack_queue_locked l' q' h'), E.
  - by rewrite <- (pack_head l q h), <- (pack_head l' q' h'), E.
Qed.

(** ** Phases *)

(** [k] is whether the thread is in the kernel.  [L] and [M] are what the holder of
    the queue lock knows: the end of the queue, and the thread data in it. *)
Inductive phase : Type :=
| Out                                             (** neither holds nor wants the lock *)
| Slow                                            (** in [lock_slow], without thread data *)
| Prep (d : ThreadData)                           (** preparing its thread data *)
| Parked (k : bool)                               (** in the queue, or taken off and not woken *)
| Woken (k : bool)                                (** woken *)
| Held                                            (** holds the lock *)
| InCS                                            (** holds it, in the critical section *)
| Unl                                             (** has unlocked, will look at the queue *)
| QL (L : list nat) (M : nat -> ThreadData)       (** holds the queue lock *)
| QLR (L : list nat) (M : nat -> ThreadData) (x : nat) (** holds it, has taken [x] off *)
| Wake1 (x : nat)                                 (** has taken [x] off the queue *)
| Wake2 (x : nat).                                (** has cleared the futex word of [x] *)

Definition owner (c : phase) : bool := match c with Held | InCS => true | _ => false end.
Definition ql_of (c : phase) : option (list nat * (nat -> ThreadData)) :=
  match c with QL L M | QLR L M _ => Some (L, M) | _ => None end.
Definition is_ql (c : phase) : bool := is_some (ql_of c).
Definition pend_of (c : phase) : option nat :=
  match c with QLR _ _ x | Wake1 x => Some x | _ => None end.
Definition parked (c : phase) : bool := match c with Parked _ => true | _ => false end.
(** A thread that will look at the lock again, or wake one that does. *)
Definition resp (c : phase) : bool :=
  match c with Slow | Prep _ | Woken _ | Unl | Wake1 _ => true | _ => false end.

(** What other threads do to a thread: wake it. *)
Definition mv (c c' : phase) : Prop := c = c' \/ exists k, c = Parked k /\ c' = Woken k.

#[export] Instance word_mv_preorder : PreOrder mv.
Proof. split; [by left|]. unfold mv. intros ???. naive_solver. Qed.

(** ** The queue *)

Section Queue.
Context `{SS : Stacks}.
Implicit Types (M : nat -> ThreadData) (L : list nat).

Definition head_of L (e : Z) : Z := match L with [] => e | t :: _ => slot t end.
Definition last_slot L : Z := match last L with Some t => slot t | None => 0 end.

(** Threads that were queued and not processed; [e] follows them. *)
Fixpoint fresh M L (e : Z) : Prop :=
  match L with
  | [] => True
  | x :: L => M x = MkThreadData 1 0 0 (head_of L e) /\ fresh M L e
  end.

(** Threads linked in both directions. *)
Fixpoint linked M L : Prop :=
  match L with
  | x :: (y :: _) as L' => next (M x) = slot y /\ prev (M y) = slot x /\ linked M L'
  | _ => True
  end.

(** The processed part of the queue starts at [h]. *)
Definition processed M h L : Prop :=
  queue_tail (M h) = last_slot (h :: L) /\ prev (M h) = 0 /\ linked M (h :: L).

(** A queue on which nobody works. *)
Definition queue_ok M L : Prop :=
  Forall (fun x => futex (M x) = 1) L /\
  (L = [] \/ exists pre h rest, L = pre ++ h :: rest /\ fresh M pre (slot h) /\ processed M h rest).

Definition contents (n : gmap Z ThreadData) L M : Prop :=
  forall x, x ∈ L -> n !! slot x = Some (M x).

Definition free_ok (n : gmap Z ThreadData) (Q : list nat) : Prop :=
  exists M, contents n Q M /\ queue_ok M Q.

(** The queue while a thread holds its lock: the threads before [L] are new. *)
Definition held_ok (n : gmap Z ThreadData) (Q L : list nat) M : Prop :=
  L <> [] /\ exists pre M0, Q = pre ++ L /\ contents n Q M0 /\ fresh M0 pre (head_of L 0) /\
    forall x, x ∈ L -> M0 x = M x.

Lemma slot_ok t : (t < max_threads)%nat -> addr_ok (slot t) /\ slot t <> 0.
Proof.
  intros Ht. pose proof (slot_range t Ht) as Hr. split; [|lia]. split; [unfold in_width; lia|].
  pose proof (slot_aligned t) as Ha. unfold ALIGN in Ha.
  change 3 with (Z.ones 2). rewrite Z.land_ones by lia.
  rewrite (Z.div_mod (slot t) 8) by lia. rewrite Ha, Z.add_0_r.
  replace (8 * (slot t / 8)) with (2 * (slot t / 8) * 2 ^ 2) by lia. by apply Z.mod_mul.
Qed.

Lemma fresh_ext M M' L e : (forall x, x ∈ L -> M' x = M x) -> fresh M L e -> fresh M' L e.
Proof.
  induction L as [|x L IH]; [done|]. intros HM [Hx HL]. split.
  - rewrite HM by set_solver. done.
  - apply IH; [|done]. intros y Hy. apply HM. set_solver.
Qed.

Lemma linked_ext M M' L : (forall x, x ∈ L -> M' x = M x) -> linked M L -> linked M' L.
Proof.
  induction L as [|x [|y L] IH]; [done|done|]. intros HM (Hn & Hp & HL). simpl. split_and!.
  - rewrite HM by set_solver. done.
  - rewrite HM by set_solver. done.
  - apply IH; [|done]. intros z Hz. apply HM. set_solver.
Qed.

Lemma queue_ok_ext M M' L : (forall x, x ∈ L -> M' x = M x) -> queue_ok M L -> queue_ok M' L.
Proof.
  intros HM [Hf HL]. split.
  - rewrite Forall_forall in *. intros x Hx. rewrite HM by done. auto.
  - destruct HL as [->|(pre & h & rest & -> & Hpre & Hq & Hp & Hl)]; [by left|]. right.
    exists pre, h, rest. split_and!; [done| |].
    + eapply fresh_ext; [|done]. intros x Hx. apply HM. set_solver.
    + split_and!; [rewrite HM by set_solver; done..|].
      eapply linked_ext; [|done]. intros x Hx. apply HM. set_solver.
Qed.

Lemma contents_app n L L' M : contents n (L ++ L') M <-> contents n L M /\ contents n L' M.
Proof. unfold contents. set_solver. Qed.

(** A new thread at the front. *)
Lemma free_ok_push n Q t d :
  free_ok n Q -> t ∉ Q -> n !! slot t = Some d ->
  d = (if bool_decide (Q = []) then MkThreadData 1 (slot t) 0 0 else MkThreadData 1 0 0 (head_of Q 0)) ->
  free_ok n (t :: Q).
Proof.
  intros (M & Hc & Hf & HQ) Ht Hd E. exists (<[t := d]> M).
  assert (HM : forall x, x ∈ Q -> <[t := d]> M x = M x)
    by (intros x Hx; apply fn_lookup_insert_ne; by intros ->).
  split; [|split].
  - intros x Hx. apply elem_of_cons in Hx as [->|Hx]; [by rewrite fn_lookup_insert|].
    rewrite HM by done. auto.
  - constructor; [rewrite fn_lookup_insert, E; by case_bool_decide|].
    rewrite Forall_forall in *. intros x Hx. rewrite HM by done. auto.
  - right. destruct HQ as [->|(pre & h & rest & -> & Hpre & Hp)].
    + exists [], t, []. rewrite bool_decide_eq_true_2 in E by done.
      split_and!; [done|done|]. unfold processed. rewrite fn_lookup_insert, E. done.
    + exists (t :: pre), h, rest. rewrite bool_decide_eq_false_2 in E by by destruct pre.
      split_and!; [done| |].
      * split; [rewrite fn_lookup_insert, E; by destruct pre|].
        eapply fresh_ext; [|done]. intros x Hx. apply HM. set_solver.
      * destruct Hp as (H1 & H2 & H3). split_and!; [by rewrite HM by set_solver..|].
        eapply linked_ext; [|done]. intros x Hx. apply HM. set_solver.
Qed.

Lemma held_ok_push n Q L M t :
  held_ok n Q L M -> t ∉ Q -> n !! slot t = Some (MkThreadData 1 0 0 (head_of Q 0)) ->
  held_ok n (t :: Q) L M.
Proof.
  intros (Hne & pre & M0 & -> & Hc & Hpre & HL) Ht Hd. split; [done|].
  exists (t :: pre), (<[t := MkThreadData 1 0 0 (head_of (pre ++ L) 0)]> M0).
  assert (HM : forall x, x ∈ pre ++ L -> <[t := MkThreadData 1 0 0 (head_of (pre ++ L) 0)]> M0 x = M0 x)
    by (intros x Hx; apply fn_lookup_insert_ne; by intros ->).
  split_and!; [done| | |].
  - intros x Hx. apply elem_of_cons in Hx as [->|Hx]; [by rewrite fn_lookup_insert|].
    rewrite HM by done. auto.
  - split; [rewrite fn_lookup_insert; by destruct pre|].
    eapply fresh_ext; [|done]. intros x Hx. apply HM. set_solver.
  - intros x Hx. rewrite HM by set_solver. auto.
Qed.

(** A queue whose links are all filled in. *)
Definition walked M L : Prop :=
  Forall (fun x => futex (M x) = 1) L /\ exists h rest, L = h :: rest /\ processed M h rest.

Lemma walked_ok M L : walked M L -> queue_ok M L.
Proof. intros (Hf & h & rest & -> & Hp). split; [done|]. right. by exists [], h, rest. Qed.

Lemma contents_frame n n' L M :
  (forall x, x ∈ L -> n' !! slot x = n !! slot x) -> contents n L M -> contents n' L M.
Proof. intros Hn Hc x Hx. rewrite Hn by done. auto. Qed.

Lemma free_ok_frame n n' Q :
  (forall x, x ∈ Q -> n' !! slot x = n !! slot x) -> free_ok n Q -> free_ok n' Q.
Proof. intros Hn (M & Hc & HQ). exists M. split; [|done]. by eapply contents_frame. Qed.

Lemma held_ok_frame n n' Q L M :
  (forall x, x ∈ Q -> n' !! slot x = n !! slot x) -> held_ok n Q L M -> held_ok n' Q L M.
Proof.
  intros Hn (Hne & pre & M0 & -> & Hc & Hpre & HL). split; [done|]. exists pre, M0.
  split_and!; [done| |done|done]. by eapply contents_frame.
Qed.

Lemma held_ok_grab n Q : free_ok n Q -> Q <> [] -> exists M, held_ok n Q Q M /\ queue_ok M Q.
Proof.
  intros (M & Hc & HQ) Hne. exists M. split; [|done]. split; [done|]. by exists [], M.
Qed.

Lemma held_ok_read n Q L M x : held_ok n Q L M -> x ∈ L -> n !! slot x = Some (M x).
Proof. intros (_ & pre & M0 & -> & Hc & _ & HL) Hx. rewrite <- HL by done. apply Hc. set_solver. Qed.

Lemma held_ok_write n Q L M x d :
  held_ok n Q L M -> x ∈ L -> NoDup Q -> held_ok (<[slot x := d]> n) Q L (<[x := d]> M).
Proof.
  intros (Hne & pre & M0 & -> & Hc & Hpre & HL) Hx Hnd. split; [done|].
  apply NoDup_app in Hnd as (_ & Hnd & _). exists pre, (<[x := d]> M0).
  split_and!; [done| | |].
  - intros y Hy. destruct (decide (y = x)) as [->|Hn].
    + by rewrite lookup_insert_eq, fn_lookup_insert.
    + rewrite fn_lookup_insert_ne, lookup_insert_ne; [by apply Hc| |done].
      intros E. by apply slot_inj in E.
  - eapply fresh_ext; [|done]. intros y Hy. apply fn_lookup_insert_ne. intros ->. by apply (Hnd y).
  - intros y Hy. destruct (decide (y = x)) as [->|Hn]; [by rewrite !fn_lookup_insert|].
    rewrite !fn_lookup_insert_ne by done. auto.
Qed.

Lemma fresh_futex M L e : fresh M L e -> Forall (fun x => futex (M x) = 1) L.
Proof. induction L as [|x L IH]; [done|]. intros [E HL]. constructor; [by rewrite E|auto]. Qed.

(** The queue lock can be released, or the new threads taken into account. *)
Lemma held_ok_all n Q L M : held_ok n Q L M -> walked M L ->
  exists M', contents n Q M' /\ queue_ok M' Q.
Proof.
  intros (Hne & pre & M0 & -> & Hc & Hpre & HL) (Hf & h & rest & -> & Hp).
  exists M0. split; [done|]. split.
  - apply Forall_app. split; [by eapply fresh_futex|].
    rewrite Forall_forall in *. intros x Hx. rewrite HL by done. auto.
  - right. exists pre, h, rest. split_and!; [done|done|].
    destruct Hp as (H1 & H2 & H3). split_and!; [by rewrite HL by set_solver..|].
    eapply linked_ext; [|done]. intros x Hx. apply HL. set_solver.
Qed.

Lemma held_ok_extend n Q L M : held_ok n Q L M -> walked M L ->
  exists M', held_ok n Q Q M' /\ queue_ok M' Q.
Proof.
  intros Hh Hw. destruct (held_ok_all _ _ _ _ Hh Hw) as (M' & Hc & HQ).
  exists M'. split; [|done]. destruct Hh as (Hne & pre & ? & -> & _).
  split; [by destruct pre, L|]. by exists [], M'.
Qed.

Lemma held_ok_free n Q L M : held_ok n Q L M -> walked M L -> free_ok n Q.
Proof. intros Hh Hw. by apply (held_ok_all _ _ _ _ Hh Hw). Qed.

(** Taking the last thread off. *)
Lemma held_ok_shorten n Q L M x : held_ok n (Q ++ [x]) (L ++ [x]) M -> L <> [] -> held_ok n Q L M.
Proof.
  intros (_ & pre & M0 & E & Hc & Hpre & HL) Hne. split; [done|].
  rewrite app_assoc in E. apply app_inj_tail in E as [-> _]. exists pre, M0.
  apply contents_app in Hc as [Hc _]. split_and!; [done|done| |set_solver].
  by destruct L.
Qed.

Lemma held_ok_suffix n Q L M : held_ok n Q L M -> exists pre, Q = pre ++ L.
Proof. intros (_ & pre & _ & -> & _). by exists pre. Qed.

(** The same head means that nothing was added. *)
Lemma held_ok_same n Q L M : held_ok n Q L M -> NoDup Q -> head_of Q 0 = head_of L 0 -> Q = L.
Proof.
  intros (Hne & [|y pre] & M0 & -> & _) Hnd E; [done|]. exfalso.
  destruct L as [|h rest]; [done|]. simpl in *. apply slot_inj in E as ->.
  apply NoDup_cons in Hnd as [Hnd _]. set_solver.
Qed.

Lemma linked_app M L x L' : linked M (L ++ [x]) -> linked M (x :: L') -> linked M (L ++ x :: L').
Proof.
  induction L as [|y L IH]; [done|]. intros HL HL'. destruct L as [|z L].
  - destruct HL as (H1 & H2 & _). by split_and!.
  - destruct HL as (H1 & H2 & H3). split_and!; [done..|]. by apply IH.
Qed.

Lemma linked_prefix M L L' : linked M (L ++ L') -> linked M L.
Proof.
  induction L as [|x [|y L] IH]; [done|done|]. intros (H1 & H2 & H3). split_and!; [done..|].
  by apply IH.
Qed.

Lemma linked_last M L y x : linked M (L ++ [y; x]) -> prev (M x) = slot y.
Proof.
  induction L as [|z [|w L] IH]; simpl.
  - tauto.
  - tauto.
  - intros (_ & _ & H'). by apply IH.
Qed.

(** The processed queue without its last thread [x]. *)
Lemma walked_shorten M h L y x :
  walked M (h :: L ++ [x]) -> NoDup (h :: L ++ [x]) -> last (h :: L) = Some y ->
  walked (<[h := set_queue_tail (slot y) (M h)]> M) (h :: L) /\ prev (M x) = slot y.
Proof.
  intros (Hf & h' & rest & [= <- <-] & Ht & Hp & Hl) Hnd Hy.
  apply NoDup_cons in Hnd as [Hh Hnd].
  assert (Hlx : linked M ((h :: L) ++ [x])) by done.
  split.
  - split.
    + rewrite Forall_forall in *. intros z Hz. destruct (decide (z = h)) as [->|Hn].
      * rewrite fn_lookup_insert. apply (Hf h). set_solver.
      * rewrite fn_lookup_insert_ne by done. apply Hf. set_solver.
    + exists h, L. split; [done|]. split_and!.
      * rewrite fn_lookup_insert. simpl. unfold last_slot. by rewrite Hy.
      * by rewrite fn_lookup_insert.
      * apply linked_prefix in Hlx. clear -Hlx Hh.
        destruct L as [|z L]; [done|]. destruct Hlx as (H1 & H2 & H3). split_and!.
        -- by rewrite fn_lookup_insert.
        -- rewrite fn_lookup_insert_ne by set_solver. done.
        -- eapply linked_ext; [|done]. intros w Hw. apply fn_lookup_insert_ne. set_solver.
  - apply last_Some in Hy as [L' E]. rewrite E in Hlx. rewrite <- app_assoc in Hlx.
    by apply linked_last in Hlx.
Qed.
End Queue.

(** ** The invariant *)

Section Invariant.
Context `{KK : Kernel} `{SS : Stacks}.
Implicit Types (s : sys) (g : nat -> phase) (Q : list nat) (pd : gmap nat nat).

(** Thread [t] sleeps in the kernel. *)
Definition sleeps (s : sys) (t : nat) : Prop := sleepers (slot t) (kernel s) <> 0%nat.

(** The thread data of a thread, by its phase. *)
Definition node_ok (o : option ThreadData) (c : phase) : Prop :=
  match c with
  | Prep d => o = Some d
  | Parked _ => exists d, o = Some d /\ futex d = 1
  | Woken _ => exists d, o = Some d /\ futex d = 0
  | _ => True
  end.

(** What the invariant says about thread [t] in phase [c]: [own] holds the lock,
    [qlo] the queue lock, [Q] is the queue, and [pd] has the thread that is about to
    wake each thread that was taken off the queue. *)
Record thread_ok s (own qlo : option nat) Q pd (t : nat) (c : phase) : Prop := {
  k_owner : owner c = true <-> own = Some t;
  k_ql : is_ql c = true <-> qlo = Some t;
  k_queued : t ∈ Q -> parked c = true;
  k_parked : parked c = true -> t ∈ Q \/ is_some (pd !! t) = true;
  k_pend x : pend_of c = Some x <-> pd !! x = Some t;
  k_taken : is_some (pd !! t) = true -> parked c = true /\ t ∉ Q;
  k_node : node_ok (nodes s !! slot t) c;
  k_in : t ∈ inside s <-> c = InCS;
  k_bound : c <> Out -> (t < max_threads)%nat;
}.

(** The links of the queue. *)
Definition links (n : gmap Z ThreadData) (qlo : option nat) g Q : Prop :=
  match qlo with
  | None => free_ok n Q
  | Some u => match ql_of (g u) with Some (L, M) => held_ok n Q L M | None => False end
  end.

Record invariant s g (own qlo : option nat) Q pd : Prop := {
  i_word : state s = pack (is_some own) (is_some qlo) (head_of Q 0);
  i_nodup : NoDup Q;
  i_links : links (nodes s) qlo g Q;
  i_resp : Q <> [] -> own <> None \/ qlo <> None \/ exists t, resp (g t) = true;
  i_inside : NoDup (inside s);
  i_one t : (sleepers (slot t) (kernel s) <= 1)%nat;
  i_sleep t : sleeps s t ->
    g t = Parked true \/ g t = Woken true /\ exists u, g u = Wake2 t;
  i_thread t : thread_ok s own qlo Q pd t (g t);
}.

Definition Inv s g : Prop := exists own qlo Q pd, invariant s g own qlo Q pd.

(** A thread waits in the kernel. *)
Definition wait s g (t : nat) : Prop := sleeps s t.

Lemma head_ok s g own qlo Q pd : invariant s g own qlo Q pd -> addr_ok (head_of Q 0).
Proof.
  intros H. destruct Q as [|t Q]; simpl; [by split; [unfold in_width|]|].
  apply slot_ok. eapply k_bound; [apply (i_thread _ _ _ _ _ _ H)|].
  pose proof (k_queued _ _ _ _ _ _ _ (i_thread _ _ _ _ _ _ H t)) as Hq. intros E. rewrite E in Hq.
  assert (false = true); [apply Hq; set_solver|done].
Qed.

(** *** Steps *)

(** What a step of another thread leaves unchanged for thread [u]. *)
Record frame s s' (own own' qlo qlo' : option nat) Q Q' pd pd' (u : nat) : Prop := {
  f_own : own' = Some u <-> own = Some u;
  f_ql : qlo' = Some u <-> qlo = Some u;
  f_pend x : pd' !! x = Some u <-> pd !! x = Some u;
  f_place : ((u ∈ Q' <-> u ∈ Q) /\ is_some (pd' !! u) = is_some (pd !! u)) \/
    (u ∈ Q /\ (u ∉ Q') /\ is_some (pd' !! u) = true);
  f_node : nodes s' !! slot u = nodes s !! slot u \/
    u ∈ Q /\ exists d, nodes s' !! slot u = Some d /\ futex d = 1;
  f_in : u ∈ inside s' <-> u ∈ inside s;
}.

Lemma word_thread_frame s s' own own' qlo qlo' Q Q' pd pd' u c :
  thread_ok s own qlo Q pd u c -> frame s s' own own' qlo qlo' Q Q' pd pd' u ->
  thread_ok s' own' qlo' Q' pd' u c.
Proof.
  intros [] []. split.
  - by rewrite f_own0.
  - by rewrite f_ql0.
  - destruct f_place0 as [[-> _]|(_ & ? & _)]; done.
  - destruct f_place0 as [[-> ->]|(_ & _ & ?)]; auto.
  - intros x. by rewrite f_pend0.
  - destruct f_place0 as [[-> ->]|(? & ? & _)]; auto.
  - destruct f_node0 as [->|(Hin & d & -> & Hd)]; [done|].
    destruct c; try (by specialize (k_queued0 Hin)). simpl. eauto.
  - by rewrite f_in0.
  - done.
Qed.

Lemma word_resp_upd g t c :
  (exists u, resp (g u) = true) -> (resp (g t) = true -> resp c = true) ->
  exists u, resp (<[t := c]> g u) = true.
Proof.
  intros [u Hu] Hc. destruct (decide (t = u)) as [<-|Hne].
  - exists t. rewrite fn_lookup_insert. auto.
  - exists u. by rewrite fn_lookup_insert_ne.
Qed.

Lemma word_step s s' g own own' qlo qlo' Q Q' pd pd' t c :
  invariant s g own qlo Q pd ->
  state s' = pack (is_some own') (is_some qlo') (head_of Q' 0) ->
  NoDup Q' -> links (nodes s') qlo' (<[t := c]> g) Q' ->
  (Q' <> [] -> own' <> None \/ qlo' <> None \/ exists u, resp (<[t := c]> g u) = true) ->
  NoDup (inside s') ->
  (forall u, (sleepers (slot u) (kernel s') <= 1)%nat) ->
  (forall u, sleeps s' u -> <[t := c]> g u = Parked true \/
     <[t := c]> g u = Woken true /\ exists v, <[t := c]> g v = Wake2 u) ->
  thread_ok s' own' qlo' Q' pd' t c ->
  (forall u, u <> t -> frame s s' own own' qlo qlo' Q Q' pd pd' u) ->
  invariant s' (<[t := c]> g) own' qlo' Q' pd'.
Proof.
  intros H Hw Hnd Hl Hr Hin H1 Hsl Ht Hf. split; try done.
  intros u. destruct (decide (t = u)) as [<-|Hne].
  - by rewrite fn_lookup_insert.
  - rewrite fn_lookup_insert_ne by done. eapply word_thread_frame; [apply H|auto].
Qed.

(** A thread outside the kernel that is not about to wake another one changes its
    phase: nothing changes for the sleepers. *)
Lemma sleep_upd s g own qlo Q pd t c :
  invariant s g own qlo Q pd -> g t <> Parked true -> g t <> Woken true ->
  (forall x, g t <> Wake2 x) ->
  forall u, sleeps s u -> <[t := c]> g u = Parked true \/
     <[t := c]> g u = Woken true /\ exists v, <[t := c]> g v = Wake2 u.
Proof.
  intros H Hp Hw H2 u Hu. destruct (i_sleep _ _ _ _ _ _ H u Hu) as [E|[E (v & Ev)]].
  - left. rewrite fn_lookup_insert_ne; [done|]. by intros ->.
  - right. rewrite fn_lookup_insert_ne by (by intros ->). split; [done|].
    exists v. rewrite fn_lookup_insert_ne; [done|]. intros ->. by apply (H2 u).
Qed.

Lemma links_other n qlo g Q t c : links n qlo g Q -> qlo <> Some t -> links n qlo (<[t := c]> g) Q.
Proof.
  intros Hl Hne. destruct qlo as [u|]; [|done]. simpl in *.
  rewrite fn_lookup_insert_ne by congruence. done.
Qed.

(** [step H Ht] applies [word_step] to the invariant [H] and a thread whose phase is
    given by [Ht], and solves what does not depend on the step. *)
Ltac fin :=
  try done; try congruence; try (intuition congruence).
Ltac step_side H Ht :=
  lazymatch goal with
  | |- thread_ok _ _ _ _ _ _ _ => split; simpl in *; intros; fin
  | |- forall u, u <> _ -> frame _ _ _ _ _ _ _ _ _ _ u =>
      let u := fresh "u" in let Hu := fresh "Hu" in
      intros u Hu; split; simpl in *; intros; try (by left); try (left; split; fin; fail); fin
  | |- forall u, (sleepers _ _ <= 1)%nat => try apply H
  | |- forall u, sleeps _ u -> _ =>
      try (refine (sleep_upd _ _ _ _ _ _ _ _ H _ _ _); [rewrite Ht; done|rewrite Ht; done|
        intros ?; rewrite Ht; done])
  | |- links _ _ _ _ => try (apply links_other; [apply H|solve [simpl in *; fin]])
  | |- _ -> _ \/ _ =>
      try (let Hq := fresh "Hq" in intros Hq;
           destruct (i_resp _ _ _ _ _ _ H Hq) as [?|[?|?]];
           [by left|by right; left|
            right; right; apply word_resp_upd; [done|by rewrite Ht]])
  | |- state _ = _ => first [done | apply H | idtac]
  | |- NoDup _ => try apply H
  | |- _ => idtac
  end.
Ltac step H Ht :=
  let Hself := fresh "Hself" in
  pose proof (i_thread _ _ _ _ _ _ H) as Hself;
  match type of Ht with ?g ?t = _ => specialize (Hself t); rewrite Ht in Hself end;
  destruct Hself; eapply word_step; [exact H|..]; step_side H Ht.

(** Taking the lock. *)
Lemma word_acquire s g qlo Q pd t c :
  invariant s g None qlo Q pd -> g t = c -> c = Out \/ c = Slow -> (t < max_threads)%nat ->
  invariant (set_state (pack true (is_some qlo) (head_of Q 0)) s) (<[t := Held]> g) (Some t) qlo Q pd.
Proof.
  intros H Ht [-> | ->] Hb; step H Ht.
  all: try (intros _; by left).
Qed.

(** Entering [lock_slow]. *)
Lemma word_slow s g own qlo Q pd t :
  invariant s g own qlo Q pd -> g t = Out -> (t < max_threads)%nat ->
  invariant s (<[t := Slow]> g) own qlo Q pd.
Proof. intros H Ht Hb. step H Ht. Qed.

(** The critical section. *)
Lemma word_enter s g own qlo Q pd t :
  invariant s g own qlo Q pd -> g t = Held -> invariant (enter t s) (<[t := InCS]> g) own qlo Q pd.
Proof.
  intros H Ht. step H Ht.
  - apply NoDup_cons. split; [by rewrite k_in0|apply H].
  - set_solver.
  - set_solver.
Qed.

Lemma word_leave s g own qlo Q pd t :
  invariant s g own qlo Q pd -> g t = InCS -> invariant (leave t s) (<[t := Held]> g) own qlo Q pd.
Proof.
  intros H Ht. step H Ht.
  - apply NoDup_filter, H.
  - rewrite list_elem_of_filter. naive_solver.
  - rewrite list_elem_of_filter. naive_solver.
Qed.

(** Thread data on the stack: created or written, and gone. *)
Lemma slot_ne t u : u <> t -> slot u <> slot t.
Proof. intros Hne E. by apply slot_inj in E. Qed.

Lemma links_frame n n' qlo g Q t c :
  links n qlo g Q -> qlo <> Some t -> (forall x, x ∈ Q -> n' !! slot x = n !! slot x) ->
  links n' qlo (<[t := c]> g) Q.
Proof.
  intros Hl Hne Hn. apply links_other; [|done]. destruct qlo as [u|]; simpl in *.
  - destruct (ql_of (g u)) as [[L M]|]; [|done]. by eapply held_ok_frame.
  - by eapply free_ok_frame.
Qed.

Lemma word_prep s g own qlo Q pd t c d :
  invariant s g own qlo Q pd -> g t = c -> c = Slow \/ (exists d', c = Prep d') ->
  invariant (set_nodes (<[slot t := d]> (nodes s)) s) (<[t := Prep d]> g) own qlo Q pd.
Proof.
  intros H Ht [-> | [d' ->]]; step H Ht.
  all: try (by apply k_bound0).
  all: try (left; apply lookup_insert_ne, not_eq_sym, slot_ne; done).
  all: try (by rewrite lookup_insert_eq).
  all: eapply links_frame; [apply H|simpl in *; fin|].
  all: intros x Hx; apply lookup_insert_ne, not_eq_sym, slot_ne; intros ->; by apply k_queued0 in Hx.
Qed.

Lemma word_drop s g own qlo Q pd t c :
  invariant s g own qlo Q pd -> g t = c -> (exists d, c = Prep d) \/ c = Woken false ->
  invariant (set_nodes (delete (slot t) (nodes s)) s) (<[t := Slow]> g) own qlo Q pd.
Proof.
  intros H Ht [[d ->] | ->]; step H Ht.
  all: try (by apply k_bound0).
  all: try (left; apply lookup_delete_ne, not_eq_sym, slot_ne; done).
  1, 2: eapply links_frame; [apply H|simpl in *; fin|];
    intros x Hx; apply lookup_delete_ne, not_eq_sym, slot_ne; intros ->; by apply k_queued0 in Hx.
Qed.

(** Joining the queue of a lock that is held. *)
Lemma word_push s g o qlo Q pd t d :
  invariant s g (Some o) qlo Q pd -> g t = Prep d ->
  d = (if bool_decide (Q = []) then MkThreadData 1 (slot t) 0 0 else MkThreadData 1 0 0 (head_of Q 0)) ->
  invariant (set_state (pack true (is_some qlo) (slot t)) s) (<[t := Parked false]> g)
    (Some o) qlo (t :: Q) pd.
Proof.
  intros H Ht Hd. step H Ht.
  - apply NoDup_cons. split; [by intros ?%k_queued0|apply H].
  - assert (Hn : t ∉ Q) by (by intros ?%k_queued0). simpl in k_node0.
    apply links_other; [|simpl in *; fin]. pose proof (i_links _ _ _ _ _ _ H) as Hl.
    destruct qlo as [u|]; simpl in *; [|by eapply free_ok_push].
    destruct (ql_of (g u)) as [[L M]|]; [|done]. apply held_ok_push; [done|done|].
    rewrite k_node0, Hd, bool_decide_eq_false_2; [done|].
    destruct Hl as (Hne & pre & _ & -> & _). by destruct pre, L.
  - intros _. by left.
  - left. set_solver.
  - exists d. split; [done|]. rewrite Hd. by case_bool_decide.
  - set_solver.
Qed.

(** Going to sleep, and leaving the kernel. *)
Lemma word_sleep s g own qlo Q pd t :
  invariant s g own qlo Q pd -> g t = Parked false ->
  invariant (set_kernel (go_to_sleep (slot t) (kernel s)) s) (<[t := Parked true]> g) own qlo Q pd.
Proof.
  intros H Ht. assert (H0 : sleepers (slot t) (kernel s) = 0%nat).
  { destruct (decide (sleepers (slot t) (kernel s) = 0%nat)) as [|Hs]; [done|].
    destruct (i_sleep _ _ _ _ _ _ H t Hs) as [|[? _]]; congruence. }
  step H Ht.
  - intros u. simpl. rewrite sleepers_sleep. pose proof (i_one _ _ _ _ _ _ H u).
    case_decide as E; [apply slot_inj in E as <-|]; lia.
  - intros u Hu. unfold sleeps in Hu. simpl in Hu. rewrite sleepers_sleep in Hu.
    destruct (decide (u = t)) as [->|Hne]; [left; by rewrite fn_lookup_insert|].
    rewrite decide_False in Hu by (by apply not_eq_sym, slot_ne).
    eapply sleep_upd; [exact H|by rewrite Ht|by rewrite Ht|intros ?; by rewrite Ht|done].
Qed.

(** The sleepers, after one was taken out of the kernel. *)
Lemma woken_one s g own qlo Q pd t w u :
  invariant s g own qlo Q pd ->
  (forall b, sleepers b w = (sleepers b (kernel s) - if decide (slot t = b) then 1 else 0)%nat) ->
  (sleepers (slot u) w <= 1)%nat /\ (sleepers (slot u) w <> 0%nat -> u <> t /\ sleeps s u).
Proof.
  intros H Hw. pose proof (i_one _ _ _ _ _ _ H u). unfold sleeps. rewrite Hw. case_decide as E.
  - apply slot_inj in E as <-. split; [|intros []]; lia.
  - split; [lia|]. intros Hu. split; [by intros ->|lia].
Qed.

Lemma word_unsleep s g own qlo Q pd t c c' w :
  invariant s g own qlo Q pd -> g t = c ->
  c = Parked true /\ c' = Parked false \/ c = Woken true /\ c' = Woken false ->
  (forall b, sleepers b w = (sleepers b (kernel s) - if decide (slot t = b) then 1 else 0)%nat) ->
  invariant (set_kernel w s) (<[t := c']> g) own qlo Q pd.
Proof.
  intros H Ht Hc Hw. pose proof (fun u => woken_one _ _ _ _ _ _ _ _ u H Hw) as Hn.
  assert (Hs : forall u, sleeps (set_kernel w s) u -> <[t := c']> g u = Parked true \/
    <[t := c']> g u = Woken true /\ exists v, <[t := c']> g v = Wake2 u).
  { intros u [Hne Hu]%Hn. rewrite fn_lookup_insert_ne by done.
    destruct (i_sleep _ _ _ _ _ _ H u Hu) as [E|[E (v & Ev)]]; [by left|right].
    split; [done|]. exists v. rewrite fn_lookup_insert_ne; [done|]. intros ->.
    rewrite Ht in Ev. destruct Hc as [[-> _]|[-> _]]; done. }
  destruct Hc as [[-> ->]|[-> ->]]; step H Ht.
  all: try done.
  all: intros u; apply Hn.
Qed.

(** Releasing the lock; the thread goes on if there is a queue to look at. *)
Lemma word_unlock s g qlo Q pd t c :
  invariant s g (Some t) qlo Q pd -> g t = Held ->
  c = (if is_some qlo || bool_decide (Q = []) then Out else Unl) ->
  invariant (set_state (pack false (is_some qlo) (head_of Q 0)) s) (<[t := c]> g) None qlo Q pd.
Proof.
  intros H Ht Hc.
  assert (c = Out \/ c = Unl) as [-> | ->] by (subst; destruct (_ || _); auto); step H Ht.
  - intros HQ. right; left. destruct qlo; [done|]. simpl in Hc. by case_bool_decide.
  - intros _. right; right. exists t. by rewrite fn_lookup_insert.
Qed.

Lemma word_unlock_done s g own qlo Q pd t :
  invariant s g own qlo Q pd -> g t = Unl -> is_some qlo = true \/ Q = [] ->
  invariant s (<[t := Out]> g) own qlo Q pd.
Proof.
  intros H Ht Hc. step H Ht.
  intros HQ. right; left. destruct Hc; [by destruct qlo|done].
Qed.

(** Taking the queue lock. *)
Lemma word_grab s g own Q pd t :
  invariant s g own None Q pd -> g t = Unl -> Q <> [] ->
  exists M, queue_ok M Q /\
    invariant (set_state (pack (is_some own) true (head_of Q 0)) s) (<[t := QL Q M]> g) own (Some t) Q pd.
Proof.
  intros H Ht HQ. destruct (held_ok_grab _ _ (i_links _ _ _ _ _ _ H) HQ) as (M & Hh & Hok).
  exists M. split; [done|]. step H Ht.
  - simpl. by rewrite fn_lookup_insert.
  - intros _. by right; left.
Qed.

(** The holder of the queue lock. *)
Lemma word_held s g own qlo Q pd t L M :
  invariant s g own qlo Q pd -> ql_of (g t) = Some (L, M) -> qlo = Some t /\ held_ok (nodes s) Q L M.
Proof.
  intros H Ht. assert (Hq : qlo = Some t).
  { apply (k_ql _ _ _ _ _ _ _ (i_thread _ _ _ _ _ _ H t)). unfold is_ql. by rewrite Ht. }
  split; [done|]. pose proof (i_links _ _ _ _ _ _ H) as Hl. rewrite Hq in Hl. simpl in Hl.
  by rewrite Ht in Hl.
Qed.

Lemma word_ql_write s g own qlo Q pd t L M x d :
  invariant s g own qlo Q pd -> g t = QL L M -> x ∈ L -> futex d = 1 ->
  invariant (set_nodes (<[slot x := d]> (nodes s)) s) (<[t := QL L (<[x := d]> M)]> g) own qlo Q pd.
Proof.
  intros H Ht Hx Hd. destruct (word_held _ _ _ _ _ _ t L M H) as [-> Hh]; [by rewrite Ht|].
  assert (HxQ : x ∈ Q) by (destruct (held_ok_suffix _ _ _ _ Hh) as [pre ->]; set_solver).
  step H Ht.
  - simpl. rewrite fn_lookup_insert. apply held_ok_write; [done|done|apply H].
  - destruct (decide (u0 = x)) as [->|Hne].
    + right. split; [done|]. exists d. by rewrite lookup_insert_eq.
    + left. by apply lookup_insert_ne, not_eq_sym, slot_ne.
Qed.

Lemma word_extend s g own qlo Q pd t L M :
  invariant s g own qlo Q pd -> g t = QL L M -> walked M L ->
  exists M', queue_ok M' Q /\ invariant s (<[t := QL Q M']> g) own qlo Q pd.
Proof.
  intros H Ht Hw. destruct (word_held _ _ _ _ _ _ t L M H) as [-> Hh]; [by rewrite Ht|].
  destruct (held_ok_extend _ _ _ _ Hh Hw) as (M' & Hh' & Hok). exists M'. split; [done|].
  step H Ht.
  simpl. by rewrite fn_lookup_insert.
Qed.

(** Giving the queue lock back while the lock is held. *)
Lemma word_ql_release s g o qlo Q pd t L M :
  invariant s g (Some o) qlo Q pd -> g t = QL L M -> walked M L ->
  invariant (set_state (pack true false (head_of Q 0)) s) (<[t := Out]> g) (Some o) None Q pd.
Proof.
  intros H Ht Hw. destruct (word_held _ _ _ _ _ _ t L M H) as [-> Hh]; [by rewrite Ht|].
  step H Ht.
  - by eapply held_ok_free.
  - intros _. by left.
Qed.

(** Threads in the queue: they are parked, and nobody is about to wake them. *)
Lemma word_queued s g own qlo Q pd t x c :
  invariant s g own qlo Q pd -> g t = c -> parked c = false -> x ∈ Q -> x <> t /\ pd !! x = None.
Proof.
  intros H Ht Hc Hx. destruct (i_thread _ _ _ _ _ _ H x). split.
  - intros ->. rewrite Ht in *. apply k_queued0 in Hx. congruence.
  - destruct (pd !! x); [|done]. by destruct k_taken0 as [_ []].
Qed.

Lemma pend_insert pd x t u y :
  pd !! x = None -> u <> t -> <[x := t]> pd !! y = Some u <-> pd !! y = Some u.
Proof.
  intros Hx Hu. destruct (decide (x = y)) as [<-|Hne].
  - rewrite lookup_insert_eq, Hx. split; [intros [= ->]|]; done.
  - by rewrite lookup_insert_ne.
Qed.

Lemma pend_mine pd x t :
  (forall y, None = Some y <-> pd !! y = Some t) ->
  forall y, Some x = Some y <-> <[x := t]> pd !! y = Some t.
Proof.
  intros Hp y. destruct (decide (x = y)) as [<-|Hne].
  - by rewrite lookup_insert_eq.
  - rewrite lookup_insert_ne, <- Hp by done. split; congruence.
Qed.

Lemma place_remove Q x pd t u : NoDup (Q ++ [x]) ->
  (u ∈ Q <-> u ∈ Q ++ [x]) /\ is_some (<[x := t]> pd !! u) = is_some (pd !! u) \/
  (u ∈ Q ++ [x] /\ (u ∉ Q) /\ is_some (<[x := t]> pd !! u) = true).
Proof.
  intros (_ & Hn & _)%NoDup_app. destruct (decide (x = u)) as [<-|Hne].
  - right. rewrite lookup_insert_eq. set_solver.
  - left. rewrite lookup_insert_ne by done. set_solver.
Qed.

(** Taking the last thread off, when there are others. *)
Lemma word_remove s g own qlo Q pd t h L M x d :
  invariant s g own qlo Q pd -> g t = QL (h :: L ++ [x]) M -> futex d = 1 ->
  exists Q', Q = Q' ++ [x] /\
    invariant (set_nodes (<[slot h := d]> (nodes s)) s) (<[t := QLR (h :: L) (<[h := d]> M) x]> g)
      own qlo Q' (<[x := t]> pd).
Proof.
  intros H Ht Hd. destruct (word_held _ _ _ _ _ _ t (h :: L ++ [x]) M H) as [-> Hh]; [by rewrite Ht|].
  destruct (held_ok_suffix _ _ _ _ Hh) as [pre E]. exists (pre ++ h :: L).
  assert (HQ : Q = (pre ++ h :: L) ++ [x]) by (by rewrite <- app_assoc). split; [done|].
  pose proof (i_nodup _ _ _ _ _ _ H) as Hnd.
  destruct (word_queued _ _ _ _ _ _ t x _ H Ht) as [Hxt Hpx]; [done|set_solver|].
  step H Ht.
  - simpl. rewrite (i_word _ _ _ _ _ _ H), HQ. by destruct pre.
  - rewrite HQ in Hnd. by apply NoDup_app in Hnd as (? & _).
  - simpl. rewrite fn_lookup_insert. simpl. apply (held_ok_shorten _ _ _ _ x); [|done].
    rewrite <- HQ. apply held_ok_write; [done|set_solver|done].
  - intros _. by right; left.
  - apply k_queued0. rewrite HQ. set_solver.
  - by apply pend_mine.
  - rewrite lookup_insert_ne in * by done. exfalso. naive_solver.
  - by apply pend_insert.
  - rewrite HQ in Hnd |- *. by apply place_remove.
  - destruct (decide (u0 = h)) as [->|Hne].
    + right. split; [rewrite HQ; set_solver|]. exists d. by rewrite lookup_insert_eq.
    + left. by apply lookup_insert_ne, not_eq_sym, slot_ne.
Qed.

(** Giving the queue lock back, after that. *)
Lemma word_qlr_release s g own qlo Q pd t L M x :
  invariant s g own qlo Q pd -> g t = QLR L M x -> walked M L ->
  invariant (set_state (pack (is_some own) false (head_of Q 0)) s) (<[t := Wake1 x]> g) own None Q pd.
Proof.
  intros H Ht Hw. destruct (word_held _ _ _ _ _ _ t L M H) as [-> Hh]; [by rewrite Ht|].
  step H Ht.
  - by eapply held_ok_free.
  - intros _. right; right. exists t. by rewrite fn_lookup_insert.
Qed.

(** Taking the only thread off, and giving the queue lock back. *)
Lemma word_empty s g own qlo pd t M x :
  invariant s g own qlo [x] pd -> g t = QL [x] M ->
  invariant (set_state (pack (is_some own) false 0) s) (<[t := Wake1 x]> g) own None [] (<[x := t]> pd).
Proof.
  intros H Ht. destruct (word_held _ _ _ _ _ _ t [x] M H) as [-> Hh]; [by rewrite Ht|].
  destruct (word_queued _ _ _ _ _ _ t x _ H Ht) as [Hxt Hpx]; [done|set_solver|].
  step H Ht.
  - constructor.
  - exists M. split; [intros y Hy; set_solver|]. split; [constructor|by left].
  - done.
  - apply k_queued0. set_solver.
  - by apply pend_mine.
  - rewrite lookup_insert_ne in * by done. exfalso. naive_solver.
  - by apply pend_insert.
  - apply (place_remove []). apply H.
Qed.

(** Clearing the futex word of the thread that was taken off: it may go on. *)
Lemma word_clear s g own qlo Q pd t x d :
  invariant s g own qlo Q pd -> g t = Wake1 x -> futex d = 0 ->
  exists k, g x = Parked k /\ x <> t /\
    invariant (set_nodes (<[slot x := d]> (nodes s)) s) (<[t := Wake2 x]> (<[x := Woken k]> g))
      own qlo Q (delete x pd).
Proof.
  intros H Ht Hd. pose proof (i_thread _ _ _ _ _ _ H t) as Kt. rewrite Ht in Kt.
  assert (Hp : pd !! x = Some t) by (by apply Kt).
  pose proof (i_thread _ _ _ _ _ _ H x) as Kx.
  destruct (k_taken _ _ _ _ _ _ _ Kx) as [Hpk HxQ]; [by rewrite Hp|].
  destruct (g x) as [| | |k| | | | | | | |] eqn:Hgx; try done. exists k.
  assert (Hne : x <> t) by (intros ->; congruence). split_and!; [done..|].
  assert (Hg : forall u, u <> t -> u <> x -> <[t := Wake2 x]> (<[x := Woken k]> g) u = g u)
    by (intros; by rewrite !fn_lookup_insert_ne).
  assert (Hgx' : <[t := Wake2 x]> (<[x := Woken k]> g) x = Woken k)
    by (by rewrite fn_lookup_insert_ne, fn_lookup_insert).
  assert (Hdel : forall y u, delete x pd !! y = Some u <-> pd !! y = Some u /\ y <> x)
    by (intros; rewrite lookup_delete_Some; naive_solver).
  split.
  - apply H.
  - apply H.
  - destruct Kt, Kx. apply links_other; [|simpl in *; fin].
    eapply links_frame; [apply H|simpl in *; fin|].
    intros y Hy. apply lookup_insert_ne, not_eq_sym, slot_ne. by intros ->.
  - intros _. right; right. exists x. by rewrite Hgx'.
  - apply H.
  - apply H.
  - intros u Hu. destruct (i_sleep _ _ _ _ _ _ H u Hu) as [E|[E (v & Ev)]].
    + destruct (decide (u = x)) as [->|Hux].
      * right. rewrite Hgx'. split; [congruence|]. exists t. by rewrite fn_lookup_insert.
      * left. rewrite Hg; congruence.
    + right. rewrite Hg by congruence. split; [done|]. exists v. rewrite Hg; congruence.
  - intros u. destruct (decide (u = t)) as [->|Hut]; [|destruct (decide (u = x)) as [->|Hux]].
    + rewrite fn_lookup_insert. destruct Kt. split; simpl in *; intros; fin.
      split; [done|]. intros [E%k_pend0 Hx]%Hdel. congruence.
      all: apply k_taken0; by rewrite lookup_delete_ne in *.
    + rewrite Hgx'. destruct Kx. split; simpl in *; intros; fin.
      * rewrite Hdel, <- k_pend0. split; [done|]. by intros [? _].
      * by rewrite lookup_delete_eq in *.
      * exists d. by rewrite lookup_insert_eq.
    + rewrite Hg by done. eapply word_thread_frame; [apply H|]. split; simpl; try done.
      * intros y. rewrite Hdel. split; [by intros [? _]|]. intros E. split; [done|]. congruence.
      * left. by rewrite lookup_delete_ne.
      * left. by apply lookup_insert_ne, not_eq_sym, slot_ne.
Qed.

(** Waking it in the kernel. *)
Lemma word_wake s g own qlo Q pd t x w :
  invariant s g own qlo Q pd -> g t = Wake2 x ->
  (forall b, sleepers b w = (sleepers b (kernel s) - if decide (slot x = b) then 1 else 0)%nat) ->
  invariant (set_kernel w s) (<[t := Out]> g) own qlo Q pd.
Proof.
  intros H Ht Hw. pose proof (fun u => woken_one _ _ _ _ _ _ _ _ u H Hw) as Hn. step H Ht.
  - intros u. apply Hn.
  - intros u [Hne Hu]%Hn. destruct (i_sleep _ _ _ _ _ _ H u Hu) as [E|[E (v & Ev)]].
    + left. rewrite fn_lookup_insert_ne; congruence.
    + right. rewrite fn_lookup_insert_ne by congruence. split; [done|]. exists v.
      rewrite fn_lookup_insert_ne; congruence.
Qed.
End Invariant.
