(* ===== verification/WordLockConc.v ===== *)
(** * The lock of a bucket: mutual exclusion and freedom from deadlock

    [lock] and [unlock] of [WordLock] follow the protocol of [WordLockInv] whatever
    the other threads do, the kernel included; by adequacy the invariant holds in
    every state that any schedule of any number of clients reaches. *)

From S2P Require Import Prelude Machine Conc Timing ThreadParker WordLock WordLockInv.
Import Word.

(** ** Filling in the links *)

Section Walk.
Context `{SS : Stacks}.
Implicit Types (M : nat -> ThreadData) (L : list nat).

(** What is left to do at the thread [y], followed by [B]: it was not processed, or
    all from [y] on is linked. *)
Fixpoint todo M (y : nat) B : Prop :=
  queue_tail (M y) = last_slot (y :: B) /\ linked M (y :: B) \/
  match B with
  | [] => False
  | z :: B => queue_tail (M y) = 0 /\ next (M y) = slot z /\ todo M z B
  end.

Lemma last_slot_cons x y L : last_slot (x :: y :: L) = last_slot (y :: L).
Proof. done. Qed.

Lemma queue_todo M L y B : queue_ok M L -> L = y :: B ->
  Forall (fun x => futex (M x) = 1) L /\ prev (M y) = 0 /\ todo M y B.
Proof.
  intros [Hf [->|(pre & h & rest & -> & Hpre & Hp)]] E; [done|]. split; [done|]. clear Hf.
  revert y B E Hpre. induction pre as [|x pre IH]; intros y B [= -> <-] Hpre.
  - destruct Hp as (Hq & Hp & Hl). split; [done|]. destruct rest; by left.
  - destruct Hpre as [Ex Hpre]. rewrite Ex. split; [done|].
    destruct pre as [|z pre]; simpl in *; right; rewrite Ex; simpl.
    + split_and!; [done|done|]. by destruct (IH h rest) as [_ Ht].
    + split_and!; [done|done|]. by destruct (IH z (pre ++ h :: rest)) as [_ Ht].
Qed.

(** The processed flag of a thread does not depend on its [prev]. *)
Lemma linked_set_prev M y p B : y ∉ B -> linked M (y :: B) ->
  linked (<[y := set_prev p (M y)]> M) (y :: B).
Proof.
  intros Hy Hl. destruct B as [|z B]; [done|]. destruct Hl as (H1 & H2 & H3). split_and!.
  - by rewrite fn_lookup_insert.
  - rewrite fn_lookup_insert_ne by set_solver. done.
  - eapply linked_ext; [|done]. intros x Hx. apply fn_lookup_insert_ne. set_solver.
Qed.

Lemma todo_ext M M' y B : (forall x, x ∈ y :: B -> M' x = M x) -> todo M y B -> todo M' y B.
Proof.
  revert y. induction B as [|z B IH]; intros y HM Ht.
  - simpl in *. by rewrite HM by set_solver.
  - assert (E : M' y = M y) by (apply HM; set_solver). destruct Ht as [[H1 H2]|(H1 & H2 & H3)].
    + left. rewrite E. split; [done|]. by apply (linked_ext M M' (y :: z :: B)).
    + right. rewrite E. split_and!; [done|done|]. apply IH; [set_solver|done].
Qed.

Lemma todo_set_prev M y p B : y ∉ B -> todo M y B -> todo (<[y := set_prev p (M y)]> M) y B.
Proof.
  intros Hy Ht. destruct B as [|z B].
  - simpl in *. by rewrite fn_lookup_insert.
  - destruct Ht as [[H1 H2]|(H1 & H2 & H3)].
    + left. rewrite fn_lookup_insert. split; [done|]. by apply (linked_set_prev M y p (z :: B)).
    + right. rewrite fn_lookup_insert. split_and!; [done|done|]. eapply todo_ext; [|done].
      intros x Hx. apply fn_lookup_insert_ne. by intros ->.
Qed.

(** [fill_prev] at [y], after [A]. *)
Definition filling M L A y B : Prop :=
  L = A ++ y :: B /\ linked M (A ++ [y]) /\ todo M y B /\
  (forall h, head L = Some h -> prev (M h) = 0) /\ Forall (fun x => futex (M x) = 1) L.

Lemma filling_start M h B : queue_ok M (h :: B) -> filling M (h :: B) [] h B.
Proof.
  intros Hq. destruct (queue_todo M _ h B Hq eq_refl) as (Hf & Hp & Ht).
  split_and!; try done. by intros ? [= <-].
Qed.

Lemma filling_step M L A y z B : NoDup L ->
  filling M L A y (z :: B) -> queue_tail (M y) = 0 -> last_slot (y :: z :: B) <> 0 ->
  next (M y) = slot z /\ filling (<[z := set_prev (slot y) (M z)]> M) L (A ++ [y]) z B.
Proof.
  intros Hnd (-> & Hl & Ht & Hh & Hf) Hq Hlast.
  destruct Ht as [[H1 _]|(_ & Hn & Ht)]; [congruence|]. split; [done|].
  assert (Hnd' := Hnd). apply NoDup_app in Hnd' as (_ & HA & Hnd').
  apply NoDup_cons in Hnd' as [Hy Hnd']. apply NoDup_cons in Hnd' as [Hz _].
  assert (Hzy : z ∉ A ++ [y]) by set_solver.
  split_and!.
  - by rewrite <- app_assoc.
  - rewrite <- app_assoc. apply (linked_app _ A y [z]).
    + eapply linked_ext; [|done]. intros x Hx. apply fn_lookup_insert_ne. set_solver.
    + split_and!; [|by rewrite fn_lookup_insert|done].
      rewrite fn_lookup_insert_ne; [done|set_solver].
  - by apply todo_set_prev.
  - intros h E. rewrite fn_lookup_insert_ne; [by apply Hh|].
    intros ->. destruct A; simpl in E; set_solver.
  - rewrite Forall_forall in *. intros x Hx. destruct (decide (x = z)) as [->|Hne].
    + rewrite fn_lookup_insert. by apply Hf.
    + rewrite fn_lookup_insert_ne by done. auto.
Qed.

(** When a processed thread is reached, only the flag of the first is missing. *)
Lemma filling_end M L A y B h : filling M L A y B -> NoDup L -> queue_tail (M y) <> 0 ->
  head L = Some h -> queue_tail (M y) = last_slot L /\
  walked (<[h := set_queue_tail (last_slot L) (M h)]> M) L.
Proof.
  intros (-> & Hl & Ht & Hh & Hf) Hnd Hq Hhd.
  assert (Hlink : queue_tail (M y) = last_slot (y :: B) /\ linked M (y :: B)).
  { destruct B; simpl in Ht; destruct Ht as [Ht|Ht]; [done..|]. by destruct Ht. }
  destruct Hlink as [Hqt Hlb]. pose proof (linked_app _ _ _ _ Hl Hlb) as Hlk.
  assert (Hls : last_slot (A ++ y :: B) = last_slot (y :: B)).
  { unfold last_slot. by rewrite last_app_cons. }
  rewrite Hls. split; [done|]. destruct (A ++ y :: B) as [|h' rest] eqn:E; [done|].
  injection Hhd as ->. apply NoDup_cons in Hnd as [Hn _]. split.
  - rewrite Forall_forall in *. intros x Hx. destruct (decide (x = h)) as [->|Hne].
    + rewrite fn_lookup_insert. by apply Hf.
    + rewrite fn_lookup_insert_ne by done. auto.
  - exists h, rest. split; [done|]. split_and!.
    + by rewrite fn_lookup_insert.
    + rewrite fn_lookup_insert. by apply Hh.
    + destruct rest as [|z rest]; [done|]. destruct Hlk as (H1 & H2 & H3). split_and!.
      * by rewrite fn_lookup_insert.
      * rewrite fn_lookup_insert_ne by set_solver. done.
      * eapply linked_ext; [|done]. intros x Hx. apply fn_lookup_insert_ne. set_solver.
Qed.
End Walk.

Section Operations.
Context `{KK : Kernel} `{SS : Stacks}.

Abbreviation cs := (csafe Inv mv wait).
Abbreviation to := (csafe_to Inv mv).

Ltac cs_bind := eapply (csafe_bind Inv mv).

Lemma wmv_inv c c' : mv c c' -> parked c = false -> c' = c.
Proof. intros [->|(k & -> & _)]; done. Qed.

Lemma wmv_parked k c : mv (Parked k) c -> c = Parked k \/ c = Woken k.
Proof. intros [<-|(k' & [= <-] & ->)]; auto. Qed.

Ltac phase_eq :=
  subst; repeat match goal with
  | H : mv ?c _ |- _ => apply wmv_inv in H; [|done]
  end; subst.

(** A step of [t] to the phase [c]. *)
Lemma word_to_phase {X} t g c s' own qlo Q pd (P : phase -> X -> Prop) x :
  invariant s' (<[t := c]> g) own qlo Q pd -> (forall c', mv c c' -> P c' x) -> to t g s' P x.
Proof.
  intros H HQ. exists (<[t := c]> g). split_and!.
  - by do 4 eexists.
  - intros t' Hne. by rewrite fn_lookup_insert_ne.
  - rewrite fn_lookup_insert. done.
Qed.

Lemma word_to_same {X} t g s' own qlo Q pd (P : phase -> X -> Prop) x :
  invariant s' g own qlo Q pd -> (forall c', mv (g t) c' -> P c' x) -> to t g s' P x.
Proof. intros H HQ. exists g. split_and!; [by do 4 eexists|reflexivity|done]. Qed.

Lemma cs_act {X} n t c (f : sys -> res (X * sys)) (P : phase -> X -> Prop) :
  (forall s g, Inv s g -> mv c (g t) ->
     match f s with
     | Ok (x, s') => to t g s' P x
     | Block => wait s g t
     | Fail _ => False
     end) ->
  cs n t c (act f) P.
Proof. intros H. by apply csafe_act. Qed.

(** ** The word *)

Definition word_ok (z : Z) : Prop := exists l q h, addr_ok h /\ z = pack l q h.

Lemma state_ok s g own qlo Q pd : invariant s g own qlo Q pd -> word_ok (state s).
Proof. intros H. do 3 eexists. split; [by eapply head_ok|apply H]. Qed.

(** The word is the one that was read. *)
Lemma state_is s g own qlo Q pd l q h :
  invariant s g own qlo Q pd -> addr_ok h -> state s = pack l q h ->
  is_some own = l /\ is_some qlo = q /\ head_of Q 0 = h.
Proof.
  intros H Hh E. rewrite (i_word _ _ _ _ _ _ H) in E. apply pack_inj in E; [done|by eapply head_ok|done].
Qed.

Lemma queued_bound s g own qlo Q pd x : invariant s g own qlo Q pd -> x ∈ Q -> (x < max_threads)%nat.
Proof.
  intros H Hx. destruct (i_thread _ _ _ _ _ _ H x). apply k_bound. intros E. rewrite E in *.
  by apply k_queued in Hx.
Qed.

Lemma head_zero s g own qlo Q pd : invariant s g own qlo Q pd -> (head_of Q 0 =? 0) = bool_decide (Q = []).
Proof.
  intros H. destruct Q as [|x Q]; [done|]. case_bool_decide; [done|].
  apply Z.eqb_neq. apply slot_ok. eapply queued_bound; [done|set_solver].
Qed.

Lemma load_word n t c : parked c = false ->
  cs n t c load_state (fun c' z => c' = c /\ word_ok z).
Proof.
  intros Hc. apply csafe_load_ghost. intros s g (own & qlo & Q & pd & H) Hg.
  apply wmv_inv in Hg; [|done]. eapply word_to_same; [done|]. rewrite Hg. intros c' Hc'.
  apply wmv_inv in Hc'; [|done]. split; [done|by eapply state_ok].
Qed.

(** ** [lock] *)

Lemma acquire_ok n t c z : c = Out \/ c = Slow -> word_ok z -> is_locked z = false ->
  (t < max_threads)%nat ->
  cs n t c (cas_weak_state z (Z.lor z LOCKED_BIT))
    (fun c' r => match r with inl _ => c' = Held | inr x => c' = Slow /\ word_ok x end).
Proof.
  intros Hc (l & q & h & Hh & ->) Hl Hb. rewrite pack_locked in Hl by done. subst l.
  rewrite pack_lock. apply csafe_cas_weak_ghost.
  - intros s g (own & qlo & Q & pd & H) Hg Hw. apply wmv_inv in Hg; [|naive_solver].
    destruct (state_is _ _ _ _ _ _ _ _ _ H Hh Hw) as (Ho & <- & <-). destruct own; [done|].
    eapply word_to_phase; [by eapply word_acquire|]. intros; by phase_eq.
  - intros s g (own & qlo & Q & pd & H) Hg. apply wmv_inv in Hg; [|naive_solver].
    destruct Hc as [-> | ->].
    + eapply word_to_phase; [by eapply word_slow|]. intros; phase_eq. split; [done|by eapply state_ok].
    + eapply word_to_same; [done|]. rewrite Hg. intros; phase_eq. split; [done|by eapply state_ok].
Qed.

Lemma prep_write n t d f :
  cs n t (Prep d) (td_write (slot t) f) (fun c _ => c = Prep (f d)).
Proof.
  apply cs_act. intros s g (own & qlo & Q & pd & H) Hg. phase_eq.
  pose proof (k_node _ _ _ _ _ _ _ (i_thread _ _ _ _ _ _ H t)) as Hn. rewrite Hg in Hn. simpl in Hn.
  rewrite Hn. eapply word_to_phase; [eapply word_prep; eauto|]. intros; by phase_eq.
Qed.

Lemma data_new n t :
  cs n t Slow (ThreadData_new t) (fun c a => c = Prep ThreadData_fresh /\ a = slot t).
Proof.
  change (cs n t Slow (store (fun s => set_nodes (<[slot t := ThreadData_fresh]> (nodes s)) s) ;;
    Ret (slot t)) (fun c a => c = Prep ThreadData_fresh /\ a = slot t)).
  cs_bind.
  { apply csafe_store with (Q := fun c _ => c = Prep ThreadData_fresh).
    intros s g (own & qlo & Q & pd & H) Hg. phase_eq.
    eapply word_to_phase; [eapply word_prep; eauto|]. intros; by phase_eq. }
  intros m ? _ _ ->. apply csafe_ret. intros; by phase_eq.
Qed.

Lemma data_end n t c : (exists d, c = Prep d) \/ c = Woken false ->
  cs n t c (ThreadData_end (slot t)) (fun c _ => c = Slow).
Proof.
  intros Hc. apply csafe_store. intros s g (own & qlo & Q & pd & H) Hg.
  apply wmv_inv in Hg; [|by destruct Hc as [[? ->]| ->]].
  eapply word_to_phase; [by eapply word_drop|]. intros; by phase_eq.
Qed.

(** A thread waits until it is woken, however often the kernel returns. *)
Lemma park_read n t c : mv (Parked false) c ->
  cs n t c (td_read (slot t) futex)
    (fun c f => f = 1 /\ mv (Parked false) c \/ f = 0 /\ c = Woken false).
Proof.
  intros Hc. apply cs_act. intros s g (own & qlo & Q & pd & H) Hg.
  assert (Hm : mv (Parked false) (g t)) by (by etransitivity).
  pose proof (k_node _ _ _ _ _ _ _ (i_thread _ _ _ _ _ _ H t)) as Hn.
  destruct (wmv_parked _ _ Hm) as [E|E]; rewrite E in Hn; simpl in Hn; destruct Hn as (d & -> & Hd).
  - eapply word_to_same; [done|]. rewrite E. auto.
  - eapply word_to_same; [done|]. rewrite E. intros; phase_eq. auto.
Qed.

(** Leaving the kernel. *)
Lemma unsleep_to {X} t g s own qlo Q pd c w (P : phase -> X -> Prop) x :
  invariant s g own qlo Q pd -> mv (Parked true) c -> mv c (g t) ->
  (forall b, sleepers b w = (sleepers b (kernel s) - if decide (slot t = b) then 1 else 0)%nat) ->
  (forall c, mv (Parked false) c -> P c x) ->
  to t g (set_kernel w s) P x.
Proof.
  intros H Hc Hg Hw HP. assert (Hm : mv (Parked true) (g t)) by (by etransitivity).
  destruct (wmv_parked _ _ Hm) as [E|E].
  - eapply word_to_phase; [eapply word_unsleep; [done|done|by left|done]|]. done.
  - eapply word_to_phase; [eapply word_unsleep; [done|done|by right|done]|].
    intros c' Hc'. apply HP. phase_eq. right. eauto.
Qed.

Lemma word_park n t c : mv (Parked false) c ->
  cs n t c (park (slot t)) (fun c _ => c = Woken false).
Proof.
  intros Hc. unfold park.
  apply (park_safe kernel_lens futex_at read_futex Inv mv wait t (slot t) (mv (Parked false)) (mv (Parked true)));
    [by intros; etransitivity|by intros; phase_eq|by intros; etransitivity|..|done].
  - intros m c' Hc'. eapply (csafe_mono Inv mv); [|by apply park_read]. intros c2 f [[-> ?]|?]; [by left|by right].
  - intros s g (own & qlo & Q & pd & H) Hm. unfold futex_at.
    pose proof (k_node _ _ _ _ _ _ _ (i_thread _ _ _ _ _ _ H t)) as Hn.
    destruct (wmv_parked _ _ Hm) as [E|E]; rewrite E in Hn; simpl in Hn;
      destruct Hn as (d & -> & Hd); eexists; (split; [done|]); simpl; intros Hv; [|congruence].
    eapply word_to_phase; [by eapply word_sleep|]. done.
  - intros s g w (own & qlo & Q & pd & H) Hm Hw. by eapply unsleep_to.
  - intros s g _ _ Hs. unfold wait, sleeps. auto.
Qed.

(** What a thread writes before it joins a queue with head [h]. *)
Definition prepared (t : nat) (h : Z) : ThreadData :=
  if h =? 0 then MkThreadData 1 (slot t) 0 0 else MkThreadData 1 0 0 h.

Lemma prepare_ok n t h :
  cs n t (Prep ThreadData_fresh)
    (td_write (slot t) (set_futex 1) ;;
     if h =? 0 then
       td_write (slot t) (set_queue_tail (slot t)) ;;
       td_write (slot t) (set_prev 0)
     else
       td_write (slot t) (set_queue_tail 0) ;;
       td_write (slot t) (set_prev 0) ;;
       td_write (slot t) (set_next h)) (fun c _ => c = Prep (prepared t h)).
Proof.
  cs_bind; [apply prep_write|]. intros m1 ? _ _ ->. unfold prepared. destruct (h =? 0).
  - cs_bind; [apply prep_write|]. intros m2 ? _ _ ->. apply prep_write.
  - cs_bind; [apply prep_write|]. intros m2 ? _ _ ->.
    cs_bind; [apply prep_write|]. intros m3 ? _ _ ->. apply prep_write.
Qed.

Lemma join_ok n t z : word_ok z -> is_locked z = true ->
  cs n t (Prep (prepared t (queue_head z))) (cas_weak_state z (with_queue_head z (slot t)))
    (fun c r => match r with
                | inl _ => mv (Parked false) c
                | inr x => (exists d, c = Prep d) /\ word_ok x
                end).
Proof.
  intros (l & q & h & Hh & ->) Hl. rewrite pack_locked in Hl by done. subst l.
  rewrite pack_with_head, pack_head by done. apply csafe_cas_weak_ghost.
  - intros s g (own & qlo & Q & pd & H) Hg Hw. phase_eq.
    destruct (state_is _ _ _ _ _ _ _ _ _ H Hh Hw) as (Ho & <- & <-). destruct own as [o|]; [|done].
    eapply word_to_phase; [eapply word_push; [done|done|]|done].
    unfold prepared. by rewrite (head_zero _ _ _ _ _ _ H).
  - intros s g (own & qlo & Q & pd & H) Hg. phase_eq. eapply word_to_same; [done|].
    rewrite Hg. intros; phase_eq. split; [eauto|by eapply state_ok].
Qed.

Lemma enqueue_and_park_ok n t z : word_ok z -> is_locked z = true ->
  cs n t (Prep ThreadData_fresh) (enqueue_and_park (slot t) z)
    (fun c r => word_ok r.1 /\ ((exists d, c = Prep d) \/ c = Woken false)).
Proof.
  intros Hz Hl. eapply csafe_peq; [apply bind_assoc|]. cs_bind; [apply prepare_ok|].
  intros m1 ? _ _ ->. cs_bind; [by apply join_ok|]. intros m2 c [_|x] _ Hc.
  - cs_bind; [by apply word_park|]. intros m3 ? _ _ ->. cs_bind; [by apply load_word|].
    intros m4 ? x _ [-> Hx]. apply csafe_ret. intros; phase_eq. auto.
  - destruct Hc as [[d ->] Hx]. apply csafe_ret. intros; phase_eq. eauto.
Qed.

Lemma with_data_ok n t z : word_ok z -> is_locked z = true ->
  cs n t Slow (with_thread_data t (fun a => enqueue_and_park a z))
    (fun c r => word_ok r.1 /\ c = Slow).
Proof.
  intros Hz Hl. cs_bind; [apply data_new|]. intros m1 ? a _ [-> ->].
  cs_bind; [by apply enqueue_and_park_ok|]. intros m2 c r _ [Hr Hc].
  cs_bind; [by apply data_end|]. intros m3 ? _ _ ->. apply csafe_ret. intros; by phase_eq.
Qed.

Lemma word_lock_slow n t : (t < max_threads)%nat -> cs n t Slow (lock_slow t) (fun c _ => c = Held).
Proof.
  intros Ht. cs_bind; [by apply load_word|]. intros m1 ? z _ [-> Hz].
  eapply (csafe_loop _ mv _ _ _ (fun c (i : SpinWait.SpinWait * Z) => c = Slow /\ word_ok i.2)); [done|].
  intros m2 ? [w z'] _ [-> Hz']. simpl in Hz'. destruct (is_locked z') eqn:Hl; simpl.
  - destruct (if queue_head z' =? 0 then _ else _) as [[] w'].
    + cs_bind; [by apply load_word|]. intros m3 ? x _ [-> Hx]. apply csafe_ret. intros; by phase_eq.
    + cs_bind; [by apply with_data_ok|]. intros m3 ? [x b] _ [Hx ->].
      apply csafe_ret. intros; by phase_eq.
  - cs_bind; [apply acquire_ok; auto|]. intros m3 c [_|x] _ Hc.
    + subst c. apply csafe_ret. intros; phase_eq. apply csafe_ret. intros; by phase_eq.
    + destruct Hc as [-> Hx]. apply csafe_ret. intros; by phase_eq.
Qed.

Lemma word_lock_ok n t : (t < max_threads)%nat -> cs n t Out (lock t) (fun c _ => c = Held).
Proof.
  intros Ht. cs_bind; [apply (acquire_ok _ _ _ 0); [by left| |done|done]|].
  { exists false, false, 0. split; [|done]. split; [|done]. unfold in_width, usize. lia. }
  intros m1 c [y|x] _ Hc; simpl.
  - subst c. apply csafe_ret. intros; by phase_eq.
  - destruct Hc as [-> _]. by apply word_lock_slow.
Qed.

(** ** [unlock] *)

(** The queue lock is held, and [z] was read from the word after the queue [L]. *)
Definition ready (c : phase) (z : Z) : Prop :=
  exists L M, c = QL L M /\ L <> [] /\ NoDup L /\ Forall (fun x => x < max_threads)%nat L /\
    queue_ok M L /\ word_ok z /\ queue_head z = head_of L 0.

Lemma ready_now s g own qlo Q pd M :
  invariant s g own qlo Q pd -> Q <> [] -> queue_ok M Q -> ready (QL Q M) (state s).
Proof.
  intros H HQ Hok. exists Q, M. split_and!; [done|done|apply H| |done|by eapply state_ok|].
  - apply Forall_forall. intros x Hx. by eapply queued_bound.
  - rewrite (i_word _ _ _ _ _ _ H). apply pack_head. by eapply head_ok.
Qed.

(** Whether there is nothing to do. *)
Definition idle (z : Z) : bool := is_queue_locked z || (queue_head z =? 0).

Lemma idle_state s g own qlo Q pd : invariant s g own qlo Q pd ->
  idle (state s) = is_some qlo || bool_decide (Q = []).
Proof.
  intros H. pose proof (head_ok _ _ _ _ _ _ H). unfold idle. rewrite (i_word _ _ _ _ _ _ H).
  rewrite pack_queue_locked, pack_head by done. by erewrite head_zero.
Qed.

(** A thread that has unlocked looks at the word. *)
Lemma unl_look {X} t g s own qlo Q pd (P : phase -> X -> Prop) x :
  invariant s g own qlo Q pd -> g t = Unl ->
  P (if idle (state s) then Out else Unl) x -> to t g s P x.
Proof.
  intros H Hg HP. rewrite (idle_state _ _ _ _ _ _ H) in HP.
  destruct (is_some qlo || bool_decide (Q = [])) eqn:E.
  - eapply word_to_phase; [eapply word_unlock_done; [done..|]|intros; by phase_eq].
    apply orb_true_iff in E as [E|E]; [by left|right]. by apply bool_decide_eq_true in E.
  - eapply word_to_same; [done|]. rewrite Hg. intros; by phase_eq.
Qed.

Lemma grab_ok n t z : word_ok z -> idle z = false ->
  cs n t Unl (cas_weak_state z (Z.lor z QUEUE_LOCKED_BIT))
    (fun c r => match r with
                | inl _ => ready c z
                | inr x => c = (if idle x then Out else Unl) /\ word_ok x
                end).
Proof.
  intros Hz Hi. destruct Hz as (l & q & h & Hh & Ez). apply csafe_cas_weak_ghost.
  - intros s g (own & qlo & Q & pd & H) Hg Hw. phase_eq. simpl in *.
    rewrite <- Hw, (idle_state _ _ _ _ _ _ H) in Hi. apply orb_false_iff in Hi as [Hq HQ].
    destruct qlo; [done|]. apply bool_decide_eq_false in HQ.
    destruct (word_grab _ _ _ _ _ _ H Hg HQ) as (M & Hok & H').
    rewrite <- Hw, (i_word _ _ _ _ _ _ H), pack_queue_lock.
    eapply word_to_phase; [exact H'|]. intros; phase_eq. rewrite <- (i_word _ _ _ _ _ _ H).
    by eapply ready_now.
  - intros s g (own & qlo & Q & pd & H) Hg. phase_eq.
    eapply unl_look; [done|done|]. split; [done|by eapply state_ok].
Qed.

Lemma grab_queue_ok n t :
  cs n t Unl grab_queue (fun c r => match r with None => c = Out | Some z => ready c z end).
Proof.
  cs_bind.
  { apply csafe_load_ghost with
      (Q := fun c z => c = (if idle z then Out else Unl) /\ word_ok z).
    intros s g (own & qlo & Q & pd & H) Hg. phase_eq.
    eapply unl_look; [done|done|]. split; [done|by eapply state_ok]. }
  intros m1 ? z _ Hz.
  eapply (csafe_loop _ mv _ _ _ (fun c z => c = (if idle z then Out else Unl) /\ word_ok z)); [done|].
  clear z Hz. intros m2 ? z _ [-> Hz]. change (is_queue_locked z || (queue_head z =? 0)) with (idle z).
  destruct (idle z) eqn:Hi.
  - apply csafe_ret. intros; phase_eq. apply csafe_ret. intros; by phase_eq.
  - cs_bind; [by apply grab_ok|]. intros m3 c [y|x] _ Hc.
    + destruct Hc as (L & M & -> & HL). apply csafe_ret. intros; phase_eq.
      apply csafe_ret. intros; phase_eq. by exists L, M.
    + apply csafe_ret. destruct Hc as [-> Hx]. intros c Hc. apply wmv_inv in Hc; [done|].
      by destruct (idle x).
Qed.

(** The thread data of the queue, to the holder of the queue lock. *)
Lemma ql_read {X} n t L M x (f : ThreadData -> X) : x ∈ L ->
  cs n t (QL L M) (td_read (slot x) f) (fun c r => c = QL L M /\ r = f (M x)).
Proof.
  intros Hx. apply cs_act. intros s g (own & qlo & Q & pd & H) Hg. phase_eq.
  destruct (word_held _ _ _ _ _ _ t L M H) as [_ Hh]; [by rewrite Hg|].
  rewrite (held_ok_read _ _ _ _ _ Hh Hx). eapply word_to_same; [done|].
  rewrite Hg. intros; by phase_eq.
Qed.

Lemma ql_write n t L M x f : x ∈ L -> futex (f (M x)) = 1 ->
  cs n t (QL L M) (td_write (slot x) f) (fun c _ => c = QL L (<[x := f (M x)]> M)).
Proof.
  intros Hx Hf. apply cs_act. intros s g (own & qlo & Q & pd & H) Hg. phase_eq.
  destruct (word_held _ _ _ _ _ _ t L M H) as [_ Hh]; [by rewrite Hg|].
  rewrite (held_ok_read _ _ _ _ _ Hh Hx). eapply word_to_phase; [by eapply word_ql_write|].
  intros; by phase_eq.
Qed.

Lemma last_slot_ne L : L <> [] -> Forall (fun x => x < max_threads)%nat L -> last_slot L <> 0.
Proof.
  intros HL Hb. unfold last_slot. destruct (last L) as [x|] eqn:E.
  - apply slot_ok. rewrite Forall_forall in Hb. apply Hb. by apply last_Some_elem_of.
  - by apply last_None in E.
Qed.

Lemma fill_prev_ok n t h B M :
  queue_ok M (h :: B) -> NoDup (h :: B) -> Forall (fun x => x < max_threads)%nat (h :: B) ->
  cs n t (QL (h :: B) M) (fill_prev (slot h))
    (fun c r => r = last_slot (h :: B) /\ exists M', c = QL (h :: B) M' /\ futex (M' h) = 1 /\
       walked (<[h := set_queue_tail r (M' h)]> M') (h :: B)).
Proof.
  intros Hq Hnd Hb. eapply (csafe_loop _ mv _ _ _ (fun c z => exists M A y B',
    c = QL (h :: B) M /\ z = slot y /\ filling M (h :: B) A y B')).
  { exists M, [], h, B. split_and!; [done|done|]. by apply filling_start. }
  clear M Hq. intros m1 ? ? _ (M & A & y & B' & -> & -> & Hf).
  assert (HL : h :: B = A ++ y :: B') by apply Hf.
  cs_bind; [apply ql_read; rewrite HL; set_solver|]. intros m2 ? r _ [-> ->].
  destruct (Z.eqb_spec (queue_tail (M y)) 0) as [E|E]; simpl.
  - destruct B' as [|z B'].
    { destruct Hf as (_ & _ & [[Hl _]|[]] & _). exfalso. rewrite E in Hl.
      apply (last_slot_ne [y]); [done| |done]. rewrite HL in Hb. by apply Forall_app in Hb as [_ ?]. }
    assert (Hls : last_slot (y :: z :: B') <> 0).
    { apply last_slot_ne; [done|]. rewrite HL in Hb. by apply Forall_app in Hb as [_ ?]. }
    destruct (filling_step _ _ _ _ _ _ Hnd Hf E Hls) as [Hn Hf'].
    cs_bind; [apply ql_read; rewrite HL; set_solver|]. intros m3 ? r _ [-> ->]. rewrite Hn.
    cs_bind; [apply ql_write; [rewrite HL; set_solver|]|].
    { destruct Hf as (_ & _ & _ & _ & Hf). rewrite Forall_forall in Hf. apply Hf. rewrite HL. set_solver. }
    intros m4 ? _ _ ->. apply csafe_ret. intros; phase_eq. eauto 10.
  - destruct (filling_end _ _ _ _ _ h Hf Hnd E eq_refl) as [Hr Hw].
    apply csafe_ret. intros; phase_eq. apply csafe_ret. intros; phase_eq. rewrite Hr.
    split; [done|]. exists M. split_and!; [done| |done].
    destruct Hf as (_ & _ & _ & _ & Hf). rewrite Forall_forall in Hf. apply Hf. set_solver.
Qed.

(** The holder of the queue lock looks at the word again. *)
Lemma ql_again {X} t g s own qlo Q pd L M (P : phase -> X -> Prop) x :
  invariant s g own qlo Q pd -> g t = QL L M -> walked M L ->
  (forall c, ready c (state s) -> P c x) -> to t g s P x.
Proof.
  intros H Hg Hw HP. destruct (word_extend _ _ _ _ _ _ _ _ _ H Hg Hw) as (M' & Hok & H').
  destruct (word_held _ _ _ _ _ _ t L M H) as [_ (HL & pre & _ & -> & _)]; [by rewrite Hg|].
  eapply word_to_phase; [exact H'|]. intros; phase_eq. apply HP.
  eapply ready_now; [exact H|by destruct pre, L|done].
Qed.

(** How a pass of ['outer] ends. *)
Definition pass_post (c : phase) (r : Z + option Z) : Prop :=
  match r with
  | inl z => ready c z
  | inr None => c = Out
  | inr (Some a) => exists x, a = slot x /\ c = Wake1 x
  end.

Lemma ready_still c c' z : ready c z -> mv c c' -> ready c' z.
Proof. intros (L & M & -> & HL) Hc. phase_eq. by exists L, M. Qed.

Lemma release_ok n t L M z : walked M L -> word_ok z -> is_locked z = true ->
  cs n t (QL L M) (cas_weak_state z (Z.land z (unot usize QUEUE_LOCKED_BIT)))
    (fun c r => match r with inl _ => c = Out | inr x => ready c x end).
Proof.
  intros Hw (l & q & h & Hh & ->) Hl. rewrite pack_locked in Hl by done. subst l.
  rewrite pack_queue_unlock by done. apply csafe_cas_weak_ghost.
  - intros s g (own & qlo & Q & pd & H) Hg E. phase_eq.
    destruct (state_is _ _ _ _ _ _ _ _ _ H Hh E) as (Ho & _ & <-). destruct own as [o|]; [|done].
    eapply word_to_phase; [by eapply word_ql_release|]. intros; by phase_eq.
  - intros s g (own & qlo & Q & pd & H) Hg. phase_eq. by eapply ql_again.
Qed.

(** The queue has one thread. *)
Lemma empty_cas_ok n t x M z : walked M [x] -> word_ok z -> queue_head z = slot x ->
  cs n t (QL [x] M) (cas_weak_state z (Z.land z LOCKED_BIT))
    (fun c r => match r with inl _ => c = Wake1 x | inr x => ready c x end).
Proof.
  intros Hw (l & q & h & Hh & ->) Hl. rewrite pack_head in Hl by done. subst h.
  rewrite pack_only_lock by done. apply csafe_cas_weak_ghost.
  - intros s g (own & qlo & Q & pd & H) Hg E. phase_eq.
    destruct (state_is _ _ _ _ _ _ _ _ _ H Hh E) as (<- & _ & Hq).
    destruct (word_held _ _ _ _ _ _ t [x] M H) as [-> Hheld]; [by rewrite Hg|].
    pose proof (held_ok_same _ _ _ _ Hheld (i_nodup _ _ _ _ _ _ H) Hq) as ->.
    eapply word_to_phase; [by eapply word_empty|]. intros; by phase_eq.
  - intros s g (own & qlo & Q & pd & H) Hg. phase_eq. by eapply ql_again.
Qed.

Lemma ready_head c z : ready c z -> (queue_head z =? 0) = false.
Proof.
  intros (L & M & -> & HL & _ & Hb & _ & _ & ->). apply Z.eqb_neq.
  destruct L as [|x L]; [done|]. apply slot_ok. by apply Forall_cons in Hb as [? _].
Qed.

Lemma empty_queue_ok n t x M z : walked M [x] -> word_ok z -> queue_head z = slot x ->
  cs n t (QL [x] M) (empty_queue z)
    (fun c r => match r with None => c = Wake1 x | Some z => ready c z end).
Proof.
  intros Hw Hz Hh. eapply (csafe_loop _ mv _ _ _ (fun c z =>
    c = QL [x] M /\ word_ok z /\ queue_head z = slot x)); [done|].
  clear z Hz Hh. intros m1 ? z _ (-> & Hz & Hh). cs_bind; [by apply empty_cas_ok|].
  intros m2 c [y|y] _ Hc.
  - subst c. apply csafe_ret. intros; phase_eq. apply csafe_ret. intros; by phase_eq.
  - rewrite (ready_head _ _ Hc). apply csafe_ret. intros c' Hc' m' _.
    apply csafe_ret. intros. eapply ready_still; [by eapply ready_still|done].
Qed.

(** The queue has others: its last thread is taken off. *)
Lemma shorten_ok n t h L y x M :
  walked M (h :: L ++ [x]) -> NoDup (h :: L ++ [x]) -> last (h :: L) = Some y ->
  cs n t (QL (h :: L ++ [x]) M)
    (td_write (slot h) (set_queue_tail (slot y)) ;;
     fetch_state (fun s => Z.land s (unot usize QUEUE_LOCKED_BIT))) (fun c _ => c = Wake1 x).
Proof.
  intros Hw Hnd Hy. destruct (walked_shorten _ _ _ _ _ Hw Hnd Hy) as [Hw' _].
  assert (Hf : futex (M h) = 1).
  { destruct Hw as [Hf _]. rewrite Forall_forall in Hf. apply Hf. set_solver. }
  cs_bind.
  { apply cs_act with (P := fun c _ => c = QLR (h :: L) (<[h := set_queue_tail (slot y) (M h)]> M) x).
    intros s g (own & qlo & Q & pd & H) Hg. phase_eq.
    destruct (word_held _ _ _ _ _ _ t (h :: L ++ [x]) M H) as [_ Hh]; [by rewrite Hg|].
    rewrite (held_ok_read _ _ _ _ h Hh) by set_solver.
    destruct (word_remove _ _ _ _ _ _ _ _ _ _ _ (set_queue_tail (slot y) (M h)) H Hg Hf) as (Q' & _ & H').
    eapply word_to_phase; [exact H'|]. intros; by phase_eq. }
  intros m1 ? _ _ ->. apply cs_act. intros s g (own & qlo & Q & pd & H) Hg. phase_eq.
  rewrite (i_word _ _ _ _ _ _ H), pack_queue_unlock by by eapply head_ok.
  eapply word_to_phase; [by eapply word_qlr_release|]. intros; by phase_eq.
Qed.

Lemma walked_first M h B : walked M (h :: B) -> prev (M h) = 0.
Proof. intros (_ & h' & rest & [= <- <-] & _ & Hp & _). done. Qed.

Lemma last_slot_snoc L x : last_slot (L ++ [x]) = slot x.
Proof. unfold last_slot. by rewrite last_snoc. Qed.

(** The lock is free: a thread is taken off the queue. *)
Lemma take_off_ok n t h B M z :
  walked M (h :: B) -> NoDup (h :: B) -> Forall (fun x => x < max_threads)%nat (h :: B) ->
  word_ok z -> queue_head z = slot h ->
  cs n t (QL (h :: B) M)
    (let! new_tail := td_read (last_slot (h :: B)) prev in
     if new_tail =? 0 then
       let! r := empty_queue z in
       match r with
       | None => Ret (inr (Some (last_slot (h :: B))))
       | Some x => Ret (inl x)
       end
     else
       td_write (slot h) (set_queue_tail new_tail) ;;
       fetch_state (fun s => Z.land s (unot usize QUEUE_LOCKED_BIT)) ;;
       Ret (inr (Some (last_slot (h :: B))))) pass_post.
Proof.
  intros Hw Hnd Hb Hz Hh. destruct B as [|x B _] using rev_ind.
  - change (last_slot [h]) with (slot h). cs_bind; [apply ql_read; set_solver|].
    intros m1 ? r _ [-> ->]. rewrite (walked_first _ _ _ Hw). simpl.
    cs_bind; [by apply empty_queue_ok|]. intros m2 c [x|] _ Hc; apply csafe_ret; intros; simpl.
    + by eapply ready_still.
    + phase_eq. eauto.
  - destruct (last (h :: B)) as [y|] eqn:Hy; [|by apply last_None in Hy].
    destruct (walked_shorten _ _ _ _ _ Hw Hnd Hy) as [_ Hp].
    rewrite (last_slot_snoc (h :: B) x : last_slot (h :: B ++ [x]) = slot x).
    cs_bind; [apply ql_read; set_solver|]. intros m1 ? r _ [-> ->]. rewrite Hp.
    destruct (Z.eqb_spec (slot y) 0) as [E|_].
    { exfalso. apply (slot_ok y); [|done]. rewrite Forall_forall in Hb. apply Hb.
      apply last_Some_elem_of in Hy. set_solver. }
    eapply csafe_peq; [apply bind_assoc|]. cs_bind; [by apply shorten_ok|]. intros m2 ? _ _ ->.
    apply csafe_ret. intros; phase_eq. simpl. eauto.
Qed.

Lemma outer_pass_ok n t c z : ready c z -> cs n t c (outer_pass z) pass_post.
Proof.
  intros (L & M & -> & HL & Hnd & Hb & Hq & Hz & Hh). destruct L as [|h B]; [done|]. simpl in Hh.
  unfold outer_pass. rewrite Hh. cs_bind; [by apply fill_prev_ok|].
  intros m1 ? ? _ [-> (M' & -> & Hf & Hw)]. cs_bind; [apply ql_write; [set_solver|done]|].
  intros m2 ? _ _ ->. destruct (is_locked z) eqn:Hl; [|by apply take_off_ok].
  cs_bind; [by apply release_ok|]. intros m3 c [y|x] _ Hc; apply csafe_ret; intros; simpl.
  - by phase_eq.
  - by eapply ready_still.
Qed.

(** Waking the thread that was taken off: it is still there until its futex word is
    cleared, and its thread data is not accessed after that. *)
Lemma word_clear_ok n t x : cs n t (Wake1 x) (write_futex (slot x) 0) (fun c _ => c = Wake2 x).
Proof.
  apply cs_act with (P := fun c _ => c = Wake2 x). intros s g (own & qlo & Q & pd & H) Hg. phase_eq.
  destruct (nodes s !! slot x) as [d|] eqn:Hd.
  - destruct (word_clear _ _ _ _ _ _ _ _ (set_futex 0 d) H Hg) as (k & Hx & Hne & H'); [done|].
    eexists. split_and!; [by do 4 eexists|..].
    + intros u Hu. rewrite fn_lookup_insert_ne by done. destruct (decide (u = x)) as [->|Hux].
      * rewrite fn_lookup_insert, Hx. right. eauto.
      * by rewrite fn_lookup_insert_ne.
    + rewrite fn_lookup_insert. intros; by phase_eq.
  - destruct (word_clear _ _ _ _ _ _ _ _ (set_futex 0 ThreadData_fresh) H Hg) as (k & Hx & _); [done|].
    pose proof (k_node _ _ _ _ _ _ _ (i_thread _ _ _ _ _ _ H x)) as Hn. rewrite Hx, Hd in Hn.
    by destruct Hn as (? & ? & _).
Qed.

Lemma word_wake_ok n t x : cs n t (Wake1 x) (wake (slot x)) (fun c _ => c = Out).
Proof.
  cs_bind.
  { cs_bind; [apply word_clear_ok|]. intros m1 ? _ _ ->.
    apply csafe_ret with (Q := fun c h => c = Wake2 x /\ h = slot x). intros; by phase_eq. }
  intros m1 ? _ _ [-> ->]. apply unpark_safe with (Q := fun c => c = Out); [apply _|by intros; phase_eq|].
  intros s g w (own & qlo & Q & pd & H) Hg Hs. phase_eq.
  eapply word_to_phase; [by eapply word_wake|]. intros; by phase_eq.
Qed.

Lemma unlock_slow_ok n t : cs n t Unl unlock_slow (fun c _ => c = Out).
Proof.
  cs_bind; [apply grab_queue_ok|]. intros m1 c [z|] _ Hc;
    [|subst c; apply csafe_ret; intros; by phase_eq].
  cs_bind.
  { instantiate (1 := fun c r => pass_post c (inr r)).
    eapply (csafe_loop _ mv _ _ _ ready); [done|]. clear c z Hc. intros m2 c z _ Hc.
    eapply (csafe_mono Inv mv); [|by apply outer_pass_ok]. intros c' [z'|r] Hr; [done|].
    intros m' _. apply csafe_ret. intros c'' Hc''.
    destruct r as [a|]; simpl in *; [destruct Hr as (x & -> & ->)|]; phase_eq; eauto. }
  intros m2 c' [a|] _ Hr; simpl in Hr.
  - destruct Hr as (x & -> & ->). apply word_wake_ok.
  - subst c'. apply csafe_ret. intros; by phase_eq.
Qed.

Lemma word_unlock_ok n t : cs n t Held unlock (fun c _ => c = Out).
Proof.
  cs_bind.
  { apply cs_act with (P := fun c z => c = if idle z then Out else Unl).
    intros s g (own & qlo & Q & pd & H) Hg. phase_eq.
    assert (own = Some t) as ->.
    { apply (k_owner _ _ _ _ _ _ _ (i_thread _ _ _ _ _ _ H t)). by rewrite Hg. }
    rewrite (i_word _ _ _ _ _ _ H). simpl. rewrite pack_release by by eapply head_ok.
    pose proof (idle_state _ _ _ _ _ _ H) as Hi. rewrite (i_word _ _ _ _ _ _ H) in Hi. simpl in Hi.
    eapply word_to_phase; [by eapply word_unlock|]. intros c' Hc'. rewrite Hi.
    apply wmv_inv in Hc'; [done|]. by destruct (_ || _). }
  intros m1 ? z _ ->. change (is_queue_locked z || (queue_head z =? 0)) with (idle z).
  destruct (idle z).
  - apply csafe_ret. intros; by phase_eq.
  - apply unlock_slow_ok.
Qed.

Lemma word_client_ok n t k : (t < max_threads)%nat -> cs n t Out (client t k) (fun c _ => c = Out).
Proof.
  intros Ht. revert n. induction k as [|k IH]; intros n; simpl; [apply csafe_ret; intros; by phase_eq|].
  cs_bind; [by apply word_lock_ok|]. intros m1 ? [] _ ->. cs_bind.
  { apply csafe_store with (Q := fun c _ => c = InCS).
    intros s g (own & qlo & Q & pd & H) Hg. phase_eq.
    eapply word_to_phase; [by eapply word_enter|]. intros; by phase_eq. }
  intros m2 ? _ _ ->. cs_bind.
  { apply csafe_store with (Q := fun c _ => c = Held).
    intros s g (own & qlo & Q & pd & H) Hg. phase_eq.
    eapply word_to_phase; [by eapply word_leave|]. intros; by phase_eq. }
  intros m3 ? _ _ ->. cs_bind; [apply word_unlock_ok|]. intros m4 ? _ _ ->. apply IH.
Qed.

(** ** All threads together *)

(** Thread [t] of the pool locks and unlocks [ns !! t] times. *)
Definition word_clients (ns : list nat) : list (prog sys ()) := imap client ns.

Lemma word_inv_init : Inv sys_init (fun _ => Out).
Proof.
  exists None, None, [], ∅. split; simpl; try done; [constructor|..].
  - exists (fun _ => ThreadData_fresh). split; [intros x Hx; set_solver|]. split; [constructor|by left].
  - constructor.
  - intros t. rewrite sleepers_none. lia.
  - intros t Ht. unfold sleeps in Ht. simpl in Ht. by rewrite sleepers_none in Ht.
  - intros t. split; simpl; try done; intros; rewrite ?lookup_empty in *; set_solver.
Qed.

Lemma word_clients_safe ns : (length ns <= max_threads)%nat ->
  pool_safe Inv mv wait (word_clients ns) (fun _ => Out) (fun _ c _ => c = Out).
Proof.
  intros Hl t p Hp n. unfold word_clients in Hp. rewrite list_lookup_imap in Hp.
  destruct (ns !! t) as [k|] eqn:Hk; simplify_eq/=. apply word_client_ok.
  apply lookup_lt_Some in Hk. lia.
Qed.

Lemma word_clients_reach ns evs : (length ns <= max_threads)%nat ->
  match sched evs (word_clients ns) sys_init with
  | POk ts s => exists g, Inv s g /\
      (forall t, ts !! t = None \/ ts !! t = Some (Ret ()) -> g t = Out) /\
      (forall t p e, ts !! t = Some p -> step e p s = Some Block -> wait s g t)
  | PFail _ _ _ => False
  | PBad => True
  end.
Proof.
  intros Hl.
  pose proof (pool_adequate _ _ _ evs _ _ _ _ word_inv_init (word_clients_safe ns Hl)) as H.
  destruct (sched _ _ _) as [ts s| |]; [|done|done].
  destruct H as (g & Hi & Hret & Hout & Hw). exists g. split_and!; [done| |done].
  intros t [Ht|Ht]; [|by eapply Hret]. by apply wmv_inv; [apply Hout|].
Qed.

Lemma word_at_most_one s g : Inv s g -> (length (inside s) <= 1)%nat.
Proof.
  intros (own & qlo & Q & pd & []). destruct (inside s) as [|t [|u r]] eqn:E; simpl; [lia..|].
  assert (Ht : forall v, v ∈ inside s -> own = Some v).
  { intros v Hv. destruct (i_thread v). apply k_owner. apply k_in in Hv. by rewrite Hv. }
  rewrite E in Ht. pose proof (Ht t). pose proof (Ht u). apply NoDup_cons in i_inside as [Hn _].
  exfalso. apply Hn. assert (t = u) as ->; set_solver.
Qed.

(** When every thread is out or sleeps, none sleeps. *)
Lemma word_no_deadlock s g :
  Inv s g -> (forall t, g t = Out \/ wait s g t) -> forall t, g t = Out.
Proof.
  intros (own & qlo & Q & pd & []) Hall.
  assert (Hnw : forall u x, g u <> Wake2 x).
  { intros u x E. destruct (Hall u) as [|Hu]; [congruence|].
    destruct (i_sleep u Hu) as [|[? _]]; congruence. }
  assert (Hcase : forall t, g t = Out \/ g t = Parked true).
  { intros t. destruct (Hall t) as [|Ht]; [auto|]. right.
    destruct (i_sleep t Ht) as [|(_ & u & Hu)]; [done|]. by destruct (Hnw u t). }
  intros t. destruct (Hcase t) as [|Ht]; [done|exfalso].
  destruct (k_parked _ _ _ _ _ _ _ (i_thread t)) as [HQ|Hp]; [by rewrite Ht|..].
  - destruct i_resp as [Ho|[Hq|[u Hu]]]; [intros ->; set_solver|..].
    + destruct own as [u|]; [|done]. destruct (i_thread u) as [[_ Hk] _ _ _ _ _ _ _ _].
      specialize (Hk eq_refl). destruct (Hcase u) as [E|E]; by rewrite E in Hk.
    + destruct qlo as [u|]; [|done]. destruct (i_thread u) as [_ [_ Hk] _ _ _ _ _ _ _].
      specialize (Hk eq_refl). destruct (Hcase u) as [E|E]; by rewrite E in Hk.
    + destruct (Hcase u) as [E|E]; by rewrite E in Hu.
  - destruct (pd !! t) as [u|] eqn:E; [|done]. apply (k_pend _ _ _ _ _ _ _ (i_thread u)) in E.
    destruct (Hcase u) as [E'|E']; by rewrite E' in E.
Qed.

Lemma word_quiescent s g : Inv s g -> (forall t, g t = Out) ->
  state s = WordLock_new /\ inside s = [] /\ forall t, ~ sleeps s t.
Proof.
  intros (own & qlo & Q & pd & []) Hg.
  assert (Hall : forall t, own <> Some t /\ qlo <> Some t /\ (t ∉ Q) /\ (t ∉ inside s)).
  { intros t. destruct (i_thread t). rewrite (Hg t) in *. naive_solver. }
  assert (own = None) as -> by (destruct own as [u|]; [by destruct (Hall u)|done]).
  assert (qlo = None) as -> by (destruct qlo as [u|]; [by destruct (Hall u) as (_ & [] & _)|done]).
  assert (Q = []) as -> by (destruct Q as [|u Q]; [done|destruct (Hall u); set_solver]).
  split_and!; [done| |].
  - destruct (inside s) as [|u r]; [done|destruct (Hall u); set_solver].
  - intros t Ht. destruct (i_sleep t Ht) as [E|[E _]]; by rewrite Hg in E.
Qed.
End Operations.

(** C9. Mutual exclusion of [WordLock]: however the atomic steps of the clients
    interleave, and whenever the kernel wakes a sleeper without cause, no thread
    accesses thread data that is gone, no assertion fails, and at most one thread is
    between [lock] and [unlock]. *)
Theorem word_lock_mutual_exclusion `{KK : Kernel} `{SS : Stacks} (ns : list nat) (evs : list (nat * env)) :
  (length ns <= max_threads)%nat ->
  match sched evs (word_clients ns) sys_init with
  | POk _ s => (length (inside s) <= 1)%nat
  | PFail _ _ _ => False
  | PBad => True
  end.
Proof.
  intros Hl. pose proof (word_clients_reach ns evs Hl) as H. destruct (sched _ _ _); [|done|done].
  destruct H as (g & Hi & _). by eapply word_at_most_one.
Qed.

(** C10. No lost wakeup in [WordLock]: a reachable state in which every thread has
    returned or sleeps is one in which every thread has returned; then the word is
    as it was at the start. *)
Theorem word_lock_deadlock_freedom `{KK : Kernel} `{SS : Stacks} (ns : list nat) (evs : list (nat * env)) ts s :
  (length ns <= max_threads)%nat ->
  sched evs (word_clients ns) sys_init = POk ts s ->
  (forall t p, ts !! t = Some p -> p = Ret () \/ step calm p s = Some Block) ->
  (forall t p, ts !! t = Some p -> p = Ret ()) /\ state s = WordLock_new.
Proof.
  intros Hl Hs Hb. pose proof (word_clients_reach ns evs Hl) as H. rewrite Hs in H.
  destruct H as (g & Hi & Hout & Hw).
  assert (Hg : forall t, g t = Out).
  { apply (word_no_deadlock s g Hi). intros t. destruct (ts !! t) as [p|] eqn:E; [|auto].
    destruct (Hb t p E) as [->|Hbl]; [left; auto|right; by eapply Hw]. }
  destruct (word_quiescent s g Hi Hg) as (Hst & _ & Hsl). split; [|done].
  intros t p Hp. destruct (Hb t p Hp) as [|Hbl]; [done|]. by destruct (Hsl t (Hw _ _ _ Hp Hbl)).
Qed.

(** Two threads: the second spins, joins the queue and sleeps; the first unlocks,
    takes it off the queue and wakes it; the second takes the lock. *)
Definition handover : list (nat * env) := steps 0 3 ++ steps 1 34 ++ steps 0 24 ++ steps 1 11.

Lemma handover_runs :
  sched handover (word_clients [1; 1]%nat) sys_init = POk [Ret (); Ret ()] sys_init.
Proof. vm_compute. reflexivity. Qed.

(** On the way, while the second sleeps, the first is inside. *)
Lemma word_lock_mutual_exclusion_witness :
  match sched (steps 0 3 ++ steps 1 34) (word_clients [1; 1]%nat) sys_init with
  | POk _ s => sleepers (slot 1) (kernel s) = 1%nat /\ inside s = [0%nat] /\
               (length (inside s) <= 1)%nat
  | _ => False
  end.
Proof.
  pose proof (word_lock_mutual_exclusion [1; 1]%nat (steps 0 3 ++ steps 1 34)) as H.
  assert (Hin : match sched (steps 0 3 ++ steps 1 34) (word_clients [1; 1]%nat) sys_init with
    | POk _ s => bool_decide (sleepers (slot 1) (kernel s) = 1%nat) && bool_decide (inside s = [0%nat])
    | _ => false
    end = true) by (vm_compute; reflexivity).
  destruct (sched _ _ _) as [ts s| |]; [|done|done].
  apply andb_true_iff in Hin as [H1%bool_decide_eq_true H2%bool_decide_eq_true].
  split_and!; [done|done|]. apply H. simpl. lia.
Defined.

Lemma word_lock_deadlock_freedom_witness :
  exists s, sched handover (word_clients [1; 1]%nat) sys_init = POk [Ret (); Ret ()] s /\
    state s = WordLock_new.
Proof.
  exists sys_init. split; [exact handover_runs|].
  eapply (word_lock_deadlock_freedom [1; 1]%nat handover [Ret (); Ret ()]).
  - simpl. lia.
  - exact handover_runs.
  - intros [|[|t]] p Hp; [injection Hp as <-; by left|injection Hp as <-; by left|done].
Defined.
