(* ===== verification/CoQueue.v ===== *)
(** * The chunked queue: [lockless_queue.rs] and [cahch_pad.rs]

    A [CoQueue] is a list of chunks of 31 slots.  An index counts positions, 32 to
    a chunk, shifted left by one; the lowest bit of the head index caches that the
    head chunk is not the last one.  Chunks live in a heap; accessing an address
    that is not an allocated chunk, or reading a slot that was never written, is
    undefined behaviour. *)

From S2P Require Import Prelude Machine Timing Arena.

Definition WRITE : Z := 1.
Definition READ : Z := 2.
Definition DESTROY : Z := 4.
Definition LAP : Z := 32.
Definition CHUNK_CAP : Z := LAP - 1.
Definition SHIFT : Z := 1.
Definition HAS_NEXT : Z := 1.

(** The global allocator: a new address is not in use and not null, and there is
    one as long as fewer than [chunk_room] chunks are allocated. *)
Class ChunkAlloc : Type := {
  chunk_malloc : gset Z -> option Z;
  chunk_room : nat;
  chunk_malloc_spec X a : chunk_malloc X = Some a -> (a ∉ X) /\ 0 < a < 2 ^ usize;
  chunk_malloc_room X : (size X < chunk_room)%nat -> exists a, chunk_malloc X = Some a;
}.

(** [value] is [None] in zeroed memory. *)
Record Slot (T : Type) : Type := MkSlot { value : option T; state : Z }.
Arguments MkSlot {T} value state.
Arguments value {T} s.
Arguments state {T} s.

Record Chunk (T : Type) : Type := MkChunk { next : Z; slots : list (Slot T) }.
Arguments MkChunk {T} next slots.
Arguments next {T} c.
Arguments slots {T} c.

(** [mem::zeroed()]. *)
Definition Chunk_new {T} : Chunk T := MkChunk 0 (replicate 31 (MkSlot None 0)).

(** [CachePad<T>] only changes the layout. *)
Record CachePad (T : Type) : Type := MkCachePad { pad_value : T }.
Arguments MkCachePad {T} pad_value.
Arguments pad_value {T} c.
Definition CachePad_new {T} (t : T) : CachePad T := MkCachePad t.
Definition CachePad_from {T} (t : T) : CachePad T := CachePad_new t.
Definition CachePad_into_inner {T} (c : CachePad T) : T := pad_value c.
Definition CachePad_deref {T} (c : CachePad T) : T := pad_value c.
#[global] Arguments CachePad_deref {T} c /.

Record Segment : Type := MkSegment { index : Z; chunk : Z }.

(** [CoQueue], with the heap its pointers point into and the values that were
    dropped in place, latest first. *)
Record CoQueue (T : Type) : Type := MkCoQueue {
  head : CachePad Segment;
  tail : CachePad Segment;
  heap : gmap Z (Chunk T);
  dropped : list T;
}.
Arguments MkCoQueue {T} head tail heap dropped.
Arguments head {T} c.
Arguments tail {T} c.
Arguments heap {T} c.
Arguments dropped {T} c.

Definition CoQueue_new {T} : CoQueue T :=
  MkCoQueue (CachePad_new (MkSegment 0 0)) (CachePad_new (MkSegment 0 0)) ∅ [].
Definition CoQueue_default {T} : CoQueue T := CoQueue_new.

Section Fields.
Context {T : Type}.
Implicit Types q : CoQueue T.

Definition head_index q : Z := index (CachePad_deref (head q)).
Definition head_chunk q : Z := chunk (CachePad_deref (head q)).
Definition tail_index q : Z := index (CachePad_deref (tail q)).
Definition tail_chunk q : Z := chunk (CachePad_deref (tail q)).

Definition set_head_index (x : Z) q : CoQueue T :=
  MkCoQueue (MkCachePad (MkSegment x (head_chunk q))) (tail q) (heap q) (dropped q).
Definition set_head_chunk (x : Z) q : CoQueue T :=
  MkCoQueue (MkCachePad (MkSegment (head_index q) x)) (tail q) (heap q) (dropped q).
Definition set_tail_index (x : Z) q : CoQueue T :=
  MkCoQueue (head q) (MkCachePad (MkSegment x (tail_chunk q))) (heap q) (dropped q).
Definition set_tail_chunk (x : Z) q : CoQueue T :=
  MkCoQueue (head q) (MkCachePad (MkSegment (tail_index q) x)) (heap q) (dropped q).
Definition set_heap (h : gmap Z (Chunk T)) q : CoQueue T :=
  MkCoQueue (head q) (tail q) h (dropped q).
Definition add_dropped (v : T) q : CoQueue T :=
  MkCoQueue (head q) (tail q) (heap q) (v :: dropped q).
End Fields.

Section Code.
Context `{ChunkAlloc} {T : Type}.
Abbreviation Q := (CoQueue T).

(** *** Memory *)

(** [Box::into_raw(Box::new(c))]. *)
Definition box_new (c : Chunk T) : prog Q Z :=
  act (fun q : Q => match chunk_malloc (dom (heap q)) with
                    | Some a => Ok (a, set_heap (<[a := c]> (heap q)) q)
                    | None => Fail Abort
                    end).

(** [drop(Box::from_raw(p))]; the values are [ManuallyDrop]. *)
Definition box_drop (p : Z) : prog Q () :=
  act (fun q : Q => match heap q !! p with
                    | Some _ => Ok ((), set_heap (delete p (heap q)) q)
                    | None => Fail UB
                    end).

(** The drop of an [Option<Box<Chunk<T>>>]. *)
Definition drop_box_option (b : option Z) : prog Q () :=
  match b with Some p => box_drop p | None => Ret () end.

(** An atomic access to the chunk [p] points to. *)
Definition chunk_act {X} (p : Z) (f : Chunk T -> res (X * Chunk T)) : prog Q X :=
  act (fun q : Q => match heap q !! p with
                    | Some c => match f c with
                                | Ok (x, c') => Ok (x, set_heap (<[p := c']> (heap q)) q)
                                | Block => Block
                                | Fail e => Fail e
                                end
                    | None => Fail UB
                    end).

Definition next_load (p : Z) : prog Q Z := chunk_act p (fun c => Ok (next c, c)).
Definition next_store (p x : Z) : prog Q () :=
  chunk_act p (fun c => Ok ((), MkChunk x (slots c))).

(** An atomic access to [slots.get_unchecked(i)] of the chunk [p] points to. *)
Definition slot_act {X} (p i : Z) (f : Slot T -> res (X * Slot T)) : prog Q X :=
  chunk_act p (fun c => match slots c !! Z.to_nat i with
                        | Some s => match f s with
                                    | Ok (x, s') => Ok (x, MkChunk (next c) (<[Z.to_nat i := s']> (slots c)))
                                    | Block => Block
                                    | Fail e => Fail e
                                    end
                        | None => Fail UB
                        end).

Definition state_load (p i : Z) : prog Q Z := slot_act p i (fun s => Ok (state s, s)).
Definition state_fetch_or (p i m : Z) : prog Q Z :=
  slot_act p i (fun s => Ok (state s, MkSlot (value s) (Z.lor (state s) m))).
Definition value_write (p i : Z) (v : T) : prog Q () :=
  slot_act p i (fun s => Ok ((), MkSlot (Some v) (state s))).
Definition value_read (p i : Z) : prog Q T :=
  slot_act p i (fun s => match value s with Some v => Ok (v, s) | None => Fail UB end).

Definition load_head_index : prog Q Z := load head_index.
Definition load_head_chunk : prog Q Z := load head_chunk.
Definition load_tail_index : prog Q Z := load tail_index.
Definition load_tail_chunk : prog Q Z := load tail_chunk.

(** *** [Slot::wait_write], [Chunk::wait_next], [Chunk::destroy] *)

Definition wait_write (p i : Z) : prog Q () :=
  loop (fun b =>
    let! s := state_load p i in
    if Z.land s WRITE =? 0 then Ret (inl (Backoff.nap b).1) else Ret (inr ())) Backoff.new.

Definition wait_next (p : Z) : prog Q Z :=
  loop (fun b =>
    let! n := next_load p in
    if negb (n =? 0) then Ret (inr n) else Ret (inl (Backoff.nap b).1)) Backoff.new.

Definition destroy (this start : Z) : prog Q () :=
  loop (fun i =>
    if i <? CHUNK_CAP then
      let! s := state_load this i in
      if Z.land s READ =? 0 then
        let! s' := state_fetch_or this i DESTROY in
        if Z.land s' READ =? 0 then Ret (inr ()) else Ret (inl (i + 1))
      else Ret (inl (i + 1))
    else box_drop this ;; Ret (inr ())) start.

(** *** [CoQueue::push] *)

(** [self.tail.chunk.compare_and_swap(cur, new)]: the previous value. *)
Definition cas_tail_chunk (cur new : Z) : prog Q Z :=
  act (fun q : Q => Ok (tail_chunk q, if tail_chunk q =? cur then set_tail_chunk new q else q)).

(** What follows the successful move of the tail from [offset] in [chunk]. *)
Definition push_finish (chunk offset new_tail : Z) (next_chunk : option Z) (item : T)
    : prog Q () :=
  let! unused :=
    (if offset + 1 =? CHUNK_CAP then
       match next_chunk with
       | None => fail Panic
       | Some nc =>
           let next_idx := wrap usize (new_tail + Z.shiftl 1 SHIFT) in
           store (set_tail_chunk nc) ;;
           store (set_tail_index next_idx) ;;
           next_store chunk nc ;;
           Ret None
       end
     else Ret next_chunk) in
  value_write chunk offset item ;;
  let! _ := state_fetch_or chunk offset WRITE in
  drop_box_option unused.

Definition CoQueue_push (item : T) : prog Q () :=
  let! tail := load_tail_index in
  let! chunk := load_tail_chunk in
  loop (fun '(b, tail, chunk, next_chunk) =>
    let offset := Z.shiftr tail SHIFT mod LAP in
    if offset =? CHUNK_CAP then
      let b := (Backoff.nap b).1 in
      let! tail := load_tail_index in
      let! chunk := load_tail_chunk in
      Ret (inl (b, tail, chunk, next_chunk))
    else
      let! next_chunk :=
        (if (offset + 1 =? CHUNK_CAP) && negb (is_some next_chunk)
         then let! p := box_new Chunk_new in Ret (Some p)
         else Ret next_chunk) in
      let! r :=
        (if chunk =? 0 then
           let! new := box_new Chunk_new in
           let! old := cas_tail_chunk chunk new in
           if old =? chunk then
             store (set_head_chunk new) ;; Ret (inr new)
           else
             drop_box_option next_chunk ;;
             let! tail := load_tail_index in
             let! chunk := load_tail_chunk in
             Ret (inl (b, tail, chunk, Some new))
         else Ret (inr chunk)) in
      match r with
      | inl again => Ret (inl again)
      | inr chunk =>
          let! new_tail := uadd tail (Z.shiftl 1 SHIFT) in
          let! c := compare_exchange_weak tail_index set_tail_index tail new_tail in
          match c with
          | inl _ => push_finish chunk offset new_tail next_chunk item ;; Ret (inr ())
          | inr t =>
              let! chunk := load_tail_chunk in
              Ret (inl ((Backoff.spin b).1, t, chunk, next_chunk))
          end
      end) (Backoff.new, tail, chunk, None).

(** *** [CoQueue::pop] *)

(** What follows the successful move of the head from [offset] in [chunk]. *)
Definition pop_finish (chunk offset new_head : Z) : prog Q T :=
  (if offset + 1 =? CHUNK_CAP then
     let! next := wait_next chunk in
     let next_idx := wrap usize (Z.land new_head (unot usize HAS_NEXT) + Z.shiftl 1 SHIFT) in
     let! nn := next_load next in
     let next_idx := if negb (nn =? 0) then Z.lor next_idx HAS_NEXT else next_idx in
     store (set_head_chunk next) ;;
     store (set_head_index next_idx)
   else Ret ()) ;;
  wait_write chunk offset ;;
  let! item := value_read chunk offset in
  (if offset + 1 =? CHUNK_CAP then destroy chunk 0
   else
     let! s := state_fetch_or chunk offset READ in
     if negb (Z.land s DESTROY =? 0) then destroy chunk (offset + 1) else Ret ()) ;;
  Ret item.

(** The test of [pop] for an empty queue: [None] when it is empty, else the new
    head index. *)
Definition pop_check (head new_head : Z) : prog Q (option Z) :=
  if Z.land new_head HAS_NEXT =? 0 then
    let! tail := load_tail_index in
    if Z.shiftr head SHIFT =? Z.shiftr tail SHIFT then Ret None
    else Ret (Some (if negb (Z.shiftr head SHIFT / LAP =? Z.shiftr tail SHIFT / LAP)
                    then Z.lor new_head HAS_NEXT else new_head))
  else Ret (Some new_head).

(** [None] is [Err(())]. *)
Definition CoQueue_pop : prog Q (option T) :=
  let! head := load_head_index in
  let! chunk := load_head_chunk in
  loop (fun '(b, head, chunk) =>
    let offset := Z.shiftr head SHIFT mod LAP in
    if offset =? CHUNK_CAP then
      let b := (Backoff.nap b).1 in
      let! head := load_head_index in
      let! chunk := load_head_chunk in
      Ret (inl (b, head, chunk))
    else
      let! new_head := uadd head (Z.shiftl 1 SHIFT) in
      let! r := pop_check head new_head in
      match r with
      | None => Ret (inr None)
      | Some new_head =>
          if chunk =? 0 then
            let b := (Backoff.nap b).1 in
            let! head := load_head_index in
            let! chunk := load_head_chunk in
            Ret (inl (b, head, chunk))
          else
            let! c := compare_exchange_weak head_index set_head_index head new_head in
            match c with
            | inl _ => let! item := pop_finish chunk offset new_head in Ret (inr (Some item))
            | inr h =>
                let! chunk := load_head_chunk in
                Ret (inl ((Backoff.spin b).1, h, chunk))
            end
      end) (Backoff.new, head, chunk).

(** *** [is_empty], [len] and [drop] *)

Definition CoQueue_is_empty : prog Q bool :=
  let! head := load_head_index in
  let! tail := load_tail_index in
  Ret (Z.shiftr head SHIFT =? Z.shiftr tail SHIFT).

(** The low bits erased by [len] and [drop]: [!((1 << SHIFT) - 1)]. *)
Definition index_mask : Z := unot usize (Z.shiftl 1 SHIFT - 1).

(** The arithmetic of [len] on consistent indices. *)
Definition len_of (tail head : Z) : prog Q Z :=
  let tail := Z.land tail index_mask in
  let head := Z.land head index_mask in
  let lap := Z.shiftr head SHIFT / LAP in
  let tail := wrap usize (tail - Z.shiftl (lap * LAP) SHIFT) in
  let head := wrap usize (head - Z.shiftl (lap * LAP) SHIFT) in
  let tail := Z.shiftr tail SHIFT in
  let head := Z.shiftr head SHIFT in
  let! ht :=
    (if head =? CHUNK_CAP then let! tail := usub tail LAP in Ret (0, tail)
     else Ret (head, tail)) in
  let '(head, tail) := ht in
  let! tail := (if tail =? CHUNK_CAP then uadd tail 1 else Ret tail) in
  let! d := usub tail head in
  usub d (tail / LAP).

Definition CoQueue_len : prog Q Z :=
  forever (
    let! tail := load_tail_index in
    let! head := load_head_index in
    let! tail' := load_tail_index in
    if tail' =? tail then let! n := len_of tail head in Ret (Some n) else Ret None).

(** [ManuallyDrop::drop] of the value of a slot. *)
Definition value_drop (p i : Z) : prog Q () :=
  let! v := value_read p i in store (add_dropped v).

Definition CoQueue_drop : prog Q () :=
  let! head := load_head_index in
  let! tail := load_tail_index in
  let! chunk := load_head_chunk in
  let head := Z.land head index_mask in
  let tail := Z.land tail index_mask in
  let! chunk := loop (fun '(head, chunk) =>
    if negb (head =? tail) then
      let offset := Z.shiftr head SHIFT mod LAP in
      let! chunk :=
        (if offset <? CHUNK_CAP then value_drop chunk offset ;; Ret chunk
         else let! next := next_load chunk in box_drop chunk ;; Ret next) in
      Ret (inl (wrap usize (head + Z.shiftl 1 SHIFT), chunk))
    else Ret (inr chunk)) (head, chunk) in
  if negb (chunk =? 0) then box_drop chunk else Ret ().
End Code.

#[export, refine] Instance arena_chunks : ChunkAlloc :=
  {| chunk_malloc := arena_malloc; chunk_room := 64 |}.
Proof.
  - intros X a Ha. by destruct (arena_malloc_spec X a Ha) as (? & ? & ?).
  - apply arena_malloc_room.
Defined.
