(* ===== verification/CoQueueSpec.v ===== *)
(** * What the operations of the chunked queue do

    [rep q H vals cs]: the queue [q] was given the values [vals] so far, the first
    [H] of them were taken out again, and the chunks that hold the others are [cs].
    Value number [i] is in slot [i mod 31] of chunk number [i / 31]. *)

From Stdlib Require Import ZifyNat.
From S2P Require Import Prelude Machine Timing Arena CoQueue.

#[local] Ltac Zify.zify_post_hook ::= Z.to_euclidean_division_equations.

#[local] Arguments Nat.div : simpl never.
#[local] Arguments Nat.modulo : simpl never.

(** ** Positions *)

(** The position of value number [i]; position 31 of every lap is skipped. *)
Definition pos (i : nat) : Z := Z.of_nat (i / 31 * 32 + i mod 31).

Lemma pos_offset i : pos i mod LAP = Z.of_nat (i mod 31).
Proof. unfold pos, LAP. lia. Qed.

Lemma pos_lap i : pos i / LAP = Z.of_nat (i / 31).
Proof. unfold pos, LAP. lia. Qed.

Lemma pos_inj i j : pos i = pos j -> i = j.
Proof. unfold pos. lia. Qed.

Lemma pos_bound i : 0 <= pos i <= 2 * Z.of_nat i.
Proof. unfold pos. lia. Qed.

Lemma pos_next i : (i mod 31 <> 30)%nat -> pos (S i) = pos i + 1.
Proof. unfold pos. lia. Qed.

Lemma pos_next_lap i : (i mod 31 = 30)%nat -> pos (S i) = pos i + 2.
Proof. unfold pos. lia. Qed.

Lemma index_shift x b : 0 <= b < 2 -> Z.shiftr (2 * x + b) SHIFT = x.
Proof. intros. unfold SHIFT. rewrite Z.shiftr_div_pow2 by lia. lia. Qed.

Lemma index_shift0 x : Z.shiftr (2 * x) SHIFT = x.
Proof. rewrite <- (index_shift x 0) at 2 by lia. f_equal. lia. Qed.

Lemma index_bit x b : 0 <= b < 2 -> Z.land (2 * x + b) HAS_NEXT = b.
Proof.
  intros. change HAS_NEXT with (Z.ones 1). rewrite Z.land_ones by lia. lia.
Qed.

Lemma index_set x b : 0 <= b < 2 -> Z.lor (2 * x + b) HAS_NEXT = 2 * x + 1.
Proof.
  intros Hb. apply Z.bits_inj'. intros n Hn. rewrite Z.lor_spec.
  destruct (Z.eq_dec n 0) as [->|].
  - rewrite (Z.testbit_odd_0 x), orb_true_r. done.
  - replace n with (Z.succ (Z.pred n)) by lia. unfold HAS_NEXT.
    rewrite Z.testbit_odd_succ by lia.
    assert (b = 0 \/ b = 1) as [->| ->] by lia;
      rewrite ?Z.add_0_r, ?Z.testbit_even_succ, ?Z.testbit_odd_succ by lia;
      change 1 with (2 * 0 + 1) at 1; rewrite Z.testbit_odd_succ, Z.testbit_0_l by lia;
      by rewrite orb_false_r.
Qed.

Lemma index_clear x b : 0 <= b < 2 -> in_width usize (2 * x + b) ->
  Z.land (2 * x + b) index_mask = 2 * x.
Proof.
  intros Hb Hw. unfold index_mask. rewrite land_unot_ldiff by (done || unfold usize; lia).
  change (Z.shiftl 1 SHIFT - 1) with (Z.ones 1). rewrite Z.ldiff_ones_r by lia.
  rewrite Z.shiftr_div_pow2, Z.shiftl_mul_pow2 by lia. lia.
Qed.

(** ** Representation *)

Section Rep.
Context `{ChunkAlloc} {T : Type}.
Implicit Types (q : CoQueue T) (vals : list T) (cs : list Z).

(** Slot number [i] when [vals] were pushed and the first [h] popped. *)
Definition slot_at vals (h i : nat) : Slot T :=
  MkSlot (vals !! i) (if decide (i < h)%nat then Z.lor WRITE READ
                      else if decide (i < length vals)%nat then WRITE else 0).

Definition chunk_of vals (h k : nat) (nxt : Z) : Chunk T :=
  MkChunk nxt (slot_at vals h <$> seq (31 * k) 31).

Lemma chunk_of_ext vals vals' h h' k nxt :
  (forall i, (31 * k <= i < 31 * k + 31)%nat -> slot_at vals h i = slot_at vals' h' i) ->
  chunk_of vals h k nxt = chunk_of vals' h' k nxt.
Proof.
  intros Hext. unfold chunk_of. f_equal. apply list_fmap_ext. intros j i Hi.
  apply list_elem_of_lookup_2, elem_of_seq in Hi. by apply Hext.
Qed.

Lemma chunk_of_slot vals h i nxt :
  slots (chunk_of vals h (i / 31) nxt) !! (i mod 31)%nat = Some (slot_at vals h i).
Proof.
  unfold chunk_of. cbn [slots]. rewrite list_lookup_fmap, lookup_seq_lt by lia.
  cbn [fmap option_fmap option_map]. do 2 f_equal. lia.
Qed.

(** Writing slot [i]. *)
Lemma chunk_of_insert vals vals' h h' i nxt :
  (forall j, j <> i -> slot_at vals h j = slot_at vals' h' j) ->
  MkChunk nxt (<[(i mod 31)%nat := slot_at vals' h' i]> (slots (chunk_of vals h (i / 31) nxt))) =
  chunk_of vals' h' (i / 31) nxt.
Proof.
  intros Hext. unfold chunk_of. cbn [slots]. f_equal. apply list_eq. intros j.
  destruct (decide (j = i mod 31)%nat) as [->|Hne].
  - rewrite list_lookup_insert_eq, list_lookup_fmap, lookup_seq_lt
      by (rewrite ?length_fmap, ?length_seq; lia).
    cbn [fmap option_fmap option_map]. do 2 f_equal. lia.
  - rewrite list_lookup_insert_ne, !list_lookup_fmap by done.
    destruct (seq _ 31 !! j) as [x|] eqn:E; [|done].
    cbn [fmap option_fmap option_map]. f_equal. apply Hext.
    apply lookup_seq in E as [-> ?]. lia.
Qed.

(** [x] is the number of chunks allocated for the next lap and not yet linked. *)
Record repx (x : nat) q (h : nat) vals cs : Prop := {
  r_le : (h <= length vals)%nat;
  r_head : exists b, head_index q = 2 * pos h + b /\
    (b = 0 \/ b = 1 /\ (h / 31 < length vals / 31)%nat);
  r_tail : tail_index q = 2 * pos (length vals);
  r_first : head_chunk q = default 0 (cs !! 0%nat);
  r_last : tail_chunk q = default 0 (last cs);
  r_empty : cs = [] -> vals = [];
  r_length : cs <> [] -> length cs = (length vals / 31 - h / 31 + 1)%nat;
  r_nodup : NoDup cs;
  r_heap j a : cs !! j = Some a ->
    a <> 0 /\ heap q !! a = Some (chunk_of vals h (h / 31 + j) (default 0 (cs !! S j)));
  r_dropped : dropped q = [];
  r_size : size (heap q) = (x + if decide (cs = []) then 0 else length vals / 31 + 1)%nat;
}.
Abbreviation rep := (repx 0).

(** *** Rules for accesses to chunks *)

Lemma twp_chunk_act {X} n p (f : Chunk T -> res (X * Chunk T)) q c x c' Q :
  heap q !! p = Some c -> f c = Ok (x, c') -> Q n x (set_heap (<[p := c']> (heap q)) q) ->
  twp n (chunk_act p f) q Q.
Proof. intros Hp Hf HQ. eapply twp_act'; [|done]. simpl. by rewrite Hp, Hf. Qed.

Lemma co_set_heap_id q : set_heap (heap q) q = q.
Proof. by destruct q. Qed.

Lemma twp_next_load n p q c (Q : nat -> Z -> CoQueue T -> Prop) :
  heap q !! p = Some c -> Q n (next c) q -> twp n (next_load p) q Q.
Proof.
  intros Hp HQ. eapply twp_chunk_act; [done..|]. by rewrite insert_id, co_set_heap_id.
Qed.

(** An access to slot [i mod 31] of the chunk of [i]. *)
Lemma twp_slot_act {X} n p i (f : Slot T -> res (X * Slot T)) q c sl x sl' Q :
  heap q !! p = Some c -> slots c !! Z.to_nat i = Some sl -> f sl = Ok (x, sl') ->
  Q n x (set_heap (<[p := MkChunk (next c) (<[Z.to_nat i := sl']> (slots c))]> (heap q)) q) ->
  twp n (slot_act p i f) q Q.
Proof. intros Hp Hi Hf HQ. eapply twp_chunk_act; [done|simpl; by rewrite Hi, Hf|done]. Qed.

(** A read of a slot. *)
Lemma twp_slot_read {X} n p i (f : Slot T -> res (X * Slot T)) q c sl x Q :
  heap q !! p = Some c -> slots c !! Z.to_nat i = Some sl -> f sl = Ok (x, sl) ->
  Q n x q -> twp n (slot_act p i f) q Q.
Proof.
  intros Hp Hi Hf HQ. eapply twp_slot_act; [done..|].
  rewrite list_insert_id by done. destruct c. by rewrite insert_id, co_set_heap_id.
Qed.

Lemma twp_box_new n c q (Q : nat -> Z -> CoQueue T -> Prop) :
  (size (heap q) < chunk_room)%nat ->
  (forall a, heap q !! a = None -> a <> 0 -> Q n a (set_heap (<[a := c]> (heap q)) q)) ->
  twp n (box_new c) q Q.
Proof.
  intros Hs HQ. destruct (chunk_malloc_room (dom (heap q))) as [a Ha]; [by rewrite size_dom|].
  destruct (chunk_malloc_spec _ _ Ha) as [Hn Hr].
  eapply twp_act'; [simpl; by rewrite Ha|]. apply HQ; [by apply not_elem_of_dom|lia].
Qed.

(** *** Push *)

Lemma slot_at_push vals v h j :
  j <> length vals -> slot_at vals h j = slot_at (vals ++ [v]) h j.
Proof.
  intros Hj. unfold slot_at. rewrite length_app. simpl. f_equal.
  - destruct (decide (j < length vals)%nat); [by rewrite lookup_app_l|].
    rewrite !lookup_ge_None_2; [done|rewrite length_app; simpl; lia|lia].
  - repeat case_decide; done || lia.
Qed.

Lemma slot_at_new vals v h : (h <= length vals)%nat ->
  slot_at (vals ++ [v]) h (length vals) = MkSlot (Some v) WRITE.
Proof.
  intros Hh. unfold slot_at. rewrite lookup_snoc_last, length_app. simpl.
  by rewrite decide_False, decide_True by lia.
Qed.

Lemma slot_at_free vals h i : (h <= length vals <= i)%nat -> slot_at vals h i = MkSlot None 0.
Proof.
  intros Hi. unfold slot_at. rewrite lookup_ge_None_2 by lia.
  by rewrite !decide_False by lia.
Qed.

Lemma chunk_of_fresh vals h k : (h <= length vals <= 31 * k)%nat -> chunk_of vals h k 0 = Chunk_new.
Proof.
  intros Hk. unfold chunk_of, Chunk_new. f_equal. apply list_eq. intros j.
  rewrite list_lookup_fmap. destruct (decide (j < 31)%nat).
  - rewrite lookup_seq_lt, lookup_replicate_2 by lia. simpl. f_equal. apply slot_at_free. lia.
  - rewrite !lookup_ge_None_2; [done|rewrite length_replicate; lia|rewrite length_seq; lia].
Qed.

Lemma rep_last x q h vals cs a : repx x q h vals cs -> last cs = Some a ->
  cs <> [] /\ cs !! (length vals / 31 - h / 31)%nat = Some a /\ a <> 0 /\
  heap q !! a = Some (chunk_of vals h (length vals / 31) 0).
Proof.
  intros Hr Ha. assert (Hne : cs <> []) by by intros ->.
  assert (Hl : cs !! (length vals / 31 - h / 31)%nat = Some a).
  { rewrite last_lookup, (r_length _ _ _ _ _ Hr Hne) in Ha. rewrite <- Ha. f_equal. lia. }
  destruct (r_heap _ _ _ _ _ Hr _ _ Hl) as [Ha0 Hh]. split_and!; [done..|].
  pose proof (r_le _ _ _ _ _ Hr).
  rewrite Hh. rewrite (lookup_ge_None_2 cs) by (rewrite (r_length _ _ _ _ _ Hr Hne); lia).
  do 3 f_equal. pose proof (Nat.Div0.div_le_mono h (length vals) 31). lia.
Qed.

Lemma last_lookup_unique cs a j : NoDup cs -> last cs = Some a -> cs !! j = Some a ->
  j = (length cs - 1)%nat.
Proof.
  intros Hnd Hl Hj. rewrite last_lookup in Hl.
  replace (length cs - 1)%nat with (pred (length cs)) by lia. by eapply NoDup_lookup.
Qed.

(** The writes to the slot of the new value. *)
Lemma twp_push_write n q a vals h v nxt (Q : nat -> () -> CoQueue T -> Prop) :
  (h <= length vals)%nat ->
  heap q !! a = Some (chunk_of vals h (length vals / 31) nxt) ->
  Q n () (set_heap (<[a := chunk_of (vals ++ [v]) h (length vals / 31) nxt]> (heap q)) q) ->
  twp n (value_write a (Z.of_nat (length vals mod 31)) v) q (fun m _ q' =>
    twp m (let! _ := state_fetch_or a (Z.of_nat (length vals mod 31)) WRITE in Ret ()) q' Q).
Proof.
  intros Hh Ha HQ. pose proof (chunk_of_slot vals h (length vals) nxt) as Hs.
  rewrite slot_at_free in Hs by lia.
  eapply twp_slot_act; [done|by rewrite Nat2Z.id|done|]. cbn [heap set_heap].
  apply twp_bind. eapply twp_slot_act; [by apply lookup_insert_eq| |done|].
  { cbn [slots]. rewrite Nat2Z.id. apply list_lookup_insert_eq.
    by apply lookup_lt_Some in Hs. }
  apply twp_ret. cbn [heap set_heap slots next value state].
  rewrite insert_insert_eq, list_insert_insert_eq, Nat2Z.id.
  cbn [state value]. change (Z.lor 0 WRITE) with WRITE.
  rewrite <- (slot_at_new vals v h Hh) at 1.
  change (next (chunk_of vals h (length vals / 31) nxt)) with nxt.
  rewrite chunk_of_insert; [done|]. intros j Hj. by apply slot_at_push.
Qed.

(** A chunk other than that of the new value does not change. *)
Lemma chunk_of_push vals v h k nxt : k <> (length vals / 31)%nat ->
  chunk_of vals h k nxt = chunk_of (vals ++ [v]) h k nxt.
Proof. intros Hk. apply chunk_of_ext. intros i Hi. apply slot_at_push. lia. Qed.

(** The state after a push that stays in the chunk [a]. *)
Lemma rep_push_same q q' h vals cs a v :
  rep q h vals cs -> last cs = Some a -> (length vals mod 31 <> 30)%nat ->
  head q' = head q -> tail_chunk q' = tail_chunk q ->
  tail_index q' = 2 * pos (length vals) + 2 ->
  heap q' = <[a := chunk_of (vals ++ [v]) h (length vals / 31) 0]> (heap q) ->
  dropped q' = dropped q ->
  rep q' h (vals ++ [v]) cs.
Proof.
  intros Hr Ha Hm Hhd Htc Hti Hhp Hdr. destruct (rep_last _ _ _ _ _ _ Hr Ha) as (Hne & Hj & Ha0 & Hc).
  pose proof (r_length _ _ _ _ _ Hr Hne) as Hlen. pose proof (r_nodup _ _ _ _ _ Hr) as Hnd.
  pose proof (Nat.Div0.div_le_mono h (length vals) 31 (r_le _ _ _ _ _ Hr)).
  assert (Hhi : head_index q' = head_index q) by (unfold head_index; by rewrite Hhd).
  assert (Hhc : head_chunk q' = head_chunk q) by (unfold head_chunk; by rewrite Hhd).
  destruct Hr.
  assert (Hl : length (vals ++ [v]) = S (length vals)) by (rewrite length_app; simpl; lia).
  assert (Hd : (S (length vals) / 31 = length vals / 31)%nat) by lia.
  split; rewrite ?Hl, ?Hd, ?Hhi, ?Hhc, ?Htc, ?Hdr; try done; [lia|..].
  - rewrite Hti, pos_next by done. lia.
  - intros j b Hb. destruct (r_heap0 j b Hb) as [Hb0 Hbc]. split; [done|]. rewrite Hhp.
    destruct (decide (a = b)) as [<-|Hab].
    + rewrite lookup_insert_eq. apply (last_lookup_unique _ _ _ Hnd Ha) in Hb as ->.
      rewrite (lookup_ge_None_2 cs) by lia. do 2 f_equal. lia.
    + rewrite lookup_insert_ne, Hbc by done. f_equal. apply chunk_of_push.
      intros Heq. apply Hab. rewrite <- Heq in Hj.
      replace (h / 31 + j - h / 31)%nat with j in Hj by lia. congruence.
  - rewrite Hhp, map_size_insert_Some by (by exists (chunk_of vals h (length vals / 31) 0)).
    done.
Qed.

(** The state after a push that fills the chunk [a] and links the chunk [nc]. *)
Lemma rep_push_lap q q' h vals cs a nc v :
  repx 1 q h vals cs -> last cs = Some a -> (length vals mod 31 = 30)%nat ->
  heap q !! nc = Some Chunk_new -> nc ∉ cs -> nc <> 0 ->
  head q' = head q -> tail_chunk q' = nc -> tail_index q' = 2 * pos (length vals) + 4 ->
  heap q' = <[a := chunk_of (vals ++ [v]) h (length vals / 31) nc]> (heap q) ->
  dropped q' = dropped q ->
  rep q' h (vals ++ [v]) (cs ++ [nc]).
Proof.
  intros Hr Ha Hm Hnc Hni Hn0 Hhd Htc Hti Hhp Hdr.
  destruct (rep_last _ _ _ _ _ _ Hr Ha) as (Hne & Hj & Ha0 & Hc).
  pose proof (r_length _ _ _ _ _ Hr Hne) as Hlen. pose proof (r_nodup _ _ _ _ _ Hr) as Hnd.
  pose proof (r_le _ _ _ _ _ Hr) as Hle.
  pose proof (Nat.Div0.div_le_mono h (length vals) 31 Hle).
  assert (Hl : length (vals ++ [v]) = S (length vals)) by (rewrite length_app; simpl; lia).
  assert (Hd : (S (length vals) / 31 = S (length vals / 31))%nat) by lia.
  assert (Hanc : a <> nc).
  { intros ->. apply Hni. by apply list_elem_of_lookup_2 in Hj. }
  assert (Hhi : head_index q' = head_index q) by (unfold head_index; by rewrite Hhd).
  assert (Hhc : head_chunk q' = head_chunk q) by (unfold head_chunk; by rewrite Hhd).
  destruct Hr.
  split; rewrite ?Hl, ?Hd, ?Hhi, ?Hhc, ?Htc, ?Hdr; [lia|..].
  - destruct r_head0 as (b & Hb & Hb'). exists b. split; [done|]. destruct Hb' as [Hb'|[Hb' Hlap]]; [by left|right].
    split; [done|]. by apply Nat.lt_lt_succ_r.
  - rewrite Hti, pos_next_lap by done. lia.
  - rewrite r_first0. by destruct cs.
  - by rewrite last_snoc.
  - by destruct cs.
  - intros _. rewrite length_app. simpl. lia.
  - apply NoDup_app. split_and!; [done|set_solver|apply NoDup_singleton].
  - intros j b Hb. rewrite Hhp. apply lookup_app_Some in Hb as [Hb|[Hge Hb]].
    + destruct (r_heap0 j b Hb) as [Hb0 Hbc]. split; [done|].
      pose proof (lookup_lt_Some _ _ _ Hb) as Hlt.
      destruct (decide (a = b)) as [<-|Hab].
      * rewrite lookup_insert_eq. apply (last_lookup_unique _ _ _ Hnd Ha) in Hb as ->.
        replace (S (length cs - 1)) with (length cs) by lia.
        rewrite lookup_snoc_last. simpl. do 2 f_equal. lia.
      * assert (Hjl : (S j < length cs)%nat).
        { destruct (decide (j = length cs - 1)%nat) as [->|]; [|lia]. exfalso. apply Hab.
          rewrite last_lookup in Ha. replace (pred (length cs)) with (length cs - 1)%nat in Ha by lia.
          congruence. }
        rewrite lookup_insert_ne, Hbc, lookup_app_l by done. f_equal. apply chunk_of_push. lia.
    + apply list_lookup_singleton_Some in Hb as [Hj0 <-]. split; [done|].
      rewrite lookup_insert_ne, Hnc by done. f_equal.
      rewrite (lookup_ge_None_2 (cs ++ [nc])) by (rewrite length_app; simpl; lia).
      symmetry. apply chunk_of_fresh. rewrite Hl. lia.
  - done.
  - rewrite Hhp, map_size_insert_Some by (by exists (chunk_of vals h (length vals / 31) 0)).
    rewrite r_size0. rewrite !decide_False by (done || by destruct cs). lia.
Qed.

(** The chunk that [push] has allocated for the next lap, if any. *)
Definition spare (nx : option Z) (x : nat) q cs : Prop :=
  match nx with
  | None => x = 0%nat
  | Some p => x = 1%nat /\ heap q !! p = Some Chunk_new /\ (p ∉ cs) /\ p <> 0
  end.

Lemma rep_alloc q h vals cs a : rep q h vals cs -> heap q !! a = None -> a <> 0 ->
  repx 1 (set_heap (<[a := Chunk_new]> (heap q)) q) h vals cs /\
  spare (Some a) 1 (set_heap (<[a := Chunk_new]> (heap q)) q) cs.
Proof.
  intros Hr Ha Ha0.
  assert (Hni : a ∉ cs).
  { intros Hin. apply list_elem_of_lookup_1 in Hin as [j Hj].
    destruct (r_heap _ _ _ _ _ Hr _ _ Hj) as [_ Hh]. congruence. }
  split; [|split_and!; try done; cbn [heap set_heap]; by rewrite lookup_insert_eq].
  destruct Hr. split; try done; cbn [heap set_heap].
  - intros j b Hb. destruct (r_heap0 _ _ Hb) as [? Hh]. split; [done|].
    rewrite lookup_insert_ne; [done|congruence].
  - rewrite map_size_insert_None, r_size0 by done. done.
Qed.

(** The first push creates the first chunk. *)
Lemma rep_first q h vals a : rep q h vals [] -> heap q !! a = None -> a <> 0 ->
  rep (set_head_chunk a (set_tail_chunk a (set_heap (<[a := Chunk_new]> (heap q)) q))) h vals [a].
Proof.
  intros [] Ha Ha0. rewrite (r_empty0 eq_refl) in *. simpl in *.
  assert (h = 0)%nat as -> by lia.
  split; try done; cbn [heap set_head_chunk set_tail_chunk set_heap].
  - apply NoDup_singleton.
  - intros j b Hb. apply list_lookup_singleton_Some in Hb as [-> <-]. split; [done|].
    by rewrite lookup_insert_eq.
  - rewrite map_size_insert_None by done. by rewrite r_size0.
Qed.

Lemma push_finish_ok n q h vals cs a nx x v :
  repx x q h vals cs -> last cs = Some a -> spare nx x q cs ->
  (nx = None <-> (length vals mod 31 <> 30)%nat) -> Z.of_nat (length vals) < 2 ^ 60 ->
  twp n (push_finish a (Z.of_nat (length vals mod 31)) (2 * pos (length vals) + 2) nx v)
    (set_tail_index (2 * pos (length vals) + 2) q)
    (fun _ _ q' => exists cs', rep q' h (vals ++ [v]) cs').
Proof.
  intros Hr Ha Hsp Hnx Hb. destruct (rep_last _ _ _ _ _ _ Hr Ha) as (Hne & Hj & Ha0 & Hc).
  pose proof (r_le _ _ _ _ _ Hr) as Hle. pose proof (pos_bound (length vals)) as Hpb.
  unfold push_finish. change CHUNK_CAP with 31. destruct nx as [nc|].
  - destruct Hsp as (-> & Hnc & Hni & Hn0).
    assert (Hm : (length vals mod 31 = 30)%nat).
    { destruct (decide (length vals mod 31 = 30)%nat); [done|]. by apply Hnx in n0. }
    rewrite (proj2 (Z.eqb_eq _ 31)) by lia. wp. unfold next_store.
    eapply twp_chunk_act; [exact Hc|done|]. wp.
    apply (twp_push_write _ _ a vals h v nc); [done| |].
    + cbn [heap set_heap slots]. rewrite lookup_insert_eq. done.
    + exists (cs ++ [nc]). eapply rep_push_lap; [exact Hr|done..| | |done].
      * change (wrap usize (2 * pos (length vals) + 2 + 2) = 2 * pos (length vals) + 4).
        rewrite wrap_small; [lia|]. unfold in_width, usize. lia.
      * cbn. by rewrite insert_insert_eq.
  - rewrite (proj2 (Z.eqb_neq _ 31)) by (pose proof (proj1 Hnx eq_refl); lia). wp.
    apply (twp_push_write _ _ a vals h v 0); [done..|].
    exists cs. red in Hsp. subst x. eapply rep_push_same; [exact Hr|done|by apply Hnx|done..].
Qed.

Lemma rep_some x q h vals cs : repx x q h vals cs -> vals <> [] -> exists a, last cs = Some a.
Proof.
  intros Hr Hv. destruct cs as [|c cs]; [destruct Hv; by apply (r_empty _ _ _ _ _ Hr)|].
  destruct (last (c :: cs)) eqn:E; [eauto|]. by apply last_None in E.
Qed.

Lemma rep_tail_chunk x q h vals cs a : repx x q h vals cs -> last cs = Some a -> tail_chunk q = a.
Proof. intros Hr Ha. by rewrite (r_last _ _ _ _ _ Hr), Ha. Qed.

(** What the loop of [push] maintains between its passes. *)
Definition push_inv h vals (i : Backoff.Backoff * Z * Z * option Z) q : Prop :=
  let '(_, tl, ch, nx) := i in
  tl = 2 * pos (length vals) /\ ch = tail_chunk q /\
  exists x cs, repx x q h vals cs /\ spare nx x q cs /\
    (nx <> None -> (length vals mod 31 = 30)%nat).

Lemma push_move_ok n q h vals cs a nx x v b :
  repx x q h vals cs -> last cs = Some a -> spare nx x q cs ->
  (nx = None <-> (length vals mod 31 <> 30)%nat) -> Z.of_nat (length vals) < 2 ^ 60 ->
  twp n
    (let! new_tail := uadd (2 * pos (length vals)) (Z.shiftl 1 SHIFT) in
     let! c := compare_exchange_weak tail_index set_tail_index (2 * pos (length vals)) new_tail in
     match c with
     | inl _ => push_finish a (Z.of_nat (length vals mod 31)) new_tail nx v ;; Ret (inr ())
     | inr t => let! chunk := load_tail_chunk in Ret (inl ((Backoff.spin b).1, t, chunk, nx))
     end) q
    (fun m r q' => match r with
     | inl i => push_inv h vals i q' /\ (m < n)%nat
     | inr _ => exists cs', rep q' h (vals ++ [v]) cs'
     end).
Proof.
  intros Hr Ha Hsp Hnx Hb. pose proof (pos_bound (length vals)) as Hpb.
  apply twp_bind, twp_uadd; [change (Z.shiftl 1 SHIFT) with 2; unfold usize; lia|].
  change (Z.shiftl 1 SHIFT) with 2.
  apply twp_bind, twp_cas_weak; [intros m <-|intros _|by rewrite (r_tail _ _ _ _ _ Hr)].
  - unfold load_tail_chunk. wp. split; [|lia]. split_and!; [by apply Hr|done|].
    exists x, cs. split_and!; [done..|]. intros Hn.
    destruct (decide (length vals mod 31 = 30)%nat) as [|Hm]; [done|]. by apply Hnx in Hm.
  - apply twp_bind. eapply twp_mono; [by eapply push_finish_ok|].
    intros m [] q' _ Hq. by apply twp_ret.
Qed.

Lemma CoQueue_push_ok q h vals cs v :
  rep q h vals cs -> Z.of_nat (length vals) < 2 ^ 60 ->
  (S (length vals) / 31 < chunk_room)%nat ->
  returns (CoQueue_push v) q (fun _ q' => exists cs', rep q' h (vals ++ [v]) cs').
Proof.
  intros Hr0 Hb Hroom n. unfold CoQueue_push, load_tail_index, load_tail_chunk. wp.
  apply twp_loop_inv with (Inv := fun _ => push_inv h vals) (meas := fun _ _ => 0%nat).
  { split_and!; [by apply Hr0|done|]. exists 0%nat, cs. by split_and!. }
  clear q cs Hr0 n. intros n [[[b tl] ch] nx] q (-> & -> & x & cs & Hr & Hsp & Hnx).
  rewrite index_shift0, pos_offset. change CHUNK_CAP with 31.
  rewrite (proj2 (Z.eqb_neq _ 31)) by lia.
  apply twp_bind, twp_mono with (Q := fun m nx q' => m = n /\ tail_chunk q' = tail_chunk q /\
    exists x, repx x q' h vals cs /\ spare nx x q' cs /\
    (nx = None <-> (length vals mod 31 <> 30)%nat) /\ (vals = [] -> q' = q /\ x = 0%nat)).
  { destruct (Z.eqb_spec (Z.of_nat (length vals mod 31) + 1) 31) as [Hm|Hm]; simpl.
    - assert (Hv : vals <> []) by (by intros ->). destruct nx as [p|]; simpl.
      + apply twp_ret. split_and!; [done..|]. exists x. split_and!; [done..| |done].
        split; [done|lia].
      + red in Hsp. subst x. wp_step. apply twp_box_new.
        * rewrite (r_size _ _ _ _ _ Hr).
          destruct (rep_some _ _ _ _ _ Hr Hv) as [a Ha].
          rewrite decide_False by (by intros ->). lia.
        * intros a Ha Ha0. destruct (rep_alloc _ _ _ _ _ Hr Ha Ha0) as [Hr' Hsp'].
          apply twp_ret. split_and!; [done..|]. exists 1%nat. split_and!; [done..| |done].
          split; [done|lia].
    - apply twp_ret. split_and!; [done..|]. exists x.
      assert (nx = None) as ->.
      { destruct nx; [|done]. assert (length vals mod 31 = 30)%nat by by apply Hnx. lia. }
      split_and!; [done..| |done]. split; [lia|done]. }
  clear x Hr Hsp Hnx nx. intros m nx q1 _ (-> & Htc & x & Hr & Hsp & Hnx & Hnil).
  rewrite <- Htc. clear Htc. apply twp_bind.
  destruct (last cs) as [a|] eqn:Ha.
  - destruct (rep_last _ _ _ _ _ _ Hr Ha) as (_ & _ & Ha0 & _).
    rewrite (rep_tail_chunk _ _ _ _ _ _ Hr Ha), (proj2 (Z.eqb_neq a 0)) by done.
    apply twp_ret. eapply twp_mono; [by eapply push_move_ok|].
    intros m [i|[]] q' _ Hq; [|by apply twp_ret]. destruct Hq. split; [done|by left].
  - apply last_None in Ha as ->. pose proof (r_empty _ _ _ _ _ Hr eq_refl) as ->.
    destruct (Hnil eq_refl) as [-> ->]. simpl in Hroom.
    pose proof (r_last _ _ _ _ _ Hr) as Htc. simpl in Htc. rewrite Htc. simpl.
    destruct nx as [p|]; [by destruct Hsp|].
    apply twp_bind, twp_box_new; [rewrite (r_size _ _ _ _ _ Hr); simpl; lia|].
    intros a Hfree Ha0. pose proof (rep_first _ _ _ _ Hr Hfree Ha0) as Hr1.
    apply twp_bind. eapply twp_act'; [done|]. change (tail_chunk (set_heap _ q)) with (tail_chunk q).
    rewrite Htc. apply twp_bind, twp_store, twp_ret.
    eapply twp_mono; [eapply (push_move_ok _ _ h [] [a]); try done; apply Hr1|].
    intros m [i|[]] q' _ Hq; [|by apply twp_ret]. destruct Hq. split; [done|by left].
Qed.

(** *** Pop *)

Lemma slot_at_pop vals h j : j <> h -> slot_at vals h j = slot_at vals (S h) j.
Proof. intros Hj. unfold slot_at. f_equal. repeat case_decide; done || lia. Qed.

Lemma slot_at_next vals h v : vals !! h = Some v -> slot_at vals h h = MkSlot (Some v) WRITE.
Proof.
  intros Hv. unfold slot_at. apply lookup_lt_Some in Hv as Hlt.
  by rewrite Hv, decide_False, decide_True by lia.
Qed.

Lemma slot_at_read vals h v : vals !! h = Some v ->
  slot_at vals (S h) h = MkSlot (Some v) (Z.lor WRITE READ).
Proof. intros Hv. unfold slot_at. by rewrite Hv, decide_True by lia. Qed.

Lemma rep_head x q h vals cs : repx x q h vals cs -> (h < length vals)%nat ->
  exists a cs', cs = a :: cs' /\ head_chunk q = a /\ a <> 0 /\ (a ∉ cs') /\
    length cs' = (length vals / 31 - h / 31)%nat /\
    heap q !! a = Some (chunk_of vals h (h / 31) (default 0 (cs' !! 0%nat))).
Proof.
  intros Hr Hlt. destruct cs as [|a cs'].
  { rewrite (r_empty _ _ _ _ _ Hr eq_refl) in Hlt. simpl in Hlt. lia. }
  exists a, cs'. destruct Hr. destruct (r_heap0 0%nat a eq_refl) as [Ha0 Hh].
  rewrite Nat.add_0_r in Hh. apply NoDup_cons in r_nodup0 as [? ?].
  split_and!; try done. specialize (r_length0 ltac:(done)). simpl in r_length0. lia.
Qed.

(** The state after a pop that stays in the chunk [a]. *)
Lemma rep_pop_same q q' h vals a cs b :
  rep q h vals (a :: cs) -> (h < length vals)%nat -> (h mod 31 <> 30)%nat ->
  head_index q' = 2 * pos (S h) + b -> (b = 0 \/ b = 1 /\ (h / 31 < length vals / 31)%nat) ->
  head_chunk q' = a -> tail q' = tail q ->
  heap q' = <[a := chunk_of vals (S h) (h / 31) (default 0 (cs !! 0%nat))]> (heap q) ->
  dropped q' = dropped q ->
  rep q' (S h) vals (a :: cs).
Proof.
  intros Hr Hlt Hm Hhi Hb Hhc Htl Hhp Hdr.
  destruct (rep_head _ _ _ _ _ Hr Hlt) as (? & ? & [= <- <-] & Ha & Ha0 & Hni & Hlen & Hh).
  assert (Hti : tail_index q' = tail_index q) by (unfold tail_index; by rewrite Htl).
  assert (Htc : tail_chunk q' = tail_chunk q) by (unfold tail_chunk; by rewrite Htl).
  assert (Hd : (S h / 31 = h / 31)%nat) by lia.
  destruct Hr. split; rewrite ?Hti, ?Htc, ?Hd, ?Hdr; try done.
  - exists b. by rewrite Hhi.
  - intros j c Hc. destruct (r_heap0 j c Hc) as [Hc0 Hcc]. split; [done|]. rewrite Hhp.
    destruct j as [|j]; simpl in Hc.
    + injection Hc as <-. by rewrite lookup_insert_eq, Nat.add_0_r.
    + assert (a <> c) by (intros ->; apply Hni; by eapply list_elem_of_lookup_2).
      rewrite lookup_insert_ne, Hcc by done. f_equal. apply chunk_of_ext.
      intros i Hi. apply slot_at_pop. lia.
  - rewrite Hhp, map_size_insert_Some by done. done.
Qed.

(** The state after a pop that leaves the chunk [a] for [a']. *)
Lemma rep_pop_lap q q' h vals a a' cs b c' :
  rep q h vals (a :: a' :: cs) -> (h < length vals)%nat -> (h mod 31 = 30)%nat ->
  head_index q' = 2 * pos (S h) + b -> (b = 0 \/ b = 1 /\ cs <> []) ->
  head_chunk q' = a' -> tail q' = tail q -> heap q' = <[a := c']> (heap q) ->
  dropped q' = dropped q ->
  rep q' (S h) vals (a' :: cs).
Proof.
  intros Hr Hlt Hm Hhi Hb Hhc Htl Hhp Hdr.
  destruct (rep_head _ _ _ _ _ Hr Hlt) as (? & ? & [= <- <-] & Ha & Ha0 & Hni & Hlen & Hh).
  assert (Hti : tail_index q' = tail_index q) by (unfold tail_index; by rewrite Htl).
  assert (Htc : tail_chunk q' = tail_chunk q) by (unfold tail_chunk; by rewrite Htl).
  assert (Hd : (S h / 31 = S (h / 31))%nat) by lia. simpl in Hlen.
  destruct Hr. apply NoDup_cons in r_nodup0 as [_ Hnd].
  split; rewrite ?Hti, ?Htc, ?Hd, ?Hdr; try done.
  - exists b. rewrite Hhi. split; [done|]. destruct Hb as [|[Hb Hcs]]; [by left|right].
    split; [done|]. destruct cs; [done|]. simpl in Hlen. lia.
  - intros _. simpl. lia.
  - intros j c Hc. destruct (r_heap0 (S j) c Hc) as [Hc0 Hcc]. split; [done|]. rewrite Hhp.
    assert (a <> c) by (intros ->; apply Hni; by eapply list_elem_of_lookup_2).
    rewrite lookup_insert_ne, Hcc by done. f_equal.
    replace (h / 31 + S j)%nat with (S (h / 31) + j)%nat by lia. apply chunk_of_ext.
    intros i Hi. apply slot_at_pop. lia.
  - rewrite Hhp, map_size_insert_Some by done. done.
Qed.

(** [destroy] on a chunk whose last slot does not have its [READ] bit: it marks
    that slot and gives up. *)
Lemma destroy_gives_up n q a vals h nxt (Q : nat -> () -> CoQueue T -> Prop) :
  (h mod 31 = 30)%nat -> heap q !! a = Some (chunk_of vals h (h / 31) nxt) ->
  (forall c', Q n () (set_heap (<[a := c']> (heap q)) q)) ->
  twp n (destroy a 0) q Q.
Proof.
  intros Hm Ha HQ.
  apply twp_loop_inv with (Inv := fun m i q' => m = n /\ q' = q /\ 0 <= i <= 30)
    (meas := fun i _ => Z.to_nat (31 - i)); [split_and!; done|].
  intros m i q' (-> & -> & Hi). change CHUNK_CAP with 31.
  rewrite (proj2 (Z.ltb_lt i 31)) by lia.
  assert (Hs : slots (chunk_of vals h (h / 31) nxt) !! Z.to_nat i =
    Some (slot_at vals h (31 * (h / 31) + Z.to_nat i))).
  { rewrite <- (chunk_of_slot _ _ (31 * (h / 31) + Z.to_nat i) nxt). do 3 f_equal; lia. }
  apply twp_bind. eapply twp_slot_read; [done..|]. unfold slot_at at 1. cbn [state].
  destruct (decide (31 * (h / 31) + Z.to_nat i < h)%nat) as [Hlt|Hge].
  - apply twp_ret. split; [split_and!; [done..|lia|]; lia|right; lia].
  - assert (Hr : Z.land (if decide (31 * (h / 31) + Z.to_nat i < length vals)%nat
      then WRITE else 0) READ = 0) by by case_decide.
    rewrite Hr. simpl. apply twp_bind. eapply twp_slot_act; [done..|].
    unfold slot_at at 1. cbn [state]. rewrite decide_False, Hr by lia. simpl.
    by apply twp_ret, twp_ret.
Qed.

Lemma wait_write_ok n q p i c sl (Q : nat -> () -> CoQueue T -> Prop) :
  heap q !! p = Some c -> slots c !! Z.to_nat i = Some sl -> Z.land (state sl) WRITE <> 0 ->
  Q n () q -> twp n (wait_write p i) q Q.
Proof.
  intros Hp Hi Hs HQ. apply twp_loop. unfold unfold_loop. apply twp_bind, twp_bind.
  eapply twp_slot_read; [done..|]. rewrite (proj2 (Z.eqb_neq _ 0)) by done.
  by apply twp_ret, twp_ret.
Qed.

Lemma wait_next_ok n q p c (Q : nat -> Z -> CoQueue T -> Prop) :
  heap q !! p = Some c -> next c <> 0 -> Q n (next c) q -> twp n (wait_next p) q Q.
Proof.
  intros Hp Hs HQ. apply twp_loop. unfold unfold_loop. apply twp_bind, twp_bind.
  eapply twp_next_load; [done..|]. rewrite (proj2 (Z.eqb_neq _ 0)) by done.
  by apply twp_ret, twp_ret.
Qed.

(** The flag [HAS_NEXT] that [pop] computes. *)
Definition lap_flag h vals : Z := if decide (h / 31 < length vals / 31)%nat then 1 else 0.

Lemma lap_flag_range h vals : 0 <= lap_flag h vals < 2.
Proof. unfold lap_flag. case_decide; lia. Qed.

Lemma next_head h vals : (h < length vals)%nat -> Z.of_nat (length vals) < 2 ^ 60 ->
  wrap usize (Z.land (2 * (pos h + 1) + lap_flag h vals) (unot usize HAS_NEXT) + Z.shiftl 1 SHIFT) =
  2 * (pos h + 2).
Proof.
  intros Hlt Hb. pose proof (pos_bound h). pose proof (lap_flag_range h vals).
  change (unot usize HAS_NEXT) with index_mask. change (Z.shiftl 1 SHIFT) with 2.
  rewrite index_clear, wrap_small by (done || unfold in_width, usize; lia). lia.
Qed.

Lemma pop_finish_ok n q h vals cs a v :
  rep q h vals cs -> vals !! h = Some v -> head_chunk q = a -> Z.of_nat (length vals) < 2 ^ 60 ->
  twp n (pop_finish a (Z.of_nat (h mod 31)) (2 * (pos h + 1) + lap_flag h vals))
    (set_head_index (2 * (pos h + 1) + lap_flag h vals) q)
    (fun _ r q' => r = v /\ exists cs', rep q' (S h) vals cs').
Proof.
  intros Hr Hv Hhc Hb. apply lookup_lt_Some in Hv as Hlt.
  destruct (rep_head _ _ _ _ _ Hr Hlt) as (a1 & cs1 & -> & Ha & Ha0 & Hni & Hlen & Hh).
  rewrite Ha in Hhc. subst a1. pose proof (chunk_of_slot vals h h (default 0 (cs1 !! 0%nat))) as Hs.
  rewrite (slot_at_next _ _ _ Hv) in Hs. rewrite <- (Nat2Z.id (h mod 31)) in Hs.
  unfold pop_finish. change CHUNK_CAP with 31. apply twp_bind.
  destruct (Z.eqb_spec (Z.of_nat (h mod 31) + 1) 31) as [Hm|Hm].
  - destruct cs1 as [|a2 cs2]; [simpl in Hlen; lia|].
    destruct (r_heap _ _ _ _ _ Hr 1%nat a2 eq_refl) as [Ha20 Hh2].
    apply twp_bind. eapply wait_next_ok; [exact Hh|done|].
    apply twp_bind. eapply twp_next_load; [exact Hh2|]. cbn [chunk_of next default].
    rewrite next_head by done. wp. eapply wait_write_ok; [exact Hh|exact Hs|done|].
    apply twp_bind. eapply twp_slot_read; [exact Hh|exact Hs|done|]. wp.
    eapply (destroy_gives_up _ _ _ vals h); [lia|exact Hh|]. intros c'. wp. split; [done|].
    exists (a2 :: cs2). eapply (rep_pop_lap q _ _ _ a a2 cs2
      (if decide (cs2 = []) then 0 else 1)); try done; [lia| |case_decide; auto].
    rewrite pos_next_lap by lia. unfold head_index. cbn [set_heap set_head_index head pad_value index].
    destruct cs2 as [|a3 cs2]; simpl; [lia|].
    destruct (r_heap _ _ _ _ _ Hr 2%nat a3 eq_refl) as [Ha30 _].
    rewrite (proj2 (Z.eqb_neq a3 0)) by done. simpl.
    rewrite <- (index_set (pos h + 2) 0), Z.add_0_r by lia. done.
  - wp. eapply wait_write_ok; [exact Hh|exact Hs|done|].
    apply twp_bind. eapply twp_slot_read; [exact Hh|exact Hs|done|]. apply twp_bind, twp_bind.
    eapply twp_slot_act; [exact Hh|exact Hs|done|]. simpl. wp. split; [done|].
    exists (a :: cs1). eapply (rep_pop_same q _ _ _ a cs1 (lap_flag h vals)); try done; [lia|..].
    + rewrite pos_next by lia. done.
    + unfold lap_flag. case_decide; auto.
    + cbn [set_heap heap]. f_equal. rewrite <- (chunk_of_insert vals vals h (S h) h);
        [|intros; by apply slot_at_pop].
      rewrite (slot_at_read _ _ _ Hv), Nat2Z.id. done.
Qed.

(** *** [pop] on an empty and on a nonempty queue *)

Lemma pop_check_ok n q h vals cs b (Q : nat -> option Z -> CoQueue T -> Prop) :
  rep q h vals cs -> head_index q = 2 * pos h + b ->
  (b = 0 \/ b = 1 /\ (h / 31 < length vals / 31)%nat) ->
  (h = length vals -> Q n None q) ->
  ((h < length vals)%nat -> Q n (Some (2 * (pos h + 1) + lap_flag h vals)) q) ->
  twp n (pop_check (2 * pos h + b) (2 * pos h + b + 2)) q Q.
Proof.
  intros Hr Hhi Hb Hemp Hne. unfold pop_check.
  replace (2 * pos h + b + 2) with (2 * (pos h + 1) + b) by lia.
  rewrite index_bit, index_shift by (destruct Hb as [->|[-> _]]; lia).
  pose proof (r_le _ _ _ _ _ Hr) as Hle.
  destruct Hb as [->|[-> Hl]]; simpl.
  - unfold load_tail_index. wp. rewrite (r_tail _ _ _ _ _ Hr), index_shift0, !pos_lap.
    destruct (Z.eqb_spec (pos h) (pos (length vals))) as [E|E].
    + apply twp_ret, Hemp. by apply pos_inj.
    + assert (Hlt : (h < length vals)%nat).
      { assert (h <> length vals) by (intros ->; done). lia. }
      apply twp_ret. specialize (Hne Hlt). unfold lap_flag in Hne.
      pose proof (Nat.Div0.div_le_mono h (length vals) 31 Hle).
      case_decide as Hd.
      * rewrite (proj2 (Z.eqb_neq _ _)) by lia. simpl. by rewrite index_set by lia.
      * rewrite (proj2 (Z.eqb_eq _ _)) by lia. done.
  - apply twp_ret. assert (Hlt : (h < length vals)%nat) by lia. specialize (Hne Hlt).
    unfold lap_flag in Hne. by rewrite decide_True in Hne by done.
Qed.

Lemma CoQueue_pop_ok q h vals cs :
  rep q h vals cs -> Z.of_nat (length vals) < 2 ^ 60 ->
  returns CoQueue_pop q (fun r q' => r = vals !! h /\
    if decide (h < length vals)%nat then exists cs', rep q' (S h) vals cs' else q' = q).
Proof.
  intros Hr Hb n. unfold CoQueue_pop, load_head_index, load_head_chunk. wp.
  apply twp_loop_inv with (Inv := fun _ i q' => q' = q /\ i.1.2 = head_index q /\ i.2 = head_chunk q)
    (meas := fun _ _ => 0%nat); [done|].
  intros m [[b hd] ch] q' (-> & Hhd & Hch). simpl in Hhd, Hch. subst hd ch.
  destruct (r_head _ _ _ _ _ Hr) as (f & Hhi & Hf).
  assert (Hf2 : 0 <= f < 2) by (destruct Hf as [->|[-> _]]; lia).
  pose proof (pos_bound h). pose proof (r_le _ _ _ _ _ Hr).
  rewrite Hhi, index_shift, pos_offset by done. change CHUNK_CAP with 31.
  rewrite (proj2 (Z.eqb_neq _ 31)) by lia.
  apply twp_bind, twp_uadd; [change (Z.shiftl 1 SHIFT) with 2; unfold usize; lia|].
  change (Z.shiftl 1 SHIFT) with 2. apply twp_bind. eapply pop_check_ok; [done..| |].
  - intros ->. apply twp_ret, twp_ret. rewrite lookup_ge_None_2, decide_False by lia. done.
  - intros Hlt. destruct (lookup_lt_is_Some_2 _ _ Hlt) as [v Hv].
    destruct (rep_head _ _ _ _ _ Hr Hlt) as (a & cs1 & -> & Ha & Ha0 & _).
    rewrite Ha, (proj2 (Z.eqb_neq a 0)) by done.
    apply twp_bind, twp_cas_weak; [intros m' <-|intros _|by rewrite Hhi].
    + wp. rewrite Hhi. split; [done|left; lia].
    + apply twp_bind. eapply twp_mono; [by eapply pop_finish_ok|].
      intros m' r q' _ [-> Hq]. apply twp_ret, twp_ret. rewrite Hv, decide_True by lia. done.
Qed.
End Rep.
