(* ===== verification/CoQueueMain.v ===== *)
(** * The chunked queue is a FIFO queue

    [is_empty], [len] and [drop], and the theorems about sequences of operations:
    the queue behaves like a list, and what happens to its memory. *)

From Stdlib Require Import ZifyNat.
From S2P Require Import Prelude Machine Fifo Timing Arena CoQueue CoQueueSpec.

#[local] Ltac Zify.zify_post_hook ::= Z.to_euclidean_division_equations.
#[local] Arguments Nat.div : simpl never.
#[local] Arguments Nat.modulo : simpl never.

Section Rest.
Context `{ChunkAlloc} {T : Type}.
Implicit Types (q : CoQueue T) (vals : list T) (cs : list Z).
Abbreviation rep := (repx 0).

Lemma rep_new : rep (CoQueue_new (T := T)) 0 [] [].
Proof. split; try done; [exists 0; auto|constructor]. Qed.

Lemma rep_head_index q h vals cs : rep q h vals cs ->
  exists f, head_index q = 2 * pos h + f /\ 0 <= f < 2.
Proof.
  intros Hr. destruct (r_head _ _ _ _ _ Hr) as (f & Hhi & Hf). exists f. split; [done|lia].
Qed.

Lemma CoQueue_is_empty_ok q h vals cs : rep q h vals cs ->
  returns CoQueue_is_empty q (fun r q' => r = bool_decide (h = length vals) /\ q' = q).
Proof.
  intros Hr n. unfold CoQueue_is_empty, load_head_index, load_tail_index. wp. split; [|done].
  destruct (rep_head_index _ _ _ _ Hr) as (f & -> & Hf).
  rewrite (r_tail _ _ _ _ _ Hr), index_shift, index_shift0 by done.
  case_bool_decide as E; [subst; apply Z.eqb_refl|].
  apply Z.eqb_neq. intros Hp. by apply E, pos_inj.
Qed.

Lemma len_of_ok n h k f q (Q : nat -> Z -> CoQueue T -> Prop) :
  (h <= k)%nat -> Z.of_nat k < 2 ^ 60 -> 0 <= f < 2 ->
  Q n (Z.of_nat (k - h)) q -> twp n (len_of (2 * pos k) (2 * pos h + f)) q Q.
Proof.
  intros Hle Hb Hf HQ. unfold len_of. pose proof (pos_bound h). pose proof (pos_bound k).
  assert (Hk : pos k = 32 * Z.of_nat (k / 31) + Z.of_nat (k mod 31)) by (unfold pos; lia).
  assert (Hh : pos h = 32 * Z.of_nat (h / 31) + Z.of_nat (h mod 31)) by (unfold pos; lia).
  pose proof (Nat.Div0.div_le_mono h k 31 Hle) as Hlap.
  rewrite <- (Z.add_0_r (2 * pos k)), !index_clear by (unfold in_width, usize; lia).
  rewrite index_shift0, pos_lap. change LAP with 32. change CHUNK_CAP with 31.
  unfold SHIFT. rewrite Z.shiftl_mul_pow2 by lia. change (2 ^ 1) with 2.
  set (tl := 32 * Z.of_nat (k / 31 - h / 31) + Z.of_nat (k mod 31)).
  replace (2 * pos k - Z.of_nat (h / 31) * 32 * 2) with (2 * tl) by lia.
  replace (2 * pos h - Z.of_nat (h / 31) * 32 * 2) with (2 * Z.of_nat (h mod 31)) by lia.
  rewrite !wrap_small by (unfold in_width, usize; lia). rewrite !index_shift0.
  rewrite (proj2 (Z.eqb_neq _ 31)) by lia.
  apply twp_bind, twp_ret. rewrite (proj2 (Z.eqb_neq tl 31)) by lia.
  apply twp_bind, twp_ret, twp_bind, twp_usub; [lia|]. apply twp_usub; [lia|].
  replace (tl - Z.of_nat (h mod 31) - tl / 32) with (Z.of_nat (k - h)); [done|]. lia.
Qed.

(** [len] needs the indices only. *)
Lemma CoQueue_len_idle q h k f : (h <= k)%nat -> tail_index q = 2 * pos k -> head_index q = 2 * pos h + f ->
  0 <= f < 2 -> Z.of_nat k < 2 ^ 60 ->
  returns CoQueue_len q (fun r q' => r = Z.of_nat (k - h) /\ q' = q).
Proof.
  intros Hle Ht Hh Hf Hb n. unfold CoQueue_len. apply twp_forever.
  unfold load_head_index, load_tail_index. wp. rewrite Z.eqb_refl. apply twp_bind.
  rewrite Ht, Hh. apply len_of_ok; [done..|]. by apply twp_ret.
Qed.

Lemma CoQueue_len_ok q h vals cs : rep q h vals cs -> Z.of_nat (length vals) < 2 ^ 60 ->
  returns CoQueue_len q (fun r q' => r = Z.of_nat (length vals - h) /\ q' = q).
Proof.
  intros Hr Hb. destruct (rep_head_index _ _ _ _ Hr) as (f & Hh & Hf).
  eapply CoQueue_len_idle; [apply Hr|apply Hr|exact Hh|exact Hf|done].
Qed.

(** *** [drop] *)

(** [m'] is [m] without the addresses in [l]. *)
Definition freed (l : list Z) (m m' : gmap Z (Chunk T)) : Prop :=
  forall a, m' !! a = if decide (a ∈ l) then None else m !! a.

Lemma freed_nil m : freed [] m m.
Proof. intros a. rewrite decide_False by set_solver. done. Qed.

Lemma freed_snoc l a m m' : freed l m m' -> freed (l ++ [a]) m (delete a m').
Proof.
  intros Hf b. destruct (decide (a = b)) as [<-|Hne].
  - rewrite lookup_delete_eq, decide_True; [done|set_solver].
  - rewrite lookup_delete_ne, (Hf b) by done.
    destruct (decide (b ∈ l)); [rewrite decide_True by set_solver|rewrite decide_False by set_solver]; done.
Qed.

(** The loop of [drop] has dropped the values before [i] and freed the chunks
    before the one it is in; at the end of a lap it still is in the chunk of
    that lap. *)
Definition drop_inv q h vals cs (i : nat) (lap_end : bool) (hd ch : Z) q' : Prop :=
  let k := (i / 31 - h / 31 - if lap_end then 1 else 0)%nat in
  (h <= i <= length vals)%nat /\
  (lap_end = true -> (i mod 31 = 0)%nat /\ (h / 31 < i / 31)%nat) /\
  hd = 2 * (pos i - if lap_end then 1 else 0) /\
  ch = default 0 (cs !! k) /\
  freed (take k cs) (heap q) (heap q') /\
  dropped q' = reverse (take (i - h) (drop h vals)) ++ dropped q.

Lemma drop_chunk q h vals cs i b hd ch q' :
  rep q h vals cs -> drop_inv q h vals cs i b hd ch q' -> cs <> [] ->
  exists k a, k = (i / 31 - h / 31 - if b then 1 else 0)%nat /\ cs !! k = Some a /\ ch = a /\
    a <> 0 /\ heap q' !! a = Some (chunk_of vals h (h / 31 + k) (default 0 (cs !! S k))).
Proof.
  intros Hr (Hi & Hb & -> & -> & Hf & _) Hne.
  pose proof (r_length _ _ _ _ _ Hr Hne) as Hlen.
  pose proof (Nat.Div0.div_le_mono i (length vals) 31 (proj2 Hi)).
  set (k := (i / 31 - h / 31 - if b then 1 else 0)%nat) in *.
  destruct (lookup_lt_is_Some_2 cs k) as [a Ha]; [lia|].
  destruct (r_heap _ _ _ _ _ Hr _ _ Ha) as [Ha0 Hh].
  exists k, a. split_and!; [done..|by rewrite Ha|done|].
  rewrite (Hf a), decide_False; [done|]. intros Hin.
  apply list_elem_of_lookup_1 in Hin as [j Hj]. apply lookup_take_Some in Hj as [Hj Hjk].
  assert (j = k) by (eapply NoDup_lookup; [apply Hr|done..]). lia.
Qed.

(** Dropping the value number [i]. *)
Lemma drop_value_step n q h vals cs i ch q' :
  rep q h vals cs -> drop_inv q h vals cs i false (2 * pos i) ch q' -> (i < length vals)%nat ->
  twp n (value_drop ch (Z.of_nat (i mod 31))) q' (fun m _ q'' => m = n /\
    exists b, drop_inv q h vals cs (S i) b (2 * pos i + 2) ch q'').
Proof.
  intros Hr Hd Hlt. destruct (drop_chunk _ _ _ _ _ _ _ _ _ Hr Hd) as (k & a & -> & Ha & -> & Ha0 & Hh).
  { intros ->. rewrite (r_empty _ _ _ _ _ Hr eq_refl) in Hlt. simpl in Hlt. lia. }
  destruct Hd as (Hi & _ & _ & Hch & Hf & Hdr). rewrite Nat.sub_0_r in *.
  destruct (lookup_lt_is_Some_2 _ _ Hlt) as [v Hv].
  pose proof (Nat.Div0.div_le_mono h i 31 (proj1 Hi)).
  replace (h / 31 + (i / 31 - h / 31))%nat with (i / 31)%nat in Hh by lia.
  pose proof (chunk_of_slot vals h i (default 0 (cs !! S (i / 31 - h / 31)))) as Hs.
  rewrite <- (Nat2Z.id (i mod 31)) in Hs.
  unfold value_drop. apply twp_bind. eapply twp_slot_read; [exact Hh|exact Hs| |].
  { unfold slot_at. cbn [value]. by rewrite Hv. }
  wp. split; [done|]. exists (bool_decide (i mod 31 = 30)%nat).
  assert (Hdr' : dropped (add_dropped v q') =
    reverse (take (S i - h) (drop h vals)) ++ dropped q).
  { cbn [add_dropped dropped]. rewrite Hdr. replace (S i - h)%nat with (S (i - h)) by lia.
    rewrite (take_S_r _ _ v), reverse_snoc; [done|].
    rewrite lookup_drop. by replace (h + (i - h))%nat with i by lia. }
  unfold drop_inv. case_bool_decide as Hm.
  - replace (S i / 31 - h / 31 - 1)%nat with (i / 31 - h / 31)%nat by lia.
    split_and!; [lia|lia|lia| |by rewrite Ha|done|done].
    rewrite pos_next_lap by done. lia.
  - replace (S i / 31 - h / 31 - 0)%nat with (i / 31 - h / 31)%nat by lia.
    split_and!; [lia|lia|done| |by rewrite Ha|done|done].
    rewrite pos_next by done. lia.
Qed.

(** Freeing the chunk at the end of a lap. *)
Lemma drop_chunk_step n q h vals cs i ch q' hd :
  rep q h vals cs -> drop_inv q h vals cs i true hd ch q' ->
  twp n (let! next := next_load ch in box_drop ch ;; Ret next) q' (fun m ch' q'' => m = n /\
    drop_inv q h vals cs i false (hd + 2) ch' q'').
Proof.
  intros Hr Hd.
  destruct (drop_chunk _ _ _ _ _ _ _ _ _ Hr Hd) as (k & a & Hk & Ha & -> & Ha0 & Hh).
  { intros ->. rewrite (r_empty _ _ _ _ _ Hr eq_refl) in Hd.
    destruct Hd as (Hi & Hb & _). destruct (Hb eq_refl). simpl in Hi. lia. }
  destruct Hd as (Hi & Hb & -> & Hch & Hf & Hdr). destruct (Hb eq_refl) as [Hm Hl].
  rewrite <- Hk in *.
  apply twp_bind. eapply twp_next_load; [done|]. apply twp_bind.
  eapply twp_act'; [simpl; by rewrite Hh|]. apply twp_ret. split; [done|].
  unfold drop_inv. replace (i / 31 - h / 31 - 0)%nat with (S k) by lia.
  split_and!; [lia|lia|done|lia|done| |done].
  cbn [set_heap heap]. rewrite (take_S_r _ _ _ Ha). by apply freed_snoc.
Qed.

Lemma CoQueue_drop_ok q h vals cs : rep q h vals cs -> Z.of_nat (length vals) < 2 ^ 60 ->
  returns CoQueue_drop q (fun _ q' =>
    dropped q' = reverse (drop h vals) ++ dropped q /\ freed cs (heap q) (heap q')).
Proof.
  intros Hr Hb n. unfold CoQueue_drop, load_head_index, load_tail_index, load_head_chunk.
  do 3 (apply twp_bind, twp_load).
  destruct (rep_head_index _ _ _ _ Hr) as (f & -> & Hf). rewrite (r_tail _ _ _ _ _ Hr).
  pose proof (r_le _ _ _ _ _ Hr) as Hle.
  pose proof (pos_bound h). pose proof (pos_bound (length vals)).
  rewrite <- (Z.add_0_r (2 * pos (length vals))), !index_clear by (unfold in_width, usize; lia).
  apply twp_bind, twp_loop_inv with (meas := fun i _ => Z.to_nat (2 * pos (length vals) - i.1))
    (Inv := fun _ '(hd, ch) q' => exists i b, drop_inv q h vals cs i b hd ch q').
  { exists h, false. unfold drop_inv. rewrite !Nat.sub_diag. simpl.
    split_and!; try done; try lia; apply Hr || apply freed_nil. }
  intros m [hd ch] q' (i & b & Hd). pose proof Hd as (Hi & Hbt & Hhd & _).
  pose proof (pos_bound i).
  assert (Hpi : pos i = 32 * Z.of_nat (i / 31) + Z.of_nat (i mod 31)) by (unfold pos; lia).
  assert (Hpn : pos (length vals) = 32 * Z.of_nat (length vals / 31) +
    Z.of_nat (length vals mod 31)) by (unfold pos; lia).
  destruct (Z.eqb_spec hd (2 * pos (length vals))) as [Heq|Hne]; simpl.
  - assert (b = false) as -> by (destruct b; [lia|done]).
    assert (i = length vals) as -> by (apply pos_inj; lia).
    apply twp_ret, twp_ret. pose proof Hd as (_ & _ & _ & Hch & Hfr & Hdr).
    rewrite take_ge in Hdr by (rewrite length_drop; lia).
    destruct (decide (cs = [])) as [->|Hcs].
    { rewrite Hch. rewrite take_nil in Hfr. simpl. by apply twp_ret. }
    destruct (drop_chunk _ _ _ _ _ _ _ _ _ Hr Hd Hcs) as (k & a & Hk & Ha & -> & Ha0 & Hh).
    rewrite (proj2 (Z.eqb_neq a 0)) by done. simpl.
    eapply twp_act'; [simpl; by rewrite Hh|]. split; [done|]. cbn [set_heap heap].
    rewrite <- Hk in Hfr. apply (freed_snoc _ a) in Hfr. rewrite <- (take_S_r _ _ _ Ha) in Hfr.
    rewrite take_ge in Hfr; [done|]. rewrite (r_length _ _ _ _ _ Hr Hcs). lia.
  - assert (Hoff : Z.shiftr hd SHIFT mod LAP = if b then 31 else Z.of_nat (i mod 31)).
    { rewrite Hhd, index_shift0. change LAP with 32. destruct b; lia. }
    rewrite Hoff. change CHUNK_CAP with 31. change (Z.shiftl 1 SHIFT) with 2.
    assert (Hwr : wrap usize (hd + 2) = hd + 2).
    { apply wrap_small. unfold in_width, usize. destruct b; lia. }
    rewrite Hwr. apply twp_bind. destruct b; simpl.
    + eapply twp_mono; [by eapply drop_chunk_step|]. intros m' ch' q'' _ [-> Hd'].
      apply twp_ret. split; [by exists i, false|]. right. split; [done|]. simpl. lia.
    + rewrite (proj2 (Z.ltb_lt _ 31)) by lia. apply twp_bind.
      rewrite Z.sub_0_r in Hhd. subst hd.
      eapply twp_mono; [eapply drop_value_step; [done|exact Hd|]|].
      { destruct (decide (i = length vals)) as [->|]; [done|lia]. }
      intros m' [] q'' _ [-> [b Hd']]. apply twp_ret, twp_ret.
      split; [by exists (S i), b|]. right. split; [done|]. simpl. lia.
Qed.

Lemma freed_size l m m' : freed l m m' -> NoDup l -> (forall a, a ∈ l -> is_Some (m !! a)) ->
  size m = (length l + size m')%nat.
Proof.
  intros Hf Hnd Hin. rewrite <- !size_dom.
  assert (Hd : dom m' = dom m ∖ list_to_set l).
  { apply set_eq. intros a. rewrite elem_of_difference, elem_of_list_to_set, !elem_of_dom, (Hf a).
    case_decide; split; try tauto. by intros [? ?]. }
  assert (Hsub : list_to_set l ⊆ dom m).
  { intros a Ha. apply elem_of_list_to_set in Ha. apply elem_of_dom. auto. }
  rewrite Hd, size_difference, size_list_to_set by done.
  apply subseteq_size in Hsub. rewrite size_list_to_set in Hsub by done. lia.
Qed.

(** *** [CoQueue] keeps the promise of a queue *)

#[export] Instance co_ops : QueueOps (CoQueue T) T := {|
  q_push := CoQueue_push;
  q_pop := CoQueue_pop;
  q_is_empty := CoQueue_is_empty;
|}.

Definition co_is (xs : list T) (k p : nat) (q : CoQueue T) : Prop :=
  exists vals cs, rep q p vals cs /\ drop p vals = xs /\ length vals = k /\ Z.of_nat k < 2 ^ 60.

(** One push more: positions stay in 64 bits, and there is memory. *)
Definition co_can_push (k : nat) : Prop :=
  Z.of_nat k < 2 ^ 60 - 1 /\ (S k / 31 < chunk_room)%nat.

#[export, refine] Instance co_laws : QueueLaws (CoQueue T) T := {|
  q_is := co_is;
  q_can_push := co_can_push;
  q_can_pop _ := True;
|}.
Proof.
  - intros v xs k p q (vals & cs & Hr & Hx & Hk & Hb) [Hb' Hroom] n.
    pose proof (r_le _ _ _ _ _ Hr).
    eapply twp_returns; [apply (CoQueue_push_ok _ _ _ _ v Hr); rewrite Hk; [lia|done]|].
    simpl. intros m _ q' [cs' Hr']. exists (vals ++ [v]), cs'.
    rewrite drop_app_le, Hx, length_app by lia. simpl. split_and!; [done..|lia|lia].
  - intros x xs k p q (vals & cs & Hr & Hx & Hk & Hb) _ n.
    assert (Hv : vals !! p = Some x) by (by rewrite <- (Nat.add_0_r p), <- lookup_drop, Hx).
    apply lookup_lt_Some in Hv as Hlt.
    eapply twp_returns; [apply (CoQueue_pop_ok _ _ _ _ Hr); lia|].
    simpl. intros m r q' [-> Hq]. rewrite decide_True in Hq by done. destruct Hq as [cs' Hr'].
    split; [done|].
    exists vals, cs'. split_and!; [done| |done|lia].
    by rewrite <- Nat.add_1_r, <- drop_drop, Hx.
  - intros k p q (vals & cs & Hr & Hx & Hk & Hb) n.
    assert (Hge : ~ (p < length vals)%nat).
    { intros Hlt. apply lookup_lt_is_Some_2 in Hlt as [x Hv].
      by rewrite <- (Nat.add_0_r p), <- lookup_drop, Hx in Hv. }
    eapply twp_returns; [apply (CoQueue_pop_ok _ _ _ _ Hr); lia|].
    simpl. intros m r q' [-> Hq]. rewrite decide_False in Hq by done. subst q'.
    rewrite lookup_ge_None_2 by lia. split; [done|]. by exists vals, cs.
  - intros xs k p q (vals & cs & Hr & Hx & Hk & Hb) n. pose proof (r_le _ _ _ _ _ Hr) as Hle.
    eapply twp_returns; [apply (CoQueue_is_empty_ok _ _ _ _ Hr)|].
    simpl. intros m r q' [-> ->]. split; [|by exists vals, cs].
    apply bool_decide_ext. rewrite <- Hx. split; [intros ->; apply drop_all|].
    intros Hd. apply (f_equal length) in Hd. rewrite length_drop in Hd. simpl in Hd. lia.
Defined.

Lemma co_new_is : co_is [] 0 0 (CoQueue_new (T := T)).
Proof. exists [], []. split_and!; [apply rep_new|done..]. Qed.

Lemma co_ops_ok os : co_can_push (pushes os) ->
  returns (run_ops os) (CoQueue_new (T := T)) (fun rs q =>
    rs = (spec_ops os []).1 /\ co_is (spec_ops os []).2 (pushes os) (hits rs) q).
Proof.
  intros [Hb Hroom]. apply (run_ops_ok (L := co_laws) os [] 0 0); [apply co_new_is| |done].
  intros j Hj. split; [lia|]. simpl in Hj.
  pose proof (Nat.Div0.div_le_mono (S j) (S (pushes os)) 31). lia.
Qed.
End Rest.

(** ** Properties *)

(** C12. One thread's operations on a new [CoQueue] give the results of the same
    operations on a list, first in first out; they return whatever weak
    compare-exchanges fail.  At most 2^60 pushes keep the indices in range, and
    every 31 pushes need a new chunk. *)
Theorem co_queue_refines_list `{ChunkAlloc} {T : Type} (os : list (op T)) :
  co_can_push (pushes os) ->
  returns (run_ops os) CoQueue_new (fun rs q =>
    rs = (spec_ops os []).1 /\ co_is (spec_ops os []).2 (pushes os) (hits rs) q).
Proof. apply co_ops_ok. Qed.

Lemma co_queue_refines_list_witness :
  co_can_push (pushes [Push 5; Push 7; TryPop; IsEmpty]) /\
  returns (run_ops [Push 5; Push 7; TryPop; IsEmpty]) CoQueue_new (fun rs _ =>
    rs = [Pushed; Pushed; Popped (Some 5); Emptiness false]).
Proof.
  assert (Hc : co_can_push (pushes [Push 5; Push 7; TryPop; IsEmpty])) by (split; vm_compute; [reflexivity|lia]).
  split; [exact Hc|]. intros n. eapply twp_returns.
  - exact (co_queue_refines_list (T := Z) [Push 5; Push 7; TryPop; IsEmpty] Hc).
  - intros m rs q [-> _]. reflexivity.
Defined.

(** [len] is the number of elements in the queue, across chunk boundaries, and
    none of its subtractions overflows. *)
Theorem co_queue_len_exact `{ChunkAlloc} {T : Type} (os : list (op T)) :
  co_can_push (pushes os) ->
  returns (run_ops os ;; CoQueue_len) CoQueue_new (fun n _ =>
    n = Z.of_nat (length (spec_ops os []).2)).
Proof.
  intros Hc n. apply twp_bind. eapply twp_returns; [by apply co_ops_ok|].
  intros m rs q [-> (vals & cs & Hr & <- & Hk & Hb)].
  eapply twp_returns; [apply (CoQueue_len_ok _ _ _ _ Hr); lia|].
  intros m' r q' [-> _]. by rewrite length_drop.
Qed.

Lemma co_queue_len_exact_witness :
  co_can_push (pushes [Push 5; Push 7; TryPop]) /\
  returns (run_ops [Push 5; Push 7; TryPop] ;; CoQueue_len) CoQueue_new (fun n _ => n = 1).
Proof.
  assert (Hc : co_can_push (pushes [Push 5; Push 7; TryPop])) by (split; vm_compute; [reflexivity|lia]).
  split; [exact Hc|]. exact (co_queue_len_exact (T := Z) [Push 5; Push 7; TryPop] Hc).
Defined.

(** C16. Dropping the queue drops each element still in it exactly once, in order,
    and frees the chunks that hold elements or the next one; but every chunk that
    [pop] emptied, one per 31 elements popped, stays allocated for ever. *)
Theorem co_queue_drop_leaks_chunks `{ChunkAlloc} {T : Type} (os : list (op T)) :
  co_can_push (pushes os) ->
  returns (run_ops os ;; CoQueue_drop) CoQueue_new (fun _ q =>
    reverse (dropped q) = (spec_ops os []).2 /\
    size (heap q) = (hits (spec_ops os []).1 / 31)%nat).
Proof.
  intros Hc n. apply twp_bind. eapply twp_returns; [by apply co_ops_ok|].
  intros m rs q [-> (vals & cs & Hr & <- & Hk & Hb)].
  eapply twp_returns; [apply (CoQueue_drop_ok _ _ _ _ Hr); lia|].
  intros m' r q' [Hd Hf]. rewrite Hd, (r_dropped _ _ _ _ _ Hr), app_nil_r, reverse_involutive.
  split; [done|]. pose proof (r_size _ _ _ _ _ Hr) as Hs. pose proof (r_le _ _ _ _ _ Hr) as Hle.
  apply freed_size in Hf; [|apply Hr|].
  - destruct (decide (cs = [])) as [->|Hne].
    + rewrite (r_empty _ _ _ _ _ Hr eq_refl) in Hle. simpl in *. lia.
    + pose proof (r_length _ _ _ _ _ Hr Hne).
      pose proof (Nat.Div0.div_le_mono _ _ 31 Hle). lia.
  - intros a Ha. apply list_elem_of_lookup_1 in Ha as [j Hj].
    destruct (r_heap _ _ _ _ _ Hr _ _ Hj) as [_ ->]. eauto.
Qed.

(** 31 pushes and 31 pops, then the drop: one chunk is left allocated. *)
Lemma co_queue_drop_leaks_chunks_witness :
  co_can_push (pushes (replicate 31 (Push 5) ++ replicate 31 TryPop)) /\
  returns (run_ops (replicate 31 (Push 5) ++ replicate 31 TryPop) ;; CoQueue_drop) CoQueue_new
    (fun _ q => reverse (dropped q) = [] /\ size (heap q) = 1%nat).
Proof.
  assert (Hc : co_can_push (pushes (replicate 31 (Push 5) ++ replicate 31 TryPop)))
    by (split; vm_compute; [reflexivity|lia]).
  split; [exact Hc|].
  exact (co_queue_drop_leaks_chunks (T := Z) (replicate 31 (Push 5) ++ replicate 31 TryPop) Hc).
Defined.
