(* ===== verification/Linear.v ===== *)
(** * Linearizability

    Clients of a shared queue record when they call an operation and when it
    returns.  Such a history is linearizable if a commit can be inserted between the
    call and the return of every operation so that the operations, done at once at
    their commits, are those of the abstract queue of [Fifo]. *)

From S2P Require Import Prelude Machine Fifo.

Section Linear.
Context {T : Type}.

Inductive event : Type :=
| Call (t : nat) (o : op T)
| Commit (t : nat) (r : obs T)
| Return (t : nat) (r : obs T).

(** What a client records. *)
Definition visible (e : event) : bool := match e with Commit _ _ => false | _ => true end.

(** Where a thread is in its current operation. *)
Inductive status : Type :=
| Idle
| Called (o : op T)
| Committed (r : obs T).

(** [runs h xs st]: the events [h] are in order, the queue holds [xs] after them,
    and [st] says where every thread is. *)
Inductive runs : list event -> list T -> (nat -> status) -> Prop :=
| runs_nil : runs [] [] (fun _ => Idle)
| runs_call h xs st t o :
    runs h xs st -> st t = Idle -> runs (h ++ [Call t o]) xs (<[t := Called o]> st)
| runs_commit h xs st t o r xs' :
    runs h xs st -> st t = Called o -> spec_op o xs = (r, xs') ->
    runs (h ++ [Commit t r]) xs' (<[t := Committed r]> st)
| runs_return h xs st t r :
    runs h xs st -> st t = Committed r -> runs (h ++ [Return t r]) xs (<[t := Idle]> st).

Definition linearizable (log : list event) : Prop :=
  exists h xs st, runs h xs st /\ filter visible h = log.

(** ** Nothing is lost, nothing appears twice *)

Definition pushed (e : event) : option T := match e with Call _ (Push v) => Some v | _ => None end.
Definition popped (e : event) : option T :=
  match e with Return _ (Popped (Some v)) => Some v | _ => None end.

(** What a thread has pushed but not committed, and popped but not returned. *)
Definition pushing (s : status) : list T := match s with Called (Push v) => [v] | _ => [] end.
Definition popping (s : status) : list T :=
  match s with Committed (Popped (Some v)) => [v] | _ => [] end.

Definition over (f : status -> list T) (st : nat -> status) (n : nat) : list T :=
  concat ((fun t => f (st t)) <$> seq 0 n).

Lemma over_same f st t s n : f s = f (st t) -> over f (<[t := s]> st) n = over f st n.
Proof.
  intros E. unfold over. f_equal. apply list_fmap_ext. intros j u Hj.
  destruct (decide (t = u)) as [<-|]; [by rewrite fn_lookup_insert|by rewrite fn_lookup_insert_ne].
Qed.

Lemma over_insert f st t s n : (t < n)%nat ->
  f (st t) ++ over f (<[t := s]> st) n ≡ₚ f s ++ over f st n.
Proof.
  intros Ht. unfold over. induction n as [|n IH]; [lia|].
  rewrite seq_S, !fmap_app, !concat_app. simpl. rewrite !app_nil_r.
  destruct (decide (t = n)) as [->|Hne].
  - rewrite fn_lookup_insert.
    assert (E : (fun u => f (<[n := s]> st u)) <$> seq 0 n = (fun u => f (st u)) <$> seq 0 n).
    { apply list_fmap_ext. intros j u Hu. apply list_elem_of_lookup_2, elem_of_seq in Hu.
      rewrite fn_lookup_insert_ne; [done|lia]. }
    rewrite E. solve_Permutation.
  - rewrite (fn_lookup_insert_ne _ t n) by done. rewrite !app_assoc, IH by lia. done.
Qed.

Definition thread_of (e : event) : nat :=
  match e with Call t _ | Commit t _ | Return t _ => t end.

(** Every value pushed is in the queue, or was popped, or is on its way. *)
Lemma runs_conserve h xs st n :
  runs h xs st -> Forall (fun e => thread_of e < n)%nat h ->
  omap pushed h ≡ₚ omap popped h ++ over popping st n ++ xs ++ over pushing st n.
Proof.
  intros H. induction H as [|h xs st t o H IH Ht|h xs st t o r xs' H IH Ht Hs|h xs st t r H IH Ht].
  { intros _. unfold over. simpl. induction (seq 0 n); simpl in *; [done|].
    by rewrite <- IHl at 1. }
  all: intros [Hn Hl]%Forall_app; specialize (IH Hn); rewrite Forall_singleton in Hl; simpl in Hl;
    rewrite !omap_app, IH; simpl; clear IH H Hn.
  all: pose proof (fun s => over_insert popping st t s n Hl) as Hpop;
    pose proof (fun s => over_insert pushing st t s n Hl) as Hpush;
    rewrite Ht in Hpop, Hpush; simpl in Hpop, Hpush.
  - rewrite (Hpop (Called o)), (Hpush (Called o)). simpl.
    destruct o as [v| |]; simpl; rewrite ?app_nil_r; solve_Permutation.
  - rewrite (Hpop (Committed r)). destruct o as [v| |]; [|destruct xs as [|x xs]|];
      simplify_eq/=; pose proof (fun r => Hpush (Committed r)) as Hpush'; simpl in Hpush'.
    + rewrite <- (Hpush' Pushed). solve_Permutation.
    + rewrite (Hpush' (Popped None)), app_nil_r. solve_Permutation.
    + rewrite (Hpush' (Popped (Some x))), app_nil_r. solve_Permutation.
    + rewrite (Hpush' (Emptiness _)), app_nil_r. solve_Permutation.
  - rewrite (Hpush Idle). simpl. rewrite app_nil_r. rewrite <- !app_assoc.
    rewrite <- (Hpop Idle). destruct r as [|[v|]|]; simpl; solve_Permutation.
Qed.

Lemma threads_bounded (h : list event) : exists n, Forall (fun e => thread_of e < n)%nat h.
Proof.
  induction h as [|e h [n IH]]; [by exists 0%nat|]. exists (S (thread_of e + n)).
  constructor; [lia|]. eapply Forall_impl; [done|]. simpl. lia.
Qed.

Lemma omap_visible (f : event -> option T) (h : list event) :
  (forall t r, f (Commit t r) = None) -> omap f (filter visible h) = omap f h.
Proof.
  intros Hf. induction h as [|e h IH]; [done|]. rewrite filter_cons. case_decide as Hv; csimpl.
  - by rewrite IH.
  - destruct e; [by destruct Hv|by rewrite Hf|by destruct Hv].
Qed.

Lemma over_idle f st n : (forall t, st t = Idle) -> f Idle = [] -> over f st n = [].
Proof.
  intros Hst Hf. unfold over. induction (seq 0 n) as [|t l IH]; [done|]. csimpl. by rewrite Hst, Hf, IH.
Qed.

(** No value is popped that was not pushed, and none more often than it was pushed. *)
Lemma linearizable_popped log : linearizable log -> omap popped log ⊆+ omap pushed log.
Proof.
  intros (h & xs & st & Hr & <-). destruct (threads_bounded h) as [n Hn].
  rewrite !omap_visible by done. rewrite (runs_conserve _ _ _ _ Hr Hn).
  apply submseteq_inserts_r. done.
Qed.

(** When no operation is under way, the values pushed were popped or are in the queue. *)
Lemma runs_idle h xs st : runs h xs st -> (forall t, st t = Idle) ->
  omap pushed (filter visible h) ≡ₚ omap popped (filter visible h) ++ xs.
Proof.
  intros Hr Hst. destruct (threads_bounded h) as [n Hn]. rewrite !omap_visible by done.
  rewrite (runs_conserve _ _ _ _ Hr Hn), !over_idle by done. by rewrite app_nil_l, app_nil_r.
Qed.
End Linear.

(** ** Clients

    A thread that pushes a value for each [Some] and pops for each [None], and
    records its calls and their returns; the queue does not depend on the record. *)
Section Clients.
Context {St T : Type} `{QueueOps St T}.

Definition as_op (o : option T) : op T := match o with Some v => Push v | None => TryPop end.

Definition note (e : event (T := T)) (s : St * list (event (T := T))) : St * list (event (T := T)) :=
  (s.1, s.2 ++ [e]).

Fixpoint queue_client (me : nat) (os : list (option T)) : prog (St * list (event (T := T))) () :=
  match os with
  | [] => Ret ()
  | o :: os =>
      store (note (Call me (as_op o))) ;;
      let! r := lift lens_fst (run_op (as_op o)) in
      store (note (Return me r)) ;;
      queue_client me os
  end.

Definition queue_clients (ps : list (list (option T))) : list (prog (St * list (event (T := T))) ()) :=
  imap queue_client ps.
End Clients.
