(* ===== verification/CoQueueGhost.v ===== *)
(** * The chunked queue with many threads: the invariant

    Any number of threads push and pop.  A value has its place in the queue from the
    compare-exchange on the tail index on, before it is written; it is taken by the
    compare-exchange on the head index.  The ghost state has all values that have a
    place, in order, how many were taken, and all chunks, in order.  It only grows;
    what a thread has learned about it stays true, and is part of its phase. *)

From Stdlib Require Import ZifyNat.
From S2P Require Import Prelude Machine Conc Fifo Timing Arena CoQueue CoQueueSpec Linear.

#[local] Ltac Zify.zify_post_hook ::= Z.to_euclidean_division_equations.
#[local] Arguments Nat.div : simpl never.
#[local] Arguments Nat.modulo : simpl never.

(** ** Sums over threads *)

Fixpoint total (f : nat -> nat) (n : nat) : nat :=
  match n with O => O | S n => f n + total f n end.

Lemma total_ext f f' n : (forall u, (u < n)%nat -> f' u = f u) -> total f' n = total f n.
Proof. induction n as [|n IH]; simpl; intros H; [done|]. rewrite IH, (H n) by auto. done. Qed.

Lemma total_upd f f' n t : (t < n)%nat -> (forall u, u <> t -> f' u = f u) ->
  (total f' n + f t = total f n + f' t)%nat.
Proof.
  intros Ht Hf. induction n as [|n IH]; [lia|]. simpl. destruct (decide (t = n)) as [->|Hne].
  - rewrite (total_ext f f' n); [lia|]. intros u Hu. apply Hf. lia.
  - rewrite (Hf n) by done. specialize (IH ltac:(lia)). lia.
Qed.

Section Ghost.
Context {T : Type}.

(** ** Ghost state *)

(** An index in its normal state, or the thread that moved it past the end of a
    chunk, before and after it has set the new chunk. *)
Inductive mode : Type := Norm | Last1 (u : nat) | Last2 (u : nat).

Record ghost : Type := MkGhost {
  vals : list T;           (** all values with a place, in order *)
  taken : nat;             (** how many were taken *)
  cs : list Z;             (** all chunks, in order *)
  tm : mode;               (** the tail *)
  hm : mode;               (** the head *)
  inst : option nat;       (** the thread that will set the first chunk of the head *)
  written : gset nat;      (** places whose value is written *)
}.

Abbreviation given G := (length (vals G)).

Record gle (G G' : ghost) : Prop := {
  le_vals : vals G `prefix_of` vals G';
  le_taken : (taken G <= taken G')%nat;
  le_cs : cs G `prefix_of` cs G';
  le_tm : given G = given G' -> tm G = Norm -> tm G' = Norm;
  le_hm : taken G = taken G' -> hm G = Norm -> hm G' = Norm;
  le_written : written G ⊆ written G';
  le_inst : cs G <> [] -> inst G = None -> inst G' = None;
}.

#[export] Instance gle_preorder : PreOrder gle.
Proof.
  split.
  - intros G. by split.
  - intros G1 G2 G3 [] []. split; try (by etransitivity).
    + intros E H1. apply prefix_length in le_vals0, le_vals1. apply le_tm1, le_tm0; [lia|lia|done].
    + intros E H1. apply le_hm1, le_hm0; [lia|lia|done].
    + intros E H1. apply le_inst1; [|auto]. intros E2. rewrite E2 in le_cs0. by apply prefix_nil_inv in le_cs0.
Qed.

(** Facts that stay true. *)
Definition stable (K : ghost -> Prop) : Prop := forall G G', gle G G' -> K G -> K G'.

Definition tseen (i : nat) (G : ghost) : Prop := (i < given G)%nat \/ i = given G /\ tm G = Norm.
Definition hseen (i : nat) (G : ghost) : Prop := (i < taken G)%nat \/ i = taken G /\ hm G = Norm.
Definition chunk_is (k : nat) (a : Z) (G : ghost) : Prop := cs G !! k = Some a.
Definition installed (G : ghost) : Prop := cs G <> [] /\ inst G = None.
Definition val_is (i : nat) (v : T) (G : ghost) : Prop := vals G !! i = Some v.

Lemma stable_tseen i : stable (tseen i).
Proof.
  intros G G' [] [H|[-> H]]; apply prefix_length in le_vals0; [left; lia|].
  destruct (decide (given G = given G')); [right; auto|left; lia].
Qed.

Lemma stable_hseen i : stable (hseen i).
Proof.
  intros G G' [] [H|[-> H]]; [left; lia|].
  destruct (decide (taken G = taken G')); [right; auto|left; lia].
Qed.

Lemma stable_chunk k a : stable (chunk_is k a).
Proof. intros G G' [] H. by eapply prefix_lookup_Some. Qed.

Lemma stable_installed : stable installed.
Proof.
  intros G G' [] [H1 H2]. split; [|auto]. intros E. rewrite E in le_cs0. by apply prefix_nil_inv in le_cs0.
Qed.

Lemma stable_val i v : stable (val_is i v).
Proof. intros G G' [] H. by eapply prefix_lookup_Some. Qed.

Lemma stable_written i : stable (fun G => i ∈ written G).
Proof. intros G G' [] H. set_solver. Qed.

Lemma stable_given i : stable (fun G => i < given G)%nat.
Proof. intros G G' [] H. apply prefix_length in le_vals0. lia. Qed.

Lemma stable_taken i : stable (fun G => i <= taken G)%nat.
Proof. intros G G' [] H. lia. Qed.

Lemma stable_true : stable (fun _ => True).
Proof. done. Qed.

Lemma stable_and K K' : stable K -> stable K' -> stable (fun G => K G /\ K' G).
Proof. intros H H' G1 G2 Hle [? ?]. split; eauto. Qed.

Lemma stable_or K K' : stable K -> stable K' -> stable (fun G => K G \/ K' G).
Proof. intros H H' G1 G2 Hle [?|?]; [left|right]; eauto. Qed.

Lemma stable_pure P : stable (fun _ => P).
Proof. by intros G1 G2 _. Qed.

Lemma stable_impl P K : stable K -> stable (fun G => P -> K G).
Proof. intros H G1 G2 Hle HK HP. eauto. Qed.

Lemma stable_forall {A} (K : A -> ghost -> Prop) :
  (forall a, stable (K a)) -> stable (fun G => forall a, K a G).
Proof. intros H G1 G2 Hle HK a. by eapply H. Qed.

Lemma stable_exists {A} (K : A -> ghost -> Prop) :
  (forall a, stable (K a)) -> stable (fun G => exists a, K a G).
Proof. intros H G1 G2 Hle [a HK]. exists a. by eapply H. Qed.
End Ghost.

Arguments ghost T : clear implicits.

Create HintDb stable.
#[export] Hint Resolve stable_tseen stable_hseen stable_chunk stable_installed stable_val stable_written stable_given
  stable_taken stable_true stable_and stable_or stable_pure stable_impl stable_forall stable_exists
  : stable.

(** ** The shared state *)

Section State.
Context {T : Type}.
Implicit Types (q : CoQueue T) (G : ghost T).

Abbreviation given G := (length (vals G)).

(** A slot: once the value is announced it is there, and the last slot of a chunk is
    never marked as read. *)
Definition slot_ok G (i : nat) (s : Slot T) : Prop :=
  (Z.land (state s) WRITE <> 0 -> i ∈ written G) /\
  (i ∈ written G -> exists v, vals G !! i = Some v /\ value s = Some v) /\
  ((i mod 31 = 30)%nat -> Z.land (state s) READ = 0).

(** Chunk number [k]; its link is set after the tail has moved on. *)
Definition chunk_ok G (k : nat) (c : Chunk T) : Prop :=
  length (slots c) = 31%nat /\
  (forall j s, slots c !! j = Some s -> slot_ok G (31 * k + j) s) /\
  (next c = 0 \/ chunk_is (S k) (next c) G /\ tseen (31 * S k) G).

Definition chunks_ok q G : Prop :=
  forall k a, cs G !! k = Some a -> a <> 0 /\ exists c, heap q !! a = Some c /\ chunk_ok G k c.

Definition tail_ok q G : Prop :=
  tail_chunk q = default 0 (last (cs G)) /\
  match tm G with
  | Norm => tail_index q = 2 * pos (given G) /\
      (cs G = [] /\ given G = 0%nat \/ length (cs G) = S (given G / 31))
  | m => (given G mod 31 = 0)%nat /\ given G <> 0%nat /\ tail_index q = 2 * (pos (given G) - 1) /\
      length (cs G) = match m with Last1 _ => given G / 31 | _ => S (given G / 31) end%nat
  end.

Definition head_ok q G : Prop :=
  (exists b, (b = 0 \/ b = 1) /\
     match hm G with
     | Norm => head_index q = 2 * pos (taken G) + b /\
         (b = 1 -> (taken G / 31 < given G / 31)%nat) /\ (taken G = given G -> tm G = Norm)
     | _ => (taken G mod 31 = 0)%nat /\ taken G <> 0%nat /\ head_index q = 2 * (pos (taken G) - 1) + b
     end) /\
  match inst G with
  | Some _ => cs G <> [] /\ taken G = 0%nat /\ hm G = Norm /\ head_chunk q = 0
  | None => cs G = [] /\ head_chunk q = 0 \/
      chunk_is (match hm G with Last1 _ => taken G / 31 - 1 | _ => taken G / 31 end) (head_chunk q) G
  end.

Record shape q G : Prop := {
  s_le : (taken G <= given G)%nat;
  s_tail : tail_ok q G;
  s_head : head_ok q G;
  s_nodup : NoDup (cs G);
  s_written i : i ∈ written G -> (i < given G)%nat;
  s_chunks : chunks_ok q G;
}.

(** ** Threads *)

(** What a thread is in charge of: the place in the end slot of a chunk that it has
    given or taken, or setting the first chunk of the head. *)
Inductive token : Type :=
| TNone | TTail1 (i : nat) | TTail2 (i : nat) | THead1 (i : nat) | THead2 (i : nat) | TInst.

Definition holds G (t : nat) (k : token) : Prop :=
  match k with
  | TNone => True
  | TTail1 i => tm G = Last1 t /\ given G = S i
  | TTail2 i => tm G = Last2 t /\ given G = S i
  | THead1 i => hm G = Last1 t /\ taken G = S i
  | THead2 i => hm G = Last2 t /\ taken G = S i
  | TInst => inst G = Some t
  end.

Record phase : Type := MkPhase {
  at_ : status (T := T);        (** its current operation *)
  tok : token;
  know : ghost T -> Prop;       (** what it has learned *)
  boxes : list Z;               (** chunks that it has allocated and not linked *)
  budget : nat;                 (** values that it will still push *)
}.

(** [N] threads push at most [M] values. *)
Context (N M : nat).
Implicit Types (g : nat -> phase).

Record threads q g G : Prop := {
  h_tok t k : k <> TNone -> tok (g t) = k <-> holds G t k;
  h_stable t : stable (know (g t));
  h_know t : know (g t) G;
  h_box t a : a ∈ boxes (g t) -> heap q !! a = Some Chunk_new /\ a <> 0 /\ a ∉ cs G;
  h_disj t u a : t <> u -> a ∈ boxes (g t) -> a ∉ boxes (g u);
  h_nodup t : NoDup (boxes (g t));
  h_two t : (length (boxes (g t)) <= 2)%nat;
  h_dom a : is_Some (heap q !! a) -> a ∈ cs G \/ exists t, (t < N)%nat /\ a ∈ boxes (g t);
  h_budget : (given G + total (fun t => budget (g t)) N <= M)%nat;
}.

Definition inv q g G : Prop := shape q G /\ threads q g G.

(** A thread changes its phase and the state, by growing the ghost state. *)
Lemma threads_gen q q' g G G' t c : (t < N)%nat ->
  threads q g G -> gle G G' ->
  (forall k, k <> TNone -> tok c = k <-> holds G' t k) ->
  (forall u k, u <> t -> k <> TNone -> holds G' u k <-> holds G u k) ->
  stable (know c) -> know c G' ->
  (forall u a, u <> t -> a ∈ boxes (g u) -> heap q' !! a = heap q !! a /\ a ∉ cs G') ->
  (forall a, a ∈ boxes c -> heap q' !! a = Some Chunk_new /\ a <> 0 /\ (a ∉ cs G') /\
     forall u, u <> t -> a ∉ boxes (g u)) ->
  NoDup (boxes c) -> (length (boxes c) <= 2)%nat ->
  (forall a, is_Some (heap q' !! a) -> a ∈ cs G' \/ a ∈ boxes c \/
     exists u, u <> t /\ (u < N)%nat /\ a ∈ boxes (g u)) ->
  (given G' + budget c <= given G + budget (g t))%nat ->
  threads q' (<[t := c]> g) G'.
Proof.
  intros Ht [] Hle Htok Hoth Hst Hk Hob Hbx Hnd H2 Hdom Hbud.
  assert (Hu : forall u, <[t := c]> g u = if decide (t = u) then c else g u).
  { intros u. case_decide as E; [subst; apply fn_lookup_insert|by apply fn_lookup_insert_ne]. }
  split; intros; rewrite ?Hu in *.
  - case_decide as E; [subst; auto|]. rewrite h_tok0, Hoth; [done|congruence|done|done].
  - by case_decide.
  - case_decide as E; [done|]. eapply h_stable0; [done|apply h_know0].
  - case_decide as E; [subst; destruct (Hbx a) as (? & ? & ? & _); auto|].
    destruct (Hob t0 a) as [-> ?]; [congruence|done|]. destruct (h_box0 t0 a) as (? & ? & _); auto.
  - case_decide as E; case_decide as E'; subst; try congruence.
    + destruct (Hbx a) as (_ & _ & _ & Hn); auto.
    + intros Hc. destruct (Hbx a Hc) as (_ & _ & _ & Hn). by apply (Hn t0).
    + by apply (h_disj0 t0 u a).
  - case_decide; auto.
  - case_decide; auto.
  - destruct (Hdom a) as [?|[?|(u & Hut & Hu' & Hin)]]; [done|by left|right; exists t|right; exists u].
    + rewrite Hu, decide_True by done. auto.
    + rewrite Hu, decide_False by congruence. auto.
  - pose proof (total_upd (fun t => budget (g t)) (fun u => budget (<[t := c]> g u)) N t Ht) as E.
    cbn beta in E. rewrite fn_lookup_insert in E.
    assert (Hne : forall u, u <> t -> budget (<[t := c]> g u) = budget (g u))
      by (intros u Hne; by rewrite fn_lookup_insert_ne).
    specialize (E Hne). lia.
Qed.

(** The boxes stay the same. *)
Lemma threads_same q q' g G G' t c : (t < N)%nat ->
  threads q g G -> gle G G' -> cs G' = cs G ->
  (forall a, a ∉ cs G -> heap q' !! a = heap q !! a) ->
  (forall k, k <> TNone -> tok c = k <-> holds G' t k) ->
  (forall u k, u <> t -> k <> TNone -> holds G' u k <-> holds G u k) ->
  stable (know c) -> know c G' -> boxes c = boxes (g t) ->
  (given G' + budget c <= given G + budget (g t))%nat ->
  threads q' (<[t := c]> g) G'.
Proof.
  intros Ht H Hle Hcs Hh Htok Hoth Hst Hk Hbx Hbud.
  pose proof H as []. eapply threads_gen; [done|exact H|done..| | | | | |done].
  - intros u a Hu Ha. destruct (h_box0 u a Ha) as (_ & _ & Hn). rewrite Hh, Hcs; auto.
  - rewrite Hbx. intros a Ha. destruct (h_box0 t a Ha) as (Hb & H0 & Hn). rewrite Hh, Hcs by done.
    split_and!; [done..|]. intros u Hu. by apply (h_disj0 t u a).
  - by rewrite Hbx.
  - by rewrite Hbx.
  - rewrite Hbx. intros a Ha. rewrite Hcs. destruct (decide (a ∈ cs G)) as [|Hn]; [by left|right].
    rewrite Hh in Ha by done. destruct (h_dom0 a Ha) as [|(u & Hu & Hin)]; [done|].
    destruct (decide (u = t)) as [->|]; [by left|right; eauto].
Qed.

(** *** Memory *)

Lemma slot_ok_mono G G' i s : gle G G' -> written G' = written G -> slot_ok G i s -> slot_ok G' i s.
Proof.
  intros Hle Hw (H1 & H2 & H3). split_and!; [by rewrite Hw| |done]. rewrite Hw. intros Hi.
  destruct (H2 Hi) as (v & Hv & ?). exists v. split; [|done]. by eapply stable_val.
Qed.

Lemma chunk_ok_mono G G' k c : gle G G' -> written G' = written G -> chunk_ok G k c -> chunk_ok G' k c.
Proof.
  intros Hle Hw (H1 & H2 & H3). split_and!; [done| |].
  - intros j s Hs. eapply slot_ok_mono; eauto.
  - destruct H3 as [|[H3 H4]]; [by left|right]. split; [by eapply stable_chunk|by eapply stable_tseen].
Qed.

Lemma chunks_ok_mono q q' G G' :
  gle G G' -> written G' = written G -> cs G' = cs G -> (forall a, a ∈ cs G -> heap q' !! a = heap q !! a) ->
  chunks_ok q G -> chunks_ok q' G'.
Proof.
  intros Hle Hw Hcs Hh H k a Ha. rewrite Hcs in Ha. destruct (H k a Ha) as (H0 & c & Hc & Hok).
  split; [done|]. exists c. rewrite Hh by (by eapply list_elem_of_lookup_2). split; [done|].
  by eapply chunk_ok_mono.
Qed.

(** A new chunk has nothing in it. *)
Lemma chunk_new_ok G k : (forall i, i ∈ written G -> i < 31 * k)%nat -> chunk_ok G k Chunk_new.
Proof.
  intros Hw. split_and!; [done| |by left]. intros j s [-> Hj]%lookup_replicate.
  split_and!; simpl; [by rewrite Z.land_0_l|intros Hi%Hw; lia|done].
Qed.

(** The chunks after one more was added. *)
Lemma chunks_ok_add q q' G G' a :
  gle G G' -> written G' = written G -> cs G' = cs G ++ [a] -> (forall a, a ∈ cs G -> heap q' !! a = heap q !! a) ->
  heap q' !! a = Some Chunk_new -> a <> 0 -> (forall i, i ∈ written G -> i < 31 * length (cs G))%nat ->
  chunks_ok q G -> chunks_ok q' G'.
Proof.
  intros Hle Hw Hcs Hh Ha H0 Hwr H k b Hb. rewrite Hcs in Hb.
  apply lookup_app_Some in Hb as [Hb|[Hk Hb]].
  - destruct (H k b Hb) as (Hb0 & c & Hc & Hok). split; [done|]. exists c.
    rewrite Hh by (by eapply list_elem_of_lookup_2). split; [done|]. by eapply chunk_ok_mono.
  - apply list_lookup_singleton_Some in Hb as [E ->]. split; [done|]. exists Chunk_new.
    split; [done|]. apply chunk_new_ok. rewrite Hw. intros i Hi. specialize (Hwr i Hi). lia.
Qed.

(** One slot is changed. *)
Lemma chunks_ok_slot q G G' k a c j s s' :
  chunks_ok q G -> NoDup (cs G) -> gle G G' -> cs G' = cs G -> cs G !! k = Some a ->
  heap q !! a = Some c -> slots c !! j = Some s ->
  (forall i s, i <> (31 * k + j)%nat -> slot_ok G i s -> slot_ok G' i s) ->
  (slot_ok G (31 * k + j) s -> slot_ok G' (31 * k + j) s') ->
  chunks_ok (set_heap (<[a := MkChunk (next c) (<[j := s']> (slots c))]> (heap q)) q) G'.
Proof.
  intros H Hnd Hle Hcs Hk Hc Hs Hoth Hme k' b Hb. rewrite Hcs in Hb.
  destruct (H k' b Hb) as (Hb0 & c' & Hc' & Hl & Hsl & Hn). split; [done|].
  assert (Hj : (j < 31)%nat).
  { destruct (H k a Hk) as (_ & c0 & Hc0 & Hl0 & _). rewrite Hc in Hc0. injection Hc0 as <-.
    apply lookup_lt_Some in Hs. lia. }
  assert (Hn' : next c' = 0 \/ chunk_is (S k') (next c') G' /\ tseen (31 * S k') G').
  { destruct Hn as [|[Hn1 Hn2]]; [by left|right]. split; [by eapply stable_chunk|by eapply stable_tseen]. }
  destruct (decide (a = b)) as [<-|Hne].
  - assert (k' = k) as -> by (by eapply NoDup_lookup). rewrite Hc in Hc'. injection Hc' as <-.
    eexists. split; [apply lookup_insert_eq|]. split_and!; [simpl; by rewrite length_insert| |done].
    simpl. intros j' s0 Hs0. destruct (decide (j = j')) as [<-|Hj'].
    + rewrite list_lookup_insert_eq in Hs0 by lia. injection Hs0 as <-. auto.
    + rewrite list_lookup_insert_ne in Hs0 by done. apply Hoth; [lia|auto].
  - exists c'. simpl. rewrite lookup_insert_ne by done. split; [done|]. split_and!; [done| |done].
    intros j' s0 Hs0. apply Hoth; [|auto]. assert (k' <> k) by (intros ->; congruence).
    apply lookup_lt_Some in Hs0. lia.
Qed.
End State.
