(* ===== verification/CoQueueSteps.v ===== *)
(** * The chunked queue with many threads: the steps

    One lemma per kind of atomic access shows that it preserves the invariant of
    [CoQueueGhost], with what the thread knows and has before and after it. *)

From Stdlib Require Import ZifyNat.
From S2P Require Import Prelude Machine Conc Fifo Timing Arena CoQueue CoQueueSpec Linear CoQueueGhost.

#[local] Ltac Zify.zify_post_hook ::= Z.to_euclidean_division_equations.
#[local] Arguments Nat.div : simpl never.
#[local] Arguments Nat.modulo : simpl never.
#[local] Arguments Nat.mul : simpl never.

Section Ghosts.
Context {T : Type}.
Implicit Types (G : ghost T).

Definition add_val v m G := MkGhost (vals G ++ [v]) (taken G) (cs G) m (hm G) (inst G) (written G).
Definition take_one m G := MkGhost (vals G) (S (taken G)) (cs G) (tm G) m (inst G) (written G).
Definition add_chunk a m o G := MkGhost (vals G) (taken G) (cs G ++ [a]) m (hm G) o (written G).
Definition set_tm m G := MkGhost (vals G) (taken G) (cs G) m (hm G) (inst G) (written G).
Definition set_hm m G := MkGhost (vals G) (taken G) (cs G) (tm G) m (inst G) (written G).
Definition set_inst o G := MkGhost (vals G) (taken G) (cs G) (tm G) (hm G) o (written G).
Definition add_written i G :=
  MkGhost (vals G) (taken G) (cs G) (tm G) (hm G) (inst G) ({[i]} ∪ written G).

Lemma gle_add_val v m G : gle G (add_val v m G).
Proof. split; simpl; try done; [by eexists|rewrite length_app; simpl; lia]. Qed.
Lemma gle_take_one m G : gle G (take_one m G).
Proof. split; simpl; try done; lia. Qed.
Lemma gle_add_chunk a m o G :
  (tm G = Norm -> m = Norm) -> (cs G <> [] -> inst G = None -> o = None) -> gle G (add_chunk a m o G).
Proof. intros Hm Ho. split; simpl; try done; try (by eexists); auto. Qed.
Lemma gle_set_tm m G : (tm G = Norm -> m = Norm) -> gle G (set_tm m G).
Proof. intros Hm. split; simpl; try done; auto. Qed.
Lemma gle_set_hm m G : (hm G = Norm -> m = Norm) -> gle G (set_hm m G).
Proof. intros Hm. split; simpl; try done; auto. Qed.
Lemma gle_set_inst G : gle G (set_inst None G).
Proof. split; simpl; done. Qed.
Lemma gle_add_written i G : gle G (add_written i G).
Proof. split; simpl; try done; set_solver. Qed.
End Ghosts.

Section Steps.
Context {T : Type} (N M : nat).
Implicit Types (q : CoQueue T) (G : ghost T) (g : nat -> phase (T := T)).
Abbreviation given G := (length (vals G)).
Abbreviation inv := (inv N M).

Section Thread.
Context (t : nat) (Ht : (t < N)%nat).

(** What a thread is in charge of after a step. *)
Ltac toks H Hg :=
  let Hk := fresh "Hk" in
  pose proof (h_tok _ _ _ _ _ H t) as Hk; rewrite Hg in Hk;
  let k := fresh "k" in let Hn := fresh "Hn" in
  intros k Hn; specialize (Hk k Hn); destruct k; simpl in *; intuition congruence.
Ltac others :=
  let u := fresh "u" in let k := fresh "k" in
  intros u k ? ?; destruct k; simpl in *; intuition congruence.

(** Learning something. *)
Lemma step_know q g G s k K K' bx bd :
  inv q g G -> g t = MkPhase s k K bx bd -> stable K' -> K' G -> forall s',
  inv q (<[t := MkPhase s' k K' bx bd]> g) G.
Proof.
  intros [Hs H] Hg Hst HK s'. split; [done|].
  eapply threads_same; [done|exact H|reflexivity|done|done| | |done|done|by rewrite Hg|by rewrite Hg].
  - toks H Hg.
  - done.
Qed.

(** Allocating a chunk, and freeing one. *)
Lemma step_alloc q g G s k K bx bd a :
  inv q g G -> g t = MkPhase s k K bx bd -> heap q !! a = None -> a <> 0 -> (length bx <= 1)%nat ->
  inv (set_heap (<[a := Chunk_new]> (heap q)) q) (<[t := MkPhase s k K (a :: bx) bd]> g) G.
Proof.
  intros [Hs H] Hg Ha H0 Hl. pose proof H as [].
  assert (Hcs : a ∉ cs G).
  { intros Hin. apply list_elem_of_lookup in Hin as [j Hj].
    destruct (s_chunks _ _ Hs j a Hj) as (_ & c & Hc & _). congruence. }
  assert (Hbx : forall u, a ∉ boxes (g u)).
  { intros u Hin. destruct (h_box u a Hin) as [Hb _]. congruence. }
  split.
  - destruct Hs. split; try done. eapply chunks_ok_mono; [reflexivity|done|done| |done].
    intros b Hb. apply lookup_insert_ne. by intros ->.
  - eapply threads_gen; [done|exact H|reflexivity|toks H Hg|done|..]; simpl.
    + specialize (h_stable t). by rewrite Hg in h_stable.
    + specialize (h_know t). by rewrite Hg in h_know.
    + intros u b Hu Hb. rewrite lookup_insert_ne by (intros ->; by apply (Hbx u)).
      split; [done|]. by apply (h_box u).
    + intros b [->|Hb]%elem_of_cons.
      * rewrite lookup_insert_eq. auto.
      * assert (Hb' : b ∈ boxes (g t)) by (by rewrite Hg). destruct (h_box t b Hb') as (Hc & Hb0 & Hn).
        rewrite lookup_insert_ne by (intros ->; by apply (Hbx t)). split_and!; [done..|].
        intros u Hu. by apply (h_disj t u b).
    + apply NoDup_cons. specialize (h_nodup t). specialize (Hbx t). rewrite Hg in *. done.
    + lia.
    + intros b Hb. destruct (decide (a = b)) as [<-|Hne]; [right; left; set_solver|].
      rewrite lookup_insert_ne in Hb by done. destruct (h_dom b Hb) as [|(u & Hu & Hin)]; [by left|right].
      destruct (decide (u = t)) as [->|]; [left; rewrite Hg in Hin; set_solver|right; eauto].
    + by rewrite Hg.
Qed.

(** The boxes of a thread without [a]. *)
Lemma boxes_without q g G s k K bx bx' bd a :
  threads N M q g G -> g t = MkPhase s k K bx bd -> bx ≡ₚ a :: bx' ->
  heap q !! a = Some Chunk_new /\ a <> 0 /\ (a ∉ cs G) /\ (a ∉ bx') /\ NoDup bx' /\
  (length bx' <= 2)%nat /\ (forall u, u <> t -> a ∉ boxes (g u)) /\
  forall b, b ∈ bx' -> heap q !! b = Some Chunk_new /\ b <> 0 /\ (b ∉ cs G) /\ b <> a /\
    forall u, u <> t -> b ∉ boxes (g u).
Proof.
  intros [] Hg Hp. assert (Hbx : boxes (g t) ≡ₚ a :: bx') by (by rewrite Hg).
  assert (Hin : a ∈ boxes (g t)) by (rewrite Hbx; set_solver).
  destruct (h_box t a Hin) as (Ha & H0 & Hn). pose proof (h_nodup t) as Hnd. rewrite Hbx in Hnd.
  apply NoDup_cons in Hnd as [Hna Hnd]. pose proof (h_two t) as Hl. rewrite Hbx in Hl. simpl in Hl.
  split_and!; [done..|lia| |].
  - intros u Hu. by apply (h_disj t u a).
  - intros b Hb. assert (Hin' : b ∈ boxes (g t)) by (rewrite Hbx; set_solver).
    destruct (h_box t b Hin') as (? & ? & ?). split_and!; [done..|by intros ->|].
    intros u Hu. by apply (h_disj t u b).
Qed.

Lemma step_free q g G s k K bx bx' bd a :
  inv q g G -> g t = MkPhase s k K bx bd -> bx ≡ₚ a :: bx' ->
  heap q !! a = Some Chunk_new /\
  inv (set_heap (delete a (heap q)) q) (<[t := MkPhase s k K bx' bd]> g) G.
Proof.
  intros [Hs H] Hg Hp.
  destruct (boxes_without _ _ _ _ _ _ _ _ _ _ H Hg Hp) as (Ha & H0 & Hcs & Hna & Hnd & H2 & Hu & Hb).
  split; [done|]. pose proof H as []. split.
  - destruct Hs. split; try done. eapply chunks_ok_mono; [reflexivity|done|done| |done].
    intros b Hin. apply lookup_delete_ne. by intros ->.
  - eapply threads_gen; [done|exact H|reflexivity|toks H Hg|done|..]; simpl.
    + specialize (h_stable t). by rewrite Hg in h_stable.
    + specialize (h_know t). by rewrite Hg in h_know.
    + intros u b Hne Hin. rewrite lookup_delete_ne by (intros ->; by apply (Hu u)).
      split; [done|]. by apply (h_box u).
    + intros b Hin. destruct (Hb b Hin) as (? & ? & ? & ? & ?). by rewrite lookup_delete_ne.
    + done.
    + done.
    + intros b Hin. destruct (decide (a = b)) as [<-|Hne]; [by rewrite lookup_delete_eq in Hin; destruct Hin|].
      rewrite lookup_delete_ne in Hin by done. destruct (h_dom b Hin) as [|(u & Hu' & Hbu)]; [by left|right].
      destruct (decide (u = t)) as [->|]; [left|right; eauto]. rewrite Hg in Hbu. simpl in Hbu.
      rewrite Hp in Hbu. set_solver.
    + by rewrite Hg.
Qed.

(** Linking a chunk. *)
Lemma threads_link q q' g G G' s k K bx s' k' K' bx' bd a :
  threads N M q g G -> g t = MkPhase s k K bx bd -> bx ≡ₚ a :: bx' ->
  gle G G' -> cs G' = cs G ++ [a] -> given G' = given G -> heap q' = heap q ->
  (forall j, j <> TNone -> k' = j <-> holds G' t j) ->
  (forall u j, u <> t -> j <> TNone -> holds G' u j <-> holds G u j) ->
  stable K' -> K' G' ->
  threads N M q' (<[t := MkPhase s' k' K' bx' bd]> g) G'.
Proof.
  intros H Hg Hp Hle Hcs Hgv Hh Htok Hoth Hst HK.
  destruct (boxes_without _ _ _ _ _ _ _ _ _ _ H Hg Hp) as (Ha & H0 & Hna & Hnb & Hnd & H2 & Hu & Hb).
  pose proof H as []. eapply threads_gen; [done|exact H|done|done|done|done|done|..]; simpl.
  - intros u b Hne Hin. rewrite Hh, Hcs. split; [done|]. destruct (h_box u b Hin) as (_ & _ & Hc).
    rewrite not_elem_of_app, list_elem_of_singleton. split; [done|]. intros ->. by apply (Hu u).
  - intros b Hin. rewrite Hh, Hcs. destruct (Hb b Hin) as (? & ? & ? & ? & ?).
    rewrite not_elem_of_app, list_elem_of_singleton. auto.
  - done.
  - done.
  - intros b Hin. rewrite Hh in Hin. rewrite Hcs. destruct (h_dom b Hin) as [|(u & Hu' & Hbu)];
      [left; set_solver|]. destruct (decide (u = t)) as [->|]; [|right; right; eauto].
    rewrite Hg in Hbu. simpl in Hbu. rewrite Hp in Hbu. set_solver.
  - by rewrite Hg, Hgv.
Qed.

(** The chunks are not null. *)
Lemma last_zero q G : shape q G -> default 0 (last (cs G)) = 0 -> cs G = [].
Proof.
  clear t Ht.
  intros Hs E. destruct (last (cs G)) as [a|] eqn:Hl; [|by apply last_None].
  simpl in E. subst a. rewrite last_lookup in Hl.
  by destruct (s_chunks _ _ Hs _ _ Hl) as [[] _].
Qed.

(** The first chunk: linked to the tail, then to the head. *)
Lemma step_first q g G s K K' bx bx' bd a :
  inv q g G -> g t = MkPhase s TNone K bx bd -> bx ≡ₚ a :: bx' -> tail_chunk q = 0 ->
  stable K' -> (given G = 0%nat -> K G -> cs G = [] -> K' (add_chunk a Norm (Some t) G)) ->
  inv (set_tail_chunk a q) (<[t := MkPhase s TInst K' bx' bd]> g) (add_chunk a Norm (Some t) G).
Proof.
  intros [Hs H] Hg Hp Htc Hst HK. pose proof Hs as [Hle [Htl Htm] [Hhd Hin] Hnd Hwr Hch].
  rewrite Htc in Htl. symmetry in Htl. apply (last_zero q) in Htl; [|done].
  destruct (boxes_without _ _ _ _ _ _ _ _ _ _ H Hg Hp) as (Ha & H0 & _).
  assert (Hnorm : tm G = Norm /\ given G = 0%nat).
  { rewrite Htl in Htm. simpl in Htm. destruct (tm G); [split; [done|]|..]; 
      destruct Htm as (? & ?); [naive_solver|lia|lia]. }
  destruct Hnorm as [Hn Hg0]. rewrite Hn in Htm. destruct Htm as [Hti _].
  assert (Hi : inst G = None /\ head_chunk q = 0).
  { destruct (inst G); [by destruct Hin as [[] _]|]. split; [done|].
    destruct Hin as [[_ ?]|Hin]; [done|]. unfold chunk_is in Hin. by rewrite Htl in Hin. }
  destruct Hi as [Hi Hhc].
  assert (Hgle : gle G (add_chunk a Norm (Some t) G)) by (apply gle_add_chunk; [done|by rewrite Htl]).
  split.
  - split; simpl; try done.
    + split; simpl; [by rewrite last_snoc|]. split; [done|]. right. rewrite Htl, Hg0. done.
    + destruct Hhd as (b & Hb & Hhd). split.
      { exists b. split; [done|]. simpl. destruct (hm G); naive_solver. }
      simpl. assert (taken G = 0%nat) by lia.
      split_and!; [by destruct (cs G)|done| |done]. destruct (hm G); [done|lia|lia].
    + rewrite Htl. apply NoDup_singleton.
    + eapply (chunks_ok_add q); [exact Hgle|done|done|done|done|done| |done].
      intros i Hi'%Hwr. lia.
  - assert (HKG : K G) by (pose proof (h_know _ _ _ _ _ H t) as HKG; by rewrite Hg in HKG).
    eapply threads_link; [exact H|done..| | |done|auto].
    + toks H Hg.
    + others.
Qed.

Lemma step_install q g G s K K' bx bd a :
  inv q g G -> g t = MkPhase s TInst K bx bd -> chunk_is 0 a G ->
  stable K' -> K' (set_inst None G) ->
  inv (set_head_chunk a q) (<[t := MkPhase s TNone K' bx bd]> g) (set_inst None G).
Proof.
  intros [Hs H] Hg Ha Hst HK. pose proof Hs as [Hle Htl [Hhd Hin] Hnd Hwr Hch].
  assert (Hi : inst G = Some t) by (apply (h_tok _ _ _ _ _ H t TInst); [done|by rewrite Hg]).
  rewrite Hi in Hin. destruct Hin as (Hcs & Htk & Hhm & Hhc). split.
  - split; try done.
    split; [done|]. simpl. right. rewrite Hhm, Htk. done.
  - eapply threads_same; [done|exact H|apply gle_set_inst|done|done| | |done|done|by rewrite Hg|by rewrite Hg].
    + toks H Hg.
    + others.
Qed.

(** Giving a value its place. *)
Lemma tail_normal q G i : shape q G -> tail_index q = 2 * pos i -> tm G = Norm /\ given G = i.
Proof.
  clear t Ht.
  intros [_ [_ Htm] _ _ _ _] E. destruct (tm G).
  - split; [done|]. apply pos_inj. lia.
  - exfalso. unfold pos in *. lia.
  - exfalso. unfold pos in *. lia.
Qed.

Lemma head_after q q' G G' : head_ok q G -> head_index q' = head_index q -> head_chunk q' = head_chunk q ->
  taken G' = taken G -> hm G' = hm G -> inst G' = inst G -> (given G <= given G')%nat ->
  (cs G `prefix_of` cs G') -> (hm G = Norm -> taken G = given G' -> tm G' = Norm) ->
  (cs G = [] -> cs G' = []) -> head_ok q' G'.
Proof.
  clear t Ht.
  intros [(b & Hb & Hhd) Hin] E1 E2 E3 E4 E5 Hgv Hcs Hm Hnil. split.
  - exists b. split; [done|]. rewrite E1, E3, E4. destruct (hm G); [|done|done].
    destruct Hhd as (? & Hb1 & _). split_and!; [done| |auto]. intros Hb'. specialize (Hb1 Hb').
    assert (given G / 31 <= given G' / 31)%nat by (apply Nat.Div0.div_le_mono; lia). lia.
  - rewrite E5, E2, E3, E4. destruct (inst G).
    + destruct Hin as (Hne & ? & ? & ?). split_and!; [|done..]. intros E. rewrite E in Hcs.
      by apply prefix_nil_inv in Hcs.
    + destruct Hin as [[? ?]|Hin]; [left; auto|right]. unfold chunk_is in *.
      by eapply prefix_lookup_Some.
Qed.

Lemma step_give q g G s s' K K' bx bd i v :
  inv q g G -> g t = MkPhase s TNone K bx (S bd) -> tail_index q = 2 * pos i -> (i mod 31 <> 30)%nat ->
  cs G <> [] -> stable K' -> (given G = i -> K' (add_val v Norm G)) ->
  inv (set_tail_index (2 * (pos i + 1)) q) (<[t := MkPhase s' TNone K' bx bd]> g) (add_val v Norm G).
Proof.
  intros [Hs H] Hg Hti Hi Hcs Hst HK. destruct (tail_normal _ _ _ Hs Hti) as [Hn Hgi].
  pose proof Hs as [Hle [Htl Htm] Hhd Hnd Hwr Hch]. rewrite Hn in Htm. destruct Htm as [_ Htm].
  split.
  - split; simpl; try done.
    + rewrite length_app. lia.
    + split; [done|]. simpl. rewrite length_app, Hgi, Nat.add_1_r. rewrite (pos_next i) by done.
      split; [done|]. right. destruct Htm as [[? _]|Htm]; [done|]. rewrite Htm, Hgi. f_equal. lia.
    + eapply head_after; [exact Hhd|done..| |done|done|done]. simpl. rewrite length_app. lia.
    + intros j Hj%Hwr. rewrite length_app. lia.
    + eapply chunks_ok_mono; [apply gle_add_val|done..].
  - eapply threads_same; [done|exact H|apply gle_add_val|done|done| | |done|simpl; auto|by rewrite Hg|].
    + toks H Hg.
    + others.
    + rewrite Hg. simpl. rewrite length_app. simpl. lia.
Qed.

Lemma step_give_last q g G s s' K K' bx bd i v :
  inv q g G -> g t = MkPhase s TNone K bx (S bd) -> tail_index q = 2 * pos i -> (i mod 31 = 30)%nat ->
  cs G <> [] -> stable K' -> (given G = i -> K' (add_val v (Last1 t) G)) ->
  inv (set_tail_index (2 * (pos i + 1)) q) (<[t := MkPhase s' (TTail1 i) K' bx bd]> g)
    (add_val v (Last1 t) G).
Proof.
  intros [Hs H] Hg Hti Hi Hcs Hst HK. destruct (tail_normal _ _ _ Hs Hti) as [Hn Hgi].
  pose proof Hs as [Hle [Htl Htm] Hhd Hnd Hwr Hch]. rewrite Hn in Htm. destruct Htm as [_ Htm].
  destruct Htm as [[? _]|Htm]; [done|].
  assert (Hlen : given (add_val v (Last1 t) G) = S i) by (simpl; rewrite length_app; simpl; lia).
  split.
  - split; try done.
    + rewrite Hlen. simpl. lia.
    + split; [done|]. rewrite Hlen. simpl. rewrite (pos_next_lap i), Htm, Hgi by done.
      split_and!; [lia|lia|change (2 * (pos i + 1) = 2 * (pos i + 2 - 1)); lia|lia].
    + eapply head_after; [exact Hhd|done..| |done| |done]; [lia|]. intros _ E. rewrite Hlen in E. lia.
    + intros j Hj%Hwr. lia.
    + eapply chunks_ok_mono; [apply gle_add_val|done..].
  - eapply threads_same; [done|exact H|apply gle_add_val|done|done| | |done|simpl; auto|by rewrite Hg|].
    + pose proof (h_tok _ _ _ _ _ H t) as Hk. rewrite Hg in Hk. intros k Hnk. specialize (Hk k Hnk).
      destruct k; simpl in *; rewrite ?length_app, ?Hgi; simpl; split; intros; simplify_eq; try (intuition congruence).
      * split; [done|lia].
      * f_equal. lia.
    + others.
    + rewrite Hg, Hlen. simpl. lia.
Qed.

(** The thread that filled a chunk: it links the next one to the tail, and moves the
    tail on. *)
Lemma step_link q g G s K K' bx bx' bd i a :
  inv q g G -> g t = MkPhase s (TTail1 i) K bx bd -> bx ≡ₚ a :: bx' ->
  stable K' -> (length (cs G) = S (i / 31) -> K' (add_chunk a (Last2 t) (inst G) G)) ->
  inv (set_tail_chunk a q) (<[t := MkPhase s (TTail2 i) K' bx' bd]> g) (add_chunk a (Last2 t) (inst G) G).
Proof.
  intros [Hs H] Hg Hp Hst HK.
  assert (Htok : tm G = Last1 t /\ given G = S i)
    by (apply (h_tok _ _ _ _ _ H t (TTail1 i)); [done|by rewrite Hg]).
  destruct Htok as [Hm Hgi]. pose proof Hs as [Hle [Htl Htm] Hhd Hnd Hwr Hch].
  rewrite Hm in Htm. destruct Htm as (Hmod & _ & Hti & Hlen).
  destruct (boxes_without _ _ _ _ _ _ _ _ _ _ H Hg Hp) as (Ha & H0 & Hna & _).
  assert (Hgle : gle G (add_chunk a (Last2 t) (inst G) G)) by (apply gle_add_chunk; [by rewrite Hm|done]).
  split.
  - split; try done.
    + split; [simpl; by rewrite last_snoc|]. simpl. split_and!; [done|lia|done|].
      rewrite length_app, Hlen. simpl. lia.
    + eapply head_after; [exact Hhd|done..|by eexists| |].
      * intros Hh E. destruct Hhd as [(b & _ & Hhd) _]. rewrite Hh in Hhd. simpl in E.
        destruct Hhd as (_ & _ & Hx). specialize (Hx E). congruence.
      * intros E. rewrite E in Hlen. simpl in Hlen. lia.
    + simpl. apply NoDup_app. split_and!; [done|set_solver|apply NoDup_singleton].
    + eapply (chunks_ok_add q); [exact Hgle|done..| |done]. intros j Hj%Hwr. lia.
  - eapply threads_link; [exact H|done..| | |done|apply HK; lia].
    + toks H Hg.
    + others.
Qed.

Lemma step_tail_next q g G s K K' bx bd i :
  inv q g G -> g t = MkPhase s (TTail2 i) K bx bd -> stable K' -> K' (set_tm Norm G) ->
  inv (set_tail_index (2 * pos (S i)) q) (<[t := MkPhase s TNone K' bx bd]> g) (set_tm Norm G).
Proof.
  intros [Hs H] Hg Hst HK.
  assert (Htok : tm G = Last2 t /\ given G = S i)
    by (apply (h_tok _ _ _ _ _ H t (TTail2 i)); [done|by rewrite Hg]).
  destruct Htok as [Hm Hgi]. pose proof Hs as [Hle [Htl Htm] Hhd Hnd Hwr Hch].
  rewrite Hm in Htm. destruct Htm as (Hmod & _ & Hti & Hlen).
  assert (Hgle : gle G (set_tm Norm G)) by (by apply gle_set_tm). split.
  - split; try done.
    + split; [done|]. simpl. rewrite Hgi. split; [done|]. right. by rewrite Hlen, Hgi.
    + by eapply head_after.
    + by eapply chunks_ok_mono.
  - eapply threads_same; [done|exact H|done|done|done| | |done|done|by rewrite Hg|by rewrite Hg].
    + toks H Hg.
    + others.
Qed.

(** Linking a chunk to the one before it. *)
Lemma step_link_next q g G s k K bx bd j a b :
  inv q g G -> g t = MkPhase s k K bx bd -> chunk_is j a G -> chunk_is (S j) b G -> tseen (31 * S j) G ->
  exists c, heap q !! a = Some c /\
    inv (set_heap (<[a := MkChunk b (slots c)]> (heap q)) q) (<[t := MkPhase s k K bx bd]> g) G.
Proof.
  intros [Hs H] Hg Ha Hb Hse. pose proof Hs as [Hle Htl Hhd Hnd Hwr Hch].
  destruct (Hch j a Ha) as (Ha0 & c & Hc & Hok). exists c. split; [done|]. split.
  - split; try done. intros j' a' Ha'. destruct (Hch j' a' Ha') as (Ha0' & c' & Hc' & Hok').
    split; [done|]. simpl. destruct (decide (a = a')) as [<-|Hne].
    + assert (j' = j) as -> by (by eapply NoDup_lookup). eexists. split; [apply lookup_insert_eq|].
      destruct Hok as (? & ? & _). split_and!; [done|done|]. right. done.
    + exists c'. by rewrite lookup_insert_ne.
  - pose proof H as [].
    eapply threads_same; [done|exact H|reflexivity|done| |toks H Hg|done| | |by rewrite Hg|by rewrite Hg].
    + intros b' Hb'. simpl. apply lookup_insert_ne. intros <-. apply Hb'. by eapply list_elem_of_lookup_2.
    + specialize (h_stable t). by rewrite Hg in h_stable.
    + specialize (h_know t). by rewrite Hg in h_know.
Qed.

(** A slot: the place [i] in its chunk. *)
Lemma slot_there q G i a : shape q G -> chunk_is (i / 31) a G ->
  exists c s, heap q !! a = Some c /\ slots c !! (i mod 31)%nat = Some s /\ slot_ok G i s.
Proof.
  clear t Ht.
  intros Hs Ha. destruct (s_chunks _ _ Hs _ _ Ha) as (_ & c & Hc & Hl & Hsl & _).
  destruct (lookup_lt_is_Some_2 (slots c) (i mod 31)) as [s Hj]; [lia|]. exists c, s. split_and!; [done..|].
  replace i with (31 * (i / 31) + i mod 31)%nat by lia. replace ((31 * (i / 31) + i mod 31) / 31)%nat with (i / 31)%nat in * by lia.
  apply Hsl. done.
Qed.

Lemma step_slot q g G G' s k K K' bx bd i a c sl sl' :
  inv q g G -> g t = MkPhase s k K bx bd -> chunk_is (i / 31) a G -> heap q !! a = Some c ->
  slots c !! (i mod 31)%nat = Some sl ->
  G' = G \/ G' = add_written i G /\ (i < given G)%nat ->
  (forall j s, j <> i -> slot_ok G j s -> slot_ok G' j s) -> (slot_ok G i sl -> slot_ok G' i sl') ->
  stable K' -> K' G' ->
  inv (set_heap (<[a := MkChunk (next c) (<[(i mod 31)%nat := sl']> (slots c))]> (heap q)) q)
    (<[t := MkPhase s k K' bx bd]> g) G'.
Proof.
  intros [Hs H] Hg Ha Hc Hsl HG Hoth Hme Hst HK. pose proof Hs as [Hle Htl Hhd Hnd Hwr Hch].
  assert (Hgle : gle G G') by (destruct HG as [->|[-> _]]; [done|apply gle_add_written]).
  assert (Hcs : cs G' = cs G) by (by destruct HG as [->|[-> _]]).
  assert (Hi : (31 * (i / 31) + i mod 31)%nat = i) by lia. split.
  - assert (Hch' : chunks_ok (set_heap (<[a := MkChunk (next c)
      (<[(i mod 31)%nat := sl']> (slots c))]> (heap q)) q) G').
    { eapply (chunks_ok_slot q G G' (i / 31)); [done..| |]; rewrite Hi; done. }
    destruct HG as [->|[-> Hlt]]; split; try done. simpl. set_solver.
  - eapply threads_same; [done|exact H|done|done| | | |done|done|by rewrite Hg|].
    + intros b' Hb'. simpl. apply lookup_insert_ne. intros <-. apply Hb'. by eapply list_elem_of_lookup_2.
    + destruct HG as [->|[-> _]]; toks H Hg.
    + by destruct HG as [->|[-> _]].
    + rewrite Hg. by destruct HG as [->|[-> _]].
Qed.

(** Taking a value. *)
Lemma head_normal q G i b : shape q G -> head_index q = 2 * pos i + b -> b = 0 \/ b = 1 ->
  hm G = Norm /\ taken G = i /\ (b = 1 -> (i / 31 < given G / 31)%nat).
Proof.
  clear t Ht.
  intros [_ _ [(b' & Hb' & Hhd) _] _ _ _] E Hb. destruct (hm G).
  - destruct Hhd as (E' & Hb1 & _). assert (Hi : taken G = i) by (apply pos_inj; lia).
    split_and!; [done|done|]. rewrite <- Hi. intros ->. apply Hb1. lia.
  - exfalso. unfold pos in *. lia.
  - exfalso. unfold pos in *. lia.
Qed.

Lemma step_take q g G s s' K K' bx bd i b :
  inv q g G -> g t = MkPhase s TNone K bx bd -> taken G = i -> hm G = Norm -> (i mod 31 <> 30)%nat ->
  (i < given G)%nat -> b = 0 \/ b = 1 /\ (i / 31 < given G / 31)%nat -> installed G ->
  stable K' -> K' (take_one Norm G) ->
  inv (set_head_index (2 * (pos i + 1) + b) q) (<[t := MkPhase s' TNone K' bx bd]> g) (take_one Norm G).
Proof.
  intros [Hs H] Hg Hti Hn Hi Hlt Hb [Hcs Hin] Hst HK.
  pose proof Hs as [Hle Htl [_ Hhc] Hnd Hwr Hch]. rewrite Hin, Hn in Hhc. 
  destruct Hhc as [[? _]|Hhc]; [done|]. split.
  - split; try done; [simpl; lia|]. split; simpl.
    + exists b. rewrite Hti. split; [lia|]. rewrite pos_next by done. split_and!; [done|lia|].
      intros E. destruct Htl as [_ Htl]. destruct (tm G); [done|lia|lia].
    + rewrite Hin. right. rewrite Hti in *. replace (S i / 31)%nat with (i / 31)%nat by lia. done.
  - eapply threads_same; [done|exact H|apply gle_take_one|done|done| | |done|done|by rewrite Hg|by rewrite Hg].
    + toks H Hg.
    + others.
Qed.

Lemma step_take_last q g G s s' K K' bx bd i b :
  inv q g G -> g t = MkPhase s TNone K bx bd -> taken G = i -> hm G = Norm -> (i mod 31 = 30)%nat ->
  (i < given G)%nat -> b = 0 \/ b = 1 -> installed G ->
  stable K' -> K' (take_one (Last1 t) G) ->
  inv (set_head_index (2 * (pos i + 1) + b) q) (<[t := MkPhase s' (THead1 i) K' bx bd]> g)
    (take_one (Last1 t) G).
Proof.
  intros [Hs H] Hg Hti Hn Hi Hlt Hb [Hcs Hin] Hst HK.
  pose proof Hs as [Hle Htl [_ Hhc] Hnd Hwr Hch]. rewrite Hin, Hn in Hhc. 
  destruct Hhc as [[? _]|Hhc]; [done|]. split.
  - split; try done; [simpl; lia|]. split; simpl.
    + exists b. rewrite Hti. split; [lia|]. rewrite pos_next_lap by done.
      split_and!; [lia|lia|]. change (2 * (pos i + 1) + b = 2 * (pos i + 2 - 1) + b). lia.
    + rewrite Hin. right. rewrite Hti in *. replace (S i / 31 - 1)%nat with (i / 31)%nat by lia. done.
  - eapply threads_same; [done|exact H|apply gle_take_one|done|done| | |done|done|by rewrite Hg|by rewrite Hg].
    + toks H Hg.
    + others.
Qed.

(** The thread that took the last value of a chunk moves the head to the next one. *)
Lemma step_head_chunk q g G s K bx bd i a :
  inv q g G -> g t = MkPhase s (THead1 i) K bx bd -> chunk_is (S (i / 31)) a G ->
  inv (set_head_chunk a q) (<[t := MkPhase s (THead2 i) K bx bd]> g) (set_hm (Last2 t) G).
Proof.
  intros [Hs H] Hg Ha.
  assert (Htok : hm G = Last1 t /\ taken G = S i)
    by (apply (h_tok _ _ _ _ _ H t (THead1 i)); [done|by rewrite Hg]).
  destruct Htok as [Hm Hti]. pose proof Hs as [Hle Htl [(b & Hb & Hhd) Hhc] Hnd Hwr Hch].
  rewrite Hm in Hhd, Hhc. assert (Hgle : gle G (set_hm (Last2 t) G)) by (apply gle_set_hm; congruence).
  split.
  - split; try done. split; simpl.
    + exists b. done.
    + destruct (inst G); [by destruct Hhc as (_ & _ & ? & _)|]. right.
      destruct Hhd as (Hmod & _). replace (taken G / 31)%nat with (S (i / 31)) by lia. done.
  - pose proof H as [].
    assert (HKs : stable K) by (specialize (h_stable t); by rewrite Hg in h_stable).
    eapply threads_same; [done|exact H|done|done|done| | |done| |by rewrite Hg|by rewrite Hg].
    + toks H Hg.
    + others.
    + simpl. eapply HKs; [exact Hgle|]. specialize (h_know t). by rewrite Hg in h_know.
Qed.

Lemma step_head_next q g G s K K' bx bd i b :
  inv q g G -> g t = MkPhase s (THead2 i) K bx bd -> tseen (S i) G ->
  b = 0 \/ b = 1 /\ (S i / 31 < given G / 31)%nat -> stable K' -> K' (set_hm Norm G) ->
  inv (set_head_index (2 * pos (S i) + b) q) (<[t := MkPhase s TNone K' bx bd]> g) (set_hm Norm G).
Proof.
  intros [Hs H] Hg Hse Hb Hst HK.
  assert (Htok : hm G = Last2 t /\ taken G = S i)
    by (apply (h_tok _ _ _ _ _ H t (THead2 i)); [done|by rewrite Hg]).
  destruct Htok as [Hm Hti]. pose proof Hs as [Hle Htl [_ Hhc] Hnd Hwr Hch].
  rewrite Hm in Hhc. assert (Hgle : gle G (set_hm Norm G)) by (by apply gle_set_hm).
  split.
  - split; try done. split; simpl.
    + exists b. rewrite Hti. split_and!; [lia|done|lia|]. intros E. destruct Hse as [|[_ ?]]; [lia|done].
    + destruct (inst G); [by destruct Hhc as (_ & _ & ? & _)|done].
  - eapply threads_same; [done|exact H|done|done|done| | |done|done|by rewrite Hg|by rewrite Hg].
    + toks H Hg.
    + others.
Qed.
End Thread.
End Steps.
