(* ===== verification/CoQueueLin.v ===== *)
(** * The chunked queue with many threads: linearizability

    [push] and [pop] of [CoQueue] follow the protocol of [CoQueueGhost] whatever the
    other threads do.  A push takes effect when it moves the tail index, a pop when it
    moves the head index or, on an empty queue, when it reads the tail index. *)

From Stdlib Require Import ZifyNat.
From S2P Require Import Prelude Machine Conc Fifo Timing Arena CoQueue CoQueueSpec.
From S2P Require Import Linear CoQueueGhost CoQueueSteps.

#[local] Ltac Zify.zify_post_hook ::= Z.to_euclidean_division_equations.
#[local] Arguments Nat.div : simpl never.
#[local] Arguments Nat.modulo : simpl never.
#[local] Arguments Nat.mul : simpl never.

Section Logic.
Context {T : Type} (N M : nat).
Abbreviation St := (CoQueue T * list (event (T := T)))%type.
Abbreviation given G := (length (vals G)).
Implicit Types (q : CoQueue T) (G : ghost T) (g : nat -> phase (T := T)) (log : list (event (T := T))).

(** The history so far, with its commits. *)
Definition lin g G (h : list event) (st : nat -> status) log : Prop :=
  runs h (drop (taken G) (vals G)) st /\ (forall u, st u = at_ (g u)) /\ filter visible h = log.

Definition LInv (s : St) g : Prop :=
  exists G h st, inv N M s.1 g G /\ lin g G h st s.2.

(** Nothing blocks. *)
Definition nowait (s : St) g (t : nat) : Prop := False.

Abbreviation lto := (csafe_to LInv eq).

(** A program on the queue, which does not touch the history. *)
Definition lcs {A} (n t : nat) (c : phase) (p : prog (CoQueue T) A) (Q : phase -> A -> Prop) : Prop :=
  csafe LInv eq nowait n t c (lift lens_fst p) Q.

Lemma lcs_bind {A B} n t c (p : prog (CoQueue T) A) (k : A -> prog (CoQueue T) B) P Q :
  lcs n t c p P -> (forall m c' a, (m <= n)%nat -> P c' a -> lcs m t c' (k a) Q) -> lcs n t c (bind p k) Q.
Proof.
  intros Hp Hk. eapply csafe_peq; [symmetry; apply lift_bind|]. by eapply (csafe_bind LInv eq).
Qed.

Lemma lcs_mono {A} n t c (p : prog (CoQueue T) A) (Q Q' : phase -> A -> Prop) :
  (forall c a, Q c a -> Q' c a) -> lcs n t c p Q -> lcs n t c p Q'.
Proof. apply csafe_mono. Qed.

Lemma lcs_ret {A} n t c (a : A) (Q : phase -> A -> Prop) : Q c a -> lcs n t c (Ret a) Q.
Proof. intros H. apply csafe_ret. by intros c' <-. Qed.

Lemma lcs_act {X} n t c (f : CoQueue T -> res (X * CoQueue T)) (Q : phase -> X -> Prop) :
  (forall q log g, LInv (q, log) g -> g t = c ->
     match f q with Ok (x, q') => lto t g (q', log) Q x | _ => False end) ->
  lcs n t c (act f) Q.
Proof.
  intros H. destruct n as [|n]; [done|]. intros [q log] g Hi Hg. specialize (H q log g Hi (eq_sym Hg)).
  simpl. destruct (f q) as [[x q']| |]; [|done|done].
  destruct H as (g' & Hi' & Hmv & HQ). exists g'. split_and!; [done..|]. by apply csafe_ret.
Qed.

Lemma lcs_loop {A I R} n t (J : phase -> I -> Prop) (body : I -> prog (CoQueue T) (I + R))
    (k : R -> prog (CoQueue T) A) Q c i :
  J c i ->
  (forall m c i, (m <= n)%nat -> J c i ->
     lcs m t c (body i) (fun c' r => match r with
       | inl i' => J c' i'
       | inr r => forall m', (m' <= n)%nat -> lcs m' t c' (k r) Q
       end)) ->
  lcs n t c (Loop body i k) Q.
Proof. intros HJ Hb. by apply (csafe_loop _ _ _ n t J). Qed.

Lemma lcs_ask {A} n t c (k : env -> prog (CoQueue T) A) Q :
  (forall e m, (m <= n)%nat -> lcs m t c (k e) Q) -> lcs n t c (Ask k) Q.
Proof. intros H. by apply csafe_ask. Qed.

(** Steps that are not commits, and commits. *)
Lemma to_step {X} q' log g G G' h st t c (P : phase -> X -> Prop) x :
  lin g G h st log -> inv N M q' (<[t := c]> g) G' -> vals G' = vals G -> taken G' = taken G ->
  at_ c = at_ (g t) -> P c x -> lto t g (q', log) P x.
Proof.
  intros (Hr & Hst & Hl) Hi Hv Htk Hc HP. exists (<[t := c]> g). split_and!.
  - exists G', h, st. split; [done|]. split_and!; [by rewrite Hv, Htk| |done].
    intros u. rewrite Hst. destruct (decide (t = u)) as [<-|].
    + by rewrite fn_lookup_insert.
    + by rewrite fn_lookup_insert_ne.
  - intros u Hu. by rewrite fn_lookup_insert_ne.
  - rewrite fn_lookup_insert. by intros c' <-.
Qed.

Lemma to_commit {X} q' log g G G' h st t c o r (P : phase -> X -> Prop) x :
  lin g G h st log -> inv N M q' (<[t := c]> g) G' -> at_ (g t) = Called o ->
  spec_op o (drop (taken G) (vals G)) = (r, drop (taken G') (vals G')) ->
  at_ c = Committed r -> P c x -> lto t g (q', log) P x.
Proof.
  intros (Hr & Hst & Hl) Hi Ho Hs Hc HP. exists (<[t := c]> g). split_and!.
  - exists G', (h ++ [Commit t r]), (<[t := Committed r]> st). split; [done|]. split_and!.
    + eapply runs_commit; [done|by rewrite Hst|done].
    + intros u. destruct (decide (t = u)) as [<-|].
      * by rewrite !fn_lookup_insert.
      * by rewrite !fn_lookup_insert_ne.
    + rewrite filter_app. simpl. by rewrite app_nil_r.
  - intros u Hu. by rewrite fn_lookup_insert_ne.
  - rewrite fn_lookup_insert. by intros c' <-.
Qed.

(** The state as it is, with the bound on the number of values. *)
Definition seen q G : Prop := shape q G /\ (given G <= M)%nat.

Lemma inv_seen q g G : inv N M q g G -> seen q G.
Proof. intros [Hs []]. split; [done|]. lia. Qed.

Lemma inv_know q g G t s k K bx bd : inv N M q g G -> g t = MkPhase s k K bx bd -> K G /\ stable K.
Proof. intros [_ []] Hg. specialize (h_know t). specialize (h_stable t). by rewrite Hg in *. Qed.
End Logic.

Ltac lcs_bind := eapply lcs_bind.

(** ** Accesses *)

Section Accesses.
Context `{CA : ChunkAlloc} {T : Type} (N M : nat).
Abbreviation lcs := (lcs (T := T) N M).
Abbreviation given G := (length (vals G)).
Implicit Types (q : CoQueue T) (G : ghost T) (g : nat -> phase (T := T)) (K : ghost T -> Prop).
Context (t : nat) (Ht : (t < N)%nat).

(** A phase in which the thread knows at least [K]. *)
Definition has s k K bx bd (c : phase) : Prop :=
  exists K', c = MkPhase s k K' bx bd /\ forall G, K' G -> K G.

Lemma has_mono s k K K' bx bd c : has s k K bx bd c -> (forall G, K G -> K' G) -> has s k K' bx bd c.
Proof. intros (K1 & -> & H) HK. exists K1. auto. Qed.

Lemma lcs_look {X} n s k K bx bd c (f : CoQueue T -> X) (F : X -> ghost T -> Prop) (R : X -> Prop) :
  has s k K bx bd c -> (forall x, stable (F x)) ->
  (forall q G, seen M q G -> K G -> R (f q) /\ F (f q) G) ->
  lcs n t c (load f) (fun c x => R x /\ has s k (fun G => K G /\ F x G) bx bd c).
Proof.
  intros (K' & -> & HK) Hst H. apply lcs_act. intros q log g (G & h & st & Hi & Hl) Hg.
  simpl in Hi, Hl. destruct (inv_know _ _ _ _ _ _ _ _ _ _ _ Hi Hg) as [HKG HKs].
  destruct (H q G (inv_seen _ _ _ _ _ Hi) (HK _ HKG)) as [HR HF].
  eapply to_step; [exact Hl|eapply (step_know _ _ _ Ht _ _ _ _ _ _ (fun G => K' G /\ F (f q) G)); eauto|
    done|done|by rewrite Hg|].
  - auto with stable.
  - split; [done|]. eexists. split; [done|]. intros G1 [H1 H2]. auto.
Qed.

(** Allocation: there is room for the chunks in use. *)
Lemma boxes_length g n : (forall u, length (boxes (g u)) <= 2)%nat ->
  (length (concat ((fun u => boxes (g u)) <$> seq 0 n)) <= 2 * n)%nat.
Proof.
  intros H. induction n as [|n IH]; [done|]. rewrite seq_S, fmap_app, concat_app, length_app. simpl.
  rewrite app_nil_r. specialize (H n). lia.
Qed.

Lemma heap_size q g G : inv N M q g G -> (size (dom (heap q)) <= M / 31 + 1 + 2 * N)%nat.
Proof.
  intros [Hs []].
  assert (Hsub : dom (heap q) ⊆ list_to_set (cs G ++ concat ((fun u => boxes (g u)) <$> seq 0 N))).
  { intros a Ha%elem_of_dom. apply elem_of_list_to_set, elem_of_app.
    destruct (h_dom a Ha) as [|(u & Hu & Hin)]; [by left|right].
    apply list_elem_of_In, in_concat. exists (boxes (g u)). split; [|by apply list_elem_of_In].
    apply list_elem_of_In, list_elem_of_fmap. exists u. split; [done|]. apply elem_of_seq. lia. }
  apply subseteq_size in Hsub. pose proof (boxes_length g N h_two) as Hb.
  assert (Hcs : (length (cs G) <= M / 31 + 1)%nat).
  { assert (given G / 31 <= M / 31)%nat by (apply Nat.Div0.div_le_mono; lia).
    destruct (s_tail _ _ Hs) as [_ Htm]. destruct (tm G); [destruct Htm as [_ [[-> _]|Htm]]; simpl|..]; lia. }
  assert (Hls : forall l : list Z, (size (list_to_set l : gset Z) <= length l)%nat).
  { induction l as [|x l IH]; simpl; [done|]. rewrite size_union_alt.
    pose proof (subseteq_size (list_to_set l ∖ {[x]} : gset Z) (list_to_set l)) as Hd.
    rewrite size_singleton. specialize (Hd ltac:(set_solver)). lia. }
  specialize (Hls (cs G ++ concat ((fun u => boxes (g u)) <$> seq 0 N))).
  rewrite length_app in Hls. lia.
Qed.

Lemma lcs_box_new n s k K bx bd c : has s k K bx bd c -> (M / 31 + 1 + 2 * N < chunk_room)%nat -> (length bx <= 1)%nat ->
  lcs n t c (box_new Chunk_new) (fun c a => a <> 0 /\ has s k K (a :: bx) bd c).
Proof.
  intros (K' & -> & HK) Hroom Hl. apply lcs_act. intros q log g (G & h & st & Hi & Hlin) Hg. simpl in Hi, Hlin.
  destruct (chunk_malloc_room (dom (heap q))) as [a Ha].
  { pose proof (heap_size _ _ _ Hi). lia. }
  rewrite Ha. destruct (chunk_malloc_spec _ _ Ha) as [Hn Hr]. apply not_elem_of_dom in Hn.
  eapply to_step; [exact Hlin|eapply step_alloc; [done|done|done|done|lia|done]|done|done|by rewrite Hg|].
  split; [lia|by exists K'].
Qed.

Lemma lcs_box_drop n s k K bx bx' bd c a : has s k K bx bd c -> bx ≡ₚ a :: bx' ->
  lcs n t c (box_drop a) (fun c _ => has s k K bx' bd c).
Proof.
  intros (K' & -> & HK) Hp. apply lcs_act. intros q log g (G & h & st & Hi & Hlin) Hg. simpl in Hi, Hlin.
  destruct (step_free N M t Ht _ _ _ _ _ _ _ _ _ _ Hi Hg Hp) as [Ha Hi'].
  rewrite Ha. eapply to_step; [exact Hlin|exact Hi'|done|done|by rewrite Hg|by exists K'].
Qed.

Lemma co_heap_same q p c : heap q !! p = Some c -> set_heap (<[p := c]> (heap q)) q = q.
Proof. intros H. by rewrite insert_id, co_set_heap_id. Qed.

Lemma lcs_next_load n s k K bx bd c j a : has s k K bx bd c -> (forall G, K G -> chunk_is j a G) ->
  lcs n t c (next_load a)
    (fun c x => has s k (fun G => K G /\ (x = 0 \/ chunk_is (S j) x G /\ tseen (31 * S j) G)) bx bd c).
Proof.
  intros (K' & -> & HK') HK. apply lcs_act. intros q log g (G & h & st & Hi & Hlin) Hg. simpl in Hi, Hlin.
  destruct (inv_know _ _ _ _ _ _ _ _ _ _ _ Hi Hg) as [HKG HKs].
  destruct (s_chunks _ _ (proj1 Hi) j a (HK _ (HK' _ HKG))) as (_ & c & Hc & _ & _ & Hnx).
  rewrite Hc, co_heap_same by done.
  eapply to_step; [exact Hlin|eapply (step_know _ _ _ Ht _ _ _ _ _ _
    (fun G => K' G /\ (next c = 0 \/ chunk_is (S j) (next c) G /\ tseen (31 * S j) G))); eauto|
    done|done|by rewrite Hg|].
  - auto 10 with stable.
  - eexists. split; [done|]. intros G1 [H1 H2]. auto.
Qed.

Lemma lcs_next_store n s k K bx bd c j a b : has s k K bx bd c ->
  (forall G, K G -> chunk_is j a G /\ chunk_is (S j) b G /\ tseen (31 * S j) G) ->
  lcs n t c (next_store a b) (fun c _ => has s k K bx bd c).
Proof.
  intros (K' & -> & HK') HK. apply lcs_act. intros q log g (G & h & st & Hi & Hlin) Hg. simpl in Hi, Hlin.
  destruct (inv_know _ _ _ _ _ _ _ _ _ _ _ Hi Hg) as [HKG HKs].
  destruct (HK _ (HK' _ HKG)) as (Ha & Hb & Hse).
  destruct (step_link_next N M t Ht _ _ _ _ _ _ _ _ _ _ _ Hi Hg Ha Hb Hse) as (c & Hc & Hi').
  rewrite Hc. eapply to_step; [exact Hlin|exact Hi'|done|done|by rewrite Hg|by exists K'].
Qed.

(** An access to the slot of place [i]. *)
Lemma lcs_slot {X} n s k K bx bd c i a (f : Slot T -> res (X * Slot T)) (P : phase -> X -> Prop) :
  has s k K bx bd c -> (forall G, K G -> chunk_is (i / 31) a G) ->
  (forall G K0 sl, (forall G, K0 G -> K G) -> K0 G -> stable K0 -> slot_ok G i sl ->
     exists x sl' G' K', f sl = Ok (x, sl') /\ (G' = G \/ G' = add_written i G /\ (i < given G)%nat) /\
       (forall j s, j <> i -> slot_ok G j s -> slot_ok G' j s) /\ slot_ok G' i sl' /\
       stable K' /\ K' G' /\ P (MkPhase s k K' bx bd) x) ->
  lcs n t c (slot_act a (Z.of_nat (i mod 31)) f) P.
Proof.
  intros (K0 & -> & HK0) HK H. apply lcs_act. intros q log g (G & h & st & Hi & Hlin) Hg. simpl in Hi, Hlin.
  destruct (inv_know _ _ _ _ _ _ _ _ _ _ _ Hi Hg) as [HKG HKs].
  destruct (slot_there q G i a (proj1 Hi) (HK _ (HK0 _ HKG))) as (c & sl & Hc & Hsl & Hok).
  destruct (H G K0 sl HK0 HKG HKs Hok) as (x & sl' & G' & K' & Hf & HG & Hoth & Hok' & Hst' & HK' & HP).
  rewrite Hc, Nat2Z.id, Hsl, Hf.
  eapply to_step; [exact Hlin|eapply step_slot; eauto| | |by rewrite Hg|done].
  all: by destruct HG as [->|[-> _]].
Qed.

Lemma lcs_state_load n s k K bx bd c i a : has s k K bx bd c -> (forall G, K G -> chunk_is (i / 31) a G) ->
  lcs n t c (state_load a (Z.of_nat (i mod 31)))
    (fun c x => ((i mod 31 = 30)%nat -> Z.land x READ = 0) /\
       has s k (fun G => K G /\ (Z.land x WRITE <> 0 -> i ∈ written G)) bx bd c).
Proof.
  intros Hc HK. eapply lcs_slot; [done|done|]. intros G K0 sl HK0 HKG HKs Hok.
  exists (state sl), sl, G, (fun G => K0 G /\ (Z.land (state sl) WRITE <> 0 -> i ∈ written G)).
  pose proof Hok as (H1 & H2 & H3). split_and!; [done|by left|done|done|auto with stable|done|done|done|].
  eexists. split; [done|]. intros G1 [? ?]. auto.
Qed.

Lemma land_lor_bit x m b : Z.land (Z.lor x m) b = 0 <-> Z.land x b = 0 /\ Z.land m b = 0.
Proof. rewrite Z.land_lor_distr_l, Z.lor_eq_0_iff. done. Qed.

Lemma lcs_fetch_or n s k K bx bd c i a m : has s k K bx bd c -> (forall G, K G -> chunk_is (i / 31) a G) ->
  m = DESTROY \/ m = READ /\ (i mod 31 <> 30)%nat \/ m = WRITE /\ (forall G, K G -> i ∈ written G) ->
  lcs n t c (state_fetch_or a (Z.of_nat (i mod 31)) m)
    (fun c x => ((i mod 31 = 30)%nat -> Z.land x READ = 0) /\ has s k K bx bd c).
Proof.
  intros Hc HK Hm. eapply lcs_slot; [done|done|]. intros G K0 sl HK0 HKG HKs Hok.
  exists (state sl), (MkSlot (value sl) (Z.lor (state sl) m)), G, K0. pose proof Hok as (H1 & H2 & H3).
  split_and!; [done|by left|done| |done|done|done|by exists K0].
  split_and!; simpl; [|done|].
  - rewrite land_lor_bit. destruct Hm as [->|[[-> _]|[-> Hw]]]; [..|auto].
    + intros Hn. apply H1. intros E. apply Hn. done.
    + intros Hn. apply H1. intros E. apply Hn. done.
  - intros E. apply land_lor_bit. split; [auto|]. by destruct Hm as [->|[[-> ?]|[-> _]]].
Qed.

Lemma lcs_value_write n s k K bx bd c i a v : has s k K bx bd c ->
  (forall G, K G -> chunk_is (i / 31) a G /\ val_is i v G) ->
  lcs n t c (value_write a (Z.of_nat (i mod 31)) v)
    (fun c _ => has s k (fun G => K G /\ i ∈ written G) bx bd c).
Proof.
  intros Hc HK. eapply lcs_slot; [done|intros; by apply HK|]. intros G K0 sl HK0 HKG HKs Hok.
  destruct (HK G (HK0 _ HKG)) as [_ Hv]. assert (Hlt : (i < given G)%nat) by (by eapply lookup_lt_Some).
  exists (), (MkSlot (Some v) (state sl)), (add_written i G), (fun G => K0 G /\ i ∈ written G).
  pose proof Hok as (H1 & H2 & H3). split_and!; [done|by right| | |auto with stable| | |].
  - intros j sj Hj (Hj1 & Hj2 & Hj3). split_and!; simpl; [set_solver| |done].
    intros [?%elem_of_singleton|?]%elem_of_union; [done|auto].
  - split_and!; simpl; [set_solver| |done]. intros _. by exists v.
  - eapply HKs, HKG. apply gle_add_written.
  - simpl. set_solver.
  - eexists. split; [done|]. intros G1 [? ?]. auto.
Qed.

Lemma lcs_value_read n s k K bx bd c i a v : has s k K bx bd c ->
  (forall G, K G -> chunk_is (i / 31) a G /\ val_is i v G /\ i ∈ written G) ->
  lcs n t c (value_read a (Z.of_nat (i mod 31))) (fun c x => x = v /\ has s k K bx bd c).
Proof.
  intros Hc HK. eapply lcs_slot; [done|intros; by apply HK|]. intros G K0 sl HK0 HKG HKs Hok.
  destruct (HK G (HK0 _ HKG)) as (_ & Hv & Hw). pose proof Hok as (H1 & H2 & H3).
  destruct (H2 Hw) as (v' & Hv' & Hsl). unfold val_is in Hv. assert (v' = v) as -> by congruence.
  exists v, sl, G, K0. rewrite Hsl. split_and!; try done; [by left|by exists K0].
Qed.

(** ** Waiting, and giving a chunk up *)

Lemma lcs_wait_write n s k K bx bd c i a : has s k K bx bd c -> (forall G, K G -> chunk_is (i / 31) a G) ->
  lcs n t c (wait_write a (Z.of_nat (i mod 31)))
    (fun c _ => has s k (fun G => K G /\ i ∈ written G) bx bd c).
Proof.
  intros Hc HK. eapply (lcs_loop _ _ n t (fun c _ => has s k K bx bd c)); [done|].
  clear c Hc. intros m c b _ Hc. lcs_bind; [by eapply lcs_state_load|]. intros m1 c1 x _ [_ Hc1].
  destruct (Z.eqb_spec (Z.land x WRITE) 0) as [E|E]; apply lcs_ret.
  - eapply has_mono; [done|]. by intros G [? _].
  - intros m' _. apply lcs_ret. eapply has_mono; [done|]. intros G [? ?]. auto.
Qed.

Lemma lcs_wait_next n s k K bx bd c j a : has s k K bx bd c -> (forall G, K G -> chunk_is j a G) ->
  lcs n t c (wait_next a)
    (fun c x => has s k (fun G => K G /\ chunk_is (S j) x G /\ tseen (31 * S j) G) bx bd c).
Proof.
  intros Hc HK. eapply (lcs_loop _ _ n t (fun c _ => has s k K bx bd c)); [done|].
  clear c Hc. intros m c b _ Hc. lcs_bind; [by eapply lcs_next_load|]. intros m1 c1 x _ Hc1.
  destruct (Z.eqb_spec x 0) as [E|E]; simpl; apply lcs_ret.
  - eapply has_mono; [exact Hc1|]. by intros G [? _].
  - intros m' _. apply lcs_ret. eapply has_mono; [exact Hc1|]. intros G [? [?|?]]; [done|auto].
Qed.

(** The last slot of a chunk is never marked as read: the chunk is not freed. *)
Lemma lcs_destroy n s k K bx bd c j a start : has s k K bx bd c -> (forall G, K G -> chunk_is j a G) ->
  0 <= start <= 30 -> lcs n t c (destroy a start) (fun c _ => has s k K bx bd c).
Proof.
  intros Hc HK Hst. eapply (lcs_loop _ _ n t (fun c i => has s k K bx bd c /\ 0 <= i <= 30)); [done|].
  clear c Hc Hst start. intros m c i _ [Hc Hi]. destruct (Z.ltb_spec i CHUNK_CAP) as [_|Hge]; [|unfold CHUNK_CAP, LAP in Hge; lia].
  set (p := (31 * j + Z.to_nat i)%nat). assert (Hp : i = Z.of_nat (p mod 31)) by lia.
  assert (Hj : (p / 31)%nat = j) by lia.
  assert (Hnext : Z.land READ READ <> 0) by done.
  lcs_bind; [rewrite Hp; eapply (lcs_state_load _ _ _ _ _ _ _ p); [done|by rewrite Hj]|].
  intros m1 c1 x _ [Hx Hc1].
  assert (Hc1' : has s k K bx bd c1) by (eapply has_mono; [done|]; by intros G [? _]).
  assert (Hmore : Z.land x READ <> 0 -> i + 1 <= 30).
  { intros Hn. assert ((p mod 31)%nat <> 30%nat) by (intros E; by apply Hn, Hx). lia. }
  destruct (Z.eqb_spec (Z.land x READ) 0) as [E|E]; [|apply lcs_ret; split; [done|specialize (Hmore E); lia]].
  lcs_bind; [rewrite Hp; eapply (lcs_fetch_or _ _ _ _ _ _ _ p); [done|by rewrite Hj|by left]|].
  intros m2 c2 y _ [Hy Hc2]. destruct (Z.eqb_spec (Z.land y READ) 0) as [E'|E']; apply lcs_ret.
  - intros m' _. by apply lcs_ret.
  - split; [done|]. assert ((p mod 31)%nat <> 30%nat) by (intros ?; by apply E', Hy). lia.
Qed.
End Accesses.

(** ** Push *)

Section Push.
Context `{CA : ChunkAlloc} {T : Type} (N M : nat).
Abbreviation lcs := (lcs (T := T) N M).
Abbreviation given G := (length (vals G)).
Implicit Types (q : CoQueue T) (G : ghost T) (g : nat -> phase (T := T)) (K : ghost T -> Prop).
Context (t : nat) (Ht : (t < N)%nat).
Context (room : (M / 31 + 1 + 2 * N < chunk_room)%nat) (width : 4 * Z.of_nat M + 4 < 2 ^ usize).

(** A tail index that was read, and what follows from it. *)
Definition tail_val (x : Z) : Prop :=
  exists i, (i <= M)%nat /\ (x = 2 * pos i \/ (i mod 31 = 0)%nat /\ i <> 0%nat /\ x = 2 * (pos i - 1)).
Definition tk (x : Z) G : Prop := forall i, x = 2 * pos i -> tseen i G.
Definition ck (tail x : Z) G : Prop :=
  forall i, tail = 2 * pos i -> x = 0 \/ exists k, (i / 31 <= k)%nat /\ chunk_is k x G.

Lemma stable_tk x : stable (tk x).
Proof. unfold tk. auto 6 with stable. Qed.
Lemma stable_ck tail x : stable (ck tail x).
Proof. unfold ck. auto 10 with stable. Qed.

Lemma tail_seen q G : seen M q G -> tail_val (tail_index q) /\ tk (tail_index q) G.
Proof.
  intros [Hs HM]. split.
  - exists (given G). split; [done|]. destruct (s_tail _ _ Hs) as [_ Htm]. 
    destruct (tm G); [left; apply Htm|right..]; by destruct Htm as (? & ? & ? & _).
  - intros i E. destruct (tail_normal _ _ _ Hs E) as [? ?]. right. auto.
Qed.

Lemma tail_chunk_seen q G tail : seen M q G -> tk tail G -> ck tail (tail_chunk q) G.
Proof.
  intros [Hs HM] Htk i E. specialize (Htk i E). destruct (s_tail _ _ Hs) as [-> Htm].
  destruct (last (cs G)) as [a|] eqn:Hl; [|by left]. right. simpl.
  rewrite last_lookup in Hl. exists (pred (length (cs G))). split; [|done].
  assert (length (cs G) <> 0%nat) by (apply lookup_lt_Some in Hl; lia).
  destruct Htk as [Hlt|[-> Hn]].
  - destruct (tm G); [destruct Htm as [_ [[E' _]|Htm]]; [by rewrite E' in Hl|]|..]; lia.
  - rewrite Hn in Htm. destruct Htm as [_ [[E' _]|Htm]]; [by rewrite E' in Hl|]. lia.
Qed.

Lemma lcs_load_tail n s k K bx bd c : has s k K bx bd c ->
  lcs n t c load_tail_index (fun c x => tail_val x /\ has s k (fun G => K G /\ tk x G) bx bd c).
Proof.
  intros Hc. eapply lcs_look; [done|done|apply stable_tk|]. intros q G Hs _. by apply tail_seen.
Qed.

Lemma lcs_load_tail_chunk n s k bx bd c tail : has s k (tk tail) bx bd c ->
  lcs n t c load_tail_chunk (fun c x => True /\ has s k (fun G => tk tail G /\ ck tail x G) bx bd c).
Proof.
  intros Hc. eapply lcs_look; [done|done|apply stable_ck|]. intros q G Hs Htk.
  split; [done|]. by apply tail_chunk_seen.
Qed.

(** Reading both, in this order. *)
Lemma lcs_load_both n s k K bx bd c {X} (f : Z -> Z -> prog (CoQueue T) X) (Q : phase -> X -> Prop) :
  has s k K bx bd c ->
  (forall m c tail chunk, tail_val tail -> has s k (fun G => tk tail G /\ ck tail chunk G) bx bd c ->
     lcs m t c (f tail chunk) Q) ->
  lcs n t c (let! tail := load_tail_index in let! chunk := load_tail_chunk in f tail chunk) Q.
Proof.
  intros Hc H. lcs_bind; [by eapply lcs_load_tail|]. intros m1 c1 tail _ [Hv Hc1].
  lcs_bind; [eapply lcs_load_tail_chunk, has_mono; [done|by intros G [_ ?]]|].
  intros m2 c2 chunk _ [_ Hc2]. auto.
Qed.

(** The offset of an index. *)
Lemma offset_pos i : Z.shiftr (2 * pos i) SHIFT mod LAP = Z.of_nat (i mod 31).
Proof. rewrite index_shift0. apply pos_offset. Qed.

Lemma offset_last i : (i mod 31 = 0)%nat -> i <> 0%nat ->
  Z.shiftr (2 * (pos i - 1)) SHIFT mod LAP = CHUNK_CAP.
Proof. intros. rewrite index_shift0. unfold pos, CHUNK_CAP, LAP. lia. Qed.

(** The compare-exchange that gives a value its place. *)
Lemma lcs_give n v bx bd c i chunk :
  has (Called (Push v)) TNone (fun G => tk (2 * pos i) G /\ ck (2 * pos i) chunk G) bx (S bd) c ->
  chunk <> 0 ->
  lcs n t c (compare_exchange_weak tail_index set_tail_index (2 * pos i) (2 * (pos i + 1)))
    (fun c r => match r with
       | inl _ => has (Committed Pushed) (if decide (i mod 31 = 30)%nat then TTail1 i else TNone)
           (fun G => val_is i v G /\ chunk_is (i / 31) chunk G) bx bd c
       | inr x => tail_val x /\ has (Called (Push v)) TNone (tk x) bx (S bd) c
       end).
Proof.
  intros Hc H0. assert (Hno : forall m, lcs m t c (load (fun q : CoQueue T => @inr Z Z (tail_index q)))
    (fun c r => match r with
       | inl _ => has (Committed Pushed) (if decide (i mod 31 = 30)%nat then TTail1 i else TNone)
           (fun G => val_is i v G /\ chunk_is (i / 31) chunk G) bx bd c
       | inr x => tail_val x /\ has (Called (Push v)) TNone (tk x) bx (S bd) c
       end)).
  { intros m. eapply lcs_mono; [|eapply (lcs_look N M t Ht m _ _ _ _ _ _ _
      (fun r G => match r with inl _ => True | inr x => tk x G end)
      (fun r => match r with inl _ => False | inr x => tail_val x end)); [exact Hc|..]].
    - intros c' [y|x] [Hr Hc']; [done|]. split; [done|]. eapply has_mono; [done|]. by intros G [_ ?].
    - intros [y|x]; [done|apply stable_tk].
    - intros q G Hs _. by apply tail_seen. }
  apply lcs_ask. intros e m _. destruct (spurious e); [done|].
  apply lcs_act. intros q log g (G & h & st & Hi & Hl) Hg. simpl in Hi, Hl.
  destruct (Z.eqb_spec (tail_index q) (2 * pos i)) as [E|E].
  - destruct Hc as (K & -> & HK). pose proof (proj1 Hi) as Hs.
    destruct (inv_know _ _ _ _ _ _ _ _ _ _ _ Hi Hg) as [HKG HKs].
    destruct (tail_normal _ _ _ Hs E) as [Hn Hgi]. destruct (HK _ HKG) as [_ Hck].
    destruct (Hck i eq_refl) as [?|(k & Hk & Hch)]; [done|].
    assert (Hcs : cs G <> []) by (intros E'; unfold chunk_is in Hch; by rewrite E' in Hch).
    assert (Hki : k = (i / 31)%nat).
    { destruct (s_tail _ _ Hs) as [_ Htm]. rewrite Hn in Htm. destruct Htm as [_ [[? _]|Htm]]; [done|].
      apply lookup_lt_Some in Hch. lia. }
    subst k. pose proof (s_le _ _ Hs).
    assert (Hspec : forall m, spec_op (Push v) (drop (taken G) (vals G)) =
      (Pushed, drop (taken (add_val v m G)) (vals (add_val v m G)))).
    { intros m0. simpl. by rewrite drop_app_le. }
    set (K1 := fun G => val_is i v G /\ chunk_is (i / 31) chunk G).
    assert (HK1 : stable K1) by (unfold K1; auto with stable).
    assert (HK' : forall m, given G = i -> K1 (add_val v m G)).
    { intros m0 <-. split; [apply lookup_snoc_last|done]. }
    destruct (decide (i mod 31 = 30)%nat) as [Hl30|Hl30].
    + eapply to_commit; [exact Hl|eapply (step_give_last N M t Ht q g G _ (Committed Pushed) _ K1); eauto with stable|
      by rewrite Hg|apply Hspec|done|].
      simpl. eexists. split; [done|]. auto.
    + eapply to_commit; [exact Hl|eapply (step_give N M t Ht q g G _ (Committed Pushed) _ K1); eauto with stable|
      by rewrite Hg|apply Hspec|done|].
      simpl. eexists. split; [done|]. auto.
  - destruct (tail_seen q G (inv_seen _ _ _ _ _ Hi)) as [Hv Hk].
    destruct Hc as (K & -> & HK).
    eapply to_step; [exact Hl|eapply (step_know _ _ _ Ht _ _ _ _ _ _ (tk (tail_index q))); eauto using stable_tk|
      done|done|by rewrite Hg|].
    simpl. split; [done|]. by eexists.
Qed.

(** Linking the next chunk, after the last slot of a chunk was given. *)
Lemma lcs_link n s bd c i v chunk p : (i <= M)%nat -> (i mod 31 = 30)%nat ->
  has s (TTail1 i) (fun G => val_is i v G /\ chunk_is (i / 31) chunk G) [p] bd c ->
  lcs n t c
    (store (set_tail_chunk p) ;;
     store (set_tail_index (wrap usize (2 * (pos i + 1) + Z.shiftl 1 SHIFT))) ;;
     next_store chunk p ;;
     Ret (@None Z))
    (fun c u => has s TNone (fun G => val_is i v G /\ chunk_is (i / 31) chunk G) (option_list u) bd c).
Proof.
  intros HM Hi Hc. assert (Hnx : wrap usize (2 * (pos i + 1) + Z.shiftl 1 SHIFT) = 2 * pos (S i)).
  { change (Z.shiftl 1 SHIFT) with 2. rewrite pos_next_lap by done. pose proof (pos_bound i).
    rewrite wrap_small; [lia|]. unfold in_width. lia. }
  rewrite Hnx.
  set (K1 := fun G => (val_is i v G /\ chunk_is (i / 31) chunk G) /\ chunk_is (S (i / 31)) p G).
  assert (HK1 : stable K1) by (unfold K1; auto with stable).
  lcs_bind.
  { apply lcs_act with (Q := fun c _ => has s (TTail2 i) K1 [] bd c).
    intros q log g (G & h & st & Hi' & Hl) Hg. simpl in Hi', Hl. destruct Hc as (K & -> & HK).
    destruct (inv_know _ _ _ _ _ _ _ _ _ _ _ Hi' Hg) as [HKG HKs]. destruct (HK _ HKG) as [Hv Hch].
    eapply to_step; [exact Hl|eapply (step_link N M t Ht q g G _ _ K1); eauto|done|done|by rewrite Hg|by eexists].
    intros Hlen. split; [|unfold chunk_is; simpl; rewrite <- Hlen; apply lookup_snoc_last].
    split; [done|]. eapply (stable_chunk _ _ G); [|done]. apply gle_add_chunk; [|done].
    intros E. destruct (h_tok _ _ _ _ _ (proj2 Hi') t (TTail1 i)) as [Ho _]; [done|].
    rewrite Hg in Ho. destruct (Ho eq_refl) as [Ho' _]. congruence. }
  intros m1 c1 [] _ Hc1. lcs_bind.
  { apply lcs_act with (Q := fun c _ => has s TNone (fun G => K1 G /\ tseen (31 * S (i / 31)) G) [] bd c).
    intros q log g (G & h & st & Hi' & Hl) Hg. simpl in Hi', Hl. destruct Hc1 as (K & -> & HK).
    destruct (inv_know _ _ _ _ _ _ _ _ _ _ _ Hi' Hg) as [HKG HKs].
    eapply to_step; [exact Hl|eapply (step_tail_next N M t Ht q g G _ _
      (fun G => K1 G /\ tseen (31 * S (i / 31)) G)); eauto with stable|done|done|by rewrite Hg|by eexists].
    destruct (h_tok _ _ _ _ _ (proj2 Hi') t (TTail2 i)) as [Ho _]; [done|].
    rewrite Hg in Ho. destruct (Ho eq_refl) as [Hm Hgi]. split.
    - eapply HK1, HK, HKG. by apply gle_set_tm.
    - right. simpl. split; [lia|done]. }
  intros m2 c2 [] _ Hc2. lcs_bind; [eapply lcs_next_store; [done|exact Hc2|]|].
  - intros G [[[_ ?] ?] ?]. done.
  - intros m3 c3 [] _ Hc3. apply lcs_ret. eapply has_mono; [exact Hc3|]. by intros G [[? _] _].
Qed.

Lemma lcs_drop_option n s k K bd c (b : option Z) : has s k K (option_list b) bd c ->
  lcs n t c (drop_box_option b) (fun c _ => has s k K [] bd c).
Proof.
  intros Hc. destruct b as [p|]; simpl in *; [|by apply lcs_ret]. eapply lcs_box_drop; [done|done|]. done.
Qed.

Lemma lcs_push_finish n s bd c i v chunk nc : (i <= M)%nat -> ((i mod 31 = 30)%nat -> nc <> None) ->
  has s (if decide (i mod 31 = 30)%nat then TTail1 i else TNone)
    (fun G => val_is i v G /\ chunk_is (i / 31) chunk G) (option_list nc) bd c ->
  lcs n t c (push_finish chunk (Z.of_nat (i mod 31)) (2 * (pos i + 1)) nc v)
    (fun c _ => has s TNone (fun _ => True) [] bd c).
Proof.
  intros HM Hnc Hc. lcs_bind.
  { instantiate (1 := fun c u => has s TNone (fun G => val_is i v G /\ chunk_is (i / 31) chunk G)
      (option_list u) bd c).
    unfold CHUNK_CAP, LAP. destruct (Z.eqb_spec (Z.of_nat (i mod 31) + 1) (32 - 1)) as [E|E].
    - rewrite decide_True in Hc by lia. destruct nc as [p|]; [|destruct Hnc; [lia|done]].
      apply lcs_link; [done|lia|done].
    - rewrite decide_False in Hc by lia. by apply lcs_ret. }
  intros m1 c1 u _ Hc1. lcs_bind; [eapply lcs_value_write; [done|exact Hc1|]|].
  { intros G [? ?]. done. }
  intros m2 c2 [] _ Hc2. lcs_bind; [eapply (lcs_fetch_or _ _ _ Ht); [exact Hc2| |]|].
  { by intros G [[_ ?] _]. }
  { right; right. split; [done|]. by intros G [_ ?]. }
  intros m3 c3 x _ [_ Hc3]. eapply lcs_drop_option, has_mono; [exact Hc3|done].
Qed.

(** The state of the loop of [push]. *)
Definition pushing_at v bd (c : phase) (i : Backoff.Backoff * Z * Z * option Z) : Prop :=
  let '(b, tail, chunk, nc) := i in
  tail_val tail /\
  has (Called (Push v)) TNone (fun G => tk tail G /\ ck tail chunk G) (option_list nc) (S bd) c.

(** The first chunk. *)
Lemma lcs_cas_first n v bd c tail a nc :
  has (Called (Push v)) TNone (fun G => tk tail G /\ ck tail 0 G) (a :: option_list nc) (S bd) c -> a <> 0 ->
  lcs n t c (cas_tail_chunk 0 a)
    (fun c old => if old =? 0 then
       has (Called (Push v)) TInst (fun G => (tk tail G /\ ck tail a G) /\ chunk_is 0 a G)
         (option_list nc) (S bd) c
     else has (Called (Push v)) TNone (fun _ => True) (a :: option_list nc) (S bd) c).
Proof.
  intros (K & -> & HK) Ha. apply lcs_act. intros q log g (G & h & st & Hi & Hl) Hg. simpl in Hi, Hl.
  destruct (inv_know _ _ _ _ _ _ _ _ _ _ _ Hi Hg) as [HKG HKs]. destruct (HK _ HKG) as [Htk Hck].
  destruct (Z.eqb_spec (tail_chunk q) 0) as [E|E].
  - set (K1 := fun G => (tk tail G /\ ck tail a G) /\ chunk_is 0 a G).
    assert (HK1 : stable K1) by (unfold K1; auto using stable_tk, stable_ck with stable).
    eapply to_step; [exact Hl|eapply (step_first N M t Ht q g G _ _ K1 _ (option_list nc)); eauto|
      done|done|by rewrite Hg|].
    + intros H0 _ Hcs. assert (Hc0 : chunk_is 0 a (add_chunk a Norm (Some t) G)).
      { unfold chunk_is. simpl. by rewrite Hcs. }
      split; [split|done].
      * eapply (stable_tk tail G); [|done]. apply gle_add_chunk; [done|by rewrite Hcs].
      * intros i Ei. right. exists 0%nat. split; [|done]. destruct (Htk i Ei) as [|[-> _]]; [lia|].
        rewrite H0. done.
    + rewrite E. simpl. by eexists.
  - eapply to_step; [exact Hl|eapply (step_know N M t Ht q g G _ _ _ (fun _ => True)); eauto with stable|
      done|done|by rewrite Hg|].
    rewrite (proj2 (Z.eqb_neq _ _) E). by eexists.
Qed.

Lemma lcs_install n s K bx bd c a : has s TInst (fun G => K G /\ chunk_is 0 a G) bx bd c -> stable K ->
  lcs n t c (store (set_head_chunk a)) (fun c _ => has s TNone K bx bd c).
Proof.
  intros (K1 & -> & HK) Hst. apply lcs_act. intros q log g (G & h & st & Hi & Hl) Hg. simpl in Hi, Hl.
  destruct (inv_know _ _ _ _ _ _ _ _ _ _ _ Hi Hg) as [HKG HKs]. destruct (HK _ HKG) as [Hk Ha].
  eapply to_step; [exact Hl|eapply (step_install N M t Ht q g G _ _ K); eauto|done|done|by rewrite Hg|by eexists].
  eapply Hst; [apply gle_set_inst|done].
Qed.

Lemma lcs_chunk n v bd c b tail chunk nc :
  has (Called (Push v)) TNone (fun G => tk tail G /\ ck tail chunk G) (option_list nc) (S bd) c ->
  lcs n t c
    (if chunk =? 0 then
       let! new := box_new Chunk_new in
       let! old := cas_tail_chunk chunk new in
       if old =? chunk then
         store (set_head_chunk new) ;; Ret (inr new)
       else
         drop_box_option nc ;;
         let! tail := load_tail_index in
         let! chunk := load_tail_chunk in
         Ret (inl (b, tail, chunk, Some new))
     else Ret (inr chunk))
    (fun c r => match r with
       | inl again => pushing_at v bd c again
       | inr a => a <> 0 /\
           has (Called (Push v)) TNone (fun G => tk tail G /\ ck tail a G) (option_list nc) (S bd) c
       end).
Proof.
  intros Hc. destruct (Z.eqb_spec chunk 0) as [->|Hne]; [|by apply lcs_ret].
  lcs_bind; [eapply lcs_box_new; [done|exact Hc|done|destruct nc; simpl; lia]|]. intros m1 c1 a _ [Ha Hc1].
  lcs_bind; [by eapply lcs_cas_first|]. intros m2 c2 old _ Hc2. simpl in Hc2.
  destruct (old =? 0).
  - lcs_bind; [eapply lcs_install; [exact Hc2|auto using stable_tk, stable_ck with stable]|].
    intros m3 c3 [] _ Hc3. by apply lcs_ret.
  - lcs_bind.
    { instantiate (1 := fun c _ => has (Called (Push v)) TNone (fun _ => True) [a] (S bd) c).
      destruct nc as [p|]; [|by apply lcs_ret]. eapply lcs_box_drop; [done|exact Hc2|]. apply Permutation_swap. }
    intros m3 c3 [] _ Hc3. eapply lcs_load_both; [exact Hc3|]. intros m4 c4 tail' chunk' Hv Hc4.
    by apply lcs_ret.
Qed.

Lemma lcs_reserve n s k K bd c offset nc : has s k K (option_list nc) bd c ->
  lcs n t c
    (if (offset + 1 =? CHUNK_CAP) && negb (is_some nc)
     then let! p := box_new Chunk_new in Ret (Some p) else Ret nc)
    (fun c nc => has s k K (option_list nc) bd c /\ (offset + 1 = CHUNK_CAP -> nc <> None)).
Proof.
  intros Hc. destruct (Z.eqb_spec (offset + 1) CHUNK_CAP) as [E|E]; [destruct nc as [p|]|]; simpl.
  - by apply lcs_ret.
  - lcs_bind; [eapply lcs_box_new; [done|exact Hc|done|simpl; lia]|]. intros m1 c1 a _ [Ha Hc1].
    apply lcs_ret. done.
  - apply lcs_ret. done.
Qed.

Lemma lcs_push n v bd c : has (Called (Push v)) TNone (fun _ => True) [] (S bd) c ->
  lcs n t c (CoQueue_push v) (fun c _ => has (Committed Pushed) TNone (fun _ => True) [] bd c).
Proof.
  intros Hc. eapply lcs_load_both; [exact Hc|]. clear c Hc. intros m1 c tail chunk Hv Hc.
  eapply (lcs_loop N M _ _ (pushing_at v bd)); [done|]. clear c Hc tail chunk Hv.
  intros m2 c [[[b tail] chunk] nc] _ [(i & Hi & [-> |(Hm & H0 & ->)]) Hc].
  - rewrite offset_pos. unfold CHUNK_CAP at 1, LAP.
    destruct (Z.eqb_spec (Z.of_nat (i mod 31)) (32 - 1)) as [E|_]; [lia|].
    lcs_bind; [by apply lcs_reserve|]. intros m3 c3 nc' _ [Hc3 Hnc].
    lcs_bind; [by apply lcs_chunk|]. intros m4 c4 [again|a] _ Hc4; [by apply lcs_ret|].
    destruct Hc4 as [Ha Hc4]. change (Z.shiftl 1 SHIFT) with 2.
    assert (Hadd : uadd (2 * pos i) 2 = Ret (St := CoQueue T) (2 * (pos i + 1))).
    { unfold uadd, add_w. pose proof (pos_bound i). rewrite (proj2 (Z.ltb_lt _ _)); [f_equal|]; lia. }
    rewrite Hadd. lcs_bind; [by apply lcs_ret with (Q := fun c r => c = c4 /\ r = 2 * (pos i + 1))|].
    intros m5 ? ? _ [-> ->]. lcs_bind; [by apply lcs_give|]. intros m6 c6 [r|x] _ Hc6.
    + lcs_bind; [apply lcs_push_finish; [done| |exact Hc6]|].
      { intros E. apply Hnc. rewrite E. done. }
      intros m7 c7 [] _ Hc7. apply lcs_ret. intros m' _. by apply lcs_ret.
    + destruct Hc6 as [Hv Hc6]. lcs_bind; [by apply lcs_load_tail_chunk|].
      intros m7 c7 chunk' _ [_ Hc7]. by apply lcs_ret.
  - rewrite offset_last by done. cbv zeta. rewrite Z.eqb_refl.
    eapply lcs_load_both; [exact Hc|]. intros m3 c3 tail' chunk' Hv Hc3. by apply lcs_ret.
Qed.
End Push.

(** ** Pop *)

Section Pop.
Context `{CA : ChunkAlloc} {T : Type} (N M : nat).
Abbreviation lcs := (lcs (T := T) N M).
Abbreviation given G := (length (vals G)).
Implicit Types (q : CoQueue T) (G : ghost T) (g : nat -> phase (T := T)) (K : ghost T -> Prop).
Context (t : nat) (Ht : (t < N)%nat) (width : 4 * Z.of_nat M + 4 < 2 ^ usize).

(** A head index that was read, and what follows from it. *)
Definition head_val (x : Z) : Prop :=
  exists i b, (i <= M)%nat /\ (b = 0 \/ b = 1) /\
    (x = 2 * pos i + b \/ (i mod 31 = 0)%nat /\ i <> 0%nat /\ x = 2 * (pos i - 1) + b).
Definition hk (x : Z) G : Prop := forall i b, b = 0 \/ b = 1 -> x = 2 * pos i + b -> hseen i G.
Definition hck (head x : Z) G : Prop :=
  forall i b, b = 0 \/ b = 1 -> head = 2 * pos i + b ->
    x = 0 \/ (exists k, (i / 31 <= k)%nat /\ (31 * k <= taken G)%nat /\ chunk_is k x G) /\ installed G.

Lemma stable_hk x : stable (hk x).
Proof. unfold hk. auto 8 with stable. Qed.
Lemma stable_hck head x : stable (hck head x).
Proof. unfold hck. auto 15 with stable. Qed.

Lemma head_seen q G : seen M q G -> head_val (head_index q) /\ hk (head_index q) G.
Proof.
  intros [Hs HM]. split.
  - destruct (s_head _ _ Hs) as [(b & Hb & Hhd) _]. exists (taken G), b. pose proof (s_le _ _ Hs).
    split_and!; [lia|done|]. destruct (hm G); [left; apply Hhd|right; done..].
  - intros i b Hb E. destruct (head_normal _ _ _ _ Hs E Hb) as (? & ? & _). right. auto.
Qed.

Lemma head_chunk_seen q G head : seen M q G -> hk head G -> hck head (head_chunk q) G.
Proof.
  intros [Hs HM] Hk i b Hb E. specialize (Hk i b Hb E).
  destruct (s_head _ _ Hs) as [(b' & Hb' & Hhd) Hhc]. destruct (inst G) eqn:Hin; [left; apply Hhc|].
  destruct Hhc as [[_ ?]|Hch]; [by left|right]. split.
  - eexists. split_and!; [| |exact Hch]; destruct Hk as [Hlt|[-> Hn]]; try rewrite Hn in *;
      destruct (hm G); lia.
  - split; [|done]. intros E'. unfold chunk_is in Hch. by rewrite E' in Hch.
Qed.

Lemma lcs_load_head n s k K bx bd c : has s k K bx bd c ->
  lcs n t c load_head_index (fun c x => head_val x /\ has s k (fun G => K G /\ hk x G) bx bd c).
Proof.
  intros Hc. eapply lcs_look; [done|done|apply stable_hk|]. intros q G Hs _. by apply head_seen.
Qed.

Lemma lcs_load_head_chunk n s k bx bd c head : has s k (hk head) bx bd c ->
  lcs n t c load_head_chunk (fun c x => True /\ has s k (fun G => hk head G /\ hck head x G) bx bd c).
Proof.
  intros Hc. eapply lcs_look; [done|done|apply stable_hck|]. intros q G Hs Hk.
  split; [done|]. by apply head_chunk_seen.
Qed.

Lemma lcs_load_both_heads n s k K bx bd c {X} (f : Z -> Z -> prog (CoQueue T) X) (Q : phase -> X -> Prop) :
  has s k K bx bd c ->
  (forall m c head chunk, head_val head -> has s k (fun G => hk head G /\ hck head chunk G) bx bd c ->
     lcs m t c (f head chunk) Q) ->
  lcs n t c (let! head := load_head_index in let! chunk := load_head_chunk in f head chunk) Q.
Proof.
  intros Hc H. lcs_bind; [by eapply lcs_load_head|]. intros m1 c1 head _ [Hv Hc1].
  lcs_bind; [eapply lcs_load_head_chunk, has_mono; [done|by intros G [_ ?]]|].
  intros m2 c2 chunk _ [_ Hc2]. auto.
Qed.

(** Reading the tail: an empty queue is seen here. *)
Lemma lcs_check_tail n bd c i b chunk : b = 0 \/ b = 1 ->
  has (Called TryPop) TNone (fun G => hk (2 * pos i + b) G /\ hck (2 * pos i + b) chunk G) [] bd c ->
  lcs n t c load_tail_index
    (fun c x => if pos i =? Z.shiftr x SHIFT then has (Committed (Popped None)) TNone (fun _ => True) [] bd c
      else has (Called TryPop) TNone (fun G => (hk (2 * pos i + b) G /\ hck (2 * pos i + b) chunk G) /\
        (i < given G)%nat /\ (pos i / LAP <> Z.shiftr x SHIFT / LAP -> (31 * (i / 31) + 30 < given G)%nat))
        [] bd c).
Proof.
  intros Hb (K & -> & HK). apply lcs_act. intros q log g (G & h & st & Hi & Hl) Hg. simpl in Hi, Hl.
  destruct (inv_know _ _ _ _ _ _ _ _ _ _ _ Hi Hg) as [HKG HKs]. destruct (HK _ HKG) as [Hk Hck].
  pose proof (proj1 Hi) as Hs. specialize (Hk i b Hb eq_refl). pose proof (s_le _ _ Hs) as Hle.
  assert (Hio : (i <= taken G)%nat) by (destruct Hk as [|[-> _]]; lia).
  assert (Hix : exists x, tail_index q = 2 * x /\ (x = pos (given G) /\ tm G = Norm \/
    x = pos (given G) - 1 /\ (given G mod 31 = 0)%nat /\ tm G <> Norm)).
  { destruct (s_tail _ _ Hs) as [_ Htm]. destruct (tm G).
    - exists (pos (given G)). split; [apply Htm|by left].
    - exists (pos (given G) - 1). destruct Htm as (? & ? & ? & _). split; [done|by right].
    - exists (pos (given G) - 1). destruct Htm as (? & ? & ? & _). split; [done|by right]. }
  destruct Hix as (x & Ex & Hx). rewrite Ex.
  destruct (Z.eqb_spec (pos i) x) as [E|E].
  - assert (Hempty : taken G = given G).
    { destruct Hx as [[-> _]|(-> & Hm & _)]; [apply pos_inj in E; lia|]. exfalso. unfold pos in E. lia. }
    eapply to_commit; [exact Hl|eapply (step_know N M t Ht q g G _ _ _ (fun _ => True)); eauto with stable|
      by rewrite Hg|by rewrite drop_ge by lia|done|].
    cbn beta. rewrite index_shift0, (proj2 (Z.eqb_eq _ _) E). by eexists.
  - assert (Hlt : (i < given G)%nat).
    { destruct Hx as [[-> _]|(-> & Hm & Hn)]; [assert (i <> given G) by (by intros ->); lia|].
      destruct (decide (i = given G)) as [->|]; [exfalso|lia]. destruct Hk as [|[Htk Hhm]]; [lia|].
      destruct (s_head _ _ Hs) as [(b' & _ & Hhd) _]. rewrite Hhm in Hhd. apply Hn, Hhd. done. }
    set (K1 := fun G => K G /\ (i < given G)%nat /\ (pos i / LAP <> x / LAP -> (31 * (i / 31) + 30 < given G)%nat)).
    eapply to_step; [exact Hl|eapply (step_know N M t Ht q g G _ _ _ K1); eauto| done|done|by rewrite Hg|].
    + unfold K1. auto using stable_given with stable.
    + split; [done|]. split; [done|]. rewrite pos_lap. intros Hne.
      destruct Hx as [[-> _]|(-> & Hm & Hn)]; unfold pos, LAP in *; lia.
    + cbn beta. rewrite index_shift0, (proj2 (Z.eqb_neq _ _) E). exists K1. split; [done|].
      intros G1 (? & ? & ?). auto.
Qed.

(** What [pop] knows before it moves the head from [2 * pos i + b] to
    [2 * (pos i + 1) + b']. *)
Definition checked i b b' chunk G : Prop :=
  (hk (2 * pos i + b) G /\ hck (2 * pos i + b) chunk G) /\
  (b = 1 \/ (i < given G)%nat /\ (b' = 1 -> (31 * (i / 31) + 30 < given G)%nat)).

Lemma lcs_pop_check n bd c i b chunk : b = 0 \/ b = 1 ->
  has (Called TryPop) TNone (fun G => hk (2 * pos i + b) G /\ hck (2 * pos i + b) chunk G) [] bd c ->
  lcs n t c (pop_check (2 * pos i + b) (2 * (pos i + 1) + b))
    (fun c r => match r with
       | None => has (Committed (Popped None)) TNone (fun _ => True) [] bd c
       | Some nh => exists b', (b' = 0 \/ b' = 1) /\ nh = 2 * (pos i + 1) + b' /\
           has (Called TryPop) TNone (checked i b b' chunk) [] bd c
       end).
Proof.
  intros Hb Hc. unfold pop_check. rewrite index_bit, index_shift by lia.
  destruct Hb as [-> | ->]; simpl.
  - lcs_bind; [apply lcs_check_tail; [by left|exact Hc]|]. intros m1 c1 x _ Hc1. cbn beta in Hc1.
    destruct (pos i =? Z.shiftr x SHIFT); [by apply lcs_ret|]. apply lcs_ret.
    destruct (Z.eqb_spec (pos i / LAP) (Z.shiftr x SHIFT / LAP)) as [E|E]; simpl.
    + exists 0. split_and!; [by left|done|]. eapply has_mono; [exact Hc1|]. intros G (? & ? & _).
      split; [done|]. right. split; [done|lia].
    + exists 1. split_and!; [by right|by rewrite index_set by lia|]. eapply has_mono; [exact Hc1|].
      intros G (? & ? & Hlap). split; [done|]. right. split; [done|]. intros _. by apply Hlap.
  - apply lcs_ret. exists 1. split_and!; [by right|done|]. eapply has_mono; [exact Hc|]. 
    intros G ?. split; [done|by left].
Qed.

Lemma lcs_take n bd c i b b' chunk : b = 0 \/ b = 1 -> b' = 0 \/ b' = 1 -> chunk <> 0 ->
  has (Called TryPop) TNone (checked i b b' chunk) [] bd c -> 
  lcs n t c (compare_exchange_weak head_index set_head_index (2 * pos i + b) (2 * (pos i + 1) + b'))
    (fun c r => match r with
       | inl _ => exists v, has (Committed (Popped (Some v)))
           (if decide (i mod 31 = 30)%nat then THead1 i else TNone)
           (fun G => val_is i v G /\ chunk_is (i / 31) chunk G) [] bd c
       | inr x => head_val x /\ has (Called TryPop) TNone (hk x) [] bd c
       end).
Proof.
  intros Hb Hb' H0 Hc. apply lcs_ask. intros e m _. destruct (spurious e).
  { eapply lcs_mono; [|eapply (lcs_look N M t Ht m _ _ _ _ _ _ _
      (fun r G => match r with inl _ => True | inr x => hk x G end)
      (fun r => match r with inl _ => False | inr x => head_val x end)); [exact Hc|..]].
    - intros c' [y|x] [Hr Hc']; [done|]. split; [done|]. eapply has_mono; [done|]. by intros G [_ ?].
    - intros [y|x]; [done|apply stable_hk].
    - intros q G Hs _. by apply head_seen. }
  apply lcs_act. intros q log g (G & h & st & Hi & Hl) Hg. simpl in Hi, Hl.
  destruct (Z.eqb_spec (head_index q) (2 * pos i + b)) as [E|E].
  - destruct Hc as (K & -> & HK). pose proof (proj1 Hi) as Hs.
    destruct (inv_know _ _ _ _ _ _ _ _ _ _ _ Hi Hg) as [HKG HKs].
    destruct (head_normal _ _ _ _ Hs E Hb) as (Hn & Hti & Hb1).
    destruct (HK _ HKG) as [[_ Hck] Hch]. pose proof (s_le _ _ Hs).
    destruct (Hck i b Hb eq_refl) as [?|((k & Hk1 & Hk2 & Hk) & Hinst)]; [done|].
    assert (k = (i / 31)%nat) as -> by lia.
    assert (Hlt : (i < given G)%nat) by (destruct Hch as [Hx|[? _]]; [specialize (Hb1 Hx); lia|done]).
    assert (Hlap : b' = 0 \/ b' = 1 /\ (i / 31 < given G / 31)%nat).
    { destruct Hb' as [?|E']; [by left|right]. split; [done|].
      destruct Hch as [Hx|[_ Hx]]; [specialize (Hb1 Hx); lia|specialize (Hx E'); lia]. }
    destruct (lookup_lt_is_Some_2 _ _ Hlt) as [v Hv].
    set (K1 := fun G => val_is i v G /\ chunk_is (i / 31) chunk G).
    assert (HK1 : stable K1) by (unfold K1; auto with stable).
    assert (Hspec : forall m, spec_op TryPop (drop (taken G) (vals G)) =
      (Popped (Some v), drop (taken (take_one m G)) (vals (take_one m G)))).
    { intros m0. simpl. rewrite Hti. by rewrite (drop_S _ _ _ Hv). }
    destruct (decide (i mod 31 = 30)%nat) as [Hl30|Hl30].
    + eapply to_commit; [exact Hl|eapply (step_take_last N M t Ht q g G _ (Committed (Popped (Some v))) _ K1);
        eauto; by split|by rewrite Hg|apply Hspec|done|].
      simpl. exists v. by eexists.
    + eapply to_commit; [exact Hl|eapply (step_take N M t Ht q g G _ (Committed (Popped (Some v))) _ K1);
        eauto; by split|by rewrite Hg|apply Hspec|done|].
      simpl. exists v. by eexists.
  - destruct (head_seen q G (inv_seen _ _ _ _ _ Hi)) as [Hv Hk]. destruct Hc as (K & -> & HK).
    eapply to_step; [exact Hl|eapply (step_know _ _ _ Ht _ _ _ _ _ _ (hk (head_index q))); eauto using stable_hk|
      done|done|by rewrite Hg|].
    simpl. split; [done|]. by eexists.
Qed.

(** Moving the head to the next chunk, after the last value of a chunk was taken. *)
Lemma lcs_head_on n s bd c i b' v chunk : (i <= M)%nat -> (i mod 31 = 30)%nat -> b' = 0 \/ b' = 1 ->
  has s (THead1 i) (fun G => val_is i v G /\ chunk_is (i / 31) chunk G) [] bd c ->
  lcs n t c
    (let! next := wait_next chunk in
     let next_idx := wrap usize (Z.land (2 * (pos i + 1) + b') (unot usize HAS_NEXT) + Z.shiftl 1 SHIFT) in
     let! nn := next_load next in
     let next_idx := if negb (nn =? 0) then Z.lor next_idx HAS_NEXT else next_idx in
     store (set_head_chunk next) ;;
     store (set_head_index next_idx))
    (fun c _ => has s TNone (fun G => val_is i v G /\ chunk_is (i / 31) chunk G) [] bd c).
Proof.
  intros HM Hi Hb' Hc.
  assert (Hnx : wrap usize (Z.land (2 * (pos i + 1) + b') (unot usize HAS_NEXT) + Z.shiftl 1 SHIFT)
    = 2 * pos (S i)).
  { change (unot usize HAS_NEXT) with index_mask. change (Z.shiftl 1 SHIFT) with 2.
    pose proof (pos_bound i). rewrite index_clear; [|lia|unfold in_width; lia].
    rewrite pos_next_lap by done. rewrite wrap_small; [lia|]. unfold in_width. lia. }
  lcs_bind; [eapply (lcs_wait_next N M t Ht); [exact Hc|by intros G [_ ?]]|]. intros m1 c1 nxt _ Hc1.
  cbv zeta. rewrite Hnx. lcs_bind; [eapply (lcs_next_load N M t Ht _ _ _ _ _ _ _ (S (i / 31))); [exact Hc1|]|].
  { by intros G (_ & ? & _). }
  intros m2 c2 nn _ Hc2. cbn beta in Hc2. lcs_bind.
  { apply lcs_act with (Q := fun c _ => has s (THead2 i) (fun G => ((val_is i v G /\ chunk_is (i / 31) chunk G) /\
      chunk_is (S (i / 31)) nxt G /\ tseen (31 * S (i / 31)) G) /\ (nn = 0 \/
      chunk_is (S (S (i / 31))) nn G /\ tseen (31 * S (S (i / 31))) G)) [] bd c).
    intros q log g (G & h & st & Hi' & Hl) Hg. simpl in Hi', Hl. destruct Hc2 as (K & -> & HK).
    destruct (inv_know _ _ _ _ _ _ _ _ _ _ _ Hi' Hg) as [HKG HKs]. destruct (HK _ HKG) as [(_ & Hn & _) _].
    eapply to_step; [exact Hl|eapply (step_head_chunk N M t Ht); eauto|done|done|by rewrite Hg|]. by exists K. }
  intros m3 c3 [] _ Hc3.
  set (b2 := if negb (nn =? 0) then 1 else 0).
  assert (Hidx : (if negb (nn =? 0) then Z.lor (2 * pos (S i)) HAS_NEXT else 2 * pos (S i)) = 2 * pos (S i) + b2).
  { unfold b2. destruct (nn =? 0); simpl; [lia|]. rewrite <- (index_set (pos (S i)) 0) by lia. f_equal. lia. }
  rewrite Hidx. apply lcs_act. intros q log g (G & h & st & Hi' & Hl) Hg. simpl in Hi', Hl.
  destruct Hc3 as (K & -> & HK). destruct (inv_know _ _ _ _ _ _ _ _ _ _ _ Hi' Hg) as [HKG HKs].
  destruct (HK _ HKG) as [(Hvc & _ & Hse) Hnn].
  set (K1 := fun G => val_is i v G /\ chunk_is (i / 31) chunk G).
  eapply to_step; [exact Hl|eapply (step_head_next N M t Ht q g G _ _ K1); eauto| done|done|by rewrite Hg|by eexists].
  - by replace (S i) with (31 * S (i / 31))%nat by lia.
  - unfold b2. destruct (Z.eqb_spec nn 0) as [?|Hne]; simpl; [by left|right]. split; [done|].
    destruct Hnn as [?|[_ [Hx|[Hx _]]]]; [done|lia|lia].
  - unfold K1. auto with stable.
Qed.

Lemma lcs_pop_finish n s bd c i b' v chunk : (i <= M)%nat -> b' = 0 \/ b' = 1 ->
  has s (if decide (i mod 31 = 30)%nat then THead1 i else TNone)
    (fun G => val_is i v G /\ chunk_is (i / 31) chunk G) [] bd c ->
  lcs n t c (pop_finish chunk (Z.of_nat (i mod 31)) (2 * (pos i + 1) + b'))
    (fun c x => x = v /\ has s TNone (fun _ => True) [] bd c).
Proof.
  intros HM Hb' Hc. set (K := fun G => val_is i v G /\ chunk_is (i / 31) chunk G).
  assert (HK : forall G, K G -> chunk_is (i / 31) chunk G) by (by intros G [_ ?]).
  unfold pop_finish, CHUNK_CAP, LAP. lcs_bind.
  { instantiate (1 := fun c _ => has s TNone K [] bd c).
    destruct (Z.eqb_spec (Z.of_nat (i mod 31) + 1) (32 - 1)) as [E|E].
    - rewrite decide_True in Hc by lia. apply lcs_head_on; [done|lia|done|exact Hc].
    - rewrite decide_False in Hc by lia. apply lcs_ret. exact Hc. }
  intros m1 c1 [] _ Hc1. lcs_bind; [eapply (lcs_wait_write N M t Ht); [exact Hc1|done]|].
  intros m2 c2 [] _ Hc2. lcs_bind; [eapply (lcs_value_read N M t Ht _ _ _ _ _ _ _ i _ v); [exact Hc2|]|].
  { intros G [[? ?] ?]. done. }
  intros m3 c3 x _ [-> Hc3].
  assert (Hc3' : has s TNone K [] bd c3) by (eapply has_mono; [exact Hc3|]; by intros G [? _]).
  lcs_bind; [instantiate (1 := fun c _ => has s TNone K [] bd c)|].
  - destruct (Z.eqb_spec (Z.of_nat (i mod 31) + 1) (32 - 1)) as [E|E].
    + eapply (lcs_destroy N M t Ht); [exact Hc3'|exact HK|lia].
    + lcs_bind; [eapply (lcs_fetch_or N M t Ht); [exact Hc3'|exact HK|right; left; split; [done|lia]]|].
      intros m4 c4 y _ [_ Hc4]. destruct (negb _); [|by apply lcs_ret].
      eapply (lcs_destroy N M t Ht); [exact Hc4|exact HK|lia].
  - intros m4 c4 [] _ Hc4. apply lcs_ret. split; [done|]. eapply has_mono; [exact Hc4|done].
Qed.

Lemma head_offset i b : b = 0 \/ b = 1 -> Z.shiftr (2 * pos i + b) SHIFT mod LAP = Z.of_nat (i mod 31).
Proof. intros Hb. rewrite index_shift by lia. apply pos_offset. Qed.

Lemma lcs_pop n bd c : has (Called TryPop) TNone (fun _ => True) [] bd c ->
  lcs n t c CoQueue_pop (fun c r => has (Committed (Popped r)) TNone (fun _ => True) [] bd c).
Proof.
  intros Hc. eapply lcs_load_both_heads; [exact Hc|]. clear c Hc. intros m1 c head chunk Hv Hc.
  eapply (lcs_loop N M _ _ (fun c (i : Backoff.Backoff * Z * Z) => let '(b, head, chunk) := i in
    head_val head /\
    has (Called TryPop) TNone (fun G => hk head G /\ hck head chunk G) [] bd c)); [done|].
  clear c Hc head chunk Hv. intros m2 c [[bo head] chunk] _ [(i & b & Hi & Hb & Hx) Hc].
  assert (Hreload : forall m c K (bo : Backoff.Backoff), has (Called TryPop) TNone K [] bd c ->
    lcs m t c (let! head := load_head_index in let! chunk := load_head_chunk in
      Ret (@inl _ (option T) (bo, head, chunk)))
      (fun c r => match r with
        | inl (b, head, chunk) => head_val head /\
            has (Called TryPop) TNone (fun G => hk head G /\ hck head chunk G) [] bd c
        | inr r => forall m', (m' <= m1)%nat ->
            lcs m' t c (Ret r) (fun c r => has (Committed (Popped r)) TNone (fun _ => True) [] bd c)
        end)).
  { intros m c' K bo' Hc'. eapply lcs_load_both_heads; [exact Hc'|]. intros. by apply lcs_ret. }
  destruct Hx as [-> |(Hm & H0 & ->)].
  - rewrite head_offset by done. unfold CHUNK_CAP at 1, LAP.
    destruct (Z.eqb_spec (Z.of_nat (i mod 31)) (32 - 1)) as [E|_]; [lia|].
    change (Z.shiftl 1 SHIFT) with 2.
    assert (Hadd : uadd (2 * pos i + b) 2 = Ret (St := CoQueue T) (2 * (pos i + 1) + b)).
    { unfold uadd, add_w. pose proof (pos_bound i). rewrite (proj2 (Z.ltb_lt _ _)); [f_equal|]; lia. }
    rewrite Hadd. lcs_bind; [by apply lcs_ret with (Q := fun c' r => c' = c /\ r = 2 * (pos i + 1) + b)|].
    intros m3 ? ? _ [-> ->]. lcs_bind; [by apply lcs_pop_check|]. intros m4 c4 [nh|] _ Hc4.
    + destruct Hc4 as (b' & Hb' & -> & Hc4). destruct (Z.eqb_spec chunk 0) as [_|Hne]; [by eapply Hreload|].
      lcs_bind; [by apply lcs_take|]. intros m5 c5 [r|x] _ Hc5.
      * destruct Hc5 as (v & Hc5). lcs_bind; [by apply lcs_pop_finish|]. intros m6 c6 x _ [-> Hc6].
        apply lcs_ret. intros m' _. by apply lcs_ret.
      * destruct Hc5 as [Hv Hc5]. lcs_bind; [by apply lcs_load_head_chunk|].
        intros m6 c6 chunk' _ [_ Hc6]. by apply lcs_ret.
    + apply lcs_ret. intros m' _. by apply lcs_ret.
  - assert (Hoff : Z.shiftr (2 * (pos i - 1) + b) SHIFT mod LAP = CHUNK_CAP).
    { rewrite index_shift by lia. unfold pos, CHUNK_CAP, LAP. lia. }
    rewrite Hoff. cbv zeta. rewrite Z.eqb_refl. by eapply Hreload.
Qed.
End Pop.
