(* ===== verification/CoQueueConc.v ===== *)
(** * The chunked queue is linearizable

    Any number of threads push values to one [CoQueue] and pop from it.  Whatever
    the order of their atomic steps, nothing goes wrong, and the calls and returns
    are those of a queue whose operations happen at once. *)

From Stdlib Require Import ZifyNat.
From S2P Require Import Prelude Machine Conc Fifo Timing Arena CoQueue CoQueueSpec CoQueueMain.
From S2P Require Import Linear CoQueueGhost CoQueueSteps CoQueueLin.

#[local] Ltac Zify.zify_post_hook ::= Z.to_euclidean_division_equations.
#[local] Arguments Nat.div : simpl never.
#[local] Arguments Nat.modulo : simpl never.
#[local] Arguments Nat.mul : simpl never.

Section Clients.
Context `{CA : ChunkAlloc} {T : Type}.
Abbreviation St := (CoQueue T * list (event (T := T)))%type.

(** How many values a thread, and all of them, push. *)
Definition pushes_of (os : list (option T)) : nat := pushes (as_op <$> os).
Definition all_pushes (ps : list (list (option T))) : nat := sum_list (pushes_of <$> ps).

Lemma pushes_of_cons o os : pushes_of (o :: os) = (push1 (as_op o) + pushes_of os)%nat.
Proof. apply pushes_cons. Qed.

Section Pool.
Context (N M : nat) (room : (M / 31 + 1 + 2 * N < chunk_room)%nat) (small : Z.of_nat M < 2 ^ 60).

Lemma width : 4 * Z.of_nat M + 4 < 2 ^ usize.
Proof. unfold usize. lia. Qed.

Abbreviation cs := (csafe (LInv (T := T) N M) eq nowait).

(** Between operations. *)
Abbreviation resting := (has Idle TNone (fun _ => True) []).

Lemma note_call n t (o : op T) bd c : (t < N)%nat -> resting bd c ->
  cs n t c (store (note (Call t o))) (fun c _ => has (Called o) TNone (fun _ => True) [] bd c).
Proof.
  intros Ht (K & -> & HK). apply csafe_store. intros [q log] g (G & h & st & Hi & Hr & Hst & Hl) Hg.
  simpl in *. exists (<[t := MkPhase (Called o) TNone K [] bd]> g). split_and!.
  - exists G, (h ++ [Call t o]), (<[t := Called o]> st). simpl. split.
    + destruct (inv_know _ _ _ _ _ _ _ _ _ _ _ Hi (eq_sym Hg)). by eapply step_know.
    + split_and!.
      * apply runs_call; [done|]. by rewrite Hst, <- Hg.
      * intros u. destruct (decide (t = u)) as [<-|];
          [by rewrite !fn_lookup_insert|by rewrite !fn_lookup_insert_ne].
      * rewrite filter_app. simpl. by rewrite Hl.
  - intros u Hu. by rewrite fn_lookup_insert_ne.
  - rewrite fn_lookup_insert. intros c' <-. by exists K.
Qed.

Lemma note_return n t (r : obs T) bd c : (t < N)%nat -> has (Committed r) TNone (fun _ => True) [] bd c ->
  cs n t c (store (note (Return t r))) (fun c _ => resting bd c).
Proof.
  intros Ht (K & -> & HK). apply csafe_store. intros [q log] g (G & h & st & Hi & Hr & Hst & Hl) Hg.
  simpl in *. exists (<[t := MkPhase Idle TNone K [] bd]> g). split_and!.
  - exists G, (h ++ [Return t r]), (<[t := Idle]> st). simpl. split.
    + destruct (inv_know _ _ _ _ _ _ _ _ _ _ _ Hi (eq_sym Hg)). by eapply step_know.
    + split_and!.
      * apply runs_return; [done|]. by rewrite Hst, <- Hg.
      * intros u. destruct (decide (t = u)) as [<-|];
          [by rewrite !fn_lookup_insert|by rewrite !fn_lookup_insert_ne].
      * rewrite filter_app. simpl. by rewrite Hl.
  - intros u Hu. by rewrite fn_lookup_insert_ne.
  - rewrite fn_lookup_insert. intros c' <-. by exists K.
Qed.

Lemma co_op_ok n t (o : option T) bd c : (t < N)%nat ->
  has (Called (as_op o)) TNone (fun _ => True) [] (push1 (as_op o) + bd) c ->
  lcs N M n t c (run_op (as_op o)) (fun c r => has (Committed r) TNone (fun _ => True) [] bd c).
Proof.
  intros Ht Hc. destruct o as [v|]; simpl in *.
  - lcs_bind; [by apply lcs_push; [| |apply width|]|]. intros m c1 [] _ Hc1. by apply lcs_ret.
  - lcs_bind; [by apply lcs_pop; [|apply width|]|]. intros m c1 r _ Hc1. by apply lcs_ret.
Qed.

Lemma co_client_ok n t (os : list (option T)) : (t < N)%nat -> forall c, resting (pushes_of os) c ->
  cs n t c (queue_client t os) (fun c _ => resting 0 c).
Proof.
  intros Ht. revert n. induction os as [|o os IH]; intros n c Hc; simpl.
  - apply csafe_ret. by intros c' <-.
  - rewrite pushes_of_cons in Hc. eapply (csafe_bind _ eq); [by apply note_call|]. intros m1 c1 [] _ Hc1.
    eapply (csafe_bind _ eq); [exact (co_op_ok m1 t o (pushes_of os) c1 Ht Hc1)|]. intros m2 c2 r _ Hc2.
    eapply (csafe_bind _ eq); [apply note_return; [done|exact Hc2]|]. intros m3 c3 [] _ Hc3. auto.
Qed.
End Pool.

(** The start. *)
Definition start (ps : list (list (option T))) (t : nat) : phase (T := T) :=
  MkPhase Idle TNone (fun _ => True) [] (default 0%nat (pushes_of <$> ps !! t)).

Lemma total_sum (l : list nat) : total (fun t => default 0%nat (l !! t)) (length l) = sum_list l.
Proof.
  induction l as [|x l IH] using rev_ind; [done|]. rewrite length_app, Nat.add_1_r. simpl.
  rewrite lookup_snoc_last. simpl. rewrite sum_list_with_app || rewrite sum_list_app. simpl.
  rewrite (total_ext (fun t => default 0%nat (l !! t))), IH; [lia|].
  intros u Hu. by rewrite lookup_app_l.
Qed.

Lemma start_ok ps : LInv (length ps) (all_pushes ps) (CoQueue_new, []) (start ps).
Proof.
  exists (MkGhost [] 0 [] Norm Norm None ∅), [], (fun _ => Idle). split; [split|].
  - split; simpl; try done.
    + split; [done|]. simpl. split; [done|by left].
    + split; simpl; [|by left]. exists 0. split; [by left|]. split_and!; [done|lia|done].
    + constructor.
  - split; simpl; try done.
    + intros t k Hk. destruct k; simpl; split; try done; by intros [? ?].
    + intros t a Ha. by apply elem_of_nil in Ha.
    + intros t u a _ Ha. by apply elem_of_nil in Ha.
    + intros t. constructor.
    + intros t. lia.
    + intros a [x Hx]. by rewrite lookup_empty in Hx.
    + unfold all_pushes. rewrite <- total_sum, length_fmap.
      rewrite (total_ext (fun t => default 0%nat ((pushes_of <$> ps) !! t))
        (fun t => default 0%nat (pushes_of <$> ps !! t))); [done|]. intros u _. by rewrite list_lookup_fmap.
  - split_and!; [apply runs_nil|done|done].
Qed.

(** There is room for the chunks of all values, with two more for each thread, and
    the indices stay in 64 bits. *)
Definition fits (ps : list (list (option T))) : Prop :=
  (all_pushes ps / 31 + 1 + 2 * length ps < chunk_room)%nat /\ Z.of_nat (all_pushes ps) < 2 ^ 60.

Lemma co_clients_safe ps : fits ps ->
  pool_safe (LInv (length ps) (all_pushes ps)) eq nowait (queue_clients ps) (start ps)
    (fun _ c _ => has Idle TNone (fun _ => True) [] 0 c).
Proof.
  intros [Hr Hw] t p Hp n. unfold queue_clients in Hp. rewrite list_lookup_imap in Hp.
  destruct (ps !! t) as [os|] eqn:E; simplify_eq/=. apply co_client_ok; [done|done|by eapply lookup_lt_Some|].
  unfold start. rewrite E. by eexists.
Qed.

Lemma co_clients_reach ps evs : fits ps ->
  match sched evs (queue_clients ps) (CoQueue_new, []) with
  | POk ts s => exists g, LInv (length ps) (all_pushes ps) s g /\
      ((forall t p, ts !! t = Some p -> p = Ret ()) -> forall t, tok (g t) = TNone /\ at_ (g t) = Idle)
  | PFail _ _ _ => False
  | PBad => True
  end.
Proof.
  intros Hf. pose proof (pool_adequate _ _ _ evs _ _ _ _ (start_ok ps) (co_clients_safe ps Hf)) as H.
  destruct (sched _ _ _) as [ts s| |]; [|done|done]. destruct H as (g & Hi & Hret & Hout & _).
  exists g. split; [done|]. intros Hall t. destruct (ts !! t) as [p|] eqn:E.
  - pose proof (Hall t p E) as ->. destruct (Hret t () E) as (K & -> & _). done.
  - by rewrite <- (Hout t E).
Qed.

(** C1. [CoQueue] is linearizable: however the atomic steps of any number of threads
    that push and pop interleave, no access is out of bounds, to freed or to
    uninitialised memory, nothing panics, and each operation takes effect at once,
    between its call and its return, on a first-in-first-out queue. *)
Theorem co_queue_linearizable (ps : list (list (option T))) (evs : list (nat * env)) :
  fits ps ->
  match sched evs (queue_clients ps) (CoQueue_new, []) with
  | POk _ s => linearizable s.2
  | PFail _ _ _ => False
  | PBad => True
  end.
Proof.
  intros Hf. pose proof (co_clients_reach ps evs Hf) as H. destruct (sched _ _ _); [|done|done].
  destruct H as (g & (G & h & st & _ & Hr & _ & Hl) & _). by exists h, (drop (taken G) (vals G)), st.
Qed.

(** C2. Nothing is lost and nothing appears twice: at any time the values popped are,
    with their multiplicities, among the values pushed; and once every thread has
    returned, [len] is the number of values pushed minus the number popped. *)
Theorem co_queue_conserves (ps : list (list (option T))) (evs : list (nat * env)) ts s :
  fits ps -> sched evs (queue_clients ps) (CoQueue_new, []) = POk ts s ->
  omap popped s.2 ⊆+ omap pushed s.2 /\
  ((forall t p, ts !! t = Some p -> p = Ret ()) ->
   returns CoQueue_len s.1 (fun n _ =>
     n = Z.of_nat (length (omap pushed s.2)) - Z.of_nat (length (omap popped s.2)))).
Proof.
  intros Hf Hsch. pose proof (co_clients_reach ps evs Hf) as H. rewrite Hsch in H.
  destruct H as (g & (G & h & st & [Hs Hth] & Hr & Hst & Hl) & Hfin). split.
  { apply linearizable_popped. by exists h, (drop (taken G) (vals G)), st. }
  intros Hall. specialize (Hfin Hall).
  assert (Hmode : forall t k, k <> TNone -> ~ holds G t k).
  { intros t k Hk Hh. apply (h_tok _ _ _ _ _ Hth t k Hk) in Hh. by rewrite (proj1 (Hfin t)) in Hh. }
  assert (Htm : tm G = Norm /\ hm G = Norm).
  { destruct (s_tail _ _ Hs) as [_ Htl]. destruct (s_head _ _ Hs) as [(b & _ & Hhd) _]. split.
    - destruct (tm G) as [|u|u] eqn:E; [done|exfalso..]; destruct Htl as (_ & H0 & _).
      + apply (Hmode u (TTail1 (pred (length (vals G))))); [done|]. split; [done|lia].
      + apply (Hmode u (TTail2 (pred (length (vals G))))); [done|]. split; [done|lia].
    - destruct (hm G) as [|u|u] eqn:E; [done|exfalso..]; destruct Hhd as (_ & H0 & _).
      + apply (Hmode u (THead1 (pred (taken G)))); [done|]. split; [done|lia].
      + apply (Hmode u (THead2 (pred (taken G)))); [done|]. split; [done|lia]. }
  destruct Htm as [Htm Hhm]. destruct (s_tail _ _ Hs) as [_ Htl]. rewrite Htm in Htl.
  destruct (s_head _ _ Hs) as [(b & Hb & Hhd) _]. rewrite Hhm in Hhd.
  assert (Hidle : forall t, st t = Idle) by (intros t; rewrite Hst; apply Hfin).
  pose proof (runs_idle _ _ _ Hr Hidle) as Hcons. rewrite Hl in Hcons. apply Permutation_length in Hcons.
  rewrite length_app, length_drop in Hcons. pose proof (s_le _ _ Hs) as Hle.
  assert (Hsmall : (length (vals G) <= all_pushes ps)%nat) by (pose proof (h_budget _ _ _ _ _ Hth); lia).
  destruct Hf as [_ Hw]. intros n.
  eapply twp_mono; [apply (CoQueue_len_idle _ (taken G) (length (vals G)) b); [lia|apply Htl|apply Hhd|lia|lia]|].
  intros m x q' _ [-> _]. lia.
Qed.
End Clients.

(** ** A run

    One thread pushes 7 and 8 while the other pops twice. *)
Definition two_clients : list (list (option Z)) := [[Some 7; Some 8]; [None; None]].

Definition alternate (n : nat) : list (nat * env) := concat (repeat [(0%nat, calm); (1%nat, calm)] n).

Definition two_sched : list (nat * env) := alternate 14 ++ steps 0 7 ++ steps 1 4.

Lemma two_clients_fit : fits two_clients.
Proof. split; vm_compute; lia || done. Qed.

(** What the two threads see. *)
Definition two_log : list (event (T := Z)) :=
  [Call 0 (Push 7); Call 1 TryPop; Return 1 (Popped None); Call 1 TryPop; Return 0 Pushed;
   Call 0 (Push 8); Return 0 Pushed; Return 1 (Popped (Some 7))].

Lemma two_run : exists q, sched two_sched (queue_clients two_clients) (CoQueue_new, []) =
  POk [Ret (); Ret ()] (q, two_log).
Proof. eexists. vm_compute. reflexivity. Qed.

Lemma co_queue_linearizable_witness : fits two_clients /\ linearizable two_log.
Proof.
  split; [exact two_clients_fit|].
  pose proof (co_queue_linearizable two_clients two_sched two_clients_fit) as H.
  destruct two_run as [q E]. rewrite E in H. exact H.
Defined.

Lemma co_queue_conserves_witness : exists q,
  sched two_sched (queue_clients two_clients) (CoQueue_new, []) = POk [Ret (); Ret ()] (q, two_log) /\
  returns CoQueue_len q (fun n _ => n = 1).
Proof.
  destruct two_run as [q E]. exists q. split; [exact E|].
  destruct (co_queue_conserves two_clients two_sched _ _ two_clients_fit E) as [_ H].
  apply H. intros [|[|t]] p Hp; vm_compute in Hp; congruence.
Defined.
