(* ===== verification/CoQueueLen.v ===== *)
(** * [len] and [is_empty] while other threads push and pop

    [CoQueueMain] has [len] and [is_empty] of a queue that nobody uses.  Here they are
    run in any state that threads reach, with their operations anywhere in progress.
    The index of a segment then may be one past the last slot of a chunk, until the
    thread that gave or took that slot has moved it to the next chunk. *)

From Stdlib Require Import ZifyNat.
From S2P Require Import Prelude Machine Conc Fifo Timing Arena CoQueue CoQueueSpec CoQueueMain.
From S2P Require Import Linear CoQueueGhost CoQueueSteps CoQueueLin CoQueueConc.

#[local] Ltac Zify.zify_post_hook ::= Z.to_euclidean_division_equations.
#[local] Arguments Nat.div : simpl never.
#[local] Arguments Nat.modulo : simpl never.
#[local] Arguments Nat.mul : simpl never.

(** An index past the last slot of a chunk. *)
Definition chunk_end (index : Z) : Prop := Z.shiftr index SHIFT mod LAP = CHUNK_CAP.

(** Both segments at the end of the same chunk. *)
Definition same_end {T} (q : CoQueue T) : Prop :=
  chunk_end (tail_index q) /\ Z.shiftr (head_index q) SHIFT = Z.shiftr (tail_index q) SHIFT.

#[export] Instance chunk_end_dec x : Decision (chunk_end x).
Proof. unfold chunk_end. apply _. Defined.
#[export] Instance same_end_dec {T} (q : CoQueue T) : Decision (same_end q).
Proof. unfold same_end. apply _. Defined.

Section Len.
Context `{CA : ChunkAlloc} {T : Type}.
Implicit Types (q : CoQueue T).

(** The position of the index after [i] values; [e] if it is past the last slot of their
    last chunk. *)
Definition raw (e : bool) (i : nat) : Z := pos i - if e then 1 else 0.
Definition end_ok (e : bool) (i : nat) : Prop := e = true -> (i mod 31 = 0)%nat /\ i <> 0%nat.

Lemma raw_bound e i : end_ok e i -> 0 <= raw e i <= 2 * Z.of_nat i.
Proof. unfold raw, end_ok, pos. destruct e; intros He; [destruct (He eq_refl); lia|lia]. Qed.

Lemma raw_lap e i : end_ok e i -> raw e i / 32 = Z.of_nat (i / 31) - if e then 1 else 0.
Proof. unfold raw, end_ok, pos. destruct e; intros He; [destruct (He eq_refl); lia|lia]. Qed.

Lemma raw_end e i : end_ok e i -> raw e i mod 32 = 31 <-> e = true.
Proof.
  unfold raw, end_ok, pos. destruct e; intros He; split; intros Hm; try done; [destruct (He eq_refl); lia|].
  exfalso. lia.
Qed.

(** The arithmetic of [len], from the correction of the tail on. *)
Lemma len_rest n tl hd q (Q : nat -> Z -> CoQueue T -> Prop) : 0 <= hd ->
  0 <= tl < 2 ^ 62 -> hd + tl / 32 <= tl ->
  Q n (tl - hd - tl / 32) q ->
  twp n (let! tail := (if tl =? 31 then uadd tl 1 else Ret tl) in
         let! d := usub tail hd in usub d (tail / 32)) q Q.
Proof.
  intros Hhd Hb Htl HQ. apply twp_bind. destruct (Z.eqb_spec tl 31) as [->|].
  - apply twp_uadd; [unfold usize; lia|]. apply twp_bind, twp_usub; [lia|]. apply twp_usub; [lia|].
    by replace (31 + 1 - hd - (31 + 1) / 32) with (31 - hd - 31 / 32) by lia.
  - apply twp_ret, twp_bind, twp_usub; [lia|]. by apply twp_usub; [lia|].
Qed.

Ltac ends :=
  unfold raw, pos, end_ok, LAP in *;
  repeat match goal with
  | b : bool |- _ => destruct b
  | H : ?x = ?x -> _ |- _ => specialize (H eq_refl)
  | H : _ \/ _ = _ |- _ => destruct H; [|try discriminate]
  end; cbv match in *; lia.

Lemma len_of_any n h k eh et f q (Q : nat -> Z -> CoQueue T -> Prop) :
  (h <= k)%nat -> Z.of_nat k < 2 ^ 60 -> 0 <= f < 2 -> end_ok eh h -> end_ok et k -> (h = k -> et = false) ->
  Q n (Z.of_nat (k - h)) q -> twp n (len_of (2 * raw et k) (2 * raw eh h + f)) q Q.
Proof.
  intros Hle Hb Hf Hh Hk Hne HQ. unfold len_of.
  pose proof (raw_bound _ _ Hh) as Bh. pose proof (raw_bound _ _ Hk) as Bk.
  rewrite <- (Z.add_0_r (2 * raw et k)), !index_clear by (unfold in_width, usize; lia).
  rewrite index_shift0. change LAP with 32. change CHUNK_CAP with 31.
  unfold SHIFT. rewrite !Z.shiftl_mul_pow2 by lia. change (2 ^ 1) with 2.
  assert (Hsub : k <> h \/ et = false) by (destruct (decide (k = h)); auto).
  assert (Hlp : 32 * (raw eh h / 32) <= raw et k) by ends.
  replace (2 * raw et k - raw eh h / 32 * 32 * 2) with (2 * (raw et k - 32 * (raw eh h / 32))) by lia.
  replace (2 * raw eh h - raw eh h / 32 * 32 * 2) with (2 * (raw eh h mod 32)) by lia.
  rewrite !wrap_small by (unfold in_width, usize; lia). rewrite !index_shift0.
  pose proof (raw_end eh h Hh) as Heh. pose proof (raw_lap eh h Hh) as Hlap. apply twp_bind.
  assert (Hdiv : (h / 31 <= k / 31)%nat) by (apply Nat.Div0.div_le_mono; lia).
  destruct (Z.eqb_spec (raw eh h mod 32) 31) as [E|E].
  - apply Heh in E as ->. clear Heh. apply twp_bind, twp_usub; [rewrite Hlap; ends|].
    apply twp_ret, len_rest; [lia|ends|ends|].
    replace (_ - _ - _) with (Z.of_nat (k - h)); [done|]. ends.
  - destruct eh; [by destruct E; apply Heh|]. clear Heh.
    apply twp_ret, len_rest; [lia|ends|ends|].
    replace (_ - _ - _) with (Z.of_nat (k - h)); [done|]. ends.
Qed.

(** At the end of the same chunk, it subtracts too much. *)
Lemma len_of_end n h f q : Z.of_nat h < 2 ^ 60 -> 0 <= f < 2 -> end_ok true h ->
  wrong n (len_of (2 * raw true h) (2 * raw true h + f)) q (fun e _ => e = Panic).
Proof.
  intros Hb Hf Hh. pose proof (raw_bound _ _ Hh) as Bh. unfold len_of.
  assert (Hc : forall f, 0 <= f < 2 -> Z.land (2 * raw true h + f) index_mask = 2 * raw true h)
    by (intros; apply index_clear; unfold in_width, usize; lia).
  pose proof (Hc 0 ltac:(lia)) as Hc0. rewrite Z.add_0_r in Hc0. rewrite Hc, Hc0 by done.
  rewrite index_shift0. change LAP with 32. change CHUNK_CAP with 31.
  unfold SHIFT. rewrite !Z.shiftl_mul_pow2 by lia. change (2 ^ 1) with 2.
  replace (2 * raw true h - raw true h / 32 * 32 * 2) with (2 * (raw true h mod 32)) by lia.
  rewrite !wrap_small by (unfold in_width, usize; lia). rewrite !index_shift0.
  rewrite (proj2 (raw_end true h Hh)), Z.eqb_refl by done.
  apply wrong_bind_l, wrong_bind_l. by eapply wrong_fail.
Qed.

(** ** In a state that threads reach *)

Abbreviation given G := (length (vals G)).

Lemma tail_raw q G : shape q G -> exists e, tail_index q = 2 * raw e (given G) /\ end_ok e (given G) /\
  (tm G = Norm -> e = false).
Proof.
  intros Hs. destruct (s_tail _ _ Hs) as [_ Ht]. destruct (tm G) as [|u|u].
  - destruct Ht as [Ht _]. exists false. unfold raw, end_ok. rewrite Ht. split_and!; [lia|done..].
  - destruct Ht as (Hm & H0 & Ht & _). exists true. unfold raw, end_ok. rewrite Ht. done.
  - destruct Ht as (Hm & H0 & Ht & _). exists true. unfold raw, end_ok. rewrite Ht. done.
Qed.

Lemma head_raw q G : shape q G -> exists e b, 0 <= b < 2 /\ head_index q = 2 * raw e (taken G) + b /\
  end_ok e (taken G) /\ (e = false -> taken G = given G -> tm G = Norm).
Proof.
  intros Hs. destruct (s_head _ _ Hs) as [(b & Hb & Hh) _]. destruct (hm G) as [|u|u].
  - destruct Hh as (Hh & _ & Ht). exists false, b. unfold raw, end_ok. rewrite Hh. split_and!; try lia; done.
  - destruct Hh as (Hm & H0 & Hh). exists true, b. unfold raw, end_ok. rewrite Hh. split_and!; try lia; done.
  - destruct Hh as (Hm & H0 & Hh). exists true, b. unfold raw, end_ok. rewrite Hh. split_and!; try lia; done.
Qed.

(** The two indices. *)
Lemma indices q G : shape q G -> exists eh et b, 0 <= b < 2 /\
  tail_index q = 2 * raw et (given G) /\ end_ok et (given G) /\
  head_index q = 2 * raw eh (taken G) + b /\ end_ok eh (taken G) /\
  (eh = false -> taken G = given G -> et = false) /\
  (same_end q <-> et = true /\ taken G = given G) /\ (chunk_end (head_index q) <-> eh = true).
Proof.
  intros Hs. destruct (tail_raw _ _ Hs) as (et & Ht & Het & Htm). destruct (head_raw _ _ Hs) as (eh & b & Hb & Hh & Heh & Hn).
  exists eh, et, b. do 5 (split; [done|]). split; [by auto|]. split.
  - unfold same_end, chunk_end. rewrite Ht, Hh, index_shift0, index_shift by done.
    change LAP with 32. change CHUNK_CAP with 31. rewrite (raw_end et _ Het). pose proof (s_le _ _ Hs).
    split; intros [-> E]; (split; [done|]).
    + destruct eh; [|clear Htm Hn; exfalso]; ends.
    + destruct eh; [by rewrite E|]. specialize (Htm (Hn eq_refl E)). done.
  - unfold chunk_end. rewrite Hh, index_shift by done. by apply raw_end.
Qed.

(** Equal indices: the queue is empty. *)
Lemma index_empty q G : shape q G -> Z.shiftr (head_index q) SHIFT = Z.shiftr (tail_index q) SHIFT ->
  taken G = given G.
Proof.
  intros Hs. destruct (indices _ _ Hs) as (eh & et & b & Hbb & Ht & Het & Hh & Heh & _).
  rewrite Ht, Hh, index_shift0, index_shift by done. pose proof (s_le _ _ Hs). intros E. ends.
Qed.

Lemma len_midway q G : shape q G -> Z.of_nat (given G) < 2 ^ 60 ->
  if decide (same_end q) then taken G = given G /\ faults CoQueue_len q Panic
  else returns CoQueue_len q (fun n q' => n = Z.of_nat (given G - taken G) /\ q' = q).
Proof.
  intros Hs Hb. destruct (indices _ _ Hs) as (eh & et & b & Hbb & Ht & Het & Hh & Heh & Hn & Hse & _).
  pose proof (s_le _ _ Hs). case_decide as E.
  - apply Hse in E as [-> E]. split; [done|].
    assert (eh = true) as -> by (destruct eh; [done|]; by specialize (Hn eq_refl E)).
    intros n. unfold CoQueue_len, forever, loop. apply wrong_loop, wrong_bind_l, wrong_bind_l.
    unfold load_tail_index, load_head_index. do 3 (eapply wrong_act; [reflexivity|]). cbn beta.
    rewrite Z.eqb_refl, Ht, Hh, E. apply wrong_bind_l, len_of_end; [lia|done|by rewrite E in Heh].
  - intros n. unfold CoQueue_len. apply twp_forever. unfold load_head_index, load_tail_index. wp.
    rewrite Z.eqb_refl. apply twp_bind. rewrite Ht, Hh. apply len_of_any; try done.
    + intros E'. destruct et; [|done]. destruct E. by apply Hse.
    + by apply twp_ret.
Qed.

Lemma is_empty_midway q G : shape q G ->
  returns CoQueue_is_empty q (fun r q' => q' = q /\
    (r = true <-> taken G = given G /\ (chunk_end (head_index q) -> same_end q))).
Proof.
  intros Hs n. destruct (indices _ _ Hs) as (eh & et & b & Hbb & Ht & Het & Hh & Heh & Hn & Hse & Hce).
  unfold CoQueue_is_empty, load_head_index, load_tail_index. wp. split; [done|].
  rewrite Hce, Hse, Ht, Hh, index_shift0, index_shift, Z.eqb_eq by done. pose proof (s_le _ _ Hs).
  split.
  - intros E. clear Hse Hce Hn. assert (eh = et /\ taken G = given G) as [-> ?]; [|done].
    destruct eh, et; (split; [try done; exfalso|]); ends.
  - intros [E Hc]. rewrite E in *. destruct eh; [destruct (Hc eq_refl) as [-> _]; done|].
    by rewrite (Hn eq_refl eq_refl).
Qed.

(** ** Properties *)

(** The state of clients, with the contents of the queue. *)
Lemma clients_shape (ps : list (list (option T))) evs ts s :
  fits ps -> sched evs (queue_clients ps) (CoQueue_new, []) = POk ts s ->
  exists G h st, shape s.1 G /\ Z.of_nat (given G) < 2 ^ 60 /\ runs h (drop (taken G) (vals G)) st /\
    filter visible h = s.2.
Proof.
  intros Hf Hs. pose proof (co_clients_reach ps evs Hf) as H. rewrite Hs in H.
  destruct H as (g & (G & h & st & [Hsh Hth] & Hr & _ & Hl) & _). exists G, h, st. split_and!; [done| |done|done].
  destruct Hf as [_ Hw]. pose proof (h_budget _ _ _ _ _ Hth). lia.
Qed.
End Len.

(** C11. [len] while threads push and pop, with their operations anywhere in progress: it
    returns the number of elements of the queue, those whose push has taken effect and
    that no pop has taken; except when both indices are past the last slot of the same
    chunk, because the thread that filled the slot and the one that emptied it have
    still to move them on.  The queue is then empty, and [len] panics: it subtracts a
    lap from a tail that is less than a lap ahead. *)
Theorem co_queue_len_midway `{ChunkAlloc} {T : Type} (ps : list (list (option T))) evs ts s :
  fits ps -> sched evs (queue_clients ps) (CoQueue_new, []) = POk ts s ->
  exists h xs st, runs h xs st /\ filter visible h = s.2 /\
    if decide (same_end s.1) then xs = [] /\ faults CoQueue_len s.1 Panic
    else returns CoQueue_len s.1 (fun n q => n = Z.of_nat (length xs) /\ q = s.1).
Proof.
  intros Hf Hs. destruct (clients_shape ps evs ts s Hf Hs) as (G & h & st & Hsh & Hb & Hr & Hl).
  exists h, (drop (taken G) (vals G)), st. split_and!; [done|done|].
  pose proof (len_midway _ _ Hsh Hb) as Hm. case_decide.
  - destruct Hm as [E ?]. split; [|done]. apply drop_ge. lia.
  - by rewrite length_drop.
Qed.

(** C17. [is_empty] in the same states: if it returns [true] the queue is empty, and it
    returns [false] for an empty queue only while the pop of the last slot of a chunk
    has still to move the head on. *)
Theorem co_queue_is_empty_midway `{ChunkAlloc} {T : Type} (ps : list (list (option T))) evs ts s :
  fits ps -> sched evs (queue_clients ps) (CoQueue_new, []) = POk ts s ->
  exists h xs st, runs h xs st /\ filter visible h = s.2 /\
    returns CoQueue_is_empty s.1 (fun r q => q = s.1 /\
      (r = true <-> xs = [] /\ (chunk_end (head_index s.1) -> same_end s.1))).
Proof.
  intros Hf Hs. destruct (clients_shape ps evs ts s Hf Hs) as (G & h & st & Hsh & _ & Hr & Hl).
  exists h, (drop (taken G) (vals G)), st. split_and!; [done|done|]. intros n.
  eapply twp_mono; [by apply is_empty_midway|]. intros m r q _ [-> Hiff]. split; [done|]. rewrite Hiff.
  pose proof (s_le _ _ Hsh). split; intros [E ?]; (split; [|done]).
  - apply drop_ge. lia.
  - apply (f_equal length) in E. rewrite length_drop in E. simpl in E. lia.
Qed.

(** ** A full chunk

    One thread pushes 31 values, another pops them.  Both stop after the step that gives
    or takes the last one. *)
Definition full_clients : list (list (option Z)) := [replicate 31 (Some 7); replicate 31 None].

Lemma full_clients_fit : fits full_clients.
Proof. split; vm_compute; lia || done. Qed.

Definition both_at_end : list (nat * env) := steps 0 280 ++ steps 1 367.
Definition head_at_end : list (nat * env) := steps 0 286 ++ steps 1 337.

Lemma co_queue_len_midway_witness :
  exists ts s, sched both_at_end (queue_clients full_clients) (CoQueue_new, []) = POk ts s /\
    faults CoQueue_len s.1 Panic.
Proof.
  assert (E : exists ts s, sched both_at_end (queue_clients full_clients) (CoQueue_new, []) = POk ts s /\
    same_end s.1) by (do 2 eexists; split; [vm_compute; reflexivity|vm_compute; done]).
  destruct E as (ts & s & E & Hend). exists ts, s. split; [exact E|].
  destruct (co_queue_len_midway full_clients both_at_end ts s full_clients_fit E) as (h & xs & st & _ & _ & H).
  rewrite decide_True in H by exact Hend. apply H.
Defined.

Lemma len_all_popped (q : CoQueue Z) : tail_index q = 2 * raw false 31 -> head_index q = 2 * raw true 31 + 1 ->
  returns CoQueue_len q (fun n _ => n = 0).
Proof.
  intros Ht Hh n. unfold CoQueue_len. apply twp_forever. unfold load_head_index, load_tail_index. wp.
  rewrite Z.eqb_refl. apply twp_bind. rewrite Ht, Hh. apply len_of_any; try done. by apply twp_ret.
Qed.

(** All values are popped, [len] says so, and [is_empty] does not. *)
Lemma co_queue_is_empty_midway_witness :
  exists ts s, sched head_at_end (queue_clients full_clients) (CoQueue_new, []) = POk ts s /\
    returns CoQueue_len s.1 (fun n _ => n = 0) /\ returns CoQueue_is_empty s.1 (fun r _ => r = false).
Proof.
  assert (E : exists ts s, sched head_at_end (queue_clients full_clients) (CoQueue_new, []) = POk ts s /\
    (chunk_end (head_index s.1) /\ ~ same_end s.1) /\ returns CoQueue_len s.1 (fun n _ => n = 0)).
  { do 2 eexists. split; [vm_compute; reflexivity|]. split; [split; [vm_compute; done|]|].
    - intros [Hc _]. vm_compute in Hc. done.
    - by apply len_all_popped. }
  destruct E as (ts & s & E & [Hh Hend] & Hlen). exists ts, s. split; [exact E|]. split; [exact Hlen|].
  destruct (co_queue_is_empty_midway full_clients head_at_end ts s full_clients_fit E) as (h & xs & st & _ & _ & H).
  intros n. eapply twp_mono; [apply H|]. intros m r q _ [_ Hr]. destruct r; [|done].
  destruct (proj1 Hr eq_refl) as [_ Hx]. by destruct Hend; apply Hx.
Defined.
