(* ===== verification/Stream.v ===== *)
(** * The queue as a stream and as an iterator: [stream.rs]

    A [CoQueue] is polled for its next element; a channel of [QueueState] messages
    lets other threads stop it.  Everything here is stated for any queue that
    keeps the promise of [Fifo]. *)

From S2P Require Import Prelude Machine Fifo Timing Arena CoQueue CoQueueSpec CoQueueMain.

#[local] Arguments Nat.div : simpl never.

Inductive QueueError : Type := QError.

Inductive QueueState (T : Type) : Type :=
| Error (e : QueueError)
| Yield (v : T)
| Spin
| Terminate.
Arguments Error {T} e.
Arguments Yield {T} v.
Arguments Spin {T}.
Arguments Terminate {T}.

(** [std::task::Poll]. *)
Inductive Poll (A : Type) : Type :=
| Ready (a : A)
| Pending.
Arguments Ready {A} a.
Arguments Pending {A}.

Inductive IterWaker (T : Type) : Type :=
| Item (v : T)
| Poke.
Arguments Item {T} v.
Arguments Poke {T}.

(** The queue with the messages its receiver [recv] has not taken yet, oldest
    first.  The queue itself holds a sender, so the channel is never closed. *)
Record Stream (St T : Type) : Type := MkStream { que : St; recv : list (QueueState T) }.
Arguments MkStream {St T} que recv.
Arguments que {St T} s.
Arguments recv {St T} s.

Definition stream_que {St T} : lens (Stream St T) St :=
  Lens que (fun x s => MkStream x (recv s)).
#[export] Instance stream_que_laws {St T} : LensLaws (@stream_que St T).
Proof. split; [done|by intros []|done]. Qed.

Definition stream_recv {St T} : lens (Stream St T) (list (QueueState T)) :=
  Lens recv (fun x s => MkStream (que s) x).
#[export] Instance stream_recv_laws {St T} : LensLaws (@stream_recv St T).
Proof. split; [done|by intros []|done]. Qed.

(** [Receiver::try_recv] and [Sender::send] on the channel [C]. *)
Definition try_recv {S T} (C : lens S (list (QueueState T))) : prog S (option (QueueState T)) :=
  act (fun s => match lget C s with
                | [] => Ok (None, s)
                | m :: ms => Ok (Some m, lput C ms s)
                end).
Definition send {S T} (C : lens S (list (QueueState T))) (m : QueueState T) : prog S () :=
  store (fun s => lput C (lget C s ++ [m]) s).

(** ** The waker: [waker.rs]

    A waker with a table of functions that do nothing. *)
Module Waker.
Inductive RawWakerVTable : Type := VTABLE.

Record RawWaker : Type := MkRawWaker { data : Z; vtable : RawWakerVTable }.

Definition RAW_WAKER : RawWaker := MkRawWaker 0 VTABLE.

Definition clone (_ : Z) : RawWaker := RAW_WAKER.
Definition wake {St} (_ : Z) : prog St () := Ret ().
Definition wake_by_ref {St} (_ : Z) : prog St () := Ret ().
Definition drop {St} (_ : Z) : prog St () := Ret ().

Definition create : RawWaker := RAW_WAKER.
End Waker.

Section Code.
Context {St T : Type} `{QueueOps St T}.
Abbreviation SS := (Stream St T).

(** [FutureStreamOwn::poll]; the context is its waker, which a poll does not keep. *)
Definition yield_poll (_cx : Waker.RawWaker) : prog SS (Poll (QueueState T)) :=
  let! e := lift stream_que q_is_empty in
  if negb e then
    let! r := lift stream_que q_pop in
    match r with
    | Some item => Ret (Ready (Yield item))
    | None => Ret (Ready (Error QError))
    end
  else Ret (Ready Spin).

(** [Stream::poll_next]. *)
Definition poll_next (cx : Waker.RawWaker) : prog SS (Poll (option T)) :=
  let! m := try_recv stream_recv in
  match m with
  | Some Terminate => Ret (Ready None)
  | Some (Error _) => fail Panic
  | _ =>
      let! p := yield_poll cx in
      match p with
      | Ready Spin => Ret Pending
      | Ready (Error _) => fail Panic
      | Ready (Yield item) => Ret (Ready (Some item))
      | _ => fail Panic
      end
  end.

(** [CoQueIntoIter::next]: one pass through its loop. *)
Definition next_pass (wake_count : Z) : prog SS (Z + option (IterWaker T)) :=
  let! m := try_recv stream_recv in
  match m with
  | Some Terminate => Ret (inr None)
  | Some (Error _) => fail Panic
  | _ =>
      let! p := poll_next Waker.create in
      match p with
      | Ready (Some res) => Ret (inr (Some (Item res)))
      | Ready None => Ret (inr None)
      | Pending =>
          if wake_count =? 20 then Ret (inr (Some Poke))
          else Ret (inl (wake_count + 1))
      end
  end.

Definition iter_next : prog SS (option (IterWaker T)) := loop next_pass 0.

(** [for x in que.into_iter() { .. }] with a body that sends messages: [sends i r] are those
    of pass number [i], in which the iterator returned [r].  Its result is all that the
    iterator returned. *)
Definition for_each (sends : nat -> IterWaker T -> list (QueueState T)) : prog SS (list (IterWaker T)) :=
  loop (fun '(i, acc) =>
    let! r := iter_next in
    match r with
    | Some x => iter_list (send stream_recv) (sends i x) ;; Ret (inl (S i, acc ++ [x]))
    | None => Ret (inr acc)
    end) (0%nat, []).
End Code.

(** ** Behaviour *)

(** Messages that do not stop the iteration. *)
Definition benign {T} (m : QueueState T) : bool :=
  match m with Yield _ | Spin => true | _ => false end.

(** Messages that do not make it panic. *)
Definition harmless {T} (m : QueueState T) : bool := match m with Error _ => false | _ => true end.

Definition items {T} (l : list (IterWaker T)) : list T :=
  omap (fun x => match x with Item v => Some v | Poke => None end) l.

(** *** What a loop over the iterator does

    A call of [next] on a queue with elements looks at two messages, on an empty queue at
    42; it ends the loop if [Terminate] is among them, and discards them otherwise. *)
Section Spec.
Context {T : Type}.

Fixpoint until_terminate (n : nat) (ms : list (QueueState T)) : option (list (QueueState T)) :=
  match n, ms with
  | S n, Terminate :: ms => Some ms
  | S n, _ :: ms => until_terminate n ms
  | _, _ => None
  end.

Lemma until_terminate_some n : forall ms rest, until_terminate n ms = Some rest ->
  Forall (fun m => harmless m = true) ms -> exists bs, ms = bs ++ Terminate :: rest /\
    Forall (fun m => benign m = true) bs /\ (length bs < n)%nat.
Proof.
  induction n as [|n IH]; intros [|m ms] rest H Hm; try done. apply Forall_cons in Hm as [Hm Hms].
  destruct (decide (benign m = true)) as [Hb|Hb].
  - destruct (IH ms rest) as (bs & -> & Hbs & Hl); [by destruct m|done|].
    exists (m :: bs). split_and!; [done|by constructor|simpl; lia].
  - destruct m; simplify_eq/=. exists []. split_and!; [done|done|simpl; lia].
Qed.

Lemma until_terminate_none n : forall ms, until_terminate n ms = None ->
  Forall (fun m => harmless m = true) ms -> Forall (fun m => benign m = true) (take n ms).
Proof.
  induction n as [|n IH]; intros [|m ms] H Hm; try done. apply Forall_cons in Hm as [Hm Hms]. simpl.
  constructor; [by destruct m|]. apply IH; [by destruct m|done].
Qed.

Definition window (xs : list T) : nat := match xs with [] => 42 | _ => 2 end.
Definition front (xs : list T) : IterWaker T := match xs with [] => Poke | x :: _ => Item x end.

Context (sends : nat -> IterWaker T -> list (QueueState T)).

(** From pass [i] on, with elements [xs] and messages [ms]: what the iterator returns, and
    the elements and messages that are left. *)
Fixpoint loop_spec (fuel i : nat) (xs : list T) (ms : list (QueueState T)) :
    option (list (IterWaker T) * list T * list (QueueState T)) :=
  match fuel with
  | O => None
  | S fuel =>
      match until_terminate (window xs) ms with
      | Some ms => Some ([], xs, ms)
      | None =>
          match loop_spec fuel (S i) (tl xs) (drop (window xs) ms ++ sends i (front xs)) with
          | Some (l, xs', ms') => Some (front xs :: l, xs', ms')
          | None => None
          end
      end
  end.

(** The elements come in order, and none is lost. *)
Lemma loop_spec_items fuel : forall i xs ms l xs' ms',
  loop_spec fuel i xs ms = Some (l, xs', ms') -> items l ++ xs' = xs.
Proof.
  induction fuel as [|fuel IH]; intros i xs ms l xs' ms' H; [done|]. simpl in H.
  destruct (until_terminate _ _) as [rest|]; [by simplify_eq|].
  destruct (loop_spec _ _ _ _) as [[[l1 xs1] ms1]|] eqn:E; [|done]. simplify_eq.
  apply IH in E. destruct xs as [|x xs]; simpl in *; [done|by rewrite E].
Qed.

(** [Terminate] in the channel ends the loop, also if it is sent by the body. *)
Lemma loop_spec_ends k : forall i xs ms rest bs, (length bs <= k)%nat -> ms = bs ++ Terminate :: rest ->
  exists fuel r, loop_spec fuel i xs ms = Some r.
Proof.
  induction k as [k IH] using lt_wf_ind. intros i xs ms rest bs Hk ->.
  destruct (until_terminate (window xs) (bs ++ Terminate :: rest)) as [ms|] eqn:E.
  { exists 1%nat, ([], xs, ms). simpl. by rewrite E. }
  assert (Hw : forall n (bs : list (QueueState T)),
    until_terminate n (bs ++ Terminate :: rest) = None -> (n <= length bs)%nat).
  { clear. induction n as [|n IH]; intros [|m bs] H; simpl in *; [lia..|done|].
    destruct m; try done; specialize (IH bs H); lia. }
  apply Hw in E as Hle. assert (2 <= window xs)%nat by (destruct xs; simpl; lia).
  destruct (IH (length (drop (window xs) bs)) ltac:(rewrite length_drop; lia) (S i) (tl xs)
    (drop (window xs) (bs ++ Terminate :: rest) ++ sends i (front xs)) (rest ++ sends i (front xs))
    (drop (window xs) bs) ltac:(done)) as (fuel & [[l xs'] ms'] & Hr).
  { rewrite drop_app_le by done. by rewrite <- app_assoc. }
  exists (S fuel), (front xs :: l, xs', ms'). simpl. by rewrite E, Hr.
Qed.

Lemma loop_spec_sent j : forall i xs ms, (exists k, i + j = k /\ forall r, Terminate ∈ sends k r)%nat ->
  exists fuel r, loop_spec fuel i xs ms = Some r.
Proof.
  induction j as [|j IH]; intros i xs ms (k & Hk & Hs);
    (destruct (until_terminate (window xs) ms) as [ms1|] eqn:E;
      [exists 1%nat, ([], xs, ms1); simpl; by rewrite E|]).
  - rewrite Nat.add_0_r in Hk. subst k.
    pose proof (Hs (front xs)) as Hb. apply list_elem_of_split in Hb as (b1 & b2 & Hb).
    destruct (loop_spec_ends (length (drop (window xs) ms ++ b1)) (S i) (tl xs)
      (drop (window xs) ms ++ sends i (front xs)) b2 (drop (window xs) ms ++ b1) ltac:(done)) as
      (fuel & [[l xs'] ms'] & Hr); [by rewrite Hb, <- app_assoc|].
    exists (S fuel), (front xs :: l, xs', ms'). simpl. by rewrite E, Hr.
  - destruct (IH (S i) (tl xs) (drop (window xs) ms ++ sends i (front xs))) as (fuel & [[l xs'] ms'] & Hr).
    { exists k. split; [lia|done]. }
    exists (S fuel), (front xs :: l, xs', ms'). simpl. by rewrite E, Hr.
Qed.
End Spec.

Section Proofs.
Context {St T : Type} `{L : QueueLaws St T}.
Abbreviation SS := (Stream St T).

Definition stream_is (xs : list T) (k p : nat) (ms : list (QueueState T)) (s : SS) : Prop :=
  q_is xs k p (que s) /\ recv s = ms.

Lemma yield_poll_some x xs k p ms s : stream_is (x :: xs) k p ms s -> q_can_pop p ->
  returns (yield_poll Waker.create) s (fun r s' => r = Ready (Yield x) /\ stream_is xs k (S p) ms s').
Proof.
  intros [Hq Hm] Hp n. unfold yield_poll. wp_step.
  eapply (twp_lift stream_que); [apply (q_is_empty_ok _ _ _ _ Hq)|]. intros m b s1 [-> Hq1]. simpl.
  wp_step. eapply (twp_lift stream_que); [apply (q_pop_some _ _ _ _ _ Hq1 Hp)|].
  intros m1 r s2 [-> Hq2]. by wp.
Qed.

Lemma yield_poll_none k p ms s : stream_is [] k p ms s ->
  returns (yield_poll Waker.create) s (fun r s' => r = Ready Spin /\ stream_is [] k p ms s').
Proof.
  intros [Hq Hm] n. unfold yield_poll. wp_step.
  eapply (twp_lift stream_que); [apply (q_is_empty_ok _ _ _ _ Hq)|]. intros m b s1 [-> Hq1].
  simpl. by wp.
Qed.

Lemma twp_try_recv n xs k p ms s (Q : nat -> option (QueueState T) -> SS -> Prop) :
  stream_is xs k p ms s ->
  (forall s', stream_is xs k p (tl ms) s' -> Q n (hd_error ms) s') ->
  twp n (try_recv stream_recv) s Q.
Proof.
  intros [Hq Hm] HQ. destruct ms as [|m ms].
  - eapply twp_act'; [simpl; by rewrite Hm|]. by apply HQ.
  - eapply twp_act'; [simpl; by rewrite Hm|]. by apply HQ.
Qed.

Definition quiet (m : option (QueueState T)) : Prop :=
  match m with Some m => benign m = true | None => True end.

Lemma poll_next_ok n xs k p ms s (Q : nat -> Poll (option T) -> SS -> Prop) :
  stream_is xs k p ms s -> quiet (hd_error ms) -> (xs <> [] -> q_can_pop p) ->
  (forall m s', stream_is (tl xs) k (p + if decide (xs = []) then 0 else 1) (tl ms) s' ->
     Q m (match xs with [] => Pending | x :: _ => Ready (Some x) end) s') ->
  twp n (poll_next Waker.create) s Q.
Proof.
  intros Hs Hm Hp HQ. unfold poll_next. wp_step. eapply twp_try_recv; [done|]. intros s1 Hs1.
  assert (Hgo : twp n (let! p := yield_poll Waker.create in
      match p with
      | Ready Spin => Ret Pending
      | Ready (Error _) => fail Panic
      | Ready (Yield item) => Ret (Ready (Some item))
      | _ => fail Panic
      end) s1 Q).
  { wp_step. destruct xs as [|x xs]; simpl in *.
    - eapply twp_returns; [by apply yield_poll_none with (1 := Hs1)|]. intros m r s2 [-> Hs2].
      wp. apply HQ. by rewrite Nat.add_0_r.
    - eapply twp_returns; [apply yield_poll_some with (1 := Hs1); by apply Hp|].
      intros m r s2 [-> Hs2]. wp. apply HQ. by rewrite Nat.add_1_r. }
  destruct (hd_error ms) as [[| | |]|]; done.
Qed.

Lemma poll_next_terminate n xs k p ms s (Q : nat -> Poll (option T) -> SS -> Prop) :
  stream_is xs k p (Terminate :: ms) s ->
  (forall s', stream_is xs k p ms s' -> Q n (Ready None) s') -> twp n (poll_next Waker.create) s Q.
Proof.
  intros Hs HQ. unfold poll_next. wp_step. eapply twp_try_recv; [done|]. intros s1 Hs1.
  simpl. wp. by apply HQ.
Qed.

Lemma quiet_take j (ms : list (QueueState T)) :
  Forall (fun m => benign m = true) (take (S j) ms) ->
  quiet (hd_error ms) /\ Forall (fun m => benign m = true) (take j (tl ms)).
Proof. destruct ms as [|m ms]; simpl; [by rewrite take_nil|]. by inversion 1. Qed.

(** *** [next] *)

(** A pass with no message to stop it. *)
Lemma next_pass_ok n i xs k p ms s (Q : nat -> Z + option (IterWaker T) -> SS -> Prop) :
  stream_is xs k p ms s -> Forall (fun m => benign m = true) (take 2 ms) ->
  (xs <> [] -> q_can_pop p) ->
  (forall m s', stream_is (tl xs) k (p + if decide (xs = []) then 0 else 1) (drop 2 ms) s' ->
     Q m (match xs with
          | [] => if i =? 20 then inr (Some Poke) else inl (i + 1)
          | x :: _ => inr (Some (Item x))
          end) s') ->
  twp n (next_pass i) s Q.
Proof.
  intros Hs Hb Hp HQ. apply quiet_take in Hb as [Hq1 Hb]. apply quiet_take in Hb as [Hq2 _].
  unfold next_pass. wp_step. eapply twp_try_recv; [done|]. intros s1 Hs1.
  assert (Hgo : twp n (let! p := poll_next Waker.create in
      match p with
      | Ready (Some res) => Ret (inr (Some (Item res)))
      | Ready None => Ret (inr None)
      | Pending => if i =? 20 then Ret (inr (Some Poke)) else Ret (inl (i + 1))
      end) s1 Q).
  { wp_step. eapply poll_next_ok; [done..|]. intros m s2 Hs2.
    assert (Hs2' : stream_is (tl xs) k (p + if decide (xs = []) then 0 else 1) (drop 2 ms) s2)
      by by destruct ms as [|? [|? ?]].
    specialize (HQ m s2 Hs2'). destruct xs; [destruct (i =? 20)|]; by wp. }
  destruct (hd_error ms) as [[| | |]|]; done.
Qed.

(** A pass that meets [Terminate]. *)
Lemma next_pass_end n i bs xs k p ms s (Q : nat -> Z + option (IterWaker T) -> SS -> Prop) :
  stream_is xs k p (bs ++ Terminate :: ms) s -> Forall (fun m => benign m = true) bs ->
  (length bs < 2)%nat ->
  (forall s', stream_is xs k p ms s' -> Q n (inr None) s') -> twp n (next_pass i) s Q.
Proof.
  intros Hs Hb Hl HQ. unfold next_pass. wp_step. eapply twp_try_recv; [done|]. intros s1 Hs1.
  destruct bs as [|b [|? ?]]; simpl in *; [wp; auto| |lia].
  assert (Hgo : twp n (let! p := poll_next Waker.create in
      match p with
      | Ready (Some res) => Ret (inr (Some (Item res)))
      | Ready None => Ret (inr None)
      | Pending => if i =? 20 then Ret (inr (Some Poke)) else Ret (inl (i + 1))
      end) s1 Q).
  { wp_step. eapply poll_next_terminate; [done|]. intros s2 Hs2. wp. auto. }
  apply Forall_cons in Hb as [Hb _]. by destruct b.
Qed.

Lemma twp_unfold_next n i s (Q : nat -> option (IterWaker T) -> SS -> Prop) :
  twp n (next_pass i) s (fun m r s' => match r with
    | inl i' => twp m (loop next_pass i') s' Q
    | inr r => Q m r s'
    end) -> twp n (loop next_pass i) s Q.
Proof.
  intros Hp. unfold loop. apply twp_loop. unfold unfold_loop. apply twp_bind.
  eapply twp_mono; [exact Hp|]. intros m [i'|r] s' _ HQ; [done|by apply twp_ret].
Qed.

(** With an element in the queue: it is returned; two messages are discarded. *)
Lemma iter_next_item x xs k p ms s :
  stream_is (x :: xs) k p ms s -> q_can_pop p ->
  Forall (fun m => benign m = true) (take 2 ms) ->
  returns iter_next s (fun r s' => r = Some (Item x) /\ stream_is xs k (S p) (drop 2 ms) s').
Proof.
  intros Hs Hp Hb n. apply twp_unfold_next. eapply next_pass_ok; [done..|].
  simpl. intros m s' Hs'. by rewrite Nat.add_1_r in Hs'.
Qed.

Lemma benign_take j d (ms : list (QueueState T)) :
  (j <= d)%nat -> Forall (fun m => benign m = true) (take d ms) ->
  Forall (fun m => benign m = true) (take j ms).
Proof.
  intros Hj Hb. apply (Forall_take _ j) in Hb. rewrite take_take in Hb.
  by replace (j `min` d)%nat with j in Hb by lia.
Qed.

Lemma benign_drop j d (ms : list (QueueState T)) :
  Forall (fun m => benign m = true) (take (j + d) ms) ->
  Forall (fun m => benign m = true) (take d (drop j ms)).
Proof. intros Hb. rewrite take_drop_commute. by apply Forall_drop. Qed.

(** With an empty queue: after [d] more polls, a [Poke]. *)
Lemma iter_next_poke d : forall n k p ms s,
  (d <= 20)%nat -> stream_is [] k p ms s ->
  Forall (fun m => benign m = true) (take (2 * S d) ms) ->
  twp n (loop next_pass (20 - Z.of_nat d)) s (fun _ r s' => r = Some Poke /\
    stream_is [] k p (drop (2 * S d) ms) s').
Proof.
  induction d as [|d IH]; intros n k p ms s Hd Hs Hb; apply twp_unfold_next;
    (eapply next_pass_ok; [done|by eapply benign_take; [|exact Hb]; lia|done|]).
  - simpl. intros m s' Hs'. by rewrite Nat.add_0_r in Hs'.
  - intros m s' Hs'. rewrite (proj2 (Z.eqb_neq _ 20)) by lia.
    replace (20 - Z.of_nat (S d) + 1) with (20 - Z.of_nat d) by lia. simpl in Hs'.
    rewrite Nat.add_0_r in Hs'. eapply twp_mono; [apply (IH _ _ _ _ _ ltac:(lia) Hs')|].
    + apply benign_drop. by replace (2 + 2 * S d)%nat with (2 * S (S d))%nat by lia.
    + intros m' r s2 _ [-> Hs2]. split; [done|]. rewrite drop_drop in Hs2.
      by replace (2 + 2 * S d)%nat with (2 * S (S d))%nat in Hs2 by lia.
Qed.

(** With an empty queue and [Terminate] among the messages of the polls left. *)
Lemma iter_next_end d : forall n bs k p ms s,
  (d <= 20)%nat -> stream_is [] k p (bs ++ Terminate :: ms) s ->
  Forall (fun m => benign m = true) bs -> (length bs < 2 * S d)%nat ->
  twp n (loop next_pass (20 - Z.of_nat d)) s (fun _ r s' => r = None /\ stream_is [] k p ms s').
Proof.
  induction d as [|d IH]; intros n bs k p ms s Hd Hs Hb Hl; apply twp_unfold_next.
  - by eapply next_pass_end; [done..|lia|].
  - destruct (decide (length bs < 2)%nat) as [Hs2|Hge]; [by eapply next_pass_end|].
    eapply next_pass_ok; [done| |done|].
    + rewrite take_app_le by lia. by apply Forall_take.
    + intros m s' Hs'. rewrite (proj2 (Z.eqb_neq _ 20)) by lia.
      replace (20 - Z.of_nat (S d) + 1) with (20 - Z.of_nat d) by lia. simpl in Hs'.
      rewrite Nat.add_0_r, drop_app_le in Hs' by lia.
      apply (IH _ (drop 2 bs)); [lia|done|by apply Forall_drop|rewrite length_drop; lia].
Qed.

(** *** The whole loop *)

Lemma send_all_ok n msgs : forall xs k p ms s (Q : nat -> () -> SS -> Prop),
  stream_is xs k p ms s -> (forall m s', stream_is xs k p (ms ++ msgs) s' -> Q m () s') ->
  twp n (iter_list (send stream_recv) msgs) s Q.
Proof.
  induction msgs as [|m msgs IH]; intros xs k p ms s Q [Hq Hm] HQ; simpl.
  - wp. apply HQ. by rewrite app_nil_r.
  - unfold send at 1. wp. apply (IH xs k p (ms ++ [m])); [split; [done|]; simpl; by rewrite Hm|].
    intros m' s' Hs'. apply HQ. by rewrite <- app_assoc in Hs'.
Qed.

(** One call of [next], when it ends the loop and when it does not. *)
Lemma iter_next_stops n xs k p ms rest s :
  stream_is xs k p ms s -> Forall (fun m => harmless m = true) ms ->
  until_terminate (window xs) ms = Some rest ->
  twp n iter_next s (fun _ r s' => r = None /\ stream_is xs k p rest s').
Proof.
  intros Hs Hm E. destruct (until_terminate_some _ _ _ E Hm) as (bs & -> & Hb & Hl).
  destruct xs as [|x xs]; simpl in Hl.
  - by apply (iter_next_end 20 n bs k p rest s ltac:(lia) Hs Hb).
  - apply twp_unfold_next. by eapply next_pass_end; [exact Hs|..].
Qed.

Lemma iter_next_goes n xs k p ms s :
  stream_is xs k p ms s -> Forall (fun m => harmless m = true) ms -> q_can_pop p ->
  until_terminate (window xs) ms = None ->
  twp n iter_next s (fun _ r s' => r = Some (front xs) /\
    exists p', (p <= p')%nat /\ stream_is (tl xs) k p' (drop (window xs) ms) s').
Proof.
  intros Hs Hm Hp E. pose proof (until_terminate_none _ _ E Hm) as Hb. destruct xs as [|x xs].
  - eapply twp_mono; [apply (iter_next_poke 20 n k p ms s ltac:(lia) Hs Hb)|].
    intros m r s' _ [-> Hs']. eauto.
  - eapply twp_returns; [by apply (iter_next_item x xs k p ms s)|]. intros m r s' [-> Hs'].
    split; [done|]. exists (S p). split; [lia|done].
Qed.

Lemma for_each_ok sends fuel : forall n i acc xs k p ms s l xs' ms',
  (forall i r, Forall (fun m => harmless m = true) (sends i r)) ->
  stream_is xs k p ms s -> Forall (fun m => harmless m = true) ms -> (forall j, (p <= j)%nat -> q_can_pop j) ->
  loop_spec sends fuel i xs ms = Some (l, xs', ms') ->
  twp n (loop (fun '(i, acc) =>
      let! r := iter_next in
      match r with
      | Some x => iter_list (send stream_recv) (sends i x) ;; Ret (inl (S i, acc ++ [x]))
      | None => Ret (inr acc)
      end) (i, acc)) s
    (fun _ r s' => r = acc ++ l /\ exists p', stream_is xs' k p' ms' s').
Proof.
  induction fuel as [|fuel IH]; intros n i acc xs k p ms s l xs' ms' Hsd Hs Hm Hp HL; [done|]. simpl in HL.
  unfold loop. apply twp_loop. unfold unfold_loop. do 2 wp_step.
  destruct (until_terminate _ _) as [rest|] eqn:E.
  - simplify_eq. eapply twp_mono; [by apply (iter_next_stops n _ _ _ _ _ _ Hs Hm E)|].
    intros m r s' _ [-> Hs']. wp. rewrite app_nil_r. eauto.
  - destruct (loop_spec _ _ _ _ _) as [[[l1 xs1] ms1]|] eqn:El; [|done]. simplify_eq.
    eapply twp_mono; [by apply (iter_next_goes n _ _ _ _ _ Hs Hm (Hp p ltac:(lia)) E)|].
    intros m r s' _ [-> (p' & Hp' & Hs')]. wp_step. eapply send_all_ok; [exact Hs'|].
    intros m' s2 Hs2. wp. eapply twp_mono.
    + eapply (IH m' (S i) (acc ++ [front xs]) _ k p' _ s2); [done|exact Hs2| |intros j Hj; apply Hp; lia|exact El].
      apply Forall_app. split; [by apply Forall_drop|apply Hsd].
    + intros m2 r s3 _ [-> Hs3]. by rewrite <- app_assoc.
Qed.
End Proofs.

(** ** Properties *)

(** C32. Without messages to stop it, [next] returns the front element of the queue,
    or [Poke] after 21 polls of an empty queue; it discards the messages it
    receives meanwhile, [Yield] messages with their values included. *)
Theorem iter_next_front {St T : Type} `{QueueLaws St T} xs k p ms (s : Stream St T) :
  stream_is xs k p ms s -> q_can_pop p -> Forall (fun m => benign m = true) ms ->
  returns iter_next s (fun r s' => match xs with
    | [] => r = Some Poke /\ stream_is [] k p (drop 42 ms) s'
    | x :: xs => r = Some (Item x) /\ stream_is xs k (S p) (drop 2 ms) s'
    end).
Proof.
  intros Hs Hp Hb. destruct xs as [|x xs].
  - intros n. apply (iter_next_poke 20 n _ _ _ _ ltac:(lia) Hs). by apply Forall_take.
  - apply iter_next_item; [done..|]. by apply Forall_take.
Qed.

Lemma iter_next_front_witness :
  let s := MkStream (CoQueue_new (T := Z)) [Spin; Yield 7] in
  stream_is [] 0 0 [Spin; Yield 7] s /\
  returns iter_next s (fun r s' => r = Some Poke /\ recv s' = []).
Proof.
  assert (Hs : stream_is [] 0 0 [Spin; Yield 7] (MkStream (CoQueue_new (T := Z)) [Spin; Yield 7]))
    by (split; [apply co_new_is|reflexivity]).
  split; [exact Hs|]. intros n. eapply twp_returns.
  - apply (iter_next_front [] 0 0 [Spin; Yield 7] _ Hs); [done|]. by repeat constructor.
  - intros m r s' [-> [_ Hm]]. by split.
Defined.

(** C31. A loop over the iterator ends if [Terminate] is in the channel at the start or is sent by
    its body in some pass, and no [Error] is: it returns, and the iterator has returned exactly
    what [loop_spec] says.  These are elements of the queue in order, then a [Poke] for every 21
    polls of the empty queue; the elements that it has not returned are still in the queue. *)
Theorem iteration_stops_at_terminate {St T : Type} `{QueueLaws St T} xs k p ms
    (sends : nat -> IterWaker T -> list (QueueState T)) (s : Stream St T) :
  stream_is xs k p ms s -> (forall j, (p <= j)%nat -> q_can_pop j) ->
  Forall (fun m => harmless m = true) ms -> (forall i r, Forall (fun m => harmless m = true) (sends i r)) ->
  Terminate ∈ ms \/ (exists i, forall r, Terminate ∈ sends i r) ->
  returns (for_each sends) s (fun l s' => exists fuel xs' ms' p',
    loop_spec sends fuel 0 xs ms = Some (l, xs', ms') /\ items l ++ xs' = xs /\ stream_is xs' k p' ms' s').
Proof.
  intros Hs Hp Hm Hsd Ht n.
  assert (exists fuel r, loop_spec sends fuel 0 xs ms = Some r) as (fuel & [[l xs'] ms'] & Hr).
  { destruct Ht as [Ht|[i Ht]]; [|by apply (loop_spec_sent sends i); exists i].
    apply list_elem_of_split in Ht as (b1 & b2 & ->). by eapply loop_spec_ends. }
  eapply twp_mono; [by apply (for_each_ok sends fuel n 0 [] xs k p ms s l xs' ms')|].
  intros m r s' _ [-> [p' Hs']]. exists fuel, xs', ms', p'. split_and!; [done| |done].
  by eapply loop_spec_items.
Qed.

(** As in the README: the body sends [Terminate] in its fourth pass, when the two elements of the
    queue were returned; nothing is in the channel before. *)
Definition fourth (i : nat) (_ : IterWaker Z) : list (QueueState Z) := if Nat.eqb i 3 then [Terminate] else [].

Lemma iteration_stops_at_terminate_witness :
  co_can_push (pushes [Push 5; Push 7]) /\
  returns (run_ops [Push 5; Push 7]) CoQueue_new (fun _ q =>
    returns (for_each fourth) (MkStream q []) (fun l _ => l = [Item 5; Item 7; Poke; Poke])).
Proof.
  assert (Hc : co_can_push (pushes [Push 5; Push 7])) by (split; vm_compute; [reflexivity|lia]).
  split; [exact Hc|]. intros n. eapply twp_returns; [exact (co_ops_ok (T := Z) [Push 5; Push 7] Hc)|].
  intros m rs q [-> Hq]. simpl in Hq. intros n'. eapply twp_returns.
  - apply (iteration_stops_at_terminate [5; 7] 2 0 [] fourth (MkStream q [])).
    + split; [exact Hq|reflexivity].
    + done.
    + constructor.
    + intros i r. unfold fourth. destruct (Nat.eqb i 3); by repeat constructor.
    + right. exists 3%nat. intros r. apply list_elem_of_singleton. reflexivity.
  - intros m' l s' (fuel & xs' & ms' & p' & Hl & _).
    do 5 (destruct fuel as [|fuel]; [discriminate Hl|]). simpl in Hl. by simplify_eq.
Defined.

(** An [Error] message makes the iterator panic. *)
Theorem iter_next_error_panics {St T : Type} `{QueueLaws St T} xs k p ms (s : Stream St T) :
  stream_is xs k p (Error QError :: ms) s -> faults iter_next s Panic.
Proof.
  intros [_ Hm] n. unfold iter_next, loop. apply wrong_loop. unfold unfold_loop.
  apply wrong_bind_l. unfold next_pass. apply wrong_bind_r.
  eapply twp_act'; [simpl; by rewrite Hm|]. by eapply wrong_fail.
Qed.

Lemma iter_next_error_panics_witness :
  let s := MkStream (CoQueue_new (T := Z)) [Error QError] in
  stream_is [] 0 0 [Error QError] s /\ faults iter_next s Panic.
Proof.
  assert (Hs : stream_is [] 0 0 [Error QError] (MkStream (CoQueue_new (T := Z)) [Error QError]))
    by (split; [apply co_new_is|reflexivity]).
  split; [exact Hs|]. exact (iter_next_error_panics [] 0 0 [] _ Hs).
Defined.
