(* ===== verification/BlockingCol.v ===== *)
(** * The queue behind a lock: [blocking_col.rs]

    [BlockingQueue] wraps a [CoQueue] in a [std::sync::RwLock]: [push], [pop],
    [is_empty] and [len] take the lock for reading, the iterator for writing.  It has
    a channel of its own; nobody sends to the channel of the queue inside. *)

From S2P Require Import Prelude Machine Fifo Timing Arena CoQueue CoQueueSpec CoQueueMain Stream.

#[local] Arguments Nat.div : simpl never.

(** The state of a [RwLock]. *)
Record RwLock : Type := MkRwLock { readers : nat; writer : bool }.

Record BlockingQueue (St T : Type) : Type := MkBlockingQueue {
  rw : RwLock;
  inner : Stream St T;
  brecv : list (QueueState T);
}.
Arguments MkBlockingQueue {St T} rw inner brecv.
Arguments rw {St T} b.
Arguments inner {St T} b.
Arguments brecv {St T} b.

Section Code.
Context {St T : Type} `{QueueOps St T}.
Abbreviation B := (BlockingQueue St T).

Definition b_inner : lens B (Stream St T) :=
  Lens inner (fun x b => MkBlockingQueue (rw b) x (brecv b)).
Definition b_recv : lens B (list (QueueState T)) :=
  Lens brecv (fun x b => MkBlockingQueue (rw b) (inner b) x).
Definition b_que : lens B St :=
  Lens (fun b => que (inner b))
       (fun x b => MkBlockingQueue (rw b) (MkStream x (recv (inner b))) (brecv b)).

#[export] Instance b_inner_laws : LensLaws b_inner.
Proof. split; [done|by intros []|done]. Qed.
#[export] Instance b_que_laws : LensLaws b_que.
Proof. split; [done|by intros [? [] ?]|done]. Qed.

Definition set_rw (x : RwLock) (b : B) : B := MkBlockingQueue x (inner b) (brecv b).

(** [RwLock::read] and [write], and the drops of their guards. *)
Definition rw_read : prog B () :=
  act (fun b : B => if writer (rw b) then Block
                    else Ok ((), set_rw (MkRwLock (S (readers (rw b))) false) b)).
Definition rw_read_unlock : prog B () :=
  store (fun b : B => set_rw (MkRwLock (pred (readers (rw b))) (writer (rw b))) b).
Definition rw_write : prog B () :=
  act (fun b : B => if writer (rw b) || negb (Nat.eqb (readers (rw b)) 0) then Block
                    else Ok ((), set_rw (MkRwLock 0 true) b)).
Definition rw_write_unlock : prog B () :=
  store (fun b : B => set_rw (MkRwLock (readers (rw b)) false) b).

(** An operation of the queue inside, under a read guard. *)
Definition with_read {A} (p : prog St A) : prog B A :=
  rw_read ;; let! r := lift b_que p in rw_read_unlock ;; Ret r.

Definition BlockingQueue_push (item : T) : prog B () := with_read (q_push item).
Definition BlockingQueue_pop : prog B (option T) := with_read q_pop.
Definition BlockingQueue_is_empty : prog B bool := with_read q_is_empty.

(** [BlockingIter::next]: one pass through its loop.  The write guard is dropped
    at the end of the pass. *)
Definition bnext_pass (wake_count : Z) : prog B (Z + option (IterWaker T)) :=
  let! m := try_recv b_recv in
  match m with
  | Some Terminate => Ret (inr None)
  | Some (Error _) => fail Panic
  | _ =>
      rw_write ;;
      let! p := lift b_inner (poll_next Waker.create) in
      let! r :=
        match p with
        | Ready (Some res) => Ret (inr (Some (Item res)))
        | Ready None => Ret (inr None)
        | Pending =>
            if wake_count =? 20 then Ret (inr (Some Poke))
            else Ret (inl (wake_count + 1))
        end in
      rw_write_unlock ;; Ret r
  end.

Definition biter_next : prog B (option (IterWaker T)) := loop bnext_pass 0.

#[export] Instance blocking_ops : QueueOps B T := {|
  q_push := BlockingQueue_push;
  q_pop := BlockingQueue_pop;
  q_is_empty := BlockingQueue_is_empty;
|}.
End Code.

(** [BlockingQueue::len], of the [CoQueue] inside. *)
Definition BlockingQueue_len {T} : prog (BlockingQueue (CoQueue T) T) Z := with_read CoQueue_len.

(** [BlockingQueue::new]. *)
Definition BlockingQueue_new {St T} (new : St) : BlockingQueue St T :=
  MkBlockingQueue (MkRwLock 0 false) (MkStream new []) [].

Section Proofs.
Context {St T : Type} `{L : QueueLaws St T}.
Abbreviation B := (BlockingQueue St T).

(** The lock is free, the inner channel empty. *)
Definition blocking_is (xs : list T) (k p : nat) (b : B) : Prop :=
  rw b = MkRwLock 0 false /\ stream_is xs k p [] (inner b).

Lemma with_read_ok {A} (op : prog St A) (P : A -> St -> Prop) (Q : A -> B -> Prop) (b : B) :
  rw b = MkRwLock 0 false -> returns op (que (inner b)) P ->
  (forall a x, P a x -> Q a (lput b_que x b)) ->
  returns (with_read op) b Q.
Proof.
  intros Hl Hop HQ n. unfold with_read. wp_step.
  eapply twp_act'; [simpl; by rewrite Hl|]. simpl. wp_step.
  eapply (twp_lift b_que); [apply Hop|]. intros m a x HP. unfold rw_read_unlock. wp.
  replace (set_rw _ _) with (lput b_que x b); [by apply HQ|].
  destruct b as [l i r]. simpl in *. by subst l.
Qed.

(** A [BlockingQueue] keeps the promise of a queue if the queue inside does. *)
#[export, refine] Instance blocking_laws : QueueLaws B T := {|
  q_is := blocking_is;
  q_can_push := q_can_push;
  q_can_pop := q_can_pop;
|}.
Proof.
  - intros v xs k p b [Hl [Hq Hm]] Hc.
    eapply with_read_ok; [done|by apply (q_push_ok v _ _ _ _ Hq)|].
    intros [] x Hx. by split.
  - intros x xs k p b [Hl [Hq Hm]] Hc.
    eapply with_read_ok; [done|by apply (q_pop_some _ _ _ _ _ Hq)|].
    intros r s [-> Hs]. by split.
  - intros k p b [Hl [Hq Hm]].
    eapply with_read_ok; [done|by apply (q_pop_none _ _ _ Hq)|].
    intros r s [-> Hs]. by split.
  - intros xs k p b [Hl [Hq Hm]].
    eapply with_read_ok; [done|by apply (q_is_empty_ok _ _ _ _ Hq)|].
    intros r s [-> Hs]. by split.
Defined.

(** *** The iterator *)

Definition biter_is (xs : list T) (k p : nat) (ms : list (QueueState T)) (b : B) : Prop :=
  blocking_is xs k p b /\ brecv b = ms.

Lemma bnext_pass_ok n i xs k p ms b (Q : nat -> Z + option (IterWaker T) -> B -> Prop) :
  biter_is xs k p ms b -> quiet (hd_error ms) -> (xs <> [] -> q_can_pop p) ->
  (forall m b', biter_is (tl xs) k (p + if decide (xs = []) then 0 else 1) (tl ms) b' ->
     Q m (match xs with
          | [] => if i =? 20 then inr (Some Poke) else inl (i + 1)
          | x :: _ => inr (Some (Item x))
          end) b') ->
  twp n (bnext_pass i) b Q.
Proof.
  intros [[Hl Hs] Hm] Hq Hp HQ. unfold bnext_pass. wp_step.
  eapply twp_act' with (x := hd_error ms) (s' := lput b_recv (tl ms) b).
  { simpl. rewrite Hm. destruct ms; [|done]. destruct b; simpl in *. by subst. }
  assert (Hgo : twp n (rw_write ;; let! p := lift b_inner (poll_next Waker.create) in
      let! r := match p with
        | Ready (Some res) => Ret (inr (Some (Item res)))
        | Ready None => Ret (inr None)
        | Pending => if i =? 20 then Ret (inr (Some Poke)) else Ret (inl (i + 1))
        end in
      rw_write_unlock ;; Ret r) (lput b_recv (tl ms) b) Q).
  { wp_step. eapply twp_act'; [simpl; by rewrite Hl|]. simpl. wp_step.
    eapply (twp_lift b_inner _ _ _ (fun _ r s' => r = match xs with [] => Pending | x :: _ => Ready (Some x) end /\
      stream_is (tl xs) k (p + if decide (xs = []) then 0 else 1) [] s')).
    - eapply poll_next_ok; [exact Hs|done|done|]. intros m s' Hs'. by split.
    - intros m r s' [-> Hs']. unfold rw_write_unlock.
      specialize (HQ m (MkBlockingQueue (MkRwLock 0 false) s' (tl ms))
        (conj (conj eq_refl Hs') eq_refl)).
      destruct xs as [|x xs]; [destruct (i =? 20)|]; by wp. }
  destruct (hd_error ms) as [[| | |]|]; done.
Qed.

Lemma twp_unfold_bnext n i b (Q : nat -> option (IterWaker T) -> B -> Prop) :
  twp n (bnext_pass i) b (fun m r b' => match r with
    | inl i' => twp m (loop bnext_pass i') b' Q
    | inr r => Q m r b'
    end) -> twp n (loop bnext_pass i) b Q.
Proof.
  intros Hp. unfold loop. apply twp_loop. unfold unfold_loop. apply twp_bind.
  eapply twp_mono; [exact Hp|]. intros m [i'|r] s' _ HQ; [done|by apply twp_ret].
Qed.

Lemma biter_next_poke d : forall n k p ms b,
  (d <= 20)%nat -> biter_is [] k p ms b -> Forall (fun m => benign m = true) ms ->
  twp n (loop bnext_pass (20 - Z.of_nat d)) b (fun _ r b' => r = Some Poke /\
    biter_is [] k p (drop (S d) ms) b').
Proof.
  induction d as [|d IH]; intros n k p ms b Hd Hs Hb; apply twp_unfold_bnext;
    (eapply bnext_pass_ok; [done|by destruct Hb|done|]).
  - simpl. intros m b' Hb'. rewrite Nat.add_0_r in Hb'. by destruct ms.
  - intros m b' Hb'. rewrite (proj2 (Z.eqb_neq _ 20)) by lia.
    replace (20 - Z.of_nat (S d) + 1) with (20 - Z.of_nat d) by lia. simpl in Hb'.
    rewrite Nat.add_0_r in Hb'. eapply twp_mono; [apply (IH _ _ _ _ _ ltac:(lia) Hb')|].
    + by destruct Hb.
    + intros m' r b2 _ [-> Hb2]. split; [done|]. destruct ms; [|done]. by rewrite drop_nil in *.
Qed.
End Proofs.

(** ** Properties *)

(** A [BlockingQueue] around a [CoQueue], used by one thread, is a first-in
    first-out queue; no operation waits for the lock for ever. *)
Theorem blocking_queue_refines_list `{ChunkAlloc} {T : Type} (os : list (op T)) :
  co_can_push (pushes os) ->
  returns (run_ops os) (BlockingQueue_new CoQueue_new) (fun rs b =>
    rs = (spec_ops os []).1 /\ blocking_is (spec_ops os []).2 (pushes os) (hits rs) b).
Proof.
  intros [Hb Hroom]. apply (run_ops_ok (L := blocking_laws) os [] 0 0); [|..|done].
  - split; [done|]. split; [apply co_new_is|done].
  - intros j Hj. split; [lia|]. simpl in Hj.
    pose proof (Nat.Div0.div_le_mono (S j) (S (pushes os)) 31). lia.
Qed.

Lemma blocking_queue_refines_list_witness :
  co_can_push (pushes [Push 5; Push 7; TryPop; IsEmpty]) /\
  returns (run_ops [Push 5; Push 7; TryPop; IsEmpty]) (BlockingQueue_new CoQueue_new)
    (fun rs _ => rs = [Pushed; Pushed; Popped (Some 5); Emptiness false]).
Proof.
  assert (Hc : co_can_push (pushes [Push 5; Push 7; TryPop; IsEmpty])) by (split; vm_compute; [reflexivity|lia]).
  split; [exact Hc|]. intros n. eapply twp_returns.
  - exact (blocking_queue_refines_list (T := Z) [Push 5; Push 7; TryPop; IsEmpty] Hc).
  - intros m rs q [-> _]. reflexivity.
Defined.

(** The iterator of a [BlockingQueue] returns the front element, or [Poke] after
    21 polls of an empty queue, and gives the lock back. *)
Theorem blocking_iter_front {St T : Type} `{QueueLaws St T} xs k p ms (b : BlockingQueue St T) :
  biter_is xs k p ms b -> q_can_pop p -> Forall (fun m => benign m = true) ms ->
  returns biter_next b (fun r b' => match xs with
    | [] => r = Some Poke /\ biter_is [] k p (drop 21 ms) b'
    | x :: xs => r = Some (Item x) /\ biter_is xs k (S p) (drop 1 ms) b'
    end).
Proof.
  intros Hs Hp Hb n. destruct xs as [|x xs].
  - apply (biter_next_poke 20 n _ _ _ _ ltac:(lia) Hs Hb).
  - apply twp_unfold_bnext. eapply bnext_pass_ok; [done|by destruct Hb|done|].
    simpl. intros m b' Hb'. rewrite Nat.add_1_r in Hb'. by destruct ms.
Qed.

Lemma blocking_iter_front_witness :
  biter_is [] 0 0 [] (BlockingQueue_new (CoQueue_new (T := Z))) /\
  returns biter_next (BlockingQueue_new (CoQueue_new (T := Z))) (fun r _ => r = Some Poke).
Proof.
  assert (Hs : biter_is [] 0 0 [] (BlockingQueue_new (CoQueue_new (T := Z))))
    by (repeat split; apply co_new_is).
  split; [exact Hs|]. intros n. eapply twp_returns.
  - apply (blocking_iter_front [] 0 0 [] _ Hs); [done|constructor].
  - by intros m r b [-> _].
Defined.
