(* ===== verification/BlockingConc.v ===== *)
(** * The queue behind a lock, with many threads

    Any number of threads push to one [BlockingQueue] and pop from it.  All of them
    hold the lock for reading, so they work on the [CoQueue] inside at the same time:
    what [CoQueueLin] shows about its operations is carried over to the larger state,
    and the lock never makes a thread wait. *)

From S2P Require Import Prelude Machine Conc Refine Fifo Timing Arena CoQueue CoQueueSpec CoQueueMain.
From S2P Require Import Linear CoQueueGhost CoQueueSteps CoQueueLin CoQueueConc Stream BlockingCol.

#[local] Arguments Nat.div : simpl never.
#[local] Arguments Nat.mul : simpl never.

(** ** Programs inside a larger state

    [through L p p']: [p'] does to the component [L] of its state what [p] does to
    its state. *)
Section Through.
Context {S' St : Type} (L : lens S' St).

Definition outer {X} (r : res (X * St)) (s : S') : res (X * S') :=
  match r with Ok (x, y) => Ok (x, lput L y s) | Block => Block | Fail e => Fail e end.

Inductive through : forall {A}, prog St A -> prog S' A -> Prop :=
| through_ret A (a : A) : through (Ret a) (Ret a)
| through_act A X f f' (k : X -> prog St A) k' :
    (forall s, f' s = outer (f (lget L s)) s) ->
    (forall x, through (k x) (k' x)) -> through (Act f k) (Act f' k')
| through_ask A (k : env -> prog St A) k' :
    (forall e, through (k e) (k' e)) -> through (Ask k) (Ask k')
| through_loop A I R (body : I -> prog St (I + R)) body' i (k : R -> prog St A) k' :
    (forall i, through (body i) (body' i)) -> (forall r, through (k r) (k' r)) ->
    through (Loop body i k) (Loop body' i k').

Lemma through_bind {A B} (p : prog St A) p' (k : A -> prog St B) k' :
  through p p' -> (forall a, through (k a) (k' a)) -> through (bind p k) (bind p' k').
Proof. intros H. induction H; intros Hk; [apply Hk|constructor; auto..]. Qed.

(** An access to a part of the component, through another part of the larger state. *)
Lemma through_lift {S0 S1 A} (M : lens St S0) (M1 : lens S' S1) (M2 : lens S1 S0) (p : prog S0 A) :
  (forall s, lget M (lget L s) = lget M2 (lget M1 s)) ->
  (forall y s, lput L (lput M y (lget L s)) s = lput M1 (lput M2 y (lget M1 s)) s) ->
  through (lift M p) (lift M1 (lift M2 p)).
Proof.
  intros Hg Hp. induction p as [A a|A X f k IH|A k IH|A I R body IHb i k IH]; constructor; auto.
  intros s. rewrite Hg. destruct (f (lget M2 (lget M1 s))) as [[x y]| |]; simpl; by rewrite ?Hp.
Qed.

Lemma through_id {A} (p : prog St A) : through p (lift L p).
Proof. induction p; constructor; auto. Qed.

(** A thread is safe in the larger state, in the phases of which it has a part [b] that
    it does not change, if what its accesses do to the component, [R], keeps the rest [J]
    of the invariant. *)
Context `{!LensLaws L} {G H : Type}.
Context (Inv : St -> (nat -> G) -> Prop) (J : S' -> (nat -> H) -> Prop).
Context (wait : St -> (nat -> G) -> nat -> Prop) (wait' : S' -> (nat -> G * H) -> nat -> Prop).

Definition Inv_with (s : S') (g : nat -> G * H) : Prop :=
  Inv (lget L s) (fun t => (g t).1) /\ J s (fun t => (g t).2).
Definition wait_with (s : S') (g : nat -> G * H) (t : nat) : Prop :=
  wait (lget L s) (fun t => (g t).1) t.

Context (waits : forall s g t, wait_with s g t -> wait' s g t).

Lemma csafe_through {A} n t c b (R : St -> St -> Prop) (p : prog St A) p' (Q : G -> A -> Prop) :
  (forall x s h, J s h -> h t = b -> R (lget L s) x -> J (lput L x s) h) ->
  through p p' -> keeps R p -> csafe Inv eq wait n t c p Q ->
  csafe Inv_with eq wait' n t (c, b) p' (fun c a => c.2 = b /\ Q c.1 a).
Proof.
  intros frame Ht. revert A c p p' Ht Q. induction n as [|n IH]; [done|].
  intros A c p p' Ht. destruct Ht as [A a|A X f f' k k' Hf Hk|A k k' Hk|A I R' body body' i k k' Hb Hk];
    intros Q Hkp Hc; simpl in *.
  - intros c' <-. auto.
  - destruct Hkp as [HR Hkp]. intros s g [Hi Hj] E. specialize (Hc _ _ Hi). simpl in Hc.
    rewrite <- E in Hc. specialize (Hc eq_refl).
    rewrite Hf. destruct (f (lget L s)) as [[x y]| |] eqn:Ef; simpl; [|by apply waits|done].
    destruct Hc as (g' & Hi' & Hmv & Hs). exists (fun u => (g' u, (g u).2)). split_and!.
    + split; simpl; [by rewrite lget_lput|]. apply frame; [done|by rewrite <- E|by eapply HR].
    + intros u Hu. rewrite <- (Hmv u Hu). by destruct (g u).
    + rewrite <- E. simpl. by apply (IH _ _ (k x)).
  - intros e. by apply (IH _ _ (k e)).
  - apply (IH _ _ (unfold_loop body i k)); [|by apply keeps_unfold|done]. apply through_bind; [done|].
    intros [i'|r]; [by constructor|done].
Qed.
End Through.

(** [p] on a component of a component. *)
Lemma through_outer {S1 S' St A} (K : lens S1 S') (L : lens S' St) (p : prog St A) p' :
  through L p p' -> through (lens_comp K L) p (lift K p').
Proof.
  induction 1 as [A a|A X f f' k k' Hf _ IH|A k k' _ IH|A I R body body' i k k' _ IHb _ IH]; constructor; auto.
  intros s. rewrite Hf. simpl. by destruct (f (lget L (lget K s))) as [[x y]| |].
Qed.

(** ** Clients of the queue *)

Section Clients.
Context `{CA : ChunkAlloc} {T : Type}.
Abbreviation B := (BlockingQueue (CoQueue T) T).
Abbreviation log := (list (event (T := T))).

(** The queue inside, with the history. *)
Definition inside : lens (B * log) (CoQueue T * log) :=
  Lens (fun s => (lget b_que s.1, s.2)) (fun x s => (lput b_que x.1 s.1, x.2)).

#[export] Instance inside_laws : LensLaws inside.
Proof. split; [by intros []|by intros [[? [] ?] ?]|done]. Qed.

Lemma through_queue {A} (p : prog (CoQueue T) A) :
  through inside (lift lens_fst p) (lift lens_fst (lift b_que p)).
Proof. by apply through_lift. Qed.

Lemma through_note e : through inside (store (note e)) (store (note e)).
Proof. apply through_act; [by intros [[? [] ?] ?]|]. intros x. apply through_ret. Qed.

(** *** The operations

    [Inv] is an invariant in which a thread that holds nothing of the lock, [out], can
    take it for reading, [shared]; under the lock it can do what is safe on the queue
    inside, and without it write to the history. *)
Section Ops.
Context {H : Type} (Inv : B * log -> (nat -> phase (T := T) * H) -> Prop).
Context (wait : B * log -> (nat -> phase (T := T) * H) -> nat -> Prop) (out shared : H).
Context (N M : nat) (space : (M / 31 + 1 + 2 * N < chunk_room)%nat) (small : Z.of_nat M < 2 ^ 60).
Context (t : nat) (Ht : (t < N)%nat).
Abbreviation cs := (csafe Inv eq wait).
Abbreviation inner_cs := (csafe (LInv (T := T) N M) eq nowait).

Context (enter : forall n c, cs n t (c, out) (lift lens_fst rw_read) (fun c' _ => c' = (c, shared))).
Context (leave : forall n c, cs n t (c, shared) (lift lens_fst rw_read_unlock) (fun c' _ => c' = (c, out))).
Context (within : forall A n c (p : prog (CoQueue T * log) A) p' Q, through inside p p' ->
  inner_cs n t c p Q -> cs n t (c, shared) p' (fun c a => c.2 = shared /\ Q c.1 a)).
Context (noted : forall n c e (Q : phase -> () -> Prop), inner_cs n t c (store (note e)) Q ->
  cs n t (c, out) (store (note e)) (fun c a => c.2 = out /\ Q c.1 a)).

(** An operation of the queue inside, under a read guard. *)
Lemma with_read_conc {A} n c (p : prog (CoQueue T) A) (Q : phase -> A -> Prop) :
  (forall m, lcs N M m t c p Q) ->
  cs n t (c, out) (lift lens_fst (with_read p)) (fun c a => c.2 = out /\ Q c.1 a).
Proof.
  intros Hp. unfold with_read. eapply csafe_peq; [symmetry; apply lift_bind|].
  eapply (csafe_bind _ eq); [by apply enter|]. intros m1 c1 [] _ ->.
  eapply csafe_peq; [symmetry; apply lift_bind|].
  eapply (csafe_bind _ eq); [eapply within; [apply through_queue|apply Hp]|].
  intros m2 [c2 b2] a _ [Hb HQ]. simpl in Hb, HQ. subst b2.
  eapply csafe_peq; [symmetry; apply lift_bind|].
  eapply (csafe_bind _ eq); [by apply leave|]. intros m3 c3 [] _ ->.
  apply csafe_ret. by intros c' <-.
Qed.

Lemma blocking_op_ok n (o : option T) bd c :
  has (Called (as_op o)) TNone (fun _ => True) [] (push1 (as_op o) + bd) c ->
  cs n t (c, out) (lift lens_fst (run_op (as_op o)))
    (fun c r => c.2 = out /\ has (Committed r) TNone (fun _ => True) [] bd c.1).
Proof.
  intros Hc. destruct o as [v|]; simpl in *; (eapply csafe_peq; [symmetry; apply lift_bind|]).
  - eapply (csafe_bind _ eq); [apply with_read_conc; intros m;
      by apply lcs_push; [| |apply (width N M space small)|]|].
    intros m c1 [] _ Hc1. apply csafe_ret. by intros c' <-.
  - eapply (csafe_bind _ eq); [apply with_read_conc; intros m;
      by apply lcs_pop; [|apply (width N M space small)|]|].
    intros m c1 r _ Hc1. apply csafe_ret. by intros c' <-.
Qed.

(** Between operations: nothing held, the lock included. *)
Definition away (bd : nat) (c : phase (T := T) * H) : Prop :=
  c.2 = out /\ has Idle TNone (fun _ => True) [] bd c.1.

(** An operation with its record in the history. *)
Lemma blocking_call_ok n (o : option T) bd c (k : prog (B * log) ()) Q :
  away (push1 (as_op o) + bd) c -> (forall m c, away bd c -> cs m t c k Q) ->
  cs n t c (store (note (Call t (as_op o))) ;;
            let! r := lift lens_fst (run_op (as_op o)) in
            store (note (Return t r)) ;; k) Q.
Proof.
  destruct c as [c b]. intros [Hb Hc] Hk. simpl in Hb, Hc. subst b.
  eapply (csafe_bind _ eq); [by apply noted, note_call|].
  intros m1 [c1 b1] [] _ [Hb1 Hc1]. simpl in Hb1, Hc1. subst b1.
  eapply (csafe_bind _ eq); [by apply blocking_op_ok|].
  intros m2 [c2 b2] r _ [Hb2 Hc2]. simpl in Hb2, Hc2. subst b2.
  eapply (csafe_bind _ eq); [by apply noted, note_return|].
  intros m3 c3 [] _ Hc3. by apply Hk.
Qed.
End Ops.

Section Pool.
Context (N M : nat) (space : (M / 31 + 1 + 2 * N < chunk_room)%nat) (small : Z.of_nat M < 2 ^ 60).

(** As many readers as threads that are in an operation, and no writer. *)
Definition read_locked (s : B * log) (h : nat -> bool) : Prop :=
  rw s.1 = MkRwLock (total (fun t => Nat.b2n (h t)) N) false.

Definition BInv : B * log -> (nat -> phase (T := T) * bool) -> Prop :=
  Inv_with inside (LInv N M) read_locked.
Definition bwait : B * log -> (nat -> phase (T := T) * bool) -> nat -> Prop :=
  wait_with inside (nowait (T := T)).

Abbreviation cs := (csafe BInv eq bwait).

Lemma cs_inside {A} n t c b (p : prog (CoQueue T * log) A) p' Q :
  through inside p p' -> csafe (LInv N M) eq nowait n t c p Q ->
  cs n t (c, b) p' (fun c a => c.2 = b /\ Q c.1 a).
Proof. intros Hp. apply (csafe_through inside _ _ _ _ ltac:(done) _ _ _ _ (fun _ _ => True)); [done|done|apply keeps_true]. Qed.

(** *** The lock *)

Lemma total_none n h : (forall t, h t = false) -> total (fun t => Nat.b2n (h t)) n = 0%nat.
Proof. intros Hh. induction n as [|n IH]; [done|]. simpl. by rewrite Hh, IH. Qed.

Lemma readers_enter (h : nat -> bool) t b : (t < N)%nat ->
  (total (fun u => Nat.b2n (<[t := b]> h u)) N + Nat.b2n (h t) =
   total (fun u => Nat.b2n (h u)) N + Nat.b2n b)%nat.
Proof.
  intros Ht. rewrite (total_upd (fun u => Nat.b2n (h u)) _ N t Ht); [by rewrite fn_lookup_insert|].
  intros u Hu. by rewrite fn_lookup_insert_ne.
Qed.

Lemma lock_step n t c b b' f :
  (forall s h, read_locked s h -> h t = b ->
     exists s', f s = Ok ((), s') /\ lget inside s' = lget inside s /\ read_locked s' (<[t := b']> h)) ->
  cs n t (c, b) (act f) (fun c' _ => c' = (c, b')).
Proof.
  intros Hf. apply csafe_act. intros s g [Hi Hj] E.
  destruct (Hf s _ Hj) as (s' & -> & Hin & Hj'); [by rewrite <- E|].
  exists (fun u => ((g u).1, <[t := b']> (fun u => (g u).2) u)). split_and!.
  - split; [by rewrite Hin|exact Hj'].
  - intros u Hu. rewrite fn_lookup_insert_ne by done. by destruct (g u).
  - intros c' <-. by rewrite fn_lookup_insert, <- E.
Qed.

Lemma rw_read_ok n t c : (t < N)%nat ->
  cs n t (c, false) (lift lens_fst rw_read) (fun c' _ => c' = (c, true)).
Proof.
  intros Ht. apply lock_step. intros [b l] h Hj Hb. unfold read_locked in Hj. simpl in *.
  rewrite Hj. eexists. split_and!; [done|done|]. unfold read_locked. simpl. f_equal.
  pose proof (readers_enter h t true Ht) as E. rewrite Hb in E. simpl in E. lia.
Qed.

Lemma rw_read_unlock_ok n t c : (t < N)%nat ->
  cs n t (c, true) (lift lens_fst rw_read_unlock) (fun c' _ => c' = (c, false)).
Proof.
  intros Ht. apply lock_step. intros [b l] h Hj Hb. unfold read_locked in Hj. simpl in *.
  rewrite Hj. eexists. split_and!; [done|done|]. unfold read_locked. simpl. f_equal.
  pose proof (readers_enter h t false Ht) as E. rewrite Hb in E. simpl in E. lia.
Qed.

(** *** The clients *)

Lemma blocking_client_ok n t (os : list (option T)) : (t < N)%nat -> forall c, away false (pushes_of os) c ->
  cs n t c (queue_client t os) (fun c _ => away false 0 c).
Proof.
  intros Ht. revert n. induction os as [|o os IH]; intros n c Hc.
  - apply csafe_ret. by intros c' <-.
  - rewrite pushes_of_cons in Hc.
    eapply (blocking_call_ok BInv bwait false true N M space small t Ht); [..|exact Hc|by auto].
    + intros. by apply rw_read_ok.
    + intros. by apply rw_read_unlock_ok.
    + intros. by eapply cs_inside.
    + intros. by eapply cs_inside; [apply through_note|].
Qed.
End Pool.

(** A new queue, and the threads that use it. *)
Definition blocking_new : B * log := (BlockingQueue_new CoQueue_new, []).
Definition blocking_clients (ps : list (list (option T))) : list (prog (B * log) ()) := queue_clients ps.

Lemma blocking_start_ok ps :
  BInv (length ps) (all_pushes ps) blocking_new (fun t => (start ps t, false)).
Proof.
  split; [apply start_ok|]. unfold read_locked. simpl. by rewrite (total_none _ (fun _ => false)).
Qed.

Lemma blocking_clients_safe ps : fits ps ->
  pool_safe (BInv (length ps) (all_pushes ps)) eq bwait (blocking_clients ps)
    (fun t => (start ps t, false)) (fun _ c _ => away false 0 c).
Proof.
  intros [Hr Hw] t p Hp n. unfold blocking_clients, queue_clients in Hp. rewrite list_lookup_imap in Hp.
  destruct (ps !! t) as [os|] eqn:E; simplify_eq/=.
  apply blocking_client_ok; [done|done|by eapply lookup_lt_Some|].
  unfold start. rewrite E. split; [done|by eexists].
Qed.

(** C19. [BlockingQueue] is linearizable: however the threads that push and pop
    interleave, nothing goes wrong, no thread ever waits for the lock, the calls and
    returns are those of a first-in-first-out queue, and once all threads have
    returned the lock is free. *)
Theorem blocking_queue_linearizable (ps : list (list (option T))) (evs : list (nat * env)) :
  fits ps ->
  match sched evs (blocking_clients ps) blocking_new with
  | POk ts s =>
      linearizable s.2 /\
      (forall t p e, ts !! t = Some p -> step e p s <> Some Block) /\
      ((forall t p, ts !! t = Some p -> p = Ret ()) -> rw s.1 = MkRwLock 0 false)
  | PFail _ _ _ => False
  | PBad => True
  end.
Proof.
  intros Hf. pose proof (pool_adequate _ _ _ evs _ _ _ _ (blocking_start_ok ps) (blocking_clients_safe ps Hf)) as H.
  destruct (sched _ _ _) as [ts s| |]; [|done|done]. destruct H as (g & [Hi Hj] & Hret & Hout & Hw). split_and!.
  - destruct Hi as (G & h & st & _ & Hr & _ & Hl). by exists h, (drop (taken G) (vals G)), st.
  - intros t p e Hp Hb. by apply (Hw t p e Hp) in Hb.
  - intros Hall. rewrite Hj, (total_none _ (fun t => (g t).2)); [done|].
    intros u. destruct (ts !! u) as [p|] eqn:E.
    + pose proof (Hall u p E) as ->. by destruct (Hret u () E) as [-> _].
    + by rewrite <- (Hout u E).
Qed.
End Clients.

(** The two threads of [two_clients], with two more steps for every operation. *)
Definition blocking_sched : list (nat * env) := alternate 18 ++ steps 0 7 ++ steps 1 4.

Lemma blocking_run : exists b, sched blocking_sched (blocking_clients two_clients) blocking_new =
  POk [Ret (); Ret ()] (b, two_log).
Proof. eexists. vm_compute. reflexivity. Qed.

Lemma blocking_queue_linearizable_witness : exists b,
  sched blocking_sched (blocking_clients two_clients) blocking_new =
    POk [Ret (); Ret ()] (b, two_log) /\ linearizable two_log /\ rw b = MkRwLock 0 false.
Proof.
  destruct blocking_run as [b E]. exists b. split; [exact E|].
  pose proof (blocking_queue_linearizable two_clients blocking_sched two_clients_fit) as H.
  rewrite E in H. destruct H as (Hl & _ & Hf). split; [exact Hl|].
  apply Hf. intros [|[|t]] p Hp; vm_compute in Hp; congruence.
Defined.
