(* ===== verification/BlockingIter.v ===== *)
(** * The queue behind a lock, with an iterator

    Any number of threads push to one [BlockingQueue] and pop from it while one thread
    iterates over it.  The threads that push and pop hold the lock for reading and work
    on the [CoQueue] inside at the same time; the iterator polls it under the write
    lock, alone.  To the others a call of [next] is one pop. *)

From S2P Require Import Prelude Machine Conc Solo Refine Fifo Timing Arena CoQueue CoQueueSpec CoQueueMain.
From S2P Require Import Linear CoQueueGhost CoQueueSteps CoQueueLin CoQueueConc CoQueueLen.
From S2P Require Import Stream BlockingCol BlockingConc.

#[local] Arguments Nat.div : simpl never.
#[local] Arguments Nat.mul : simpl never.

(** ** [pop] of a queue with an element, by a thread alone *)

Section Alone.
Context `{CA : ChunkAlloc} {T : Type}.
Implicit Types (q : CoQueue T).

Definition differ q : Prop := Z.shiftr (head_index q) SHIFT <> Z.shiftr (tail_index q) SHIFT.

Lemma wlp_load {X} n (f : CoQueue T -> X) q (Q : X -> CoQueue T -> Prop) : Q (f q) q -> wlp n (load f) q Q.
Proof. intros HQ. apply wlp_act. by intros x s' [= <- <-]. Qed.

(** The loads before a further round of its loop. *)
Lemma wlp_reload n (b : Backoff.Backoff) q : differ q ->
  wlp n (let! head := load_head_index in let! chunk := load_head_chunk in
         Ret (@inl _ (option T) (b, head, chunk))) q
    (fun r q' => match r with
       | inl (_, head, _) => differ q' /\ head = head_index q'
       | inr r => r <> None
       end).
Proof.
  intros Hd. eapply wlp_bind; [by apply (wlp_load _ _ _ (fun x q' => x = head_index q /\ q' = q))|].
  intros m1 ? ? _ [-> ->].
  eapply wlp_bind; [by apply (wlp_load _ _ _ (fun _ q' => q' = q))|]. intros m2 ? ? _ ->. by apply wlp_ret.
Qed.

Lemma wlp_pop n q : differ q -> wlp n CoQueue_pop q (fun r _ => r <> None).
Proof.
  intros Hd. unfold CoQueue_pop.
  eapply wlp_bind; [by apply (wlp_load _ _ _ (fun x q' => x = head_index q /\ q' = q))|].
  intros m1 ? ? _ [-> ->].
  eapply wlp_bind; [by apply (wlp_load _ _ _ (fun _ q' => q' = q))|]. intros m2 chunk ? _ ->.
  apply (wlp_loop _ (fun i q => let '(_, head, _) := i in differ q /\ head = head_index q)); [done|].
  clear q Hd chunk. intros m [[b head] chunk] q _ [Hd ->].
  destruct (_ =? CHUNK_CAP); [by apply wlp_reload|].
  eapply wlp_bind.
  { unfold uadd, add_w. destruct (_ <? _); [by apply (wlp_ret _ _ _ (fun _ q' => q' = q))|].
    apply wlp_act. discriminate. }
  intros m3 nh ? _ ->. eapply wlp_bind with (P := fun r q' => r <> None /\ q' = q).
  { unfold pop_check. destruct (_ =? 0); [|by apply wlp_ret].
    eapply wlp_bind; [by apply (wlp_load _ _ _ (fun x q' => x = tail_index q /\ q' = q))|].
    intros m4 ? ? _ [-> ->]. rewrite (proj2 (Z.eqb_neq _ _) Hd). by apply wlp_ret. }
  intros m4 [nh'|] ? _ [Hn ->]; [|done]. destruct (_ =? 0); [by apply wlp_reload|].
  eapply wlp_bind with (P := fun r q' => match r with inl _ => True | inr x => q' = q /\ x = head_index q end).
  { intros. destruct m4 as [|m4]; [done|]. intros e. destruct (spurious e); apply wlp_act.
    - by intros x s' [= <- <-].
    - intros x s'. destruct (_ =? _); by intros [= <- <-]. }
  intros m5 [r|x] q' _ Hr.
  - eapply wlp_bind; [apply wlp_true|]. intros m6 v q2 _ _. by apply wlp_ret.
  - destruct Hr as [-> ->].
    eapply wlp_bind; [by apply (wlp_load _ _ _ (fun _ q' => q' = q))|]. intros m6 c ? _ ->. by apply wlp_ret.
Qed.
End Alone.

(** ** The invariant *)

(** What a thread holds of the lock; a writer knows the queue, which nobody else changes. *)
Inductive hold (T : Type) : Type := NoLock | Reading | Writing (q : CoQueue T).
Arguments NoLock {T}.
Arguments Reading {T}.
Arguments Writing {T} q.

Definition is_reading {T} (h : hold T) : nat := match h with Reading => 1 | _ => 0 end.

(** A message that does not make the iterator panic. *)
Definition received {T} (m : option (QueueState T)) : Prop :=
  match m with Some m => harmless m = true | None => True end.

(** ** The threads *)

Section Threads.
Context `{CA : ChunkAlloc} {T : Type}.
Abbreviation B := (BlockingQueue (CoQueue T) T).
Abbreviation log := (list (event (T := T))).

(** A thread that pushes, pops and sends messages to the iterator; a message is not
    recorded. *)
Fixpoint user (me : nat) (os : list (option T + QueueState T)) : prog (B * log) () :=
  match os with
  | [] => Ret ()
  | inl o :: os =>
      store (note (Call me (as_op o))) ;;
      let! r := lift lens_fst (run_op (as_op o)) in
      store (note (Return me r)) ;;
      user me os
  | inr m :: os => lift lens_fst (send b_recv m) ;; user me os
  end.

(** A thread that calls [next] up to [k] times, until it ends. *)
Fixpoint iter_client (me k : nat) : prog (B * log) () :=
  match k with
  | O => Ret ()
  | S k =>
      store (note (Call me TryPop)) ;;
      let! r := lift lens_fst biter_next in
      match r with
      | Some (Item v) => store (note (Return me (Popped (Some v)))) ;; iter_client me k
      | Some Poke => store (note (Return me (Popped None))) ;; iter_client me k
      | None => Ret ()
      end
  end.

Definition operations (os : list (option T + QueueState T)) : list (option T) :=
  omap (fun o => match o with inl o => Some o | inr _ => None end) os.
Definition messages (os : list (option T + QueueState T)) : list (QueueState T) :=
  omap (fun o => match o with inl _ => None | inr m => Some m end) os.

Definition iter_clients (ps : list (list (option T + QueueState T))) (k : nat) : list (prog (B * log) ()) :=
  imap user ps ++ [iter_client (length ps) k].
End Threads.

Section Iter.
Context `{CA : ChunkAlloc} {T : Type}.
Abbreviation B := (BlockingQueue (CoQueue T) T).
Abbreviation log := (list (event (T := T))).
Context (N M : nat) (space : (M / 31 + 1 + 2 * N < chunk_room)%nat) (small : Z.of_nat M < 2 ^ 60).
Implicit Types (h : nat -> hold T) (s : B * log) (q : CoQueue T).

Record locks s h : Prop := {
  lk_readers : readers (rw s.1) = total (fun t => is_reading (h t)) N;
  lk_writer : writer (rw s.1) = true -> exists t q, h t = Writing q;
  lk_free t q : writer (rw s.1) = false -> h t <> Writing q;
  lk_alone t u q : h t = Writing q -> u <> t -> h u = NoLock;
  lk_queue t q : h t = Writing q -> lget b_que s.1 = q;
  lk_out t : (N <= t)%nat -> h t = NoLock;
  lk_recv : Forall (fun m => harmless m = true) (brecv s.1) /\ recv (inner s.1) = [];
}.

Definition IInv : B * log -> (nat -> phase (T := T) * hold T) -> Prop :=
  Inv_with inside (LInv N M) locks.

(** A thread waits for the lock, which another one holds. *)
Definition iwait s (g : nat -> phase (T := T) * hold T) (t : nat) : Prop :=
  (g t).2 = NoLock /\ exists u, (g u).2 <> NoLock.

Abbreviation cs := (csafe IInv eq iwait).

Lemma no_wait s g t : wait_with (H := hold T) inside (nowait (T := T)) s g t -> iwait s g t.
Proof. done. Qed.

(** Readers work on the queue inside; who holds nothing only writes to the history. *)
Lemma cs_reading {A} n t c (p : prog (CoQueue T * log) A) p' Q :
  through inside p p' -> csafe (LInv N M) eq nowait n t c p Q ->
  cs n t (c, Reading) p' (fun c a => c.2 = Reading /\ Q c.1 a).
Proof.
  intros Hp. apply (csafe_through inside _ _ _ _ no_wait _ _ _ _ (fun _ _ => True)); [|done|apply keeps_true].
  intros x s h [] Ht _. split; try done.
  intros u q Hu. exfalso. destruct (decide (t = u)) as [->|Hne]; [congruence|].
  rewrite (lk_alone0 u t q Hu Hne) in Ht. done.
Qed.

Lemma cs_note n t c e Q :
  csafe (LInv N M) eq nowait n t c (store (note e)) Q ->
  cs n t (c, NoLock) (store (note e)) (fun c a => c.2 = NoLock /\ Q c.1 a).
Proof.
  apply (csafe_through inside _ _ _ _ no_wait _ _ _ _ (fun x y => y.1 = x.1)).
  - intros x s h [] Ht Hx. split; try done. intros u q Hu. simpl. rewrite Hx. by eapply lk_queue0.
  - apply through_note.
  - split; [|done]. by intros s x s' [= <- <-].
Qed.

(** *** The lock *)

Lemma readers_change h t b : (t < N)%nat ->
  (total (fun u => is_reading (<[t := b]> h u)) N + is_reading (h t) =
   total (fun u => is_reading (h u)) N + is_reading b)%nat.
Proof.
  intros Ht. rewrite (total_upd (fun u => is_reading (h u)) _ N t Ht); [by rewrite fn_lookup_insert|].
  intros u Hu. by rewrite fn_lookup_insert_ne.
Qed.

Lemma total_zero h n : total (fun t => is_reading (h t)) n = 0%nat -> forall t, (t < n)%nat -> is_reading (h t) = 0%nat.
Proof.
  induction n as [|n IH]; simpl; intros H t Ht; [lia|]. destruct (decide (t = n)) as [->|]; [lia|apply IH; lia].
Qed.

Lemma total_some h n : total (fun t => is_reading (h t)) n <> 0%nat -> exists t, h t <> NoLock.
Proof.
  induction n as [|n IH]; simpl; intros H; [done|]. destruct (h n) eqn:E; simpl in H; [by apply IH|..];
    exists n; by rewrite E.
Qed.

(** A step that changes what a thread holds, and nothing inside; its phase may change as
    [P] says, a writer knowing the queue. *)
Definition stays (t : nat) (c : phase (T := T)) (b : hold T) (P : phase (T := T) -> Prop) : Prop :=
  forall q log g, LInv N M (q, log) g -> g t = c -> (forall q', b = Writing q' -> q = q') ->
    csafe_to (LInv N M) eq t g (q, log) (fun c' _ => P c') ().

Lemma stays_same t c b : stays t c b (fun c' => c' = c).
Proof. intros q log g Hi Hg _. exists g. split_and!; [done..|]. by intros c' <-. Qed.

Lemma hold_step n t c b (f : B -> res (() * B)) P (Q : hold T -> Prop) :
  stays t c b P ->
  (forall s h, locks s h -> h t = b -> match f s.1 with
     | Ok (_, x) => exists b', lget b_que x = lget b_que s.1 /\ locks (x, s.2) (<[t := b']> h) /\ Q b'
     | Block => b = NoLock /\ exists u, h u <> NoLock
     | Fail _ => False
     end) ->
  cs n t (c, b) (lift lens_fst (act f)) (fun c' _ => P c'.1 /\ Q c'.2).
Proof.
  intros HP Hf. apply csafe_act. intros s g [Hi Hj] E. specialize (Hf s _ Hj). simpl in Hf. rewrite <- E in Hf.
  specialize (Hf eq_refl). simpl. destruct (f s.1) as [[[] x]| |].
  - destruct Hf as (b' & Hin & Hj' & HQ).
    destruct (HP _ _ _ Hi) as (g' & Hi' & Hmv & HP').
    { by rewrite <- E. }
    { intros q' Hb. apply (lk_queue _ _ Hj t q'). by rewrite <- E. }
    exists (fun u => (g' u, <[t := b']> (fun u => (g u).2) u)). split_and!.
    + split; [|exact Hj']. simpl in Hin. simpl. by rewrite Hin.
    + intros u Hu. rewrite fn_lookup_insert_ne, <- Hmv by done. by destruct (g u).
    + intros c' <-. simpl. rewrite fn_lookup_insert. auto.
  - destruct Hf as [-> Hu]. split; [by rewrite <- E|done].
  - done.
Qed.

Lemma shared_rw_read_ok n t c : (t < N)%nat ->
  cs n t (c, NoLock) (lift lens_fst rw_read) (fun c' _ => c'.1 = c /\ c'.2 = Reading).
Proof.
  intros Ht. apply (hold_step _ _ _ _ _ _ (fun b => b = Reading) (stays_same _ _ _)). intros [b l] h Hj Hb. destruct Hj. simpl in *.
  destruct (writer (rw b)) eqn:Hw.
  - split; [done|]. destruct (lk_writer0 eq_refl) as (u & q & Hu). exists u. by rewrite Hu.
  - exists Reading. split_and!; [done| |done]. split; simpl; try done.
    + pose proof (readers_change h t Reading Ht) as E. rewrite Hb in E. simpl in E. lia.
    + intros u q _. destruct (decide (t = u)) as [<-|]; [by rewrite fn_lookup_insert|].
      rewrite fn_lookup_insert_ne by done. by apply lk_free0.
    + intros u v q Hu. destruct (decide (t = u)) as [<-|]; [by rewrite fn_lookup_insert in Hu|].
      rewrite fn_lookup_insert_ne in Hu by done. by destruct (lk_free0 u q eq_refl).
    + intros u q Hu. destruct (decide (t = u)) as [<-|]; [by rewrite fn_lookup_insert in Hu|].
      rewrite fn_lookup_insert_ne in Hu by done. by destruct (lk_free0 u q eq_refl).
    + intros u Hu. rewrite fn_lookup_insert_ne by lia. auto.
Qed.

Lemma shared_rw_read_unlock_ok n t c : (t < N)%nat ->
  cs n t (c, Reading) (lift lens_fst rw_read_unlock) (fun c' _ => c'.1 = c /\ c'.2 = NoLock).
Proof.
  intros Ht. apply (hold_step _ _ _ _ _ _ (fun b => b = NoLock) (stays_same _ _ _)). intros [b l] h Hj Hb. destruct Hj. simpl in *.
  exists NoLock. split_and!; [done| |done].
  assert (Hnw : forall u q, h u <> Writing q).
  { intros u q Hu. destruct (decide (t = u)) as [->|Hne]; [congruence|].
    rewrite (lk_alone0 u t q Hu Hne) in Hb. done. }
  assert (Hnw' : forall u q, <[t := NoLock]> h u <> Writing q).
  { intros u q. destruct (decide (t = u)) as [<-|]; [by rewrite fn_lookup_insert|].
    rewrite fn_lookup_insert_ne by done. apply Hnw. }
  split; simpl; try done.
  - pose proof (readers_change h t NoLock Ht) as E. rewrite Hb in E. simpl in E. lia.
  - intros Hw. destruct (lk_writer0 Hw) as (u & q & Hu). by destruct (Hnw u q).
  - intros u v q Hu. by destruct (Hnw' u q).
  - intros u q Hu. by destruct (Hnw' u q).
  - intros u Hu. rewrite fn_lookup_insert_ne by lia. auto.
Qed.

Lemma shared_rw_write_ok n t c : (t < N)%nat ->
  cs n t (c, NoLock) (lift lens_fst rw_write) (fun c' _ => c'.1 = c /\ exists q, c'.2 = Writing q).
Proof.
  intros Ht. apply (hold_step _ _ _ _ _ _ (fun b => exists q, b = Writing q) (stays_same _ _ _)).
  intros [b l] h Hj Hb. destruct Hj. simpl in *.
  destruct (writer (rw b)) eqn:Hw; simpl.
  { split; [done|]. destruct (lk_writer0 eq_refl) as (u & q & Hu). exists u. by rewrite Hu. }
  destruct (Nat.eqb_spec (readers (rw b)) 0) as [Hr|Hr]; simpl.
  - exists (Writing (lget b_que b)). split_and!; [done| |by eauto].
    assert (Hno : forall u, h u = NoLock).
    { intros u. destruct (decide (u < N)%nat) as [Hu|]; [|apply lk_out0; lia].
      rewrite lk_readers0 in Hr. pose proof (total_zero h N Hr u Hu) as Hz.
      destruct (h u) as [| |q] eqn:E; [done|done|]. by destruct (lk_free0 u q eq_refl). }
    split; simpl; try done.
    + pose proof (readers_change h t (Writing (lget b_que b)) Ht) as E. rewrite Hb in E. simpl in E. lia.
    + intros _. exists t, (lget b_que b). by rewrite fn_lookup_insert.
    + intros u v q Hu Hv. destruct (decide (t = v)) as [<-|]; [|by rewrite fn_lookup_insert_ne].
      rewrite fn_lookup_insert_ne, Hno in Hu by done. done.
    + intros u q Hu. destruct (decide (t = u)) as [<-|]; [rewrite fn_lookup_insert in Hu; congruence|].
      by rewrite fn_lookup_insert_ne, Hno in Hu.
    + intros u Hu. rewrite fn_lookup_insert_ne by lia. auto.
  - split; [done|]. rewrite lk_readers0 in Hr. by apply (total_some h N).
Qed.

Lemma shared_rw_write_unlock_ok n t c q P : (t < N)%nat -> stays t c (Writing q) P ->
  cs n t (c, Writing q) (lift lens_fst rw_write_unlock) (fun c' _ => P c'.1 /\ c'.2 = NoLock).
Proof.
  intros Ht HP. apply (hold_step _ _ _ _ _ _ (fun b => b = NoLock) HP). intros [b l] h Hj Hb. destruct Hj. simpl in *.
  exists NoLock. split_and!; [done| |done].
  assert (Hno : forall u, <[t := NoLock]> h u = NoLock).
  { intros u. destruct (decide (t = u)) as [<-|Hne]; [by rewrite fn_lookup_insert|].
    rewrite fn_lookup_insert_ne by done. by apply (lk_alone0 t u q). }
  split; simpl; try done.
  - pose proof (readers_change h t NoLock Ht) as E. rewrite Hb in E. simpl in E. lia.
  - intros u q' _. by rewrite Hno.
  - intros u q' Hu. by rewrite Hno in Hu.
Qed.

(** *** Work under the write lock *)

(** The queue inside. *)
Definition at_queue : lens (B * log) (CoQueue T) := lens_comp lens_fst (lens_comp b_inner stream_que).

Lemma locks_write s h t q x : locks s h -> h t = Writing q -> locks (lput at_queue x s) (<[t := Writing x]> h).
Proof.
  intros [] Ht.
  assert (Hno : forall u, u <> t -> <[t := Writing x]> h u = NoLock).
  { intros u Hu. rewrite fn_lookup_insert_ne by done. by eapply lk_alone0. }
  assert (Hw : forall u q', <[t := Writing x]> h u = Writing q' -> u = t /\ q' = x).
  { intros u q' Hu. destruct (decide (u = t)) as [->|Hne]; [|by rewrite Hno in Hu].
    rewrite fn_lookup_insert in Hu. by injection Hu. }
  split; simpl; try done.
  - rewrite lk_readers0. apply total_ext. intros u _. destruct (decide (u = t)) as [->|Hne].
    + by rewrite fn_lookup_insert, Ht.
    + by rewrite fn_lookup_insert_ne.
  - intros _. exists t, x. apply fn_lookup_insert.
  - intros u q' Hf. by destruct (lk_free0 t q Hf).
  - intros u v q' Hu Hv. destruct (Hw u q' Hu) as [-> _]. by apply Hno.
  - intros u q' Hu. by destruct (Hw u q' Hu) as [_ ->].
  - intros u Hu. destruct (decide (u = t)) as [->|Hne]; [by rewrite lk_out0 in Ht|by apply Hno].
Qed.

(** A program on the queue is safe, and does what it does alone. *)
Lemma cs_writing {A} n t c q (p : prog (CoQueue T) A) p' Q (R : A -> CoQueue T -> Prop) :
  through at_queue p p' -> lcs N M n t c p Q -> wlp n p q R ->
  cs n t (c, Writing q) p' (fun c a => exists q', c.2 = Writing q' /\ Q c.1 a /\ R a q').
Proof.
  intros Ht. revert A c q p p' Ht Q R. induction n as [|n IH]; [done|].
  intros A c q p p' Ht. destruct Ht as [A a|A X f f' k k' Hf Hk|A k k' Hk|A I R' body body' i k k' Hb Hk];
    intros Q R Hc Hw; unfold lcs in Hc; simpl in Hc, Hw |- *.
  - intros c' <-. eauto.
  - intros s g [Hi Hj] E. specialize (Hc _ _ Hi). simpl in Hc. rewrite <- E in Hc. specialize (Hc eq_refl).
    assert (Hq : que (inner s.1) = q) by (eapply (lk_queue _ _ Hj t); by rewrite <- E).
    rewrite Hf. simpl in *. rewrite Hq in Hc |- *.
    destruct (f q) as [[x y]| |]; simpl; [|done|done].
    destruct Hc as (g' & Hi' & Hmv & Hs).
    exists (fun u => (g' u, <[t := Writing y]> (fun u => (g u).2) u)). split_and!.
    + split; [exact Hi'|]. apply (locks_write s _ t q y Hj). by rewrite <- E.
    + intros u Hu. rewrite fn_lookup_insert_ne by done. rewrite <- (Hmv u Hu). by destruct (g u).
    + rewrite fn_lookup_insert. by apply (IH _ _ _ (k x)).
  - intros e. apply (IH _ _ _ (k e)); [apply Hk|apply Hc|apply Hw].
  - apply (IH _ _ _ (unfold_loop body i k)); [| |done].
    + apply through_bind; [done|]. intros [i'|r]; [by constructor|done].
    + unfold lcs. eapply csafe_peq; [|exact Hc]. unfold unfold_loop. rewrite lift_bind.
      apply bind_peq; [reflexivity|]. intros [?|?]; reflexivity.
Qed.

(** *** The iterator *)

(** A step that changes neither the queue nor the lock. *)
Lemma quiet_step {X} n t c b (f : B -> res (X * B)) (Q : X -> Prop) :
  (forall x, Forall (fun m => harmless m = true) (brecv x) -> recv (inner x) = [] -> match f x with
     | Ok (r, y) => rw y = rw x /\ inner y = inner x /\ Forall (fun m => harmless m = true) (brecv y) /\ Q r
     | _ => False
     end) ->
  cs n t (c, b) (lift lens_fst (act f)) (fun c' r => c' = (c, b) /\ Q r).
Proof.
  intros Hf. apply csafe_act. intros s g [Hi Hj] E. destruct (lk_recv _ _ Hj) as [H1 H2].
  specialize (Hf s.1 H1 H2). simpl. destruct (f s.1) as [[r y]| |]; [|done|done].
  destruct Hf as (Hr & Hin & Hm & HQ). exists g. split_and!; [|done|by intros c' <-].
  split; simpl; [by rewrite Hin|]. destruct Hj. split; simpl; rewrite ?Hr, ?Hin; done.
Qed.

Lemma outer_recv_ok n t c b :
  cs n t (c, b) (lift lens_fst (try_recv b_recv)) (fun c' m => c' = (c, b) /\ received m).
Proof.
  apply (quiet_step _ _ _ _ _ received). intros x Hm _. simpl.
  destruct (brecv x) as [|m ms] eqn:E; [by rewrite E|]. by apply Forall_cons in Hm as [? ?].
Qed.

Lemma inner_recv_ok n t c b :
  cs n t (c, b) (lift lens_fst (lift b_inner (try_recv stream_recv))) (fun c' m => c' = (c, b) /\ m = None).
Proof.
  apply (quiet_step _ _ _ _ (fun x => outer b_inner match recv (inner x) with
    | [] => Ok (None, inner x)
    | m :: ms => Ok (Some m, MkStream (que (inner x)) ms)
    end x) (fun m => m = None)).
  intros x Hm ->. done.
Qed.

Lemma through_at {A} (p : prog (CoQueue T) A) :
  through at_queue p (lift lens_fst (lift b_inner (lift stream_que p))).
Proof. apply through_outer, through_outer, through_id. Qed.

(** The call of [next] that the iterator is in, as a pop. *)
Abbreviation popping_at := (has (Called (T := T) TryPop) TNone (fun _ => True) []).

Lemma locked_is_empty_ok n t c bd q : (t < N)%nat -> popping_at bd c ->
  cs n t (c, Writing q) (lift lens_fst (lift b_inner (lift stream_que q_is_empty)))
    (fun c' r => exists q', c'.2 = Writing q' /\ popping_at bd c'.1 /\ if r then ~ differ q' else differ q').
Proof.
  intros Ht Hc. eapply (cs_writing _ _ _ _ _ _ (fun c _ => popping_at bd c)
    (fun r q' => if (r : bool) then ~ differ q' else differ q')); [apply through_at| |].
  - unfold q_is_empty, co_ops, CoQueue_is_empty, load_head_index, load_tail_index. eapply lcs_bind.
    { eapply (lcs_look N M t Ht) with (F := fun _ _ => True) (R := fun _ => True); [exact Hc|auto with stable..]. }
    intros m1 c1 x _ [_ Hc1]. eapply lcs_bind.
    { eapply (lcs_look N M t Ht) with (F := fun _ _ => True) (R := fun _ => True); [exact Hc1|auto with stable..]. }
    intros m2 c2 y _ [_ Hc2]. apply lcs_ret. eapply has_mono; [exact Hc2|done].
  - eapply wlp_bind; [by apply (wlp_load _ _ _ (fun x q' => x = head_index q /\ q' = q))|].
    intros m1 ? ? _ [-> ->].
    eapply wlp_bind; [by apply (wlp_load _ _ _ (fun x q' => x = tail_index q /\ q' = q))|].
    intros m2 ? ? _ [-> ->]. apply wlp_ret. unfold differ.
    destruct (Z.eqb_spec (Z.shiftr (head_index q) SHIFT) (Z.shiftr (tail_index q) SHIFT)) as [E|E]; tauto.
Qed.

Lemma locked_pop_ok n t c bd q : (t < N)%nat -> popping_at bd c -> differ q ->
  cs n t (c, Writing q) (lift lens_fst (lift b_inner (lift stream_que q_pop)))
    (fun c' r => (exists q', c'.2 = Writing q') /\ exists v, r = Some v /\
       has (Committed (Popped (Some v))) TNone (fun _ => True) [] bd c'.1).
Proof.
  intros Ht Hc Hd. eapply (csafe_mono _ eq); [|eapply (cs_writing _ _ _ _ _ _
    (fun c r => has (Committed (Popped r)) TNone (fun _ => True) [] bd c) (fun r _ => r <> None));
    [apply through_at| |by apply wlp_pop]].
  - intros c' r (q' & Hq & Hr & Hn). split; [by exists q'|]. destruct r as [v|]; [|done]. exists v. by split.
  - by apply lcs_pop; [|apply (width N M space small)|].
Qed.

Lemma lift2_bind {S1 S2 S3 A C} (K : lens S1 S2) (L : lens S2 S3) (p : prog S3 A) (g : A -> prog S3 C) :
  peq (lift K (lift L (bind p g))) (bind (lift K (lift L p)) (fun a => lift K (lift L (g a)))).
Proof. induction p; simpl; [reflexivity|..]; constructor; auto. Qed.

(** One poll of the queue: nothing on an empty queue, its front element on another one. *)
Lemma locked_poll_ok n t c bd q : (t < N)%nat -> popping_at bd c ->
  cs n t (c, Writing q) (lift lens_fst (lift b_inner (poll_next Waker.create)))
    (fun c' r => match r with
       | Pending => exists q', c'.2 = Writing q' /\ popping_at bd c'.1 /\ ~ differ q'
       | Ready r => (exists q', c'.2 = Writing q') /\ exists v, r = Some v /\
           has (Committed (Popped (Some v))) TNone (fun _ => True) [] bd c'.1
       end).
Proof.
  intros Ht Hc. eapply csafe_peq; [symmetry; apply lift2_bind|].
  eapply (csafe_bind _ eq); [apply inner_recv_ok|]. intros m1 ? ? _ [-> ->].
  eapply csafe_peq; [symmetry; apply lift2_bind|].
  eapply (csafe_bind _ eq) with (P := fun c' r =>
     (exists q', r = Ready Spin /\ c'.2 = Writing q' /\ popping_at bd c'.1 /\ ~ differ q') \/
     (exists v q', r = Ready (Yield v) /\ c'.2 = Writing q' /\
        has (Committed (Popped (Some v))) TNone (fun _ => True) [] bd c'.1)).
  - eapply csafe_peq; [symmetry; apply lift2_bind|].
    eapply (csafe_bind _ eq); [by apply locked_is_empty_ok|]. intros m2 [c2 ?] e _ (q2 & Hq & Hc2 & He).
    simpl in Hq, Hc2. subst. destruct e; simpl.
    + apply csafe_ret. intros c' <-. left. by exists q2.
    + eapply csafe_peq; [symmetry; apply lift2_bind|].
      eapply (csafe_bind _ eq); [by apply locked_pop_ok|].
      intros m3 c3 r _ ((q3 & Hq3) & v & -> & Hc3). apply csafe_ret. intros c' <-. right. by exists v, q3.
  - intros m2 c2 r _ [(q' & -> & H)|(v & q' & -> & Hq & H)]; apply csafe_ret; intros c' <-; [by exists q'|].
    split; [by exists q'|by exists v].
Qed.

(** An empty queue, when the last poll ends: the call of [next] takes effect. *)
Lemma stays_poke t c bd q : (t < N)%nat -> popping_at bd c -> ~ differ q ->
  stays t c (Writing q) (has (Committed (Popped None)) TNone (fun _ => True) [] bd).
Proof.
  intros Ht (K & -> & HK) Hd q' log g (G & h & st & Hi & Hl) Hg Hq. rewrite (Hq q eq_refl) in *. simpl in Hi, Hl.
  destruct (inv_know _ _ _ _ _ _ _ _ _ _ _ Hi Hg) as [HKG HKs].
  assert (Ee : taken G = length (vals G)).
  { apply (index_empty q G (proj1 Hi)). unfold differ in Hd. destruct (Z.eq_dec (Z.shiftr (head_index q) SHIFT)
      (Z.shiftr (tail_index q) SHIFT)); tauto. }
  eapply to_commit; [exact Hl|by eapply (step_know N M t Ht q g G _ _ K K)|by rewrite Hg| |done|].
  - by rewrite Ee, drop_all.
  - by exists K.
Qed.

(** What a call of [next] has done: popped an element, found the queue empty, or ended. *)
Definition next_done bd (c : phase (T := T) * hold T) (r : option (IterWaker T)) : Prop :=
  c.2 = NoLock /\ match r with
    | Some (Item v) => has (Committed (Popped (Some v))) TNone (fun _ => True) [] bd c.1
    | Some Poke => has (Committed (Popped None)) TNone (fun _ => True) [] bd c.1
    | None => popping_at bd c.1
    end.
Definition pass_done bd (c : phase (T := T) * hold T) (r : Z + option (IterWaker T)) : Prop :=
  match r with inl _ => c.2 = NoLock /\ popping_at bd c.1 | inr r => next_done bd c r end.

Lemma poll_pass_ok n t c bd i : (t < N)%nat -> popping_at bd c ->
  cs n t (c, NoLock) (lift lens_fst
    (rw_write ;;
     let! p := lift b_inner (poll_next Waker.create) in
     let! r := match p with
       | Ready (Some res) => Ret (inr (Some (Item res)))
       | Ready None => Ret (inr None)
       | Pending => if i =? 20 then Ret (inr (Some Poke)) else Ret (inl (i + 1))
       end in
     rw_write_unlock ;; Ret r)) (pass_done bd).
Proof.
  intros Ht Hc. eapply csafe_peq; [symmetry; apply lift_bind|].
  eapply (csafe_bind _ eq); [by apply shared_rw_write_ok|]. intros m1 [? ?] [] _ [H1 [q Hq]]. simpl in H1, Hq. subst.
  eapply csafe_peq; [symmetry; apply lift_bind|].
  eapply (csafe_bind _ eq); [by apply locked_poll_ok|].
  assert (Hun : forall m (c : phase (T := T)) q (r : Z + option (IterWaker T)) P, stays t c (Writing q) P ->
    (forall c', P c' -> pass_done bd (c', NoLock) r) ->
    cs m t (c, Writing q) (lift lens_fst (rw_write_unlock ;; Ret r)) (pass_done bd)).
  { intros m c2 q2 r P HP HQ. eapply csafe_peq; [symmetry; apply lift_bind|].
    eapply (csafe_bind _ eq); [by apply shared_rw_write_unlock_ok|]. intros m2 [c3 ?] [] _ [H3 H4]. simpl in H3, H4.
    subst. apply csafe_ret. intros c' <-. auto. }
  intros m2 [c2 ?] [r|] _.
  - intros ((q2 & Hq) & v & -> & Hc2). simpl in Hq, Hc2. subst. simpl.
    eapply Hun; [apply stays_same|]. intros c' ->. by split.
  - intros (q2 & Hq & Hc2 & Hd). simpl in Hq, Hc2. subst. destruct (i =? 20); simpl.
    + eapply Hun; [by eapply stays_poke|]. intros c' Hc'. by split.
    + eapply Hun; [apply stays_same|]. intros c' ->. by split.
Qed.

Lemma bnext_pass_conc n t c bd i : (t < N)%nat -> popping_at bd c ->
  cs n t (c, NoLock) (lift lens_fst (bnext_pass i)) (pass_done bd).
Proof.
  intros Ht Hc. eapply csafe_peq; [symmetry; apply lift_bind|].
  eapply (csafe_bind _ eq); [by apply outer_recv_ok|]. intros m1 ? m _ [-> Hm].
  destruct m as [[e|v| |]|]; [done|by apply poll_pass_ok| | |by apply poll_pass_ok].
  - by apply poll_pass_ok.
  - apply csafe_ret. intros c' <-. by split.
Qed.

Lemma biter_next_ok n t c bd : (t < N)%nat -> popping_at bd c ->
  cs n t (c, NoLock) (lift lens_fst biter_next) (next_done bd).
Proof.
  intros Ht Hc. apply (csafe_loop _ _ _ n t (fun c _ => c.2 = NoLock /\ popping_at bd c.1)); [done|].
  intros m [c1 ?] i _ [H1 H2]. simpl in H1, H2. subst. eapply (csafe_mono _ eq); [|by apply bnext_pass_conc].
  intros c2 [j|r] Hr; [done|]. intros m2 _. apply csafe_ret. by intros c' <-.
Qed.

(** *** The clients *)

(** Sending a message to the iterator. *)
Lemma send_ok n t c b m : harmless m = true ->
  cs n t (c, b) (lift lens_fst (send b_recv m)) (fun c' _ => c' = (c, b)).
Proof.
  intros Hm. eapply (csafe_mono _ eq); [|apply (quiet_step _ _ _ _ _ (fun _ => True))]; [by intros ? ? [? _]|].
  intros x Hx _. split_and!; [done..| |done]. apply Forall_app. auto.
Qed.

Lemma user_ok n t (os : list (option T + QueueState T)) : (t < N)%nat ->
  Forall (fun m => harmless m = true) (messages os) -> forall c, away NoLock (pushes_of (operations os)) c ->
  cs n t c (user t os) (fun c _ => c.2 = NoLock).
Proof.
  intros Ht. revert n. induction os as [|[o|m] os IH]; intros n Hm c Hc.
  - apply csafe_ret. by intros c' <-; destruct Hc.
  - change (operations _) with (o :: operations os) in Hc. rewrite pushes_of_cons in Hc.
    eapply (blocking_call_ok IInv iwait NoLock Reading N M space small t Ht); [..|exact Hc|by auto].
    + intros m c'. eapply (csafe_mono _ eq); [|by apply shared_rw_read_ok]. intros [? ?] [] [? ?]. by simplify_eq/=.
    + intros m c'. eapply (csafe_mono _ eq); [|by apply shared_rw_read_unlock_ok].
      intros [? ?] [] [? ?]. by simplify_eq/=.
    + intros. by eapply cs_reading.
    + intros. by apply cs_note.
  - apply Forall_cons in Hm as [Hm Hms]. destruct c as [c b].
    eapply (csafe_bind _ eq); [by apply send_ok|]. intros m1 c1 [] _ ->. by apply IH.
Qed.

Lemma iter_client_ok n t k : (t < N)%nat -> forall c, away NoLock 0 c ->
  cs n t c (iter_client t k) (fun c _ => c.2 = NoLock).
Proof.
  intros Ht. revert n. induction k as [|k IH]; intros n [c b] [Hb Hc]; simpl in Hb, Hc; subst b.
  - apply csafe_ret. by intros c' <-.
  - eapply (csafe_bind _ eq); [by apply cs_note, note_call|].
    intros m1 [c1 b1] [] _ [Hb1 Hc1]. simpl in Hb1, Hc1. subst b1.
    eapply (csafe_bind _ eq); [by apply biter_next_ok|].
    intros m2 [c2 b2] r _ [Hb2 Hc2]. simpl in Hb2, Hc2. subst b2.
    destruct r as [[v|]|]; [| |apply csafe_ret; by intros c' <-].
    + eapply (csafe_bind _ eq); [by apply cs_note, note_return|]. intros m3 c3 [] _ Hc3. by apply IH.
    + eapply (csafe_bind _ eq); [by apply cs_note, note_return|]. intros m3 c3 [] _ Hc3. by apply IH.
Qed.
End Iter.

(** ** The pool *)

Section Pool.
Context `{CA : ChunkAlloc} {T : Type}.
Implicit Types (ps : list (list (option T + QueueState T))).

(** The operations of all threads; the iterator pushes nothing. *)
Definition scripts ps : list (list (option T)) := (operations <$> ps) ++ [[]].
Definition iter_fits ps : Prop :=
  fits (scripts ps) /\ Forall (fun os => Forall (fun m => harmless m = true) (messages os)) ps.

Lemma total_out (h : nat -> hold T) n : (forall t, is_reading (h t) = 0%nat) ->
  total (fun t => is_reading (h t)) n = 0%nat.
Proof. intros Hh. induction n as [|n IH]; [done|]. simpl. by rewrite Hh, IH. Qed.

Lemma iter_start_ok ps :
  IInv (length (scripts ps)) (all_pushes (scripts ps)) blocking_new (fun t => (start (scripts ps) t, NoLock)).
Proof.
  split; [apply start_ok|]. split; simpl; try done. by rewrite (total_out (fun _ => NoLock)).
Qed.

Lemma iter_clients_safe ps k : iter_fits ps ->
  pool_safe (IInv (length (scripts ps)) (all_pushes (scripts ps))) eq iwait (iter_clients ps k)
    (fun t => (start (scripts ps) t, NoLock)) (fun _ c _ => c.2 = NoLock).
Proof.
  intros [[Hr Hw] Hm] t p Hp n. unfold iter_clients in Hp.
  assert (Hl : length (scripts ps) = S (length ps)).
  { unfold scripts. rewrite length_app, length_fmap. simpl. lia. }
  apply lookup_app_Some in Hp as [Hp|[Hge Hp]].
  - rewrite list_lookup_imap in Hp. destruct (ps !! t) as [os|] eqn:E; simplify_eq/=.
    assert (Hlt : (t < length ps)%nat) by (by eapply lookup_lt_Some).
    apply user_ok; [done|done|lia|by eapply Forall_lookup_1 in Hm|].
    split; [done|]. unfold start, scripts. rewrite lookup_app_l by (by rewrite length_fmap).
    rewrite list_lookup_fmap, E. by eexists.
  - rewrite length_imap in Hge, Hp. apply list_lookup_singleton_Some in Hp as [Ht <-].
    assert (t = length ps) as -> by lia. apply iter_client_ok; [done|done|lia|].
    split; [done|]. unfold start, scripts. rewrite lookup_app_r by (by rewrite length_fmap).
    rewrite length_fmap, Nat.sub_diag. by eexists.
Qed.

(** C18. [BlockingQueue] with an iterator is linearizable: any number of threads push, pop
    and send messages (but no [Error]) while another one calls [next] up to [k] times,
    and however they interleave nothing goes wrong, the calls and returns are those of a
    first-in-first-out queue, [next] counting as a pop that returns [Poke] only when the queue
    is empty, the writer is alone under the lock, and when every thread has returned or
    waits for the lock, all have returned and the lock is free. *)
Theorem blocking_queue_iter_linearizable ps (k : nat) (evs : list (nat * env)) :
  iter_fits ps ->
  match sched evs (iter_clients ps k) blocking_new with
  | POk ts s =>
      linearizable s.2 /\
      (writer (rw s.1) = true -> readers (rw s.1) = 0%nat) /\
      ((forall t p, ts !! t = Some p -> p = Ret () \/ step calm p s = Some Block) ->
       (forall t p, ts !! t = Some p -> p = Ret ()) /\ rw s.1 = MkRwLock 0 false)
  | PFail _ _ _ => False
  | PBad => True
  end.
Proof.
  intros Hf. pose proof (pool_adequate _ _ _ evs _ _ _ _ (iter_start_ok ps) (iter_clients_safe ps k Hf)) as H.
  destruct (sched _ _ _) as [ts s| |]; [|done|done]. destruct H as (g & [Hi Hj] & Hret & Hout & Hw). split_and!.
  - destruct Hi as (G & h & st & _ & Hr & _ & Hl). by exists h, (drop (taken G) (vals G)), st.
  - intros E. destruct (lk_writer _ _ _ Hj E) as (t & q & Ht). rewrite (lk_readers _ _ _ Hj). apply total_out.
    intros u. destruct (decide (u = t)) as [->|Hne]; [by rewrite Ht|]. by rewrite (lk_alone _ _ _ Hj t u q Ht Hne).
  - intros Hall. assert (Hno : forall t, (g t).2 = NoLock).
    { intros t. destruct (ts !! t) as [p|] eqn:E; [|by rewrite <- (Hout t E)].
      destruct (Hall t p E) as [->|Hb]; [by apply (Hret t () E)|]. by apply (Hw t p calm E Hb). }
    split.
    + intros t p Hp. destruct (Hall t p Hp) as [|Hb]; [done|]. destruct (Hw t p calm Hp Hb) as [_ [u Hu]].
      by rewrite Hno in Hu.
    + pose proof (lk_readers _ _ _ Hj) as Hr. rewrite total_out in Hr by (intros t; by rewrite Hno).
      pose proof (lk_writer _ _ _ Hj) as Hwr. destruct (rw s.1) as [r [|]]; simpl in *; [|by rewrite Hr].
      destruct (Hwr eq_refl) as (t & q & Ht). by rewrite Hno in Ht.
Qed.
End Pool.

(** A thread that pushes two values while another one iterates. *)
Definition pusher : list (list (option Z + QueueState Z)) := [[inl (Some 7); inr Spin; inl (Some 8)]].

Definition iter_sched : list (nat * env) := steps 0 16 ++ steps 1 28 ++ steps 0 10 ++ steps 1 166.

Definition iter_log : list (event (T := Z)) :=
  [Call 0 (Push 7); Return 0 Pushed; Call 0 (Push 8); Call 1 TryPop; Return 1 (Popped (Some 7));
   Call 1 TryPop; Return 0 Pushed; Return 1 (Popped (Some 8)); Call 1 TryPop; Return 1 (Popped None)].

Lemma iter_run : exists b, sched iter_sched (iter_clients pusher 3) blocking_new =
  POk [Ret (); Ret ()] (b, iter_log).
Proof. eexists. vm_compute. reflexivity. Qed.

Lemma pusher_fits : iter_fits pusher.
Proof. split; [split; vm_compute; lia || done|by repeat constructor]. Qed.

Lemma blocking_queue_iter_linearizable_witness : exists b,
  sched iter_sched (iter_clients pusher 3) blocking_new = POk [Ret (); Ret ()] (b, iter_log) /\
  linearizable iter_log /\ rw b = MkRwLock 0 false.
Proof.
  destruct iter_run as [b E]. exists b. split; [exact E|].
  pose proof (blocking_queue_iter_linearizable pusher 3 iter_sched pusher_fits) as H.
  rewrite E in H. destruct H as (Hl & _ & Hf). split; [exact Hl|].
  apply Hf. intros [|[|t]] p Hp; vm_compute in Hp; left; congruence.
Defined.
