(* ===== verification/OwnRef.v ===== *)
(** * Tagged pointers: [queue/own_ref.rs]

    [Owned], [Shared] and [Atomic] hold a pointer as a [usize] whose low bits,
    unused because of the alignment of the pointee, may carry a tag.  The
    alignment [mem::align_of::<T>()] of the pointee is the parameter [al]. *)

From S2P Require Import Prelude Machine.

(** [trailing_zeros] of a 64-bit integer. *)
Fixpoint pos_trailing_zeros (p : positive) : Z :=
  match p with
  | xO p => 1 + pos_trailing_zeros p
  | _ => 0
  end.

Definition trailing_zeros (z : Z) : Z :=
  match z with
  | Zpos p => pos_trailing_zeros p
  | _ => usize
  end.

(** An alignment of the target: a power of two below the width. *)
Definition alignment (al : Z) : Prop := exists k, 0 <= k < usize /\ al = 2 ^ k.

Lemma trailing_zeros_pow2 k : 0 <= k -> trailing_zeros (2 ^ k) = k.
Proof.
  intros Hk. pattern k. apply natlike_ind; [done| |done].
  intros x Hx IH. rewrite Z.pow_succ_r by lia.
  pose proof (Z.pow_pos_nonneg 2 x).
  destruct (2 ^ x) as [|p|p] eqn:E; [lia| |lia].
  change (2 * Z.pos p) with (Z.pos p~0). cbn in *. lia.
Qed.

(** ** The pointer wrappers *)

Record Owned : Type := MkOwned { owned_data : Z }.
Record Shared : Type := MkShared { shared_data : Z }.
Record Atomic : Type := MkAtomic { atomic_data : Z }.

#[export] Instance Owned_eq_dec : EqDecision Owned.
Proof. solve_decision. Defined.
#[export] Instance Shared_eq_dec : EqDecision Shared.
Proof. solve_decision. Defined.
#[export] Instance Atomic_eq_dec : EqDecision Atomic.
Proof. solve_decision. Defined.

(** [trait Pointer]: conversion to and from the machine representation.
    [from_usize] may fail a [debug_assert!]. *)
Class Pointer (P : Type) : Type := {
  into_usize : P -> Z;
  from_usize : Z -> res P;
}.

(** What the users of the trait rely on. *)
Class PointerLaws (P : Type) `{Pointer P} : Prop := {
  from_into_usize (p : P) : into_usize p <> 0 -> from_usize (into_usize p) = Ok p;
  into_from_usize (d : Z) (p : P) : from_usize d = Ok p -> into_usize p = d;
}.

Definition Owned_from_usize (data : Z) : res Owned :=
  if data =? 0 then Fail Panic else Ok (MkOwned data).

Definition Shared_from_usize (data : Z) : Shared := MkShared data.

#[export] Instance Pointer_Owned : Pointer Owned :=
  { into_usize := owned_data; from_usize := Owned_from_usize }.

#[export] Instance Pointer_Shared : Pointer Shared :=
  { into_usize := shared_data; from_usize := fun data => Ok (Shared_from_usize data) }.

#[export] Instance PointerLaws_Owned : PointerLaws Owned.
Proof.
  split; simpl; unfold Owned_from_usize.
  - intros [d] Hd. simpl in *. by rewrite (proj2 (Z.eqb_neq _ _) Hd).
  - intros d p. destruct (d =? 0); [done|]. by injection 1 as <-.
Qed.

#[export] Instance PointerLaws_Shared : PointerLaws Shared.
Proof. split; simpl; [by intros []|]. intros d p. by injection 1 as <-. Qed.

Definition Owned_null : Owned := MkOwned 0.
Definition Shared_null : Shared := MkShared 0.
Definition Atomic_null : Atomic := MkAtomic 0.

(** [Atomic::from_usize] has the same [debug_assert!] as [Owned::from_usize]. *)
Definition Atomic_from_usize (data : Z) : res Atomic :=
  if data =? 0 then Fail Panic else Ok (MkAtomic data).

Definition into_shared (o : Owned) : Shared := Shared_from_usize (into_usize o).
Definition into_owned (s : Shared) : res Owned := Owned_from_usize (shared_data s).

(** ** Tags *)

Section Tags.
Context (al : Z).

Definition low_bits : Z := Z.shiftl 1 (trailing_zeros al) - 1.

(** [assert_eq!(raw as usize & low_bits::<T>(), 0)]. *)
Definition ensure_aligned (raw : Z) : res () :=
  if Z.land raw low_bits =? 0 then Ok () else Fail Panic.

Definition data_with_tag (data tag : Z) : Z :=
  Z.lor (Z.land data (unot usize low_bits)) (Z.land tag low_bits).

Definition decompose_data (data : Z) : Z := Z.land data (unot usize low_bits).

Definition Owned_as_raw (o : Owned) : Z := decompose_data (owned_data o).
Definition Shared_as_raw (s : Shared) : Z := decompose_data (shared_data s).
Definition Owned_is_null (o : Owned) : bool := Owned_as_raw o =? 0.
Definition Shared_is_null (s : Shared) : bool := Shared_as_raw s =? 0.

(** [DerefMut] uses the address without removing the tag. *)
Definition Shared_deref_mut (s : Shared) : Z := shared_data s.

Definition Owned_from_raw (raw : Z) : res Owned :=
  match ensure_aligned raw with
  | Ok _ => Ok (MkOwned raw)
  | Block => Block
  | Fail f => Fail f
  end.

Definition Shared_from_raw (raw : Z) : res Shared :=
  match ensure_aligned raw with
  | Ok _ => Ok (MkShared raw)
  | Block => Block
  | Fail f => Fail f
  end.
End Tags.

(** ** Atomic cells

    The operations on the word of an [Atomic], as functions from its contents
    to the result and the new contents. *)

Definition Atomic_load (a : Atomic) : Shared := Shared_from_usize (atomic_data a).

Definition Atomic_store `{Pointer P} (a : Atomic) (new : P) : Atomic :=
  MkAtomic (into_usize new).

(** [compare_set]: [Ok] carries the expected pointer, [Err] the new one (not
    the one found in the cell). *)
Definition compare_set `{Pointer P} (a : Atomic) (curr : Shared) (new : P)
    : (Shared + Shared) * Atomic :=
  let new := into_usize new in
  let curr := into_usize curr in
  if atomic_data a =? curr then (inl (Shared_from_usize curr), MkAtomic new)
  else (inr (Shared_from_usize new), a).

(** [compare_set_weak] in an environment that may make it fail. *)
Definition compare_set_weak `{Pointer P} (e : env) (a : Atomic) (curr : Shared) (new : P)
    : (Shared + Shared) * Atomic :=
  if spurious e then (inr (Shared_from_usize (into_usize new)), a)
  else compare_set a curr new.

Definition Atomic_fetch_add (a : Atomic) (val : Z) : Shared * Atomic :=
  (Shared_from_usize (atomic_data a), MkAtomic (wrap usize (atomic_data a + val))).

Definition Atomic_into_owned (a : Atomic) : res Owned := Owned_from_usize (atomic_data a).

#[global] Arguments decompose_data : simpl never.
#[global] Arguments Shared_as_raw : simpl never.
#[global] Arguments Owned_as_raw : simpl never.
#[global] Arguments Shared_is_null : simpl never.
#[global] Arguments Owned_is_null : simpl never.

(** ** Facts about tags *)

Section TagFacts.
Context (al : Z) (Hal : alignment al).

Lemma low_bits_ones : exists k, 0 <= k < usize /\ al = 2 ^ k /\ low_bits al = Z.ones k.
Proof using Hal.
  destruct Hal as (k & Hk & ->). exists k. split_and!; [lia|lia|done|].
  unfold low_bits. rewrite trailing_zeros_pow2 by lia.
  by rewrite Z.shiftl_1_l, Z.ones_equiv.
Qed.

Lemma low_bits_width : in_width usize (low_bits al).
Proof using Hal.
  destruct low_bits_ones as (k & Hk & _ & ->). unfold in_width.
  rewrite Z.ones_equiv.
  pose proof (Z.pow_pos_nonneg 2 k). pose proof (Z.pow_lt_mono_r 2 k usize). lia.
Qed.

Lemma decompose_ldiff d : in_width usize d -> decompose_data al d = Z.ldiff d (low_bits al).
Proof using Hal.
  intros. apply land_unot_ldiff; [unfold usize; lia|done|apply low_bits_width].
Qed.

Lemma land_low_bits d : Z.land d (low_bits al) = d mod al.
Proof using Hal. destruct low_bits_ones as (k & Hk & -> & ->). apply Z.land_ones. lia. Qed.

Lemma decompose_sub d :
  in_width usize d -> decompose_data al d = d - d mod al.
Proof using Hal.
  intros Hd. rewrite decompose_ldiff by done.
  rewrite <- land_low_bits.
  rewrite <- (Z.lor_ldiff_and d (low_bits al)) at 2.
  rewrite <- Z.add_nocarry_lor; [lia|].
  apply Z.bits_inj'. intros i Hi. rewrite !Z.land_spec, Z.ldiff_spec, Z.bits_0.
  by destruct (Z.testbit d i), (Z.testbit (low_bits al) i).
Qed.

(** An aligned pointer is its own address. *)
Lemma decompose_aligned d : in_width usize d -> d mod al = 0 -> decompose_data al d = d.
Proof using Hal. intros Hd Hm. rewrite decompose_sub by done. lia. Qed.

Lemma al_pos : 0 < al.
Proof using Hal. destruct Hal as (k & Hk & ->). apply Z.pow_pos_nonneg; lia. Qed.

Lemma decompose_width d : in_width usize d -> in_width usize (decompose_data al d).
Proof using Hal.
  intros Hd. rewrite decompose_sub by done. unfold in_width in *.
  pose proof al_pos. pose proof (Z.mod_pos_bound d al). pose proof (Z.mod_le d al). lia.
Qed.

Lemma decompose_mod d : in_width usize d -> decompose_data al d mod al = 0.
Proof using Hal.
  intros Hd. rewrite decompose_sub by done. pose proof al_pos.
  rewrite Zminus_mod_idemp_r, Z.sub_diag. apply Z.mod_0_l. lia.
Qed.

Lemma is_null_aligned d :
  in_width usize d -> d mod al = 0 -> Shared_is_null al (MkShared d) = (d =? 0).
Proof using Hal.
  intros. unfold Shared_is_null, Shared_as_raw. simpl. by rewrite decompose_aligned.
Qed.

Lemma ensure_aligned_spec d :
  ensure_aligned al d = if d mod al =? 0 then Ok () else Fail Panic.
Proof using Hal. unfold ensure_aligned. by rewrite land_low_bits. Qed.

Lemma data_with_tag_add d t :
  in_width usize d -> data_with_tag al d t = decompose_data al d + t mod al.
Proof using Hal.
  intros Hd. unfold data_with_tag. fold (decompose_data al d).
  rewrite decompose_ldiff, <- land_low_bits by done. symmetry.
  apply Z.add_nocarry_lor. apply Z.bits_inj'. intros i Hi.
  rewrite !Z.land_spec, Z.ldiff_spec, Z.bits_0.
  destruct (Z.testbit d i), (Z.testbit (low_bits al) i), (Z.testbit t i); done.
Qed.

Lemma data_with_tag_width d t : in_width usize d -> in_width usize (data_with_tag al d t).
Proof using Hal.
  intros Hd. rewrite data_with_tag_add by done. pose proof al_pos as Hpos.
  pose proof (decompose_width d Hd) as Hw. pose proof (decompose_mod d Hd) as Hm.
  pose proof (Z.mod_pos_bound t al Hpos).
  destruct low_bits_ones as (k & Hk & Hak & _).
  assert (Hdiv : (al | 2 ^ usize)).
  { exists (2 ^ (usize - k)). rewrite Hak, <- Z.pow_add_r by lia. f_equal. lia. }
  destruct Hdiv as [q Hq]. apply Z.mod_divide in Hm as [r Hr]; [|lia].
  unfold in_width in *. rewrite Hr in *. rewrite Hq in *.
  assert (Hlt : r < q) by (apply (Z.mul_lt_mono_pos_r al); lia).
  assert (Hle : (r + 1) * al <= q * al) by (apply Z.mul_le_mono_nonneg_r; lia). lia.
Qed.

Lemma tag_mod d t : in_width usize d -> data_with_tag al d t mod al = t mod al.
Proof using Hal.
  intros Hd. rewrite data_with_tag_add by done.
  rewrite <- Zplus_mod_idemp_l, decompose_mod by done. simpl. apply Zmod_mod.
Qed.

Lemma tag_decompose d t :
  in_width usize d -> decompose_data al (data_with_tag al d t) = decompose_data al d.
Proof using Hal.
  intros Hd. rewrite decompose_sub, tag_mod by auto using data_with_tag_width.
  rewrite data_with_tag_add by done. lia.
Qed.
End TagFacts.

(** ** Properties *)

(** C36. Tagging a pointer and decomposing the result gives back the untagged
    pointer and the tag truncated to the free bits; the result is again a
    [usize], and with an aligned pointer nothing of it is lost. *)
Theorem tag_roundtrip al d t :
  alignment al -> in_width usize d ->
  decompose_data al (data_with_tag al d t) = decompose_data al d /\
  Z.land (data_with_tag al d t) (low_bits al) = Z.land t (low_bits al) /\
  in_width usize (data_with_tag al d t) /\
  (ensure_aligned al d = Ok () -> decompose_data al (data_with_tag al d t) = d).
Proof.
  intros Hal Hd. pose proof (data_with_tag_width al Hal d t Hd) as Hw.
  rewrite tag_decompose, !land_low_bits, tag_mod, ensure_aligned_spec by done. split_and!; [done..|].
  destruct (Z.eqb_spec (d mod al) 0); [|done]. intros _. by apply decompose_aligned.
Qed.

Lemma tag_roundtrip_witness :
  ensure_aligned 8 64 = Ok () /\ decompose_data 8 (data_with_tag 8 64 5) = 64.
Proof.
  split; [reflexivity|]. apply (tag_roundtrip 8 64 5).
  - exists 3. unfold usize. lia.
  - unfold in_width, usize. lia.
  - reflexivity.
Defined.
