(* ===== verification/OwnBox.v ===== *)
(** * Boxes behind tagged pointers: the owning half of [queue/own_ref.rs]

    [Owned] owns a box in a heap: creating it allocates, dropping it frees, [Deref]
    and [DerefMut] access the box.  Accessing or freeing an address at which there is
    no box is undefined behaviour; so is accessing a misaligned address, at which
    there never is one.  [Atomic] takes boxes over from [Owned]. *)

From S2P Require Import Prelude Machine Arena OwnRef.

(** ** The allocator

    The global allocator, together with the alignment of what it allocates: a new
    address is not in use, is aligned and not null, and there is one as long as fewer
    than [room] boxes are allocated. *)
Class BoxAlloc : Type := {
  al : Z;
  al_ok : alignment al;
  malloc : gset Z -> option Z;
  room : nat;
  malloc_spec X a : malloc X = Some a -> (a ∉ X) /\ 0 < a < 2 ^ usize /\ a mod al = 0;
  malloc_room X : (size X < room)%nat -> exists a, malloc X = Some a;
}.

(** A pointer that the allocator may have returned. *)
Definition valid `{BoxAlloc} (a : Z) : Prop := 0 < a < 2 ^ usize /\ a mod al = 0.

(** A conversion that may fail its assertion. *)
Definition check {St A} (r : res A) : prog St A :=
  act (fun s => match r with
                | Ok a => Ok (a, s)
                | Block => Block
                | Fail f => Fail f
                end).

Section Boxes.
Context `{BA : BoxAlloc} {T : Type}.
Abbreviation H := (gmap Z T).

(** [Box::into_raw(Box::new(val))]. *)
Definition Box_new (val : T) : prog H Z :=
  act (fun h : H => match malloc (dom h) with
                    | Some a => Ok (a, <[a := val]> h)
                    | None => Fail Abort
                    end).

(** [Box::from_raw(raw)], dropped: the value that is dropped with it. *)
Definition Box_free (raw : Z) : prog H T :=
  act (fun h : H => match h !! raw with
                    | Some v => Ok (v, delete raw h)
                    | None => Fail UB
                    end).

Definition Box_read (raw : Z) : prog H T :=
  act (fun h : H => match h !! raw with Some v => Ok (v, h) | None => Fail UB end).

Definition Box_write (raw : Z) (v : T) : prog H () :=
  act (fun h : H => match h !! raw with Some _ => Ok ((), <[raw := v]> h) | None => Fail UB end).

(** ** [Owned] *)

Definition Owned_new (val : T) : prog H Owned :=
  let! raw := Box_new val in check (Owned_from_raw al raw).

(** [From<T>]. *)
Definition Owned_from (val : T) : prog H Owned := Owned_new val.

(** [Drop]. *)
Definition Owned_drop (o : Owned) : prog H T := Box_free (decompose_data al (owned_data o)).

(** [Deref], and [Borrow] and [AsRef] through it. *)
Definition Owned_deref (o : Owned) : prog H T := Box_read (Owned_as_raw al o).
Definition Owned_borrow (o : Owned) : prog H T := Owned_deref o.
Definition Owned_as_ref (o : Owned) : prog H T := Owned_deref o.

(** A write through [DerefMut], which takes the whole word for an address, and
    through [BorrowMut] and [AsMut]. *)
Definition Owned_deref_mut (o : Owned) (v : T) : prog H () := Box_write (owned_data o) v.
Definition Owned_borrow_mut (o : Owned) (v : T) : prog H () := Owned_deref_mut o v.
Definition Owned_as_mut (o : Owned) (v : T) : prog H () := Owned_deref_mut o v.

(** [Clone], with the [clone] of the pointee. *)
Definition Owned_clone (clone : T -> T) (o : Owned) : prog H Owned :=
  let! v := Owned_deref o in Owned_new (clone v).

(** ** [Shared] *)

Definition Shared_clone (s : Shared) : Shared := MkShared (shared_data s).
Definition Shared_deref (s : Shared) : prog H T := Box_read (Shared_as_raw al s).
Definition Shared_write (s : Shared) (v : T) : prog H () := Box_write (Shared_deref_mut s) v.

(** ** [Atomic] *)

(** [From<Shared>], [From<Owned>] (which forgets the pointer without dropping it) and
    [From<*const T>]. *)
Definition Atomic_of_shared (s : Shared) : res Atomic := Atomic_from_usize (shared_data s).
Definition Atomic_of_owned (o : Owned) : res Atomic := Atomic_from_usize (owned_data o).
Definition Atomic_of_raw (raw : Z) : res Atomic := Atomic_from_usize raw.

Definition Atomic_new (val : T) : prog H Atomic :=
  let! o := Owned_new val in check (Atomic_of_owned o).

(** ** [Debug]

    What is printed: the pointee, or null. *)
Definition Owned_fmt (o : Owned) : prog H (option T) :=
  if Owned_is_null al o then Ret None else let! v := Box_read (Owned_as_raw al o) in Ret (Some v).
Definition Shared_fmt (s : Shared) : prog H (option T) :=
  if Shared_is_null al s then Ret None else let! v := Box_read (Shared_as_raw al s) in Ret (Some v).
Definition Atomic_fmt (a : Atomic) : prog H (option T) :=
  Shared_fmt (Shared_from_usize (atomic_data a)).
End Boxes.

(** ** A concrete allocator: the arena *)

Lemma alignment_8 : alignment 8.
Proof. exists 3. unfold usize. lia. Qed.

#[export, refine] Instance arena_alloc : BoxAlloc :=
  {| al := 8; malloc := arena_malloc; room := 64 |}.
Proof.
  - apply alignment_8.
  - apply arena_malloc_spec.
  - apply arena_malloc_room.
Defined.

(** ** Rules *)

Section Rules.
Context `{BA : BoxAlloc} {T : Type}.
Implicit Types (h : gmap Z T) (a : Z) (v : T) (m : nat).

Lemma valid_width a : valid a -> in_width usize a.
Proof. intros [? _]. unfold in_width. lia. Qed.

Lemma valid_as_raw a : valid a -> Shared_as_raw al (MkShared a) = a.
Proof. intros Ha. apply decompose_aligned; [apply al_ok|by apply valid_width|apply Ha]. Qed.

Lemma valid_owned_as_raw a : valid a -> Owned_as_raw al (MkOwned a) = a.
Proof. apply valid_as_raw. Qed.

Lemma twp_Box_read {P : nat -> T -> gmap Z T -> Prop} m h a v :
  h !! a = Some v -> P m v h -> twp m (Box_read a) h P.
Proof. intros Hv HP. eapply twp_act'; [|exact HP]. simpl. by rewrite Hv. Qed.

Lemma twp_Owned_new {P : nat -> Owned -> gmap Z T -> Prop} m h v :
  (size (dom h) < room)%nat ->
  (forall a, valid a -> a ∉ dom h -> P m (MkOwned a) (<[a := v]> h)) ->
  twp m (Owned_new v) h P.
Proof.
  intros Hroom HP. destruct (malloc_room _ Hroom) as [a Ha].
  destruct (malloc_spec _ _ Ha) as (Hf & Hp & Hm).
  unfold Owned_new. wp_step. eapply twp_act'; [by rewrite Ha|]. simpl.
  eapply twp_act'; [|by apply HP]. simpl. unfold Owned_from_raw.
  by rewrite ensure_aligned_spec, Hm by apply al_ok.
Qed.

Lemma twp_Owned_drop {P : nat -> T -> gmap Z T -> Prop} m h a v :
  h !! a = Some v -> valid a -> P m v (delete a h) -> twp m (Owned_drop (MkOwned a)) h P.
Proof.
  intros Hv Ha HP. eapply twp_act'; [|exact HP]. simpl. by rewrite (valid_owned_as_raw a Ha : decompose_data al a = a), Hv.
Qed.

Lemma twp_Owned_deref {P : nat -> T -> gmap Z T -> Prop} m h a v :
  h !! a = Some v -> valid a -> P m v h -> twp m (Owned_deref (MkOwned a)) h P.
Proof. intros Hv Ha HP. unfold Owned_deref. rewrite valid_owned_as_raw by done. by eapply twp_Box_read. Qed.

Lemma twp_Owned_deref_mut {P : nat -> () -> gmap Z T -> Prop} m h a v w :
  h !! a = Some v -> P m () (<[a := w]> h) -> twp m (Owned_deref_mut (MkOwned a) w) h P.
Proof. intros Hv HP. eapply twp_act'; [|exact HP]. simpl. by rewrite Hv. Qed.
End Rules.

(** ** Boxes refine values

    A client of [Owned] has handles, numbered in the order in which it made them.
    Only handles that are live can be used; ownership in Rust rules the others out. *)

Inductive box_op (T : Type) : Type :=
| New (v : T)
| Write (i : nat) (v : T)
| Read (i : nat)
| Copy (i : nat)
| Format (i : nat)
| Free (i : nat).
Arguments New {T} v.
Arguments Write {T} i v.
Arguments Read {T} i.
Arguments Copy {T} i.
Arguments Format {T} i.
Arguments Free {T} i.

Section Clients.
Context `{BA : BoxAlloc} {T : Type} (clone : T -> T).
Implicit Types (h : gmap Z T) (os : gmap nat Owned) (xs : gmap nat T) (n : nat).

(** The handles: how many were made, and those that are live. *)
Definition box_step (o : box_op T) (s : nat * gmap nat Owned)
    : prog (gmap Z T) (option T * (nat * gmap nat Owned)) :=
  let '(n, os) := s in
  match o with
  | New v => let! b := Owned_new v in Ret (None, (S n, <[n := b]> os))
  | Write i v =>
      match os !! i with
      | Some b => Owned_deref_mut b v ;; Ret (None, s)
      | None => Ret (None, s)
      end
  | Read i =>
      match os !! i with
      | Some b => let! v := Owned_deref b in Ret (Some v, s)
      | None => Ret (None, s)
      end
  | Copy i =>
      match os !! i with
      | Some b => let! c := Owned_clone clone b in Ret (None, (S n, <[n := c]> os))
      | None => Ret (None, s)
      end
  | Format i =>
      match os !! i with
      | Some b => let! v := Owned_fmt b in Ret (v, s)
      | None => Ret (None, s)
      end
  | Free i =>
      match os !! i with
      | Some b => let! v := Owned_drop b in Ret (Some v, (n, delete i os))
      | None => Ret (None, s)
      end
  end.

(** The same on values. *)
Definition value_step (o : box_op T) (s : nat * gmap nat T) : option T * (nat * gmap nat T) :=
  let '(n, xs) := s in
  match o with
  | New v => (None, (S n, <[n := v]> xs))
  | Write i v => (None, match xs !! i with Some _ => (n, <[i := v]> xs) | None => s end)
  | Read i | Format i => (xs !! i, s)
  | Copy i => (None, match xs !! i with Some v => (S n, <[n := clone v]> xs) | None => s end)
  | Free i => (xs !! i, (n, delete i xs))
  end.

Fixpoint box_run (l : list (box_op T)) (s : nat * gmap nat Owned)
    : prog (gmap Z T) (list (option T) * (nat * gmap nat Owned)) :=
  match l with
  | [] => Ret ([], s)
  | o :: l =>
      let! r := box_step o s in
      let! rs := box_run l r.2 in
      Ret (r.1 :: rs.1, rs.2)
  end.

Fixpoint value_run (l : list (box_op T)) (s : nat * gmap nat T)
    : list (option T) * (nat * gmap nat T) :=
  match l with
  | [] => ([], s)
  | o :: l => let r := value_step o s in
              let rs := value_run l r.2 in (r.1 :: rs.1, rs.2)
  end.

(** [boxed h0 s x h]: the live handles [s] own distinct boxes of [h], which hold the
    values [x]; the rest of [h] is [h0]. *)
Record boxed (h0 : gmap Z T) (s : nat * gmap nat Owned) (x : nat * gmap nat T) (h : gmap Z T)
    : Prop := {
  bx_next : s.1 = x.1;
  bx_old i : is_Some (s.2 !! i) -> (i < s.1)%nat;
  bx_live i : s.2 !! i = None <-> x.2 !! i = None;
  bx_own i b v : s.2 !! i = Some b -> x.2 !! i = Some v ->
    exists a, b = MkOwned a /\ valid a /\ h0 !! a = None /\ h !! a = Some v;
  bx_distinct i j b : s.2 !! i = Some b -> s.2 !! j = Some b -> i = j;
  bx_frame : h0 ⊆ h;
  bx_size : size h = (size h0 + size x.2)%nat;
}.

Lemma boxed_live h0 s x h i b : boxed h0 s x h -> s.2 !! i = Some b ->
  exists a v, b = MkOwned a /\ x.2 !! i = Some v /\ valid a /\ h0 !! a = None /\ h !! a = Some v.
Proof.
  intros Hb Hi. destruct (x.2 !! i) as [v|] eqn:E.
  - destruct (bx_own _ _ _ _ Hb i b v Hi E) as (a & ? & ? & ? & ?). by exists a, v.
  - apply (bx_live _ _ _ _ Hb) in E. by rewrite E in Hi.
Qed.

Lemma boxed_dead h0 s x h i : boxed h0 s x h -> s.2 !! i = None -> x.2 !! i = None.
Proof. intros Hb. apply (bx_live _ _ _ _ Hb). Qed.

Lemma boxed_new h0 n os k xs h a v : boxed h0 (n, os) (k, xs) h -> valid a -> h !! a = None ->
  boxed h0 (S n, <[n := MkOwned a]> os) (S k, <[k := v]> xs) (<[a := v]> h).
Proof.
  intros [Hn Hold Hlive Hown Hdist Hfr Hsz] Ha Hf. simpl in *. subst k.
  assert (Hn : os !! n = None) by (apply eq_None_not_Some; intros H%Hold; lia).
  assert (Hx : xs !! n = None) by by apply Hlive.
  assert (Hf0 : h0 !! a = None) by by eapply lookup_weaken_None.
  assert (Hne : forall i b, os !! i = Some b -> b <> MkOwned a).
  { intros i b Hi ->. destruct (xs !! i) as [w|] eqn:E; [|by apply Hlive in E; rewrite E in Hi].
    destruct (Hown i _ w Hi E) as (a' & [= <-] & _ & _ & Hh). by rewrite Hf in Hh. }
  split; simpl; [done|..].
  - intros i. destruct (decide (i = n)) as [->|]; [lia|]. rewrite lookup_insert_ne by done.
    intros H%Hold. lia.
  - intros i. rewrite !lookup_insert_None, Hlive. done.
  - intros i b w. destruct (decide (i = n)) as [->|Hi].
    + rewrite !lookup_insert_eq. intros [= <-] [= <-]. exists a. by rewrite lookup_insert_eq.
    + rewrite !lookup_insert_ne by done. intros Hb Hw. destruct (Hown i b w Hb Hw) as (a' & -> & ? & ? & ?).
      exists a'. rewrite lookup_insert_ne; [done|]. intros ->. by eapply Hne.
  - intros i j b. rewrite !lookup_insert_Some. naive_solver.
  - by apply insert_subseteq_r.
  - rewrite !map_size_insert_None by done. lia.
Qed.

Lemma boxed_write h0 n os k xs h i a v : boxed h0 (n, os) (k, xs) h -> os !! i = Some (MkOwned a) ->
  boxed h0 (n, os) (k, <[i := v]> xs) (<[a := v]> h).
Proof.
  intros Hb Hi. destruct (boxed_live _ _ _ _ _ _ Hb Hi) as (a' & w & [= <-] & Hw & Ha & H0 & Hh).
  destruct Hb as [Hn Hold Hlive Hown Hdist Hfr Hsz]. simpl in *. split; simpl; [done|done|..].
  - intros j. rewrite lookup_insert_None, <- Hlive. split; [|by intros []]. intros E.
    split; [done|]. intros ->. by rewrite Hi in E.
  - intros j b u Hj. destruct (decide (i = j)) as [<-|Hne].
    + rewrite lookup_insert_eq. intros [= <-]. exists a. rewrite lookup_insert_eq. by simplify_eq.
    + rewrite lookup_insert_ne by done. intros Hu. destruct (Hown j b u Hj Hu) as (a' & -> & ? & ? & ?).
      exists a'. rewrite lookup_insert_ne; [done|]. intros ->. by eapply Hne, Hdist.
  - done.
  - by apply insert_subseteq_r.
  - rewrite (map_size_insert_Some a), (map_size_insert_Some i); [done|by eexists..].
Qed.

Lemma boxed_free h0 n os k xs h i a : boxed h0 (n, os) (k, xs) h -> os !! i = Some (MkOwned a) ->
  boxed h0 (n, delete i os) (k, delete i xs) (delete a h).
Proof.
  intros Hb Hi. destruct (boxed_live _ _ _ _ _ _ Hb Hi) as (a' & w & [= <-] & Hw & Ha & H0 & Hh).
  destruct Hb as [Hn Hold Hlive Hown Hdist Hfr Hsz]. simpl in *. split; simpl; [done|..].
  - intros j [b Hj]. apply lookup_delete_Some in Hj as [_ Hj]. by apply Hold; eexists.
  - intros j. by rewrite !lookup_delete_None, Hlive.
  - intros j b u Hj Hu. apply lookup_delete_Some in Hj as [Hne Hj], Hu as [_ Hu].
    destruct (Hown j b u Hj Hu) as (a' & -> & ? & ? & ?). exists a'.
    rewrite lookup_delete_ne; [done|]. intros ->. by eapply Hne, Hdist.
  - intros j1 j2 b. rewrite !lookup_delete_Some. naive_solver.
  - apply map_subseteq_spec. intros c u Hc. rewrite lookup_delete_Some. split; [|by eapply lookup_weaken].
    intros ->. by rewrite H0 in Hc.
  - rewrite (map_size_delete_Some a), (map_size_delete_Some i); [|by eexists..].
    assert (0 < size xs)%nat; [|lia]. apply Nat.neq_0_lt_0. intros E%map_size_empty_inv.
    by rewrite E in Hw.
Qed.

Lemma box_step_ok h0 o s x h : boxed h0 s x h -> (size h < room)%nat ->
  returns (box_step o s) h (fun r h' =>
    r.1 = (value_step o x).1 /\ boxed h0 r.2 (value_step o x).2 h' /\ (size h' <= S (size h))%nat).
Proof.
  destruct s as [n os], x as [k xs]. intros Hb Hr m.
  assert (Hd : (size (dom h) < room)%nat) by by rewrite size_dom.
  destruct o as [v|i v|i|i|i|i]; simpl.
  2-6: destruct (os !! i) as [b|] eqn:Hi;
    [destruct (boxed_live _ _ _ _ _ _ Hb Hi) as (a & w & -> & Hw & Ha & H0 & Hh); simpl in Hw; rewrite ?Hw
    |pose proof (boxed_dead _ _ _ _ _ Hb Hi) as Hx; simpl in Hx; rewrite ?Hx].
  - wp_step. apply twp_Owned_new; [done|]. intros a Ha Hf. apply not_elem_of_dom in Hf. wp.
    split_and!; [done|by apply boxed_new|]. rewrite map_size_insert_None by done. lia.
  - wp_step. eapply twp_Owned_deref_mut; [done|]. wp. split_and!; [done|by apply boxed_write|].
    rewrite map_size_insert_Some; [lia|by eexists].
  - wp. auto.
  - wp_step. eapply twp_Owned_deref; [done..|]. wp. auto.
  - wp. auto.
  - unfold Owned_clone. wp_step. wp_step. eapply twp_Owned_deref; [done..|].
    apply twp_Owned_new; [done|]. intros c Hc Hf. apply not_elem_of_dom in Hf. wp.
    split_and!; [done|by apply boxed_new|]. rewrite map_size_insert_None by done. lia.
  - wp. auto.
  - unfold Owned_fmt, Owned_is_null. rewrite valid_owned_as_raw by done.
    destruct (Z.eqb_spec a 0) as [->|_]; [destruct Ha; lia|]. wp_step. wp_step.
    eapply twp_Box_read; [done|]. wp. auto.
  - wp. auto.
  - wp_step. eapply twp_Owned_drop; [done..|]. wp. split_and!; [done|by apply boxed_free|].
    rewrite map_size_delete_Some; [lia|by eexists].
  - wp. rewrite delete_id by done. auto.
Qed.

Lemma box_run_ok h0 l : forall s x h, boxed h0 s x h -> (size h + length l <= room)%nat ->
  returns (box_run l s) h (fun r h' =>
    r.1 = (value_run l x).1 /\ boxed h0 r.2 (value_run l x).2 h').
Proof.
  induction l as [|o l IH]; intros s x h Hb Hr m; simpl in *; [by wp|]. wp_step.
  eapply twp_returns; [apply box_step_ok; [done|lia]|]. intros m1 r h1 (E & Hb1 & Hs1). wp_step.
  eapply twp_returns; [apply IH; [done|lia]|]. intros m2 rs h2 (E2 & Hb2). wp. by rewrite E, E2.
Qed.
End Clients.

(** C25. Any sequence of uses of [Owned] by a client that respects ownership returns, and
    gives the results of the same operations on plain values: each box is its own
    copy, its value is dropped once, other boxes stay as they are, exactly the boxes
    of the live handles are allocated, and once they are all dropped the heap is as
    it was. *)
Theorem owned_refines_values `{BoxAlloc} {T : Type} (clone : T -> T) (l : list (box_op T))
    (h : gmap Z T) :
  (size h + length l <= room)%nat ->
  returns (box_run clone l (0%nat, ∅)) h (fun r h' =>
    r.1 = (value_run clone l (0%nat, ∅)).1 /\ h ⊆ h' /\
    size h' = (size h + size (value_run clone l (0%nat, ∅)).2.2)%nat /\
    ((value_run clone l (0%nat, ∅)).2.2 = ∅ -> h' = h)).
Proof.
  intros Hr m. eapply twp_returns; [apply (box_run_ok clone h l _ (0%nat, ∅)); [|done]|].
  { split; simpl; try done; [by intros i [b Hb]]. }
  simpl. intros _ r h' [E [_ _ _ _ _ Hfr Hsz]]. split_and!; [done..|].
  intros E0. rewrite E0, map_size_empty in Hsz. symmetry. apply map_subseteq_size_eq; [done|lia].
Qed.

Lemma owned_refines_values_witness :
  returns (box_run (fun v : Z => v)
      [New 1; Copy 0; Write 0 5; Read 1; Format 0; Free 0; Free 1] (0%nat, ∅)) ∅ (fun r h' =>
    r.1 = [None; None; None; Some 1; Some 5; Some 5; Some 1] /\ h' = ∅).
Proof.
  intros m. eapply twp_mono.
  - eapply (owned_refines_values (fun v : Z => v)
      [New 1; Copy 0; Write 0 5; Read 1; Format 0; Free 0; Free 1] ∅). vm_compute. lia.
  - intros m' r h' _ (-> & _ & _ & He). split; [reflexivity|apply He; reflexivity].
Defined.

(** [Owned::null()] cannot be dropped: its [Drop] frees address 0. *)
Lemma drop_of_null_is_ub `{BoxAlloc} {T : Type} (h : gmap Z T) :
  (forall b, is_Some (h !! b) -> valid b) -> faults (Owned_drop Owned_null) h UB.
Proof.
  intros Hh m. eapply wrong_fail; [|done]. unfold Owned_null. simpl.
  rewrite decompose_sub by (apply al_ok || (unfold in_width, usize; lia)).
  rewrite Zmod_0_l. destruct (h !! _) as [v|] eqn:E; [|done].
  destruct (Hh 0) as [? _]; [by eexists|lia].
Qed.

(** C40. [Deref] ignores the tag of a pointer, [DerefMut] does not: a tagged pointer to a
    live box can be read, and writing through it is undefined behaviour. *)
Theorem deref_mut_of_tagged_is_ub `{BoxAlloc} {T : Type} (h : gmap Z T) (a tag : Z) (v w : T) :
  (forall b, is_Some (h !! b) -> valid b) -> h !! a = Some v -> 0 < tag < al ->
  returns (Owned_deref (MkOwned (data_with_tag al a tag))) h (fun r h' => r = v /\ h' = h) /\
  returns (Shared_deref (MkShared (data_with_tag al a tag))) h (fun r h' => r = v /\ h' = h) /\
  faults (Owned_deref_mut (MkOwned (data_with_tag al a tag)) w) h UB /\
  faults (Shared_write (MkShared (data_with_tag al a tag)) w) h UB.
Proof.
  intros Hh Ha Ht. assert (Hv : valid a) by by apply Hh; eexists.
  pose proof (valid_width a Hv) as Hw. pose proof al_ok as Hal.
  assert (Hd : decompose_data al (data_with_tag al a tag) = a).
  { rewrite tag_decompose by done. apply decompose_aligned; [done|done|apply Hv]. }
  assert (Hn : h !! data_with_tag al a tag = None).
  { apply eq_None_not_Some. intros [_ Hm]%Hh. rewrite tag_mod, Z.mod_small in Hm by done || lia. lia. }
  split_and!.
  1,2: intros m; unfold Owned_deref, Shared_deref, Owned_as_raw, Shared_as_raw; simpl; rewrite Hd;
    by eapply twp_Box_read.
  all: intros m; eapply wrong_fail; [simpl; by rewrite Hn|done].
Qed.

Lemma deref_mut_of_tagged_is_ub_witness :
  faults (Owned_deref_mut (MkOwned (data_with_tag 8 64 3)) 7) {[ 64 := 5 ]} UB.
Proof.
  destruct (deref_mut_of_tagged_is_ub (H := arena_alloc) {[ 64 := 5 ]} 64 3 5 7) as (_ & _ & Hf & _);
    [|reflexivity|vm_compute; done|exact Hf].
  intros b [v Hb]. apply lookup_singleton_Some in Hb as [<- _]. split; [unfold usize; lia|reflexivity].
Defined.
