(* ===== verification/ShiftGuard.v ===== *)
(** * The pointer guard: [queue/shift_guard.rs]

    A [PtrGuard] is a fixed-capacity buffer of raw memory used as a stack: [len]
    is the number of entries, [push] writes at index [len] and [pop] is meant to
    give the last entry back.  A slot of the buffer is [None] until it is
    written; reading such a slot, or any slot past the allocation, is undefined
    behaviour.  The operations work on a guard that is a component of a larger
    state, given by a lens. *)

From S2P Require Import Prelude Machine Timing Resources Parking RawMutex Refine OwnRef.

(** ** [num_threads] and its [Once]: [queue/mod.rs]

    [THREAD_COUNT] and [THREADS] together: [None] before the first call. *)
Definition num_threads (num_cpus : nat) (once : option nat) : nat * option nat :=
  match once with
  | None => (num_cpus, Some num_cpus)
  | Some n => (n, Some n)
  end.

Record PtrGuard (T : Type) : Type := MkPtrGuard {
  guard : list (option T);  (** the memory behind the [Atomic<T>] *)
  cap : nat;
  len : nat;
  lock : Z;                 (** the [Mootex<()>]: its state byte *)
}.
Arguments MkPtrGuard {T} guard cap len lock.
Arguments guard {T} p.
Arguments cap {T} p.
Arguments len {T} p.
Arguments lock {T} p.

(** [atomic_ptr]: an allocation of [cap] uninitialised slots.  The size of the buffer is one
    that [Layout::array] accepts, and there is memory for it. *)
Definition atomic_ptr (T : Type) (cap : nat) : list (option T) := replicate cap None.

Definition with_threads (T : Type) (threads : nat) : PtrGuard T :=
  MkPtrGuard (atomic_ptr T threads) threads 0 INIT.

(** [PtrGuard::new] takes its capacity from [num_threads]. *)
Definition new (T : Type) (num_cpus : nat) (once : option nat) : PtrGuard T * option nat :=
  let '(cap, once) := num_threads num_cpus once in
  (MkPtrGuard (atomic_ptr T cap) cap 0 INIT, once).

Definition pg_with (T : Type) (cap : nat) : PtrGuard T := with_threads T cap.
Definition pg (T : Type) (num_cpus : nat) (once : option nat) : PtrGuard T * option nat :=
  new T num_cpus once.

Section Operations.
Context {St T : Type} (L : lens St (PtrGuard T)).

Definition set_len (n : nat) (g : PtrGuard T) : PtrGuard T :=
  MkPtrGuard (guard g) (cap g) n (lock g).
Definition set_lock (b : Z) (g : PtrGuard T) : PtrGuard T :=
  MkPtrGuard (guard g) (cap g) (len g) b.

(** [self.len.load(..)]. *)
Definition load_len : prog St nat := load (fun s => len (lget L s)).

Definition is_empty : prog St bool := let! n := load_len in Ret (Nat.eqb n 0).

(** [self.len.compare_and_swap(cur, new)]; its result is not used. *)
Definition cas_len (cur new : nat) : prog St () :=
  store (fun s => if Nat.eqb (len (lget L s)) cur
                  then lput L (set_len new (lget L s)) s else s).

(** [ptr::write(guard.add(i), node)]. *)
Definition ptr_write (i : nat) (node : T) : prog St () :=
  act (fun s => let g := lget L s in
         if Nat.ltb i (length (guard g))
         then Ok ((), lput L (MkPtrGuard (<[i := Some node]> (guard g)) (cap g) (len g) (lock g)) s)
         else Fail UB).

(** [ptr::read(guard.add(i))]: the memory keeps its contents. *)
Definition ptr_read (i : nat) : prog St T :=
  act (fun s => match guard (lget L s) !! i with
                | Some (Some v) => Ok (v, s)
                | _ => Fail UB
                end).

(** [Err(node)] is [inr node]. *)
Definition push (node : T) : prog St (() + T) :=
  let! n := load_len in
  let! c := load (fun s => cap (lget L s)) in
  if Nat.eqb n c then Ret (inr node)
  else
    ptr_write n node ;;
    cas_len n (n + 1) ;;
    Ret (inl ()).

Definition pop : prog St (T + ()) :=
  let! n := load_len in
  if Nat.eqb n 0 then Ret (inr ())
  else
    cas_len n (n - 1) ;;
    let! v := ptr_read n in
    Ret (inl v).

(** [lock], [try_lock] and [unlock] of the guard's mutex, on its state byte.  A thread
    that finds it locked waits in [lock]; the parking of such threads, which [RawMutex]
    has, does not appear here.  [try_lock] sets the parked bit (see [raw_try_lock]). *)
Definition pg_lock : prog St () :=
  act (fun s => let b := lock (lget L s) in
                if Z.land b LOCKED_BIT =? 0 then Ok ((), lput L (set_lock (Z.lor b LOCKED_BIT) (lget L s)) s)
                else Block).
Definition pg_try_lock : prog St bool :=
  act (fun s => let b := lock (lget L s) in
                if Z.land b LOCKED_BIT =? 0 then Ok (true, lput L (set_lock (Z.lor b PARKED_BIT) (lget L s)) s)
                else Ok (false, s)).
Definition pg_unlock : prog St () :=
  store (fun s => lput L (set_lock INIT (lget L s)) s).

(** [fmt::Debug]: the entries are copied out with [ptr::read] into a [Vec],
    printed, and dropped with the [Vec]. *)
Definition fmt (fmt_T drop_T : T -> prog St ()) : prog St () :=
  let! n := load_len in
  let! v := loop (fun '(x, v) =>
              if Nat.ltb x n then let! a := ptr_read x in Ret (inl (x + 1, v ++ [a])%nat)
              else Ret (inr v)) (0%nat, []) in
  iter_list fmt_T v ;;
  iter_list drop_T v.
End Operations.

(** ** The guard as a buffer

    [holds g l]: the entries of [g] are [l], in the order of the pushes, and the
    slots above them were never written. *)
Definition holds {T} (g : PtrGuard T) (l : list T) : Prop :=
  length (guard g) = cap g /\ len g = length l /\ (length l <= cap g)%nat /\
  guard g = (Some <$> l) ++ replicate (cap g - length l) None.

Lemma with_threads_holds T n : holds (with_threads T n) [].
Proof.
  unfold holds, with_threads, atomic_ptr; simpl.
  rewrite length_replicate, Nat.sub_0_r. by split_and!; [|..|lia|].
Qed.

Section Facts.
Context {St T : Type} (L : lens St (PtrGuard T)) `{!LensLaws L}.

(** [push] below the capacity appends, and touches nothing else. *)
Lemma push_ok s l node :
  holds (lget L s) l -> (length l < cap (lget L s))%nat ->
  returns (push L node) s (fun r s' =>
    r = inl () /\ exists g, s' = lput L g s /\ holds g (l ++ [node]) /\
    cap g = cap (lget L s) /\ lock g = lock (lget L s)).
Proof.
  intros (Hlen & Hn & Hle & Hg) Hlt n. unfold push, load_len. wp. rewrite Hn.
  destruct (Nat.eqb_spec (length l) (cap (lget L s))) as [|_]; [lia|]. wp_step.
  eapply twp_act'.
  { simpl. rewrite Hlen. by rewrite (proj2 (Nat.ltb_lt _ _) Hlt). }
  unfold cas_len. wp.
  rewrite !lget_lput. simpl. rewrite Hn, Nat.eqb_refl, lput_lput.
  split; [done|]. eexists. split; [done|]. unfold holds, set_len; simpl.
  rewrite length_app, length_insert; simpl. split_and!; [lia|lia|lia| |done|done].
  rewrite Hg, insert_app_r_alt by (rewrite length_fmap; lia).
  rewrite length_fmap, Nat.sub_diag, fmap_app, <- app_assoc. f_equal.
  replace (cap (lget L s) - length l)%nat with (S (cap (lget L s) - (length l + 1))) by lia.
  done.
Qed.

(** At capacity [push] gives the node back and changes nothing. *)
Lemma push_full s node :
  len (lget L s) = cap (lget L s) ->
  returns (push L node) s (fun r s' => r = inr node /\ s' = s).
Proof.
  intros Hf n. unfold push, load_len. wp.
  rewrite Hf, Nat.eqb_refl. by apply twp_ret.
Qed.

Lemma pop_empty s : len (lget L s) = 0%nat -> returns (pop L) s (fun r s' => r = inr () /\ s' = s).
Proof.
  intros He n. unfold pop, load_len. wp. rewrite He. by apply twp_ret.
Qed.

(** [pop] reads one slot past the last entry: a slot that was never written,
    or the end of the allocation. *)
Lemma pop_ub s l : holds (lget L s) l -> l <> [] -> faults (pop L) s UB.
Proof.
  intros (Hlen & Hn & Hle & Hg) Hl n. unfold pop, load_len.
  wrong_step. rewrite Hn.
  destruct (Nat.eqb_spec (length l) 0) as [Hz|_]; [by destruct l|].
  unfold cas_len. wrong_step. rewrite Hn, Nat.eqb_refl.
  apply wrong_bind_l. eapply wrong_fail; [|done]. simpl. rewrite lget_lput. simpl. rewrite Hg.
  rewrite lookup_app_r, length_fmap, Nat.sub_diag by (rewrite length_fmap; lia).
  by destruct (cap (lget L s) - length l)%nat.
Qed.
End Facts.

(** ** Properties *)

(** All the pushes of a list, with their results. *)
Fixpoint push_all {T} (l : list T) : prog (PtrGuard T) (list (() + T)) :=
  match l with
  | [] => Ret []
  | x :: l => let! r := push lens_id x in let! rs := push_all l in Ret (r :: rs)
  end.

(** The result of pushing [x] onto a guard that already holds [k] entries. *)
Definition push_result {T} (c : nat) (k : nat) (x : T) : () + T :=
  if Nat.ltb k c then inl () else inr x.

Lemma push_all_from {T} (l : list T) : forall (g : PtrGuard T) (l0 : list T),
  holds g l0 ->
  returns (push_all l) g (fun rs g' =>
    rs = imap (fun i x => push_result (cap g) (length l0 + i) x) l /\
    holds g' (l0 ++ take (cap g - length l0) l) /\ cap g' = cap g).
Proof.
  induction l as [|x l IH]; intros g l0 Hg n; simpl.
  - wp. rewrite take_nil, app_nil_r. done.
  - pose proof Hg as (_ & Hlen & Hle & _). wp_step.
    destruct (decide (length l0 < cap g)%nat) as [Hlt|Hge].
    + eapply twp_returns; [by apply (push_ok lens_id _ _ x Hg)|]. simpl.
      intros m _ g1 (-> & ? & -> & Hg1 & Hc & _). wp_step.
      eapply twp_returns; [by apply IH|]. simpl. rewrite Hc, length_app. simpl.
      intros m' _ g2 (-> & Hg2 & Hc2). wp. split_and!; [|..].
      * f_equal; [unfold push_result; by rewrite Nat.add_0_r, (proj2 (Nat.ltb_lt _ _) Hlt)|].
        apply imap_ext. intros i y _. simpl. f_equal. lia.
      * rewrite <- app_assoc in Hg2. simpl in Hg2.
        replace (cap g - length l0)%nat with (S (cap g - (length l0 + 1))) by lia. done.
      * done.
    + eapply twp_returns; [apply (push_full lens_id); simpl; lia|]. simpl.
      intros m _ g1 [-> ->]. wp_step.
      eapply twp_returns; [by apply IH|]. simpl.
      intros m' _ g2 (-> & Hg2 & Hc2). wp. split_and!; [|..].
      * f_equal; [unfold push_result; by rewrite Nat.add_0_r, (proj2 (Nat.ltb_ge _ _)) by lia|].
        apply imap_ext. intros i y _. unfold push_result.
        unfold compose. by do 2 (case (Nat.ltb_spec0 _ _); [lia|intros _]).
      * replace (cap g - length l0)%nat with 0%nat in * by lia. by rewrite take_0 in *.
      * done.
Qed.

(** C33. Pushing a list onto a new guard stores its first [c] elements and gives each
    of the others back; whatever was stored, the next [pop] is undefined
    behaviour, and only a guard without entries reports that it is empty. *)
Theorem guard_push_then_pop {T} (c : nat) (l : list T) :
  returns (push_all l) (with_threads T c) (fun rs g =>
    rs = imap (push_result c) l /\ holds g (take c l)) /\
  (0 < c -> l <> [] ->
     faults (push_all l ;; pop lens_id) (with_threads T c) UB)%nat /\
  returns (pop lens_id) (with_threads T c) (fun r g => r = inr () /\ g = with_threads T c).
Proof.
  pose proof (push_all_from l _ _ (with_threads_holds T c)) as Hpush. simpl in Hpush.
  rewrite Nat.sub_0_r in Hpush. split_and!.
  - intros n. eapply twp_returns; [apply Hpush|]. simpl. by intros m rs g (-> & ? & _).
  - intros Hc Hl. eapply faults_bind_r; [apply Hpush|]. simpl.
    intros rs g (_ & Hg & _). apply (pop_ub lens_id _ _ Hg). destruct c; [lia|]. by destruct l.
  - by apply (pop_empty lens_id).
Qed.

(** *** Pushes at the same time *)

(** [n] threads one after the other up to their write, then all of them to the end. *)
Definition race_write (t n : nat) : list (nat * env) := concat ((fun u => steps u 3) <$> seq t n).
Definition race_len (t n : nat) : list (nat * env) := (fun u => (u, calm)) <$> seq t n.
Definition guard_race (n : nat) : list (nat * env) := race_write 0 n ++ race_len 0 n.

Section Race.
Context {T : Type}.
Implicit Types (g : PtrGuard T) (vs : list T).

Definition write_at (k : nat) (v : T) g : PtrGuard T :=
  MkPtrGuard (<[k := Some v]> (guard g)) (cap g) (len g) (lock g).
Definition written (k : nat) : prog (PtrGuard T) (() + T) := cas_len lens_id k (k + 1) ;; Ret (inl ()).

Lemma sched_at {St A} (pre ts : list (prog St A)) p p' s s' e evs :
  step e p s = Some (Ok (p', s')) ->
  sched ((length pre, e) :: evs) (pre ++ p :: ts) s = sched evs (pre ++ p' :: ts) s'.
Proof.
  intros Hp. simpl. unfold pool_step. simpl. rewrite list_lookup_middle, Hp by done.
  by rewrite insert_app_r_alt, Nat.sub_diag by done.
Qed.

(** One push up to its write. *)
Lemma race_thread (pre ts : list (prog (PtrGuard T) (() + T))) g k v evs :
  len g = k -> (k < cap g)%nat -> length (guard g) = cap g ->
  sched (steps (length pre) 3 ++ evs) (pre ++ push lens_id v :: ts) g =
  sched evs (pre ++ written k :: ts) (write_at k v g).
Proof.
  intros Hk Hlt Hl. unfold steps. cbn [repeat app].
  erewrite sched_at by reflexivity. erewrite sched_at by reflexivity. apply sched_at. simpl.
  rewrite Hk, (proj2 (Nat.eqb_neq k (cap g))) by lia. simpl.
  by rewrite Hl, (proj2 (Nat.ltb_lt k (cap g))).
Qed.

(** All pushes up to their writes, which go to the same slot. *)
Lemma race_writes k vs : forall pre g evs,
  len g = k -> (k < cap g)%nat -> length (guard g) = cap g ->
  sched (race_write (length pre) (length vs) ++ evs) (pre ++ (push lens_id <$> vs)) g =
  sched evs (pre ++ replicate (length vs) (written k)) (foldl (fun g v => write_at k v g) g vs).
Proof.
  induction vs as [|v vs IH]; intros pre g evs Hk Hlt Hl; [done|].
  unfold race_write in *. cbn [length seq]. rewrite !fmap_cons. cbn [concat]. rewrite <- app_assoc.
  rewrite race_thread with (k := k) by done.
  specialize (IH (pre ++ [written k]) (write_at k v g) evs Hk Hlt).
  rewrite length_app, <- !app_assoc, Nat.add_1_r in IH. apply IH. simpl. by rewrite length_insert.
Qed.

(** All compare-exchanges on the length: only the first one finds it as it was. *)
Lemma race_lens k n : forall pre g,
  len g = k -> sched (race_len (length pre) (S n)) (pre ++ replicate (S n) (written k)) g =
  POk (pre ++ replicate (S n) (Ret (inl ()))) (set_len (k + 1) g).
Proof.
  assert (Hrest : forall n (pre : list (prog (PtrGuard T) (() + T))) g, len g <> k ->
    sched (race_len (length pre) n) (pre ++ replicate n (written k)) g = POk (pre ++ replicate n (Ret (inl ()))) g).
  { clear n. induction n as [|n IH]; intros pre g Hk; [done|]. unfold race_len in *. cbn [seq replicate]. rewrite fmap_cons.
    erewrite sched_at by reflexivity. simpl. rewrite (proj2 (Nat.eqb_neq _ _) Hk).
    specialize (IH (pre ++ [Ret (inl ())]) g Hk). by rewrite length_app, <- !app_assoc, Nat.add_1_r in IH. }
  intros pre g Hk. unfold race_len in *. cbn [seq replicate]. rewrite fmap_cons. erewrite sched_at by reflexivity. simpl.
  rewrite Hk, Nat.eqb_refl. specialize (Hrest n (pre ++ [Ret (inl ())]) (set_len (k + 1) g)).
  rewrite length_app, <- !app_assoc in Hrest. cbn [length] in Hrest.
  rewrite (Nat.add_1_r (length pre)) in Hrest. apply Hrest. simpl. lia.
Qed.

Lemma write_at_again k v w g : write_at k w (write_at k v g) = write_at k w g.
Proof. unfold write_at. simpl. by rewrite list_insert_insert_eq. Qed.

Lemma foldl_write k vs v : forall g, foldl (fun g v => write_at k v g) g (vs ++ [v]) = write_at k v g.
Proof. induction vs as [|w vs IH]; intros g; [done|]. simpl. by rewrite IH, write_at_again. Qed.

Lemma write_holds g l v : holds g l -> (length l < cap g)%nat ->
  holds (set_len (length l + 1) (write_at (length l) v g)) (l ++ [v]).
Proof.
  intros (Hlen & Hn & Hle & Hg) Hlt. unfold holds. simpl. rewrite length_insert, length_app.
  split_and!; [done|done|simpl; lia|]. rewrite Hg, insert_app_r_alt by (rewrite length_fmap; lia).
  rewrite length_fmap, Nat.sub_diag, fmap_app, <- app_assoc. f_equal. simpl.
  by replace (cap g - length l)%nat with (S (cap g - (length l + 1))) by lia.
Qed.
End Race.
(** C34. Concurrent pushes lose entries: for any guard with room, any number of threads that
    push at the same time may all read the same length and write the same slot; all of
    them report success, and of their entries only the one written last is in the guard. *)
Theorem concurrent_guard_push_loses_entry {T} (g : PtrGuard T) (l vs : list T) (v : T) :
  holds g l -> (length l < cap g)%nat ->
  exists g', sched (guard_race (length (vs ++ [v]))) (push lens_id <$> vs ++ [v]) g =
      POk (replicate (length (vs ++ [v])) (Ret (inl ()))) g' /\
    holds g' (l ++ [v]).
Proof.
  intros Hg Hlt. pose proof Hg as (Hl & Hn & _). eexists. split; [|by apply write_holds].
  unfold guard_race. rewrite (race_writes (length l) (vs ++ [v]) []) by done.
  rewrite foldl_write, length_app. change (length [v]) with 1%nat. rewrite (Nat.add_1_r (length vs)).
  by apply (race_lens (length l) (length vs) []).
Qed.

(** Two threads, and a guard with one entry. *)
Lemma concurrent_guard_push_loses_entry_witness :
  holds (MkPtrGuard [Some 7; None; None] 3 1 INIT) [7] /\
  exists g', sched (guard_race 2) [push lens_id 8; push lens_id 9] (MkPtrGuard [Some 7; None; None] 3 1 INIT) =
      POk [Ret (inl ()); Ret (inl ())] g' /\ holds g' [7; 9].
Proof.
  assert (Hg : holds (MkPtrGuard [Some 7; None; None] 3 1 INIT) [7]) by (split_and!; simpl; done || lia).
  split; [exact Hg|].
  apply (concurrent_guard_push_loses_entry _ [7] [8] 9 Hg). simpl. lia.
Defined.
