(* ===== verification/RawQueue.v ===== *)
(** * The linked queue: [queue/mod.rs]

    A [RawQueue] is a singly linked list with a sentinel: [head] points to the
    sentinel, the elements are in the nodes after it, [tail] points to the last
    node.  Nodes live in a heap; a pointer is a [usize] handled through the
    wrappers of [OwnRef].  Accessing an address that is not an allocated node,
    freeing it, or reading data that was never written is undefined behaviour. *)

From S2P Require Import Prelude Machine Arena OwnRef OwnBox ShiftGuard.

(** [struct Node]: [data] is [None] while uninitialised. *)
Record Node (T : Type) : Type := MkNode { data : option T; next : Atomic }.
Arguments MkNode {T} data next.
Arguments data {T} n.
Arguments next {T} n.

Definition Node_new {T} (val : T) : Node T := MkNode (Some val) Atomic_null.
Definition uninit_node {T} : Node T := MkNode None Atomic_null.

(** [MaybeUninit::uninit().assume_init()] is undefined behaviour at once, by the documentation
    of [MaybeUninit], for a type of which uninitialised memory is not a value; the
    comment in [RawQueue::new] says so.  If a compiler leaves the memory as it is, the data
    is uninitialised and using it is undefined behaviour.  The rule is a parameter;
    the theorems say what holds under each. *)
Class UninitRule : Type := assume_init_is_ub : bool.
Definition documented_rule : UninitRule := true.
Definition lax_rule : UninitRule := false.

(** [struct RawQueue], with the heap its pointers point into. *)
Record RawQueue (T : Type) : Type := MkRawQueue {
  head : Atomic;
  tail : Atomic;
  push_guard : PtrGuard Owned;
  pop_guard : PtrGuard Owned;
  heap : gmap Z (Node T);
}.
Arguments MkRawQueue {T} head tail push_guard pop_guard heap.
Arguments head {T} r.
Arguments tail {T} r.
Arguments push_guard {T} r.
Arguments pop_guard {T} r.
Arguments heap {T} r.

Section Setters.
Context {T : Type}.
Implicit Types q : RawQueue T.
Definition set_head (a : Atomic) (q : RawQueue T) : RawQueue T :=
  MkRawQueue a (tail q) (push_guard q) (pop_guard q) (heap q).
Definition set_tail (a : Atomic) (q : RawQueue T) : RawQueue T :=
  MkRawQueue (head q) a (push_guard q) (pop_guard q) (heap q).
Definition set_heap (h : gmap Z (Node T)) (q : RawQueue T) : RawQueue T :=
  MkRawQueue (head q) (tail q) (push_guard q) (pop_guard q) h.
Definition push_guard_lens : lens (RawQueue T) (PtrGuard Owned) :=
  Lens push_guard (fun g q => MkRawQueue (head q) (tail q) g (pop_guard q) (heap q)).
Definition pop_guard_lens : lens (RawQueue T) (PtrGuard Owned) :=
  Lens pop_guard (fun g q => MkRawQueue (head q) (tail q) (push_guard q) g (heap q)).
Definition heap_lens : lens (RawQueue T) (gmap Z (Node T)) := Lens heap set_heap.
#[export] Instance heap_laws : LensLaws heap_lens.
Proof. split; [done|by intros []|done]. Qed.
#[export] Instance push_guard_laws : LensLaws push_guard_lens.
Proof. split; [done|by intros []|done]. Qed.
#[export] Instance pop_guard_laws : LensLaws pop_guard_lens.
Proof. split; [done|by intros []|done]. Qed.
End Setters.

Section Code.
Context `{A : BoxAlloc} `{UR : UninitRule} {T : Type}.
Abbreviation Q := (RawQueue T).

(** *** Memory *)

(** The boxes of the nodes.  Freeing one leaves the node's data, a [ManuallyDrop],
    as it is. *)
Definition new_node (n : Node T) : prog Q Owned := lift heap_lens (Owned_new n).
Definition drop_owned (o : Owned) : prog Q () := let! _ := lift heap_lens (Owned_drop o) in Ret ().

(** [Shared::into_owned], which may fail its [debug_assert!]. *)
Definition to_owned (p : Shared) : prog Q Owned := check (into_owned p).

(** An atomic access to the [next] field of the node [p] points to. *)
Definition node_next_act {X} (p : Shared) (f : Atomic -> X * Atomic) : prog Q X :=
  act (fun q => let a := Shared_as_raw al p in
                match heap q !! a with
                | Some n => let '(x, nx) := f (next n) in
                            Ok (x, set_heap (<[a := MkNode (data n) nx]> (heap q)) q)
                | None => Fail UB
                end).

(** [p.next()]. *)
Definition node_next (p : Shared) : prog Q Shared :=
  node_next_act p (fun a => (Atomic_load a, a)).

Definition node_next_cas (p curr new : Shared) : prog Q (Shared + Shared) :=
  node_next_act p (fun a => compare_set a curr new).

(** [ptr::read] of the data of the node [p] points to. *)
Definition node_data (p : Shared) : prog Q T :=
  act (fun q => match heap q !! Shared_as_raw al p with
                | Some (MkNode (Some v) _) => Ok (v, q)
                | _ => Fail UB
                end).

Definition load_head : prog Q Shared := load (fun q => Atomic_load (head q)).
Definition load_tail : prog Q Shared := load (fun q => Atomic_load (tail q)).
Definition cas_head (curr new : Shared) : prog Q (Shared + Shared) :=
  act (fun q => let '(r, a) := compare_set (head q) curr new in Ok (r, set_head a q)).
Definition cas_tail (curr new : Shared) : prog Q (Shared + Shared) :=
  act (fun q => let '(r, a) := compare_set (tail q) curr new in Ok (r, set_tail a q)).

(** *** Debug output *)

(** [Debug for Node] prints [data] and, through [next], all nodes after it. *)
Definition fmt_node : Shared -> prog Q () :=
  loop (fun p =>
    let! n := node_next p in
    let! nx := (if Shared_is_null al n then Ret n else node_next p) in
    let! _ := node_data p in
    Ret (if Shared_is_null al n then inr () else inl nx)).

Definition fmt_owned (o : Owned) : prog Q () :=
  if Owned_is_null al o then Ret () else fmt_node (into_shared o).

Definition fmt_queue : prog Q () :=
  ShiftGuard.fmt push_guard_lens fmt_owned drop_owned ;;
  ShiftGuard.fmt pop_guard_lens fmt_owned drop_owned ;;
  let! h := load_head in
  fmt_node h ;;
  let! t := load_tail in
  fmt_node t.

(** *** Operations *)

Definition Node_default : prog Q (Node T) := if assume_init_is_ub then fail UB else Ret uninit_node.

(** [RawQueue::new] and [with_threads]: a queue with null pointers and the two
    guards is made, then the sentinel is allocated and stored in [head] and
    [tail]. *)
Definition blank_queue (g1 g2 : PtrGuard Owned) : Q :=
  MkRawQueue Atomic_null Atomic_null g1 g2 ∅.

Definition init_queue : prog Q () :=
  let! node := Node_default in
  let! empty := new_node node in
  let e_ptr := into_shared empty in
  store (fun q => set_head (Atomic_store (head q) e_ptr) q) ;;
  store (fun q => set_tail (Atomic_store (tail q) e_ptr) q).

Definition RawQueue_with_threads (threads : nat) : Q :=
  blank_queue (pg_with Owned threads) (pg_with Owned threads).

Definition RawQueue_new (num_cpus : nat) (once : option nat) : Q * option nat :=
  let '(g1, once) := pg Owned num_cpus once in
  let '(g2, once) := pg Owned num_cpus once in
  (blank_queue g1 g2, once).

Definition RawQueue_default (num_cpus : nat) (once : option nat) : Q * option nat :=
  RawQueue_new num_cpus once.

Definition RawQueue_is_empty : prog Q bool :=
  let! h := load_head in
  let! n := node_next h in
  Ret (Shared_is_null al n).

(** [if guard.push(node.into_owned()).is_err() { panic!("..", self) }]: the
    node given back by a failed push is dropped with the condition. *)
Definition push_guard_or_panic (new_node : Shared) : prog Q () :=
  let! o := to_owned new_node in
  let! r := ShiftGuard.push push_guard_lens o in
  match r with
  | inl _ => Ret ()
  | inr o => drop_owned o ;; fmt_queue ;; fail Panic
  end.

Definition _push (new_node : Shared) : prog Q bool :=
  let! tail := load_tail in
  let! next := node_next tail in
  if negb (Shared_is_null al next) then
    let! r := cas_tail tail new_node in
    match r with
    | inl _ => Ret true
    | inr _ => push_guard_or_panic new_node ;; Ret false
    end
  else
    let! e := ShiftGuard.is_empty push_guard_lens in
    let! c := (if e then let! n := node_next tail in Ret (Shared_is_null al n)
               else Ret false) in
    if (c : bool) then
      let! r := node_next_cas tail Shared_null new_node in
      match r with
      | inl _ =>
          let! res := cas_tail tail new_node in
          assert_ (is_ok res) ;;
          Ret true
      | inr _ => push_guard_or_panic new_node ;; Ret false
      end
    else
      pg_lock push_guard_lens ;;
      fmt_queue ;;
      let! p := ShiftGuard.pop push_guard_lens in
      match p with
      | inl n =>
          let shared := into_shared n in
          let! nx := node_next tail in
          if Shared_is_null al nx then
            let! cur := node_next tail in
            let! r := node_next_cas tail cur shared in
            match r with
            | inl _ =>
                let! res := cas_tail tail shared in
                assert_ (is_ok res) ;;
                pg_unlock push_guard_lens ;;
                Ret false
            | inr _ => fmt_queue ;; pg_unlock push_guard_lens ;; Ret false
            end
          else pg_unlock push_guard_lens ;; Ret false
      | inr _ => pg_unlock push_guard_lens ;; Ret false
      end.

Definition RawQueue_push (val : T) : prog Q () :=
  let! node := new_node (Node_new val) in
  let new := into_shared node in
  while_ (let! b := _push new in Ret (negb b)) (Ret ()).

(** The closure of [_pop] that puts the old head into [pop_guard]. *)
Definition retire (old_head : Shared) : prog Q () :=
  let! o := to_owned old_head in
  let! r := ShiftGuard.push pop_guard_lens o in
  match r with
  | inl _ => Ret ()
  | inr o =>
      drop_owned o ;;
      pg_lock pop_guard_lens ;;
      forever (let! p := ShiftGuard.pop pop_guard_lens in
               match p with
               | inl popped => drop_owned popped ;; Ret None
               | inr _ => Ret (Some ())
               end) ;;
      let! o := to_owned old_head in
      let! r := ShiftGuard.push pop_guard_lens o in
      match r with
      | inl _ => pg_unlock pop_guard_lens
      | inr o => drop_owned o ;; fail Panic
      end
  end.

(** [Err(())] is [inr ()]. *)
Definition _pop : prog Q (option T + ()) :=
  let! head := load_head in
  let! next := node_next head in
  if negb (Shared_is_null al next) then
    let! r := cas_head head next in
    match r with
    | inl old_head =>
        retire old_head ;;
        let! v := node_data next in
        Ret (inl (Some v))
    | inr _ => fmt_queue ;; Ret (inr ())
    end
  else Ret (inl None).

Definition RawQueue_try_pop : prog Q (option T) :=
  forever (let! r := _pop in
           match r with inl t => Ret (Some t) | inr _ => Ret None end).

(** [Drop for RawQueue]; the values popped are returned in order. *)
Definition RawQueue_drop : prog Q (list T) :=
  let! vs := loop (fun vs => let! r := RawQueue_try_pop in
               Ret (match r with Some v => inl (vs ++ [v]) | None => inr vs end)) [] in
  let! h := load_head in
  let! o := to_owned h in
  drop_owned o ;;
  Ret vs.

(** *** [ShiftQueue]: the public interface

    A [ShiftQueue] is a struct around a [RawQueue], its field [raw]. *)

Definition ShiftQueue_new (num_cpus : nat) (once : option nat) : Q * option nat :=
  RawQueue_new num_cpus once.
Definition ShiftQueue_default (num_cpus : nat) (once : option nat) : Q * option nat :=
  ShiftQueue_new num_cpus once.
Definition ShiftQueue_with_threads (threads : nat) : Q := RawQueue_with_threads threads.
Definition ShiftQueue_is_empty : prog Q bool := RawQueue_is_empty.
Definition ShiftQueue_push (val : T) : prog Q () := RawQueue_push val.
Definition ShiftQueue_try_pop : prog Q (option T) := RawQueue_try_pop.

(** [ShiftQueue::pop] spins until there is an element. *)
Definition ShiftQueue_pop : prog Q T := forever RawQueue_try_pop.
End Code.
