(* ===== verification/RawQueueSpec.v ===== *)
(** * What the linked queue does when one thread uses it

    The abstract queue is a list of values.  [queue_is q xs gs] relates it to
    the memory of a [RawQueue]: the chain of nodes from [head] holds [xs], and
    [gs] are the retired sentinels in [pop_guard]. *)

From S2P Require Import Prelude Machine OwnRef OwnBox ShiftGuard RawQueue.

Section Rep.
Context `{A : BoxAlloc} `{UR : UninitRule} {T : Type}.
Implicit Types (q : RawQueue T) (a : Z) (l : list (Z * T)) (gs : list Z) (m : nat).

(** [chain h a l]: following [next] from [a] visits the nodes [l.*1], whose
    data are [l.*2], and ends there. *)
Fixpoint chain (h : gmap Z (Node T)) a l : Prop :=
  match l with
  | [] => exists d, h !! a = Some (MkNode d Atomic_null)
  | (b, x) :: l =>
      (exists d, h !! a = Some (MkNode d (MkAtomic b))) /\
      (exists n, h !! b = Some (MkNode (Some x) n)) /\ chain h b l
  end.

(** The last node of the chain. *)
Definition chain_end a l : Z := default a (last l.*1).

Record rep q a l gs : Prop := {
  rep_head : head q = MkAtomic a;
  rep_tail : tail q = MkAtomic (chain_end a l);
  rep_chain : chain (heap q) a l;
  rep_valid : Forall valid (a :: l.*1 ++ gs);
  rep_nodup : NoDup (a :: l.*1 ++ gs);
  rep_dom : dom (heap q) = list_to_set (a :: l.*1 ++ gs);
  rep_push : holds (push_guard q) [];
  rep_pop : holds (pop_guard q) (MkOwned <$> gs);
  rep_locks : lock (push_guard q) = 0 /\ lock (pop_guard q) = 0;
}.

Definition queue_is q (xs : list T) gs : Prop := exists a l, rep q a l gs /\ l.*2 = xs.

(** *** Pointers *)

Lemma valid_not_null a : valid a -> Shared_is_null al (Atomic_load (MkAtomic a)) = false.
Proof.
  intros H. unfold Shared_is_null. change (Atomic_load (MkAtomic a)) with (MkShared a).
  rewrite valid_as_raw by done.
  destruct H. by apply Z.eqb_neq; lia.
Qed.

Lemma null_is_null : Shared_is_null al (Atomic_load Atomic_null) = true.
Proof. unfold Shared_is_null, Shared_as_raw. by rewrite Z.eqb_eq. Qed.

(** *** Rules for the accesses to nodes *)

Lemma twp_next_act {X} m q a n (f : Atomic -> X * Atomic) (Q : nat -> X -> RawQueue T -> Prop) :
  heap q !! a = Some n -> valid a ->
  Q m (f (next n)).1 (set_heap (<[a := MkNode (data n) (f (next n)).2]> (heap q)) q) ->
  twp m (node_next_act (MkShared a) f) q Q.
Proof.
  intros Hn Ha HQ. eapply twp_act'; [|exact HQ]. simpl.
  rewrite valid_as_raw, Hn by done. by destruct (f (next n)).
Qed.

Lemma set_heap_id q : set_heap (heap q) q = q.
Proof. by destruct q. Qed.

Lemma twp_next m q a n (Q : nat -> Shared -> RawQueue T -> Prop) :
  heap q !! a = Some n -> valid a -> Q m (Atomic_load (next n)) q ->
  twp m (node_next (MkShared a)) q Q.
Proof.
  intros Hn Ha HQ. eapply twp_next_act; [done..|]. simpl.
  rewrite insert_id by (rewrite Hn; by destruct n). by rewrite set_heap_id.
Qed.

Lemma twp_data m q a v n (Q : nat -> T -> RawQueue T -> Prop) :
  heap q !! a = Some (MkNode (Some v) n) -> valid a -> Q m v q ->
  twp m (node_data (MkShared a)) q Q.
Proof.
  intros Hn Ha HQ. eapply twp_act'; [|exact HQ]. simpl. by rewrite valid_as_raw, Hn.
Qed.

Lemma twp_to_owned m q a (Q : nat -> Owned -> RawQueue T -> Prop) :
  valid a -> Q m (MkOwned a) q -> twp m (to_owned (MkShared a)) q Q.
Proof.
  intros [Ha _] HQ. eapply twp_act'; [|exact HQ]. simpl.
  unfold into_owned, Owned_from_usize. simpl.
  destruct (Z.eqb_spec a 0); [lia|done].
Qed.

Lemma twp_drop_owned m q a n (Q : nat -> () -> RawQueue T -> Prop) :
  heap q !! a = Some n -> valid a -> Q m () (set_heap (delete a (heap q)) q) ->
  twp m (drop_owned (MkOwned a)) q Q.
Proof.
  intros Hn Ha HQ. unfold drop_owned. wp_step. eapply (twp_lift heap_lens); [by apply (twp_Owned_drop (P := fun m' _ h => m' = m /\ h = delete a (heap q))) with (1 := Hn)|].
  simpl. intros m' v h [-> ->]. by wp.
Qed.

Lemma twp_cas_tail m q a b (Q : nat -> Shared + Shared -> RawQueue T -> Prop) :
  tail q = MkAtomic a -> Q m (inl (MkShared a)) (set_tail (MkAtomic b) q) ->
  twp m (cas_tail (MkShared a) (MkShared b)) q Q.
Proof.
  intros Ht HQ. eapply twp_act'; [|exact HQ]. simpl. rewrite Ht.
  unfold compare_set. simpl. by rewrite Z.eqb_refl.
Qed.

Lemma twp_cas_head m q a b (Q : nat -> Shared + Shared -> RawQueue T -> Prop) :
  head q = MkAtomic a -> Q m (inl (MkShared a)) (set_head (MkAtomic b) q) ->
  twp m (cas_head (MkShared a) (MkShared b)) q Q.
Proof.
  intros Ht HQ. eapply twp_act'; [|exact HQ]. simpl. rewrite Ht.
  unfold compare_set. simpl. by rewrite Z.eqb_refl.
Qed.

(** *** Chains *)

Lemma chain_end_snoc a l b x : chain_end a (l ++ [(b, x)]) = b.
Proof. unfold chain_end. rewrite fmap_app. change ([(b, x)].*1) with [b]. by rewrite last_snoc. Qed.

Lemma chain_end_cons a b x l : chain_end a ((b, x) :: l) = chain_end b l.
Proof. unfold chain_end. rewrite fmap_cons, last_cons. by destruct (last l.*1). Qed.

Lemma chain_end_in a l : chain_end a l ∈ a :: l.*1.
Proof.
  revert a. induction l as [|[b x] l IH]; intros a; [set_solver|].
  rewrite chain_end_cons. specialize (IH b). set_solver.
Qed.

Lemma chain_end_node h a l : chain h a l -> exists d, h !! chain_end a l = Some (MkNode d Atomic_null).
Proof.
  revert a. induction l as [|[b x] l IH]; intros a; [done|].
  intros (_ & _ & Hc). rewrite chain_end_cons. auto.
Qed.

(** A chain does not see changes elsewhere in the heap. *)
Lemma chain_frame h h' a l :
  (forall b, b ∈ a :: l.*1 -> h' !! b = h !! b) -> chain h a l -> chain h' a l.
Proof.
  revert a. induction l as [|[b x] l IH]; intros a Hf; simpl.
  - intros [d Hd]. exists d. rewrite Hf; [done|set_solver].
  - intros ([d Hd] & [n Hn] & Hc). split_and!.
    + exists d. rewrite Hf; [done|set_solver].
    + exists n. rewrite Hf; [done|set_solver].
    + apply IH; [set_solver|done].
Qed.

Lemma chain_snoc h a l c v d :
  chain h a l -> NoDup (a :: l.*1) -> c ∉ a :: l.*1 ->
  h !! chain_end a l = Some (MkNode d Atomic_null) -> h !! c = Some (Node_new v) ->
  chain (<[chain_end a l := MkNode d (MkAtomic c)]> h) a (l ++ [(c, v)]).
Proof.
  revert a. induction l as [|[b x] l IH]; intros a; simpl.
  - unfold chain_end. simpl. intros _ _ Hc Hd Hn.
    assert (a <> c) by set_solver. split_and!.
    + exists d. by rewrite lookup_insert_eq.
    + exists Atomic_null. by rewrite lookup_insert_ne.
    + exists (Some v). by rewrite lookup_insert_ne.
  - rewrite chain_end_cons. intros ([d' Hd'] & [n' Hn'] & Hch) Hnd Hc Hd Hn.
    apply NoDup_cons in Hnd as [Ha Hnd].
    assert (a <> chain_end b l) by (pose proof (chain_end_in b l); set_solver).
    split_and!.
    + exists d'. by rewrite lookup_insert_ne.
    + destruct (decide (b = chain_end b l)) as [Heq|Hne].
      * rewrite <- Heq in Hd |- *. rewrite lookup_insert_eq. rewrite Hn' in Hd. simplify_eq. eauto.
      * exists n'. by rewrite lookup_insert_ne.
    + apply IH; [done|done|set_solver|done|done].
Qed.

(** *** Operations *)

Lemma rep_valid_in q a l gs b : rep q a l gs -> b ∈ a :: l.*1 ++ gs -> valid b.
Proof. intros Hr Hb. pose proof (rep_valid _ _ _ _ Hr) as H. rewrite Forall_forall in H. auto. Qed.

Lemma rep_nodup_chain q a l gs : rep q a l gs -> NoDup (a :: l.*1).
Proof.
  intros Hr. pose proof (rep_nodup _ _ _ _ Hr) as H.
  rewrite app_comm_cons in H. by apply NoDup_app in H as [? _].
Qed.

Lemma rep_end_valid q a l gs : rep q a l gs -> valid (chain_end a l).
Proof.
  intros Hr. eapply rep_valid_in; [done|]. pose proof (chain_end_in a l).
  rewrite app_comm_cons. apply elem_of_app. by left.
Qed.

Lemma addrs_snoc a l gs c (v : T) :
  a :: (l ++ [(c, v)]).*1 ++ gs ≡ₚ c :: a :: l.*1 ++ gs.
Proof.
  rewrite fmap_app, <- app_assoc. change ([(c, v)].*1) with [c].
  rewrite !app_comm_cons. symmetry. apply (Permutation_middle (a :: l.*1) gs c).
Qed.

Lemma rep_fresh q a l gs c : rep q a l gs -> c ∉ dom (heap q) -> c ∉ a :: l.*1 ++ gs.
Proof. intros Hr. rewrite (rep_dom _ _ _ _ Hr). by rewrite elem_of_list_to_set. Qed.

(** Linking the new node behind the last one. *)
Lemma rep_push_step q a l gs c v d :
  rep q a l gs -> valid c -> c ∉ dom (heap q) ->
  heap q !! chain_end a l = Some (MkNode d Atomic_null) ->
  rep (set_tail (MkAtomic c) (set_heap
         (<[chain_end a l := MkNode d (MkAtomic c)]> (<[c := Node_new v]> (heap q))) q))
      a (l ++ [(c, v)]) gs.
Proof.
  intros Hr Hc Hfresh Hd. pose proof (rep_fresh _ _ _ _ _ Hr Hfresh) as Hcin.
  pose proof (rep_nodup_chain _ _ _ _ Hr) as Hndc.
  pose proof (chain_end_in a l) as Hend.
  destruct Hr as [Hh Ht Hch Hval Hnd Hdom Hpu Hpo Hlk].
  assert (Hne : chain_end a l <> c) by set_solver.
  split; simpl; try done.
  - by rewrite chain_end_snoc.
  - apply chain_snoc; [|done|set_solver|by rewrite lookup_insert_ne|by rewrite lookup_insert_eq].
    eapply chain_frame; [|done]. intros b Hb. rewrite lookup_insert_ne; [done|set_solver].
  - rewrite addrs_snoc. by constructor.
  - rewrite addrs_snoc. by constructor.
  - pose proof (list_to_set_perm_L (C:=gset Z) _ _ (addrs_snoc a l gs c v)) as Hp.
    rewrite list_to_set_cons in Hp. rewrite Hp, list_to_set_cons, <- Hdom, !dom_insert_L.
    assert (chain_end a l ∈ dom (heap q)) by (apply elem_of_dom; eauto). set_solver.
Qed.

(** [_push] of a new node takes the common path at once. *)
Lemma _push_ok q a l gs c v :
  rep q a l gs -> valid c -> c ∉ dom (heap q) ->
  returns (_push (MkShared c)) (set_heap (<[c := Node_new v]> (heap q)) q)
    (fun r q' => r = true /\ rep q' a (l ++ [(c, v)]) gs /\
       cap (pop_guard q') = cap (pop_guard q) /\
       size (dom (heap q')) = S (size (dom (heap q)))).
Proof.
  intros Hr Hc Hfresh n.
  destruct (chain_end_node _ _ _ (rep_chain _ _ _ _ Hr)) as [d Hd].
  pose proof (rep_end_valid _ _ _ _ Hr) as Hev.
  assert (Hne : chain_end a l <> c).
  { intros <-. apply Hfresh. apply elem_of_dom. eauto. }
  set (q1 := set_heap _ q).
  assert (Hd1 : heap q1 !! chain_end a l = Some (MkNode d Atomic_null)).
  { simpl. by rewrite lookup_insert_ne. }
  unfold _push. wp_step. unfold load_tail. wp_step. rewrite (rep_tail _ _ _ _ Hr).
  wp_step. eapply twp_next; [done..|]. simpl.
  wp_step. unfold ShiftGuard.is_empty, load_len. wp.
  destruct (rep_push _ _ _ _ Hr) as (_ & Hlen & _). rewrite Hlen. simpl.
  wp. eapply twp_next; [done..|]. simpl. wp_step. rewrite ?null_is_null.
  wp_step. eapply twp_next_act; [done..|]. simpl.
  wp_step. eapply twp_cas_tail; [apply (rep_tail _ _ _ _ Hr)|]. simpl. wp.
  split_and!; [done|by apply (rep_push_step q a l gs c v d)|done|].
  rewrite dom_insert_lookup_L by (rewrite lookup_insert_ne by done; eauto).
  rewrite dom_insert_L, size_union, size_singleton by set_solver. done.
Qed.

Lemma twp_owned_new m q (nd : Node T) (Q : nat -> Owned -> RawQueue T -> Prop) :
  (size (dom (heap q)) < room)%nat ->
  (forall a, valid a -> a ∉ dom (heap q) ->
     Q m (MkOwned a) (set_heap (<[a := nd]> (heap q)) q)) ->
  twp m (new_node nd) q Q.
Proof.
  intros Hroom HQ. eapply (twp_lift heap_lens).
  - apply (twp_Owned_new (P := fun m' o h => m' = m /\ exists a, valid a /\ (a ∉ dom (heap q)) /\
      o = MkOwned a /\ h = <[a := nd]> (heap q))); [done|]. eauto 6.
  - simpl. intros m' o h (-> & a & Ha & Hf & -> & ->). by apply HQ.
Qed.

(** [push] appends. *)
Lemma RawQueue_push_ok q xs gs v :
  queue_is q xs gs -> (size (dom (heap q)) < room)%nat ->
  returns (RawQueue_push v) q (fun _ q' =>
    queue_is q' (xs ++ [v]) gs /\ cap (pop_guard q') = cap (pop_guard q) /\
    size (dom (heap q')) = S (size (dom (heap q)))).
Proof.
  intros (a & l & Hr & <-) Hroom n. unfold RawQueue_push. wp_step.
  apply twp_owned_new; [done|]. intros c Hc Hf. simpl. unfold while_, forever, loop.
  apply twp_loop. unfold unfold_loop. wp.
  eapply twp_returns; [by apply _push_ok|]. simpl.
  intros m _ q' (-> & Hr' & Hcap & Hsz). wp. split_and!; [|done|done].
  exists a, (l ++ [(c, v)]). split; [done|]. by rewrite fmap_app.
Qed.
Lemma retire_ok q a gs :
  valid a -> holds (pop_guard q) (MkOwned <$> gs) -> (length gs < cap (pop_guard q))%nat ->
  returns (retire (MkShared a)) q (fun _ q' => exists g,
    q' = lput pop_guard_lens g q /\ holds g (MkOwned <$> gs ++ [a]) /\
    cap g = cap (pop_guard q) /\ lock g = lock (pop_guard q)).
Proof.
  intros Ha Hg Hlt n. unfold retire. wp_step. apply twp_to_owned; [done|]. wp_step.
  eapply twp_returns; [apply (push_ok pop_guard_lens _ _ _ Hg); by rewrite length_fmap|].
  simpl. intros m _ q' (-> & g & -> & Hh & Hc & Hl). wp. exists g.
  by rewrite fmap_app.
Qed.

Lemma addrs_cons a b (x : T) l gs :
  b :: l.*1 ++ gs ++ [a] ≡ₚ a :: ((b, x) :: l).*1 ++ gs.
Proof.
  simpl. rewrite app_assoc, app_comm_cons. symmetry. apply Permutation_cons_append.
Qed.

(** Moving [head] to the next node and retiring the old sentinel. *)
Lemma rep_pop_step q a b x l gs g :
  rep q a ((b, x) :: l) gs -> holds g (MkOwned <$> gs ++ [a]) ->
  lock g = lock (pop_guard q) ->
  rep (lput pop_guard_lens g (set_head (MkAtomic b) q)) b l (gs ++ [a]).
Proof.
  intros [Hh Ht Hch Hval Hnd Hdom Hpu Hpo [Hl1 Hl2]] Hg Hl.
  split; simpl; try done.
  - by rewrite Ht, chain_end_cons.
  - apply Hch.
  - by rewrite addrs_cons.
  - by rewrite addrs_cons.
  - pose proof (list_to_set_perm_L (C:=gset Z) _ _ (addrs_cons a b x l gs)) as Hp.
    rewrite list_to_set_cons in Hp. by rewrite Hp, Hdom.
  - by rewrite Hl.
Qed.

Lemma _pop_nonempty q a b x l gs :
  rep q a ((b, x) :: l) gs -> (length gs < cap (pop_guard q))%nat ->
  returns _pop q (fun r q' => r = inl (Some x) /\ rep q' b l (gs ++ [a]) /\
    cap (pop_guard q') = cap (pop_guard q) /\ dom (heap q') = dom (heap q) /\ tail q' = tail q).
Proof.
  intros Hr Hlt n. pose proof (rep_chain _ _ _ _ Hr) as ([d Hd] & [nb Hb] & _).
  assert (Hva : valid a) by (eapply rep_valid_in; [done|set_solver]).
  assert (Hvb : valid b) by (eapply rep_valid_in; [done|rewrite fmap_cons; set_solver]).
  unfold _pop, load_head. do 2 wp_step. rewrite (rep_head _ _ _ _ Hr).
  wp_step. eapply twp_next; [done..|]. simpl.
  rewrite (valid_not_null b) by done. simpl.
  wp_step. eapply twp_cas_head; [apply (rep_head _ _ _ _ Hr)|]. wp_step.
  eapply twp_returns; [apply retire_ok; [done|apply (rep_pop _ _ _ _ Hr)|done]|].
  simpl. intros m _ q' (g & -> & Hg & Hc & Hl). wp_step.
  eapply twp_data; [done..|]. wp. split_and!; [done| |done..].
  by apply rep_pop_step with x.
Qed.

Lemma _pop_empty q a gs :
  rep q a [] gs -> returns _pop q (fun r q' => r = inl None /\ q' = q).
Proof.
  intros Hr n. destruct (rep_chain _ _ _ _ Hr) as [d Hd].
  assert (Hva : valid a) by (eapply rep_valid_in; [done|set_solver]).
  unfold _pop, load_head. do 2 wp_step. rewrite (rep_head _ _ _ _ Hr).
  wp_step. eapply twp_next; [done..|]. simpl. by wp.
Qed.

(** When [pop_guard] is full, retiring a sentinel frees it and then reads past
    the end of the guard's buffer. *)
Lemma retire_full_ub q a gs n :
  valid a -> heap q !! a = Some n -> holds (pop_guard q) (MkOwned <$> gs) ->
  lock (pop_guard q) = 0 -> gs <> [] -> length gs = cap (pop_guard q) ->
  faults (retire (MkShared a)) q UB.
Proof.
  intros Ha Hn Hg Hl Hne Hfull k. unfold retire.
  wrong_step. apply twp_to_owned; [done|]. wrong_step.
  eapply twp_returns.
  { apply (push_full pop_guard_lens). destruct Hg as (_ & Hlen & _).
    simpl. by rewrite Hlen, length_fmap. }
  simpl. intros m _ q' [-> ->]. wrong_step. eapply twp_drop_owned; [done..|].
  wrong_step. eapply twp_act'; [simpl; by rewrite Hl|]. simpl.
  apply wrong_bind_l. unfold forever, loop. apply wrong_loop.
  unfold unfold_loop. apply wrong_bind_l, wrong_bind_l, wrong_bind_l.
  apply (pop_ub pop_guard_lens _ (MkOwned <$> gs)).
  - destruct Hg as (H1 & H2 & H3 & H4). by split_and!.
  - by destruct gs.
Qed.

Lemma _pop_full q a b x l gs :
  rep q a ((b, x) :: l) gs -> length gs = cap (pop_guard q) -> (0 < cap (pop_guard q))%nat ->
  faults _pop q UB.
Proof.
  intros Hr Hfull Hpos n. pose proof (rep_chain _ _ _ _ Hr) as ([d Hd] & [nb Hb] & _).
  assert (Hva : valid a) by (eapply rep_valid_in; [done|set_solver]).
  assert (Hvb : valid b) by (eapply rep_valid_in; [done|rewrite fmap_cons; set_solver]).
  unfold _pop, load_head. wrong_step. rewrite (rep_head _ _ _ _ Hr).
  wrong_step. eapply twp_next; [done..|]. simpl.
  rewrite (valid_not_null b) by done. simpl.
  wrong_step. eapply twp_cas_head; [apply (rep_head _ _ _ _ Hr)|]. simpl.
  apply wrong_bind_l. eapply retire_full_ub; try done.
  - apply (rep_pop _ _ _ _ Hr).
  - apply (rep_locks _ _ _ _ Hr).
  - intros ->. simpl in Hfull. simpl in Hpos. lia.
Qed.
Lemma try_pop_nonempty q x xs gs :
  queue_is q (x :: xs) gs -> (length gs < cap (pop_guard q))%nat ->
  returns RawQueue_try_pop q (fun r q' => r = Some x /\
    exists g, queue_is q' xs (gs ++ [g]) /\
    cap (pop_guard q') = cap (pop_guard q) /\ dom (heap q') = dom (heap q) /\ tail q' = tail q).
Proof.
  intros (a & [|[b y] l] & Hr & Hxs) Hlt n; [done|].
  rewrite fmap_cons in Hxs. injection Hxs as -> <-.
  unfold RawQueue_try_pop. apply twp_forever. wp_step.
  eapply twp_returns; [by apply _pop_nonempty with (1 := Hr)|]. simpl.
  intros m _ q' (-> & Hr' & Hc & Hd & Ht). wp. split; [done|].
  exists a. split_and!; [by exists b, l|done..].
Qed.

Lemma try_pop_empty q gs :
  queue_is q [] gs -> returns RawQueue_try_pop q (fun r q' => r = None /\ q' = q).
Proof.
  intros (a & [|? l] & Hr & Hxs) n; [|done].
  unfold RawQueue_try_pop. apply twp_forever. wp_step.
  eapply twp_returns; [by apply _pop_empty with (1 := Hr)|].
  intros m _ q' (-> & ->). by wp.
Qed.

(** With the guard full, [try_pop] of a non-empty queue is undefined. *)
Lemma try_pop_full q x xs gs :
  queue_is q (x :: xs) gs -> length gs = cap (pop_guard q) -> (0 < cap (pop_guard q))%nat ->
  faults RawQueue_try_pop q UB.
Proof.
  intros (a & [|[b y] l] & Hr & Hxs) Hfull Hpos n; [done|].
  unfold RawQueue_try_pop, forever, loop. apply wrong_loop.
  unfold unfold_loop. apply wrong_bind_l, wrong_bind_l, wrong_bind_l.
  by apply _pop_full with (1 := Hr).
Qed.

Lemma is_empty_ok q xs gs :
  queue_is q xs gs ->
  returns RawQueue_is_empty q (fun r q' => r = bool_decide (xs = []) /\ q' = q).
Proof.
  intros (a & l & Hr & <-) n. unfold RawQueue_is_empty, load_head.
  assert (Hva : valid a) by (eapply rep_valid_in; [done|set_solver]).
  do 2 wp_step. rewrite (rep_head _ _ _ _ Hr). wp_step.
  pose proof (rep_chain _ _ _ _ Hr) as Hc. destruct l as [|[b x] l].
  - destruct Hc as [d Hd]. eapply twp_next; [done..|]. simpl. by wp.
  - destruct Hc as ([d Hd] & _). eapply twp_next; [done..|]. wp.
    rewrite (valid_not_null b); [done|].
    eapply rep_valid_in; [done|rewrite fmap_cons; set_solver].
Qed.

Lemma init_ok threads :
  assume_init_is_ub = false -> (0 < room)%nat ->
  returns init_queue (RawQueue_with_threads (T:=T) threads) (fun _ q =>
    queue_is q [] [] /\ cap (pop_guard q) = threads /\ size (dom (heap q)) = 1%nat /\
    exists a, head q = MkAtomic a /\ valid a /\ heap q !! a = Some uninit_node).
Proof.
  intros Hu Hroom n. unfold init_queue, Node_default. rewrite Hu. do 3 wp_step.
  apply twp_owned_new; [done|]. intros a Ha _. simpl. wp.
  split_and!; [|done|by rewrite dom_insert_L, dom_empty_L, union_empty_r_L, size_singleton|
               exists a; by rewrite lookup_insert_eq].
  exists a, []. split; [|done]. split; simpl; try done.
  - exists None. by rewrite lookup_insert_eq.
  - by constructor.
  - by apply NoDup_singleton.
  - by rewrite dom_insert_L, dom_empty_L.
  - apply with_threads_holds.
  - apply with_threads_holds.
Qed.

(** By the documented rule, no queue can be made. *)
Lemma init_ub (q : RawQueue T) : assume_init_is_ub = true -> faults init_queue q UB.
Proof.
  intros Hu n. unfold init_queue, Node_default. rewrite Hu. apply wrong_bind_l. by eapply wrong_fail.
Qed.
End Rep.
