(* ===== verification/ShiftQueue.v ===== *)
(** * The public queue: what [ShiftQueue] promises, and where it breaks

    Sequences of operations of one thread are compared with the same operations
    on a list.  The agreement holds as long as at most [threads] elements have
    been popped; the next pop is undefined behaviour.  Two threads that push at
    the same time can lose an element and fail an assertion. *)

From S2P Require Import Prelude Machine Arena Fifo OwnRef OwnBox ShiftGuard RawQueue RawQueueSpec.

Section Client.
Context `{A : BoxAlloc} `{UR : UninitRule} {T : Type}.
Abbreviation Q := (RawQueue T).

#[export] Instance shift_ops : QueueOps Q T := {|
  q_push := ShiftQueue_push;
  q_pop := ShiftQueue_try_pop;
  q_is_empty := ShiftQueue_is_empty;
|}.

(** A thread that makes a queue, performs operations on it and sees [obs]; and
    one that makes a queue and prints it with [{:?}]. *)
Definition session (os : list (op T)) : prog Q (list (obs T)) := init_queue ;; run_ops os.
Definition print_new : prog Q () := init_queue ;; fmt_queue.

(** *** The queue with its retired nodes *)

(** [sim xs c k p q]: [q] holds [xs], [k] elements were pushed and [p] popped; a
    guard has room for [c] retired nodes. *)
Definition sim (c : nat) (xs : list T) (k p : nat) (q : Q) : Prop :=
  exists gs, queue_is q xs gs /\ length gs = p /\ cap (pop_guard q) = c /\
             size (dom (heap q)) = S k.

(** [ShiftQueue] keeps the promise of a queue for [c] pops, as long as there is
    memory. *)
#[export, refine] Instance shift_laws (c : nat) : QueueLaws Q T := {|
  q_is := sim c;
  q_can_push k := (S k < room)%nat;
  q_can_pop p := (p < c)%nat;
|}.
Proof.
  - intros v xs k p q (gs & Hq & Hk & Hc & Hp) Hroom n.
    eapply twp_returns; [apply RawQueue_push_ok; [done|lia]|].
    simpl. intros m _ q' (Hq' & Hc' & Hp'). exists gs. split_and!; [done|lia|lia|lia].
  - intros x xs k p q (gs & Hq & Hk & Hc & Hp) Hcap n.
    eapply twp_returns; [apply try_pop_nonempty with (1 := Hq); lia|].
    simpl. intros m _ q' (-> & g & Hq' & Hc' & Hd & _). split; [done|].
    exists (gs ++ [g]). rewrite length_app, Hd. simpl. split_and!; [done|lia|lia|lia].
  - intros k p q (gs & Hq & Hk & Hc & Hp) n.
    eapply twp_returns; [by apply try_pop_empty with (1 := Hq)|].
    simpl. intros m _ q' [-> ->]. split; [done|]. exists gs. by split_and!.
  - intros xs k p q (gs & Hq & Hk & Hc & Hp) n.
    eapply twp_returns; [by apply is_empty_ok with (1 := Hq)|].
    simpl. intros m _ q' [-> ->]. split; [done|]. exists gs. by split_and!.
Defined.

Lemma init_sim threads :
  assume_init_is_ub = false -> (0 < room)%nat ->
  returns init_queue (RawQueue_with_threads (T:=T) threads) (fun _ q =>
    sim threads [] 0 0 q).
Proof.
  intros Hu Hroom n. eapply twp_returns; [by apply init_ok|]. simpl.
  intros m _ q (Hq & Hc & Hs & _). exists []. by split_and!.
Qed.

(** *** Dropping the queue *)

Definition drop_loop : list T -> prog Q (list T) :=
  loop (fun vs => let! r := RawQueue_try_pop in
          Ret (match r with Some v => inl (vs ++ [v]) | None => inr vs end)).


Lemma drop_loop_ub xs : forall q vs gs,
  queue_is q xs gs -> (length gs <= cap (pop_guard q))%nat ->
  (0 < cap (pop_guard q) < length gs + length xs)%nat ->
  faults (drop_loop vs) q UB.
Proof.
  induction xs as [|x xs IH]; intros q vs gs Hq Hle Hgt n; simpl in Hgt; [lia|].
  unfold drop_loop, loop. apply wrong_loop. unfold unfold_loop.
  destruct (decide (length gs = cap (pop_guard q))) as [He|Hne].
  - apply wrong_bind_l, wrong_bind_l. apply try_pop_full with (1 := Hq); [done|lia].
  - apply wrong_bind_r. wp_step.
    eapply twp_returns; [apply try_pop_nonempty with (1 := Hq); lia|].
    simpl. intros m _ q' (-> & g & Hq' & Hc & _). wp.
    apply (IH _ _ _ Hq'); rewrite Hc, length_app; simpl; lia.
Qed.



(** A session that pops no more than [threads] elements. *)
Lemma session_ok threads (os : list (op T)) :
  assume_init_is_ub = false -> (pushes os < room)%nat -> (hits (spec_ops os []).1 <= threads)%nat ->
  returns (session os) (ShiftQueue_with_threads threads) (fun rs q =>
    rs = (spec_ops os []).1 /\
    exists gs, queue_is q (spec_ops os []).2 gs /\ length gs = hits rs /\
      cap (pop_guard q) = threads /\ size (dom (heap q)) = S (pushes os)).
Proof.
  intros Hu Hroom Hhits n. unfold session. wp_step.
  eapply twp_returns; [apply init_sim; [done|lia]|]. simpl. intros m _ q Hs.
  eapply twp_returns; [apply (run_ops_ok (L := shift_laws threads) os _ _ _ _ Hs); simpl; lia|].
  simpl. intros m' rs q' [-> (gs & Hq & Hl & Hc & Hz)]. eauto 8.
Qed.

Lemma session_ub (q : Q) os : assume_init_is_ub = true -> faults (session os) q UB.
Proof. intros Hu n. apply wrong_bind_l. by apply init_ub. Qed.

(** [pop] returns the front of a queue that has one, at its first attempt. *)
Lemma shift_pop_ok (q : Q) x xs gs :
  queue_is q (x :: xs) gs -> (length gs < cap (pop_guard q))%nat ->
  returns ShiftQueue_pop q (fun v q' => v = x /\ exists gs', queue_is q' xs gs').
Proof.
  intros Hq Hc n. unfold ShiftQueue_pop, forever, loop. apply twp_loop. unfold unfold_loop. wp.
  eapply twp_returns; [by apply try_pop_nonempty with (1 := Hq)|].
  simpl. intros m _ q' (-> & g & Hq' & _). wp. eauto.
Qed.
End Client.

(** ** Properties *)

(** C13. If the compiler leaves the memory of [Node::default] alone, one thread's operations on
    a new [ShiftQueue] give the results of the same operations on a list, first in first out,
    as long as no more than [threads] elements are popped and memory suffices; [pop] then
    returns the front element.  By the documented rule for [assume_init], making the queue is
    undefined behaviour already. *)
Theorem shift_queue_refines_list `{BoxAlloc} `{UninitRule} {T : Type} threads (os : list (op T)) :
  (pushes os < room)%nat -> (hits (spec_ops os []).1 <= threads)%nat ->
  if assume_init_is_ub then faults (session os) (ShiftQueue_with_threads threads) UB
  else returns (session os) (ShiftQueue_with_threads threads) (fun rs q =>
    rs = (spec_ops os []).1 /\
    (exists gs, queue_is q (spec_ops os []).2 gs /\ length gs = hits rs) /\
    forall x xs, (spec_ops os []).2 = x :: xs -> (hits rs < threads)%nat ->
      returns ShiftQueue_pop q (fun v q' => v = x /\ exists gs, queue_is q' xs gs)).
Proof.
  intros Hroom Hhits. destruct assume_init_is_ub eqn:Hu; [by apply session_ub|].
  intros n. eapply twp_returns; [by apply session_ok|].
  simpl. intros m rs q [-> (gs & Hq & Hl & Hc & _)]. split_and!; [done|by eauto|].
  intros x xs E Hlt. rewrite E in Hq. apply (shift_pop_ok q x xs gs Hq). lia.
Qed.

Lemma shift_queue_refines_list_witness :
  (pushes [Push 5; Push 7; TryPop] < room)%nat /\
  returns (session (UR := lax_rule) [Push 5; Push 7; TryPop]) (ShiftQueue_with_threads 4)
    (fun rs _ => rs = [Pushed; Pushed; Popped (Some 5)]) /\
  faults (session (UR := documented_rule) [Push 5; Push 7; TryPop]) (ShiftQueue_with_threads 4) UB.
Proof.
  assert (Hr : (pushes [Push 5; Push 7; TryPop] < room)%nat) by (vm_compute; lia).
  assert (Hh : (hits (spec_ops [Push 5; Push 7; TryPop] []).1 <= 4)%nat) by (vm_compute; lia).
  pose proof (fun r => @shift_queue_refines_list _ r Z 4 [Push 5; Push 7; TryPop] Hr Hh) as Hq.
  split; [exact Hr|]. split; [|exact (Hq documented_rule)].
  intros n. eapply twp_returns; [exact (Hq lax_rule)|]. by intros m rs q [-> _].
Defined.

(** C14. Once [threads] elements have been popped, popping one more element from a
    non-empty queue is undefined behaviour: the old sentinel is freed, and
    [PtrGuard::pop] reads past the end of the guard. *)
Theorem pop_after_threads_pops_is_ub `{BoxAlloc} `{UninitRule} {T : Type} threads (os : list (op T)) :
  (pushes os < room)%nat -> (0 < threads)%nat ->
  hits (spec_ops os []).1 = threads -> (spec_ops os []).2 <> [] ->
  faults (session os ;; ShiftQueue_try_pop) (ShiftQueue_with_threads threads) UB.
Proof.
  intros Hroom Hpos Hhits Hne n.
  destruct assume_init_is_ub eqn:Hu; [by apply wrong_bind_l, session_ub|]. apply wrong_bind_r.
  eapply twp_returns; [apply (session_ok threads); [done|done|lia]|].
  simpl. intros m' rs q' [-> (gs & Hq & Hl & Hc & _)].
  destruct (spec_ops os []).2 as [|x xs]; [done|].
  eapply try_pop_full; [exact Hq|lia|lia].
Qed.

(** Room for one thread: the second pop of an element is undefined behaviour. *)
Lemma pop_after_threads_pops_is_ub_witness :
  hits (spec_ops [Push 5; Push 7; TryPop] []).1 = 1%nat /\
  faults (session (UR := lax_rule) [Push 5; Push 7; TryPop] ;; ShiftQueue_try_pop)
    (ShiftQueue_with_threads 1) UB.
Proof.
  split; [reflexivity|].
  apply (@pop_after_threads_pops_is_ub _ lax_rule Z 1 [Push 5; Push 7; TryPop]); vm_compute;
    [lia|lia|reflexivity|done].
Defined.



(** C27. Dropping a queue of one thread to which more than [threads] elements were
    pushed is undefined behaviour. *)
Theorem drop_of_long_queue_is_ub `{BoxAlloc} `{UninitRule} {T : Type} threads (os : list (op T)) :
  (pushes os < room)%nat -> (hits (spec_ops os []).1 <= threads)%nat ->
  (0 < threads < pushes os)%nat ->
  faults (session os ;; RawQueue_drop) (ShiftQueue_with_threads threads) UB.
Proof.
  intros Hroom Hh Hthr n. pose proof (spec_count os []) as Hc. simpl in Hc.
  destruct assume_init_is_ub eqn:Hu; [by apply wrong_bind_l, session_ub|]. apply wrong_bind_r.
  eapply twp_returns; [apply (session_ok threads); [done|done|lia]|].
  simpl. intros m' rs q' [-> (gs & Hq & Hl & Hcap & _)].
  unfold RawQueue_drop. fold (drop_loop (T:=T) []).
  apply wrong_bind_l. apply drop_loop_ub with (1 := Hq); lia.
Qed.

Lemma drop_of_long_queue_is_ub_witness :
  (pushes [Push 5; Push 7] < room)%nat /\
  faults (session (UR := lax_rule) [Push 5; Push 7] ;; RawQueue_drop) (ShiftQueue_with_threads 1) UB.
Proof.
  assert (Hr : (pushes [Push 5; Push 7] < room)%nat) by (vm_compute; lia).
  split; [exact Hr|].
  apply (@drop_of_long_queue_is_ub _ lax_rule Z 1 [Push 5; Push 7] Hr); vm_compute; lia.
Defined.

(** A new queue in the arena, and the run of [RawQueue::new] that makes it. *)
Definition fresh_queue (T : Type) (threads : nat) : RawQueue T :=
  MkRawQueue (MkAtomic 16) (MkAtomic 16) (with_threads Owned threads)
    (with_threads Owned threads) {[16 := uninit_node]}.

Lemma fresh_queue_run T threads :
  run 4 (fun _ => calm) (init_queue (UR := lax_rule)) (ShiftQueue_with_threads threads) =
  Done () (fresh_queue T threads).
Proof. reflexivity. Qed.

(** C15. Two threads push at the same time.  The first has linked its node but not
    yet moved [tail] when the second runs: the second sees a non-null [next],
    swings [tail] to its own node, which nothing links to, and returns.  Its
    element can never be popped, and the first thread then fails its assertion
    that [tail] did not move. *)
Theorem concurrent_push_loses_element (T : Type) (v w : T) :
  match sched (steps 0 8 ++ steps 1 6) [RawQueue_push v; RawQueue_push w] (fresh_queue T 4) with
  | POk ts s =>
      ts !! 1%nat = Some (Ret ()) /\
      (exists s', run 40 (fun _ => calm) (run_ops [TryPop; TryPop]) s =
                  Done [Popped (Some v); Popped None] s') /\
      sched (steps 0 2) ts s = PFail 0 Panic s
  | _ => False
  end.
Proof. vm_compute. split; [reflexivity|]. split; [eexists; reflexivity|reflexivity]. Qed.

(** C35. Printing a new queue with [{:?}] reads the uninitialised data of the
    sentinel. *)
Theorem debug_print_of_new_queue_is_ub `{BoxAlloc} `{UninitRule} {T : Type} threads :
  (0 < room)%nat ->
  faults print_new (ShiftQueue_with_threads (T:=T) threads) UB.
Proof.
  intros Hroom n. unfold print_new. destruct assume_init_is_ub eqn:Hu; [by apply wrong_bind_l, init_ub|].
  apply wrong_bind_r.
  eapply twp_returns; [by apply (init_ok threads)|].
  simpl. intros m _ q ((b & l & Hr & _) & _ & _ & a & Hh & Hva & Ha).
  assert (Hf : forall L : lens (RawQueue T) (PtrGuard Owned), holds (lget L q) [] ->
    forall k, twp k (ShiftGuard.fmt L fmt_owned drop_owned) q (fun _ _ q' => q' = q)).
  { intros L (_ & Hlen & _) k. unfold ShiftGuard.fmt, load_len. do 2 wp_step. rewrite Hlen.
    wp_step. apply twp_loop. unfold unfold_loop. simpl. by wp. }
  unfold fmt_queue. apply wrong_bind_r.
  eapply twp_mono; [apply (Hf push_guard_lens), (rep_push _ _ _ _ Hr)|]. simpl. intros m1 _ ? _ ->.
  apply wrong_bind_r.
  eapply twp_mono; [apply (Hf pop_guard_lens), (rep_pop _ _ _ _ Hr)|]. simpl. intros m2 _ ? _ ->.
  apply wrong_bind_r. unfold load_head. wp_step. rewrite Hh.
  apply wrong_bind_l. unfold fmt_node, loop. apply wrong_loop. unfold unfold_loop.
  apply wrong_bind_l. apply wrong_bind_r. eapply twp_next; [done..|]. simpl.
  apply wrong_bind_r. wp_step.
  apply wrong_bind_l. eapply wrong_fail; [|done]. simpl.
  change (Atomic_load (MkAtomic a)) with (MkShared a). by rewrite valid_as_raw, Ha.
Qed.

Lemma debug_print_of_new_queue_is_ub_witness :
  (0 < room)%nat /\ faults (print_new (UR := lax_rule)) (ShiftQueue_with_threads (T := Z) 2) UB.
Proof.
  assert (Hr : (0 < room)%nat) by (vm_compute; lia).
  split; [exact Hr|]. exact (@debug_print_of_new_queue_is_ub _ lax_rule Z 2 Hr).
Defined.
