(* ===== verification/ParkConc.v ===== *)
(** * The parking lot with many threads

    The operations of [ParkLot] implement those of [Parking] whatever the threads do:
    a pool of threads that park and unpark with linked lists, hash table and futex
    only reaches states that correspond to states of the same pool with the abstract
    bucket.  The abstract pool runs along as ghost state ([Refine]).

    All threads have their thread data already, so that the table does not grow, and
    they use keys of one bucket, whose index is [i]. *)

From S2P Require Import Prelude Machine Solo Conc Refine Timing ThreadParker.
From S2P Require Import Parking ParkLot ParkQueue ParkTable ParkSim.
Import Lot.

(** A state with a lot and a kernel and one with an abstract bucket, that are otherwise
    the [same]. *)
Class Twins `{Kernel} {Sc Sa : Type} (L : lens Sc Lot) (K : lens Sc waiters)
    (A : lens Sa Parking.bucket) (same : Sc -> Sa -> Prop) : Prop := {
  tw_L :: LensLaws L;
  tw_K :: LensLaws K;
  tw_A :: LensLaws A;
  tw_LK x s : lget K (lput L x s) = lget K s;
  tw_KL x s : lget L (lput K x s) = lget L s;
  tw_same_L x s sa : same s sa -> same (lput L x s) sa;
  tw_same_K x s sa : same s sa -> same (lput K x s) sa;
  tw_same_A x s sa : same s sa -> same s (lput A x sa);
}.

(** Where a thread is in an operation of the parking lot. *)
Inductive status : Type :=
| Free                                        (** in none, or about to lock the bucket *)
| Owns (l : Lot) (b : Parking.bucket) (w : option nat)
    (** holds the lock of the bucket; the lot is [l], the abstract bucket [b], and it has
        taken [w] off the queue *)
| Asleep (k : Z) (in_kernel : bool)           (** waits on [k] to be unparked *)
| Awake (tok : Z)                             (** has seen that it was unparked, with [tok] *)
| Waking (u : nat).                           (** has to wake [u] in the kernel *)

(** The thread it has taken off the queue. *)
Definition taking (st : status) : option nat := match st with Owns _ _ w => w | _ => None end.
(** The thread whose word it has cleared, and that it has to wake in the kernel. *)
Definition pending (st : status) : option nat :=
  match st with
  | Owns _ b (Some u) => if woken b !! u is Some _ then Some u else None
  | Waking u => Some u
  | _ => None
  end.
Definition in_kernel (st : status) : nat := match st with Asleep _ true => 1 | _ => 0 end.
Definition owns (st : status) : Prop := match st with Owns _ _ _ => True | _ => False end.
Definition sleeping (st : status) : Prop := match st with Asleep _ _ => True | _ => False end.

Section ParkConc.
Context `{TA : TableAlloc} `{TL : ThreadLocals} `{KK : Kernel} {Sc Sa Res : Type}.
Context (L : lens Sc Lot) (K : lens Sc waiters) (A : lens Sa Parking.bucket)
  (same : Sc -> Sa -> Prop) `{!Twins L K A same}.
Context (p bits : Z) (i : nat) (qs0 : list (list (nat * Z))) (Hi : (i < length qs0)%nat)
  (Hnull : p <> 0) (Hbits : 1 <= bits <= 31).
Context (pas : list (prog Sa Res)) (sa0 : Sa).

Implicit Types (l : Lot) (b : Parking.bucket) (t u : nat) (st : status) (s : Sc) (sa : Sa).

(** There may be timeouts. *)
Context (timed : bool).
(** The programs of the specification never go wrong, and its threads are in no other
    bucket. *)
Context (no_fault : forall evs, match sched evs pas sa0 with PFail _ _ _ => False | _ => True end).
Context (idle : forall t j q k, (t < length pas)%nat -> j <> i -> qs0 !! j = Some q -> (t, k) ∉ q).

(** A phase: what is left of the specification, and the status. *)
Definition phase : Type := prog Sa Res * status.

Abbreviation lot := (lget L).
Abbreviation ker := (lget K).
Abbreviation bk := (lget A).
Abbreviation simulates := (sim p bits i qs0).

(** ** The invariant *)

(** The thread data of a thread that sleeps on [k], or that has been woken and not yet
    left. *)
Definition td_ok l b t (k : Z) : Prop := exists d, tds l !! td_addr t = Some d /\ deadlocked d = false /\
  key d = k /\
  match woken b !! t with
  | None => futex d = 1
  | Some tok => futex d = 0 /\ unpark_token d = tok
  end.

Definition shape (T : HashTable) : Z * list bool := (hash_bits T, mutex <$> entries T).

(** What every thread may rely on, also while another one works on the bucket. *)
Record steady l b : Prop := {
  st_ptr : HASHTABLE l = p;
  st_tab : exists ms, shape <$> tables l !! p = Some (bits, ms) /\ Z.of_nat (length ms) = 2 ^ bits /\
    ms !! i = Some (is_some (locked_by b));
  st_tls t : (t < length pas)%nat -> tls l !! t = Some (td_addr t);
}.

Record thread_ok s b t st : Prop := {
  t_sleep k kb : st = Asleep k kb -> td_ok (lot s) b t k;
  t_awake tok : st = Awake tok -> (exists k, td_ok (lot s) b t k) /\ woken b !! t = Some tok;
  t_queue k : (t, k) ∈ queue b -> woken b !! t = None /\ (sleeping st \/ owns st);
  t_owns l b' w : st = Owns l b' w -> locked_by b = Some t /\ l = lot s /\ b' = b;
  t_kernel : (sleepers (td_addr t) (ker s) <= in_kernel st)%nat;
}.

Record Rel s sa (g : nat -> phase) : Prop := {
  r_reach : reach pas sa0 (fun t => (g t).1) sa;
  r_same : same s sa;
  r_steady : steady (lot s) (bk sa);
  r_free : locked_by (bk sa) = None -> simulates (lot s) (bk sa);
  r_held t : locked_by (bk sa) = Some t -> owns (g t).2;
  r_pend t : sleepers (td_addr t) (ker s) <> 0%nat -> woken (bk sa) !! t <> None ->
    exists u, (u < length pas)%nat /\ pending (g u).2 = Some t;
  r_queued t k kb : (g t).2 = Asleep k kb -> woken (bk sa) !! t = None ->
    (t, k) ∈ queue (bk sa) \/ exists u, taking (g u).2 = Some t;
  r_thread t : thread_ok s (bk sa) t (g t).2;
}.

Definition PInv s (g : nat -> phase) : Prop := exists sa, Rel s sa g.

(** A thread may wait for the lock of the bucket, in the kernel until it is woken, and
    where its specification waits; with a timeout, if there are any. *)
Definition may_wait s (c : phase) : Prop :=
  pending c.2 = None /\
  ((exists me (k : () -> prog Sa Res), peq c.1 (bind (Parking.lock_bucket A me) k) /\
      exists x, bucket_of (p, i) (lot s) = Some x /\ mutex x = true) \/
   (exists me (k : Z -> prog Sa Res), peq c.1 (bind (sleep A me) k) /\
      sleepers (td_addr me) (ker s) <> 0%nat) \/
   (exists X (f : Sa -> res (X * Sa)) k, c.1 = Act f k /\ forall sa, same s sa -> f sa = Block) \/
   timed = true).

Abbreviation up := (shift PInv).
Abbreviation rsafe := (rs PInv may_wait).
Abbreviation goes := (moves PInv).

(** *** Steps *)

(** What a step of another thread leaves as it was for [u]. *)
Record frame s s' b b' u : Prop := {
  f_td d : tds (lot s) !! td_addr u = Some d -> exists d', tds (lot s') !! td_addr u = Some d' /\
    deadlocked d' = deadlocked d /\ key d' = key d /\ futex d' = futex d /\
    (futex d = 0 -> unpark_token d' = unpark_token d);
  f_woken : woken b' !! u = woken b !! u;
  f_queue k : (u, k) ∈ queue b' -> (u, k) ∈ queue b;
  f_owns : locked_by b = Some u -> lot s' = lot s /\ b' = b;
  f_kernel : (sleepers (td_addr u) (ker s') <= sleepers (td_addr u) (ker s))%nat;
}.

Lemma td_ok_frame s s' b b' u k : frame s s' b b' u -> td_ok (lot s) b u k -> td_ok (lot s') b' u k.
Proof.
  intros [] (d & Hd & Hdl & Hk & Hw). destruct (f_td0 d Hd) as (d' & Hd' & Hdl' & Hk' & Hf & Ht).
  exists d'. rewrite f_woken0, Hdl', Hk', Hf. split_and!; [done..|].
  destruct (woken b !! u) as [tok|]; [|done]. destruct Hw as [Hw1 Hw2]. by rewrite Ht.
Qed.

Lemma frame_thread_ok s s' b b' u st :
  frame s s' b b' u -> thread_ok s b u st -> thread_ok s' b' u st.
Proof.
  intros Hf []. pose proof (fun k => td_ok_frame _ _ _ _ _ k Hf) as Htd. destruct Hf. split.
  - eauto.
  - intros tok Hst. rewrite f_woken0. destruct (t_awake0 tok Hst) as [[k Hk] ?]. eauto.
  - intros k Hk. rewrite f_woken0. eauto.
  - intros l b1 w Hst. destruct (t_owns0 l b1 w Hst) as (Hl & -> & ->).
    destruct (f_owns0 Hl) as [-> ->]. done.
  - lia.
Qed.

(** What a step of [t] that changes its status from [st] to [st'] has to respect. *)
Record change s s' sa sa' t st st' : Prop := {
  c_same : same s' sa';
  c_steady : steady (lot s') (bk sa');
  c_sim : locked_by (bk sa') = None -> simulates (lot s') (bk sa');
  c_lock u : u <> t -> locked_by (bk sa') = Some u -> locked_by (bk sa) = Some u;
  c_own : locked_by (bk sa') = Some t -> owns st';
  c_pend u : sleepers (td_addr u) (ker s') <> 0%nat -> woken (bk sa') !! u <> None ->
    pending st' = Some u \/
    pending st <> Some u /\ sleepers (td_addr u) (ker s) <> 0%nat /\ woken (bk sa) !! u <> None;
  c_others u k : u <> t -> woken (bk sa') !! u = None -> woken (bk sa) !! u = None /\
    ((u, k) ∈ queue (bk sa) -> (u, k) ∈ queue (bk sa') \/ taking st' = Some u) /\
    (taking st = Some u -> taking st' = Some u);
  c_self k kb : st' = Asleep k kb -> woken (bk sa') !! t = None -> (t, k) ∈ queue (bk sa') \/
    (exists kb', st = Asleep k kb') /\ woken (bk sa) !! t = None /\ queue (bk sa') = queue (bk sa);
  c_thread : thread_ok s' (bk sa') t st';
}.

(** A step of [t], with a number of steps of its specification. *)
Lemma rel_change s s' sa sa' g t pa' st' :
  Rel s sa g -> (t < length pas)%nat -> exec (g t).1 sa pa' sa' -> change s s' sa sa' t (g t).2 st' ->
  (forall u, u <> t -> thread_ok s' (bk sa') u (g u).2) ->
  Rel s' sa' (<[t := (pa', st')]> g).
Proof.
  intros H Ht Hx [] Hf. split; try done.
  - eapply reach_exec; [apply H|done|exact Hx|by rewrite fn_lookup_insert|].
    intros u Hu. by rewrite fn_lookup_insert_ne.
  - intros u Hu. destruct (decide (u = t)) as [->|Hne].
    + rewrite fn_lookup_insert. auto.
    + rewrite fn_lookup_insert_ne by done. apply (r_held _ _ _ H). auto.
  - intros u Hs Hw. destruct (c_pend0 u Hs Hw) as [Hu|(Hn & Hs' & Hw')].
    + exists t. by rewrite fn_lookup_insert.
    + destruct (r_pend _ _ _ H u Hs' Hw') as (v & Hv & Hvp). exists v. split; [done|].
      rewrite fn_lookup_insert_ne by congruence. done.
  - intros u k kb Hu Hw. destruct (decide (u = t)) as [->|Hne].
    + rewrite fn_lookup_insert in Hu. destruct (c_self0 k kb Hu Hw) as [|((kb' & Hst) & Hw' & Hq)]; [by left|].
      rewrite Hq. destruct (r_queued _ _ _ H t k kb' Hst Hw') as [|[v Hv]]; [by left|right].
      exists v. rewrite fn_lookup_insert_ne; [done|]. intros ->. by rewrite Hst in Hv.
    + rewrite fn_lookup_insert_ne in Hu by done. destruct (c_others0 u k Hne Hw) as (Hw' & Hq & Htk).
      destruct (r_queued _ _ _ H u k kb Hu Hw') as [Hin|[v Hv]].
      * destruct (Hq Hin) as [|Ht']; [by left|]. right. exists t. by rewrite fn_lookup_insert.
      * right. destruct (decide (v = t)) as [->|Hvt].
        -- exists t. rewrite fn_lookup_insert. auto.
        -- exists v. by rewrite fn_lookup_insert_ne.
  - intros u. destruct (decide (u = t)) as [->|Hne].
    + by rewrite fn_lookup_insert.
    + rewrite fn_lookup_insert_ne by done. by apply Hf.
Qed.

Lemma rel_step s s' sa sa' g t pa' st' :
  Rel s sa g -> (t < length pas)%nat -> exec (g t).1 sa pa' sa' -> change s s' sa sa' t (g t).2 st' ->
  (forall u, u <> t -> frame s s' (bk sa) (bk sa') u) ->
  Rel s' sa' (<[t := (pa', st')]> g).
Proof.
  intros H Ht Hx Hc Hf. apply (rel_change s s' sa sa'); try done.
  intros u Hu. eapply frame_thread_ok; [by apply Hf|apply H].
Qed.

Lemma goes_phase s' g t c (P : phase -> Prop) sa' :
  Rel s' sa' (<[t := c]> g) -> P c -> goes t g s' P.
Proof.
  intros H HP. exists (<[t := c]> g). split_and!; [by exists sa'| |by rewrite fn_lookup_insert].
  intros u Hu. by rewrite fn_lookup_insert_ne.
Qed.

Lemma frame_refl s b u : frame s s b b u.
Proof. split; eauto 10. Qed.

(** A step that leaves lot, kernel and abstract bucket as they are. *)
Lemma rel_quiet s s' sa sa' g t pa' :
  Rel s sa g -> (t < length pas)%nat -> exec (g t).1 sa pa' sa' -> same s' sa' ->
  lot s' = lot s -> ker s' = ker s -> bk sa' = bk sa ->
  Rel s' sa' (<[t := (pa', (g t).2)]> g).
Proof.
  intros H Ht Hx Hsm Hl Hk Hb. pose proof (r_thread _ _ _ H t) as Hth.
  assert (Hf : forall u, frame s s' (bk sa) (bk sa') u) by (intros u; split; rewrite ?Hl, ?Hk, ?Hb; eauto 10).
  eapply rel_step; [exact H|done|exact Hx| |done]. split; rewrite ?Hb, ?Hl, ?Hk; try done; try apply H.
  - intros u Hs Hw. destruct (decide (pending (g t).2 = Some u)); [by left|by right].
  - auto.
  - intros k kb Hst Hw. right. eauto.
  - rewrite <- Hb. by eapply frame_thread_ok.
Qed.

(** Steps of the specification alone. *)
Lemma spec_up t c c' st : (t < length pas)%nat -> (forall sa, exec c sa c' sa) -> up t (c, st) (c', st).
Proof.
  intros Ht Hx s g (sa & H) Hg. exists (<[t := (c', st)]> g). split_and!.
  - exists sa. replace st with (g t).2 by by rewrite Hg. apply (rel_quiet s s sa sa); try done.
    + rewrite Hg. apply Hx.
    + apply H.
  - by rewrite fn_lookup_insert.
  - intros u Hu. by rewrite fn_lookup_insert_ne.
Qed.

Lemma peq_up t c c' st : (t < length pas)%nat -> peq c c' -> up t (c, st) (c', st).
Proof. intros Ht Hc. apply spec_up; [done|]. intros sa. by apply exec_refl. Qed.

(** What the owner of the bucket may change in it, taking [w] off the queue. *)
Record own_change t w b b' : Prop := {
  oc_lock : locked_by b' = locked_by b;
  oc_woken u : u <> t -> woken b' !! u = woken b !! u;
  oc_queue u k : u <> t -> (u, k) ∈ queue b' -> (u, k) ∈ queue b;
  oc_keep u k : u <> t -> (u, k) ∈ queue b -> (u, k) ∈ queue b' \/ w = Some u;
  oc_self k : (t, k) ∈ queue b' -> woken b' !! t = None;
}.

(** The owner of the bucket changes it, in the specification. *)
Lemma own_up t c c' l b b' w w' : (t < length pas)%nat ->
  (forall sa, bk sa = b -> exec c sa c' (lput A b' sa)) -> own_change t w' b b' ->
  w = None /\ w' <> Some t \/ w' = w /\ (forall u, w = Some u -> u <> t) ->
  up t (c, Owns l b w) (c', Owns l b' w').
Proof.
  intros Ht Hx Hc Hww s g (sa & H) Hg. exists (<[t := (c', Owns l b' w')]> g). split_and!.
  - pose proof (r_thread _ _ _ H t) as Hth. rewrite Hg in Hth.
    destruct (t_owns _ _ _ _ Hth l b w eq_refl) as (Hl & -> & ->).
    exists (lput A b' sa). destruct Hc.
    assert (Hkt : sleepers (td_addr t) (ker s) = 0%nat)
      by (pose proof (t_kernel _ _ _ _ Hth) as Hk; simpl in Hk; lia).
    eapply rel_step; [exact H|done|rewrite Hg; by apply Hx|split|]; rewrite ?lget_lput, ?oc_lock0, ?Hg; try done.
    + by apply tw_same_A, H.
    + destruct (r_steady _ _ _ H). split; try done. by rewrite oc_lock0.
    + by rewrite Hl.
    + intros u Hs Hw. assert (u <> t) as Hut by (intros ->; lia).
      rewrite oc_woken0 in Hw by done. destruct (decide (pending (Owns (lot s) b' w') = Some u)); [by left|].
      right. split; [|done]. simpl in *. destruct Hww as [[-> _]|[-> _]]; [done|].
      destruct w as [v|]; [|done]. destruct (decide (v = u)) as [->|].
      * by rewrite oc_woken0 in n.
      * intros E. destruct (woken (bk sa) !! v); congruence.
    + intros u k Hu. rewrite oc_woken0 by done. intros Hw. split_and!; [done|by apply oc_keep0|].
      simpl. destruct Hww as [[-> _]|[-> _]]; done.
    + destruct Hth. split; try done.
      * intros k Hk. split; [by eapply oc_self0|by right].
      * intros l1 b1 w1 [= <- <- <-]. by rewrite oc_lock0.
    + intros u Hu. split; [by eauto 10|auto|eauto|intros; congruence|lia].
  - by rewrite fn_lookup_insert.
  - intros u Hu. by rewrite fn_lookup_insert_ne.
Qed.

(** ** Refinement of programs

    [refines st t pc pa]: thread [t] of the code, running [pc] in the status [st], does
    what [pa] allows, whatever follows. *)

Definition refines {X} st t (pc : prog Sc X) (pa : prog Sa X) : Prop :=
  forall n (k : X -> prog Sa Res), rsafe n t (bind pa k, st) pc (fun c a => c = (k a, st)).

Section Rules.
Context (st : status) (t : nat) (Ht : (t < length pas)%nat) (Hst : pending st = None).

Lemma ref_ret {X} (a : X) : refines st t (Ret a) (Ret a).
Proof. intros n k. by apply rs_ret. Qed.

Lemma ref_bind {X Y} pc pa (gc : X -> prog Sc Y) (ga : X -> prog Sa Y) :
  refines st t pc pa -> (forall a, refines st t (gc a) (ga a)) ->
  refines st t (bind pc gc) (bind pa ga).
Proof.
  intros Hp Hg n k. eapply rs_shift; [apply peq_up; [done|apply bind_assoc]|].
  eapply rs_bind; [apply Hp|]. intros m ? a _ ->. apply Hg.
Qed.

Lemma ref_peq {X} (pc pc' : prog Sc X) pa pa' :
  peq pc pc' -> peq pa pa' -> refines st t pc pa -> refines st t pc' pa'.
Proof.
  intros Hc Ha H n k. eapply rs_peq; [exact Hc|]. eapply rs_shift; [|apply H].
  apply peq_up; [done|]. by rewrite Ha.
Qed.

(** Accesses to what both systems share. *)
Definition rest_act {X} (fc : Sc -> res (X * Sc)) (fa : Sa -> res (X * Sa)) : Prop :=
  forall s sa, same s sa ->
  match fc s, fa sa with
  | Ok (x, s'), Ok (y, sa') => x = y /\ same s' sa' /\ lot s' = lot s /\ ker s' = ker s /\ bk sa' = bk sa
  | Block, Block => True
  | Fail _, Fail _ => True
  | _, _ => False
  end.

Lemma ref_act {X} (fc : Sc -> res (X * Sc)) fa : rest_act fc fa -> refines st t (act fc) (act fa).
Proof.
  intros Hr n k. apply rs_act. intros s g (sa & H) Hg.
  pose proof (Hr s sa (r_same _ _ _ H)) as Hx. destruct (fc s) as [[x s']| |e] eqn:Hc.
  - destruct (fa sa) as [[y sa']| |] eqn:Hfa; [|done|done]. destruct Hx as (<- & Hs & Hl & Hk & Hb).
    eapply goes_phase; [eapply (rel_quiet s s' sa sa' g t (k x)); [exact H|done| |done..]|by rewrite Hg].
    rewrite Hg. eapply (exec_step calm); [simpl; by rewrite Hfa|]. apply exec_refl. reflexivity.
  - exists (g t). split; [reflexivity|]. rewrite Hg. split; [done|]. right. right. left.
    exists X, fa, (fun x => bind (Ret x) k). split; [done|]. intros sa' Hs'. specialize (Hr s sa' Hs'). rewrite Hc in Hr.
    by destruct (fa sa') as [[]| |].
  - destruct (fa sa) as [[]| |f] eqn:Hfa; [done|done|].
    destruct (reach_fail pas sa0 _ sa t calm f (r_reach _ _ _ H) Ht) as [evs Hev].
    { rewrite Hg. simpl. by rewrite Hfa. }
    specialize (no_fault evs). by rewrite Hev in no_fault.
Qed.

Lemma ref_ask {X} (kc : env -> prog Sc X) (ka : env -> prog Sa X) :
  (forall e, refines st t (kc e) (ka e)) -> refines st t (Ask kc) (Ask ka).
Proof.
  intros H n k. apply rs_ask. intros e m _. eapply rs_shift; [|apply H]. apply spec_up; [done|].
  intros sa. apply (exec_step e _ _ (bind (ka e) k) sa); [done|]. apply exec_refl. reflexivity.
Qed.

Lemma ref_loop {X I R} (bc : I -> prog Sc (I + R)) (ba : I -> prog Sa (I + R))
    (kc : R -> prog Sc X) (ka : R -> prog Sa X) i0 :
  (forall j, refines st t (bc j) (ba j)) -> (forall r, refines st t (kc r) (ka r)) ->
  refines st t (Loop bc i0 kc) (Loop ba i0 ka).
Proof.
  intros Hb Hk n k. apply (rs_loop _ _ _ _ (fun c j => c = (bind (Loop ba j ka) k, st))); [done|].
  intros m ? j _ ->. eapply rs_shift.
  { apply spec_up; [done|]. intros sa. eapply (exec_step calm); [reflexivity|].
    apply exec_refl. reflexivity. }
  eapply rs_mono; [|apply Hb]. intros ? [j'|r] ->; [done|]. intros m' _. apply Hk.
Qed.
End Rules.

(** ** Work on the bucket

    While a thread holds the lock, only that thread changes the lot.  The links, heads
    and tails are its own; the words of sleeping threads that others read are not. *)

Record lot_step t l l' : Prop := {
  ls_ptr : HASHTABLE l' = HASHTABLE l;
  ls_tls : tls l' = tls l;
  ls_shape : shape <$> tables l' !! p = shape <$> tables l !! p;
  ls_td a d : a <> td_addr t -> tds l !! a = Some d -> exists d', tds l' !! a = Some d' /\
    deadlocked d' = deadlocked d /\ key d' = key d /\ futex d' = futex d /\
    (futex d = 0 -> unpark_token d' = unpark_token d);
}.

Lemma lot_step_refl t l : lot_step t l l.
Proof. split; eauto 10. Qed.

Lemma rel_own s sa g t pa l l' b w :
  Rel s sa g -> (t < length pas)%nat -> g t = (pa, Owns l b w) -> lot_step t l l' ->
  Rel (lput L l' s) sa (<[t := (pa, Owns l' b w)]> g).
Proof.
  intros H Ht Hg Hls. pose proof (r_thread _ _ _ H t) as Hth. rewrite Hg in Hth.
  destruct (t_owns _ _ _ _ Hth l b w eq_refl) as (Hl & -> & ->).
  assert (Htd : forall u, u <> t -> td_addr u <> td_addr t) by (intros u Hu E; by apply td_addr_inj in E).
  eapply rel_step; [exact H|done|rewrite Hg; by apply exec_refl|split|]; rewrite ?lget_lput, ?tw_LK, ?Hg; try done.
  - by apply tw_same_L, H.
  - destruct (r_steady _ _ _ H), Hls. split; rewrite ?ls_ptr0, ?ls_tls0, ?ls_shape0; done.
  - by rewrite Hl.
  - intros u Hs Hw. simpl. destruct w as [v|]; [|by right].
    destruct (decide ((if woken (bk sa) !! v is Some _ then Some v else None) = Some u)); [by left|by right].
  - auto.
  - destruct Hth. split; rewrite ?lget_lput, ?tw_LK; try done. by intros l1 b1 w1 [= <- <- <-].
  - intros u Hu. split; rewrite ?lget_lput, ?tw_LK; [|done|done|intros; congruence|lia].
    intros d Hd. apply (ls_td _ _ _ Hls); auto.
Qed.

Lemma rel_lot s sa g t pa l b w : Rel s sa g -> g t = (pa, Owns l b w) -> lot s = l.
Proof.
  intros H Hg. pose proof (r_thread _ _ _ H t) as Hth. rewrite Hg in Hth.
  by destruct (t_owns _ _ _ _ Hth l b w eq_refl) as (_ & -> & _).
Qed.

(** A program that works on the lot alone runs undisturbed. *)
Lemma own_run {X} n m t pa l b w (q : prog Lot X) Q :
  (t < length pas)%nat -> twp m q l Q -> (n <= m)%nat -> keeps (lot_step t) q ->
  rsafe n t (pa, Owns l b w) (lift L q) (fun c a => exists m' l', c = (pa, Owns l' b w) /\ Q m' a l').
Proof.
  intros Ht H. revert n. induction H as [m a l Q HQ|m X' f k l x l' Q Hf _ IH|m k l Q _ IH|
    m I R body j k l Q _ IH]; intros n Hn Hk.
  - apply rs_ret. eauto.
  - destruct n as [|n]; [done|]. destruct Hk as [Hkf Hk]. intros s g (sa & H) Hg. symmetry in Hg.
    cbn beta. rewrite (rel_lot _ _ _ _ _ _ _ _ H Hg), Hf.
    exists (<[t := (pa, Owns l' b w)]> g). split_and!.
    + exists sa. eapply rel_own; [exact H|done|exact Hg|by eapply Hkf].
    + intros u Hu. by rewrite fn_lookup_insert_ne.
    + rewrite fn_lookup_insert. apply IH; [lia|apply Hk].
  - destruct n as [|n]; [done|]. intros e. apply IH; [intros; lia| |apply Hk].
    unfold spend. destruct (spurious e); lia.
  - destruct n as [|n]; [done|]. change (rsafe n t (pa, Owns l b w)
      (unfold_loop (fun j => lift L (body j)) j (fun r => lift L (k r)))
      (fun c a => exists m' l', c = (pa, Owns l' b w) /\ Q m' a l')).
    eapply rs_peq; [|apply IH; [lia|by apply keeps_unfold]].
    unfold unfold_loop. rewrite lift_bind. apply bind_peq; [reflexivity|].
    intros [?|?]; reflexivity.
Qed.

(** One access. *)
Lemma own_act {X} n t pa l b w (f : Lot -> res (X * Lot)) x l' :
  (t < length pas)%nat -> f l = Ok (x, l') -> lot_step t l l' ->
  rsafe n t (pa, Owns l b w) (lift L (act f)) (fun c a => c = (pa, Owns l' b w) /\ a = x).
Proof.
  intros Ht Hf Hl. apply rs_act. intros s g (sa & H) Hg.
  rewrite (rel_lot _ _ _ _ _ _ _ _ H Hg), Hf.
  eapply goes_phase; [by eapply rel_own|done].
Qed.

(** *** What the code writes while it holds the lock *)

Lemma shape_put (r : bucket_ref) x x' l : bucket_of r l = Some x -> mutex x' = mutex x ->
  shape <$> tables (put_bucket r x' l) !! p = shape <$> tables l !! p.
Proof.
  destruct r as [q j]. unfold bucket_of, put_bucket. simpl.
  destruct (decide (q = p)) as [->|Hne]; [|by rewrite lookup_alter_ne].
  rewrite lookup_alter_eq. destruct (tables l !! p) as [T|]; [|done]. simpl. intros Hx Hm.
  unfold shape. simpl. rewrite list_fmap_insert, Hm, list_insert_id; [done|].
  by rewrite list_lookup_fmap, Hx.
Qed.

Lemma lot_step_bucket t l r x x' : bucket_of r l = Some x -> mutex x' = mutex x ->
  lot_step t l (put_bucket r x' l).
Proof. intros Hx Hm. split; [done|done|by eapply shape_put|eauto 10]. Qed.

Lemma lot_step_td t l a d d' : tds l !! a = Some d ->
  a = td_addr t \/ deadlocked d' = deadlocked d /\ key d' = key d /\ futex d' = futex d /\
    (futex d = 0 -> unpark_token d' = unpark_token d) ->
  lot_step t l (set_tds (<[a := d']> (tds l)) l).
Proof.
  intros Hd Hc. split; [done..|]. simpl. intros a1 d1 Ha Hd1. destruct (decide (a1 = a)) as [->|Hne].
  - rewrite lookup_insert_eq. simplify_eq. destruct Hc as [|Hc]; [done|]. eauto.
  - rewrite lookup_insert_ne by done. eauto 10.
Qed.

Lemma keeps_td_read {X} t a (f : ThreadData -> X) : keeps (lot_step t) (td_read a f).
Proof.
  apply keeps_act. intros l x l' Hf. destruct (tds l !! a); simplify_eq. apply lot_step_refl.
Qed.

Lemma keeps_td_write t a f :
  a = td_addr t \/ (forall d, deadlocked (f d) = deadlocked d /\ key (f d) = key d /\ futex (f d) = futex d /\
    unpark_token (f d) = unpark_token d) -> keeps (lot_step t) (td_write a f).
Proof.
  intros Hc. apply keeps_act. intros l x l' Hf. destruct (tds l !! a) as [d|] eqn:Hd; simplify_eq.
  eapply lot_step_td; [done|]. destruct Hc as [|Hc]; [by left|right]. destruct (Hc d) as (? & ? & ? & ?). auto.
Qed.

Lemma keeps_bucket_act {X} t r (f : Bucket -> res (X * Bucket)) :
  (forall x y x', f x = Ok (y, x') -> mutex x' = mutex x) -> keeps (lot_step t) (bucket_act r f).
Proof.
  intros Hm. apply keeps_act. intros l y l' Hf. destruct (bucket_of r l) as [x|] eqn:Hx; [|done].
  destruct (f x) as [[y' x']| |] eqn:E; simplify_eq. eapply lot_step_bucket; [done|by eapply Hm].
Qed.

Lemma keeps_bucket_read {X} t r (f : Bucket -> X) : keeps (lot_step t) (bucket_read r f).
Proof. apply keeps_bucket_act. intros; by simplify_eq. Qed.

Lemma keeps_bucket_write t r f : (forall x, mutex (f x) = mutex x) ->
  keeps (lot_step t) (bucket_write r f).
Proof. intros Hf. apply keeps_bucket_act. intros; by simplify_eq. Qed.

Ltac keep :=
  repeat match goal with
  | |- keeps _ (bind _ _) => apply keeps_bind; [|intros ?]
  | |- keeps _ (Ret _) => done
  | |- keeps _ (loop _ _) => apply keeps_loop; intros ?
  | |- keeps _ (td_read _ _) => apply keeps_td_read
  | |- keeps _ (td_write _ _) => apply keeps_td_write; first [by left|by right; intros []]
  | |- keeps _ (bucket_read _ _) => apply keeps_bucket_read
  | |- keeps _ (bucket_write _ _) => apply keeps_bucket_write; by intros []
  | |- keeps _ (if ?b then _ else _) => destruct b
  | |- keeps _ (let '(_, _) := ?x in _) => destruct x
  end.

Lemma keeps_link_set t k x : keeps (lot_step t) (link_set k x).
Proof. unfold link_set. destruct k; keep. Qed.

Lemma keeps_unlink t k r lk c pr : keeps (lot_step t) (unlink k r lk c pr).
Proof. unfold unlink, scan_for. keep. apply keeps_link_set. Qed.

Lemma keeps_take_thread t k r : keeps (lot_step t) (take_thread k r).
Proof. unfold take_thread. keep. unfold take_pass. keep. apply keeps_unlink. Qed.

Lemma keeps_remove_self t a k r : keeps (lot_step t) (remove_self a k r).
Proof. unfold remove_self. keep. unfold self_pass. keep. apply keeps_unlink. Qed.

Lemma keeps_fair t r : keeps (lot_step t) (fair r).
Proof.
  unfold fair. keep; [done|]. apply keeps_bucket_act. intros x y x'.
  destruct (FairTimeout.should_timeout _ _). intros; by simplify_eq.
Qed.

Lemma keeps_append t k r token timeout : keeps (lot_step t) (append (td_addr t) k r token timeout).
Proof. unfold append, prepare_park, Parker.prepare_park, write_futex. keep. Qed.

(** ** Locking and unlocking the bucket *)

Lemma sim_steady l b : simulates l b -> (forall t, (t < length pas)%nat -> tls l !! t = Some (td_addr t)) ->
  steady l b.
Proof.
  intros Hsim Htls. destruct (sim_here _ _ _ _ _ _ Hsim Hi) as (x & Hx & _ & Hm & _).
  destruct (sim_lot _ _ _ _ _ _ Hsim) as (T & HT & Hb). destruct (li_ok _ _ _ _ _ HT) as (_ & Hlen & _).
  rewrite Hb in *. split; [apply HT| |done].
  exists (mutex <$> entries T). rewrite (li_tab _ _ _ _ _ HT). simpl. unfold shape. rewrite Hb.
  split_and!; [done|by rewrite length_fmap|]. unfold bucket_of in Hx. simpl in Hx.
  rewrite (li_tab _ _ _ _ _ HT) in Hx. by rewrite list_lookup_fmap, Hx, <- Hm.
Qed.

Lemma steady_bucket l b : steady l b ->
  exists x, bucket_of (p, i) l = Some x /\ mutex x = is_some (locked_by b).
Proof.
  intros []. destruct st_tab0 as (ms & Hs & _ & Hm). unfold bucket_of. simpl.
  destruct (tables l !! p) as [T|]; [|done]. simpl in Hs. injection Hs as _ <-.
  rewrite list_lookup_fmap in Hm. destruct (entries T !! i) as [x|]; [|done]. exists x.
  split; [done|]. by injection Hm.
Qed.

(** Reading what does not change. *)
Lemma quiet_read {X} n t c (f : Lot -> res (X * Lot)) x :
  (forall l b, steady l b -> f l = Ok (x, l)) ->
  rsafe n t c (lift L (act f)) (fun c' y => c' = c /\ y = x).
Proof.
  intros Hf. apply rs_act. intros s g (sa & H) Hg. rewrite (Hf _ _ (r_steady _ _ _ H)), lput_lget.
  exists g. split_and!; [by exists sa|done|done|done].
Qed.

Lemma steady_table l b : steady l b ->
  exists T, tables l !! p = Some T /\ hash_bits T = bits /\ Z.of_nat (length (entries T)) = 2 ^ bits.
Proof.
  intros []. destruct st_tab0 as (ms & Hs & Hl & _).
  destruct (tables l !! p) as [T|]; [|done]. simpl in Hs. injection Hs as <- <-.
  rewrite length_fmap in Hl. eauto.
Qed.

Lemma get_table_conc n t c : rsafe n t c (lift L get_hashtable) (fun c' x => c' = c /\ x = p).
Proof.
  eapply rs_lift_bind; [apply (quiet_read _ _ _ _ p); intros l b []; by rewrite st_ptr0|].
  intros m ? ? _ [-> ->]. rewrite (proj2 (Z.eqb_neq _ _) Hnull). by apply rs_ret.
Qed.

(** The reads that lead to the bucket of a key. *)
Lemma find_bucket_conc {X} n t c k (h : bucket_ref -> prog Lot X) Q :
  hash_of k bits = Z.of_nat i -> (forall m, (m <= n)%nat -> rsafe m t c (lift L (h (p, i))) Q) ->
  rsafe n t c (lift L (let! bits := table_read p hash_bits in
                       let! j := hash k bits in
                       let! r := bucket_at p j in h r)) Q.
Proof.
  intros Hk HQ. eapply rs_lift_bind.
  { apply (quiet_read _ _ _ _ bits). intros l b Hs. destruct (steady_table _ _ Hs) as (T & -> & -> & _). done. }
  intros m1 ? ? Hm1 [-> ->]. eapply rs_lift_bind.
  { unfold hash. rewrite (proj2 (Z.ltb_lt _ _)), (proj2 (Z.leb_le _ _)) by lia. simpl.
    apply (rs_ret PInv may_wait _ _ _ _ (fun c' x => c' = c /\ x = Z.of_nat i)). by rewrite <- Hk. }
  intros m2 ? ? Hm2 [-> ->]. eapply rs_lift_bind.
  { unfold bucket_at. eapply rs_lift_bind.
    { apply (quiet_read _ _ _ _ (Z.to_nat (2 ^ bits))). intros l b Hs.
      destruct (steady_table _ _ Hs) as (T & -> & _ & <-). by rewrite Nat2Z.id. }
    intros m3 ? ? _ [-> ->]. pose proof (hash_of_range k bits) as Hr. rewrite Hk in Hr.
    rewrite Z2Nat.id, (proj2 (Z.ltb_lt _ _)) by lia. rewrite Nat2Z.id.
    by apply (rs_ret PInv may_wait _ _ _ _ (fun c' r => c' = c /\ r = (p, i))). }
  intros m3 ? ? Hm3 [-> ->]. apply HQ. lia.
Qed.

(** The lock of the bucket changes hands, in the lot and in the specification. *)
Lemma rel_lock s sa g t pa' st' x x' o :
  Rel s sa g -> (t < length pas)%nat ->
  exec (g t).1 sa pa' (lput A (set_locked_by o (bk sa)) sa) ->
  bucket_of (p, i) (lot s) = Some x -> queue_head x' = queue_head x -> queue_tail x' = queue_tail x ->
  fair_timeout x' = fair_timeout x -> mutex x' = is_some o ->
  simulates (lot s) (bk sa) -> (forall u, locked_by (bk sa) = Some u -> u = t) ->
  (forall u, o = Some u -> u = t /\ owns st') ->
  pending st' = pending (g t).2 ->
  (forall u, taking (g t).2 = Some u -> woken (bk sa) !! u <> None) ->
  (forall k kb, st' = Asleep k kb -> woken (bk sa) !! t = None -> (t, k) ∈ queue (bk sa)) ->
  thread_ok (lput L (put_bucket (p, i) x' (lot s)) s) (set_locked_by o (bk sa)) t st' ->
  Rel (lput L (put_bucket (p, i) x' (lot s)) s) (lput A (set_locked_by o (bk sa)) sa)
    (<[t := (pa', st')]> g).
Proof.
  intros H Ht Hx Hb Hh Htl Hf Hm Hsim Hold Hnew Hp Htk Hself Hok.
  destruct (sim_here _ _ _ _ _ _ Hsim Hi) as (y & Hy & Hfy & _ & _ & _ & _ & Hse).
  assert (Hs' : simulates (put_bucket (p, i) x' (lot s)) (set_locked_by o (bk sa))).
  { simplify_eq. eapply sim_bucket_step; try done; by rewrite Hf. }
  eapply rel_step; [exact H|done|exact Hx|split|]; rewrite ?lget_lput, ?tw_LK; simpl; try done.
  - by apply tw_same_A, tw_same_L, H.
  - apply sim_steady; [done|]. apply H.
  - intros u Hu Ho. by destruct (Hnew u Ho).
  - intros Ho. by apply (Hnew t).
  - intros u Hs Hw. destruct (decide (pending st' = Some u)); [by left|right]. by rewrite <- Hp.
  - intros u k Hu Hw. split_and!; [done|by left|]. intros E. by destruct (Htk u E).
  - intros k kb E Hw. left. eauto.
  - intros u Hu. split; rewrite ?lget_lput, ?tw_LK; simpl; [eauto 10|done|done| |lia].
    intros Hl. by destruct Hu; apply Hold.
Qed.

(** [t] has just locked the bucket. *)
Record taken t l b : Prop := {
  tk_sim : simulates l b;
  tk_lock : locked_by b = Some t;
  tk_tls : tls l !! t = Some (td_addr t);
  tk_queue k : (t, k) ∈ queue b -> woken b !! t = None;
}.

(** What it knows from before: it was in no queue, or it was asleep. *)
Definition known t st l b : Prop :=
  match st with
  | Free => t ∉ (queue b).*1
  | Asleep k false => td_ok l b t k /\ (woken b !! t = None -> (t, k) ∈ queue b)
  | _ => False
  end.

Definition lockable st : Prop := st = Free \/ exists k, st = Asleep k false.

Lemma not_queued t (q : list (nat * Z)) k : t ∉ q.*1 -> (t, k) ∉ q.
Proof. intros Ht Hin. apply Ht, list_elem_of_fmap. by exists (t, k). Qed.

Lemma rel_known s sa g t : Rel s sa g -> locked_by (bk sa) = None -> lockable (g t).2 ->
  known t (g t).2 (lot s) (bk sa).
Proof.
  intros H Hl Hst. pose proof (r_thread _ _ _ H t) as Hth. destruct Hst as [E|[k E]]; rewrite E in *; simpl.
  - intros Hin. apply list_elem_of_fmap in Hin as ([t' k] & E' & Hin). simpl in E'. subst t'.
    by destruct (t_queue _ _ _ _ Hth k Hin) as [_ [[]|[]]].
  - split; [by eapply t_sleep|]. intros Hw. destruct (r_queued _ _ _ H t k false E Hw) as [|[u Hu]]; [done|].
    destruct (g u) as [pu stu] eqn:Hgu. simpl in Hu. destruct stu; try done.
    pose proof (r_thread _ _ _ H u) as Hthu. rewrite Hgu in Hthu.
    destruct (t_owns _ _ _ _ Hthu _ _ _ eq_refl) as [Hlu _]. congruence.
Qed.

Lemma bucket_lock_conc n t kk st : (t < length pas)%nat -> lockable st ->
  rsafe n t (bind (Parking.lock_bucket A t) kk, st) (lift L (bucket_lock (p, i)))
    (fun c _ => exists l b, c = (kk (), Owns l b None) /\ taken t l b /\ known t st l b).
Proof.
  intros Ht Hst. apply rs_act. intros s g (sa & H) Hg.
  assert (Hpend : pending st = None) by (destruct Hst as [->|[k ->]]; done).
  destruct (steady_bucket _ _ (r_steady _ _ _ H)) as (x & Hx & Hm). rewrite Hx.
  destruct (locked_by (bk sa)) as [o|] eqn:Hl; simpl in Hm; rewrite Hm.
  - exists (g t). split; [reflexivity|]. rewrite Hg. split; [done|]. left. exists t, kk. split; [reflexivity|]. eauto.
  - pose proof (r_free _ _ _ H Hl) as Hsim. set (l' := put_bucket (p, i) (set_mutex true x) (lot s)).
    pose proof (rel_known _ _ _ t H Hl) as Hkn. pose proof (r_thread _ _ _ H t) as Hth. rewrite Hg in Hkn, Hth.
    eapply (goes_phase _ _ _ (kk (), Owns l' (set_locked_by (Some t) (bk sa)) None)).
    + eapply rel_lock with (x' := set_mutex true x) (o := Some t);
        [exact H|done| |exact Hx|done|done|done|done|done|congruence| | | | |]; rewrite ?Hg; try done.
      * eapply (exec_step calm); [simpl; by rewrite Hl|]. apply exec_refl. reflexivity.
      * by intros u [= ->].
      * simpl. destruct Hst as [->|[k ->]]; done.
      * destruct Hth. split; rewrite ?lget_lput, ?tw_LK; try done.
        -- intros k Hk. destruct (t_queue0 k Hk) as [? _]. split; [done|by right].
        -- by intros l1 b1 w1 [= <- <- <-].
        -- simpl. destruct Hst as [->|[k ->]]; done.
    + exists l', (set_locked_by (Some t) (bk sa)). split; [done|].
      destruct (sim_here _ _ _ _ _ _ Hsim Hi) as (y & Hy & Hfy & _ & _ & _ & _ & Hse). simplify_eq.
      split; [|by destruct st; apply Hkn]. split.
      * by eapply sim_bucket_step.
      * done.
      * by apply (st_tls _ _ (r_steady _ _ _ H)).
      * intros k Hk. by apply (t_queue _ _ _ _ Hth k).
Qed.

Lemma lock_bucket_conc n t k kk : (t < length pas)%nat -> hash_of k bits = Z.of_nat i ->
  rsafe n t (bind (Parking.lock_bucket A t) kk, Free) (lift L (Lot.lock_bucket k))
    (fun c r => r = (p, i) /\ exists l b, c = (kk (), Owns l b None) /\ taken t l b /\ t ∉ (queue b).*1).
Proof.
  intros Ht Hk. apply (rs_lift_forever _ _ _ _ _ (fun c => c = (bind (Parking.lock_bucket A t) kk, Free)));
    [done|]. intros m ? _ ->.
  eapply rs_lift_bind; [apply get_table_conc|]. intros m1 ? ? _ [-> ->].
  apply find_bucket_conc; [done|]. intros m2 _.
  eapply rs_lift_bind; [by apply bucket_lock_conc; [|left]|]. intros m3 ? [] _ (l & b & -> & Htk & Hkn).
  eapply rs_lift_bind.
  { apply (own_act _ t _ l b None (fun l => Ok (HASHTABLE l, l)) (HASHTABLE l) l); [done|done|].
    apply lot_step_refl. }
  intros m4 ? ? _ [-> ->].
  destruct (sim_table _ _ _ _ _ _ (tk_sim _ _ _ Htk)) as [-> _]. rewrite Z.eqb_refl.
  apply rs_ret. eauto 10.
Qed.

(** Unlocking: the thread is free, has somebody to wake, or sleeps. *)
Lemma bucket_unlock_conc n t kk l b w st' : (t < length pas)%nat ->
  simulates l b -> locked_by b = Some t -> pending st' = w -> (forall u, w = Some u -> woken b !! u <> None) ->
  ~ owns st' -> in_kernel st' = 0%nat ->
  (forall k kb, st' = Asleep k kb -> td_ok l b t k /\ (woken b !! t = None -> (t, k) ∈ queue b)) ->
  (forall tok, st' = Awake tok -> (exists k, td_ok l b t k) /\ woken b !! t = Some tok) ->
  (t ∈ (queue b).*1 -> sleeping st') ->
  rsafe n t (bind (unlock_bucket A) kk, Owns l b w) (lift L (bucket_unlock (p, i)))
    (fun c _ => c = (kk (), st')).
Proof.
  intros Ht Hsim Hl Hp Hwk Ho Hk Htd Haw Hq. apply rs_act. intros s g (sa & H) Hg.
  pose proof (r_thread _ _ _ H t) as Hth. rewrite Hg in Hth.
  destruct (t_owns _ _ _ _ Hth l b w eq_refl) as (_ & -> & ->).
  destruct (sim_here _ _ _ _ _ _ Hsim Hi) as (x & Hx & _ & Hm & _). rewrite Hl in Hm.
  rewrite Hx, Hm. eapply goes_phase; [|done].
  eapply rel_lock with (x' := set_mutex false x) (o := None);
    [exact H|done| |exact Hx|done|done|done|done|done| | | | | |]; rewrite ?Hg; try done.
  - eapply (exec_step calm); [reflexivity|]. apply exec_refl. reflexivity.
  - intros u. rewrite Hl. by intros [= ->].
  - simpl. destruct w as [u|]; [|done]. destruct (woken (bk sa) !! u) eqn:E; [done|]. by destruct (Hwk u).
  - intros k kb E. by apply (Htd k kb E).
  - destruct Hth. split; rewrite ?lget_lput, ?tw_LK; simpl in *; try done.
    + intros k kb E. by apply (Htd k kb E).
    + intros k Hkq. destruct (t_queue0 k Hkq) as [? _]. split; [done|left]. apply Hq.
      apply list_elem_of_fmap. by exists (t, k).
    + intros l1 b1 w1 ->. by destruct Ho.
    + lia.
Qed.

(** ** [unpark_one] *)

(** The owner runs a piece of the specification that concerns the bucket only. *)
Lemma own_evals {X Y} t l b b' w w' (q : prog Sa X) (h : X -> prog Sa Y) (kk : Y -> prog Sa Res) a :
  (t < length pas)%nat -> (forall sa, bk sa = b -> evals q sa a (lput A b' sa)) -> own_change t w' b b' ->
  w = None /\ w' <> Some t \/ w' = w /\ (forall u, w = Some u -> u <> t) ->
  up t (bind (bind q h) kk, Owns l b w) (bind (h a) kk, Owns l b' w').
Proof.
  intros Ht Hq Hc Hw. apply own_up; [done| |done|done]. intros sa Hb.
  eapply exec_peq; [symmetry; apply bind_assoc|]. by apply exec_evals with (k := fun a => bind (h a) kk), Hq.
Qed.

(** Changes that concern neither queue nor tokens. *)
Lemma own_change_same t w b b' : (forall k, (t, k) ∈ queue b -> woken b !! t = None) ->
  locked_by b' = locked_by b -> woken b' = woken b -> queue b' = queue b -> own_change t w b b'.
Proof. intros Hs Hl Hw Hq. split; rewrite ?Hw, ?Hq; auto. Qed.

(** The thread taken off the queue is woken: the word that it sleeps on is cleared. *)
Lemma wake_conc n t u kk l b d tok : (t < length pas)%nat -> u <> t -> woken b !! u = None ->
  tds l !! td_addr u = Some d -> unpark_token d = tok -> u ∉ (queue b).*1 ->
  rsafe n t (bind (modify A (fun b => set_woken (<[u := tok]> (woken b)) b)) kk, Owns l b (Some u))
    (lift L (write_futex (td_addr u) 0))
    (fun c _ => c = (kk (), Owns (set_tds (<[td_addr u := set_futex 0 d]> (tds l)) l)
                              (set_woken (<[u := tok]> (woken b)) b) (Some u))).
Proof.
  intros Ht Hu Hwu Hd Htok Hq. apply rs_act. intros s g (sa & H) Hg.
  pose proof (r_thread _ _ _ H t) as Hth. rewrite Hg in Hth.
  destruct (t_owns _ _ _ _ Hth l b (Some u) eq_refl) as (Hl & -> & ->). rewrite Hd.
  assert (Hne : forall v, v <> u -> td_addr u <> td_addr v)
    by (intros v Hv E; by apply td_addr_inj in E).
  assert (Hins : forall v, v <> u -> <[u := tok]> (woken (bk sa)) !! v = woken (bk sa) !! v)
    by (intros v Hv; by rewrite lookup_insert_ne).
  eapply goes_phase; [|done].
  eapply (rel_change s _ sa (lput A (set_woken (<[u := tok]> (woken (bk sa))) (bk sa)) sa)); [exact H|done| |split|];
    rewrite ?lget_lput, ?tw_LK, ?Hg; simpl; try done.
  - eapply (exec_step calm); [reflexivity|]. apply exec_refl. reflexivity.
  - by apply tw_same_A, tw_same_L, H.
  - destruct (r_steady _ _ _ H). by split.
  - by rewrite Hl.
  - intros v Hs Hw. rewrite lookup_insert_eq, Hwu. destruct (decide (v = u)) as [->|Hv]; [by left|].
    rewrite Hins in Hw by done. by right.
  - intros v k Hv Hw. destruct (decide (v = u)) as [->|Hvu]; [by rewrite lookup_insert_eq in Hw|].
    rewrite Hins in Hw by done. auto.
  - destruct Hth. split; rewrite ?lget_lput, ?tw_LK; simpl; try done.
    + by rewrite Hins.
    + by intros l1 b1 w1 [= <- <- <-].
  - intros v Hv. pose proof (r_thread _ _ _ H v) as Hthv. destruct (decide (v = u)) as [->|Hvu].
    + destruct Hthv. split; rewrite ?lget_lput, ?tw_LK; simpl; [| | | |done].
      * intros k kb E. destruct (t_sleep0 k kb E) as (d1 & Hd1 & Hdl & Hk & _). simplify_eq.
        eexists. simpl. by rewrite !lookup_insert_eq.
      * intros tok' E. destruct (t_awake0 tok' E). congruence.
      * intros k Hk. by destruct (not_queued u (queue (bk sa)) k Hq).
      * intros l1 b1 w1 E. destruct (t_owns0 l1 b1 w1 E) as [Hlu _]. congruence.
    + eapply frame_thread_ok; [|exact Hthv]. split; rewrite ?lget_lput, ?tw_LK; simpl; [| |done| |done].
      * intros d1 Hd1. rewrite lookup_insert_ne by by apply Hne. eauto 10.
      * by rewrite Hins.
      * intros Hlv. congruence.
Qed.

Lemma unpark_lock_conc n t u kk l b d tok : (t < length pas)%nat -> u <> t -> woken b !! u = None ->
  tds l !! td_addr u = Some d -> unpark_token d = tok -> u ∉ (queue b).*1 ->
  rsafe n t (bind (modify A (fun b => set_woken (<[u := tok]> (woken b)) b)) kk, Owns l b (Some u))
    (lift L (unpark_lock (td_addr u)))
    (fun c h => c = (kk (), Owns (set_tds (<[td_addr u := set_futex 0 d]> (tds l)) l)
                              (set_woken (<[u := tok]> (woken b)) b) (Some u)) /\ h = td_addr u).
Proof.
  intros Ht Hu Hwu Hd Htok Hq. eapply rs_lift_bind; [by eapply wake_conc|].
  intros m ? [] _ ->. by apply rs_ret.
Qed.

(** Waking a thread in the kernel. *)
Lemma unpark_conc n t u c : (t < length pas)%nat ->
  rsafe n t (c, Waking u) (Lot.unpark K (td_addr u)) (fun c' _ => c' = (c, Free)).
Proof.
  intros Ht. apply rs_csafe. apply unpark_safe with (Q := fun c' => c' = (c, Free)); [apply _|congruence|].
  intros s g w (sa & H) Hg Hw. symmetry in Hg.
  assert (Hle : forall v, (sleepers (td_addr v) w <= sleepers (td_addr v) (ker s))%nat)
    by (intros v; rewrite Hw; lia).
  exists (<[t := (c, Free)]> g). split_and!.
  - exists sa. eapply (rel_step s); [exact H|done|rewrite Hg; apply exec_refl; reflexivity|split|];
      rewrite ?lget_lput, ?tw_KL, ?Hg; simpl; try done; try apply H.
    + by apply tw_same_K, H.
    + intros Hl. pose proof (r_held _ _ _ H t Hl) as Ho. by rewrite Hg in Ho.
    + intros v Hs Hwk. right. pose proof (t_kernel _ _ _ _ (r_thread _ _ _ H v)) as Hv. rewrite Hw in Hs.
      destruct (decide (u = v)) as [<-|Hne].
      * rewrite decide_True in Hs by done. destruct (g u).2 as [| |? []| |]; simpl in Hv; lia.
      * rewrite decide_False in Hs by (intros E; by apply td_addr_inj in E).
        split_and!; [congruence|lia|done].
    + auto.
    + pose proof (r_thread _ _ _ H t) as []. rewrite Hg in *. specialize (Hle t).
      split; rewrite ?lget_lput, ?tw_KL; simpl in *; [done|done| |done|lia].
      intros k Hk. destruct (t_queue0 k Hk) as [? [[]|[]]].
    + intros v Hv. split; rewrite ?lget_lput, ?tw_KL; eauto 10.
  - intros v Hv. by rewrite fn_lookup_insert_ne.
  - rewrite fn_lookup_insert. by intros ? <-.
Qed.

(** What follows in the specification once a thread has been found. *)
Lemma found_conc n t cbc cba kk l b u d more fair_ :
  (t < length pas)%nat -> (forall st r, pending st = None -> refines st t (cbc r) (cba r)) ->
  simulates l b -> locked_by b = Some t -> t ∉ (queue b).*1 -> u <> t -> u ∉ (queue b).*1 ->
  woken b !! u = None -> (forall j q k', j <> i -> qs0 !! j = Some q -> (u, k') ∉ q) ->
  tds l !! td_addr u = Some d -> futex d = 1 ->
  rsafe n t (bind (let! token := cba (MkUnparkResult 1 0 more fair_) in
                   modify A (fun b => set_woken (<[u := token]> (woken b)) b) ;;
                   unlock_bucket A ;; Ret (MkUnparkResult 1 0 more fair_)) kk, Owns l b (Some u))
    (let! token := cbc (MkUnparkResult 1 0 more fair_) in
     lift L (td_write (td_addr u) (set_unpark_token token)) ;;
     let! handle := lift L (unpark_lock (td_addr u)) in
     lift L (bucket_unlock (p, i)) ;;
     unpark K handle ;;
     Ret (MkUnparkResult 1 0 more fair_)) (fun c r => c = (kk r, Free)).
Proof.
  intros Ht Hcb Hsim Hl Hout Hu Huq Hwu Hoth Hd Hf.
  eapply rs_shift; [apply peq_up; [done|apply bind_assoc]|].
  eapply rs_bind; [apply Hcb; simpl; by rewrite Hwu|]. intros m1 ? tok _ ->.
  eapply rs_bind.
  { apply own_act with (l' := set_tds (<[td_addr u := set_unpark_token tok d]> (tds l)) l) (x := ());
      [done|by rewrite Hd|]. eapply lot_step_td; [done|]. right. split_and!; [done|done|done|]. by rewrite Hf. }
  intros m2 ? [] _ [-> _]. eapply rs_bind.
  { eapply rs_shift; [apply peq_up; [done|apply bind_assoc]|].
    eapply unpark_lock_conc; [done|done|done|simpl; by rewrite lookup_insert_eq|done|done]. }
  intros m3 ? ? _ [-> ->]. simpl. rewrite insert_insert_eq.
  pose proof (sim_wake p bits i qs0 Hi _ _ u d tok Hsim Huq Hoth Hd) as Sim4.
  eapply rs_bind.
  { eapply rs_shift; [apply peq_up; [done|apply bind_assoc]|].
    apply (bucket_unlock_conc _ _ _ _ _ _ (Waking u)); try done; simpl; [|tauto].
    intros v [= ->]. by rewrite lookup_insert_eq. }
  intros m4 ? [] _ ->. eapply rs_bind; [by apply unpark_conc|]. intros m5 ? [] _ ->.
  by apply rs_ret.
Qed.

(** What taking the first thread with a key off the queue leaves. *)
Lemma take_change t k b u rest : t ∉ (queue b).*1 -> take_first k (queue b) = Some (u, rest) ->
  u <> t /\ own_change t (Some u) b (set_queue rest b) /\ (t ∉ rest.*1) /\ (u, k) ∈ queue b.
Proof.
  intros Hout Htf. destruct (take_first_spec _ _ _ _ Htf) as (q1 & q2 & Hq & Hrest).
  assert (Hsub : forall e, e ∈ rest -> e ∈ queue b) by (rewrite Hq, Hrest; set_solver).
  assert (Hin : (u, k) ∈ queue b) by (rewrite Hq; set_solver).
  assert (Hout2 : t ∉ rest.*1).
  { intros Ht. apply list_elem_of_fmap in Ht as ([t' k'] & E & Ht). simpl in E. subst t'.
    by apply (not_queued t (queue b) k' Hout), Hsub. }
  split_and!; [|split; simpl|done|done].
  - intros ->. by apply (not_queued t (queue b) k Hout).
  - done.
  - done.
  - intros v k' _. apply Hsub.
  - intros v k' _. rewrite Hq, Hrest. intros Hv. apply elem_of_app in Hv as [Hv|Hv]; [left; set_solver|].
    apply elem_of_cons in Hv as [[= -> ->]|Hv]; [by right|left; set_solver].
  - intros k' Hk. by destruct (not_queued t rest k' Hout2).
Qed.

Lemma unpark_one_refined t k (cbc : UnparkResult -> prog Sc Z) (cba : UnparkResult -> prog Sa Z) :
  (t < length pas)%nat -> hash_of k bits = Z.of_nat i ->
  (forall st r, pending st = None -> refines st t (cbc r) (cba r)) ->
  refines Free t (Lot.unpark_one L K k cbc) (B_unpark_one A t k cba).
Proof.
  intros Ht Hk Hcb n kk. unfold Lot.unpark_one, B_unpark_one.
  eapply rs_shift; [apply peq_up; [done|apply bind_assoc]|].
  eapply rs_bind; [by apply lock_bucket_conc|]. intros m1 ? ? _ (-> & l & b & -> & [Hsim Hl _ Hself] & Hout).
  eapply rs_shift.
  { apply own_evals with (b' := b) (a := queue b) (w' := None); [done| |by apply own_change_same|by left].
    intros sa <-. rewrite lput_lget. by apply evals_act'. }
  destruct (sim_here _ _ _ _ _ _ Hsim Hi) as (x & Hx & _ & _ & Hok & Hnd & _).
  eapply rs_bind.
  { apply own_run with (m := m1) (Q := fun _ o l' => match take_first k (queue b) with
      | Some (u, rest) => o = Some (td_addr u, waits_for k rest) /\ requeued (p, i) l l' (queue b) rest
      | None => o = None /\ l' = l end); [done| |done|apply keeps_take_thread].
    eapply take_thread_ok; [exact Hx|exact Hok|exact Hnd|].
    by destruct (take_first k (queue b)) as [[u rest]|]; [intros l' Hr|]. }
  intros m2 ? o _ (_ & l2 & -> & Ho). destruct (take_first k (queue b)) as [[u rest]|] eqn:Htf.
  - destruct Ho as [-> Hrq].
    destruct (sim_take _ _ _ _ Hi _ _ _ _ _ _ Hsim Htf Hrq) as (Sim2 & Hnu & Hoth & d & Hd & Hf).
    destruct (take_change t k b u rest Hout Htf) as (Hu & Hch & Hout2 & Hin).
    pose proof (sim_not_woken _ _ _ _ Hi _ _ _ _ Hsim Hin) as Hwu.
    assert (Hsame : forall b', locked_by b' = locked_by b -> woken b' = woken b -> queue b' = rest ->
      own_change t (Some u) (set_queue rest b) b').
    { intros b' ? ? ?. apply own_change_same; try done. simpl. intros k' Hk'. by destruct (not_queued t rest k' Hout2). }
    assert (Hkeep : Some u = Some u /\ forall v, Some u = Some v -> v <> t) by (split; [done|congruence]).
    eapply rs_shift.
    { apply own_evals with (b' := set_queue rest b) (a := ()) (w' := Some u); [done| |done|left; split; [done|congruence]].
      intros sa <-. by apply evals_act'. }
    eapply rs_bind.
    { apply own_run with (m := m2) (Q := fun _ r l' => exists now,
        r = (FairTimeout.should_timeout now (Parking.fair_timeout b)).1 /\ tds l' = tds l2 /\
        simulates l' (set_fair (FairTimeout.should_timeout now (Parking.fair_timeout b)).2 (set_queue rest b)));
        [done| |done|apply keeps_fair].
      eapply fair_ok; [exact Hi|exact Sim2|]. intros m now x' _ Sim3. eauto. }
    intros m3 ? f _ (_ & l3 & -> & now & -> & Htd & Sim3).
    eapply rs_shift.
    { apply own_evals with (b' := set_queue rest b) (a := now) (w' := Some u); [done| |by apply Hsame|by right].
      intros sa <-. rewrite lput_lget. apply evals_now. }
    eapply rs_shift.
    { apply own_evals with (b' := set_fair (FairTimeout.should_timeout now (Parking.fair_timeout b)).2 (set_queue rest b))
        (a := (FairTimeout.should_timeout now (Parking.fair_timeout b)).1) (w' := Some u); [done| |by apply Hsame|by right].
      intros sa Hb. apply evals_act'. rewrite Hb. simpl.
      by destruct (FairTimeout.should_timeout now (Parking.fair_timeout b)). }
    eapply found_conc; try done. by rewrite Htd.
  - destruct Ho as [-> ->].
    eapply rs_shift; [apply peq_up; [done|apply bind_assoc]|].
    eapply rs_bind; [by apply Hcb|]. intros m3 ? tok _ ->. eapply rs_bind.
    { eapply rs_shift; [apply peq_up; [done|apply bind_assoc]|].
      apply (bucket_unlock_conc _ _ _ _ _ _ Free); try done; simpl; tauto. }
    intros m4 ? [] _ ->. by apply rs_ret.
Qed.

(** ** [park] *)

(** The kernel's queues and the status of a thread that sleeps change. *)
Lemma rel_kernel s sa g t pa k kb st' w : Rel s sa g -> (t < length pas)%nat -> g t = (pa, Asleep k kb) ->
  (exists kb', st' = Asleep k kb') \/ (exists tok, st' = Awake tok /\ woken (bk sa) !! t = Some tok) ->
  (forall u, u <> t -> sleepers (td_addr u) w = sleepers (td_addr u) (ker s)) ->
  (sleepers (td_addr t) w <= in_kernel st')%nat ->
  (sleepers (td_addr t) w <> 0%nat -> woken (bk sa) !! t <> None -> sleepers (td_addr t) (ker s) <> 0%nat) ->
  Rel (lput K w s) sa (<[t := (pa, st')]> g).
Proof.
  intros H Ht Hg Hst' Ho Hk Hp. pose proof (r_thread _ _ _ H t) as Hth. rewrite Hg in Hth.
  eapply (rel_step s); [exact H|done|rewrite Hg; apply exec_refl; reflexivity|split|];
    rewrite ?lget_lput, ?tw_KL, ?Hg; simpl; try done; try apply H.
  - by apply tw_same_K, H.
  - intros Hl. pose proof (r_held _ _ _ H t Hl) as Hw. by rewrite Hg in Hw.
  - intros u Hs Hw. right. split_and!; [done| |done]. destruct (decide (u = t)) as [->|Hne]; [auto|by rewrite <- Ho].
  - intros u k' Hu Hw. split_and!; [done|by left|done].
  - intros k' kb' -> Hw. right. destruct Hst' as [[kb1 [= -> ->]]|(tok & [=] & _)]. by split; [eexists|].
  - destruct Hth. split; rewrite ?lget_lput, ?tw_KL; simpl in *; [| | | |done].
    + intros k' kb' ->. destruct Hst' as [[kb1 [= -> ->]]|(tok & [=] & _)]. eauto.
    + intros tok ->. destruct Hst' as [[kb1 [=]]|(tok' & [= ->] & ?)]. eauto.
    + intros k' Hkq. destruct (t_queue0 k' Hkq) as [Hw _]. split; [done|]. left.
      destruct Hst' as [[kb1 ->]|(tok' & -> & ?)]; [done|congruence].
    + intros l b w' ->. by destruct Hst' as [[]|(? & [=] & _)].
  - intros u Hu. split; rewrite ?lget_lput, ?tw_KL; [by eauto 10|done|done|done|]. by rewrite Ho.
Qed.

Abbreviation cs := (csafe PInv eq (shift_wait PInv may_wait)).

(** A thread that sleeps reads its word; its specification may use that it was not woken. *)
Lemma read_word_conc n t pa pa' k : (t < length pas)%nat ->
  (forall sa, woken (bk sa) !! t = None -> exec pa sa pa' sa) ->
  cs n t (pa, Asleep k false) (read_word L (td_addr t))
    (fun c f => f <> 0 /\ c = (pa', Asleep k false) \/ f = 0 /\ exists tok, c = (pa, Awake tok)).
Proof.
  intros Ht Hx. apply csafe_act. intros s g (sa & H) Hg. symmetry in Hg.
  pose proof (r_thread _ _ _ H t) as Hth. rewrite Hg in Hth.
  destruct (t_sleep _ _ _ _ Hth k false eq_refl) as (d & -> & _ & _ & Hd). rewrite lput_lget.
  destruct (woken (bk sa) !! t) as [tok|] eqn:Hw.
  - destruct Hd as [-> _]. exists (<[t := (pa, Awake tok)]> g). split_and!.
    + exists sa. rewrite <- (lput_lget (l := K) s).
      pose proof (t_kernel _ _ _ _ Hth) as Hk. simpl in Hk.
      eapply rel_kernel; [exact H|done|exact Hg|by eauto|done|simpl; lia|lia].
    + intros u Hu. by rewrite fn_lookup_insert_ne.
    + rewrite fn_lookup_insert. intros ? <-. eauto.
  - exists (<[t := (pa', (g t).2)]> g). rewrite Hd. split_and!.
    + exists sa. apply (rel_quiet s s sa sa); try done; [rewrite Hg; by apply Hx|apply H].
    + intros u Hu. by rewrite fn_lookup_insert_ne.
    + rewrite fn_lookup_insert. intros ? <-. rewrite Hg. by left.
Qed.

(** Sleeping in the kernel, until woken or for a time. *)
Section Sleep.
Context (t : nat) (Ht : (t < length pas)%nat) (pa : prog Sa Res) (k : Z).
Context (Hwait : forall s, sleepers (td_addr t) (ker s) <> 0%nat -> may_wait s (pa, Asleep k true)).

Lemma to_asleep s g sa kb kb' w : Rel s sa g -> g t = (pa, Asleep k kb) ->
  (forall u, u <> t -> sleepers (td_addr u) w = sleepers (td_addr u) (ker s)) ->
  (sleepers (td_addr t) w <= in_kernel (Asleep k kb'))%nat ->
  (sleepers (td_addr t) w <> 0%nat -> woken (bk sa) !! t <> None -> sleepers (td_addr t) (ker s) <> 0%nat) ->
  csafe_to PInv eq t g (lput K w s) (fun c _ => c = (pa, Asleep k kb')) ().
Proof.
  intros H Hg H3 H4 H5. exists (<[t := (pa, Asleep k kb')]> g). split_and!.
  - exists sa. eapply rel_kernel; eauto.
  - intros u Hu. by rewrite fn_lookup_insert_ne.
  - rewrite fn_lookup_insert. by intros ? <-.
Qed.

Lemma sleeps_conc s g : PInv s g -> g t = (pa, Asleep k false) ->
  exists v, word_at L (td_addr t) s = Some v /\ (v = 1 ->
    csafe_to PInv eq t g (lput K (go_to_sleep (td_addr t) (ker s)) s) (fun c _ => c = (pa, Asleep k true)) ()).
Proof.
  intros (sa & H) Hg. pose proof (r_thread _ _ _ H t) as Hth. rewrite Hg in Hth.
  destruct (t_sleep _ _ _ _ Hth k false eq_refl) as (d & Hd & _ & _ & Hw). exists (futex d).
  unfold word_at, futex_at. rewrite Hd. split; [done|]. intros Hf.
  pose proof (t_kernel _ _ _ _ Hth) as Hk. simpl in Hk. eapply to_asleep; [exact H|exact Hg|..].
  - intros u Hu. rewrite sleepers_sleep, decide_False; [done|]. intros E. by apply td_addr_inj in E.
  - rewrite sleepers_sleep, decide_True by done. simpl. lia.
  - intros _ Hn. destruct (woken (bk sa) !! t) as [tok|]; [|done]. destruct Hw. lia.
Qed.

Lemma wakes_conc s g w : PInv s g -> g t = (pa, Asleep k true) ->
  (forall a, sleepers a w = (sleepers a (ker s) - if decide (td_addr t = a) then 1 else 0)%nat) ->
  csafe_to PInv eq t g (lput K w s) (fun c _ => c = (pa, Asleep k false)) ().
Proof.
  intros (sa & H) Hg Hs. pose proof (t_kernel _ _ _ _ (r_thread _ _ _ H t)) as Hk.
  rewrite Hg in Hk. simpl in Hk. eapply to_asleep; [exact H|exact Hg|..].
  - intros u Hu. rewrite Hs, decide_False; [lia|]. intros E. by apply td_addr_inj in E.
  - rewrite Hs, decide_True by done. simpl. lia.
  - rewrite Hs, decide_True by done. lia.
Qed.

Lemma waits_conc s g : PInv s g -> g t = (pa, Asleep k true) -> sleepers (td_addr t) (ker s) <> 0%nat ->
  shift_wait PInv may_wait s g t.
Proof. intros _ Hg Hs. exists (g t). split; [reflexivity|]. rewrite Hg. auto. Qed.

Lemma futex_wait_conc n ts :
  rsafe n t (pa, Asleep k false) (Parker.futex_wait K (word_at L) (td_addr t) ts)
    (fun c _ => c = (pa, Asleep k false)).
Proof.
  apply rs_csafe, (futex_wait_safe K (word_at L) PInv eq (shift_wait PInv may_wait) t (td_addr t)
    (fun c => c = (pa, Asleep k false)) (fun c => c = (pa, Asleep k true)));
    [by intros; subst..|exact sleeps_conc|exact wakes_conc|exact waits_conc|done].
Qed.

Lemma park_safe_conc n :
  rsafe n t (pa, Asleep k false) (parker_park L K (td_addr t)) (fun c _ => exists tok, c = (pa, Awake tok)).
Proof.
  apply rs_csafe, (park_safe K (word_at L) (read_word L) PInv eq (shift_wait PInv may_wait) t (td_addr t)
    (fun c => c = (pa, Asleep k false)) (fun c => c = (pa, Asleep k true)));
    [by intros; subst..| |exact sleeps_conc|exact wakes_conc|exact waits_conc|done].
  intros m c ->. apply read_word_conc; [done|]. intros sa _. by apply exec_refl.
Qed.
End Sleep.

(** A thread that was woken is not reported, and takes its token. *)
Lemma on_unpark_conc n t pa tok :
  rsafe n t (pa, Awake tok) (on_unpark L K (td_addr t)) (fun c _ => c = (pa, Awake tok)).
Proof.
  eapply rs_bind with (P := fun c d => c = (pa, Awake tok) /\ d = false).
  - apply rs_act. intros s g (sa & H) Hg. pose proof (r_thread _ _ _ H t) as Hth. rewrite Hg in Hth.
    destruct (t_awake _ _ _ _ Hth tok eq_refl) as [(k & d & -> & -> & _) _]. rewrite lput_lget.
    exists g. split_and!; [by exists sa|done..].
  - intros m ? ? _ [-> ->]. by apply rs_ret.
Qed.

(** A thread that was woken lets its specification see that. *)
Lemma awake_up t pa pa' tok : (t < length pas)%nat ->
  (forall sa, woken (bk sa) !! t = Some tok -> exec pa sa pa' sa) ->
  up t (pa, Awake tok) (pa', Awake tok).
Proof.
  intros Ht Hx s g (sa & H) Hg. pose proof (r_thread _ _ _ H t) as Hth. rewrite Hg in Hth.
  destruct (t_awake _ _ _ _ Hth tok eq_refl) as [_ Hw].
  exists (<[t := (pa', Awake tok)]> g). split_and!.
  - exists sa. replace (Awake tok) with (g t).2 by by rewrite Hg.
    apply (rel_quiet s s sa sa); try done; [|apply H]. rewrite Hg. by apply Hx.
  - by rewrite fn_lookup_insert.
  - intros u Hu. by rewrite fn_lookup_insert_ne.
Qed.

Lemma sleep_up t kk tok : (t < length pas)%nat ->
  up t (bind (sleep A t) kk, Awake tok) (kk tok, Awake tok).
Proof.
  intros Ht. apply awake_up; [done|]. intros sa Hw.
  eapply (exec_step calm); [simpl; by rewrite Hw|]. apply exec_refl. reflexivity.
Qed.

Lemma until_up t dl kk tok : (t < length pas)%nat ->
  up t (bind (sleep_until A t dl) kk, Awake tok) (kk true, Awake tok).
Proof.
  intros Ht. apply awake_up; [done|]. intros sa Hw. apply exec_evals, evals_forever.
  eapply evals_bind; [by apply evals_act'|]. rewrite Hw. constructor.
Qed.

Lemma token_conc n t pa tok : (t < length pas)%nat ->
  rsafe n t (pa, Awake tok) (lift L (td_read (td_addr t) unpark_token))
    (fun c r => c = (pa, Free) /\ r = tok).
Proof.
  intros Ht. apply rs_act. intros s g (sa & H) Hg. pose proof (r_thread _ _ _ H t) as Hth.
  rewrite Hg in Hth. destruct (t_awake _ _ _ _ Hth tok eq_refl) as [(k & d & -> & _ & _ & Hw) Hn].
  rewrite lput_lget. rewrite Hn in Hw. destruct Hw as [_ ->].
  eapply goes_phase; [|done]. eapply (rel_step s s sa sa); [exact H|done| |split|];
    rewrite ?Hg; simpl; try done; try apply H.
  - apply exec_refl. reflexivity.
  - intros Hl. pose proof (r_held _ _ _ H t Hl) as Ho. by rewrite Hg in Ho.
  - intros u Hs Hu. by right.
  - auto.
  - destruct Hth. split; try done; intros k' Hk'; destruct (t_queue0 k' Hk'); congruence.
  - intros u Hu. apply frame_refl.
Qed.

(** A thread that owns the bucket puts itself into the queue. *)
Lemma append_conc n t k kk l b token timeout : (t < length pas)%nat -> hash_of k bits = Z.of_nat i ->
  taken t l b -> t ∉ (queue b).*1 ->
  rsafe n t (bind (enqueue A t k) kk, Owns l b None) (lift L (append (td_addr t) k (p, i) token timeout))
    (fun c _ => exists l' b', c = (kk (), Owns l' b' None) /\ simulates l' b' /\ locked_by b' = Some t /\
       td_ok l' b' t k /\ (t, k) ∈ queue b').
Proof.
  intros Ht Hk [Hsim Hl Htls _] Hout.
  destruct (sim_lot _ _ _ _ _ _ Hsim) as (T & HT & _).
  destruct (li_tls _ _ _ _ _ HT _ _ Htls) as (_ & d & Hd & Hdl).
  destruct (sim_here _ _ _ _ _ _ Hsim Hi) as (x & Hx & _ & _ & Hok & Hnd & _).
  set (b' := set_woken (delete t (woken b)) (set_queue (queue b ++ [(t, k)]) b)).
  eapply rs_shift.
  { apply own_up with (b' := b') (c' := kk ()) (w' := None); [done| | |by left].
    - intros sa <-. eapply (exec_step calm); [reflexivity|]. apply exec_refl. reflexivity.
    - split; simpl; [done|..].
      + intros u Hu. by rewrite lookup_delete_ne.
      + intros u k' Hu Hin. apply elem_of_app in Hin as [|Hin]; [done|].
        apply list_elem_of_singleton in Hin. congruence.
      + intros u k' _ Hin. left. set_solver.
      + intros k' _. apply lookup_delete_eq. }
  eapply rs_mono; [|eapply own_run with (m := n) (Q := fun _ _ l' => requeued (p, i)
    (set_tds (<[td_addr t := asleep k token timeout d]> (tds l)) l) l' (queue b) (queue b ++ [(t, k)]));
    [done| |done|apply keeps_append]].
  2: by eapply append_ok.
  intros c [] (m & l' & -> & Hr).
  destruct (sim_append _ _ _ _ Hi _ _ _ _ _ _ _ _ Hsim (conj Hout (fun j q k' => idle t j q k' Ht)) Hk Hd Hr)
    as (Sim2 & d2 & Hd2 & Hf2 & Hk2 & Hdl2).
  exists l', b'. split_and!; [done..| |simpl; set_solver]. exists d2. simpl. rewrite lookup_delete_eq, Hdl2. done.
Qed.

Lemma with_thread_data_conc n t c : (t < length pas)%nat ->
  rsafe n t c (lift L (with_thread_data t)) (fun c' a => c' = c /\ a = td_addr t).
Proof.
  intros Ht. eapply rs_lift_bind.
  { apply (quiet_read _ _ _ _ (Some (td_addr t))). intros l b Hs. by rewrite (st_tls _ _ Hs). }
  intros m ? ? _ [-> ->]. by apply rs_ret.
Qed.

(** *** Sleeping *)

(** Without a timeout. *)
Lemma sleep_conc n t k kk : (t < length pas)%nat ->
  rsafe n t (bind (sleep A t) kk, Asleep k false)
    (parker_park L K (td_addr t) ;; on_unpark L K (td_addr t) ;; Ret true)
    (fun c r => r = true /\ exists tok, c = (kk tok, Awake tok)).
Proof.
  intros Ht. eapply rs_bind.
  { apply park_safe_conc; [done|]. intros s Hs. split; [done|]. right. left. exists t, kk. split; [reflexivity|done]. }
  intros m1 ? [] _ (tok & ->).
  eapply rs_bind; [apply on_unpark_conc|]. intros m2 ? [] _ ->.
  eapply rs_shift; [by apply sleep_up|]. apply rs_ret. eauto.
Qed.

(** With a timeout: the specification reads the clock when the code does. *)
Lemma until_exec t dl (kk : bool -> prog Sa Res) sa : woken (bk sa) !! t = None ->
  exec (bind (sleep_until A t dl) kk) sa
    (Ask (fun e => if dl <=? clock e then kk false else bind (sleep_until A t dl) kk)) sa.
Proof.
  intros Hw. eapply (exec_step calm); [reflexivity|]. eapply (exec_step calm); [reflexivity|].
  apply exec_refl. simpl. rewrite Hw. simpl. apply peq_ask. intros e. destruct (dl <=? clock e); reflexivity.
Qed.

Lemma park_until_conc n t k dl kk : (t < length pas)%nat -> timed = true ->
  rsafe n t (bind (sleep_until A t dl) kk, Asleep k false) (park_until L K (td_addr t) dl)
    (fun c r => r = true /\ (exists tok, c = (kk true, Awake tok)) \/
                r = false /\ c = (kk false, Asleep k false)).
Proof.
  intros Ht Htimed.
  assert (Hwait : forall s, sleepers (td_addr t) (ker s) <> 0%nat ->
    may_wait s (bind (sleep_until A t dl) kk, Asleep k true)) by (intros s _; split; [done|by right; right; right]).
  apply (rs_forever _ _ _ _ (fun c => c = (bind (sleep_until A t dl) kk, Asleep k false))); [done|].
  intros m ? _ ->. eapply rs_bind.
  { apply rs_csafe, read_word_conc; [done|]. apply until_exec. }
  intros m1 ? f _ [[Hf ->]|[-> (tok & ->)]]; [rewrite (proj2 (Z.eqb_neq _ _) Hf)|].
  - apply rs_ask. intros e m2 _. cbn [bind]. eapply rs_shift.
    { apply spec_up; [done|]. intros sa. eapply (exec_step e); [reflexivity|]. apply exec_refl. reflexivity. }
    destruct (dl <=? clock e); [apply rs_ret; by right|].
    destruct (negb _).
    + eapply rs_bind; [by apply park_safe_conc|]. intros m3 ? [] _ (tok & ->).
      eapply rs_shift; [by apply until_up|]. apply rs_ret. left. eauto.
    + eapply rs_bind; [by apply futex_wait_conc|]. intros m3 ? [] _ ->. by apply rs_ret.
  - eapply rs_shift; [by apply until_up|]. apply rs_ret. left. eauto.
Qed.

(** *** After a timeout *)

Lemma key_conc n t pa k :
  rsafe n t (pa, Asleep k false) (lift L (td_read (td_addr t) key))
    (fun c r => c = (pa, Asleep k false) /\ r = k).
Proof.
  apply rs_act. intros s g (sa & H) Hg. pose proof (r_thread _ _ _ H t) as Hth. rewrite Hg in Hth.
  destruct (t_sleep _ _ _ _ Hth k false eq_refl) as (d & -> & _ & -> & _). rewrite lput_lget.
  exists g. split_and!; [by exists sa|done..].
Qed.

(** The owner reads its own thread data. *)
Lemma own_td_read {X} n t pa l b w a d (f : ThreadData -> X) : (t < length pas)%nat -> tds l !! a = Some d ->
  rsafe n t (pa, Owns l b w) (lift L (td_read a f)) (fun c x => c = (pa, Owns l b w) /\ x = f d).
Proof. intros Ht Hd. apply own_act; [done|by rewrite Hd|apply lot_step_refl]. Qed.

Lemma lock_bucket_checked_conc n t k kk : (t < length pas)%nat -> hash_of k bits = Z.of_nat i ->
  rsafe n t (bind (Parking.lock_bucket A t) kk, Asleep k false) (lift L (lock_bucket_checked (td_addr t)))
    (fun c r => r = (k, (p, i)) /\ exists l b, c = (kk (), Owns l b None) /\ taken t l b /\
       td_ok l b t k /\ (woken b !! t = None -> (t, k) ∈ queue b)).
Proof.
  intros Ht Hk.
  apply (rs_lift_forever _ _ _ _ _ (fun c => c = (bind (Parking.lock_bucket A t) kk, Asleep k false))); [done|].
  intros m ? _ ->. eapply rs_lift_bind; [apply get_table_conc|]. intros m1 ? ? _ [-> ->].
  eapply rs_lift_bind; [apply key_conc|]. intros m2 ? ? _ [-> ->].
  apply find_bucket_conc; [done|]. intros m3 _.
  eapply rs_lift_bind; [apply bucket_lock_conc; [done|right; eauto]|]. intros m4 ? [] _ (l & b & -> & Htk & Hkn).
  eapply rs_lift_bind.
  { apply (own_act _ t _ l b None (fun l => Ok (HASHTABLE l, l)) (HASHTABLE l) l); [done|done|].
    apply lot_step_refl. }
  intros m5 ? ? _ [-> ->].
  destruct (sim_table _ _ _ _ _ _ (tk_sim _ _ _ Htk)) as [-> _]. rewrite Z.eqb_refl.
  pose proof (proj1 Hkn) as (d & Hd & _ & Hkd & _).
  eapply rs_lift_bind with (P := fun c ok => c = (kk (), Owns l b None) /\ ok = true).
  { eapply rs_lift_bind; [by eapply own_td_read|]. intros m6 ? ? _ [-> ->]. apply rs_ret.
    by rewrite Hkd, Z.eqb_refl. }
  intros m6 ? ? _ [-> ->]. apply rs_ret. eauto 10.
Qed.

Lemma timed_out_conc n t pa l b w d : (t < length pas)%nat -> tds l !! td_addr t = Some d ->
  rsafe n t (pa, Owns l b w) (lift L (timed_out (td_addr t)))
    (fun c late => c = (pa, Owns l b w) /\ late = negb (futex d =? 0)).
Proof.
  intros Ht Hd. eapply rs_lift_bind; [by eapply own_td_read|]. intros m ? ? _ [-> ->]. by apply rs_ret.
Qed.

Lemma remove_change t b : own_change t None b (set_queue (remove_thread t (queue b)) b).
Proof.
  split; simpl; [done|done|..].
  - intros u k _ Hin. by apply list_elem_of_filter in Hin as [_ ?].
  - intros u k Hu Hin. left. by apply list_elem_of_filter.
  - intros k Hin. by apply list_elem_of_filter in Hin as [? _].
Qed.

(** The thread was woken in time after all. *)
Lemma in_time_conc n t kk l b k tok : (t < length pas)%nat -> taken t l b -> td_ok l b t k ->
  woken b !! t = Some tok ->
  rsafe n t (bind (unlock_bucket A ;; Ret (Unparked tok)) kk, Owns l b None)
    (lift L (bucket_unlock (p, i)) ;;
     let! r := lift L (td_read (td_addr t) unpark_token) in Ret (Unparked r))
    (fun c r => c = (kk r, Free)).
Proof.
  intros Ht [Hsim Hl _ Hq] Htd Hw.
  eapply rs_shift; [apply peq_up; [done|apply bind_assoc]|]. eapply rs_bind.
  { apply (bucket_unlock_conc _ _ _ _ _ _ (Awake tok)); try done; simpl; [tauto|..].
    - intros tok' [= <-]. eauto.
    - intros Hin. apply list_elem_of_fmap in Hin as ([t' k'] & E & Hin). simpl in E. subst t'.
      rewrite (Hq k' Hin) in Hw. done. }
  intros m1 ? [] _ ->. eapply rs_bind; [by apply token_conc|]. intros m2 ? ? _ [-> ->]. by apply rs_ret.
Qed.

(** It was not: it takes itself off the queue. *)
Lemma late_conc n t kk l b k (toc : Z -> bool -> prog Sc ()) (toa : Z -> bool -> prog Sa ()) :
  (t < length pas)%nat -> taken t l b -> (t, k) ∈ queue b ->
  (forall st k w, pending st = None -> refines st t (toc k w) (toa k w)) ->
  rsafe n t (bind (modify A (fun b => set_queue (remove_thread t (queue b)) b) ;;
                   let! q := load (fun sa => queue (bk sa)) in
                   toa k (negb (waits_for k q)) ;; unlock_bucket A ;; Ret TimedOut) kk, Owns l b None)
    (let! r := lift L (remove_self (td_addr t) k (p, i)) in
     match r with
     | Some was_last_thread => toc k was_last_thread
     | None => fail Panic
     end ;;
     lift L (bucket_unlock (p, i)) ;; Ret TimedOut) (fun c r => c = (kk r, Free)).
Proof.
  intros Ht [Hsim Hl _ _] Hin Hto. set (b' := set_queue (remove_thread t (queue b)) b).
  destruct (sim_here _ _ _ _ _ _ Hsim Hi) as (x & Hx & _ & _ & Hok & Hnd & _).
  assert (Hout : t ∉ (queue b').*1).
  { intros Ht'. apply list_elem_of_fmap in Ht' as ([t' k'] & E & Hin'). simpl in E. subst t'.
    by apply list_elem_of_filter in Hin' as [? _]. }
  eapply rs_bind.
  { apply own_run with (m := n) (Q := fun _ o l' =>
      o = Some (negb (waits_for k (queue b'))) /\ requeued (p, i) l l' (queue b) (queue b'));
      [done| |done|apply keeps_remove_self].
    eapply remove_self_ok; [exact Hx|exact Hok|exact Hnd|exact Hin|by intros l' Hr]. }
  intros m1 ? o _ (_ & l2 & -> & -> & Hr).
  assert (Sim2 : simulates l2 b').
  { apply (sim_shorter _ _ _ _ Hi _ _ _ _ Hsim Hr).
    - eapply sublist_NoDup; [exact Hnd|]. apply fmap_sublist, sublist_filter.
    - intros e He. by apply list_elem_of_filter in He as [_ ?]. }
  eapply rs_shift.
  { apply own_evals with (b' := b') (a := ()) (w' := None); [done| |apply remove_change|by left].
    intros sa <-. by apply evals_act'. }
  eapply rs_shift.
  { apply own_evals with (b' := b') (a := queue b') (w' := None); [done| | |by left].
    - intros sa <-. rewrite lput_lget. by apply evals_act'.
    - apply own_change_same; try done. intros k' Hk'. by destruct (not_queued t (queue b') k' Hout). }
  eapply rs_shift; [apply peq_up; [done|apply bind_assoc]|].
  eapply rs_bind; [by apply Hto|]. intros m2 ? [] _ ->.
  eapply rs_shift; [apply peq_up; [done|apply bind_assoc]|]. eapply rs_bind.
  { apply (bucket_unlock_conc _ _ _ _ _ _ Free); try done; simpl; tauto. }
  intros m3 ? [] _ ->. by apply rs_ret.
Qed.

(** *** The operation *)

Section Park.
Context (t : nat) (k : Z) (vc : prog Sc bool) (va : prog Sa bool) (bsc : prog Sc ()) (bsa : prog Sa ())
  (toc : Z -> bool -> prog Sc ()) (toa : Z -> bool -> prog Sa ()) (token : Z).
Context (Ht : (t < length pas)%nat) (Hk : hash_of k bits = Z.of_nat i).
Context (Hv : forall st, pending st = None -> refines st t vc va)
  (Hbs : forall st, pending st = None -> refines st t bsc bsa)
  (Hto : forall st k w, pending st = None -> refines st t (toc k w) (toa k w)).

(** What follows once the time has passed. *)
Lemma expired_conc n kk :
  rsafe n t (bind (Parking.lock_bucket A t ;;
                   let! w := load (fun sa => woken (bk sa) !! t) in
                   match w with
                   | Some tok => unlock_bucket A ;; Ret (Unparked tok)
                   | None =>
                       modify A (fun b => set_queue (remove_thread t (queue b)) b) ;;
                       let! q := load (fun sa => queue (bk sa)) in
                       toa k (negb (waits_for k q)) ;; unlock_bucket A ;; Ret TimedOut
                   end) kk, Asleep k false)
    (let! re := lift L (lock_bucket_checked (td_addr t)) in
     let '(k, b) := re in
     let! late := lift L (timed_out (td_addr t)) in
     if negb late then
       lift L (bucket_unlock b) ;;
       let! r := lift L (td_read (td_addr t) unpark_token) in Ret (Unparked r)
     else
       let! r := lift L (remove_self (td_addr t) k b) in
       match r with
       | Some was_last_thread => toc k was_last_thread
       | None => fail Panic
       end ;;
       lift L (bucket_unlock b) ;; Ret TimedOut) (fun c r => c = (kk r, Free)).
Proof.
  eapply rs_shift; [apply peq_up; [done|apply bind_assoc]|].
  eapply rs_bind; [by apply lock_bucket_checked_conc|]. intros m1 ? ? _ (-> & l & b & -> & Htk & Htd & Hq).
  pose proof Htd as (d & Hd & _ & _ & Hf).
  eapply rs_shift.
  { apply own_evals with (b' := b) (a := woken b !! t) (w' := None); [done| | |by left].
    - intros sa <-. rewrite lput_lget. by apply evals_act'.
    - apply own_change_same; try done. apply Htk. }
  eapply rs_bind; [by eapply timed_out_conc|]. intros m2 ? ? _ [-> ->].
  destruct (woken b !! t) as [tok|] eqn:Hw.
  - destruct Hf as [-> _]. by eapply in_time_conc.
  - rewrite Hf. apply late_conc; auto.
Qed.

Lemma park_refined timeout : (timed = false -> timeout = None) ->
  refines Free t (Lot.park L K t k vc bsc toc token timeout) (B_park A t k va bsa toa token timeout).
Proof.
  intros Htimed n kk. unfold Lot.park, B_park.
  eapply rs_bind; [by apply with_thread_data_conc|]. intros m0 ? ? _ [-> ->].
  eapply rs_shift; [apply peq_up; [done|apply bind_assoc]|].
  eapply rs_bind; [by apply lock_bucket_conc|]. intros m1 ? ? _ (-> & l & b & -> & Htk & Hout).
  eapply rs_shift; [apply peq_up; [done|apply bind_assoc]|].
  eapply rs_bind; [by apply Hv|]. intros m2 ? v _ ->. destruct v; simpl.
  - eapply rs_shift; [apply peq_up; [done|apply bind_assoc]|].
    eapply rs_bind; [by apply append_conc|]. intros m3 ? [] _ (l2 & b2 & -> & Hsim & Hl & Htd & Hin).
    eapply rs_shift; [apply peq_up; [done|apply bind_assoc]|].
    eapply rs_bind.
    { apply (bucket_unlock_conc _ _ _ _ _ _ (Asleep k false)); try done; [simpl; tauto|]. by intros k' kb [= <- <-]. }
    intros m4 ? [] _ ->.
    eapply rs_shift; [apply peq_up; [done|apply bind_assoc]|].
    eapply rs_bind; [by apply Hbs|]. intros m5 ? [] _ ->.
    destruct timeout as [dl|]; (eapply rs_shift; [apply peq_up; [done|apply bind_assoc]|]).
    + eapply rs_bind; [apply park_until_conc; [done|by destruct timed; [|specialize (Htimed eq_refl)]]|].
      intros m6 ? r _ [[-> (tok & ->)]|[-> ->]]; [|by apply expired_conc].
      eapply rs_shift; [apply peq_up; [done|apply bind_assoc]|].
      eapply rs_shift; [by apply sleep_up|].
      eapply rs_bind; [by apply token_conc|]. intros m7 ? ? _ [-> ->]. by apply rs_ret.
    + eapply rs_bind; [by apply sleep_conc|]. intros m6 ? ? _ (-> & tok & ->).
      eapply rs_bind; [by apply token_conc|]. intros m7 ? ? _ [-> ->]. by apply rs_ret.
  - eapply rs_shift; [apply peq_up; [done|apply bind_assoc]|].
    eapply rs_bind; [destruct Htk; apply (bucket_unlock_conc _ _ _ _ _ _ Free); try done; simpl; tauto|].
    intros m3 ? [] _ ->. by apply rs_ret.
Qed.
End Park.

(** ** Pools of threads *)

(** [lowers t top pc pa]: [pc] is [pa] with the operations of the parking lot in place of
    those on the abstract bucket, called by thread [t]; where [top] is [false], none is
    called. *)
Inductive lowers t : bool -> forall X, prog Sc X -> prog Sa X -> Prop :=
| lw_ret top X (a : X) : lowers t top X (Ret a) (Ret a)
| lw_bind top X Y pc pa (gc : X -> prog Sc Y) ga :
    lowers t top X pc pa -> (forall a, lowers t top Y (gc a) (ga a)) ->
    lowers t top Y (bind pc gc) (bind pa ga)
| lw_act top X (fc : Sc -> res (X * Sc)) fa : rest_act fc fa -> lowers t top X (act fc) (act fa)
| lw_ask top X (kc : env -> prog Sc X) ka :
    (forall e, lowers t top X (kc e) (ka e)) -> lowers t top X (Ask kc) (Ask ka)
| lw_loop top X I R (bc : I -> prog Sc (I + R)) ba j (kc : R -> prog Sc X) ka :
    (forall j, lowers t top (I + R) (bc j) (ba j)) -> (forall r, lowers t top X (kc r) (ka r)) ->
    lowers t top X (Loop bc j kc) (Loop ba j ka)
| lw_park k vc va bsc bsa toc toa token timeout :
    hash_of k bits = Z.of_nat i -> (timed = false -> timeout = None) ->
    lowers t false bool vc va -> lowers t false () bsc bsa -> (forall k w, lowers t false () (toc k w) (toa k w)) ->
    lowers t true ParkResult (Lot.park L K t k vc bsc toc token timeout)
      (B_park A t k va bsa toa token timeout)
| lw_unpark_one k (cbc : UnparkResult -> prog Sc Z) cba :
    hash_of k bits = Z.of_nat i -> (forall r, lowers t false Z (cbc r) (cba r)) ->
    lowers t true UnparkResult (Lot.unpark_one L K k cbc) (B_unpark_one A t k cba).

Lemma lowers_refines t top X (pc : prog Sc X) pa : lowers t top X pc pa -> (t < length pas)%nat ->
  forall st, pending st = None -> (top = true -> st = Free) -> refines st t pc pa.
Proof.
  intros H Ht. induction H as [| | | | |k vc va bsc bsa toc toa token timeout Hk Hto Hv IHv Hb IHb Hc IHc|
    k cbc cba Hk Hc IHc];
    intros st Hst Htop.
  - by apply ref_ret.
  - apply ref_bind; auto.
  - by apply ref_act.
  - apply ref_ask; auto.
  - apply ref_loop; auto.
  - rewrite (Htop eq_refl). apply park_refined; try done; intros; [by apply IHv|by apply IHb|by apply IHc].
  - rewrite (Htop eq_refl). apply unpark_one_refined; [done|done|]. intros. by apply IHc.
Qed.

(** The state at the start: nobody waits in the bucket or sleeps in the kernel. *)
Record ready s sa : Prop := {
  rd_same : same s sa;
  rd_sim : simulates (lot s) (bk sa);
  rd_lock : locked_by (bk sa) = None;
  rd_queue : queue (bk sa) = [];
  rd_tls t : (t < length pas)%nat -> tls (lot s) !! t = Some (td_addr t);
  rd_kernel t : sleepers (td_addr t) (ker s) = 0%nat;
}.

Definition start (t : nat) : phase :=
  match pas !! t with Some pa => (pa, Free) | None => (bind (fail Panic) Ret, Free) end.

Lemma rel_start s : ready s sa0 -> Rel s sa0 start.
Proof.
  intros []. assert (Hst : forall t, (start t).2 = Free) by (intros t; unfold start; by destruct (pas !! t)).
  split; try done.
  - apply reach_start. intros t pa Hpa. unfold start. by rewrite Hpa.
  - by apply sim_steady.
  - by rewrite rd_lock0.
  - intros t Hs. by rewrite rd_kernel0 in Hs.
  - intros t k kb. by rewrite Hst.
  - intros t. rewrite Hst. split; try done.
    + rewrite rd_queue0. intros k Hk. by apply not_elem_of_nil in Hk.
    + by rewrite rd_kernel0.
Qed.

(** The same for pools. *)
Record lower_pool (pcs : list (prog Sc Res)) : Prop := {
  lp_length : length pcs = length pas;
  lp_lowers t pc pa : pcs !! t = Some pc -> pas !! t = Some pa -> lowers t true Res pc pa;
}.

Lemma pool_refines pcs : lower_pool pcs ->
  pool_safe PInv eq (shift_wait PInv may_wait) pcs start
    (fun t c a => exists c', up t c c' /\ c' = (Ret a, Free)).
Proof.
  intros [Hlen Hlow] t pc Hpc n. pose proof (lookup_lt_Some _ _ _ Hpc) as Hlt. rewrite Hlen in Hlt.
  destruct (lookup_lt_is_Some_2 pas t Hlt) as [pa Hpa]. unfold start. rewrite Hpa.
  eapply rs_shift; [apply (peq_up _ _ (bind pa Ret)); [done|symmetry; apply bind_ret_r]|].
  by apply (lowers_refines _ _ _ _ _ (Hlow t pc pa Hpc Hpa)).
Qed.

(** A thread of the code that has returned, or has to wait. *)
Definition at_rest {St X} (s : St) (q : prog St X) : Prop :=
  match q with Ret _ => True | _ => step calm q s = Some Block end.

#[export] Instance at_rest_dec {St X} (s : St) (q : prog St X) : Decision (at_rest s q).
Proof.
  destruct q as [a|Y f k|k|I R body j k]; simpl; [apply _| |by right..].
  destruct (f s) as [[]| |]; [by right|by left|by right].
Defined.

(** Without timeouts, a thread that waits, waits in the specification as well, unless
    somebody is about to wake it in the kernel. *)
Lemma waits_too s sa (g : nat -> phase) t : Rel s sa g -> timed = false ->
  (forall u, (u < length pas)%nat -> pending (g u).2 = None) -> may_wait s (g t) ->
  step calm (g t).1 sa = Some Block.
Proof.
  intros H Hto Hnone [_ Hw].
  destruct Hw as [(me & k & Hq & x & Hx & Hm)|[(me & k & Hq & Hs)|[(X & f & k & -> & Hf)|Hw]]]; [..|congruence].
  - pose proof (step_peq calm _ _ sa Hq) as Hst. simpl in Hst.
    destruct (steady_bucket _ _ (r_steady _ _ _ H)) as (y & Hy & Hmy). simplify_eq.
    destruct (locked_by (bk sa)); [|by rewrite Hmy in Hm]. by destruct (step calm (g t).1 sa) as [[[]| |]|].
  - pose proof (step_peq calm _ _ sa Hq) as Hst. simpl in Hst.
    destruct (woken (bk sa) !! me) as [tok|] eqn:Hwk.
    + destruct (r_pend _ _ _ H me Hs) as (u & Hu & Hp); [by rewrite Hwk|]. by rewrite Hnone in Hp.
    + by destruct (step calm (g t).1 sa) as [[[]| |]|].
  - simpl. by rewrite Hf by apply H.
Qed.

(** What the states of the two pools have in common. *)
Record matches (ts : list (prog Sc Res)) s (ts' : list (prog Sa Res)) sa : Prop := {
  ma_same : same s sa;
  ma_bucket : locked_by (bk sa) = None -> simulates (lot s) (bk sa);
  ma_done t a : ts !! t = Some (Ret a) -> ts' !! t = Some (Ret a);
  ma_rest : timed = false -> Forall (at_rest s) ts -> Forall2 (fun q q' =>
    match q with Ret a => q' = Ret a | _ => step calm q' sa = Some Block end) ts ts';
}.

Lemma settled ts s sa g : Rel s sa g -> length ts = length pas ->
  (forall t, (t < length ts)%nat -> match ts !! t with
     | Some (Ret a) => g t = (Ret a, Free)
     | Some q => at_rest s q -> may_wait s (g t)
     | None => True
     end) ->
  exists evs' ts', sched evs' pas sa0 = POk ts' sa /\ matches ts s ts' sa.
Proof.
  intros H Hlen Hall. destruct (r_reach _ _ _ H) as (evs & ts' & Hs & Hl & Hp).
  exists evs, ts'. split; [done|]. split; [apply H|apply H|..].
  - intros t a Hta. pose proof (lookup_lt_Some _ _ _ Hta) as Hlt. specialize (Hall t Hlt). rewrite Hta in Hall.
    destruct (lookup_lt_is_Some_2 ts' t) as [q Hq]; [lia|]. specialize (Hp t q Hq). rewrite Hall in Hp.
    simpl in Hp. symmetry in Hp. apply peq_inv in Hp. by rewrite Hq, Hp.
  - intros Hto Hrest. rewrite Forall_lookup in Hrest.
    apply Forall2_same_length_lookup. split; [lia|]. intros t qc q Hqc Hq.
    assert (Hwt : forall u, (u < length pas)%nat -> match ts !! u with
      | Some (Ret a) => g u = (Ret a, Free) | _ => may_wait s (g u) end).
    { intros u Hu. destruct (lookup_lt_is_Some_2 ts u) as [qu Hqu]; [lia|].
      specialize (Hall u). rewrite Hqu in Hall |- *. specialize (Hrest u qu Hqu).
      destruct qu; [apply Hall; lia|apply Hall; [lia|done]..]. }
    assert (Hnone : forall u, (u < length pas)%nat -> pending (g u).2 = None).
    { intros u Hu. specialize (Hwt u Hu). destruct (ts !! u) as [[]|]; [by rewrite Hwt|by apply Hwt..]. }
    pose proof (lookup_lt_Some _ _ _ Hq) as Hlt. rewrite Hl in Hlt. specialize (Hp t q Hq).
    specialize (Hwt t Hlt). rewrite Hqc in Hwt.
    assert (Hwait : may_wait s (g t) -> step calm q sa = Some Block).
    { intros Hw. pose proof (waits_too _ _ _ _ H Hto Hnone Hw) as Hb. pose proof (step_peq calm _ _ sa Hp) as Hst.
      rewrite Hb in Hst. by destruct (step calm q sa) as [[[]| |]|]. }
    destruct qc; [|by apply Hwait..]. rewrite Hwt in Hp. simpl in Hp. symmetry in Hp. by apply peq_inv in Hp.
Qed.

Lemma pool_matches pcs s0 evs :
  lower_pool pcs -> ready s0 sa0 ->
  match sched evs pcs s0 with
  | POk ts s => exists evs' ts' sa, sched evs' pas sa0 = POk ts' sa /\ matches ts s ts' sa
  | PFail _ _ _ => False
  | PBad => True
  end.
Proof.
  intros HF Hrd. pose proof (lp_length _ HF) as Hlm.
  pose proof (pool_adequate _ _ _ evs pcs s0 start _ (ex_intro _ _ (rel_start _ Hrd)) (pool_refines _ HF)) as H.
  destruct (sched evs pcs s0) as [ts s| |] eqn:Hs; [|done|done].
  destruct H as (g & Hinv & Hdone & _ & Hblock). pose proof (sched_length _ _ _ _ _ Hs) as Hlen.
  set (P t := match ts !! t with Some q => at_rest s q | None => False end).
  assert (Hdec : forall t, Decision (P t)) by (intros t; unfold P; destruct (ts !! t); apply _).
  destruct (shift_all PInv (length ts) s g P
    (fun t c => match ts !! t with Some (Ret a) => c = (Ret a, Free) | _ => may_wait s c end))
    as (g' & (sa & Hrel) & HD & _); [done| |].
  { intros t. unfold P. destruct (ts !! t) as [q|] eqn:Hq; [|done]. intros Hr.
    destruct q; [by apply (Hdone t)|by eapply (Hblock t _ calm)..]. }
  destruct (settled ts s sa g' Hrel) as (evs' & ts' & ? & ?); [lia| |by eauto].
  intros t Ht. specialize (HD t Ht). unfold P in HD. destruct (ts !! t) as [q|] eqn:Hq; [|done].
  destruct q; auto. by apply HD.
Qed.
End ParkConc.

(** ** Properties *)

(** C3. The parking lot implements its specification, with many threads: a pool of threads
    that call [park] and [unpark_one] on hash table, lists and futex never goes wrong, if
    the same threads on the abstract bucket do not, and every state it reaches matches a
    state that those reach.  The rest of the state is the same, a thread that has returned
    has returned the same, the lists of the bucket hold its abstract queue while it is
    unlocked, and if no thread parks with a timeout and every thread has returned or
    waits, the same threads wait in the abstract state: no wakeup is lost between futex
    and list. *)
Theorem parking_lot_refines `{TableAlloc} `{ThreadLocals} `{Kernel} {Sc Sa Res : Type}
    (L : lens Sc Lot) (K : lens Sc waiters) (A : lens Sa Parking.bucket) (same : Sc -> Sa -> Prop)
    `{!Twins L K A same} p bits i qs0 (pas : list (prog Sa Res)) sa0 timed pcs s0 evs :
  (i < length qs0)%nat -> ready L K A same p bits i qs0 pas s0 sa0 ->
  (forall t j q k, (t < length pas)%nat -> j <> i -> qs0 !! j = Some q -> (t, k) ∉ q) ->
  (forall evs', match sched evs' pas sa0 with PFail _ _ _ => False | _ => True end) ->
  lower_pool L K A same bits i pas timed pcs ->
  match sched evs pcs s0 with
  | POk ts s => exists evs' ts' sa, sched evs' pas sa0 = POk ts' sa /\
      matches L A same p bits i qs0 timed ts s ts' sa
  | PFail _ _ _ => False
  | PBad => True
  end.
Proof.
  intros Hi Hrd Hidle Hnf Hlow. destruct (sim_lot _ _ _ _ _ _ (rd_sim _ _ _ _ _ _ _ _ _ _ _ Hrd)) as (T & HT & <-).
  by apply (pool_matches L K A same p _ i qs0 Hi (li_null _ _ _ _ _ HT) (proj1 (li_ok _ _ _ _ _ HT)) pas sa0 timed Hnf Hidle).
Qed.

(** The operations on the abstract bucket never go wrong by themselves. *)
Section Harmless.
Context {St : Type} (A : lens St Parking.bucket).

Ltac harm :=
  repeat match goal with
  | |- harmless (bind _ _) => apply harmless_bind; [|intros ?]
  | |- harmless (if ?b then _ else _) => destruct b
  | |- harmless (match ?x with _ => _ end) => destruct x
  | |- harmless (Ret _) => done
  | |- harmless instant_now => done
  | |- harmless (forever _) => split; [intros _|done]
  | |- harmless (act _) => split; [intros s e; repeat case_match; done|done]
  end.

Lemma harmless_park me k validate before_sleep timed_out_cb token timeout :
  harmless validate -> harmless before_sleep -> (forall k w, harmless (timed_out_cb k w)) ->
  harmless (B_park A me k validate before_sleep timed_out_cb token timeout).
Proof.
  intros. unfold B_park, Parking.lock_bucket, unlock_bucket, enqueue, modify, sleep_until, sleep, load, store.
  harm; auto.
Qed.

Lemma harmless_unpark_one me k callback :
  (forall r, harmless (callback r)) -> harmless (B_unpark_one A me k callback).
Proof.
  intros. unfold B_unpark_one, Parking.lock_bucket, unlock_bucket, modify, load, store. harm; auto.
Qed.
End Harmless.

(** *** An example: a table of sixteen empty buckets and two threads, of which one parks
    with a timeout and the other unparks *)

Definition idle_table : HashTable :=
  MkHashTable ((fun j => Bucket_new 0 (Z.of_nat j + 1)) <$> seq 0 16) 4 0.

Definition idle_lot : Lot :=
  MkLot 2 16 {[16 := idle_table]}
    (list_to_map [(td_addr 0, ThreadData_fresh 0); (td_addr 1, ThreadData_fresh 1)])
    (list_to_map [(0%nat, td_addr 0); (1%nat, td_addr 1)]) ∅.

Lemma idle_lot_is : lot_is idle_lot 16 idle_table unlocked (replicate 16 []).
Proof.
  split; try done.
  - split_and!; [simpl; lia|simpl; lia|done|]. simpl.
    repeat (constructor; [split; [unfold in_width; simpl; lia|simpl; lia]|]). constructor.
  - assert (HF : Forall (fun x => mutex x = false) (entries idle_table)) by by repeat constructor.
    rewrite Forall_lookup in HF. exact HF.
  - by repeat (constructor; [by split|]).
  - intros j q Hq. apply lookup_replicate in Hq as [-> _]. constructor.
  - intros j q t k Hq Hin. apply lookup_replicate in Hq as [-> _]. by apply not_elem_of_nil in Hin.
  - intros t a Ha. unfold idle_lot in Ha. simpl in Ha.
    apply lookup_insert_Some in Ha as [[<- <-]|[_ Ha]]; [by split; [|eexists]|].
    apply lookup_insert_Some in Ha as [[<- <-]|[_ Ha]]; [by split; [|eexists]|]. by rewrite lookup_empty in Ha.
Qed.

Section Example.
Abbreviation code := (lens_fst : lens (Lot * waiters) Lot).
Abbreviation ker := (lens_snd : lens (Lot * waiters) waiters).
Abbreviation spec := (lens_fst : lens (Parking.bucket * ()) Parking.bucket).
Definition unrelated (_ : Lot * waiters) (_ : Parking.bucket * ()) : Prop := True.

#[local] Instance example_twins : Twins code ker spec unrelated.
Proof. split; try done; apply _. Qed.

Definition park_unpark : list (prog (Lot * waiters) (ParkResult + UnparkResult)) :=
  [let! r := Lot.park code ker 0 72 (Ret true) (Ret ()) (fun _ _ => Ret ()) 0 (Some 5) in Ret (inl r);
   let! r := Lot.unpark_one code ker 72 (fun _ => Ret 3) in Ret (inr r)].
Definition park_unpark_spec : list (prog (Parking.bucket * ()) (ParkResult + UnparkResult)) :=
  [let! r := B_park spec 0 72 (Ret true) (Ret ()) (fun _ _ => Ret ()) 0 (Some 5) in Ret (inl r);
   let! r := B_unpark_one spec 1 72 (fun _ => Ret 3) in Ret (inr r)].

(** The first thread sleeps in the kernel until its time has passed; before it locks the
    bucket again, the second one wakes it. *)
Definition race : list (nat * env) :=
  steps 0 20 ++ repeat (0%nat, Env true 9) 6 ++ steps 1 19 ++ steps 0 10.

Lemma park_unpark_lower :
  lower_pool code ker spec unrelated 4 7 park_unpark_spec true park_unpark.
Proof.
  split; [done|]. intros [|[|t]] pc pa Hc Ha; simpl in Hc, Ha; simplify_eq.
  - apply lw_bind; [|intros; apply lw_ret]. apply lw_park; [done|done|apply lw_ret|apply lw_ret|intros; apply lw_ret].
  - apply lw_bind; [|intros; apply lw_ret].
    apply (lw_unpark_one code ker spec unrelated 4 7 true 1 72); [done|]. intros. apply lw_ret.
Qed.

Definition idle_bucket : Parking.bucket * () := (Parking.MkBucket None [] ∅ (FairTimeout.new 0 8), ()).

Lemma park_unpark_ready : ready code ker spec unrelated 16 4 7 (replicate 16 []) park_unpark_spec
  (idle_lot, no_waiters) idle_bucket.
Proof.
  split; try done.
  - split; simpl; [|by eexists|done]. exists idle_table. split; [exact idle_lot_is|done].
  - intros [|[|t]] Ht; [done|done|simpl in Ht; lia].
Qed.

Lemma park_unpark_harmless evs :
  match sched evs park_unpark_spec idle_bucket with PFail _ _ _ => False | _ => True end.
Proof.
  apply harmless_sched. repeat apply Forall_cons_2; [| |constructor].
  - apply harmless_bind; [|done]. by apply harmless_park.
  - apply harmless_bind; [|done]. by apply harmless_unpark_one.
Qed.

(** Nobody waits in the other buckets. *)
Lemma idle_elsewhere (t j : nat) (q : list (nat * Z)) k : replicate 16 [] !! j = Some q -> (t, k) ∉ q.
Proof. intros Hq. apply lookup_replicate in Hq as [-> _]. apply not_elem_of_nil. Qed.

(** Both return; so they do in the specification, with the same results. *)
Lemma parking_lot_refines_witness :
  exists evs sa, sched evs park_unpark_spec idle_bucket =
    POk [Ret (inl (Unparked 3)); Ret (inr (MkUnparkResult 1 0 false false))] sa.
Proof.
  assert (E : exists s, sched race park_unpark (idle_lot, no_waiters) =
    POk [Ret (inl (Unparked 3)); Ret (inr (MkUnparkResult 1 0 false false))] s)
    by (eexists; vm_compute; reflexivity).
  destruct E as [s E].
  pose proof (parking_lot_refines code ker spec unrelated 16 4 7 (replicate 16 []) park_unpark_spec
    idle_bucket true park_unpark (idle_lot, no_waiters) race ltac:(simpl; lia) park_unpark_ready
    (fun t j q k _ _ => idle_elsewhere t j q k) park_unpark_harmless park_unpark_lower) as H.
  rewrite E in H. destruct H as (evs & ts & sa & Hs & Hm). exists evs, sa. rewrite Hs. f_equal.
  pose proof (sched_length _ _ _ _ _ Hs) as Hlen. pose proof (ma_done _ _ _ _ _ _ _ _ _ _ _ _ Hm) as Hd.
  destruct ts as [|q0 [|q1 [|? ?]]]; [discriminate Hlen|discriminate Hlen| |discriminate Hlen].
  pose proof (Hd 0%nat _ eq_refl) as H0. pose proof (Hd 1%nat _ eq_refl) as H1. simpl in H0, H1. congruence.
Defined.
End Example.
