(* ===== verification/MutexLot.v ===== *)
(** * The mutex on the parking lot

    [RawMutexConc] verifies the mutex on the abstract bucket, [ParkConc] that the
    parking lot implements the abstract bucket.  Together: any number of threads that
    lock, use and unlock one [SmallMutex], with the hash table, the linked lists of
    thread data and the futex underneath. *)

From S2P Require Import Prelude Machine Conc Refine Timing ThreadParker Resources.
From S2P Require Import Parking RawMutex SmallMutex RawMutexInv RawMutexConc.
From S2P Require Import ParkLot ParkQueue ParkTable ParkSim ParkConc.

(** ** The code of the mutex on two parking lots *)

Section Lower.
Context `{TA : Lot.TableAlloc} `{TL : Lot.ThreadLocals} `{KK : Kernel} {Sc Sa : Type}.
Context (L : lens Sc Lot.Lot) (K : lens Sc waiters) (A : lens Sa bucket) (same : Sc -> Sa -> Prop)
  `{!Twins L K A same}.
Context (bits addr : Z) (i : nat) (Hk : Lot.hash_of addr bits = Z.of_nat i).

(** The same part of the two states. *)
Record part_twins {X} (Wc : lens Sc X) (Wa : lens Sa X) : Prop := {
  pt_get s sa : same s sa -> lget Wc s = lget Wa sa;
  pt_put x s sa : same s sa -> same (lput Wc x s) (lput Wa x sa);
  pt_lot x s : lget L (lput Wc x s) = lget L s;
  pt_kernel x s : lget K (lput Wc x s) = lget K s;
  pt_bucket x sa : lget A (lput Wa x sa) = lget A sa;
}.

(** The same change. *)
Record update_twins (fc : Sc -> Sc) (fa : Sa -> Sa) : Prop := {
  ut_same s sa : same s sa -> same (fc s) (fa sa);
  ut_lot s : lget L (fc s) = lget L s;
  ut_kernel s : lget K (fc s) = lget K s;
  ut_bucket sa : lget A (fa sa) = lget A sa;
}.

Context (Wc : lens Sc Z) (Wa : lens Sa Z) (HW : part_twins Wc Wa).
Context (Rc : lens Sc (gmap nat (list Z))) (Ra : lens Sa (gmap nat (list Z))) (HR : part_twins Rc Ra).
#[local] Instance code_lot : ParkingLot Sc := Lot.Lot_lot L K.
#[local] Instance spec_lot : ParkingLot Sa := bucket_lot A.

Abbreviation low := (lowers L K A same bits i false).
Abbreviation on_rest := (rest_act L K A same).

Lemma lw_load t top X (fc : Sc -> X) (fa : Sa -> X) : (forall s sa, same s sa -> fc s = fa sa) ->
  low t top X (load fc) (load fa).
Proof. intros Hf. apply lw_act. intros s sa Hs. by rewrite (Hf s sa Hs). Qed.

Lemma lw_store t top fc fa : update_twins fc fa -> low t top () (store fc) (store fa).
Proof. intros []. apply lw_act. intros s sa Hs. simpl. auto. Qed.

Lemma put_twins {X} (Vc : lens Sc X) Va x : part_twins Vc Va -> update_twins (lput Vc x) (lput Va x).
Proof. intros []. split; auto. Qed.

Lemma lw_load_state t top : low t top Z (load_state Wc) (load_state Wa).
Proof. apply lw_load, HW. Qed.

Lemma lw_store_state t top v : low t top () (store_state Wc v) (store_state Wa v).
Proof. by apply lw_store, put_twins. Qed.

Lemma lw_cas t top cur new : low t top (Z + Z) (cas_state Wc cur new) (cas_state Wa cur new).
Proof.
  apply lw_act. intros s sa Hs. rewrite (pt_get _ _ HW s sa Hs). destruct HW.
  destruct (lget Wa sa =? cur); auto.
Qed.

Lemma lw_cas_weak t top cur new :
  low t top (Z + Z) (cas_weak_state Wc cur new) (cas_weak_state Wa cur new).
Proof.
  apply lw_ask. intros e. destruct (spurious e); [|apply lw_cas]. apply lw_load. intros s sa Hs.
  by rewrite (pt_get _ _ HW s sa Hs).
Qed.

Lemma lw_resources t top f : low t top () (with_resources Rc t f) (with_resources Ra t f).
Proof.
  apply lw_act. intros s sa Hs. rewrite (pt_get _ _ HR s sa Hs). destruct HR. auto.
Qed.

Lemma lw_if t top X (b : bool) (pc1 pc2 : prog Sc X) pa1 pa2 :
  low t top X pc1 pa1 -> low t top X pc2 pa2 ->
  low t top X (if b then pc1 else pc2) (if b then pa1 else pa2).
Proof. by destruct b. Qed.

Create HintDb low.
Hint Resolve lw_ret lw_load_state lw_store_state lw_cas lw_cas_weak lw_resources : low.
Ltac low :=
  repeat first [progress intros | solve [auto with low] | apply lw_bind | apply lw_if | apply lw_loop |
    match goal with
    | |- lowers _ _ _ _ _ _ _ _ _ _ match ?x with _ => _ end _ => destruct x
    end].

Lemma lw_validate t top : low t top bool (validate Wc) (validate Wa).
Proof. unfold validate. low. Qed.

Lemma lw_time_out t top k w : low t top () (time_out Wc k w) (time_out Wa k w).
Proof.
  unfold time_out. apply lw_if; [|apply lw_ret]. apply lw_store. destruct HW. split; auto.
  intros s sa Hs. rewrite (pt_get0 s sa Hs). auto.
Qed.

Lemma lw_callback t top r : low t top Z (unlock_callback Wc r) (unlock_callback Wa r).
Proof. unfold unlock_callback. low. Qed.

Lemma lw_lock_slow t : low t true bool (lock_slow Wc addr t) (lock_slow Wa addr t).
Proof.
  unfold lock_slow, loop. low. apply lw_park; [done|done|apply lw_validate|apply lw_ret|intros; apply lw_time_out].
Qed.

Lemma lw_raw_lock t : low t true () (raw_lock Wc Rc addr t) (raw_lock Wa Ra addr t).
Proof. unfold raw_lock. pose proof (lw_lock_slow t). low. Qed.

Lemma lw_unlock_slow t : low t true () (unlock_slow Wc addr t) (unlock_slow Wa addr t).
Proof.
  apply lw_bind; [|intros; apply lw_ret].
  apply (lw_unpark_one L K A same bits i false t addr); [exact Hk|]. intros r. apply lw_callback.
Qed.

Lemma lw_raw_unlock t : low t true () (raw_unlock Wc Rc addr t) (raw_unlock Wa Ra addr t).
Proof. unfold raw_unlock. pose proof (lw_unlock_slow t). low. Qed.

Context (Dc : lens Sc nat) (Da : lens Sa nat) (HD : part_twins Dc Da).
Context (ec lc : nat -> Sc -> Sc) (ea la : nat -> Sa -> Sa).
Context (He : forall t, update_twins (ec t) (ea t)) (Hl : forall t, update_twins (lc t) (la t)).

Lemma lw_client t n : low t true () (counter_client Wc Rc Dc ec lc addr t n)
  (counter_client Wa Ra Da ea la addr t n).
Proof.
  induction n as [|n IH]; [apply lw_ret|]. simpl. unfold small_lock, guard_deref, guard_write, guard_drop.
  pose proof (lw_raw_lock t). pose proof (lw_raw_unlock t).
  assert (forall v, low t true () (store (lput Dc v)) (store (lput Da v))) by (intros; by apply lw_store, put_twins).
  pose proof (lw_load t true nat (lget Dc) (lget Da) (pt_get _ _ HD)).
  pose proof (lw_store t true _ _ (He t)). pose proof (lw_store t true _ _ (Hl t)). low.
Qed.
End Lower.

(** ** The system

    One mutex with its data, as in [RawMutexInv], with the parking lot and the kernel. *)

Section System.
Context `{TA : Lot.TableAlloc} `{TL : Lot.ThreadLocals} `{KK : Kernel}.

Record lsys : Type := MkLsys {
  lword : Z;
  llot : Lot.Lot;
  lkernel : waiters;
  lheld : gmap nat (list Z);
  lcount : nat;
  linside : list nat;
  llog : list nat;
}.

Definition l_word : lens lsys Z :=
  Lens lword (fun x s => MkLsys x (llot s) (lkernel s) (lheld s) (lcount s) (linside s) (llog s)).
Definition l_lot : lens lsys Lot.Lot :=
  Lens llot (fun x s => MkLsys (lword s) x (lkernel s) (lheld s) (lcount s) (linside s) (llog s)).
Definition l_kernel : lens lsys waiters :=
  Lens lkernel (fun x s => MkLsys (lword s) (llot s) x (lheld s) (lcount s) (linside s) (llog s)).
Definition l_held : lens lsys (gmap nat (list Z)) :=
  Lens lheld (fun x s => MkLsys (lword s) (llot s) (lkernel s) x (lcount s) (linside s) (llog s)).
Definition l_count : lens lsys nat :=
  Lens lcount (fun x s => MkLsys (lword s) (llot s) (lkernel s) (lheld s) x (linside s) (llog s)).
Definition l_enter (me : nat) (s : lsys) : lsys :=
  MkLsys (lword s) (llot s) (lkernel s) (lheld s) (lcount s) (me :: linside s) (llog s).
Definition l_leave (me : nat) (s : lsys) : lsys :=
  MkLsys (lword s) (llot s) (lkernel s) (lheld s) (lcount s)
    (filter (fun t => t <> me) (linside s)) (me :: llog s).

#[local] Instance l_parking : ParkingLot lsys := Lot.Lot_lot l_lot l_kernel.

(** Thread [t] enters its critical section [ns !! t] times. *)
Definition lclients (addr : Z) (ns : list nat) : list (prog lsys ()) :=
  imap (counter_client l_word l_held l_count l_enter l_leave addr) ns.

(** A new mutex, with the parking lot [l]. *)
Definition mutex_on (l : Lot.Lot) : lsys := MkLsys INIT l no_waiters ∅ 0 [] [].

(** In the lot [l], the bucket of [addr] has the index [i] in the table at [p], nobody
    waits in it, the threads below [n] have their thread data, and they wait nowhere. *)
Record lot_ready (p bits addr : Z) (i n : nat) (l : Lot.Lot) : Prop := {
  lr_lot : exists T qs, lot_is l p T unlocked qs /\ Lot.hash_bits T = bits /\ qs !! i = Some [] /\
    (forall t j q k, (t < n)%nat -> j <> i -> qs !! j = Some q -> (t, k) ∉ q);
  lr_bucket : Lot.hash_of addr bits = Z.of_nat i;
  lr_threads t : (t < n)%nat -> Lot.tls l !! t = Some (Lot.td_addr t);
}.

(** The two states, apart from parking lot and bucket. *)
Definition same (s : lsys) (sa : sys) : Prop :=
  lword s = word sa /\ lheld s = held sa /\ lcount s = count sa /\ linside s = inside sa /\ llog s = log sa.

#[export] Instance mutex_twins : Twins l_lot l_kernel sys_buck same.
Proof. split; try done; by split; [|intros []|]. Qed.

Lemma twins_word : part_twins l_lot l_kernel sys_buck same l_word sys_word.
Proof. by split; intros; unfold same in *; simpl; tauto. Qed.
Lemma twins_held : part_twins l_lot l_kernel sys_buck same l_held sys_held.
Proof. by split; intros; unfold same in *; simpl; tauto. Qed.
Lemma twins_count : part_twins l_lot l_kernel sys_buck same l_count sys_count.
Proof. by split; intros; unfold same in *; simpl; tauto. Qed.

Lemma twins_enter t : update_twins l_lot l_kernel sys_buck same (l_enter t) (enter t).
Proof. split; try done. unfold same. simpl. by intros s sa (? & ? & ? & -> & ?). Qed.
Lemma twins_leave t : update_twins l_lot l_kernel sys_buck same (l_leave t) (leave t).
Proof. split; try done. unfold same. simpl. by intros s sa (? & ? & ? & -> & ->). Qed.

Lemma lclients_lower bits addr i ns : Lot.hash_of addr bits = Z.of_nat i ->
  lower_pool l_lot l_kernel sys_buck same bits i (clients addr ns) false (lclients addr ns).
Proof.
  intros Hk. unfold lclients, clients. split; [by rewrite !length_imap|].
  intros t pc pa Hpc Hpa. rewrite list_lookup_imap in Hpc. rewrite list_lookup_imap in Hpa.
  destruct (ns !! t) as [n|]; [|done]. simplify_eq/=.
  apply lw_client; auto using twins_word, twins_held, twins_count, twins_enter, twins_leave.
Qed.

(** A lot that is ready, with the abstract bucket. *)
Lemma mutex_ready p bits addr i l ns : lot_ready p bits addr i (length ns) l ->
  exists f qs, (i < length qs)%nat /\
    ready l_lot l_kernel sys_buck same p bits i qs (clients addr ns) (mutex_on l) (sys_start f) /\
    (forall t j q k, (t < length (clients addr ns))%nat -> j <> i -> qs !! j = Some q -> (t, k) ∉ q).
Proof.
  intros [(T & qs & Hlot & Hb & Hq & Hidle) Hk Htls].
  destruct (lot_bucket _ _ _ _ _ _ _ Hlot Hq) as (x & _ & Hx & _).
  assert (Hlen : length (clients addr ns) = length ns) by apply length_imap.
  exists (Lot.fair_timeout x), qs. rewrite Hlen. split_and!; [by eapply lookup_lt_Some| |done].
  split; simpl; [done| |done|done|by rewrite Hlen|intros; apply sleepers_none].
  split; simpl; [|by exists x|done]. exists T. by rewrite list_insert_id.
Qed.

Lemma clients_no_fault addr f ns evs :
  match sched evs (clients addr ns) (sys_start f) with PFail _ _ _ => False | _ => True end.
Proof. pose proof (clients_reach addr f ns evs) as H. by destruct (sched _ _ _). Qed.

(** Every state that the threads reach matches one of the threads on the abstract bucket. *)
Lemma mutex_matches p bits addr i l ns evs : lot_ready p bits addr i (length ns) l ->
  match sched evs (lclients addr ns) (mutex_on l) with
  | POk ts s => exists f qs evs' ts' sa, sched evs' (clients addr ns) (sys_start f) = POk ts' sa /\
      (i < length qs)%nat /\ matches l_lot sys_buck same p bits i qs false ts s ts' sa
  | PFail _ _ _ => False
  | PBad => True
  end.
Proof.
  intros Hr. destruct (mutex_ready _ _ _ _ _ _ Hr) as (f & qs & Hi & Hrd & Hidle).
  destruct (sim_lot _ _ _ _ _ _ (rd_sim _ _ _ _ _ _ _ _ _ _ _ Hrd)) as (T & HT & Hb).
  assert (Hbits : 1 <= bits <= 31) by (rewrite <- Hb; apply (li_ok _ _ _ _ _ HT)).
  pose proof (pool_matches l_lot l_kernel sys_buck same p bits i qs Hi (li_null _ _ _ _ _ HT) Hbits
    (clients addr ns) (sys_start f) false (clients_no_fault addr f ns) Hidle (lclients addr ns) (mutex_on l) evs
    (lclients_lower bits addr i ns (lr_bucket _ _ _ _ _ _ Hr)) Hrd) as Hm.
  destruct (sched evs (lclients addr ns) (mutex_on l)) as [ts s| |]; [|done|done].
  destruct Hm as (evs' & ts' & sa & Hs & Hm). eauto 10.
Qed.
End System.

(** ** Properties *)

(** C4. Mutual exclusion and no lost update, on the parking lot: however the atomic steps
    of the clients of one mutex interleave, with the hash table, the lists of waiting
    threads and the futex underneath, nothing goes wrong, at most one thread is in its
    critical section, and when none is, the counter has every increment. *)
Theorem mutex_on_lot_exclusion `{Lot.TableAlloc} `{Lot.ThreadLocals} `{Kernel} p bits addr i l ns evs :
  lot_ready p bits addr i (length ns) l ->
  match sched evs (lclients addr ns) (mutex_on l) with
  | POk _ s => (length (linside s) <= 1)%nat /\ (linside s = [] -> lcount s = length (llog s))
  | PFail _ _ _ => False
  | PBad => True
  end.
Proof.
  intros Hr. pose proof (mutex_matches p bits addr i l ns evs Hr) as Hm.
  destruct (sched evs (lclients addr ns) (mutex_on l)) as [ts s| |]; [|done|done].
  destruct Hm as (f & qs & evs' & ts' & sa & Hs & _ & Hm). destruct (ma_same _ _ _ _ _ _ _ _ _ _ _ _ Hm) as (_ & _ & -> & -> & ->).
  pose proof (clients_reach addr f ns evs') as Hc. rewrite Hs in Hc. destruct Hc as (g & Hi & _).
  split; [by eapply at_most_one|by eapply all_counted].
Qed.

(** C5. No lost wakeup, on the parking lot: a reachable state in which every client has
    returned or waits, for the lock of the bucket or in the kernel, is one in which every
    client has returned; the mutex is then unlocked, and nobody is in the queue of its
    bucket, which is unlocked. *)
Theorem mutex_on_lot_deadlock_freedom `{Lot.TableAlloc} `{Lot.ThreadLocals} `{Kernel} p bits addr i l ns evs ts s :
  lot_ready p bits addr i (length ns) l ->
  sched evs (lclients addr ns) (mutex_on l) = POk ts s -> Forall (at_rest s) ts ->
  Forall (fun q => q = Ret ()) ts /\ lword s = INIT /\
  exists x, Lot.bucket_of (p, i) (llot s) = Some x /\ empty_bucket x.
Proof.
  intros Hr Hs Hrest. pose proof (mutex_matches p bits addr i l ns evs Hr) as Hm. rewrite Hs in Hm.
  destruct Hm as (f & qs & evs' & ts' & sa & Hs' & Hlen & Hm).
  pose proof (ma_rest _ _ _ _ _ _ _ _ _ _ _ _ Hm eq_refl Hrest) as H2.
  destruct (clients_finish addr f ns evs' ts' sa Hs') as (Hdone & Hw & Hq & Hl).
  { intros t q' Hq'. destruct (Forall2_lookup_r _ _ _ _ _ H2 Hq') as (q & _ & Hr').
    destruct q as [[]| | |]; [by left|by right..]. }
  pose proof (ma_bucket _ _ _ _ _ _ _ _ _ _ _ _ Hm Hl) as Hsim. split_and!.
  - apply Forall_lookup. intros t q Hqt. destruct (Forall2_lookup_l _ _ _ _ _ H2 Hqt) as (q' & Hq' & Hr').
    rewrite (Hdone t q' Hq') in Hr'. by destruct q as [[]| | |].
  - destruct (ma_same _ _ _ _ _ _ _ _ _ _ _ _ Hm) as (-> & _). done.
  - destruct (sim_here _ _ _ _ _ _ Hsim Hlen) as (x & Hx & _ & Hmx & [Hh Ht] & _).
    change (lget sys_buck sa) with (buck sa) in *. rewrite Hl in Hmx. rewrite Hq in Hh, Ht.
    exists x. done.
Qed.

(** *** An example: two threads, a table of sixteen empty buckets, the mutex in the seventh *)

Import Lot.

Lemma idle_lot_ready : lot_ready 16 4 72 7 2 idle_lot.
Proof.
  split.
  - exists idle_table, (replicate 16 []). split_and!; [exact idle_lot_is|done|done|].
    intros t j q k _ _. apply idle_elsewhere.
  - reflexivity.
  - intros [|[|t]] Ht; [done|done|lia].
Qed.

(** The second thread finds the mutex locked, sleeps in the kernel, is woken by the first
    one and finishes. *)
Definition two_steps : list (nat * env) := steps 0 3 ++ steps 1 47 ++ steps 0 26 ++ steps 1 16.

Lemma two_clients : exists s, sched two_steps (lclients 72 [1; 1]%nat) (mutex_on idle_lot) =
  POk [Ret (); Ret ()] s /\ llog s = [1; 0]%nat /\ linside s = [].
Proof. eexists. split; [vm_compute; reflexivity|]. done. Qed.

Lemma mutex_on_lot_exclusion_witness :
  exists s, sched two_steps (lclients 72 [1; 1]%nat) (mutex_on idle_lot) = POk [Ret (); Ret ()] s /\
    llog s = [1; 0]%nat /\ lcount s = length (llog s).
Proof.
  destruct two_clients as (s & E & Hl & Hin). exists s. split; [exact E|]. split; [exact Hl|].
  pose proof (mutex_on_lot_exclusion 16 4 72 7 idle_lot [1; 1]%nat two_steps idle_lot_ready) as H.
  rewrite E in H. exact (proj2 H Hin).
Defined.

Lemma mutex_on_lot_deadlock_freedom_witness :
  exists s, sched two_steps (lclients 72 [1; 1]%nat) (mutex_on idle_lot) = POk [Ret (); Ret ()] s /\
    lword s = INIT.
Proof.
  destruct two_clients as (s & E & _). exists s. split; [exact E|].
  eapply (mutex_on_lot_deadlock_freedom 16 4 72 7 idle_lot [1; 1]%nat two_steps [Ret (); Ret ()]).
  - exact idle_lot_ready.
  - exact E.
  - by repeat constructor.
Defined.
